(* ===== verification/_CoqProject ===== *)
-Q . S2P
Prelude.v
Bytes.v
Session.v
EventBus.v
Splitter.v
Referee.v
Interruption.v
Managers.v
Audio.v
CloudEdge.v
RtcTelephony.v
RtcLine.v
Providers.v
AsrStream.v
RtcToken.v
Lifecycle.v
Orchestrator.v
Playback.v
Synth.v
RunLoop.v
RunLoopFacts.v
WholeCall.v
Listen.v
Hearing.v
Config.v
LlmClient.v
Mocks.v
SocketTelephony.v
Binding.v
DingRtc.v
Runner.v
Window.v
Shutdown.v
Probes.v
