(* ===== verification/Prelude.v ===== *)
(** * Verification of the iSales call engine

    The engine makes outbound sales calls with a language model.  One process
    takes dial messages from Redis, runs each call as an asyncio task, and settles
    it in the database when it is over.  A call joins an RTC channel with an edge
    device that owns the modem; the caller's audio goes to a speech recogniser, the
    recognised utterances to a pre-reply gate of small "referee" models and to the
    main model, and the reply, cut into sentences, to speech synthesis and back to
    the channel, until one side ends the call.  The Python sources are under
    [src/isales_engine], the C++ binding of the vendor's RTC library under
    [src/deploy/cloud/pybind], operational scripts under [src/scripts]; this library is a
    shallow embedding of them, one file per component, with the source's names.

    ** The parts and their files

    - [Prelude], [Bytes]: Python strings (code points), JSON values, dictionaries,
      exceptions as a [result] type, record update, and byte strings with the integer
      codecs of [struct].
    - [Session]: [call_session.py], [state_machine.py].  The record [CallSession], the
      two operations that write it ([append_event], [transition_to]), and the invariant
      tying transcript, dialogue and state history together.
    - [EventBus]: [events.py], [eventbus.py].  The bus a call's tasks talk over; its
      operations, and its dispatchers and shutdown as the relation [step].
    - [Splitter]: [streaming/sentence_splitter.py].
    - [Referee]: [referee.py], [streaming/types.py], [pipeline/decider.py].  What a
      referee is asked, what its answer means, and the routing rules over the answers.
    - [Interruption]: [realtime/interruption_rules.py], [interruption_detector.py],
      [silence_detector.py], [wrapup/manager.py], as Modules [Rules], [Detector],
      [Silence], [WrapUp].
    - [Managers]: [realtime/filler_manager.py] and [transfer/manager.py] (Modules
      [Filler], [Transfer]).
    - [Audio]: [realtime/ambient.py], 16-bit mixing, fading and looping.
    - [CloudEdge]: [transport/jwt_token_verifier.py], [grpc_server.py],
      [session_dispatcher.py], [heartbeat_handler.py] (Modules [Auth], [Grpc] for the
      streams and [Listener] for start and stop of the server, [Dispatcher], [Heartbeat]).
    - [RtcTelephony]: [realtime/rtc_telephony.py] (Modules [Inbound], [Playout],
      [Client]).  The client uses the server through the class [CloudEdgeServer], which
      the model of [grpc_server.py] instantiates, and the dispatcher of [CloudEdge]
      directly.
    - [RtcLine]: the same file again, one call's line through its life: the inbound pump,
      the two inbound iterators and [close_iterators] (Module [Media]), and the playbacks
      over the outbound pump (Module [Speak]).
    - [Providers]: [providers/tts_cache.py], [llm_registry.py], [asr_volcengine.py]
      (Modules [TtsCache], [Registry], [Asr]).
    - [AsrStream]: [stream_recognize] of [asr_volcengine.py] as it runs, push task, receive
      loop and reconnects, over the sequential account of [Providers.Asr].
    - [RtcToken]: [transport/rtc_token.py].
    - [Lifecycle]: [dial_consumer.py], [session_manager.py], [call_lifecycle.py],
      [transcript_recorder.py], [event_consumer.py].  Database, Redis and registry are one
      [World]; a script of faults says which remote operations fail.
    - [Orchestrator]: [pipeline/prompt_builder.py], [greeting.py], [orchestrator.py].
      One reply: its prompt, its sentences, its fallbacks, and the eager buffer
      (Module [Eager]).
    - [Playback]: [_SynthJob] and [_play_streaming] of [run_loop.py] as a producer and a
      consumer over a bounded queue.
    - [Synth]: the synthesis jobs behind that queue and the clean-up of [_play_streaming].
    - [RunLoop], [RunLoopFacts]: the rest of [run_loop.py], from [run_session] down to the
      barge-in and voice monitors, and the theorems about it.  It composes [Session],
      [Referee], [Interruption], [Managers] and [Orchestrator] the way the code does.  An
      operator's command or a shutdown may cancel the call at each of its awaits: the field
      [cancels] says at which, and the [except] and [finally] clauses decide what it does.
    - [WholeCall]: the loop under [_runner_with_finalize] of [dial_consumer.py], from the
      first dial to the settled record ([RunLoop] on [Lifecycle]).
    - [Listen]: the listening part of [run_loop.py], the recogniser and line pumps, the
      bridges that carry their events and the operator's commands over the bus of
      [EventBus] to the call loop, from [_subscribe_control_bridges] to
      [_stop_listen_pumps].
    - [Hearing]: the caller's voice from the line to the loop, [RtcLine.Media], [AsrStream]
      and [Listen] side by side.
    - [Config]: [runtime_config.py], the [RuntimeConfig] the loop reads, assembled from the
      tables.
    - [LlmClient]: [providers/llm_openai_compatible.py] and [providers/factory.py] (Modules
      [OpenAI], [Factory]), what goes over the wire and comes back, and which client a slot
      gets.
    - [Mocks]: [providers/llm_mock.py], [asr_mock.py], [tts_mock.py].
    - [SocketTelephony]: [realtime/telephony_client.py] as the class [TelephonyClient], with
      [mock_telephony.py] and [real_telephony.py] (Modules [MockLine], [SocketLine]) and the
      client of [RtcTelephony] as its instances.
    - [Binding]: the C++ of [deploy/cloud/pybind/dingrtc_pywrap/src] (Modules [Ring],
      [Observer], [Engine], [Listener], [Locks]).
    - [DingRtc]: [transport/dingrtc/_session.py] and [_in_memory.py], the session over the
      class [RtcChannel]; the production channel runs on [Binding].
    - [Runner]: [main.py], [settings.py], [event_publisher.py], the message loop of
      [event_consumer.py], [transport/hardware_alert_handler.py] and
      [cli/mint_rtc_token.py]; it composes [Config], [LlmClient], [Providers], [Lifecycle]
      and [Listen] into one call's run and an operator's command.
    - [Window]: what [run_loop.py] does beside the turns, the prewarm of the greeting window,
      the transfer detector, the published events and the final hangup.
    - [Shutdown]: [_main] of [main.py] from its first dial to its exit, with [cancel_all] of
      [session_manager.py]; it composes [Lifecycle], [Runner] and [CloudEdge].
    - [Probes]: the credentials, codec and exchange of [scripts/tts_bidi_probe.py], what
      [scripts/continuous_asr_probe.py] sends and makes of the answers,
      [scripts/fake_dial.py], and the checks of [scripts/dingrtc_demo_smoke.py] and
      [ecs_pcm_loopback_listen.py] over the session of [DingRtc].

    ** What the theorems show

    - The call as a whole ([RunLoopFacts], [WholeCall]): every call that ends is in [END]
      with a cause and a hangup event, whatever raised inside it, or was cancelled from
      outside; however it ends, and up to two remote faults, its record is finished with its
      whole transcript and reported once; the campaign's limits hold; a turn
      releases at most one reply and cancels the other candidates; the gate fails open;
      a barge-in before audio silences the turn.
    - What the loop hears ([Hearing], [Listen], [SocketTelephony], [Runner]): the recogniser
      reads a prefix of the line's audio and its finals reach the loop; from every reachable
      state each utterance the recogniser finished is taken, discarded with the greeting or
      still to come, in order; the end of a line reaches the call over each of the three
      telephony clients; an operator's command cancels the call it names and no other.
    - The reply ([Orchestrator], [Playback], [Splitter]): a turn is never silent, eager
      generation is equivalent to direct generation, playback speaks everything in order
      and does not deadlock, no synthesis outlives a playback whose clean-up ran, and the
      splitter is a greedy cut that loses no readable text.
    - The bookkeeping ([Session], [EventBus], [Lifecycle]): the session invariant, lossless
      delivery and shutdown of the bus, finalization through remote faults, and a registry
      that holds exactly the running calls.
    - The process ([Shutdown], [Runner]): a shutdown comes to its end, and every call it
      finds has been finalized once when it does, unless its finalization was under way
      when its task was cancelled; the conditions under which the engine starts.
    - The decisions ([Referee], [Interruption], [Managers]): first match wins, rule trees
      decide their boolean formula and survive storage, the silence ladder, filler and
      hand-off order.
    - The line ([CloudEdge], [RtcTelephony], [Audio], [Providers], [RtcToken]): sound stream
      registry, isolation of edges, agreement of client and dispatcher, playout accounting,
      mixing and fading, transparent cache, protocol and token round trips.
    - The line in motion ([RtcLine], [AsrStream]): a closed call's audio ends for both of its
      consumers, after a bounded number of steps and complete; a playback is never stuck
      while the line is up; a barge-in leaves at most the fade-out to be heard and then
      silence; the recogniser's stream, however its tasks interleave, is a run
      of the sequential account.
    - The RTC session and its binding ([DingRtc], [Binding]): the ring buffer refines a
      bounded queue, no vendor engine is used after it is destroyed or kept after a leave,
      a teardown cannot deadlock with the vendor's callback threads, frames come in order
      and audio goes out whole in ten-millisecond frames.
    - Configuration and clients ([Config], [LlmClient], [Runner]): a loaded configuration
      satisfies what the loop assumes, loading fails in exactly the stated cases, the
      barge-in rule in force is the configured or the legacy one, a streamed reply is
      spoken as the vendor sent it, a slot always gets a client, and a run closes every
      client it opened.

    Some lemmas record where the code falls short of its comments:
    [Playback.waiting_sentence_lost], [RunLoopFacts.stale_signal_swallows_utterance],
    [RunLoopFacts.silence_end_leaves_line_open], [RunLoopFacts.persona_provider_dropped],
    [RunLoopFacts.unhashable_target_raises], [Splitter.trailing_quote_opens_next_sentence],
    [EventBus.aclose_cuts_delivery_in_flight], [Managers.Transfer.non_object_reply_raises],
    [CloudEdge.Grpc.close_when_full_never_ends],
    [RtcTelephony.Client.dial_without_edge_leaks_channel],
    [RtcTelephony.Client.remote_hangup_keeps_call], [Providers.Asr.truncated_frame_crashes],
    [Providers.Asr.deaf_after_reconnect], [Listen.greeting_final_survives_drain],
    [Config.zero_temperature_lost], [SocketTelephony.SocketLine.lost_link_never_recovers],
    [DingRtc.cancelled_join_leaks_engine], [DingRtc.leave_blocks_on_full_queue],
    [Binding.Locks.two_threads_deadlock], [Runner.follow_up_never_configured],
    [Runner.failed_build_leaks_client], [Probes.FakeDial.failed_inject_keeps_slot],
    [RtcTelephony.Client.pump_error_keeps_call], [RtcLine.Media.bad_gate_never_ends],
    [RtcLine.Media.odd_frame_fails_close], [RtcLine.Speak.line_end_strands_playback],
    [RtcLine.Speak.late_playback_strands], [AsrStream.refused_reconnect_not_retried],
    [AsrStream.vendor_close_ends_stream], [Synth.cut_cleanup_leaks_jobs],
    [Synth.cancel_suppressed], [Window.interrupted_turn_drops_detector],
    [Shutdown.shutdown_loses_finalization], [Shutdown.shutdown_drops_dial],
    [RunLoopFacts.cancelled_playback_goes_on], [RunLoopFacts.hangup_over_greeting_lost],
    [RunLoopFacts.hangup_at_gate_keeps_candidates], [Shutdown.shutdown_outlasted],
    [CloudEdge.Listener.failed_start_blocks] and [Runner.failed_setup_keeps_server].

    ** Conventions

    A clock reading is an integer argument, a random choice an index, an
    [asyncio] interleaving a relation [step] (one step per stretch of code between two
    awaits) closed by [rtc].  What the outside decides within a call (arriving
    transcripts, model answers, how far a playback got) is an input of the operation
    that waits for it, so a theorem for all inputs covers all behaviours.  Libraries
    outside the source (JSON, regular expressions, HMAC, zlib, JWT, audio resampling, the
    shared schemas) are section variables, with the documented facts a theorem needs as
    hypotheses.  Floating-point gains and durations are rationals.

    ** Bounds and fuel

    The loops cut by a counter get one that suffices: [TtsCache.evict] the number of
    entries, [Playout.cut_frames] and [Asr.batch] the buffer's length, [double_until]
    the number it must reach, [EventBus.drain_pending] the queue length the code itself
    reads.  [Rules.build_rule] takes Python's recursion limit as its counter, and its
    round trip holds for any limit the tree fits in.  [EventBus.drain_inline] can run for
    ever in the code when handlers keep posting, and returns [None] then.
    [RunLoop.main_turn_loop] consumes one input per iteration and reports [false] when the
    inputs end before the call does.  [DingRtc.Pybind.slices] and [Mocks.MockTts.chunks] get
    the number of bytes to cut, each pass taking at least one, as does
    [Probes.AsrProbe.feed_frames]; [Binding.Ring.drain_loop]
    counts down as the code's loop does.

    ** Not modelled

    [db.py] and [redis_client.py], which construct library objects; the registration of the
    signal handlers and the binding of the gRPC port, which the event loop and grpc do (the
    answer to the binding is an argument); the audio dump and the signal statistics that
    [_inbound_loop] logs for diagnosis; the vendor's RTC library, of which only return codes
    and callbacks are visible; the rows, schemas and speech synthesiser of the shared
    package, which is not in the repository; and argument parsing and printing in the command
    line and the scripts.  What remains of the sources beside these are imports, abstract
    signatures, re-exports and the table of names of the binding's module, which compute
    nothing.  Logging is left out everywhere. *)

From Stdlib Require Export ZArith QArith Lia Bool.
From stdpp Require Export base list gmap strings sorting relations.
Set Default Proof Using "Type".
Open Scope Z_scope.

(** ** Python [str]: a list of Unicode code points.

    [u8 s] reads the UTF-8 bytes of a Rocq string literal, so the source's
    Chinese literals are written as they are. *)
Abbreviation pystr := (list Z).

Fixpoint utf8_go (s : string) (acc : Z) (need : nat) : pystr :=
  match s with
  | EmptyString => []
  | String c s' =>
      let b := Z.of_N (Ascii.N_of_ascii c) in
      if b <? 128 then b :: utf8_go s' 0 0
      else if b <? 192 then
        let acc' := acc * 64 + (b - 128) in
        match need with
        | S O => acc' :: utf8_go s' 0 0
        | S n => utf8_go s' acc' n
        | O => utf8_go s' 0 0
        end
      else if b <? 224 then utf8_go s' (b - 192) 1
      else if b <? 240 then utf8_go s' (b - 224) 2
      else utf8_go s' (b - 240) 3
  end.

Definition u8 (s : string) : pystr := utf8_go s 0 0.

(** [len(s)]. *)
Definition zlen {A} (l : list A) : Z := Z.of_nat (length l).

(** [str.isspace] on one code point, the set [str.strip()] removes. *)
Definition is_space (c : Z) : bool :=
  ((9 <=? c) && (c <=? 13)) || ((28 <=? c) && (c <=? 32)) || (c =? 133) || (c =? 160)
  || (c =? 5760) || ((8192 <=? c) && (c <=? 8202)) || (c =? 8232) || (c =? 8233)
  || (c =? 8239) || (c =? 8287) || (c =? 12288).

Fixpoint lstrip_by (f : Z -> bool) (s : pystr) : pystr :=
  match s with
  | [] => []
  | c :: s' => if f c then lstrip_by f s' else s
  end.

Definition rstrip_by (f : Z -> bool) (s : pystr) : pystr := rev (lstrip_by f (rev s)).
Definition strip_by (f : Z -> bool) (s : pystr) : pystr := rstrip_by f (lstrip_by f s).
Definition py_strip : pystr -> pystr := strip_by is_space.

Fixpoint startswith (s p : pystr) : bool :=
  match p, s with
  | [], _ => true
  | c :: p', d :: s' => (c =? d) && startswith s' p'
  | _ :: _, [] => false
  end.

Definition endswith (s p : pystr) : bool := startswith (rev s) (rev p).

(** [p in s]. *)
Fixpoint contains (s p : pystr) : bool :=
  startswith s p || match s with [] => false | _ :: s' => contains s' p end.

(** [c in s] for one character. *)
Definition char_in (c : Z) (s : pystr) : bool := existsb (Z.eqb c) s.

Fixpoint str_join (sep : pystr) (l : list pystr) : pystr :=
  match l with
  | [] => []
  | [s] => s
  | s :: l' => s ++ sep ++ str_join sep l'
  end.

(** ** Fallible code. *)
Inductive result (E A : Type) : Type :=
| Ok (a : A)
| Err (e : E).
Arguments Ok {E A} a.
Arguments Err {E A} e.

Definition rbind {E A B} (m : result E A) (f : A -> result E B) : result E B :=
  match m with Ok a => f a | Err e => Err e end.

(** A fallible comprehension: the first error stops it. *)
Fixpoint rmap {E A B} (f : A -> result E B) (l : list A) : result E (list B) :=
  match l with
  | [] => Ok []
  | x :: l' => rbind (f x) (fun y => rbind (rmap f l') (fun ys => Ok (y :: ys)))
  end.

Declare Scope engine_scope.
Delimit Scope engine_scope with engine.
Notation "'let?' x ':=' m 'in' k" := (rbind m (fun x => k))
  (at level 10, x pattern, m at level 100, k at level 200) : engine_scope.
Open Scope engine_scope.

(** ** Python [dict] with [str] keys: insertion order, in-place update. *)
Fixpoint dget {A} (k : string) (d : list (string * A)) : option A :=
  match d with
  | [] => None
  | (k', v) :: d' => if decide (k = k') then Some v else dget k d'
  end.

Fixpoint dset {A} (k : string) (v : A) (d : list (string * A)) : list (string * A) :=
  match d with
  | [] => [(k, v)]
  | (k', v') :: d' => if decide (k = k') then (k', v) :: d' else (k', v') :: dset k v d'
  end.

(** [{**d, **e}]. *)
Definition dupdate {A} (d e : list (string * A)) : list (string * A) :=
  fold_left (fun acc kv => dset kv.1 kv.2 acc) e d.

(** ** Python values: what JSON, a config column or an event field holds. *)
Inductive pyval : Type :=
| VNone
| VBool (b : bool)
| VInt (n : Z)
| VFloat (q : Q)
| VStr (s : pystr)
| VList (l : list pyval)
| VDict (d : list (string * pyval)).

(** [str(v)] is used only on values that are already strings; the other
    renderings are abstracted by [other]. *)
Definition py_str (other : pyval -> pystr) (v : pyval) : pystr :=
  match v with VStr s => s | _ => other v end.

(** Truthiness: [bool(v)]. *)
Definition truthy (v : pyval) : bool :=
  match v with
  | VNone => false
  | VBool b => b
  | VInt n => negb (n =? 0)
  | VFloat q => negb (Qnum q =? 0)
  | VStr s => negb (zlen s =? 0)
  | VList l => negb (zlen l =? 0)
  | VDict d => negb (zlen d =? 0)
  end.

(** The exceptions the modelled code can raise on ill-shaped values. *)
Inductive PyErr : Type :=
| TypeError | ValueError | KeyError | AttributeError | OtherError
| Cancelled.                                (* [asyncio.CancelledError], not an [Exception] *)

(** [d.get(k)]. *)
Definition dgetv (k : string) (d : list (string * pyval)) : pyval := default VNone (dget k d).

(** [v == "literal"]. *)
Definition val_is (v : pyval) (s : string) : bool :=
  match v with VStr t => bool_decide (t = u8 s) | _ => false end.

(** [x in v] for a string [x]: list membership, substring, dict key; other
    values are not containers. *)
Definition str_in_val (x : pystr) (v : pyval) : result PyErr bool :=
  match v with
  | VList l => Ok (existsb (fun e => match e with VStr t => bool_decide (t = x) | _ => false end) l)
  | VStr t => Ok (contains t x)
  | VDict d => Ok (existsb (fun kv => bool_decide (u8 kv.1 = x)) d)
  | _ => Err TypeError
  end.

(** [v.get(k)]: only a dict has it. *)
Definition val_get (k : string) (v : pyval) : result PyErr pyval :=
  match v with VDict d => Ok (dgetv k d) | _ => Err AttributeError end.

(** [s.replace(old, new)] for a nonempty [old]: leftmost, non-overlapping. *)
Fixpoint replace_go (old new s : pystr) (skip : nat) : pystr :=
  match s with
  | [] => []
  | c :: s' =>
      match skip with
      | S n => replace_go old new s' n
      | O => if startswith s old then new ++ replace_go old new s' (length old - 1)
             else c :: replace_go old new s' 0
      end
  end.

Definition py_replace (s old new : pystr) : pystr := replace_go old new s 0.

(** [s.split()]: the maximal runs of non-whitespace. *)
Fixpoint split_ws (s cur : pystr) : list pystr :=
  match s with
  | [] => if decide (cur = []) then [] else [cur]
  | c :: s' =>
      if is_space c then
        (if decide (cur = []) then split_ws s' [] else cur :: split_ws s' [])
      else split_ws s' (cur ++ [c])
  end.

Definition py_split (s : pystr) : list pystr := split_ws s [].

(** ** Record update.

    [r <| proj := v |>] replaces one field.  A record declares an [Eta]
    instance, its eta expansion; the setter of a projection is found by
    abstracting the projection from it. *)
Class Eta (T : Type) := eta : T -> T.
Class Setter {R T : Type} (proj : R -> T) := set_field : (T -> T) -> R -> R.
Arguments set_field {R T} proj {_} _ _ /.

Ltac head_of t := lazymatch t with ?f _ => head_of f | _ => t end.

#[export] Hint Extern 1 (@Setter ?R ?T ?proj) =>
  let e0 := constr:(@eta R _) in
  let e := lazymatch e0 with @eta _ ?i => i end in
  let h := head_of e in
  let e' := eval unfold eta, h in e in
  let e'' := eval cbv beta in e' in
  let t := eval pattern proj in e'' in
  lazymatch t with
  | ?f _ => let s := constr:(fun (g : T -> T) => f (fun r : R => g (proj r))) in
            let s' := eval cbv beta in s in exact s'
  end : typeclass_instances.

Notation "r <| p := v |>" := (set_field p (fun _ => v) r)
  (at level 12, left associativity, p at level 200, v at level 200,
   format "r  <| p  :=  v |>") : engine_scope.
Notation "r <| p ::= f |>" := (set_field p f r)
  (at level 12, left associativity, p at level 200, f at level 200,
   format "r  <| p  ::=  f |>") : engine_scope.

(** ** Automation. *)
Create HintDb engine.

(** Case analysis on the scrutinee of a [match] in the goal or a hypothesis. *)
Ltac case_match_all :=
  repeat match goal with
  | |- context [match ?x with _ => _ end] => destruct x eqn:?
  | H : context [match ?x with _ => _ end] |- _ => destruct x eqn:?
  end.

Ltac zbool :=
  repeat match goal with
  | H : (_ <? _) = true |- _ => apply Z.ltb_lt in H
  | H : (_ <? _) = false |- _ => apply Z.ltb_ge in H
  | H : (_ <=? _) = true |- _ => apply Z.leb_le in H
  | H : (_ <=? _) = false |- _ => apply Z.leb_gt in H
  | H : (_ =? _) = true |- _ => apply Z.eqb_eq in H
  | H : (_ =? _) = false |- _ => apply Z.eqb_neq in H
  | H : (_ && _)%bool = true |- _ => apply andb_true_iff in H as [? ?]
  | H : (_ || _)%bool = false |- _ => apply orb_false_iff in H as [? ?]
  end.

(** ** Generic lemmas. *)

(** Rule induction on a step relation: an invariant the steps preserve holds
    of every state they reach. *)
Lemma rtc_invariant {A} (R : A -> A -> Prop) (P : A -> Prop) :
  (forall x y, P x -> R x y -> P y) -> forall x y, rtc R x y -> P x -> P y.
Proof. intros HR x y H. induction H; eauto. Qed.

Lemma dget_dset_eq {A} k (v : A) d : dget k (dset k v d) = Some v.
Proof.
  induction d as [|[k' v'] d IH]; simpl; [by rewrite decide_True|].
  case_decide; simpl; [by rewrite decide_True | by rewrite decide_False].
Qed.

Lemma dget_dset_ne {A} k k' (v : A) d : k <> k' -> dget k (dset k' v d) = dget k d.
Proof.
  intros Hne. induction d as [|[k0 v0] d IH]; simpl; [by rewrite decide_False|].
  destruct (decide (k' = k0)); simpl; case_decide; subst; congruence.
Qed.

(** Keyword arguments have distinct names: the later dict wins. *)
Lemma dget_dupdate {A} k (d e : list (string * A)) :
  NoDup e.*1 ->
  dget k (dupdate d e) = match dget k e with Some v => Some v | None => dget k d end.
Proof.
  unfold dupdate. revert d. induction e as [|[k' v] e IH]; intros d Hnd; [done|].
  inversion Hnd as [|? ? Hk He]; subst. simpl. rewrite IH by done. case_decide as Hkk.
  - subst k'. rewrite dget_dset_eq. replace (dget k e) with (@None A); [done|].
    clear -Hk. induction e as [|[k0 v0] e IH]; simpl in *; [done|].
    rewrite decide_False by set_solver. apply IH. set_solver.
  - destruct (dget k e); [done|]. by apply dget_dset_ne.
Qed.

Lemma rmap_map {E A B} (f : A -> result E B) (g : B -> A) l :
  Forall (fun y => f (g y) = Ok y) l -> rmap f (map g l) = Ok l.
Proof. induction 1 as [|y l Hy _ IH]; simpl; [done|]. by rewrite Hy, IH. Qed.

(** What a chain of fallible steps that succeeded went through. *)
Lemma rbind_Ok {E A B} (m : result E A) (f : A -> result E B) b :
  rbind m f = Ok b <-> exists a, m = Ok a /\ f a = Ok b.
Proof. destruct m; simpl; naive_solver. Qed.

Lemma rmap_Ok {E A B} (f : A -> result E B) l l' :
  rmap f l = Ok l' <-> Forall2 (fun x y => f x = Ok y) l l'.
Proof.
  revert l'. induction l as [|x l IH]; intros l'; simpl.
  - split; [by intros [= <-]|by inversion 1].
  - rewrite rbind_Ok. setoid_rewrite rbind_Ok. split.
    + intros (y & Hy & ys & Hys%IH & [= <-]). by constructor.
    + inversion 1 as [|? y ? ys Hy Hys]; subst. apply IH in Hys. eauto.
Qed.

Lemma rmap_total {E A B} (f : A -> result E B) l :
  Forall (fun x => exists y, f x = Ok y) l -> exists l', rmap f l = Ok l'.
Proof. induction 1 as [|x l [y Hy] _ [ys IH]]; simpl; [eauto|]. rewrite Hy, IH. simpl. eauto. Qed.

(** Splits a hypothesis [let? ... = Ok _] into its steps. *)
Ltac ok_steps :=
  repeat match goal with
  | H : rbind _ _ = Ok _ |- _ => apply rbind_Ok in H as (? & ? & H)
  end.

Lemma zlen_nonneg {A} (l : list A) : 0 <= zlen l.
Proof. unfold zlen. lia. Qed.

Lemma zlen_app {A} (l k : list A) : zlen (l ++ k) = zlen l + zlen k.
Proof. unfold zlen. rewrite length_app. lia. Qed.

Lemma zlen_cons {A} (x : A) l : zlen (x :: l) = 1 + zlen l.
Proof. unfold zlen. simpl. lia. Qed.

#[export] Hint Resolve zlen_nonneg dget_dset_eq : engine.
#[export] Hint Rewrite @zlen_app @zlen_cons @dget_dset_eq : engine.

(** ** Stripping *)

Section Strip.
  Context (f : Z -> bool).

Definition no_head (s : pystr) : Prop := match s with c :: _ => f c = false | [] => True end.

Lemma lstrip_decomp s : exists l, s = l ++ lstrip_by f s /\ Forall (fun c => f c = true) l.
Proof.
  induction s as [|c s (l & IH & Hl)]; simpl; [by exists []|].
  destruct (f c) eqn:Hc; [|by exists []]. exists (c :: l). simpl. split; [by f_equal|by constructor].
Qed.

Lemma lstrip_no_head s : no_head (lstrip_by f s).
Proof. induction s as [|c s IH]; simpl; [done|]. by destruct (f c) eqn:Hc. Qed.

Lemma lstrip_id s : no_head s -> lstrip_by f s = s.
Proof. destruct s as [|c s]; simpl; [done|]. by intros ->. Qed.

Lemma rstrip_decomp s : exists r, s = rstrip_by f s ++ r /\ Forall (fun c => f c = true) r.
Proof.
  unfold rstrip_by. destruct (lstrip_decomp (rev s)) as (l & Hl & Hf). exists (rev l). split.
  - rewrite <-rev_app_distr, <-Hl. by rewrite rev_involutive.
  - by apply List.Forall_rev.
Qed.

Lemma strip_decomp s :
  exists l r, s = l ++ strip_by f s ++ r /\ Forall (fun c => f c = true) (l ++ r).
Proof.
  unfold strip_by. destruct (lstrip_decomp s) as (l & Hl & Hfl).
  destruct (rstrip_decomp (lstrip_by f s)) as (r & Hr & Hfr).
  exists l, r. rewrite <-Hr. split; [done|]. by apply Forall_app.
Qed.

Lemma strip_ends s : no_head (strip_by f s) /\ no_head (rev (strip_by f s)).
Proof.
  unfold strip_by. split.
  - destruct (rstrip_decomp (lstrip_by f s)) as (r & Hr & _).
    pose proof (lstrip_no_head s) as Hh. rewrite Hr in Hh.
    by destruct (rstrip_by f (lstrip_by f s)).
  - unfold rstrip_by. rewrite rev_involutive. apply lstrip_no_head.
Qed.

Lemma strip_idem s : strip_by f (strip_by f s) = strip_by f s.
Proof.
  destruct (strip_ends s) as [H1 H2]. unfold strip_by at 1.
  rewrite lstrip_id by done. unfold rstrip_by. rewrite lstrip_id by done. apply rev_involutive.
Qed.

Lemma strip_length s : zlen (strip_by f s) <= zlen s.
Proof.
  destruct (strip_decomp s) as (l & r & Hs & _). rewrite Hs at 2. rewrite !zlen_app.
  pose proof (zlen_nonneg l). pose proof (zlen_nonneg r). lia.
Qed.

(** Stripping keeps every character a filter of non-[f] characters keeps. *)
Lemma strip_filter (g : Z -> bool) s :
  (forall c, g c = true -> f c = false) ->
  List.filter g (strip_by f s) = List.filter g s.
Proof.
  intros Hg. destruct (strip_decomp s) as (l & r & Hs & [Hl Hr]%Forall_app).
  assert (Hnil : forall x, Forall (fun c => f c = true) x -> List.filter g x = []).
  { induction 1 as [|c x Hc _ IH]; simpl; [done|].
    destruct (g c) eqn:Hgc; [|done]. apply Hg in Hgc. congruence. }
  rewrite Hs at 2. rewrite !List.filter_app, (Hnil l), (Hnil r) by done. by rewrite app_nil_r.
Qed.

Lemma lstrip_wrap l s : Forall (fun c => f c = true) l -> lstrip_by f (l ++ s) = lstrip_by f s.
Proof. induction 1 as [|c l Hc _ IH]; simpl; [done|]. by rewrite Hc. Qed.

(** Stripping removes exactly the wrapping. *)
Lemma strip_wrap l w r :
  Forall (fun c => f c = true) (l ++ r) -> w <> [] -> no_head w -> no_head (rev w) ->
  strip_by f (l ++ w ++ r) = w.
Proof.
  intros [Hl Hr]%Forall_app Hne Hh Ht. unfold strip_by, rstrip_by.
  rewrite lstrip_wrap by done. rewrite (lstrip_id (w ++ r)) by (by destruct w).
  rewrite rev_app_distr, lstrip_wrap by (by apply List.Forall_rev).
  rewrite lstrip_id by done. apply rev_involutive.
Qed.
End Strip.

Lemma split_ws_token t s cur :
  Forall (fun c => is_space c = false) t -> split_ws (t ++ s) cur = split_ws s (cur ++ t).
Proof.
  intros Ht. revert cur. induction Ht as [|c t Hc _ IH]; intros cur; simpl.
  - by rewrite app_nil_r.
  - rewrite Hc, IH. by rewrite <-app_assoc.
Qed.

(** The first word of a text, whatever whitespace surrounds it. *)
Lemma py_split_first sp t rest :
  Forall (fun c => is_space c = true) sp -> t <> [] -> Forall (fun c => is_space c = false) t ->
  match rest with [] => True | c :: _ => is_space c = true end ->
  exists more, py_split (py_strip (sp ++ t ++ rest)) = t :: more.
Proof.
  intros Hsp Hne Ht Hrest. unfold py_strip, strip_by. rewrite lstrip_wrap by done.
  rewrite (lstrip_id is_space (t ++ rest)) by (destruct t; [done|]; by inversion Ht). unfold py_split.
  destruct (rstrip_decomp is_space (t ++ rest)) as (r & Hr & Hfr).
  assert (Hpre : exists q, rstrip_by is_space (t ++ rest) = t ++ q
                           /\ match q with [] => True | c :: _ => is_space c = true end).
  { symmetry in Hr. apply app_eq_app in Hr as (m & [[Hq ->]|[Ht' ->]]).
    - exists m. split; [done|]. by destruct m.
    - destruct m as [|c m]; [exists []; by rewrite app_nil_r in Ht'; rewrite app_nil_r|].
      exfalso. rewrite Ht' in Ht. inversion Hfr as [|? ? Hc]; subst.
      apply Forall_app in Ht as [_ Ht]. inversion Ht. congruence. }
  destruct Hpre as (q & -> & Hq). rewrite split_ws_token by done. simpl.
  destruct q as [|c q]; simpl; [|rewrite Hq]; rewrite decide_False by done; eauto.
Qed.

Lemma startswith_app p s : startswith (p ++ s) p = true.
Proof. induction p as [|c p IH]; simpl; [by destruct s|]. by rewrite Z.eqb_refl. Qed.
