(* ===== verification/Bytes.v ===== *)
(** * Byte strings

    [bytes] as lists of integers in [0, 256), the little- and big-endian
    integer codecs of [struct], [int.to_bytes] and [array('h')], and their round
    trips. *)

From S2P Require Import Prelude.

Definition is_byte (b : Z) : Prop := 0 <= b < 256.

Abbreviation bytes := (list Z).

(** Little-endian, [n] bytes, wrapping. *)
Fixpoint le_encode (n : nat) (z : Z) : bytes :=
  match n with O => [] | S n' => z mod 256 :: le_encode n' (z / 256) end.

Fixpoint le_decode (l : bytes) : Z :=
  match l with [] => 0 | b :: l' => b + 256 * le_decode l' end.

Definition be_encode (n : nat) (z : Z) : bytes := rev (le_encode n z).
Definition be_decode (l : bytes) : Z := le_decode (rev l).

(** Zero bytes, [b"\x00" * n]. *)
Definition zeros (n : Z) : bytes := repeat 0 (Z.to_nat n).

(** [l[a:b]] with [0 <= a]. *)
Definition slice {A} (a b : Z) (l : list A) : list A := take (Z.to_nat (b - a)) (drop (Z.to_nat a) l).

(** ** [array('h')]: signed 16-bit samples, little-endian. *)
Definition to_signed16 (z : Z) : Z := if z <? 32768 then z else z - 65536.

Definition is_sample (z : Z) : Prop := -32768 <= z <= 32767.

(** [frombytes]: a trailing odd byte raises. *)
Fixpoint samples_of_bytes (l : bytes) : option (list Z) :=
  match l with
  | [] => Some []
  | a :: b :: l' =>
      match samples_of_bytes l' with
      | Some r => Some (to_signed16 (a + 256 * b) :: r)
      | None => None
      end
  | [_] => None
  end.

Fixpoint bytes_of_samples (l : list Z) : bytes :=
  match l with [] => [] | s :: l' => s mod 256 :: (s / 256) mod 256 :: bytes_of_samples l' end.

(** ** Lemmas *)

Lemma le_encode_length n z : length (le_encode n z) = n.
Proof. revert z. induction n; intros; simpl; congruence. Qed.

Lemma le_encode_bytes n z : Forall is_byte (le_encode n z).
Proof.
  revert z. induction n; intros z; simpl; constructor; auto. apply Z.mod_pos_bound. lia.
Qed.

Lemma le_decode_encode n z : le_decode (le_encode n z) = z mod 256 ^ Z.of_nat n.
Proof.
  revert z. induction n as [|n IH]; intros z; simpl.
  - by rewrite Z.mod_1_r.
  - rewrite IH. rewrite Nat2Z.inj_succ, Z.pow_succ_r by lia.
    rewrite (Z.rem_mul_r z 256) by lia. lia.
Qed.

Lemma le_decode_bound l : Forall is_byte l -> 0 <= le_decode l < 256 ^ zlen l.
Proof.
  unfold zlen. induction 1 as [|b l Hb _ IH]; simpl length; [simpl; lia|].
  rewrite Nat2Z.inj_succ, Z.pow_succ_r by lia. unfold is_byte in Hb. simpl. lia.
Qed.

Lemma le_encode_decode l : Forall is_byte l -> le_encode (length l) (le_decode l) = l.
Proof.
  induction 1 as [|b l Hb _ IH]; simpl; [done|]. unfold is_byte in Hb.
  replace (b + 256 * le_decode l) with (le_decode l * 256 + b) by lia.
  rewrite Z.add_comm, Z_mod_plus_full, Z.mod_small by lia.
  rewrite Z.div_add, Z.div_small by lia. by rewrite Z.add_0_l, IH.
Qed.

Lemma be_decode_encode n z : be_decode (be_encode n z) = z mod 256 ^ Z.of_nat n.
Proof. unfold be_decode, be_encode. by rewrite rev_involutive, le_decode_encode. Qed.

Lemma be_encode_length n z : length (be_encode n z) = n.
Proof. unfold be_encode. by rewrite length_rev, le_encode_length. Qed.

Lemma zeros_length n : 0 <= n -> zlen (zeros n) = n.
Proof. intros. unfold zlen, zeros. rewrite repeat_length. lia. Qed.

Lemma samples_length l s : samples_of_bytes l = Some s -> zlen l = 2 * zlen s.
Proof.
  unfold zlen. revert s. induction l as [l IH] using (induction_ltof1 _ (@length Z)); intros s.
  destruct l as [|a [|b l]]; simpl; try by intros [= <-].
  destruct (samples_of_bytes l) as [r|] eqn:Hr; [|done]. intros [= <-].
  apply IH in Hr; [|unfold ltof; simpl; lia]. simpl. lia.
Qed.

Lemma samples_even l : Z.even (zlen l) = true -> exists s, samples_of_bytes l = Some s.
Proof.
  induction l as [l IH] using (induction_ltof1 _ (@length Z)).
  destruct l as [|a [|b l]]; [by exists []|done|]. intros He. cbn [samples_of_bytes].
  destruct (IH l) as (s & ->); [unfold ltof; simpl; lia| |eauto].
  rewrite !zlen_cons, !Z.even_add in He. by destruct (Z.even (zlen l)).
Qed.

Lemma to_signed16_sample a b : is_byte a -> is_byte b -> is_sample (to_signed16 (a + 256 * b)).
Proof. unfold is_byte, is_sample, to_signed16. case_match; zbool; lia. Qed.

Lemma samples_bounded l s : Forall is_byte l -> samples_of_bytes l = Some s -> Forall is_sample s.
Proof.
  revert s. induction l as [l IH] using (induction_ltof1 _ (@length Z)); intros s Hl.
  destruct l as [|a [|b l]]; simpl; [by intros [= <-]|done|].
  inversion Hl as [|? ? Ha Hl']; subst. inversion Hl' as [|? ? Hb Hl'']; subst.
  destruct (samples_of_bytes l) as [r|] eqn:Hr; [|done]. intros [= <-].
  constructor; [by apply to_signed16_sample|]. eapply IH; [|done|done]. unfold ltof. simpl. lia.
Qed.

Lemma bytes_of_samples_length s : zlen (bytes_of_samples s) = 2 * zlen s.
Proof. unfold zlen. induction s; simpl; lia. Qed.

Lemma bytes_of_samples_bytes s : Forall is_byte (bytes_of_samples s).
Proof. induction s; simpl; repeat constructor; auto; apply Z.mod_pos_bound; lia. Qed.

Lemma samples_of_bytes_of_samples s :
  Forall is_sample s -> samples_of_bytes (bytes_of_samples s) = Some s.
Proof.
  induction 1 as [|x s Hx _ IH]; simpl; [done|]. rewrite IH. do 2 f_equal.
  unfold to_signed16, is_sample in *.
  assert (Hrec : x mod 256 + 256 * ((x / 256) mod 256) = x mod 65536).
  { change 65536 with (256 * 256). rewrite (Z.rem_mul_r x 256) by lia. lia. }
  rewrite Hrec. destruct (Z_lt_dec x 0).
  - replace (x mod 65536) with (x + 65536)
      by (rewrite <-(Z_mod_plus_full x 1 65536), Z.mod_small; lia).
    case_match; zbool; lia.
  - rewrite Z.mod_small by lia. case_match; zbool; lia.
Qed.

#[export] Hint Resolve le_encode_length be_encode_length le_encode_bytes : engine.
