(* ===== verification/Session.v ===== *)
(** * The per-call session and its state machine

    [call_session.py] and [state_machine.py]: the record every other component
    reads and writes, the two operations that write its event log
    ([append_event]) and its lifecycle state ([transition_to]), and the
    invariant they keep.  The transcript schema lives in another package: its
    validator is the parameter [valid_event].  Clock readings are integers of
    microseconds. *)

From S2P Require Import Prelude.

(** ** Data *)

(** [CallStatus]: the four lifecycle labels. *)
Inductive CallState : Type := INIT | IN_CALL | TRANSFERRING | END_.

#[export] Instance CallState_eq_dec : EqDecision CallState.
Proof. solve_decision. Defined.

Definition state_value (s : CallState) : string :=
  match s with
  | INIT => "init" | IN_CALL => "in_call" | TRANSFERRING => "transferring" | END_ => "end"
  end.

Definition LEGAL_TRANSITIONS (s : CallState) : list CallState :=
  match s with
  | INIT => [IN_CALL; END_]
  | IN_CALL => [TRANSFERRING; END_]
  | TRANSFERRING => [END_]
  | END_ => []
  end.

Definition TRANSCRIPT_EVENT_TYPES : list string :=
  ["greeting"; "user_speech"; "ai_reply"; "interruption"; "filler"; "default_reply_used";
   "silence_activation"; "transfer_initiated"; "transfer_marked"; "goal_achieved";
   "wrap_up_started"; "wrap_up_completed"; "hangup"; "state_error"; "state_warning"]%string.

Definition DIALOG_EVENT_TYPES : list string := ["greeting"; "user_speech"; "ai_reply"]%string.

Inductive Role : Type := RUser | RAssistant.

#[export] Instance Role_eq_dec : EqDecision Role.
Proof. solve_decision. Defined.

Record DialogTurn := mkTurn { dt_role : Role; dt_text : pystr; dt_ts : Z }.

(** One transcript event: the [dict] with its ["type"], ["ts"] and fields. *)
Abbreviation event := (list (string * pyval)).

Record CallSession := mkSession {
  call_record_id : Z;
  campaign_id : Z;
  lead_id : Z;
  caller_id : pystr;
  prompt_versions_snapshot : event;      (* the dict of pinned prompt versions *)
  device_id : Z;
  extractor_role_config_id : Z;
  extractor_prompt_version_id : Z;
  state : CallState;
  previous_state : option CallState;
  state_history : list (CallState * CallState * option pystr);
  dialog_history : list DialogTurn;
  full_transcript : list event;
  pipeline_trace_records : list event;
  used_filler_phrases : list pystr;
  silence_activation_count : Z;
  silence_started_at : option Z;
  consecutive_interruption_count : Z;
  last_user_speech_end_at : option Z;
  last_tts_end_at : option Z;
  wrap_up_round_count : Z;
  wrap_up_started_at_monotonic : option Z;
  in_wrap_up : bool;
  current_turn_id : Z;
  hangup_cause : option string;
  transfer_status : string;
  transfer_reason : option string;
  wrap_up_started_at_wallclock : option Z;
  speaking : bool;                       (* [current_speaking_task] is a live task *)
  interruption_signaled : bool;
  in_processing_turn : bool;
  current_user_speech_started_ms : option Z;
  interrupt_remaining_text : option pystr;
  consecutive_restructure_count : Z;
  vad_voice_active_ms : Z;
  total_tokens_in : Z;
  total_tokens_out : Z;
  token_budget_per_call : Z;
  call_started_at_monotonic : Z
}.

#[export] Instance CallSession_eta : Eta CallSession := fun s =>
  mkSession (call_record_id s) (campaign_id s) (lead_id s) (caller_id s)
    (prompt_versions_snapshot s) (device_id s)
    (extractor_role_config_id s) (extractor_prompt_version_id s)
    (state s) (previous_state s) (state_history s) (dialog_history s) (full_transcript s)
    (pipeline_trace_records s) (used_filler_phrases s) (silence_activation_count s)
    (silence_started_at s) (consecutive_interruption_count s) (last_user_speech_end_at s)
    (last_tts_end_at s) (wrap_up_round_count s) (wrap_up_started_at_monotonic s)
    (in_wrap_up s) (current_turn_id s) (hangup_cause s) (transfer_status s)
    (transfer_reason s) (wrap_up_started_at_wallclock s) (speaking s) (interruption_signaled s) (in_processing_turn s)
    (current_user_speech_started_ms s) (interrupt_remaining_text s)
    (consecutive_restructure_count s) (vad_voice_active_ms s) (total_tokens_in s)
    (total_tokens_out s) (token_budget_per_call s) (call_started_at_monotonic s).

(** A session as the dataclass defaults construct it. *)
Definition new_session (cid camp lead : Z) (caller : pystr) (prompt_versions : event)
  (dev started : Z) : CallSession :=
  mkSession cid camp lead caller prompt_versions dev 0 0 INIT None [] [] [] [] [] 0 None 0 None None
    0 None false 0 None "none" None None false false false None None 0 0 0 0 0 started.

(** ** Operations *)

Inductive AppendError : Type := UnknownEventType | SchemaViolation.

Section Ops.
  (** [isales_common]'s [TranscriptEvent] validator, the strict-mode
      environment variable, and [str()] of a non-string value. *)
  Context (valid_event : event -> bool) (strict : bool) (other_str : pyval -> pystr).

Definition event_ts (now : Z) (s : CallSession) : Z :=
  Z.quot (now - call_started_at_monotonic s) 1000.

(** The mirror of one event in [dialog_history]. *)
Definition dialog_turn_of (etype : string) (fields : event) (ts : Z) : option DialogTurn :=
  if bool_decide (etype ∈ DIALOG_EVENT_TYPES) then
    let text := match dget "text" fields with Some v => py_str other_str v | None => [] end in
    Some (mkTurn (if bool_decide (etype = "user_speech"%string) then RUser else RAssistant)
            text ts)
  else None.

Definition append_event (now : Z) (etype : string) (fields : event) (s : CallSession)
  : result AppendError CallSession :=
  if bool_decide (etype ∈ TRANSCRIPT_EVENT_TYPES) then
    let ts := event_ts now s in
    let ev := dupdate [("type"%string, VStr (u8 etype)); ("ts"%string, VInt ts)] fields in
    if negb (valid_event ev) && strict then Err SchemaViolation
    else
      let s1 := s <| full_transcript ::= fun l => l ++ [ev] |> in
      match dialog_turn_of etype fields ts with
      | Some t => Ok (s1 <| dialog_history ::= fun l => l ++ [t] |>)
      | None => Ok s1
      end
  else Err UnknownEventType.

Definition transition_to (now : Z) (new : CallState) (reason : option pystr) (s : CallSession)
  : result AppendError CallSession :=
  let current := state s in
  if decide (new = current) then Ok s
  else
    let? s1 :=
      if bool_decide (new ∈ LEGAL_TRANSITIONS current) then Ok s
      else append_event now "state_warning"
             [("attempted"%string, VStr (match reason with
                                         | Some ((_ :: _) as r) => r
                                         | _ => u8 "transition" end));
              ("from_state"%string, VStr (u8 (state_value current)));
              ("to_state"%string, VStr (u8 (state_value new)))] s in
    Ok (s1 <| previous_state := Some current |> <| state := new |>
           <| state_history ::= fun h => h ++ [(current, new, reason)] |>).

End Ops.

(** ** The session's invariant *)

(** What [dialog_history] should hold for one recorded event, read back from
    the event itself. *)
Definition event_type (ev : event) : pystr :=
  match dget "type" ev with Some (VStr t) => t | _ => [] end.

Definition event_turn (other_str : pyval -> pystr) (ev : event) : option DialogTurn :=
  let ts := match dget "ts" ev with Some (VInt t) => t | _ => 0 end in
  let text := match dget "text" ev with Some v => py_str other_str v | None => [] end in
  if decide (event_type ev = u8 "user_speech") then Some (mkTurn RUser text ts)
  else if decide (event_type ev = u8 "greeting") then Some (mkTurn RAssistant text ts)
  else if decide (event_type ev = u8 "ai_reply") then Some (mkTurn RAssistant text ts)
  else None.

(** A [state_history] that leads from one state to another, with no
    same-state link. *)
Fixpoint chain (from : CallState) (h : list (CallState * CallState * option pystr))
  (to : CallState) : Prop :=
  match h with
  | [] => from = to
  | (a, b, _) :: h' => a = from /\ a <> b /\ chain b h' to
  end.

Definition illegal_link (l : CallState * CallState * option pystr) : bool :=
  negb (bool_decide (l.1.2 ∈ LEGAL_TRANSITIONS l.1.1)).

Definition is_warning (ev : event) : bool := bool_decide (event_type ev = u8 "state_warning").

Definition count {A} (f : A -> bool) (l : list A) : nat := length (List.filter f l).

Record session_inv (other_str : pyval -> pystr) (s : CallSession) : Prop := {
  inv_dialog : dialog_history s = omap (event_turn other_str) (full_transcript s);
  inv_chain : chain INIT (state_history s) (state s);
  inv_previous : previous_state s = (λ l, l.1.1) <$> last (state_history s);
  inv_warnings : count is_warning (full_transcript s) = count illegal_link (state_history s)
}.

(** The two writers, with what their callers obey: no event names its own
    ["type"] or ["ts"], and only [transition_to] writes [state_warning]. *)
Inductive session_op : Type :=
| OpAppend (now : Z) (etype : string) (fields : event)
| OpTransition (now : Z) (new : CallState) (reason : option pystr).

Definition op_ok (o : session_op) : bool :=
  match o with
  | OpAppend _ etype fields =>
      negb (bool_decide (etype = "state_warning"%string))
      && bool_decide (NoDup fields.*1)
      && match dget "type" fields, dget "ts" fields with None, None => true | _, _ => false end
  | OpTransition _ _ _ => true
  end.

Definition run_op valid strict other (o : session_op) (s : CallSession) :=
  match o with
  | OpAppend now etype fields => append_event valid strict other now etype fields s
  | OpTransition now new reason => transition_to valid strict other now new reason s
  end.

(** A caller that goes on after a failed operation keeps the session it had. *)
Fixpoint run_ops valid strict other (os : list session_op) (s : CallSession) : CallSession :=
  match os with
  | [] => s
  | o :: os' =>
      run_ops valid strict other os'
        (match run_op valid strict other o s with Ok s' => s' | Err _ => s end)
  end.

(** ** Lemmas *)

Lemma chain_snoc from h to new reason :
  chain from h to -> new <> to -> chain from (h ++ [(to, new, reason)]) new.
Proof.
  revert from. induction h as [|[[a b] r] h IH]; simpl.
  - intros from -> Hne. eauto.
  - intros from (-> & Hab & Hc) Hne. eauto.
Qed.

Lemma count_snoc {A} (f : A -> bool) l x :
  count f (l ++ [x]) = (count f l + if f x then 1 else 0)%nat.
Proof. unfold count. rewrite List.filter_app, length_app. simpl. by destruct (f x). Qed.

Section Lemmas.
  Context (valid_event : event -> bool) (strict : bool) (other_str : pyval -> pystr).

Definition base_event (now : Z) (etype : string) (fields : event) (s : CallSession) : event :=
  dupdate [("type"%string, VStr (u8 etype)); ("ts"%string, VInt (event_ts now s))] fields.

(** The event an operation appends reads back as the turn it mirrors. *)
Lemma event_turn_base now etype fields s :
  etype ∈ TRANSCRIPT_EVENT_TYPES ->
  NoDup fields.*1 -> dget "type" fields = None -> dget "ts" fields = None ->
  event_turn other_str (base_event now etype fields s)
  = dialog_turn_of other_str etype fields (event_ts now s).
Proof.
  intros Hin Hnd Hty Hts. unfold event_turn, event_type, base_event.
  rewrite !dget_dupdate, Hty, Hts by done. simpl dget.
  unfold dialog_turn_of. generalize (event_ts now s); intros ts.
  unfold TRANSCRIPT_EVENT_TYPES in Hin.
  destruct (dget "text" fields);
    (repeat (apply elem_of_cons in Hin as [->|Hin]; [by vm_compute|])); inversion Hin.
Qed.

Lemma event_type_base now etype fields s :
  NoDup fields.*1 -> dget "type" fields = None ->
  event_type (base_event now etype fields s) = u8 etype.
Proof. intros Hnd Hty. unfold event_type, base_event. by rewrite dget_dupdate, Hty. Qed.

(** [append_event] outside strict mode, in closed form. *)
Lemma append_event_inv now etype fields s s' :
  append_event valid_event strict other_str now etype fields s = Ok s' ->
  etype ∈ TRANSCRIPT_EVENT_TYPES /\
  s' = s <| full_transcript ::= fun l => l ++ [base_event now etype fields s] |>
         <| dialog_history ::=
              fun l => l ++ option_list (dialog_turn_of other_str etype fields (event_ts now s)) |>.
Proof.
  unfold append_event, base_event. case_bool_decide as Hin; [|done].
  case_match; [done|]. intros Heq. split; [done|].
  destruct (dialog_turn_of _ _ _ _); simplify_eq/=; destruct s; simpl; by rewrite ?app_nil_r.
Qed.
End Lemmas.

Section Invariant.
  Context (valid_event : event -> bool) (strict : bool) (other_str : pyval -> pystr).

Lemma new_session_inv cid camp lead caller pv dev t : session_inv other_str (new_session cid camp lead caller pv dev t).
Proof. by constructor. Qed.

Lemma append_event_preserves now etype fields s s' :
  op_ok (OpAppend now etype fields) = true -> session_inv other_str s ->
  append_event valid_event strict other_str now etype fields s = Ok s' ->
  session_inv other_str s'.
Proof.
  intros Hok [Hd Hc Hp Hw] (Hin & ->)%append_event_inv. simpl in Hok.
  apply andb_true_iff in Hok as [[Hne Hnd]%andb_true_iff Hf].
  apply negb_true_iff, bool_decide_eq_false in Hne. apply bool_decide_eq_true in Hnd.
  destruct (dget "type" fields) eqn:Hty; [done|]. destruct (dget "ts" fields) eqn:Hts; [done|].
  constructor; simpl; auto.
  - rewrite omap_app, Hd. f_equal. simpl. rewrite event_turn_base by done.
    by destruct (dialog_turn_of _ _ _ _).
  - rewrite count_snoc, <-Hw. unfold is_warning. rewrite event_type_base by done.
    rewrite bool_decide_eq_false_2; [lia|]. intros Hbad. clear -Hin Hne Hbad.
    unfold TRANSCRIPT_EVENT_TYPES in Hin.
    (repeat (apply elem_of_cons in Hin as [->|Hin]; [done|])); inversion Hin.
Qed.

Lemma transition_to_preserves now new reason s s' :
  session_inv other_str s ->
  transition_to valid_event strict other_str now new reason s = Ok s' ->
  session_inv other_str s'.
Proof.
  intros [Hd Hc Hp Hw]. unfold transition_to. case_decide as Hsame; [by intros [= <-]|].
  case_bool_decide as Hleg; simpl.
  - intros [= <-]. constructor; simpl; auto.
    + by apply chain_snoc.
    + by rewrite last_snoc.
    + rewrite count_snoc, Hw. unfold illegal_link; simpl.
      rewrite bool_decide_eq_true_2 by done. simpl. lia.
  - destruct (append_event _ _ _ _ _ _ s) as [s1|] eqn:Ha; [|done]. intros [= <-].
    apply append_event_inv in Ha as (_ & ->). constructor; simpl.
    + by rewrite app_nil_r, omap_app, app_nil_r.
    + by apply chain_snoc.
    + by rewrite last_snoc.
    + rewrite !count_snoc, Hw. unfold illegal_link; simpl.
      by rewrite (bool_decide_eq_false_2 (new ∈ _)).
Qed.

(** C11: Whatever sequence of transcript and state writes a call performs,
    including failing ones, [dialog_history] is exactly the conversation events
    of [full_transcript] in order, [state_history] is a chain of real changes
    from [INIT] to the current state with [previous_state] the last origin, and
    every transition outside [LEGAL_TRANSITIONS], and no other, has left exactly
    one [state_warning]. *)
Theorem session_writes_keep_invariant cid camp lead caller pv dev t os :
  forallb op_ok os = true ->
  session_inv other_str
    (run_ops valid_event strict other_str os (new_session cid camp lead caller pv dev t)).
Proof.
  generalize (new_session_inv cid camp lead caller pv dev t).
  generalize (new_session cid camp lead caller pv dev t).
  induction os as [|o os IH]; intros s Hs; simpl; [done|].
  intros [Ho Hos]%andb_true_iff. apply IH; [|done].
  destruct (run_op _ _ _ o s) as [s'|] eqn:Hr; [|done].
  destruct o; simpl in Hr; eauto using append_event_preserves, transition_to_preserves.
Qed.

(** The guard is advisory: outside strict mode a transition always completes. *)
Lemma transition_to_completes now new reason s :
  exists s', transition_to valid_event false other_str now new reason s = Ok s'
             /\ state s' = new.
Proof.
  unfold transition_to. case_decide; [by exists s|].
  case_bool_decide; simpl; [by eexists|].
  unfold append_event. simpl. rewrite andb_false_r. by eexists.
Qed.
End Invariant.

Lemma session_writes_keep_invariant_witness :
  let os := [OpTransition 5 IN_CALL None; OpAppend 9 "user_speech" [("text"%string, VStr [65])];
             OpTransition 12 INIT None] in
  forallb op_ok os = true /\
  session_inv (fun _ => []) (run_ops (fun _ => true) false (fun _ => []) os (new_session 1 2 3 [] [] 4 0)).
Proof. split; [reflexivity|]. apply session_writes_keep_invariant. reflexivity. Defined.
