(* ===== verification/EventBus.v ===== *)
(** * The in-process event bus

    [events.py] and [eventbus.py]: the intra-call events, the two-lane bus with
    its lossless and drop-oldest queues, the per-handler exception isolation of
    [_deliver], and the shutdown drain of [aclose].  Handlers are identified by a
    number; what a handler does (its effect on the rest of the program, the bus
    calls it makes and whether it raises) is the parameter [call].  Besides the
    operations themselves, an interleaving semantics runs the two dispatcher
    tasks, [aclose] and outside posts one handler call at a time. *)

From S2P Require Import Prelude.

(** ** Events *)

Inductive Event : Type :=
| AsrFinal (text : pystr)
| AsrStreamEnded
| Connected
| HangupDetected (cause : string)
| InterruptRequested (source : string) (user_text : option pystr)
| ManualHangupRequested (operator : option pystr)
| TransferRequested (agent_id : option pystr)
| AsrPartial (text : pystr)
| VadFrame (rms : Q) (voice_active_ms : Z).

(** [type(event)]. *)
Inductive EventType : Type :=
| TAsrFinal | TAsrStreamEnded | TConnected | THangupDetected | TInterruptRequested
| TManualHangupRequested | TTransferRequested | TAsrPartial | TVadFrame.

#[export] Instance EventType_eq_dec : EqDecision EventType.
Proof. solve_decision. Defined.

Definition event_class (e : Event) : EventType :=
  match e with
  | AsrFinal _ => TAsrFinal
  | AsrStreamEnded => TAsrStreamEnded
  | Connected => TConnected
  | HangupDetected _ => THangupDetected
  | InterruptRequested _ _ => TInterruptRequested
  | ManualHangupRequested _ => TManualHangupRequested
  | TransferRequested _ => TTransferRequested
  | AsrPartial _ => TAsrPartial
  | VadFrame _ _ => TVadFrame
  end.

Definition class_name (t : EventType) : pystr :=
  u8 match t with
     | TAsrFinal => "AsrFinal" | TAsrStreamEnded => "AsrStreamEnded"
     | TConnected => "Connected" | THangupDetected => "HangupDetected"
     | TInterruptRequested => "InterruptRequested"
     | TManualHangupRequested => "ManualHangupRequested"
     | TTransferRequested => "TransferRequested"
     | TAsrPartial => "AsrPartial" | TVadFrame => "VadFrame"
     end.

Inductive Lane : Type := LOSSLESS | LOSSY.

Definition LOSSLESS_DEFAULT_SUFFIXES : list pystr :=
  map u8 ["Final"; "Requested"; "Detected"; "Connected"; "Ended"; "Started"; "Done"]%string.

(** A handler, by identity. *)
Abbreviation hid := nat.

(** ** The bus *)

Record EventBus := mkBus {
  lossless : list Event;
  lossy : list Event;
  lossy_maxsize : nat;
  lanes : list (EventType * Lane);
  handlers : list (EventType * list hid);
  started : bool;                        (* [_tasks] holds the two dispatchers *)
  closed : bool;
  dropped : Z
}.

#[export] Instance EventBus_eta : Eta EventBus := fun b =>
  mkBus (lossless b) (lossy b) (lossy_maxsize b) (lanes b) (handlers b) (started b) (closed b)
    (dropped b).

Definition bus_init (maxsize : nat) : EventBus := mkBus [] [] maxsize [] [] false false 0.

(** [dict.get] and [dict[k] = v] keyed by event type. *)
Fixpoint tget {A} (t : EventType) (d : list (EventType * A)) : option A :=
  match d with
  | [] => None
  | (t', v) :: d' => if decide (t = t') then Some v else tget t d'
  end.

Fixpoint tset {A} (t : EventType) (v : A) (d : list (EventType * A)) : list (EventType * A) :=
  match d with
  | [] => [(t, v)]
  | (t', v') :: d' => if decide (t = t') then (t', v) :: d' else (t', v') :: tset t v d'
  end.

Definition register_lane (t : EventType) (l : Lane) (b : EventBus) : EventBus :=
  b <| lanes ::= tset t l |>.

Definition lane_for (b : EventBus) (t : EventType) : Lane :=
  match tget t (lanes b) with
  | Some lane => lane
  | None =>
      if existsb (endswith (class_name t)) LOSSLESS_DEFAULT_SUFFIXES then LOSSLESS else LOSSLESS
  end.

Definition subscribe (t : EventType) (h : hid) (b : EventBus) : EventBus :=
  b <| handlers ::= tset t (default [] (tget t (handlers b)) ++ [h]) |>.

(** [list.remove]: the first equal element. *)
Fixpoint remove_first (h : hid) (l : list hid) : list hid :=
  match l with
  | [] => []
  | x :: l' => if decide (x = h) then l' else x :: remove_first h l'
  end.

Definition unsub (t : EventType) (h : hid) (b : EventBus) : EventBus :=
  match tget t (handlers b) with
  | Some (x :: hs) =>
      if bool_decide (h ∈ x :: hs) then b <| handlers ::= tset t (remove_first h (x :: hs)) |>
      else b
  | _ => b
  end.

(** [asyncio.Queue.put_nowait]: a maximum of 0 means unbounded. *)
Definition put_nowait (maxsize : nat) (q : list Event) (e : Event) : option (list Event) :=
  if (0 <? maxsize)%nat && (maxsize <=? length q)%nat then None else Some (q ++ [e]).

Definition post (e : Event) (b : EventBus) : EventBus :=
  if closed b then b
  else match lane_for b (event_class e) with
  | LOSSLESS => b <| lossless ::= fun q => q ++ [e] |>
  | LOSSY =>
      match put_nowait (lossy_maxsize b) (lossy b) e with
      | Some q => b <| lossy := q |>
      | None =>
          let b1 := match lossy b with
                    | _ :: q => b <| lossy := q |> <| dropped ::= Z.add 1 |>
                    | [] => b
                    end in
          match put_nowait (lossy_maxsize b1) (lossy b1) e with
          | Some q => b1 <| lossy := q |>
          | None => b1 <| dropped ::= Z.add 1 |>
          end
      end
  end.

Definition start (b : EventBus) : EventBus :=
  if started b then b else b <| started := true |>.

(** ** Delivery *)

(** The bus calls a handler makes while it runs. *)
Inductive bus_act : Type :=
| ActPost (e : Event)
| ActSubscribe (t : EventType) (h : hid)
| ActUnsub (t : EventType) (h : hid)
| ActRegister (t : EventType) (l : Lane).

Definition do_act (a : bus_act) (b : EventBus) : EventBus :=
  match a with
  | ActPost e => post e b
  | ActSubscribe t h => subscribe t h b
  | ActUnsub t h => unsub t h b
  | ActRegister t l => register_lane t l b
  end.

Definition do_acts (l : list bus_act) (b : EventBus) : EventBus :=
  fold_left (fun b a => do_act a b) l b.

Inductive outcome : Type := Returned | Raised | Cancelled.

Section Delivery.
  Context {W : Type} (call : hid -> Event -> W -> W * list bus_act * outcome).

(** One handler call: its effect on the world, its bus calls, how it ended. *)
Definition run_handler (h : hid) (e : Event) (bw : EventBus * W) : EventBus * W * outcome :=
  let '(w', acts, o) := call h e bw.2 in
  (do_acts acts bw.1, w', o).

(** The snapshot [list(self._handlers.get(type(event), ()))]. *)
Definition snapshot (b : EventBus) (e : Event) : list hid :=
  default [] (tget (event_class e) (handlers b)).

Fixpoint deliver_loop (hs : list hid) (e : Event) (bw : EventBus * W) : EventBus * W * outcome :=
  match hs with
  | [] => (bw, Returned)
  | h :: hs' =>
      match run_handler h e bw with
      | (bw', Cancelled) => (bw', Cancelled)
      | (bw', Raised) => deliver_loop hs' e bw'        (* logged, the next handler runs *)
      | (bw', Returned) => deliver_loop hs' e bw'
      end
  end.

Definition deliver (e : Event) (bw : EventBus * W) : EventBus * W * outcome :=
  deliver_loop (snapshot bw.1 e) e bw.

(** [for _ in range(pending)] of [aclose]. *)
Fixpoint drain_pending (pending : nat) (bw : EventBus * W) : EventBus * W * outcome :=
  match pending with
  | O => (bw, Returned)
  | S n =>
      match lossless bw.1 with
      | [] => (bw, Returned)
      | e :: q =>
          match deliver e (bw.1 <| lossless := q |>, bw.2) with
          | (bw', Cancelled) => (bw', Cancelled)
          | (bw', _) => drain_pending n bw'
          end
      end
  end.

(** [aclose] run with no other task scheduled in between. *)
Definition aclose (bw : EventBus * W) : EventBus * W * outcome :=
  if closed bw.1 then (bw, Returned)
  else
    let b := bw.1 <| closed := true |> in
    match drain_pending (length (lossless b)) (b, bw.2) with
    | (bw', Cancelled) => (bw', Cancelled)
    | (bw', o) => ((bw'.1 <| started := false |>, bw'.2), o)
    end.

(** [drain_inline]: each queue until it is empty.  A handler that keeps posting
    keeps it going, so the loop is cut by [fuel] ([None]). *)
Fixpoint drain_lane (lane : Lane) (fuel : nat) (bw : EventBus * W)
  : option (EventBus * W * outcome) :=
  match fuel with
  | O => None
  | S n =>
      match (match lane with LOSSLESS => lossless bw.1 | LOSSY => lossy bw.1 end) with
      | [] => Some (bw, Returned)
      | e :: q =>
          let b := match lane with
                   | LOSSLESS => bw.1 <| lossless := q |>
                   | LOSSY => bw.1 <| lossy := q |>
                   end in
          match deliver e (b, bw.2) with
          | (bw', Cancelled) => Some (bw', Cancelled)
          | (bw', _) => drain_lane lane n bw'
          end
      end
  end.

Definition drain_inline (fuel : nat) (bw : EventBus * W) : option (EventBus * W * outcome) :=
  match drain_lane LOSSLESS fuel bw with
  | Some (bw', Cancelled) => Some (bw', Cancelled)
  | Some (bw', _) => drain_lane LOSSY fuel bw'
  | None => None
  end.

End Delivery.

(** ** Interleavings

    The dispatcher of each lane, [aclose] and the rest of the program take
    turns; a handler call is one turn.  [posted], [taken], [finished] and
    [aborted] record the history. *)

Record flight := mkFlight {
  fl_event : Event;
  fl_snap : list hid;                    (* the handlers at the time of the take *)
  fl_called : list hid;
  fl_todo : list hid
}.

Inductive dispatcher : Type := Idle | Busy (f : flight) | Dead.

Inductive closing : Type :=
| Open
| Draining (pending : nat) (cur : option flight)
| Closed.

(** The events a bus call gets accepted on a lane. *)
Definition accepted (l : Lane) (a : bus_act) (b : EventBus) : list Event :=
  match a with
  | ActPost e =>
      if closed b then []
      else match l, lane_for b (event_class e) with
           | LOSSLESS, LOSSLESS => [e] | LOSSY, LOSSY => [e] | _, _ => []
           end
  | _ => []
  end.

Fixpoint accepted_all (l : Lane) (acts : list bus_act) (b : EventBus) : list Event :=
  match acts with
  | [] => []
  | a :: acts' => accepted l a b ++ accepted_all l acts' (do_act a b)
  end.

Record sys (W : Type) := mkSys {
  s_bus : EventBus;
  s_world : W;
  s_ll : dispatcher;                     (* the lossless lane's dispatcher *)
  s_ly : dispatcher;                     (* the lossy lane's dispatcher *)
  s_ac : closing;
  posted_ll : list Event;
  posted_ly : list Event;
  taken_ll : list Event;
  taken_ly : nat;
  finished : list (Event * (list hid * list hid)); (* lossless deliveries: snapshot, calls made *)
  aborted : list Event                   (* lossless deliveries cut short *)
}.
Arguments mkSys {W}.
Arguments s_bus {W}. Arguments s_world {W}. Arguments s_ll {W}. Arguments s_ly {W}.
Arguments s_ac {W}. Arguments posted_ll {W}. Arguments posted_ly {W}.
Arguments taken_ll {W}. Arguments taken_ly {W}. Arguments finished {W}. Arguments aborted {W}.

#[export] Instance sys_eta W : Eta (sys W) := fun s =>
  mkSys (s_bus s) (s_world s) (s_ll s) (s_ly s) (s_ac s) (posted_ll s) (posted_ly s) (taken_ll s)
    (taken_ly s) (finished s) (aborted s).

Definition sys_init {W} (maxsize : nat) (w : W) : sys W :=
  mkSys (bus_init maxsize) w Idle Idle Open [] [] [] 0 [] [].

Definition acts_step {W} (acts : list bus_act) (s : sys W) : sys W :=
  s <| s_bus := do_acts acts (s_bus s) |>
    <| posted_ll ::= fun l => l ++ accepted_all LOSSLESS acts (s_bus s) |>
    <| posted_ly ::= fun l => l ++ accepted_all LOSSY acts (s_bus s) |>.

Definition busy_event (d : dispatcher) : list Event :=
  match d with Busy f => [fl_event f] | _ => [] end.

Definition closing_event (c : closing) : list Event :=
  match c with Draining _ (Some f) => [fl_event f] | _ => [] end.

Section System.
  Context {W : Type} (call : hid -> Event -> W -> W * list bus_act * outcome).

(** One handler call of a delivery in flight. *)
Definition call_step (h : hid) (e : Event) (s : sys W) : sys W * outcome :=
  let '(w', acts, o) := call h e (s_world s) in
  (acts_step acts s <| s_world := w' |>, o).

(** The dispatchers' and [aclose]'s own turns. *)
Inductive work : sys W -> sys W -> Prop :=
| st_take_ll e q s :
    started (s_bus s) = true -> s_ll s = Idle -> lossless (s_bus s) = e :: q ->
    work s (s <| s_bus := s_bus s <| lossless := q |> |>
              <| s_ll := Busy (mkFlight e (snapshot (s_bus s) e) [] (snapshot (s_bus s) e)) |>
              <| taken_ll ::= fun l => l ++ [e] |>)
| st_call_ll e sn cl h todo s s' o :
    s_ll s = Busy (mkFlight e sn cl (h :: todo)) -> call_step h e s = (s', o) -> o <> Cancelled ->
    work s (s' <| s_ll := Busy (mkFlight e sn (cl ++ [h]) todo) |>)
| st_cancel_ll e sn cl h todo s s' :
    s_ll s = Busy (mkFlight e sn cl (h :: todo)) -> call_step h e s = (s', Cancelled) ->
    work s (s' <| s_ll := Dead |> <| aborted ::= cons e |>)
| st_done_ll e sn cl s :
    s_ll s = Busy (mkFlight e sn cl []) ->
    work s (s <| s_ll := Idle |> <| finished ::= cons (e, (sn, cl)) |>)
| st_take_ly e q s :
    started (s_bus s) = true -> s_ly s = Idle -> lossy (s_bus s) = e :: q ->
    work s (s <| s_bus := s_bus s <| lossy := q |> |>
              <| s_ly := Busy (mkFlight e (snapshot (s_bus s) e) [] (snapshot (s_bus s) e)) |>
              <| taken_ly ::= S |>)
| st_call_ly e sn cl h todo s s' o :
    s_ly s = Busy (mkFlight e sn cl (h :: todo)) -> call_step h e s = (s', o) ->
    work s (s' <| s_ly := match o with
                          | Cancelled => Dead
                          | _ => Busy (mkFlight e sn (cl ++ [h]) todo)
                          end |>)
| st_done_ly e sn cl s :
    s_ly s = Busy (mkFlight e sn cl []) -> work s (s <| s_ly := Idle |>)
| st_ac_take n e q s :
    s_ac s = Draining (S n) None -> lossless (s_bus s) = e :: q ->
    work s (s <| s_bus := s_bus s <| lossless := q |> |>
              <| s_ac := Draining n (Some (mkFlight e (snapshot (s_bus s) e) [] (snapshot (s_bus s) e))) |>
              <| taken_ll ::= fun l => l ++ [e] |>)
| st_ac_call n e sn cl h todo s s' o :
    s_ac s = Draining n (Some (mkFlight e sn cl (h :: todo))) -> call_step h e s = (s', o) ->
    o <> Cancelled ->
    work s (s' <| s_ac := Draining n (Some (mkFlight e sn (cl ++ [h]) todo)) |>)
| st_ac_cancel n e sn cl h todo s s' :
    s_ac s = Draining n (Some (mkFlight e sn cl (h :: todo))) -> call_step h e s = (s', Cancelled) ->
    work s (s' <| s_ac := Closed |> <| aborted ::= cons e |>)
| st_ac_done n e sn cl s :
    s_ac s = Draining n (Some (mkFlight e sn cl [])) ->
    work s (s <| s_ac := Draining n None |> <| finished ::= cons (e, (sn, cl)) |>)
| st_ac_stop n s :
    s_ac s = Draining n None -> n = O \/ lossless (s_bus s) = [] ->
    work s (s <| s_bus := s_bus s <| started := false |> |>
              <| aborted ::= app (busy_event (s_ll s)) |>
              <| s_ll := Dead |> <| s_ly := Dead |> <| s_ac := Closed |>).

(** And what the rest of the program does to the bus. *)
Inductive step : sys W -> sys W -> Prop :=
| st_outside acts s : step s (acts_step acts s)
| st_start s : step s (s <| s_bus ::= start |>)
| st_close s :
    closed (s_bus s) = false ->
    step s (s <| s_bus := s_bus s <| closed := true |> |>
              <| s_ac := Draining (length (lossless (s_bus s))) None |>)
| st_work s s' : work s s' -> step s s'.

(** What holds of every state the interleavings reach when no handler lets a
    [CancelledError] out. *)
Record bus_inv (s : sys W) : Prop := {
  bi_fifo : posted_ll s = taken_ll s ++ lossless (s_bus s);
  bi_accounted : taken_ll s ≡ₚ (finished s).*1 ++ busy_event (s_ll s)
                                ++ closing_event (s_ac s) ++ aborted s;
  bi_aborted : (length (aborted s) <= match s_ac s with Closed => 1 | _ => 0 end)%nat;
  bi_closed : closed (s_bus s) = match s_ac s with Open => false | _ => true end;
  bi_pending : match s_ac s with
               | Open => True
               | Draining n _ => (length (lossless (s_bus s)) <= n)%nat
               | Closed => lossless (s_bus s) = [] /\ s_ll s = Dead
               end
}.
End System.

(** ** Lemmas *)

Lemma lane_for_unregistered b t : tget t (lanes b) = None -> lane_for b t = LOSSLESS.
Proof. unfold lane_for. intros ->. by destruct (existsb _ _). Qed.

Lemma do_act_lossless a b : lossless (do_act a b) = lossless b ++ accepted LOSSLESS a b.
Proof.
  destruct a as [e|t h|t h|t l]; simpl; rewrite ?app_nil_r; try done.
  - unfold post. destruct (closed b); simpl; [by rewrite app_nil_r|].
    destruct (lane_for _ _); [done|]. rewrite app_nil_r.
    destruct (put_nowait _ _ _); [done|]. destruct (lossy b); simpl; by case_match.
  - unfold unsub. by repeat case_match.
Qed.

Lemma do_act_closed a b : closed (do_act a b) = closed b.
Proof.
  destruct a as [e|t h|t h|t l]; simpl; try done.
  - unfold post. destruct (closed b) eqn:Hc; [done|].
    destruct (lane_for _ _); [done|].
    destruct (put_nowait _ _ _); [done|]. destruct (lossy b); simpl; by case_match.
  - unfold unsub. by repeat case_match.
Qed.

Lemma do_acts_lossless acts b :
  lossless (do_acts acts b) = lossless b ++ accepted_all LOSSLESS acts b.
Proof.
  unfold do_acts. revert b. induction acts as [|a acts IH]; intros b; simpl.
  - by rewrite app_nil_r.
  - by rewrite IH, do_act_lossless, app_assoc.
Qed.

Lemma do_acts_closed acts b : closed (do_acts acts b) = closed b.
Proof.
  unfold do_acts. revert b. induction acts as [|a acts IH]; intros b; simpl; [done|].
  by rewrite IH, do_act_closed.
Qed.

Lemma accepted_all_closed l acts b : closed b = true -> accepted_all l acts b = [].
Proof.
  revert b. induction acts as [|a acts IH]; intros b Hc; simpl; [done|].
  rewrite IH by (by rewrite do_act_closed). rewrite app_nil_r.
  destruct a; simpl; by rewrite ?Hc.
Qed.

(** On the lossy lane a post appends its event and, when the queue is full,
    drops exactly the oldest one. *)
Lemma do_act_lossy a b :
  (0 < lossy_maxsize b)%nat -> (length (lossy b) <= lossy_maxsize b)%nat ->
  exists gone,
    lossy b ++ accepted LOSSY a b = gone ++ lossy (do_act a b)
    /\ dropped (do_act a b) = dropped b + zlen gone
    /\ (length (lossy (do_act a b)) <= lossy_maxsize (do_act a b))%nat
    /\ lossy_maxsize (do_act a b) = lossy_maxsize b.
Proof.
  intros Hpos Hle. unfold zlen.
  destruct a as [e|t h|t h|t l]; simpl;
    try (exists []; simpl; rewrite app_nil_r; repeat split; solve [done | lia]).
  - unfold post. destruct (closed b) eqn:Hc.
    { exists []. simpl. rewrite app_nil_r. repeat split; done || lia. }
    destruct (lane_for _ _).
    { exists []. simpl. rewrite app_nil_r. repeat split; done || lia. }
    unfold put_nowait. destruct ((0 <? _)%nat && _) eqn:Hfull; simpl.
    + apply andb_true_iff in Hfull as [_ Hfull%Nat.leb_le].
      destruct (lossy b) as [|x q] eqn:Hq; simpl in *; [lia|].
      assert (Hge : (lossy_maxsize b <=? length q)%nat = false) by (apply Nat.leb_gt; lia).
      rewrite Hge, andb_false_r. simpl. exists [x]. rewrite length_app. simpl.
      repeat split; [lia|lia].
    + exists []. simpl. rewrite length_app. simpl. split; [done|].
      apply andb_false_iff in Hfull as [H%Nat.ltb_ge|H%Nat.leb_gt]; repeat split; lia.
  - exists []. simpl. rewrite app_nil_r. unfold unsub.
    repeat case_match; simpl; repeat split; done || lia.
Qed.

Lemma do_acts_lossy acts b :
  (0 < lossy_maxsize b)%nat -> (length (lossy b) <= lossy_maxsize b)%nat ->
  exists gone,
    lossy b ++ accepted_all LOSSY acts b = gone ++ lossy (do_acts acts b)
    /\ dropped (do_acts acts b) = dropped b + zlen gone
    /\ (length (lossy (do_acts acts b)) <= lossy_maxsize (do_acts acts b))%nat
    /\ lossy_maxsize (do_acts acts b) = lossy_maxsize b.
Proof.
  unfold do_acts. revert b. induction acts as [|a acts IH]; intros b Hpos Hle; simpl.
  - exists []. rewrite app_nil_r. unfold zlen. simpl. repeat split; lia || done.
  - destruct (do_act_lossy a b Hpos Hle) as (g & Hq & Hd & Hl & Hm).
    destruct (IH (do_act a b)) as (g' & Hq' & Hd' & Hl' & Hm'); [lia|lia|].
    exists (g ++ g'). rewrite app_assoc, Hq, <-app_assoc, Hq', app_assoc.
    rewrite zlen_app, Hd', Hd, Hm', Hm. repeat split; [lia|]. congruence.
Qed.

Section SystemLemmas.
  Context {W : Type} (call : hid -> Event -> W -> W * list bus_act * outcome).

Lemma acts_step_inv acts (s : sys W) : bus_inv s -> bus_inv (acts_step acts s).
Proof.
  intros [Hf Ha Hb Hc Hp]. constructor; simpl; auto.
  - by rewrite do_acts_lossless, Hf, app_assoc.
  - by rewrite do_acts_closed.
  - rewrite do_acts_lossless. destruct (s_ac s) eqn:Hac; [done| |];
      rewrite accepted_all_closed by (rewrite Hc; done); by rewrite app_nil_r.
Qed.

Lemma call_step_inv h e (s s' : sys W) o :
  call_step call h e s = (s', o) -> bus_inv s ->
  bus_inv s' /\ s_ll s' = s_ll s /\ s_ly s' = s_ly s /\ s_ac s' = s_ac s
  /\ aborted s' = aborted s /\ finished s' = finished s.
Proof.
  unfold call_step. destruct (call h e (s_world s)) as [[w acts] o'].
  intros [= <- <-] Hi. apply (acts_step_inv acts) in Hi as [? ? ? ? ?].
  repeat split; done.
Qed.

Hypothesis no_cancel : forall h e w, (call h e w).2 <> Cancelled.

Lemma call_step_no_cancel h e (s s' : sys W) : call_step call h e s <> (s', Cancelled).
Proof.
  unfold call_step. specialize (no_cancel h e (s_world s)).
  destruct (call h e (s_world s)) as [[w acts] o]. simpl in *. congruence.
Qed.

(** Moving an event from the lossless queue into a delivery. *)
Lemma take_fifo (p t q : list Event) e : p = t ++ e :: q -> p = (t ++ [e]) ++ q.
Proof. intros ->. by rewrite <-app_assoc. Qed.

Lemma work_bus_inv (s s' : sys W) : bus_inv s -> work call s s' -> bus_inv s'.
Proof.
  intros Hi Hs. destruct Hs as [e q s Hst Hd Hq|e sn cl h td s s' o Hd Hc Ho|e sn cl h td s s' Hd Hc
    |e sn cl s Hd|e q s Hst Hd Hq|e sn cl h td s s' o Hd Hc|e sn cl s Hd|n e q s Hac Hq
    |n e sn cl h td s s' o Hac Hc Ho|n e sn cl h td s s' Hac Hc|n e sn cl s Hac|n s Hac Hor].
  - destruct Hi as [Hf Ha Hb Hc Hp]. rewrite Hd, Hq in *. constructor; simpl; auto using take_fifo.
    + rewrite Ha. simpl. solve_Permutation.
    + destruct (s_ac s); [done| |]; simpl in *; [lia|]. by destruct Hp.
  - destruct (call_step_inv _ _ _ _ _ Hc Hi) as ([Hf Ha Hb Hcc Hp] & Hll & _).
    rewrite Hll, Hd in *. constructor; simpl; auto. destruct (s_ac s'); naive_solver.
  - by apply call_step_no_cancel in Hc.
  - destruct Hi as [Hf Ha Hb Hc Hp]. rewrite Hd in *. constructor; simpl in *; auto.
    + rewrite Ha. solve_Permutation.
    + destruct (s_ac s); naive_solver.
  - destruct Hi as [Hf Ha Hb Hc Hp]. by constructor.
  - destruct (call_step_inv _ _ _ _ _ Hc Hi) as ([Hf Ha Hb Hcc Hp] & _). by constructor.
  - destruct Hi as [Hf Ha Hb Hc Hp]. by constructor.
  - destruct Hi as [Hf Ha Hb Hc Hp]. rewrite Hac, Hq in *.
    constructor; simpl in *; auto using take_fifo; [|lia]. rewrite Ha. solve_Permutation.
  - destruct (call_step_inv _ _ _ _ _ Hc Hi) as ([Hf Ha Hb Hcc Hp] & _ & _ & Hac' & _).
    rewrite Hac', Hac in *. by constructor.
  - by apply call_step_no_cancel in Hc.
  - destruct Hi as [Hf Ha Hb Hc Hp]. rewrite Hac in *. constructor; simpl in *; auto.
    rewrite Ha. solve_Permutation.
  - destruct Hi as [Hf Ha Hb Hc Hp]. rewrite Hac in *. constructor; simpl in *; auto.
    + rewrite length_app. unfold busy_event. destruct (s_ll s); simpl; lia.
    + split; [|done]. destruct Hor as [->|]; [|done]. destruct (lossless (s_bus s)); simpl in *; [done|lia].
Qed.

Lemma step_bus_inv (s s' : sys W) : bus_inv s -> step call s s' -> bus_inv s'.
Proof.
  intros Hi Hs. destruct Hs as [acts s|s|s Hcl|s s' Hw]; [by apply acts_step_inv| | |by eapply work_bus_inv].
  - destruct Hi as [? ? ? ? ?]. unfold start. constructor; simpl; by destruct (started (s_bus s)).
  - destruct Hi as [Hf Ha Hb Hc Hp]. destruct (s_ac s) eqn:Hac; try congruence.
    constructor; simpl in *; auto; lia.
Qed.
End SystemLemmas.

(** A delivery calls the handlers of its snapshot in order, each once. *)
Definition flight_ok (f : flight) : Prop := fl_snap f = fl_called f ++ fl_todo f.

Definition calls_inv {W} (s : sys W) : Prop :=
  Forall (fun d => d.2.1 = d.2.2) (finished s)
  /\ match s_ll s with Busy f => flight_ok f | _ => True end
  /\ match s_ac s with Draining _ (Some f) => flight_ok f | _ => True end.

Lemma call_step_frame {W} call h e (s s' : sys W) o :
  call_step call h e s = (s', o) ->
  finished s' = finished s /\ s_ll s' = s_ll s /\ s_ac s' = s_ac s.
Proof.
  unfold call_step. destruct (call h e (s_world s)) as [[w acts] o']. by intros [= <- <-].
Qed.

Lemma flight_ok_next e sn cl h todo :
  flight_ok (mkFlight e sn cl (h :: todo)) -> flight_ok (mkFlight e sn (cl ++ [h]) todo).
Proof. unfold flight_ok. simpl. by rewrite <-app_assoc. Qed.

Lemma step_calls_inv {W} call (s s' : sys W) : calls_inv s -> step call s s' -> calls_inv s'.
Proof.
  unfold calls_inv. intros (Hf & Hl & Ha) Hs.
  destruct Hs as [| | |s s' Hw]; [auto|auto|auto|destruct Hw]; simpl;
    try match goal with H : call_step _ _ _ _ = _ |- _ =>
      apply call_step_frame in H as (Hf1 & Hl1 & Ha1); rewrite ?Hf1, ?Hl1, ?Ha1; clear Hf1 Hl1 Ha1 end;
    repeat match goal with
    | H : s_ll _ = _ |- _ => rewrite H in *; clear H
    | H : s_ac _ = _ |- _ => rewrite H in *; clear H
    end; eauto using flight_ok_next;
    unfold flight_ok in *; simpl in *; rewrite ?app_nil_r in *; auto.
Qed.

(** ** Progress

    Handlers that leave the bus alone: whatever is queued on the lossless lane, the
    dispatcher can work it off by itself. *)
Section Progress.
  Context {W : Type} (call : hid -> Event -> W -> W * list bus_act * outcome).
  Hypothesis quiet : forall h e w, (call h e w).1.2 = [] /\ (call h e w).2 <> Cancelled.

Lemma call_step_quiet h e (s : sys W) :
  exists s' o, call_step call h e s = (s', o) /\ o <> Cancelled /\ s_bus s' = s_bus s
    /\ s_ll s' = s_ll s /\ s_ac s' = s_ac s /\ posted_ll s' = posted_ll s /\ finished s' = finished s.
Proof.
  unfold call_step. destruct (quiet h e (s_world s)) as [Hq Hc].
  destruct (call h e (s_world s)) as [[w acts] o]. simpl in *. subst acts.
  eexists _, o. split; [done|]. simpl. by rewrite !app_nil_r.
Qed.

Lemma flight_lands e sn cl todo (s : sys W) :
  s_ll s = Busy (mkFlight e sn cl todo) ->
  exists s', rtc (work call) s s' /\ s_ll s' = Idle /\ s_bus s' = s_bus s /\ s_ac s' = s_ac s
    /\ posted_ll s' = posted_ll s /\ finished s' = (e, (sn, cl ++ todo)) :: finished s.
Proof.
  revert s cl. induction todo as [|h todo IH]; intros s cl Hb.
  - eexists. split; [apply rtc_once, st_done_ll; exact Hb|]. by rewrite app_nil_r.
  - destruct (call_step_quiet h e s) as (s1 & o & Hc & Ho & Hbus & _ & Hac & Hp & Hf).
    destruct (IH (s1 <| s_ll := Busy (mkFlight e sn (cl ++ [h]) todo) |>) (cl ++ [h]))
      as (s2 & Hr & Hl2 & Hb2 & Ha2 & Hp2 & Hf2); [done|].
    exists s2. split; [by eapply rtc_l; [eapply st_call_ll|]|].
    simpl in *. rewrite Hb2, Ha2, Hp2, Hf2, Hf, <-app_assoc. by split_and!.
Qed.

Lemma dispatcher_catches_up (s : sys W) :
  started (s_bus s) = true -> s_ll s <> Dead ->
  exists s', rtc (work call) s s' /\ s_ll s' = Idle /\ lossless (s_bus s') = [] /\ s_ac s' = s_ac s
    /\ posted_ll s' = posted_ll s.
Proof.
  intros Hst Hd. remember (lossless (s_bus s)) as q eqn:Hq. revert s Hst Hd Hq.
  assert (Hidle : forall s, started (s_bus s) = true -> s_ll s = Idle -> q = lossless (s_bus s) ->
    exists s', rtc (work call) s s' /\ s_ll s' = Idle /\ lossless (s_bus s') = []
      /\ s_ac s' = s_ac s /\ posted_ll s' = posted_ll s).
  { induction q as [|e q IH]; intros s Hst Hi Hq; [by exists s|].
    set (f := mkFlight e (snapshot (s_bus s) e) [] (snapshot (s_bus s) e)).
    set (s1 := s <| s_bus := s_bus s <| lossless := q |> |> <| s_ll := Busy f |>
                 <| taken_ll ::= fun l => l ++ [e] |>).
    destruct (flight_lands e _ [] _ s1 eq_refl) as (s2 & Hr2 & Hl2 & Hb2 & Ha2 & Hp2 & _).
    destruct (IH s2) as (s3 & Hr3 & Hl3 & Hq3 & Ha3 & Hp3); [by rewrite Hb2|done|by rewrite Hb2|].
    exists s3. split_and!; [|done|done|by rewrite Ha3, Ha2|by rewrite Hp3, Hp2].
    eapply rtc_l; [by eapply (st_take_ll call e q)|]. by etrans. }
  intros s Hst Hd Hq. destruct (s_ll s) as [|[e sn cl todo]|] eqn:Hll; [by apply Hidle| |done].
  destruct (flight_lands _ _ _ _ _ Hll) as (s1 & Hr1 & Hl1 & Hb1 & Ha1 & Hp1 & _).
  destruct (Hidle s1) as (s2 & Hr2 & Hl2 & Hq2 & Ha2 & Hp2); [by rewrite Hb1|done|by rewrite Hb1|].
  exists s2. split_and!; [by etrans|done|done|congruence..].
Qed.
End Progress.

Definition system_run {W} call (maxsize : nat) (w : W) : sys W -> Prop :=
  rtc (step call) (sys_init maxsize w).


(** The lossy lane's accounting. *)
Definition lossy_inv {W} (s : sys W) : Prop :=
  (0 < lossy_maxsize (s_bus s))%nat
  /\ (length (lossy (s_bus s)) <= lossy_maxsize (s_bus s))%nat
  /\ exists gone, posted_ly s = gone ++ lossy (s_bus s)
       /\ zlen gone = dropped (s_bus s) + Z.of_nat (taken_ly s).

Lemma acts_step_lossy {W} acts (s : sys W) : lossy_inv s -> lossy_inv (acts_step acts s).
Proof.
  intros (Hpos & Hle & gone & Hp & Hz). unfold lossy_inv. simpl.
  destruct (do_acts_lossy acts (s_bus s) Hpos Hle) as (g & Hq & Hd & Hl & Hm).
  split_and!; [lia|done|]. exists (gone ++ g).
  rewrite Hp, <-app_assoc, Hq, app_assoc, zlen_app. split; [done|lia].
Qed.

Lemma call_step_lossy {W} call h e (s s' : sys W) o :
  call_step call h e s = (s', o) -> lossy_inv s -> lossy_inv s'.
Proof.
  unfold call_step. destruct (call h e (s_world s)) as [[w acts] o'].
  intros [= <- <-] Hi. apply (acts_step_lossy acts) in Hi. exact Hi.
Qed.

Lemma step_lossy_inv {W} call (s s' : sys W) : lossy_inv s -> step call s s' -> lossy_inv s'.
Proof.
  intros Hi Hs. destruct Hs as [|s| |s s' Hw]; [auto using acts_step_lossy| |exact Hi|destruct Hw];
    try (eapply call_step_lossy in Hi; [|eassumption]); auto using acts_step_lossy.
  - unfold lossy_inv, start in *. simpl. by destruct (started (s_bus s)).
  - destruct Hi as (Hpos & Hle & gone & Hp & Hz). unfold lossy_inv. simpl.
    rewrite H1 in *. simpl in *. split_and!; [lia|lia|]. exists (gone ++ [e]).
    rewrite <-app_assoc, zlen_app. split; [done|]. unfold zlen in *. simpl. lia.
Qed.

(** Under the same interleavings the lossy lane never holds more than its
    bound, always holds the most recent events posted to it in order, and
    every event no longer there was either dispatched or counted in [dropped]. *)
Theorem lossy_keeps_newest {W} (call : hid -> Event -> W -> W * list bus_act * outcome)
  maxsize w s :
  (0 < maxsize)%nat -> system_run call maxsize w s ->
  (length (lossy (s_bus s)) <= lossy_maxsize (s_bus s))%nat
  /\ exists gone, posted_ly s = gone ++ lossy (s_bus s)
       /\ zlen gone = dropped (s_bus s) + Z.of_nat (taken_ly s).
Proof.
  intros Hpos Hr. assert (Hi : lossy_inv s).
  { eapply rtc_invariant; [apply (step_lossy_inv call)|exact Hr|].
    split_and!; [done|simpl; lia|]. by exists []. }
  by destruct Hi as (_ & ? & ?).
Qed.

(** ** Shutdown and test-mode draining, run alone *)

Section Sequential.
  Context {W : Type} (call : hid -> Event -> W -> W * list bus_act * outcome).
  Hypothesis no_cancel : forall h e w, (call h e w).2 <> Cancelled.

(** The handlers only append to the lossless queue. *)
Lemma deliver_loop_spec hs e bw :
  exists b' w' more, deliver_loop call hs e bw = ((b', w'), Returned)
    /\ closed b' = closed bw.1 /\ lossless b' = lossless bw.1 ++ more
    /\ (closed bw.1 = true -> more = []).
Proof.
  revert bw. induction hs as [|h hs IH]; intros [b w]; simpl.
  - exists b, w, []. by rewrite app_nil_r.
  - unfold run_handler. simpl. specialize (no_cancel h e w).
    destruct (call h e w) as [[w1 acts] o]. simpl in no_cancel.
    destruct (IH (do_acts acts b, w1)) as (b' & w' & more & Hd & Hc & Hq & Hm).
    exists b', w', (accepted_all LOSSLESS acts b ++ more). simpl in *.
    rewrite do_acts_closed in *. rewrite do_acts_lossless, <-app_assoc in Hq.
    split_and!; [by destruct o|done|done|]. intros Ht.
    by rewrite accepted_all_closed, Hm by done.
Qed.

Lemma drain_pending_spec n b w :
  closed b = true -> (length (lossless b) <= n)%nat ->
  exists b' w', drain_pending call n (b, w) = ((b', w'), Returned)
    /\ closed b' = true /\ lossless b' = [].
Proof.
  revert b w. induction n as [|n IH]; intros b w Hc Hn; simpl.
  - exists b, w. by destruct (lossless b); [|simpl in *; lia].
  - destruct (lossless b) as [|e q] eqn:Hq; [by eauto|]. simpl in Hn.
    unfold deliver. simpl.
    destruct (deliver_loop_spec (snapshot (b <| lossless := q |>) e) e (b <| lossless := q |>, w))
      as (b' & w' & more & Hd & Hc' & Hq' & Hm). simpl in *.
    rewrite Hd. rewrite Hm, app_nil_r in Hq' by done. apply IH; [congruence|].
    rewrite Hq'. lia.
Qed.

End Sequential.

(** ** Witnesses *)

Definition raising_call (h : hid) (e : Event) (w : unit) : unit * list bus_act * outcome :=
  (w, [], Raised).

Ltac run_step c :=
  eapply rtc_l; [first [eapply c | apply st_work; eapply c]; try reflexivity; try (intros ?; discriminate)|].


Lemma lossy_keeps_newest_witness :
  exists s, system_run raising_call 2 tt s /\ (length (lossy (s_bus s)) <= 2)%nat
    /\ exists gone, posted_ly s = gone ++ lossy (s_bus s) /\ zlen gone = 1.
Proof.
  set (acts := [ActRegister TAsrPartial LOSSY; ActPost (AsrPartial [65]);
                ActPost (AsrPartial [66]); ActPost (AsrPartial [67])]).
  set (s := acts_step acts (sys_init 2 tt)).
  assert (Hr : system_run raising_call 2 tt s) by (apply rtc_once, st_outside).
  exists s. destruct (lossy_keeps_newest raising_call 2 tt s) as (Hl & gone & Hp & Hz);
    [lia|done|]. split_and!; [done|exact Hl|]. by exists gone.
Defined.


(** A delivery that is suspended in a handler when [aclose] runs is cut: the
    final was posted before the close, yet its second handler never runs. *)
Lemma aclose_cuts_delivery_in_flight :
  exists s, system_run raising_call 2 tt s /\ s_ac s = Closed
    /\ posted_ll s = [AsrFinal [65]] /\ finished s = [] /\ aborted s = [AsrFinal [65]].
Proof.
  eexists. split.
  - run_step (st_outside raising_call [ActSubscribe TAsrFinal 7%nat; ActSubscribe TAsrFinal 8%nat;
                                     ActPost (AsrFinal [65])]).
    run_step (st_start raising_call). run_step (st_take_ll raising_call).
    run_step (st_call_ll raising_call). run_step (st_close raising_call).
    run_step (st_ac_stop raising_call); [by left|]. apply rtc_refl.
  - by split_and!.
Qed.
