(* ===== verification/Splitter.v ===== *)
(** * The sentence splitter

    [streaming/sentence_splitter.py]: the token stream of the main model cut into
    sentences for synthesis.  The Unicode database is the parameter [readable]
    (general category L or N); the stream is the list of its tokens and the
    generator the list of what it yields. *)

From S2P Require Import Prelude.

Definition TERMINATORS : pystr := u8 "。？！?!.".
Definition SOFT_BOUNDARIES : pystr := u8 "，、；：,;:".
Definition TRAILING : pystr := [8221; 8217; 34; 39; 41; 65289; 12301; 12303; 12305].
Definition SOFT_SENTENCE_CHARS : Z := 60.
Definition MAX_SENTENCE_CHARS : Z := 120.
Definition BLANK_LINE : pystr := [10; 10].

Section Splitter.
  Context (readable : Z -> bool).

Definition has_synthesizable_text (s : pystr) : bool := existsb readable s.

  Context (soft_chars max_chars : Z).

(** [buffer] already ends with [ch]. *)
Definition should_emit (buffer : pystr) (ch : Z) : bool :=
  char_in ch TERMINATORS
  || endswith buffer BLANK_LINE
  || ((soft_chars <=? zlen buffer) && char_in ch SOFT_BOUNDARIES)
  || (max_chars <=? zlen buffer).

(** What a finished buffer yields. *)
Definition emit (buffer : pystr) : list pystr :=
  let out := py_strip buffer in
  if negb (zlen out =? 0) && has_synthesizable_text out then [out] else [].

(** One character: the buffer left and what is yielded. *)
Definition split_char (buffer : pystr) (ch : Z) : pystr * list pystr :=
  let buffer := buffer ++ [ch] in
  if should_emit buffer ch then ([], emit buffer) else (buffer, []).

Fixpoint split_token (buffer token : pystr) : pystr * list pystr :=
  match token with
  | [] => (buffer, [])
  | ch :: token' =>
      let '(b1, o1) := split_char buffer ch in
      let '(b2, o2) := split_token b1 token' in
      (b2, o1 ++ o2)
  end.

Fixpoint split_stream (buffer : pystr) (tokens : list pystr) : pystr * list pystr :=
  match tokens with
  | [] => (buffer, [])
  | token :: tokens' =>
      if zlen token =? 0 then split_stream buffer tokens'
      else
        let '(b1, o1) := split_token buffer token in
        let '(b2, o2) := split_stream b1 tokens' in
        (b2, o1 ++ o2)
  end.

Definition split_sentences (tokens : list pystr) : list pystr :=
  let '(tail, out) := split_stream [] tokens in out ++ emit tail.

(** ** What a cut is *)

Definition is_cut (buffer : pystr) : bool :=
  match last buffer with Some ch => should_emit buffer ch | None => false end.

(** No nonempty prefix is a cut. *)
Definition uncut (s : pystr) : Prop :=
  forall p q, s = p ++ q -> is_cut p = false.

(** A cut none of whose proper prefixes is one. *)
Definition first_cut (s : pystr) : Prop := exists p c, s = p ++ [c] /\ uncut p /\ is_cut s = true.

Lemma is_cut_snoc buffer ch : is_cut (buffer ++ [ch]) = should_emit (buffer ++ [ch]) ch.
Proof. unfold is_cut. by rewrite last_snoc. Qed.

Lemma uncut_nil : uncut [].
Proof. intros p q Hpq. symmetry in Hpq. by apply app_eq_nil in Hpq as [-> ->]. Qed.

Lemma uncut_snoc buffer ch : uncut buffer -> is_cut (buffer ++ [ch]) = false -> uncut (buffer ++ [ch]).
Proof.
  intros Hu Hc p q Hpq. destruct q as [|x q _] using rev_ind.
  - rewrite app_nil_r in Hpq. by subst.
  - rewrite app_assoc in Hpq. apply app_inj_tail in Hpq as [-> _]. by eapply Hu.
Qed.

(** Splitting a token extends the segmentation: the text is the buffer's
    continuation through some first cuts, and what remains is uncut. *)
Lemma split_token_segments token buffer b out :
  uncut buffer -> split_token buffer token = (b, out) ->
  exists segs, buffer ++ token = concat segs ++ b /\ Forall first_cut segs /\ uncut b
               /\ out = concat (map emit segs).
Proof.
  revert buffer out. induction token as [|ch token IH]; intros buffer out Hu; simpl.
  - intros [= <- <-]. exists []. by rewrite app_nil_r.
  - destruct (split_char buffer ch) as [b1 o1] eqn:Hc.
    destruct (split_token b1 token) as [b2 o2] eqn:Ht. intros [= <- <-].
    unfold split_char in Hc. destruct (should_emit _ ch) eqn:He; simplify_eq.
    + destruct (IH [] o2 uncut_nil Ht) as (segs & Hcat & Hs & Hb & ->).
      exists ((buffer ++ [ch]) :: segs). split_and!; simpl; [|constructor|..]; try done.
      * rewrite <-app_assoc, <-Hcat. by rewrite <-app_assoc.
      * exists buffer, ch. by rewrite is_cut_snoc.
    + destruct (IH (buffer ++ [ch]) o2) as (segs & Hcat & Hs & Hb & ->); [|done|].
      * apply uncut_snoc; [done|]. by rewrite is_cut_snoc.
      * exists segs. rewrite <-Hcat, <-app_assoc. by split_and!.
Qed.

Lemma split_token_app t1 t2 buffer :
  split_token buffer (t1 ++ t2)
  = let '(b1, o1) := split_token buffer t1 in
    let '(b2, o2) := split_token b1 t2 in (b2, o1 ++ o2).
Proof.
  revert buffer. induction t1 as [|ch t1 IH]; intros buffer; simpl.
  - by destruct (split_token buffer t2).
  - destruct (split_char buffer ch) as [b1 o1]. rewrite IH.
    destruct (split_token b1 t1) as [b2 o2]. destruct (split_token b2 t2) as [b3 o3].
    by rewrite app_assoc.
Qed.

(** The token boundaries do not matter. *)
Lemma split_stream_concat tokens buffer :
  split_stream buffer tokens = split_token buffer (concat tokens).
Proof.
  revert buffer. induction tokens as [|t tokens IH]; intros buffer; simpl; [done|].
  rewrite split_token_app. destruct t as [|ch t].
  - simpl. rewrite IH. by destruct (split_token buffer (concat tokens)).
  - replace (zlen (ch :: t) =? 0) with false
      by (symmetry; apply Z.eqb_neq; unfold zlen; simpl; lia).
    destruct (split_token buffer (ch :: t)) as [b1 o1]. by rewrite IH.
Qed.

Lemma split_sentences_segments tokens :
  exists segs tail, concat tokens = concat segs ++ tail /\ Forall first_cut segs /\ uncut tail
    /\ split_sentences tokens = concat (map emit (segs ++ [tail])).
Proof.
  unfold split_sentences. rewrite split_stream_concat.
  destruct (split_token [] (concat tokens)) as [tail out] eqn:Ht.
  destruct (split_token_segments _ _ _ _ uncut_nil Ht) as (segs & Hcat & Hs & Hu & ->).
  exists segs, tail. split_and!; [done..|].
  rewrite map_app, concat_app. simpl. by rewrite app_nil_r.
Qed.

Lemma emit_spec buffer s :
  s ∈ emit buffer -> s = py_strip buffer /\ s <> [] /\ has_synthesizable_text s = true.
Proof.
  unfold emit. destruct (negb _ && _) eqn:He; [|by intros ?%elem_of_nil].
  apply andb_true_iff in He as [Hz Hh]. intros ->%list_elem_of_singleton.
  split_and!; [done| |done]. intros Hnil. by rewrite Hnil in Hz.
Qed.

(** Dropping an unreadable chunk loses no readable character. *)
Lemma emit_readable buffer :
  (forall c, readable c = true -> is_space c = false) ->
  List.filter readable (concat (emit buffer)) = List.filter readable buffer.
Proof.
  intros Hsp. rewrite <-(strip_filter is_space readable buffer Hsp). unfold emit.
  fold (py_strip buffer). destruct (negb _ && _) eqn:He; simpl; [by rewrite app_nil_r|].
  assert (Hno : existsb readable (py_strip buffer) = false).
  { apply andb_false_iff in He as [Hz|Hh]; [|done].
    apply negb_false_iff, Z.eqb_eq in Hz. destruct (py_strip buffer); [done|].
    rewrite zlen_cons in Hz. pose proof (zlen_nonneg l). lia. }
  revert Hno. generalize (py_strip buffer). induction l as [|c l IH]; simpl; [done|].
  intros [-> Hl]%orb_false_iff. by apply IH.
Qed.

(** A first cut is never longer than the hard ceiling. *)
Lemma first_cut_length s : 1 <= max_chars -> first_cut s -> zlen s <= max_chars.
Proof.
  intros Hmax (p & c & -> & Hu & _). rewrite zlen_app. unfold zlen at 2. simpl.
  destruct (decide (p = [])) as [->|Hne]; [unfold zlen; simpl; lia|].
  specialize (Hu p []). rewrite app_nil_r in Hu. specialize (Hu eq_refl).
  unfold is_cut in Hu. destruct (last p) eqn:Hl; [|by apply last_None in Hl].
  unfold should_emit in Hu. zbool. lia.
Qed.

Lemma uncut_length s : 1 <= max_chars -> uncut s -> zlen s <= max_chars.
Proof.
  intros Hmax Hu. destruct s as [|c s _] using rev_ind; [unfold zlen; simpl; lia|].
  specialize (Hu (s ++ [c]) []). rewrite app_nil_r in Hu. specialize (Hu eq_refl).
  rewrite is_cut_snoc in Hu. unfold should_emit in Hu. zbool. lia.
Qed.
End Splitter.


(** Every yielded sentence is nonempty, has no surrounding whitespace,
    contains something to voice and is at most [max_chars] long. *)
Theorem split_sentences_wellformed readable soft max tokens s :
  1 <= max -> s ∈ split_sentences readable soft max tokens ->
  s <> [] /\ py_strip s = s /\ has_synthesizable_text readable s = true /\ zlen s <= max.
Proof.
  intros Hmax Hin.
  destruct (split_sentences_segments readable soft max tokens) as (segs & tl & _ & Hs & Hu & Heq).
  rewrite Heq in Hin. apply list_elem_of_In, in_concat in Hin as (l & Hl & Hsl).
  apply in_map_iff in Hl as (buffer & <- & Hb). apply list_elem_of_In in Hsl.
  apply emit_spec in Hsl as (-> & Hne & Hh). split_and!; [done|apply strip_idem|done|].
  etransitivity; [apply strip_length|]. apply in_app_or in Hb as [Hb|[<-|[]]].
  - apply (first_cut_length soft); [done|]. rewrite List.Forall_forall in Hs. by apply Hs.
  - by apply (uncut_length soft).
Qed.

(** No readable character is lost, repeated or reordered: what the
    yielded sentences say is what the stream said. *)
Theorem split_sentences_preserves_text readable soft max tokens :
  (forall c, readable c = true -> is_space c = false) ->
  List.filter readable (concat (split_sentences readable soft max tokens))
  = List.filter readable (concat tokens).
Proof.
  intros Hsp.
  destruct (split_sentences_segments readable soft max tokens) as (segs & tl & -> & _ & _ & ->).
  replace (concat segs ++ tl) with (concat (segs ++ [tl]))
    by (rewrite concat_app; simpl; by rewrite app_nil_r).
  induction (segs ++ [tl]) as [|b l IH]; simpl; [done|].
  by rewrite concat_app, !List.filter_app, IH, emit_readable.
Qed.

(** ** Witnesses *)

(** ASCII letters and digits and the CJK ideographs. *)
Definition readable_example (c : Z) : bool :=
  ((48 <=? c) && (c <=? 57)) || ((65 <=? c) && (c <=? 90)) || ((97 <=? c) && (c <=? 122))
  || ((19968 <=? c) && (c <=? 40959)).

Lemma readable_example_not_space c : readable_example c = true -> is_space c = false.
Proof.
  unfold readable_example, is_space. intros H.
  repeat (apply orb_true_iff in H as [H|H]); zbool;
    repeat (apply orb_false_iff; split); try (apply andb_false_iff);
    rewrite ?Z.leb_gt, ?Z.eqb_neq; lia.
Qed.

Lemma split_sentences_wellformed_witness :
  let tokens := [u8 "您"; u8 "好。. "; []; u8 "请问"] in
  u8 "您好。" ∈ split_sentences readable_example 60 120 tokens /\
  u8 "您好。" <> [] /\ py_strip (u8 "您好。") = u8 "您好。"
  /\ has_synthesizable_text readable_example (u8 "您好。") = true /\ zlen (u8 "您好。") <= 120.
Proof.
  assert (Hin : u8 "您好。" ∈ split_sentences readable_example 60 120 [u8 "您"; u8 "好。. "; []; u8 "请问"])
    by (vm_compute; left).
  split; [exact Hin|]. apply (split_sentences_wellformed readable_example 60 120 _ _ ltac:(lia) Hin).
Defined.

Lemma split_sentences_preserves_text_witness :
  List.filter readable_example
    (concat (split_sentences readable_example 60 120 [u8 "好..."; u8 "的 。"]))
  = u8 "好的".
Proof.
  rewrite (split_sentences_preserves_text readable_example 60 120 _ readable_example_not_space).
  reflexivity.
Defined.

(** The closing quote after a terminator opens the next sentence: [TRAILING]
    is not consulted. *)
Lemma trailing_quote_opens_next_sentence :
  split_sentences readable_example SOFT_SENTENCE_CHARS MAX_SENTENCE_CHARS
    [u8 "他说“好。”然后走了。"]
  = [u8 "他说“好。"; u8 "”然后走了。"]
  /\ char_in 8221 TRAILING = true.
Proof. split; vm_compute; reflexivity. Qed.
