(* ===== verification/Referee.v ===== *)
(** * Referees and the routing decider

    [streaming/types.py], [referee.py] and [pipeline/decider.py]: the
    gate model's prompt and bare-token answer, its fail-open result, and the
    first-match-wins walk over the campaign's routing rules.  The language model
    is the parameter [chat]; rules are the JSON values the campaign stores. *)

From S2P Require Import Prelude Session.

(** ** Referee results *)

Definition FAILOPEN_TIMEOUT : pystr := u8 "timeout".
Definition FAILOPEN_INVALID : pystr := u8 "invalid".

Record RefereeResult := mkReferee {
  rr_label : pystr;
  rr_category : option pystr;
  rr_confidence : Q;
  rr_duration_ms : Z;
  rr_raw_output : option pystr;
  rr_failopen_reason : option pystr
}.

Definition fail_open (label reason : pystr) (duration_ms : Z) (raw : option pystr)
  : RefereeResult :=
  mkReferee label None 0 duration_ms raw (Some reason).

Definition effective_category (r : RefereeResult) : option pystr := rr_category r.

Definition trace_category (r : RefereeResult) : pystr :=
  match rr_category r with
  | None => match rr_failopen_reason r with Some ((_ :: _) as x) => x | _ => FAILOPEN_INVALID end
  | Some c => c
  end.

Definition as_trace (r : RefereeResult) : list (string * pyval) :=
  [("label"%string, VStr (rr_label r)); ("category"%string, VStr (trace_category r));
   ("confidence"%string, VFloat (rr_confidence r));
   ("duration_ms"%string, VInt (rr_duration_ms r))].

(** ** One referee call *)

Definition RECENT_ROUNDS : Z := 3.
Definition EMPTY_HISTORY_PLACEHOLDER : pystr := u8 "（首轮对话，无历史）".
Definition USER_PRIMER : pystr :=
  u8 "请按系统提示只输出一个分类词，不要任何其他内容、标点或 JSON。".

Definition render_dialog_history_for_referee (turns : list DialogTurn) : pystr :=
  match turns with
  | [] => EMPTY_HISTORY_PLACEHOLDER
  | _ => str_join [10]
           (map (fun t => (match dt_role t with RUser => u8 "用户" | RAssistant => u8 "AI" end)
                          ++ u8 "：" ++ dt_text t) turns)
  end.

(** [l[-k:]] for [k > 0]. *)
Definition take_last {A} (k : nat) (l : list A) : list A := drop (length l - k) l.

Definition recent_dialog_rounds (rounds : Z) (h : list DialogTurn) : list DialogTurn :=
  match h with [] => [] | _ => take_last (Z.to_nat (rounds * 2)) h end.

Record Message := mkMessage { msg_role : string; msg_content : pystr }.

(** The fields of [RefereeSpec] the call reads. *)
Record RefereeSpec := mkRefereeSpec {
  rs_role_config_id : Z; rs_prompt_version_id : Z; rs_label : pystr; rs_system_prompt : pystr; rs_temperature : pyval; rs_top_p : pyval;
  rs_provider : option pystr; rs_model : option pystr }.

Definition referee_system_prompt (remainder : option pystr) (user : pystr)
  (history : list DialogTurn) (spec : RefereeSpec) : pystr :=
  let rem := default [] remainder in
  let s1 := py_replace (rs_system_prompt spec) (u8 "{{user_last_utterance}}") user in
  let s2 := py_replace s1 (u8 "{{recent_dialog_history}}")
              (render_dialog_history_for_referee history) in
  let s3 := py_replace s2 (u8 "{{was_interrupted}}")
              (if decide (rem = []) then u8 "否" else u8 "是") in
  py_replace s3 (u8 "{{interrupted_reply}}") rem.

Definition REFEREE_PUNCT : pystr := u8 ".,。，!！?？" ++ [34] ++ u8 "'`：:".

Definition is_punct (c : Z) : bool := char_in c REFEREE_PUNCT.

Definition parse_referee_output (raw label : pystr) (duration_ms : Z) : RefereeResult :=
  let tokens := py_split (py_strip raw) in
  let category := match tokens with
                  | t :: _ => strip_by is_punct t
                  | [] => []
                  end in
  if decide (category = []) then fail_open label FAILOPEN_INVALID duration_ms (Some raw)
  else mkReferee label (Some category) 1 duration_ms (Some raw) None.

Section Run.
  (** The provider: [None] is a raised exception. *)
  Context (chat : list Message -> pyval -> pyval -> option pystr).

Definition run_referee (start finish : Z) (remainder : option pystr) (user : pystr)
  (history : list DialogTurn) (spec : RefereeSpec) : RefereeResult :=
  let system := referee_system_prompt remainder user history spec in
  let messages := [mkMessage "system" system; mkMessage "user" USER_PRIMER] in
  let duration_ms := Z.quot (finish - start) 1000 in
  match chat messages (rs_temperature spec) (rs_top_p spec) with
  | None => fail_open (rs_label spec) FAILOPEN_INVALID duration_ms None
  | Some raw => parse_referee_output raw (rs_label spec) duration_ms
  end.
End Run.

(** ** The decider *)

Inductive action_kind : Type := KTransition | KRestructure | KContinue | KRoute | KTool.

#[export] Instance action_kind_eq_dec : EqDecision action_kind.
Proof. solve_decision. Defined.

Record DeciderAction := mkAction {
  da_kind : action_kind;
  da_to : pyval;
  da_goal_type : pyval;
  da_source : pyval;
  da_restructure_trigger : pyval;
  da_tool : pyval;
  da_then_state : pyval;
  da_closing_phrase : pyval;
  da_matched_rule : option (list (string * pyval))
}.

#[export] Instance DeciderAction_eta : Eta DeciderAction := fun a =>
  mkAction (da_kind a) (da_to a) (da_goal_type a) (da_source a) (da_restructure_trigger a)
    (da_tool a) (da_then_state a) (da_closing_phrase a) (da_matched_rule a).

Definition continue_action : DeciderAction :=
  mkAction KContinue VNone VNone VNone VNone VNone VNone VNone None.

(** [{r.label: r.effective_category() for r in results}.get(ref)]: the last
    result with that label. *)
Definition categories_get (results : list RefereeResult) (ref : pyval)
  : result PyErr (option pystr) :=
  match ref with
  | VStr l =>
      Ok (fold_left (fun acc r => if decide (rr_label r = l) then effective_category r else acc)
            results None)
  | VList _ | VDict _ => Err TypeError              (* unhashable *)
  | _ => Ok None
  end.

(** [v or d]. *)
Definition val_or (v d : pyval) : pyval := if truthy v then v else d.

(** The action a matched rule stands for. *)
Definition rule_action (rule : list (string * pyval)) : result PyErr DeciderAction :=
  let action := val_or (dgetv "action" rule) (VDict []) in
  let? atype := val_get "type" action in
  match action with
  | VDict a =>
      let base := continue_action <| da_matched_rule := Some rule |> in
      if val_is atype "transition" then
        Ok (base <| da_kind := KTransition |> <| da_to := dgetv "to" a |>
                 <| da_goal_type := dgetv "goal_type" a |>)
      else if val_is atype "route" then
        Ok (base <| da_kind := KRoute |> <| da_to := dgetv "to" a |>
                 <| da_goal_type := dgetv "goal_type" a |>
                 <| da_then_state := dgetv "then_state" a |>)
      else if val_is atype "tool" then
        Ok (base <| da_kind := KTool |> <| da_tool := dgetv "tool" a |>
                 <| da_then_state := dgetv "then_state" a |>
                 <| da_closing_phrase := dgetv "closing_phrase" a |>)
      else Ok base
  | _ => Err AttributeError
  end.

(** Whether a rule's referee returned one of its categories. *)
Definition rule_matches (results : list RefereeResult) (rule : list (string * pyval))
  : result PyErr bool :=
  let? cat := categories_get results (dgetv "referee" rule) in
  match cat with
  | None => Ok false
  | Some c => str_in_val c (val_or (dgetv "match" rule) (VList []))
  end.

Fixpoint decide_route (results : list RefereeResult) (rules : list (list (string * pyval)))
  : result PyErr DeciderAction :=
  match rules with
  | [] => Ok continue_action
  | rule :: rules' =>
      let? hit := rule_matches results rule in
      if (hit : bool) then rule_action rule else decide_route results rules'
  end.

(** ** Properties *)

(** A category word comes back exactly as the prompt defines it, whatever
    whitespace and punctuation the model wraps it in and whatever it says after
    it, with full confidence and no fail-open mark. *)
Theorem parse_referee_bare_token label d sp p1 w p2 rest :
  Forall (fun c => is_space c = true) sp ->
  w <> [] -> Forall (fun c => is_space c = false) (p1 ++ w ++ p2) ->
  Forall (fun c => is_punct c = true) (p1 ++ p2) -> no_head is_punct w -> no_head is_punct (rev w) ->
  match rest with [] => True | c :: _ => is_space c = true end ->
  let raw := sp ++ (p1 ++ w ++ p2) ++ rest in
  parse_referee_output raw label d = mkReferee label (Some w) 1 d (Some raw) None.
Proof.
  intros Hsp Hne Hns Hp Hh Ht Hrest raw. unfold parse_referee_output.
  destruct (py_split_first sp (p1 ++ w ++ p2) rest) as (more & Hsplit); try done.
  { destruct p1, w; done. }
  fold raw in Hsplit. rewrite Hsplit.
  rewrite (strip_wrap is_punct) by assumption. by rewrite decide_False.
Qed.

(** The result is always labelled and is either a usable category or
    marked fail-open. *)
Lemma run_referee_shape chat t0 t1 rem user h spec :
  let r := run_referee chat t0 t1 rem user h spec in
  rr_label r = rs_label spec
  /\ match rr_category r with
     | Some c => c <> [] /\ rr_failopen_reason r = None
     | None => rr_failopen_reason r = Some FAILOPEN_INVALID
     end.
Proof.
  unfold run_referee. generalize (referee_system_prompt rem user h spec); intros sys.
  destruct (chat _ _ _); [|by split]. unfold parse_referee_output.
  case_decide; by split_and!.
Qed.

(** A rule as the API stores it. *)
Definition rule_wf (rule : list (string * pyval)) : bool :=
  match dgetv "referee" rule with VStr _ => true | _ => false end
  && match dgetv "match" rule with VList _ | VNone => true | _ => false end
  && match dgetv "action" rule with VDict _ | VNone => true | _ => false end.

Lemma rule_matches_wf results rule :
  rule_wf rule = true -> exists b, rule_matches results rule = Ok b.
Proof.
  unfold rule_wf, rule_matches, categories_get, val_or, str_in_val.
  destruct (dgetv "referee" rule); simpl; try done.
  destruct (fold_left _ _ _); simpl; [|eauto].
  destruct (dgetv "match" rule); simpl; try done; eauto.
  destruct (negb _); eauto.
Qed.

Lemma rule_action_wf rule :
  rule_wf rule = true ->
  exists a, rule_action rule = Ok a /\ da_matched_rule a = Some rule /\ da_kind a <> KRestructure.
Proof.
  unfold rule_wf, rule_action, val_or. intros Hwf. zbool.
  destruct (dgetv "action" rule) as [| | | | | |a]; simpl in *; try done.
  - eexists. by split_and!.
  - destruct (negb _); simpl; repeat case_match; eexists; by split_and!.
Qed.

(** On stored rules the decider always answers, and first match wins: either no
    rule matches and the action is [continue], or the action is that of a rule
    that matches while no earlier one does; it is never [restructure]. *)
Theorem decide_first_match results rules :
  forallb rule_wf rules = true ->
  exists a, decide_route results rules = Ok a /\ da_kind a <> KRestructure
    /\ ((a = continue_action /\ Forall (fun r => rule_matches results r = Ok false) rules)
        \/ exists pre r post, rules = pre ++ r :: post
             /\ Forall (fun r => rule_matches results r = Ok false) pre
             /\ rule_matches results r = Ok true /\ rule_action r = Ok a
             /\ da_matched_rule a = Some r).
Proof.
  induction rules as [|rule rules IH]; simpl.
  - intros _. exists continue_action. split_and!; [done..|]. by left.
  - intros [Hwf Hrs]%andb_true_iff.
    destruct (rule_matches_wf results rule Hwf) as ([|] & Hm); rewrite Hm; simpl.
    + destruct (rule_action_wf rule Hwf) as (a & Ha & Hr & Hk). exists a.
      split_and!; [done..|]. right. by exists [], rule, rules.
    + destruct (IH Hrs) as (a & Ha & Hk & [[-> Hall]|(pre & r & post & -> & Hpre & Hrest)]);
        eexists; (split_and!; [done..|]).
      * left. by repeat constructor.
      * right. exists (rule :: pre), r, post. split_and!; try done; try apply Hrest.
        by constructor.
Qed.

(** A referee that failed open matches no rule. *)
Lemma failed_open_never_matches results rule :
  rule_wf rule = true -> Forall (fun r => rr_category r = None) results ->
  rule_matches results rule = Ok false.
Proof.
  unfold rule_wf, rule_matches, categories_get. intros Hwf Hall.
  destruct (dgetv "referee" rule) as [| | | |l| |]; simpl in *; try done.
  assert (Hf : forall acc : option pystr, acc = None ->
    fold_left (fun acc r => if decide (rr_label r = l) then effective_category r else acc)
      results acc = None).
  { induction Hall as [|r rs Hr _ IH]; intros acc ->; simpl; [done|]. apply IH. by case_decide. }
  by rewrite Hf.
Qed.

(** ** Witnesses *)

Definition example_rule (ref cat : string) : list (string * pyval) :=
  [("referee"%string, VStr (u8 ref)); ("match"%string, VList [VStr (u8 cat)]);
   ("action"%string, VDict [("type"%string, VStr (u8 "route")); ("to"%string, VStr (u8 "closing"))])].

Lemma decide_first_match_witness :
  let results := [mkReferee (u8 "gate") (Some (u8 "bye")) 1 0 None None] in
  let rules := [example_rule "gate" "hello"; example_rule "gate" "bye"] in
  forallb rule_wf rules = true /\
  exists a, decide_route results rules = Ok a /\ da_kind a <> KRestructure.
Proof.
  split; [reflexivity|].
  destruct (decide_first_match [mkReferee (u8 "gate") (Some (u8 "bye")) 1 0 None None]
              [example_rule "gate" "hello"; example_rule "gate" "bye"])
    as (a & Ha & Hk & _); [reflexivity|]. by exists a.
Defined.

Lemma parse_referee_bare_token_witness :
  parse_referee_output ([32] ++ (u8 "。" ++ u8 "goal" ++ u8 "!") ++ u8 " because") (u8 "g") 7
  = mkReferee (u8 "g") (Some (u8 "goal")) 1 7 (Some (u8 " 。goal! because")) None.
Proof.
  apply (parse_referee_bare_token (u8 "g") 7 [32] (u8 "。") (u8 "goal") (u8 "!") (u8 " because"));
    vm_compute; repeat constructor; discriminate.
Defined.
