(* ===== verification/Interruption.v ===== *)
(** * Barge-in rules, silence ladder and wrap-up counters

    [realtime/interruption_rules.py], [realtime/interruption_detector.py],
    [realtime/silence_detector.py] and [wrapup/manager.py]: the pure decisions the
    run loop consults.  The regular-expression engine is a parameter
    ([re_compile], [re_search]); [random.choice] is the parameter [choice]. *)

From S2P Require Import Prelude.

(** ** The rule tree *)
Module Rules.

Definition TRAILING_PUNCT : pystr := u8 "。，！？、；,.!?;".

Record RuleInput := mkInput { ri_text : pystr; ri_elapsed_ms : Z }.
Record RuleVerdict := mkVerdict { rv_interrupt : bool; rv_reason : pystr }.

Inductive Rule : Type :=
| KeywordRule (values : list pystr) (match_mode : pystr)
| LengthRule (value : Z)
| DurationRule (value_ms : Z)
| RegexRule (pattern : pystr)
| SplitByDelimiterRule (delimiters : list pystr)
| NoneRule
| AndRule (rules : list Rule)
| OrRule (rules : list Rule)
| NotRule (rule : Rule).

Section Evaluate.
  Context (re_search : pystr -> pystr -> bool).

Definition keyword_hit (values : list pystr) (mode text : pystr) : bool :=
  if decide (mode = u8 "exact") then existsb (fun v => bool_decide (py_strip text = v)) values
  else
    let t := rstrip_by (fun c => char_in c TRAILING_PUNCT) (py_strip text) in
    negb (zlen t =? 0) && existsb (contains t) values.

Fixpoint evaluate (r : Rule) (ctx : RuleInput) : RuleVerdict :=
  match r with
  | KeywordRule values mode => mkVerdict (keyword_hit values mode (ri_text ctx)) (u8 "keyword")
  | LengthRule value => mkVerdict (value <=? zlen (py_strip (ri_text ctx))) (u8 "length")
  | DurationRule value_ms => mkVerdict (value_ms <=? ri_elapsed_ms ctx) (u8 "duration")
  | RegexRule pattern => mkVerdict (re_search pattern (ri_text ctx)) (u8 "regex")
  | SplitByDelimiterRule ds =>
      mkVerdict (existsb (contains (ri_text ctx)) ds) (u8 "split_by_delimiter")
  | NoneRule => mkVerdict false (u8 "none")
  | AndRule rules =>
      (fix go (rs : list Rule) : RuleVerdict :=
         match rs with
         | [] => mkVerdict true (u8 "and")
         | r :: rs' =>
             let v := evaluate r ctx in
             if negb (rv_interrupt v) then mkVerdict false (rv_reason v) else go rs'
         end) rules
  | OrRule rules =>
      (fix go (rs : list Rule) : RuleVerdict :=
         match rs with
         | [] => mkVerdict false (u8 "or")
         | r :: rs' =>
             let v := evaluate r ctx in
             if rv_interrupt v then mkVerdict true (rv_reason v) else go rs'
         end) rules
  | NotRule rule =>
      let v := evaluate rule ctx in
      mkVerdict (negb (rv_interrupt v)) (u8 "not(" ++ rv_reason v ++ u8 ")")
  end.
End Evaluate.

(** *** Building *)

(** [int(v)], [str(v)] and [tuple(v)] on the JSON values a rule may hold. *)
Section Build.
  Context (re_compile : pystr -> bool).        (* whether the pattern compiles *)
  Context (int_of_str : pystr -> option Z) (other_str : pyval -> pystr).

Definition py_int (v : pyval) : result PyErr Z :=
  match v with
  | VInt n => Ok n
  | VBool b => Ok (if b then 1 else 0)
  | VFloat q => Ok (Z.quot (Qnum q) (Zpos (Qden q)))
  | VStr s => match int_of_str s with Some n => Ok n | None => Err ValueError end
  | _ => Err TypeError
  end.

(** The strings of an iterable; a list holding anything else is outside the
    modelled configurations. *)
Definition as_str (v : pyval) : result PyErr pystr :=
  match v with VStr s => Ok s | _ => Err TypeError end.

Definition py_tuple (v : pyval) : result PyErr (list pystr) :=
  match v with
  | VList l => rmap as_str l
  | VStr s => Ok (map (fun c => [c]) s)
  | VDict d => Ok (map (fun kv => u8 kv.1) d)
  | _ => Err TypeError
  end.

(** [config[k]]. *)
Definition item (k : string) (d : list (string * pyval)) : result PyErr pyval :=
  match dget k d with Some v => Ok v | None => Err KeyError end.

Fixpoint build_rule (fuel : nat) (config : pyval) : result PyErr Rule :=
  match fuel with
  | O => Err OtherError                        (* recursion limit *)
  | S n =>
      match config with
      | VNone => Ok NoneRule
      | VDict d =>
          match dget "type" d with
          | None => Err ValueError
          | Some rtype =>
              if val_is rtype "none" then Ok NoneRule
              else if val_is rtype "keyword" then
                let? v := item "values" d in
                let? vs := py_tuple v in
                Ok (KeywordRule vs (match dget "match" d with
                                    | Some m => py_str other_str m
                                    | None => u8 "contains" end))
              else if val_is rtype "length" then
                let? v := item "value" d in let? z := py_int v in Ok (LengthRule z)
              else if val_is rtype "duration" then
                let? v := item "value_ms" d in let? z := py_int v in Ok (DurationRule z)
              else if val_is rtype "regex" then
                let? v := item "pattern" d in
                let p := py_str other_str v in
                if re_compile p then Ok (RegexRule p) else Err OtherError
              else if val_is rtype "split_by_delimiter" then
                let? v := item "delimiters" d in
                let? vs := py_tuple v in Ok (SplitByDelimiterRule vs)
              else if val_is rtype "and" then
                let? v := item "rules" d in
                match v with
                | VList l => let? rs := rmap (build_rule n) l in Ok (AndRule rs)
                | _ => Err TypeError
                end
              else if val_is rtype "or" then
                let? v := item "rules" d in
                match v with
                | VList l => let? rs := rmap (build_rule n) l in Ok (OrRule rs)
                | _ => Err TypeError
                end
              else if val_is rtype "not" then
                let? v := item "rule" d in let? r := build_rule n v in Ok (NotRule r)
              else Err ValueError
          end
      | _ => Err ValueError
      end
  end.
End Build.

Definition default_rule (whitelist : list pystr) (min_text_length min_duration_ms : Z) : Rule :=
  AndRule ((match whitelist with
            | [] => []
            | _ => [NotRule (KeywordRule whitelist (u8 "exact"))]
            end) ++ [LengthRule min_text_length; DurationRule min_duration_ms]).

(** *** What a tree means *)

(** Induction over the tree, with the hypothesis for every branch. *)
Section RuleInd.
  Context (P : Rule -> Prop)
    (HK : forall vs m, P (KeywordRule vs m)) (HL : forall v, P (LengthRule v))
    (HD : forall v, P (DurationRule v)) (HR : forall p, P (RegexRule p))
    (HS : forall ds, P (SplitByDelimiterRule ds)) (HN : P NoneRule)
    (HA : forall rs, Forall P rs -> P (AndRule rs)) (HO : forall rs, Forall P rs -> P (OrRule rs))
    (HNot : forall r, P r -> P (NotRule r)).

Fixpoint rule_ind_nested (r : Rule) : P r :=
  let all := fix all (rs : list Rule) : Forall P rs :=
    match rs with
    | [] => List.Forall_nil P
    | r :: rs' => List.Forall_cons P r rs' (rule_ind_nested r) (all rs')
    end in
  match r with
  | KeywordRule vs m => HK vs m
  | LengthRule v => HL v
  | DurationRule v => HD v
  | RegexRule p => HR p
  | SplitByDelimiterRule ds => HS ds
  | NoneRule => HN
  | AndRule rs => HA rs (all rs)
  | OrRule rs => HO rs (all rs)
  | NotRule r => HNot r (rule_ind_nested r)
  end.
End RuleInd.

(** The boolean reading of a tree. *)
Fixpoint holds (re_search : pystr -> pystr -> bool) (ctx : RuleInput) (r : Rule) : bool :=
  match r with
  | AndRule rs => forallb (holds re_search ctx) rs
  | OrRule rs => existsb (holds re_search ctx) rs
  | NotRule r => negb (holds re_search ctx r)
  | leaf => rv_interrupt (evaluate re_search leaf ctx)
  end.

Fixpoint rule_depth (r : Rule) : nat :=
  S match r with
    | AndRule rs | OrRule rs => list_max (map rule_depth rs)
    | NotRule r => rule_depth r
    | _ => 0
    end.

(** The JSON a tree is stored as. *)
Fixpoint rule_config (r : Rule) : pyval :=
  let typed t fields := VDict (("type"%string, VStr (u8 t)) :: fields) in
  match r with
  | KeywordRule vs m =>
      typed "keyword"%string [("values"%string, VList (map VStr vs)); ("match"%string, VStr m)]
  | LengthRule v => typed "length"%string [("value"%string, VInt v)]
  | DurationRule v => typed "duration"%string [("value_ms"%string, VInt v)]
  | RegexRule p => typed "regex"%string [("pattern"%string, VStr p)]
  | SplitByDelimiterRule ds =>
      typed "split_by_delimiter"%string [("delimiters"%string, VList (map VStr ds))]
  | NoneRule => typed "none"%string []
  | AndRule rs => typed "and"%string [("rules"%string, VList (map rule_config rs))]
  | OrRule rs => typed "or"%string [("rules"%string, VList (map rule_config rs))]
  | NotRule r => typed "not"%string [("rule"%string, rule_config r)]
  end.

(** Every pattern of the tree compiles. *)
Fixpoint patterns_ok (re_compile : pystr -> bool) (r : Rule) : bool :=
  match r with
  | RegexRule p => re_compile p
  | AndRule rs | OrRule rs => forallb (patterns_ok re_compile) rs
  | NotRule r => patterns_ok re_compile r
  | _ => true
  end.

Lemma rmap_as_str l : rmap as_str (map VStr l) = Ok l.
Proof. apply rmap_map. by induction l; constructor. Qed.

Lemma build_branches re_compile int_of_str other n rs :
  Forall (fun r => forall k, (rule_depth r <= k)%nat -> patterns_ok re_compile r = true ->
            build_rule re_compile int_of_str other k (rule_config r) = Ok r) rs ->
  (list_max (map rule_depth rs) <= n)%nat -> forallb (patterns_ok re_compile) rs = true ->
  rmap (build_rule re_compile int_of_str other n) (map rule_config rs) = Ok rs.
Proof.
  intros IH Hn Hp. apply rmap_map. rewrite List.Forall_forall in *. intros r Hr.
  apply IH; [done| |by apply (proj1 (forallb_forall _ _) Hp)].
  apply list_max_le in Hn. rewrite List.Forall_forall in Hn. apply Hn. by apply in_map.
Qed.

(** Every rule tree survives storage: building the JSON a tree is stored as, with
    recursion depth enough for it, yields that tree again, so any barge-in
    policy expressible as a tree can be configured. *)
Theorem build_rule_roundtrip re_compile int_of_str other r n :
  (rule_depth r <= n)%nat -> patterns_ok re_compile r = true ->
  build_rule re_compile int_of_str other n (rule_config r) = Ok r.
Proof.
  revert n. induction r using rule_ind_nested; intros [|n] Hn Hp; simpl in Hn, Hp;
    try (exfalso; lia); try reflexivity.
  - transitivity (rbind (rmap as_str (map VStr vs)) (fun l => Ok (KeywordRule l m)));
      [reflexivity|]. by rewrite rmap_as_str.
  - transitivity (if re_compile p then Ok (RegexRule p) else Err OtherError : result PyErr Rule);
      [reflexivity|]. by rewrite Hp.
  - transitivity (rbind (rmap as_str (map VStr ds)) (fun l => Ok (SplitByDelimiterRule l)));
      [reflexivity|]. by rewrite rmap_as_str.
  - transitivity (rbind (rmap (build_rule re_compile int_of_str other n) (map rule_config rs))
                    (fun l => Ok (AndRule l))); [reflexivity|].
    by rewrite build_branches by (done || lia).
  - transitivity (rbind (rmap (build_rule re_compile int_of_str other n) (map rule_config rs))
                    (fun l => Ok (OrRule l))); [reflexivity|].
    by rewrite build_branches by (done || lia).
  - transitivity (rbind (build_rule re_compile int_of_str other n (rule_config r))
                    (fun x => Ok (NotRule x))); [reflexivity|].
    by rewrite IHr by (done || lia).
Qed.

(** Evaluating a tree with its short-circuits and reasons decides exactly
    the boolean formula the tree writes down, at any nesting. *)
Theorem evaluate_is_boolean re_search r ctx :
  rv_interrupt (evaluate re_search r ctx) = holds re_search ctx r.
Proof.
  induction r as [| | | | | |rs IH|rs IH|r IH] using rule_ind_nested; try reflexivity.
  - simpl. induction IH as [|r rs Hr _ IH]; simpl; [done|]. rewrite <-Hr.
    destruct (rv_interrupt (evaluate re_search r ctx)); simpl; [exact IH|done].
  - simpl. induction IH as [|r rs Hr _ IH]; simpl; [done|]. rewrite <-Hr.
    destruct (rv_interrupt (evaluate re_search r ctx)); simpl; [done|exact IH].
  - simpl. by rewrite IH.
Qed.

(** The synthesized default tree decides as the legacy fixed sequence did: not a
    whitelisted phrase, long enough, and spoken long enough. *)
Theorem default_rule_is_legacy re_search whitelist min_len min_ms ctx :
  rv_interrupt (evaluate re_search (default_rule whitelist min_len min_ms) ctx)
  = negb (bool_decide (py_strip (ri_text ctx) ∈ whitelist))
    && (min_len <=? zlen (py_strip (ri_text ctx))) && (min_ms <=? ri_elapsed_ms ctx).
Proof.
  assert (Hkw : forall vs x, existsb (fun v => bool_decide (x = v)) vs
                             = bool_decide (x ∈ (vs : list pystr))).
  { intros vs x. induction vs as [|v vs IH]; simpl; [done|]. rewrite IH.
    repeat case_bool_decide; simpl; try done; set_solver. }
  unfold default_rule. destruct whitelist as [|w ws].
  - rewrite (bool_decide_eq_false_2 (_ ∈ [])) by (apply not_elem_of_nil). simpl.
    by destruct (min_len <=? _), (min_ms <=? _).
  - cbn -[u8 keyword_hit py_strip]. unfold keyword_hit.
    rewrite decide_True by done. rewrite Hkw.
    by destruct (bool_decide _), (min_len <=? _), (min_ms <=? _).
Qed.

End Rules.

Lemma build_rule_roundtrip_witness :
  let r := Rules.AndRule [Rules.NotRule (Rules.KeywordRule [u8 "嗯"] (u8 "exact"));
                          Rules.LengthRule 2; Rules.RegexRule (u8 "a.b")] in
  Rules.build_rule (fun _ => true) (fun _ => None) (fun _ => []) 4 (Rules.rule_config r) = Ok r.
Proof. apply Rules.build_rule_roundtrip; [vm_compute; lia|reflexivity]. Defined.

(** ** The detector *)
Module Detector.

Record InterruptionConfig := mkIConfig { ic_whitelist : list pystr; ic_rule : Rules.Rule }.

Inductive Verdict : Type := Ignored | Triggered.

#[export] Instance Verdict_eq_dec : EqDecision Verdict.
Proof. solve_decision. Defined.

Record InterruptionVerdict := mkIVerdict { iv_verdict : Verdict; iv_reason : pystr }.

Definition evaluate_partial (re_search : pystr -> pystr -> bool) (text : pystr)
  (speech_started_ts_ms now_ts_ms : Z) (config : InterruptionConfig) : InterruptionVerdict :=
  let elapsed_ms := now_ts_ms - speech_started_ts_ms in
  let verdict := Rules.evaluate re_search (ic_rule config) (Rules.mkInput text elapsed_ms) in
  if Rules.rv_interrupt verdict then mkIVerdict Triggered (Rules.rv_reason verdict)
  else mkIVerdict Ignored (Rules.rv_reason verdict).

End Detector.

(** ** Silence *)
Module Silence.

Record SilenceConfig := mkSilence {
  threshold_ms : Z;
  max_activations : Z;
  phrases : list pystr;
  hangup_phrase : pystr;
  wrap_up_hangup_ms : Z
}.

Inductive Decision : Type := Wait | Activate | Hangup.

#[export] Instance Decision_eq_dec : EqDecision Decision.
Proof. solve_decision. Defined.

Record SilenceDecision := mkSD { sd_decision : Decision; sd_phrase : option pystr }.

(** Zero is falsy, so [x or 0] keeps it. *)
Definition silence_calc_origin_ts (last_user_speech_end_ms last_tts_end_ms : option Z) : Z :=
  match last_user_speech_end_ms, last_tts_end_ms with
  | None, None => 0
  | u, t => Z.max (default 0 u) (default 0 t)
  end.

Definition evaluate_silence (elapsed activations : Z) (config : SilenceConfig) (in_wrap_up : bool)
  : SilenceDecision :=
  if in_wrap_up then
    if wrap_up_hangup_ms config <=? elapsed then mkSD Hangup None else mkSD Wait None
  else if elapsed <? threshold_ms config then mkSD Wait None
  else if max_activations config <=? activations then mkSD Hangup (Some (hangup_phrase config))
  else match phrases config with
  | [] => mkSD Activate (Some [])
  | ps =>
      let idx := Z.min activations (zlen ps - 1) in
      mkSD Activate (Some (nth (Z.to_nat idx) ps []))
  end.

(** The decisions a customer who stays silent meets, one per silence window, the
    counter rising with each activation as the main loop raises it. *)
Fixpoint silent_customer (n : nat) (config : SilenceConfig) (activations : Z)
  : list SilenceDecision :=
  match n with
  | O => []
  | S n' =>
      let d := evaluate_silence (threshold_ms config) activations config false in
      d :: match sd_decision d with
           | Activate => silent_customer n' config (activations + 1)
           | _ => []
           end
  end.

Lemma silent_customer_from config k n :
  0 <= max_activations config - Z.of_nat k ->
  (k < n)%nat ->
  silent_customer n config (max_activations config - Z.of_nat k)
  = map (fun i => mkSD Activate
           (Some (nth (Z.to_nat (Z.min (Z.of_nat i) (zlen (phrases config) - 1))) (phrases config) [])))
        (seq (Z.to_nat (max_activations config - Z.of_nat k)) k)
    ++ [mkSD Hangup (Some (hangup_phrase config))].
Proof.
  revert n. induction k as [|k IH]; intros [|n] Hk Hn; try lia; simpl;
    unfold evaluate_silence; rewrite Z.ltb_irrefl.
  - rewrite Z.sub_0_r. by rewrite (proj2 (Z.leb_le _ _)) by lia.
  - rewrite (proj2 (Z.leb_gt _ _)) by lia.
    replace (max_activations config - Z.of_nat (S k) + 1) with (max_activations config - Z.of_nat k) by lia.
    rewrite IH by lia.
    replace (Z.to_nat (max_activations config - Z.of_nat k))
      with (S (Z.to_nat (max_activations config - Z.of_nat (S k)))) by lia.
    rewrite (Z2Nat.id (max_activations config - Z.of_nat (S k))) by lia.
    destruct (phrases config) as [|p ps]; simpl; [|done].
    f_equal. by destruct (Z.to_nat (Z.min _ _)).
Qed.

(** A customer who never answers is prompted exactly [max_activations] times, with
    the configured phrases in order and the last one reused, and is then hung up
    on with the hangup phrase; in wrap-up they are never prompted again. *)
Theorem silence_ladder config n elapsed activations :
  0 <= max_activations config -> max_activations config < Z.of_nat n ->
  silent_customer n config 0
  = map (fun i => mkSD Activate
           (Some (nth (Z.to_nat (Z.min (Z.of_nat i) (zlen (phrases config) - 1))) (phrases config) [])))
        (seq 0 (Z.to_nat (max_activations config)))
    ++ [mkSD Hangup (Some (hangup_phrase config))]
  /\ sd_decision (evaluate_silence elapsed activations config true) <> Activate.
Proof.
  intros H0 Hn. split.
  - pose proof (silent_customer_from config (Z.to_nat (max_activations config)) n) as H.
    rewrite Z2Nat.id, Z.sub_diag in H by lia. apply H; lia.
  - unfold evaluate_silence. by destruct (_ <=? _).
Qed.

Lemma silence_ladder_witness :
  let c := mkSilence 5000 3 [u8 "喂"; u8 "在吗"] (u8 "再见") 6000 in
  silent_customer 9 c 0
  = [mkSD Activate (Some (u8 "喂")); mkSD Activate (Some (u8 "在吗"));
     mkSD Activate (Some (u8 "在吗")); mkSD Hangup (Some (u8 "再见"))].
Proof.
  destruct (silence_ladder (mkSilence 5000 3 [u8 "喂"; u8 "在吗"] (u8 "再见") 6000) 9 0 0)
    as [H _]; [simpl; lia|simpl; lia|]. exact H.
Defined.
End Silence.

(** ** Wrap-up counters *)
Module WrapUp.

Record WrapUpConfig := mkWrapUp {
  max_rounds : Z;
  max_seconds : Z;
  closing_phrases : list pystr;
  referee_enabled : bool
}.

Inductive Reason : Type := MaxRounds | MaxSeconds | OkReason.

Record WrapUpDecision := mkWD { proceed : bool; closing_phrase : pystr; reason : Reason }.

(** [random.choice] is the parameter [choice]. *)
Definition pick_phrase (choice : list pystr -> pystr) (config : WrapUpConfig) : pystr :=
  match closing_phrases config with [] => u8 "好的，再见。" | l => choice l end.

(** Times in microseconds. *)
Definition evaluate_wrap_up (choice : list pystr -> pystr) (rounds_so_far : Z)
  (started_at now : option Z) (clock : Z) (config : WrapUpConfig) : WrapUpDecision :=
  if max_rounds config <=? rounds_so_far then
    mkWD false (pick_phrase choice config) MaxRounds
  else match started_at with
  | Some t =>
      let n := match now with Some n => n | None => clock end in
      if max_seconds config * 1000000 <=? n - t then
        mkWD false (pick_phrase choice config) MaxSeconds
      else mkWD true [] OkReason
  | None => mkWD true [] OkReason
  end.

End WrapUp.
