(* ===== verification/Managers.v ===== *)
(** * Filler and hand-off managers

    [realtime/filler_manager.py] and [transfer/manager.py].  [random.choice] is an
    index [rnd] reduced into the list it chooses from, so a theorem for every
    [rnd] holds for every choice; the model, [json.loads] and number formatting
    are parameters. *)

From stdpp Require Import pretty.
From S2P Require Import Prelude Session Referee.

(** [random.choice(l)] for a nonempty list. *)
Definition choose {A} (rnd : nat) (l : list A) : option A := l !! (rnd mod length l)%nat.

Lemma choose_elem {A} rnd (l : list A) x : choose rnd l = Some x -> x ∈ l.
Proof. unfold choose. apply list_elem_of_lookup_2. Qed.

Lemma choose_some {A} rnd (l : list A) : l <> [] -> exists x, choose rnd l = Some x.
Proof.
  intros Hne. unfold choose. apply lookup_lt_is_Some_2.
  apply Nat.mod_upper_bound. by destruct l.
Qed.

(** ** Filler *)
Module Filler.

(** [_task] and [_stopped]; the text is the phrase being played. *)
Inductive Task : Type := NoTask | Playing (phrase : pystr) | TaskDone.

Record Filler := mkFiller { f_phrases : list pystr; f_task : Task; f_stopped : bool }.

#[export] Instance Filler_eta : Eta Filler := fun f =>
  mkFiller (f_phrases f) (f_task f) (f_stopped f).

Definition ready (phrases : list pystr) : list pystr :=
  List.filter (fun p => negb (zlen (py_strip p) =? 0)) phrases.

Definition unused (used rdy : list pystr) : list pystr :=
  List.filter (fun p => negb (bool_decide (p ∈ used))) rdy.

(** The pick and the [used] set it leaves. *)
Definition pick_phrase (rnd : nat) (phrases used : list pystr) : option pystr * list pystr :=
  let rdy := ready phrases in
  match rdy with
  | [] => (None, used)
  | _ =>
      let '(used1, un) := match unused used rdy with
                          | [] => ([], rdy)
                          | un => (used, un)
                          end in
      match choose rnd un with
      | Some p => (Some p, p :: used1)
      | None => (None, used1)
      end
  end.

Definition start (rnd : nat) (f : Filler) (s : CallSession) : Filler * CallSession :=
  match f_task f with
  | Playing _ => (f, s)
  | _ =>
      let '(p, used) := pick_phrase rnd (f_phrases f) (used_filler_phrases s) in
      let s' := s <| used_filler_phrases := used |> in
      match p with
      | None => (f, s')
      | Some phrase => (f <| f_stopped := false |> <| f_task := Playing phrase |>, s')
      end
  end.

Definition stop (f : Filler) : Filler := f <| f_stopped := true |> <| f_task := NoTask |>.

(** How the audio stream of a phrase ended. *)
Inductive Played : Type := Completed | Failed | Interrupted.

(** [_play]: what a finished playback records. *)
Definition play valid strict other (now : Z) (phrase : pystr) (how : Played) (f : Filler)
  (s : CallSession) : result AppendError CallSession :=
  match how with
  | Interrupted | Failed => Ok s
  | Completed =>
      let duration_ms := Z.max 50 (zlen phrase * 20) in
      if f_stopped f then Ok s
      else append_event valid strict other now "filler"
             [("text"%string, VStr phrase); ("duration_ms"%string, VInt duration_ms)] s
  end.

(** A run of picks with the given choices. *)
Fixpoint picks (rnds : list nat) (phrases used : list pystr) : list (option pystr) :=
  match rnds with
  | [] => []
  | r :: rnds' =>
      let '(p, used') := pick_phrase r phrases used in p :: picks rnds' phrases used'
  end.

Lemma unused_elem used rdy p : p ∈ unused used rdy <-> p ∈ rdy /\ p ∉ used.
Proof.
  unfold unused. rewrite !list_elem_of_In, List.filter_In, negb_true_iff, bool_decide_eq_false.
  by rewrite list_elem_of_In.
Qed.

(** While some ready phrase is unused, the pick is a fresh one. *)
Lemma pick_fresh rnd phrases used :
  unused used (ready phrases) <> [] ->
  exists p, pick_phrase rnd phrases used = (Some p, p :: used)
            /\ p ∈ ready phrases /\ p ∉ used.
Proof.
  intros Hne. unfold pick_phrase.
  destruct (ready phrases) as [|r0 rs] eqn:Hr; [done|].
  destruct (unused used (r0 :: rs)) as [|u us] eqn:Hu; [done|].
  destruct (choose_some rnd (u :: us)) as (p & Hp); [done|]. rewrite Hp. exists p.
  split; [done|]. apply unused_elem. rewrite Hu. by eapply choose_elem.
Qed.

Lemma unused_nonempty used rdy :
  NoDup used -> used ⊆ rdy -> (length used < length (remove_dups rdy))%nat ->
  unused used rdy <> [].
Proof.
  intros Hnd Hsub Hlt Hnil. apply (Nat.lt_irrefl (length used)).
  eapply Nat.lt_le_trans; [exact Hlt|]. apply submseteq_length, NoDup_submseteq.
  - apply NoDup_remove_dups.
  - intros p Hp. rewrite elem_of_remove_dups in Hp. destruct (decide (p ∈ used)) as [|Hn]; [done|].
    assert (Hin : p ∈ unused used rdy) by (by apply unused_elem). rewrite Hnil in Hin.
    by apply not_elem_of_nil in Hin.
Qed.

(** Whatever [random.choice] picks, a call never repeats a filler phrase until every
    distinct phrase of the pool has been played: the first picks, one per
    distinct phrase, are all different, all from the pool and never missing. *)
Theorem fillers_do_not_repeat phrases rnds :
  (length rnds <= length (remove_dups (ready phrases)))%nat ->
  exists ps, picks rnds phrases [] = map Some ps /\ NoDup ps /\ ps ⊆ ready phrases.
Proof.
  intros Hlen.
  assert (Hgen : forall used, NoDup used -> used ⊆ ready phrases ->
    (length rnds + length used <= length (remove_dups (ready phrases)))%nat ->
    exists ps, picks rnds phrases used = map Some ps /\ NoDup ps /\ ps ⊆ ready phrases
               /\ (forall p, p ∈ ps -> p ∉ used)).
  { clear Hlen. induction rnds as [|r rnds IH]; intros used Hnd Hsub Hl; simpl in *.
    - exists []. split_and!; [done|constructor|set_solver|set_solver].
    - destruct (pick_fresh r phrases used) as (p & Hp & Hin & Hnot).
      { apply unused_nonempty; [done|done|lia]. }
      rewrite Hp. destruct (IH (p :: used)) as (ps & Hps & Hnd' & Hsub' & Hdis);
        [by constructor|set_solver|simpl; lia|].
      exists (p :: ps). rewrite Hps. split_and!; [done| |set_solver|set_solver].
      constructor; [|done]. intros Hbad%Hdis. set_solver. }
  destruct (Hgen []) as (ps & ? & ? & ? & _); [constructor|set_solver|simpl; lia|].
  by exists ps.
Qed.

Lemma fillers_do_not_repeat_witness :
  exists ps, picks [5; 9]%nat [u8 "嗯"; u8 " "; u8 "好的"] [] = map Some ps /\ NoDup ps.
Proof.
  destruct (fillers_do_not_repeat [u8 "嗯"; u8 " "; u8 "好的"] [5; 9]%nat) as (ps & H1 & H2 & _);
    [vm_compute; lia|]. by exists ps.
Defined.

End Filler.

(** ** Transfer *)
Module Transfer.

Record TransferConfig := mkTransfer {
  keyword_enabled : bool;
  keywords : list pystr;
  intent_enabled : bool;
  intent_threshold : option Q;
  intent_system_prompt : pystr;
  round_enabled : bool;
  round_threshold : option Z;
  llm_enabled : bool;
  llm_system_prompt : pystr;
  phrases : list pystr
}.

Inductive Trigger : Type := TKeyword | TIntent | TRound | TLlm.

Record TransferDecision := mkTD {
  triggered : bool;
  trigger_type : option Trigger;
  trigger_detail : pystr;
  phrase : pystr
}.

Definition no_transfer : TransferDecision := mkTD false None [] [].

Definition hit (rnd : nat) (t : Trigger) (detail : pystr) (config : TransferConfig)
  : TransferDecision :=
  mkTD true (Some t) detail (default [] (choose rnd (phrases config))).

Definition keyword_hit (user_text kw : pystr) : bool :=
  negb (zlen kw =? 0) && contains user_text kw.

Definition evaluate_transfer_cheap (rnd : nat) (user_text : pystr) (turn_count : Z)
  (goal_achieved : bool) (config : TransferConfig) : TransferDecision :=
  match (if keyword_enabled config then List.find (keyword_hit user_text) (keywords config)
         else None) with
  | Some kw => hit rnd TKeyword kw config
  | None =>
      if round_enabled config
         && match round_threshold config with Some t => t <=? turn_count | None => false end
         && negb goal_achieved
      then hit rnd TRound (u8 "turn_count=" ++ u8 (pretty turn_count)) config
      else no_transfer
  end.

Section Llm.
  (** The provider's answer in JSON mode: [None] is an exception or a timeout;
      the content itself may be absent. *)
  Context (chat : list Message -> option (option pystr)).
  (** [json.loads]: [None] is a [ValueError]. *)
  Context (json_loads : pystr -> option pyval).
  Context (fmt2 : Q -> pystr).

(** [float(prob) if isinstance(prob, int | float) else None]. *)
Definition as_float (v : pyval) : option Q :=
  match v with
  | VInt n => Some (inject_Z n)
  | VBool b => Some (inject_Z (if b then 1 else 0))
  | VFloat q => Some q
  | _ => None
  end.

Definition loads (content : option pystr) : option pyval :=
  match content with Some s => json_loads s | None => None end.

Definition call_intent (user_text system_prompt : pystr) : result PyErr (option Q) :=
  match chat [mkMessage "system" (u8 "[transfer_intent] " ++ system_prompt);
              mkMessage "user" user_text] with
  | None => Ok None
  | Some content =>
      match loads content with
      | None => Ok None
      | Some parsed => let? prob := val_get "probability" parsed in Ok (as_float prob)
      end
  end.

Definition call_independent_llm (user_text system_prompt : pystr) : result PyErr bool :=
  match chat [mkMessage "system" (u8 "[transfer_llm] " ++ system_prompt);
              mkMessage "user" user_text] with
  | None => Ok false
  | Some content =>
      match loads content with
      | None => Ok false
      | Some parsed => let? flag := val_get "transfer" parsed in Ok (truthy flag)
      end
  end.

Definition evaluate_transfer_llm (rnd : nat) (user_text : pystr) (config : TransferConfig)
  : result PyErr TransferDecision :=
  let? by_intent :=
    match intent_enabled config, intent_threshold config with
    | true, Some threshold =>
        let? prob := call_intent user_text (intent_system_prompt config) in
        Ok (match prob with
            | Some p => if Qle_bool threshold p
                        then Some (hit rnd TIntent (u8 "probability=" ++ fmt2 p) config)
                        else None
            | None => None
            end)
    | _, _ => Ok None
    end in
  match by_intent with
  | Some d => Ok d
  | None =>
      if llm_enabled config then
        let? flag := call_independent_llm user_text (llm_system_prompt config) in
        Ok (if (flag : bool) then hit rnd TLlm (u8 "transfer=true") config else no_transfer)
      else Ok no_transfer
  end.

Definition evaluate_transfer (rnd : nat) (user_text : pystr) (turn_count : Z)
  (goal_achieved : bool) (config : TransferConfig) : result PyErr TransferDecision :=
  let cheap := evaluate_transfer_cheap rnd user_text turn_count goal_achieved config in
  if triggered cheap then Ok cheap else evaluate_transfer_llm rnd user_text config.
End Llm.

(** *** The four triggers *)

Definition keyword_trigger (user_text : pystr) (c : TransferConfig) : bool :=
  keyword_enabled c && existsb (keyword_hit user_text) (keywords c).

Definition round_trigger (turn_count : Z) (goal_achieved : bool) (c : TransferConfig) : bool :=
  round_enabled c
  && match round_threshold c with Some t => t <=? turn_count | None => false end
  && negb goal_achieved.

Definition intent_trigger chat json_loads (user_text : pystr) (c : TransferConfig) : bool :=
  match intent_enabled c, intent_threshold c,
        call_intent chat json_loads user_text (intent_system_prompt c) with
  | true, Some t, Ok (Some p) => Qle_bool t p
  | _, _, _ => false
  end.

Definition llm_trigger chat json_loads (user_text : pystr) (c : TransferConfig) : bool :=
  llm_enabled c
  && match call_independent_llm chat json_loads user_text (llm_system_prompt c) with
     | Ok b => b | Err _ => false
     end.

(** The first trigger that holds, in the documented order. *)
Definition first_trigger chat json_loads user_text turn_count goal_achieved (c : TransferConfig)
  : option Trigger :=
  if keyword_trigger user_text c then Some TKeyword
  else if round_trigger turn_count goal_achieved c then Some TRound
  else if intent_trigger chat json_loads user_text c then Some TIntent
  else if llm_trigger chat json_loads user_text c then Some TLlm
  else None.

Lemma find_existsb {A} (f : A -> bool) l :
  existsb f l = match List.find f l with Some _ => true | None => false end.
Proof. induction l as [|x l IH]; simpl; [done|]. by destruct (f x). Qed.

Lemma cheap_spec rnd user_text turn_count goal c :
  let d := evaluate_transfer_cheap rnd user_text turn_count goal c in
  triggered d = keyword_trigger user_text c || round_trigger turn_count goal c
  /\ (triggered d = true ->
      trigger_type d = Some (if keyword_trigger user_text c then TKeyword else TRound)).
Proof.
  unfold evaluate_transfer_cheap, keyword_trigger. rewrite find_existsb.
  fold (round_trigger turn_count goal c).
  destruct (keyword_enabled c), (List.find _ _); simpl; try done;
    destruct (round_trigger turn_count goal c); done.
Qed.

Section Objects.
  Context (chat : list Message -> option (option pystr)) (json_loads : pystr -> option pyval).
  Context (fmt2 : Q -> pystr).
  (** The model answers JSON mode with an object, as its prompt asks. *)
  Hypothesis answers_object : forall s v, json_loads s = Some v -> exists d, v = VDict d.

Lemma call_intent_ok user_text prompt :
  exists p, call_intent chat json_loads user_text prompt = Ok p.
Proof.
  unfold call_intent. destruct (chat _) as [[s|]|]; simpl; eauto.
  destruct (json_loads s) eqn:Hj; [|eauto]. apply answers_object in Hj as (d & ->). simpl. eauto.
Qed.

Lemma call_independent_llm_ok user_text prompt :
  exists b, call_independent_llm chat json_loads user_text prompt = Ok b.
Proof.
  unfold call_independent_llm. destruct (chat _) as [[s|]|]; simpl; eauto.
  destruct (json_loads s) eqn:Hj; [|eauto]. apply answers_object in Hj as (d & ->). simpl. eauto.
Qed.

(** The hand-off evaluation always answers when the model replies with JSON objects
    (or fails), and it reports exactly the first of the four triggers that
    holds: keyword, round, intent, independent model. *)
Theorem transfer_first_trigger_wins rnd user_text turn_count goal c :
  exists d, evaluate_transfer chat json_loads fmt2 rnd user_text turn_count goal c = Ok d
    /\ trigger_type d = first_trigger chat json_loads user_text turn_count goal c
    /\ triggered d = match trigger_type d with Some _ => true | None => false end.
Proof.
  unfold evaluate_transfer, first_trigger.
  destruct (cheap_spec rnd user_text turn_count goal c) as [Ht Hty].
  destruct (triggered (evaluate_transfer_cheap rnd user_text turn_count goal c)) eqn:Hc.
  - eexists. split; [done|]. rewrite (Hty eq_refl), Hc. symmetry in Ht.
    destruct (keyword_trigger user_text c); simpl in *; [done|]. by rewrite Ht.
  - symmetry in Ht. apply orb_false_iff in Ht as [-> ->].
    unfold evaluate_transfer_llm, intent_trigger, llm_trigger.
    destruct (call_intent_ok user_text (intent_system_prompt c)) as (p & ->).
    destruct (call_independent_llm_ok user_text (llm_system_prompt c)) as (b & ->).
    destruct (intent_enabled c), (intent_threshold c) as [t|], p as [p|]; simpl;
      try destruct (Qle_bool t p); simpl; eauto;
      destruct (llm_enabled c), b; simpl; eauto.
Qed.
End Objects.

Lemma transfer_first_trigger_wins_witness :
  let c := mkTransfer true [u8 "人工"] true (Some (1#2)) [] false None false [] [u8 "转接"] in
  exists d, evaluate_transfer (fun _ => Some (Some (u8 "{}")))
              (fun _ => Some (VDict [("probability"%string, VFloat (9#10))])) (fun _ => u8 "0.90")
              0 (u8 "你好") 3 false c = Ok d
    /\ trigger_type d = Some TIntent.
Proof.
  destruct (transfer_first_trigger_wins (fun _ => Some (Some (u8 "{}")))
              (fun _ => Some (VDict [("probability"%string, VFloat (9#10))])) (fun _ => u8 "0.90")
              ltac:(intros s v [= <-]; eauto) 0 (u8 "你好") 3 false
              (mkTransfer true [u8 "人工"] true (Some (1#2)) [] false None false [] [u8 "转接"]))
    as (d & Hd & Ht & _). exists d. split; [exact Hd|]. rewrite Ht. reflexivity.
Defined.

(** A JSON reply that is not an object escapes the handlers' [try]. *)
Lemma non_object_reply_raises chat fmt2 rnd c :
  chat [mkMessage "system" (u8 "[transfer_llm] " ++ llm_system_prompt c); mkMessage "user" []]
  = Some (Some (u8 "true")) ->
  intent_enabled c = false -> llm_enabled c = true ->
  evaluate_transfer_llm chat (fun _ => Some (VBool true)) fmt2 rnd [] c = Err AttributeError.
Proof.
  intros Hchat Hi Hl. unfold evaluate_transfer_llm. rewrite Hi, Hl. simpl.
  unfold call_independent_llm. by rewrite Hchat.
Qed.

End Transfer.
