(* ===== verification/Audio.v ===== *)
(** * Audio arithmetic and the background bed

    [realtime/ambient.py]: saturating 16-bit mixing, the barge-in fade, the
    seam crossfade and the per-call reader of a looped background.  Python's
    floating-point gains are rationals, so a product is exact before [int()]
    truncates it.  [wave.open] and [audioop] are parameters of the loader. *)

From S2P Require Import Prelude Bytes.

Definition SEND_RATE : Z := 16000.
Definition SAMPLE_BYTES : Z := 2.
Definition FRAME_SAMPLES : Z := SEND_RATE / 100.
Definition FRAME_BYTES : Z := FRAME_SAMPLES * 1 * SAMPLE_BYTES.
Definition SILENCE_FRAME : bytes := zeros FRAME_BYTES.
Definition CROSSFADE_SAMPLES : Z := SEND_RATE / 50.

(** [int(q)]: truncation toward zero. *)
Definition qtrunc (q : Q) : Z := Z.quot (Qnum q) (Zpos (Qden q)).

Definition qltb (a b : Q) : bool := negb (Qle_bool b a).

Definition clip16 (v : Q) : Z :=
  qtrunc (if qltb v (inject_Z (-32768)) then inject_Z (-32768)
          else if qltb (inject_Z 32767) v then inject_Z 32767 else v).

(** ** Mixing *)

Definition mix_sample (gain : Q) (t b : Z) : Z :=
  let s := (inject_Z t + inject_Z b * gain)%Q in
  if qltb (inject_Z 32767) s || qltb s (inject_Z (-32768)) then clip16 s else qtrunc s.

Fixpoint mix_samples (gain : Q) (st sb : list Z) : list Z :=
  match st, sb with
  | t :: st', b :: sb' => mix_sample gain t b :: mix_samples gain st' sb'
  | st, _ => st
  end.

(** [None] is the [ValueError] of an odd byte count. *)
Definition mix_frame (tts bg : bytes) (gain : Q) : option bytes :=
  if Qle_bool gain 0 || (zlen bg =? 0) then Some tts
  else match samples_of_bytes tts, samples_of_bytes bg with
  | Some st, Some sb => Some (bytes_of_samples (mix_samples gain st sb))
  | _, _ => None
  end.

(** ** Fading *)

Definition fade_sample (total idx s : Z) : Z :=
  clip16 (inject_Z s * (1 - inject_Z idx / inject_Z (total - 1)))%Q.

Fixpoint fade_samples (total idx : Z) (l : list Z) : list Z :=
  match l with
  | [] => []
  | s :: l' => fade_sample total idx s :: fade_samples total (idx + 1) l'
  end.

Fixpoint fade_frames (total idx : Z) (frames : list bytes) : option (list bytes) :=
  match frames with
  | [] => Some []
  | f :: frames' =>
      match samples_of_bytes f with
      | None => None
      | Some sa =>
          match fade_frames total (idx + zlen sa) frames' with
          | None => None
          | Some out => Some (bytes_of_samples (fade_samples total idx sa) :: out)
          end
      end
  end.

Definition total_samples (frames : list bytes) : Z :=
  fold_right (fun f acc => zlen f / SAMPLE_BYTES + acc) 0 frames.

Definition apply_fadeout (frames : list bytes) : option (list bytes) :=
  let total := total_samples frames in
  if total <=? 1 then Some frames else fade_frames total 0 frames.

(** ** The seamless loop *)

Fixpoint crossfade_samples (n i : Z) (sa sb : list Z) : list Z :=
  match sa, sb with
  | a :: sa', b :: sb' =>
      let t := (inject_Z (i + 1) / inject_Z (n + 1))%Q in
      clip16 (inject_Z a * (1 - t) + inject_Z b * t)%Q :: crossfade_samples n (i + 1) sa' sb'
  | _, _ => []
  end.

Definition linear_crossfade (a b : bytes) : option bytes :=
  match samples_of_bytes a, samples_of_bytes b with
  | Some sa, Some sb =>
      Some (bytes_of_samples (crossfade_samples (Z.min (zlen sa) (zlen sb)) 0 sa sb))
  | _, _ => None
  end.

Definition whole_frames (pcm : bytes) : bytes := slice 0 ((zlen pcm / FRAME_BYTES) * FRAME_BYTES) pcm.

Definition make_seamless (pcm : bytes) : option bytes :=
  let pcm := whole_frames pcm in
  let cf_bytes := CROSSFADE_SAMPLES * SAMPLE_BYTES in
  if zlen pcm <=? 2 * cf_bytes then Some pcm
  else
    let head := slice 0 cf_bytes pcm in
    let tail := slice (zlen pcm - cf_bytes) (zlen pcm) pcm in
    let body := slice cf_bytes (zlen pcm - cf_bytes) pcm in
    match linear_crossfade tail head with
    | None => None
    | Some seam => Some (whole_frames (body ++ seam))
    end.

Record AmbientLoop := mkLoop { loop_pcm : bytes; loop_name : pystr }.

Definition loop_bool (l : AmbientLoop) : bool := FRAME_BYTES <=? zlen (loop_pcm l).

Record AmbientReader := mkReader { rd_pcm : bytes; rd_pos : Z }.

Definition reader (l : AmbientLoop) : AmbientReader := mkReader (loop_pcm l) 0.

Definition next_frame (r : AmbientReader) : bytes * AmbientReader :=
  let n := zlen (rd_pcm r) in
  if n <? FRAME_BYTES then (SILENCE_FRAME, r)
  else
    let start := rd_pos r in
    let end_ := start + FRAME_BYTES in
    let '(start, end_) := if n <? end_ then (0, FRAME_BYTES) else (start, end_) in
    (slice start end_ (rd_pcm r), mkReader (rd_pcm r) (if end_ <? n then end_ else 0)).

(** ** Loading *)

Record Wave := mkWave { wv_channels : Z; wv_width : Z; wv_rate : Z; wv_pcm : bytes }.

Section Load.
  Context (wave_open : pystr -> option Wave).      (* [None]: [OSError] or [wave.Error] *)
  (** [audioop]: absent, or its three conversions. *)
  Context (audioop : option ((bytes -> Z -> bytes) * (bytes -> bytes) * (bytes -> Z -> bytes))).

Definition load (name : pystr) : option AmbientLoop :=
  if char_in 47 name || char_in 92 name || bool_decide (name = u8 ".")
     || bool_decide (name = u8 "..") then None
  else match wave_open name with
  | None => None
  | Some w =>
      if zlen (wv_pcm w) =? 0 then None
      else
        let pcm :=
          if negb (wv_width w =? SAMPLE_BYTES) || (1 <? wv_channels w)
             || negb (wv_rate w =? SEND_RATE) then
            match audioop with
            | None => None
            | Some (lin2lin, tomono, ratecv) =>
                let p := wv_pcm w in
                let p := if wv_width w =? SAMPLE_BYTES then p else lin2lin p (wv_width w) in
                let p := if 1 <? wv_channels w then tomono p else p in
                Some (if wv_rate w =? SEND_RATE then p else ratecv p (wv_rate w))
            end
          else Some (wv_pcm w) in
        match pcm with
        | None => None
        | Some pcm =>
            match make_seamless pcm with
            | None => None
            | Some s => let loop := mkLoop s name in if loop_bool loop then Some loop else None
            end
        end
  end.

(** The process-wide cache, failures included. *)
Abbreviation loop_cache := (list (pystr * option AmbientLoop)).

Fixpoint cache_find (name : pystr) (c : loop_cache) : option (option AmbientLoop) :=
  match c with
  | [] => None
  | (k, v) :: c' => if decide (k = name) then Some v else cache_find name c'
  end.

Definition get_ambient_loop (name : option pystr) (c : loop_cache)
  : option AmbientLoop * loop_cache :=
  match name with
  | None | Some [] => (None, c)
  | Some n =>
      match cache_find n c with
      | Some v => (v, c)
      | None => let loop := load n in (loop, c ++ [(n, loop)])
      end
  end.
End Load.

(** ** Lemmas on truncation *)

#[export] Instance qtrunc_proper : Proper (Qeq ==> eq) qtrunc.
Proof.
  intros [a b] [c d] H. unfold Qeq, qtrunc in *. simpl in *.
  rewrite <-(Z.quot_mul_cancel_r a (Zpos b) (Zpos d)) by lia.
  rewrite <-(Z.quot_mul_cancel_r c (Zpos d) (Zpos b)) by lia.
  rewrite H. f_equal. lia.
Qed.

Lemma qtrunc_inject z : qtrunc (inject_Z z) = z.
Proof. unfold qtrunc. simpl. apply Z.quot_1_r. Qed.

(** Truncation stays between integer bounds. *)
Lemma qtrunc_between q a b :
  (inject_Z a <= q)%Q -> (q <= inject_Z b)%Q -> a <= qtrunc q <= b.
Proof.
  destruct q as [n d]. unfold Qle, qtrunc. simpl. rewrite !Z.mul_1_r. intros Ha Hb.
  pose proof (Z.quot_rem' n (Zpos d)) as Hqr.
  pose proof (Z.rem_bound_abs n (Zpos d) ltac:(lia)) as Hr.
  split; nia.
Qed.

Lemma qltb_false a b : qltb a b = false <-> (b <= a)%Q.
Proof. unfold qltb. rewrite negb_false_iff. apply Qle_bool_iff. Qed.

(** Saturation: the result always fits a sample, and inside the range it is
    the truncated value. *)
Lemma clip16_sample v : is_sample (clip16 v).
Proof.
  unfold clip16, is_sample. destruct (qltb v _) eqn:H1; [rewrite qtrunc_inject; lia|].
  destruct (qltb _ v) eqn:H2; [rewrite qtrunc_inject; lia|].
  rewrite qltb_false in *. by apply qtrunc_between.
Qed.

Lemma clip16_inside v :
  (inject_Z (-32768) <= v)%Q -> (v <= inject_Z 32767)%Q -> clip16 v = qtrunc v.
Proof.
  intros H1 H2. unfold clip16. rewrite <-qltb_false in H1, H2. by rewrite H1, H2.
Qed.

Lemma mix_sample_sample gain t b : is_sample (mix_sample gain t b).
Proof.
  unfold mix_sample. destruct (_ || _) eqn:H; [apply clip16_sample|].
  apply orb_false_iff in H as [H1 H2]. rewrite qltb_false in *. by apply qtrunc_between.
Qed.

(** The fade factor in integers. *)
Lemma fade_sample_eq total idx s :
  2 <= total -> 0 <= idx <= total - 1 -> is_sample s ->
  fade_sample total idx s = Z.quot (s * (total - 1 - idx)) (total - 1).
Proof.
  intros Ht Hi Hs. unfold fade_sample.
  set (d := Z.to_pos (total - 1)). assert (Hd : Zpos d = total - 1) by (unfold d; lia).
  assert (Heq : (inject_Z s * (1 - inject_Z idx / inject_Z (total - 1))
                 == (s * (total - 1 - idx)) # d)%Q).
  { rewrite <-Hd. unfold Qeq, Qdiv, Qinv, Qminus, Qplus, Qmult, Qopp, inject_Z. simpl. nia. }
  unfold is_sample in Hs.
  assert (Hlo : (inject_Z (-32768) <= inject_Z s * (1 - inject_Z idx / inject_Z (total - 1)))%Q).
  { rewrite Heq. unfold Qle. simpl. rewrite Z.mul_1_r, Hd. nia. }
  assert (Hhi : (inject_Z s * (1 - inject_Z idx / inject_Z (total - 1)) <= inject_Z 32767)%Q).
  { rewrite Heq. unfold Qle. simpl. rewrite Z.mul_1_r, Hd. nia. }
  rewrite clip16_inside by done. rewrite Heq. unfold qtrunc. simpl. by rewrite Hd.
Qed.

(** A faded sample is no louder than the sample. *)
Lemma fade_sample_quieter total idx s :
  2 <= total -> 0 <= idx <= total - 1 -> is_sample s ->
  Z.abs (fade_sample total idx s) <= Z.abs s.
Proof.
  intros Ht Hi Hs. rewrite fade_sample_eq by done.
  rewrite <-Z.quot_abs by lia. rewrite Z.abs_mul, (Z.abs_eq (total - 1)), (Z.abs_eq (total - 1 - idx)) by lia.
  rewrite Z.quot_div_nonneg by nia. apply Z.div_le_upper_bound; nia.
Qed.

Lemma fade_samples_length total idx l : length (fade_samples total idx l) = length l.
Proof. revert idx. induction l; intros; simpl; auto. Qed.

Lemma fade_samples_app total idx l k :
  fade_samples total idx (l ++ k)
  = fade_samples total idx l ++ fade_samples total (idx + zlen l) k.
Proof.
  revert idx. induction l as [|s l IH]; intros idx; simpl.
  - unfold zlen. simpl. by rewrite Z.add_0_r.
  - rewrite IH, zlen_cons. by rewrite Z.add_assoc.
Qed.

Lemma fade_samples_bounded total idx l : Forall is_sample (fade_samples total idx l).
Proof. revert idx. induction l; intros; simpl; constructor; auto. apply clip16_sample. Qed.

(** ** Frames *)

(** A frame of whole samples. *)
Definition frame_ok (f : bytes) : Prop := Forall is_byte f /\ Z.even (zlen f) = true.

Lemma samples_app l k s t :
  samples_of_bytes l = Some s -> samples_of_bytes k = Some t ->
  samples_of_bytes (l ++ k) = Some (s ++ t).
Proof.
  revert s. induction l as [l IH] using (induction_ltof1 _ (@length Z)); intros s.
  destruct l as [|a [|b l]]; simpl; [by intros [= <-]|done|].
  destruct (samples_of_bytes l) as [r|] eqn:Hr; [|done]. intros [= <-] Hk.
  by rewrite (IH l ltac:(unfold ltof; simpl; lia) r Hr Hk).
Qed.

Lemma fade_frames_spec total frames idx :
  Forall frame_ok frames ->
  exists out ss, fade_frames total idx frames = Some out
    /\ Forall2 (fun f o => zlen o = zlen f) frames out
    /\ samples_of_bytes (concat frames) = Some ss /\ Forall is_sample ss
    /\ zlen ss = total_samples frames
    /\ samples_of_bytes (concat out) = Some (fade_samples total idx ss).
Proof.
  intros Hf. revert idx. induction Hf as [|f frames [Hb He] _ IH]; intros idx; simpl.
  { by exists [], []. }
  destruct (samples_even f He) as (sa & Hsa). rewrite Hsa.
  destruct (IH (idx + zlen sa)) as (out & ss & -> & Hlen & Hss & Hok & Hn & Hout).
  pose proof (samples_length _ _ Hsa) as Hl.
  exists (bytes_of_samples (fade_samples total idx sa) :: out), (sa ++ ss). split_and!.
  - done.
  - constructor; [|done]. rewrite bytes_of_samples_length, Hl. unfold zlen.
    by rewrite fade_samples_length.
  - by apply samples_app.
  - apply Forall_app. split; [|done]. by eapply samples_bounded.
  - rewrite zlen_app, Hn, Hl. unfold SAMPLE_BYTES. rewrite Z.mul_comm, Z.div_mul by lia. done.
  - simpl. rewrite fade_samples_app. apply samples_app; [|done].
    apply samples_of_bytes_of_samples, fade_samples_bounded.
Qed.

Lemma fade_samples_quieter total l idx :
  2 <= total -> Forall is_sample l -> 0 <= idx -> idx + zlen l <= total ->
  Forall2 (fun s o => Z.abs o <= Z.abs s) l (fade_samples total idx l).
Proof.
  intros Ht Hl. revert idx. induction Hl as [|s l Hs _ IH]; intros idx Hi Hn; simpl; [constructor|].
  rewrite zlen_cons in Hn. pose proof (zlen_nonneg l).
  constructor; [apply fade_sample_quieter; [done|lia|done]|]. apply IH; lia.
Qed.

(** On barge-in the buffered speech is faded, not cut: frames keep their
    sizes, no sample gets louder, the first sample is unchanged (no step into
    the fade) and the last one is exact silence (no click after it). *)
Theorem fadeout_reaches_silence frames :
  Forall frame_ok frames -> 2 <= total_samples frames ->
  exists out ss fs, apply_fadeout frames = Some out
    /\ Forall2 (fun f o => zlen o = zlen f) frames out
    /\ samples_of_bytes (concat frames) = Some ss
    /\ samples_of_bytes (concat out) = Some fs
    /\ Forall2 (fun s o => Z.abs o <= Z.abs s) ss fs
    /\ head fs = head ss /\ last fs = Some 0.
Proof.
  intros Hf Ht. unfold apply_fadeout. rewrite (proj2 (Z.leb_gt _ _)) by lia.
  destruct (fade_frames_spec (total_samples frames) frames 0 Hf)
    as (out & ss & -> & Hlen & Hss & Hok & Hn & Hout).
  exists out, ss, (fade_samples (total_samples frames) 0 ss). split_and!; try done.
  - apply fade_samples_quieter; [done|done|lia|lia].
  - destruct ss as [|s ss]; [done|]. simpl. inversion Hok; subst.
    rewrite fade_sample_eq by (done || lia). by rewrite Z.sub_0_r, Z.quot_mul by lia.
  - destruct ss as [|s ss _] using rev_ind; [unfold zlen in Hn; simpl in Hn; lia|].
    apply Forall_app in Hok as [_ Hs]. apply Forall_inv in Hs.
    rewrite zlen_app in Hn. unfold zlen at 2 in Hn. simpl in Hn. pose proof (zlen_nonneg ss).
    rewrite fade_samples_app, last_app. simpl.
    rewrite fade_sample_eq by (done || lia). do 2 f_equal.
    replace (total_samples frames - 1 - (0 + zlen ss)) with 0 by lia.
    by rewrite Z.mul_0_r, Z.quot_0_l by lia.
Qed.

Lemma mix_samples_spec gain st sb i :
  mix_samples gain st sb !! i
  = match st !! i, sb !! i with
    | Some t, Some b => Some (mix_sample gain t b)
    | Some t, None => Some t
    | None, _ => None
    end.
Proof.
  revert sb i. induction st as [|t st IH]; intros [|b sb] [|i]; simpl; try done.
  by destruct (st !! i).
Qed.

(** Mixing is sample by sample, saturates instead of wrapping, and never changes the
    frame's size; without a positive gain or a background it is the
    identity. *)
Theorem mix_frame_saturates tts bg gain :
  frame_ok tts -> frame_ok bg ->
  exists out st sb os, mix_frame tts bg gain = Some out /\ zlen out = zlen tts
    /\ samples_of_bytes tts = Some st /\ samples_of_bytes bg = Some sb
    /\ samples_of_bytes out = Some os /\ Forall is_sample os
    /\ ((gain <= 0)%Q \/ bg = [] -> out = tts)
    /\ (~ (gain <= 0)%Q -> forall i t b, st !! i = Some t -> sb !! i = Some b ->
        os !! i = Some (clip16 (inject_Z t + inject_Z b * gain)%Q)).
Proof.
  intros [Hbt Het] [Hbb Heb].
  destruct (samples_even tts Het) as (st & Hst). destruct (samples_even bg Heb) as (sb & Hsb).
  pose proof (samples_bounded _ _ Hbt Hst) as Hokt.
  unfold mix_frame. destruct (Qle_bool gain 0 || _) eqn:Hg; simpl.
  { exists tts, st, sb, st. split_and!; try done. intros Hpos i t b Hi Hj.
    apply orb_true_iff in Hg as [Hg|Hg]; [by apply Qle_bool_iff in Hg|].
    destruct bg; [|apply Z.eqb_eq in Hg; rewrite zlen_cons in Hg; pose proof (zlen_nonneg bg); lia].
    simplify_eq/=. }
  apply orb_false_iff in Hg as [Hg Hbg]. rewrite Hst, Hsb.
  assert (Hok : Forall is_sample (mix_samples gain st sb)).
  { apply Forall_lookup. intros i x. rewrite mix_samples_spec.
    destruct (st !! i) eqn:Hi; [|done]. destruct (sb !! i); intros [= <-].
    - apply mix_sample_sample.
    - by eapply Forall_lookup_1. }
  assert (Hlen : length (mix_samples gain st sb) = length st).
  { clear. revert sb. induction st; intros [|b sb]; simpl; auto. }
  eexists _, st, sb, (mix_samples gain st sb). split_and!; try done.
  - rewrite bytes_of_samples_length, (samples_length _ _ Hst). unfold zlen. by rewrite Hlen.
  - by apply samples_of_bytes_of_samples.
  - intros [H|H]; [apply Qle_bool_iff in H; congruence|by subst].
  - intros _ i t b Hi Hj. rewrite mix_samples_spec, Hi, Hj. f_equal. unfold mix_sample.
    destruct (_ || _) eqn:Hc; [done|]. apply orb_false_iff in Hc as [H1 H2].
    rewrite qltb_false in *. by rewrite clip16_inside.
Qed.

(** ** The looped background *)

Lemma FRAME_BYTES_eq : FRAME_BYTES = 320.
Proof. reflexivity. Qed.

Lemma slice_zlen {A} a b (l : list A) :
  0 <= a -> a <= b -> b <= zlen l -> zlen (slice a b l) = b - a.
Proof. intros. unfold zlen, slice in *. rewrite length_take, length_drop. lia. Qed.

Lemma whole_frames_aligned pcm : zlen (whole_frames pcm) mod FRAME_BYTES = 0.
Proof.
  unfold whole_frames. rewrite FRAME_BYTES_eq. pose proof (zlen_nonneg pcm).
  pose proof (Z.mul_div_le (zlen pcm) 320 ltac:(lia)).
  pose proof (Z.div_pos (zlen pcm) 320 ltac:(lia) ltac:(lia)).
  rewrite slice_zlen by lia. rewrite Z.sub_0_r. apply Z_mod_mult.
Qed.

Lemma make_seamless_aligned pcm l : make_seamless pcm = Some l -> zlen l mod FRAME_BYTES = 0.
Proof.
  unfold make_seamless. destruct (_ <=? _).
  - intros [= <-]. apply whole_frames_aligned.
  - destruct (linear_crossfade _ _); [|done]. intros [= <-]. apply whole_frames_aligned.
Qed.

(** The seam is made from whole samples, so it never fails. *)
Lemma make_seamless_total pcm : exists l, make_seamless pcm = Some l.
Proof.
  unfold make_seamless. set (p := whole_frames pcm).
  change (2 * (CROSSFADE_SAMPLES * SAMPLE_BYTES)) with 1280.
  change (CROSSFADE_SAMPLES * SAMPLE_BYTES) with 640.
  destruct (zlen p <=? 1280) eqn:Hl; [eauto|]. apply Z.leb_gt in Hl.
  assert (Hlen1 : zlen (slice (zlen p - 640) (zlen p) p) = 640) by (rewrite slice_zlen; lia).
  assert (Hlen2 : zlen (slice 0 640 p) = 640) by (rewrite slice_zlen; lia).
  destruct (samples_even (slice (zlen p - 640) (zlen p) p)) as (sa & Ha); [by rewrite Hlen1|].
  destruct (samples_even (slice 0 640 p)) as (sb & Hb); [by rewrite Hlen2|].
  unfold linear_crossfade. rewrite Ha, Hb. eauto.
Qed.

(** The reader after [k] frames. *)
Definition reader_after (k : nat) (r : AmbientReader) : AmbientReader :=
  Nat.iter k (fun r => (next_frame r).2) r.

Lemma next_frame_aligned pcm n i :
  zlen pcm = n * FRAME_BYTES -> 0 <= i < n ->
  next_frame (mkReader pcm (i * FRAME_BYTES))
  = (slice (i * FRAME_BYTES) ((i + 1) * FRAME_BYTES) pcm,
     mkReader pcm (if i + 1 <? n then (i + 1) * FRAME_BYTES else 0)).
Proof.
  intros Hn Hi. unfold next_frame. simpl rd_pcm. simpl rd_pos. rewrite Hn.
  rewrite FRAME_BYTES_eq in *. rewrite (proj2 (Z.ltb_ge _ _)) by lia.
  rewrite (proj2 (Z.ltb_ge (n * 320) _)) by lia.
  replace (i * 320 + 320) with ((i + 1) * 320) by lia.
  destruct (i + 1 <? n) eqn:H; zbool.
  - by rewrite (proj2 (Z.ltb_lt _ _)) by lia.
  - by rewrite (proj2 (Z.ltb_ge _ _)) by lia.
Qed.

Lemma reader_after_pos pcm n k :
  zlen pcm = n * FRAME_BYTES -> 1 <= n ->
  reader_after k (mkReader pcm 0) = mkReader pcm ((Z.of_nat k mod n) * FRAME_BYTES).
Proof.
  intros Hn H1. induction k as [|k IH].
  - simpl. by rewrite Z.mod_0_l by lia.
  - unfold reader_after in *. rewrite Nat.iter_succ, IH.
    rewrite (next_frame_aligned _ n) by (done || apply Z.mod_pos_bound; lia). simpl. f_equal.
    rewrite Nat2Z.inj_succ. unfold Z.succ. pose proof (Z.mod_pos_bound (Z.of_nat k) n ltac:(lia)).
    rewrite <-(Zplus_mod_idemp_l (Z.of_nat k) 1 n).
    destruct (_ <? n) eqn:Hlt; zbool.
    + by rewrite (Z.mod_small (_ + 1)) by lia.
    + replace (Z.of_nat k mod n + 1) with n by lia. by rewrite Z.mod_same by lia.
Qed.

(** The background never runs dry or out of step: reading the seamless buffer of any
    recording gives whole 10 ms frames, the [k]-th being the buffer's frame
    [k mod n], for ever. *)
Theorem ambient_reader_cycles pcm buf n k :
  make_seamless pcm = Some buf -> n = zlen buf / FRAME_BYTES -> 1 <= n ->
  let i := Z.of_nat k mod n in
  let frame := (next_frame (reader_after k (mkReader buf 0))).1 in
  frame = slice (i * FRAME_BYTES) ((i + 1) * FRAME_BYTES) buf /\ zlen frame = FRAME_BYTES.
Proof.
  intros Hs Hn H1 i frame. apply make_seamless_aligned in Hs.
  assert (Hlen : zlen buf = n * FRAME_BYTES).
  { rewrite FRAME_BYTES_eq in *. pose proof (Z.div_mod (zlen buf) 320 ltac:(lia)). lia. }
  assert (Hi : 0 <= i < n) by (apply Z.mod_pos_bound; lia).
  unfold frame. rewrite (reader_after_pos buf n k) by done. fold i.
  rewrite (next_frame_aligned buf n i) by done. simpl. split; [done|].
  rewrite FRAME_BYTES_eq in *. rewrite slice_zlen; nia.
Qed.

(** ** Witnesses *)

Definition tone_frame (v : Z) : bytes := bytes_of_samples (repeat v 4).

Lemma tone_frame_ok v : frame_ok (tone_frame v).
Proof. split; [apply bytes_of_samples_bytes|]. unfold tone_frame. by rewrite bytes_of_samples_length. Qed.

Lemma fadeout_reaches_silence_witness :
  exists out ss fs, apply_fadeout [tone_frame 1000; tone_frame (-500)] = Some out
    /\ samples_of_bytes (concat out) = Some fs
    /\ samples_of_bytes (concat [tone_frame 1000; tone_frame (-500)]) = Some ss
    /\ head fs = head ss /\ last fs = Some 0.
Proof.
  destruct (fadeout_reaches_silence [tone_frame 1000; tone_frame (-500)])
    as (out & ss & fs & H1 & _ & H2 & H3 & _ & H4 & H5).
  - do 2 (apply Forall_cons_2; [apply tone_frame_ok|]). apply Forall_nil_2.
  - vm_compute. discriminate.
  - exists out, ss, fs. by split_and!.
Defined.

Lemma mix_frame_saturates_witness :
  exists out, mix_frame (tone_frame 32000) (tone_frame 20000) (1#10) = Some out
    /\ zlen out = zlen (tone_frame 32000).
Proof.
  destruct (mix_frame_saturates (tone_frame 32000) (tone_frame 20000) (1#10))
    as (out & st & sb & os & H1 & H2 & _); [apply tone_frame_ok..|]. by exists out.
Defined.

Lemma ambient_reader_cycles_witness :
  let buf := zeros 640 in
  (next_frame (reader_after 5 (mkReader buf 0))).1 = slice 320 640 buf.
Proof.
  destruct (ambient_reader_cycles (zeros 640) (zeros 640) 2 5) as [H _];
    [vm_compute; reflexivity|vm_compute; reflexivity|lia|].
  exact H.
Defined.
