(* ===== verification/CloudEdge.v ===== *)
(** * The cloud-edge transport

    [transport/grpc_server.py] (stream registry, device ownership, outbound
    queues), [transport/jwt_token_verifier.py], [transport/session_dispatcher.py]
    and [transport/heartbeat_handler.py].  The gRPC framework, the JWT library
    and the database are outside; a connection is a numbered stream, present
    in [conns] from its registration until its handler has deregistered it, and
    the connections' life is a step relation. *)

From S2P Require Import Prelude.

Abbreviation edge_id := pystr.

(** ** Authentication *)
Module Auth.

Definition ALGORITHM : string := "HS256".
Definition AUDIENCE : pystr := u8 "cloud-edge".
Definition SCOPE : string := "edge".

Inductive AuthError : Type := MissingBearer | InvalidToken.

(** [jose_jwt.decode(token, secret, algorithms, audience)]: [None] is a
    [JWTError]. *)
Section Verify.
  Context (jwt_decode : pystr -> pystr -> string -> pystr -> option (list (string * pyval))).

Definition verify (secret audience token : pystr) : result AuthError edge_id :=
  match jwt_decode token secret ALGORITHM audience with
  | None => Err InvalidToken
  | Some claims =>
      if val_is (dgetv "scope" claims) SCOPE then
        match dgetv "sub" claims with
        | VStr ((_ :: _) as sub) => Ok sub
        | _ => Err InvalidToken
        end
      else Err InvalidToken
  end.

Definition removeprefix (s p : pystr) : pystr := if startswith s p then drop (length p) s else s.

(** The identity of a stream, or the abort. *)
Definition authenticate (secret audience : pystr) (metadata : list (string * pystr))
  : result AuthError edge_id :=
  let auth := default [] (dget "authorization" metadata) in
  if startswith auth (u8 "Bearer ") then
    verify secret audience (py_strip (removeprefix auth (u8 "Bearer ")))
  else Err MissingBearer.

(** A stream gets an identity only from a bearer token the JWT library accepts for
    this secret, algorithm and audience, with the edge scope and a nonempty
    subject, and the identity is that subject. *)
Theorem authenticated_only_by_edge_token secret audience metadata e :
  authenticate secret audience metadata = Ok e ->
  exists auth token claims,
    dget "authorization" metadata = Some auth /\ startswith auth (u8 "Bearer ") = true
    /\ token = py_strip (removeprefix auth (u8 "Bearer "))
    /\ jwt_decode token secret ALGORITHM audience = Some claims
    /\ val_is (dgetv "scope" claims) SCOPE = true
    /\ dgetv "sub" claims = VStr e /\ e <> [].
Proof.
  unfold authenticate, verify.
  destruct (dget "authorization" metadata) as [auth|]; simpl; [|done].
  destruct (startswith auth _) eqn:Hs; [|done].
  set (token := py_strip _). destruct (jwt_decode token _ _ _) as [claims|] eqn:Hd; [|done].
  destruct (val_is _ _) eqn:Hsc; [|done].
  destruct (dgetv "sub" claims) as [| | | |[|c sub]| |] eqn:Hsub; try done.
  intros [= <-]. by exists auth, token, claims.
Qed.
End Verify.

Lemma authenticated_only_by_edge_token_witness :
  let dec (t s : pystr) (a : string) (aud : pystr) :=
    Some [("scope"%string, VStr (u8 "edge")); ("sub"%string, VStr (u8 "edge-7"))] in
  exists auth : pystr, dget "authorization" [("authorization"%string, u8 "Bearer t")] = Some auth
    /\ startswith auth (u8 "Bearer ") = true.
Proof.
  destruct (authenticated_only_by_edge_token
    (fun t s a aud => Some [("scope"%string, VStr (u8 "edge")); ("sub"%string, VStr (u8 "edge-7"))])
    (u8 "k") AUDIENCE [("authorization"%string, u8 "Bearer t")] (u8 "edge-7"))
    as (auth & token & claims & H1 & H2 & _); [reflexivity|]. by exists auth.
Defined.
End Auth.

(** ** Streams and the server *)
Module Grpc.
Section Grpc.
  Context {Msg : Type}.

Inductive item : Type := IMsg (m : Msg) | ICLOSE.

Record ServerStream := mkStream { st_edge : edge_id; st_outbound : list item; st_closed : bool }.

#[export] Instance ServerStream_eta : Eta ServerStream := fun s =>
  mkStream (st_edge s) (st_outbound s) (st_closed s).

Definition OUTBOUND_MAX : nat := 64.

Definition new_stream (e : edge_id) : ServerStream := mkStream e [] false.

Definition connected (s : ServerStream) : bool := negb (st_closed s).

(** [send]: a queue that stays full until the timeout counts as not connected. *)
Definition send (m : Msg) (s : ServerStream) : option ServerStream :=
  if st_closed s then None
  else if (OUTBOUND_MAX <=? length (st_outbound s))%nat then None
  else Some (s <| st_outbound ::= fun q => q ++ [IMsg m] |>).

Definition close (s : ServerStream) : ServerStream :=
  if st_closed s then s
  else
    let s := s <| st_closed := true |> in
    if (OUTBOUND_MAX <=? length (st_outbound s))%nat then s      (* QueueFull: logged *)
    else s <| st_outbound ::= fun q => q ++ [ICLOSE] |>.

(** What [outbound] yields from the queue as it stands, and whether it has
    returned; [false] means it waits for another item. *)
Fixpoint outbound (q : list item) : list Msg * bool :=
  match q with
  | [] => ([], false)
  | ICLOSE :: _ => ([], true)
  | IMsg m :: q' => let '(ms, fin) := outbound q' in (m :: ms, fin)
  end.

Record Server := mkServer {
  conns : gmap nat ServerStream;          (* streams whose handler still runs *)
  streams : gmap edge_id nat;             (* [_streams] *)
  device_to_edge : gmap Z edge_id
}.

#[export] Instance Server_eta : Eta Server := fun s =>
  mkServer (conns s) (streams s) (device_to_edge s).

Definition server_init : Server := mkServer ∅ ∅ ∅.

Definition close_conn (x : nat) (s : Server) : Server := s <| conns ::= alter close x |>.

Definition register_stream (x : nat) (e : edge_id) (s : Server) : Server :=
  let s1 := match streams s !! e with Some old => close_conn old s | None => s end in
  s1 <| streams ::= <[e := x]> |>.

(** The stale mappings of a disconnected edge. *)
Definition drop_edge (e : edge_id) (m : gmap Z edge_id) : gmap Z edge_id :=
  filter (fun kv : Z * edge_id => kv.2 <> e) m.

Definition deregister_stream (e : edge_id) (x : nat) (s : Server) : Server :=
  let s1 := if decide (streams s !! e = Some x) then s <| streams ::= delete e |> else s in
  if decide (streams s1 !! e = None) then s1 <| device_to_edge ::= drop_edge e |> else s1.

(** [_reader_loop] on a heartbeat frame: the devices it lists become this
    edge's. *)
Definition heartbeat_devices (e : edge_id) (devices : list Z) (s : Server) : Server :=
  s <| device_to_edge ::= fun m => fold_left (fun m d => <[d := e]> m) devices m |>.

Definition resolve_edge_for_device (d : Z) (s : Server) : option edge_id := device_to_edge s !! d.

Definition send_to_edge (e : edge_id) (m : Msg) (s : Server) : option Server :=
  match streams s !! e with
  | None => None
  | Some x =>
      match conns s !! x with
      | None => None
      | Some st =>
          if connected st then
            match send m st with
            | Some st' => Some (s <| conns ::= <[x := st']> |>)
            | None => None
            end
          else None
      end
  end.

Definition stop (s : Server) : Server :=
  s <| conns := map_imap (fun x st => Some (if decide (streams s !! st_edge st = Some x)
                                            then close st else st)) (conns s) |>.

(** The life of connections: [_handle_bidi] opens and registers, its reader
    handles frames until it ends, its [finally] closes and deregisters. *)
Inductive step : Server -> Server -> Prop :=
| st_connect x e s :
    conns s !! x = None ->
    step s (register_stream x e (s <| conns ::= <[x := new_stream e]> |>))
| st_heartbeat x st devices s :
    conns s !! x = Some st -> step s (heartbeat_devices (st_edge st) devices s)
| st_reader_ends x s : step s (close_conn x s)
| st_taken x st i q s :
    conns s !! x = Some st -> st_outbound st = i :: q ->
    step s (s <| conns ::= <[x := st <| st_outbound := q |>]> |>)
| st_send e m s s' : send_to_edge e m s = Some s' -> step s s'
| st_stop s : step s (stop s)
| st_finish x st s :
    conns s !! x = Some st ->
    step s (deregister_stream (st_edge st) x (close_conn x s) <| conns ::= delete x |>).

Record server_inv (s : Server) : Prop := {
  si_registered : forall e x, streams s !! e = Some x ->
                    exists st, conns s !! x = Some st /\ st_edge st = e;
  si_open : forall x st, conns s !! x = Some st -> st_closed st = false ->
              streams s !! st_edge st = Some x;
  si_devices : forall d e, device_to_edge s !! d = Some e ->
                 exists x st, conns s !! x = Some st /\ st_edge st = e
}.

(** *** Lemmas *)

Lemma close_edge (st : ServerStream) : st_edge (close st) = st_edge st.
Proof. unfold close. destruct (st_closed st); [done|]. simpl. by case_match. Qed.

Lemma close_closed (st : ServerStream) : st_closed (close st) = true.
Proof. unfold close. destruct (st_closed st) eqn:H; [done|]. simpl. by case_match. Qed.

Lemma close_conn_lookup x y (s : Server) st :
  conns (close_conn x s) !! y = Some st ->
  exists st0, conns s !! y = Some st0 /\ st_edge st = st_edge st0
              /\ (st_closed st = false -> st_closed st0 = false /\ y <> x).
Proof.
  unfold close_conn. simpl. destruct (decide (y = x)) as [->|Hne].
  - rewrite lookup_alter_eq. intros (st0 & -> & ?)%fmap_Some. subst. exists st0.
    rewrite close_edge, close_closed. done.
  - rewrite lookup_alter_ne by done. intros ->. by exists st.
Qed.

Lemma close_conn_present x y (s : Server) st :
  conns s !! y = Some st ->
  exists st', conns (close_conn x s) !! y = Some st' /\ st_edge st' = st_edge st.
Proof.
  intros Hy. unfold close_conn. simpl. destruct (decide (y = x)) as [->|Hne].
  - rewrite lookup_alter_eq, Hy. simpl. eexists. split; [done|]. apply close_edge.
  - rewrite lookup_alter_ne, Hy by done. by eexists.
Qed.

Lemma close_conn_inv x (s : Server) : server_inv s -> server_inv (close_conn x s).
Proof.
  intros [Hr Ho Hd]. constructor.
  - intros e y Hy. destruct (Hr e y Hy) as (st & Hst & <-).
    by destruct (close_conn_present x y s st Hst) as (st' & ? & ?); eauto.
  - intros y st Hy Hcl. apply close_conn_lookup in Hy as (st0 & Hy & -> & Hc).
    destruct (Hc Hcl). by apply Ho.
  - intros d e Hde. destruct (Hd d e Hde) as (y & st & Hy & <-).
    destruct (close_conn_present x y s st Hy) as (st' & ? & ?). eauto.
Qed.

(** Replacing a connection's queue changes no identity. *)
Lemma conn_update_inv x st st' (s : Server) :
  conns s !! x = Some st -> st_edge st' = st_edge st -> st_closed st' = st_closed st ->
  server_inv s -> server_inv (s <| conns ::= <[x := st']> |>).
Proof.
  intros Hx He Hc [Hr Ho Hd]. constructor; simpl.
  - intros e y Hy. destruct (Hr e y Hy) as (sty & Hsty & <-).
    destruct (decide (y = x)) as [->|Hne]; simplify_map_eq; eauto.
  - intros y sty Hy Hcl. destruct (decide (y = x)) as [->|Hne]; simplify_map_eq.
    + rewrite He. apply Ho; [done|congruence].
    + first [done | by apply Ho].
  - intros d e Hde. destruct (Hd d e Hde) as (y & sty & Hy & <-).
    destruct (decide (y = x)) as [->|Hne]; simplify_map_eq;
      [exists x, st'|exists y, sty]; by simplify_map_eq.
Qed.

Lemma connect_inv x e (s : Server) :
  conns s !! x = None -> server_inv s ->
  server_inv (register_stream x e (s <| conns ::= <[x := new_stream e]> |>)).
Proof.
  intros Hx [Hr Ho Hd]. unfold register_stream. simpl.
  assert (Hkeep : forall s1 : Server,
    streams s1 = streams s -> device_to_edge s1 = device_to_edge s ->
    (forall y st, conns s !! y = Some st ->
       exists st', conns s1 !! y = Some st' /\ st_edge st' = st_edge st) ->
    (exists st', conns s1 !! x = Some st' /\ st_edge st' = e) ->
    (forall y st, conns s1 !! y = Some st -> st_closed st = false ->
       (y = x /\ st_edge st = e) \/ (st_edge st <> e /\ streams s !! st_edge st = Some y)) ->
    server_inv (s1 <| streams ::= <[e := x]> |>)).
  { intros s1 Hst Hdev Hold Hnew Hopen. constructor; simpl; rewrite ?Hst, ?Hdev.
    - intros e' y. rewrite lookup_insert_Some. intros [[<- <-]|[Hne Hy]]; [done|].
      destruct (Hr e' y Hy) as (st & Hsty & <-). by apply Hold in Hsty.
    - intros y st Hy Hcl. destruct (Hopen y st Hy Hcl) as [[-> ->]|[Hne Hs]];
        by simplify_map_eq.
    - intros d e' Hde. destruct (Hd d e' Hde) as (y & st & Hy & <-).
      apply Hold in Hy as (st' & ? & ?). eauto. }
  assert (Hins : forall y st, conns s !! y = Some st -> y <> x) by (intros; congruence).
  destruct (streams s !! e) as [old|] eqn:Hold; apply Hkeep; try done.
  - intros y st Hy. apply close_conn_present. simpl. by rewrite lookup_insert_ne by (intros ->; congruence).
  - destruct (close_conn_present old x (s <| conns ::= <[x := new_stream e]> |>) (new_stream e))
      as (st' & ? & ?); [simpl; by simplify_map_eq|]. eauto.
  - intros y st Hy Hcl. apply close_conn_lookup in Hy as (st0 & Hy & -> & Hc).
    destruct (Hc Hcl) as [Hc0 Hne]. simpl in Hy. apply lookup_insert_Some in Hy as [[<- <-]|[? Hy]].
    + by left.
    + right. pose proof (Ho y st0 Hy Hc0). split; [congruence|done].
  - intros y st Hy. simpl. rewrite lookup_insert_ne by (intros ->; congruence). eauto.
  - simpl. simplify_map_eq. eauto.
  - simpl. intros y st [[<- <-]|[? Hy]]%lookup_insert_Some Hcl; [by left|].
    right. pose proof (Ho y st Hy Hcl). split; [congruence|done].
Qed.

Lemma finish_inv x st (s : Server) :
  conns s !! x = Some st -> server_inv s ->
  server_inv (deregister_stream (st_edge st) x s <| conns ::= delete x |>).
Proof.
  intros Hx [Hr Ho Hd]. set (e := st_edge st).
  assert (Hother : forall s1 : Server, conns s1 = conns s ->
    (forall e' y, streams s1 !! e' = Some y -> streams s !! e' = Some y /\ y <> x) ->
    (forall e' y, streams s !! e' = Some y -> y <> x -> streams s1 !! e' = Some y) ->
    (forall d e', device_to_edge s1 !! d = Some e' ->
       device_to_edge s !! d = Some e' /\ (e' = e -> exists y, streams s1 !! e = Some y)) ->
    server_inv (s1 <| conns ::= delete x |>)).
  { intros s1 Hc Hs1 Hs2 Hdev. constructor; simpl; rewrite Hc.
    - intros e' y Hy. destruct (Hs1 e' y Hy) as [Hy' Hne].
      destruct (Hr e' y Hy') as (sty & ? & ?). exists sty. by rewrite lookup_delete_ne.
    - intros y sty [Hne Hy]%lookup_delete_Some Hcl. apply Hs2; [|congruence]. by apply Ho.
    - intros d e' Hde. destruct (Hdev d e' Hde) as [Hde' He].
      destruct (decide (e' = e)) as [->|Hne].
      + destruct (He eq_refl) as (y & Hy). destruct (Hs1 e y Hy) as [Hy' Hyx].
        destruct (Hr e y Hy') as (sty & ? & ?). exists y, sty. by rewrite lookup_delete_ne.
      + destruct (Hd d e' Hde') as (y & sty & Hy & Hey). exists y, sty.
        rewrite lookup_delete_ne; [done|]. intros ->. simplify_map_eq. }
  unfold deregister_stream. fold e.
  assert (Huniq : forall e' y, streams s !! e' = Some y -> y = x -> e' = e).
  { intros e' y Hy ->. destruct (Hr e' x Hy) as (st' & ? & ?). unfold e. congruence. }
  destruct (decide (streams s !! e = Some x)) as [Hreg|Hreg].
  - rewrite decide_True by (simpl; by simplify_map_eq). apply Hother; simpl; [done|..].
    + intros e' y [Hne Hy]%lookup_delete_Some. split; [done|]. intros Hyx. by eapply Hne, eq_sym, Huniq.
    + intros e' y Hy Hne. rewrite lookup_delete_ne; [done|]. congruence.
    + intros d e' [Hde Hne]%map_lookup_filter_Some. simpl in Hne. by split.
  - case_decide as Hnone; apply Hother; simpl; try done.
    + intros e' y Hy. split; [done|]. intros ->. apply Hreg. by rewrite <-(Huniq e' x Hy eq_refl).
    + intros d e' [Hde Hne]%map_lookup_filter_Some. simpl in Hne. by split.
    + intros e' y Hy. split; [done|]. intros ->. apply Hreg. by rewrite <-(Huniq e' x Hy eq_refl).
    + intros d e' Hde. split; [done|]. intros _. by destruct (streams s !! e); eauto.
Qed.

Lemma heartbeat_lookup e devices d e' (m : gmap Z edge_id) :
  fold_left (fun m d => <[d := e]> m) devices m !! d = Some e' ->
  e' = e \/ m !! d = Some e'.
Proof.
  revert m. induction devices as [|d0 ds IH]; intros m; simpl; [by right|].
  intros [->|H]%IH; [by left|]. apply lookup_insert_Some in H as [[_ <-]|[_ H]]; eauto.
Qed.

Lemma send_conn e m (s s' : Server) :
  send_to_edge e m s = Some s' ->
  exists x st, streams s !! e = Some x /\ conns s !! x = Some st /\ st_closed st = false
    /\ (length (st_outbound st) < OUTBOUND_MAX)%nat
    /\ s' = s <| conns ::= <[x := st <| st_outbound ::= fun q => q ++ [IMsg m] |>]> |>.
Proof.
  unfold send_to_edge, send, connected. destruct (streams s !! e) as [x|] eqn:Hx; [|done].
  destruct (conns s !! x) as [st|] eqn:Hst; [|done].
  destruct (st_closed st) eqn:Hc; cbn [negb]; [done|].
  destruct (OUTBOUND_MAX <=? length (st_outbound st))%nat eqn:Hl; [done|]. apply Nat.leb_gt in Hl. intros [= <-].
  by exists x, st.
Qed.

Lemma step_inv (s s' : Server) : server_inv s -> step s s' -> server_inv s'.
Proof.
  intros Hi Hs. destruct Hs as [x e s Hx|x st devices s Hx|x s|x st i q s Hx Hq|e m s s' Hsend|s|x st s Hx].
  - by apply connect_inv.
  - destruct Hi as [Hr Ho Hd]. constructor; simpl; [done|done|].
    intros d e' [->|H]%heartbeat_lookup; eauto.
  - by apply close_conn_inv.
  - by apply (conn_update_inv x st).
  - apply send_conn in Hsend as (x & st & _ & Hx & _ & _ & ->). by apply (conn_update_inv x st).
  - destruct Hi as [Hr Ho Hd].
    assert (Hlk : forall x st, conns s !! x = Some st ->
      exists st', conns (stop s) !! x = Some st' /\ st_edge st' = st_edge st).
    { intros x st Hx. unfold stop. simpl. rewrite map_lookup_imap, Hx. simpl.
      case_decide; eexists; (split; [done|]); [apply close_edge|done]. }
    constructor.
    + intros e x Hx. destruct (Hr e x Hx) as (st & Hst & <-). by apply Hlk in Hst.
    + intros x st Hx Hcl. unfold stop in Hx. simpl in Hx. rewrite map_lookup_imap in Hx.
      destruct (conns s !! x) as [st0|] eqn:Hx0; [|done]. simpl in Hx.
      case_decide; simplify_eq; [by rewrite close_closed in Hcl|]. by apply Ho.
    + intros d e Hde. destruct (Hd d e Hde) as (x & st & Hx & <-). apply Hlk in Hx as (? & ? & ?). eauto.
  - assert (Hx' : exists st', conns (close_conn x s) !! x = Some st' /\ st_edge st' = st_edge st)
      by (by apply close_conn_present).
    destruct Hx' as (st' & Hx' & <-). apply finish_inv; [done|]. by apply close_conn_inv.
Qed.

(** C36: Through every order of connects, reconnects that displace a stream,
    heartbeats, reader ends, sends, shutdown and handler exits: a registered stream
    is always a running connection of that edge; an edge has at most one stream
    that still accepts messages, the registered one; and no device stays
    assigned to an edge that has no connection left. *)
Theorem stream_registry_sound s :
  rtc step server_init s ->
  (forall e x, streams s !! e = Some x -> exists st, conns s !! x = Some st /\ st_edge st = e)
  /\ (forall x y st st', conns s !! x = Some st -> conns s !! y = Some st' ->
        st_edge st = st_edge st' -> st_closed st = false -> st_closed st' = false -> x = y)
  /\ (forall d e, resolve_edge_for_device d s = Some e ->
        exists x st, conns s !! x = Some st /\ st_edge st = e).
Proof.
  intros Hr. assert (Hi : server_inv s).
  { eapply rtc_invariant; [apply step_inv|exact Hr|]. constructor; simpl; intros *;
      rewrite lookup_empty; done. }
  destruct Hi as [H1 H2 H3]. split_and!; [done| |done].
  intros x y st st' Hx Hy He Hc Hc'. pose proof (H2 x st Hx Hc). pose proof (H2 y st' Hy Hc').
  congruence.
Qed.

(** A message is accepted for an edge only while that edge's registered stream is
    open and has room, and it is then the last message of that stream's queue and of no
    other. *)
Theorem send_reaches_registered_stream e m s s' :
  send_to_edge e m s = Some s' ->
  exists x st, streams s !! e = Some x /\ conns s !! x = Some st /\ st_closed st = false
    /\ (exists st', conns s' !! x = Some st' /\ st_outbound st' = st_outbound st ++ [IMsg m]
          /\ (length (st_outbound st') <= OUTBOUND_MAX)%nat)
    /\ (forall y, y <> x -> conns s' !! y = conns s !! y).
Proof.
  intros (x & st & H1 & H2 & H3 & H4 & ->)%send_conn. exists x, st. split_and!; try done; simpl.
  - rewrite lookup_insert_eq. eexists. split_and!; [done|done|]. simpl. rewrite length_app. simpl. lia.
  - intros y Hy. by rewrite lookup_insert_ne.
Qed.

Lemma outbound_msgs (ms : list Msg) : outbound (map IMsg ms) = (ms, false).
Proof. induction ms as [|m ms IH]; simpl; [done|]. by rewrite IH. Qed.

(** Closing a stream whose queue is full loses the sentinel: the iterator
    yields what was queued and then waits for ever. *)
Lemma close_when_full_never_ends e (ms : list Msg) :
  length ms = OUTBOUND_MAX ->
  let st := close (mkStream e (map IMsg ms) false) in
  st_closed st = true /\ outbound (st_outbound st) = (ms, false) /\ close st = st.
Proof.
  intros Hlen. unfold close. simpl. rewrite length_map, Hlen. simpl.
  by rewrite outbound_msgs.
Qed.
End Grpc.

Lemma stream_registry_sound_witness :
  exists s, rtc (step (Msg := nat)) server_init s
    /\ resolve_edge_for_device 5 s = Some (u8 "e1")
    /\ exists x st, conns s !! x = Some st /\ st_edge st = u8 "e1".
Proof.
  assert (Hrun : exists s, rtc (step (Msg := nat)) server_init s
                           /\ resolve_edge_for_device 5 s = Some (u8 "e1")).
  { eexists. split.
    - eapply rtc_l; [apply (st_connect 0 (u8 "e1")); reflexivity|].
      eapply rtc_l; [eapply (st_heartbeat 0 _ [5]); reflexivity|].
      eapply rtc_l; [apply (st_connect 1 (u8 "e1")); reflexivity|]. apply rtc_refl.
    - reflexivity. }
  destruct Hrun as (s & Hrun & Hres). exists s. split_and!; [done|done|].
  destruct (stream_registry_sound s Hrun) as (_ & _ & H). exact (H 5 (u8 "e1") Hres).
Defined.

Lemma send_reaches_registered_stream_witness :
  exists s' x, send_to_edge (u8 "e1") 9%nat
    (register_stream 0 (u8 "e1") (mkServer {[0%nat := new_stream (u8 "e1")]} ∅ ∅)) = Some s'
    /\ exists st' : ServerStream, conns s' !! x = Some st' /\ st_outbound st' = [IMsg 9%nat].
Proof.
  set (s0 := register_stream 0 (u8 "e1") (mkServer {[0%nat := new_stream (u8 "e1")]} ∅ ∅)).
  destruct (send_to_edge (u8 "e1") 9%nat s0) as [s'|] eqn:Hs; [|vm_compute in Hs; discriminate].
  destruct (send_reaches_registered_stream (u8 "e1") 9%nat s0 s' Hs)
    as (x & st & Hx & Hc & _ & (st' & Hst & Hq & _) & _).
  exists s', x. split; [done|]. exists st'. split; [done|].
  vm_compute in Hx. injection Hx as <-. vm_compute in Hc. injection Hc as <-. exact Hq.
Defined.
End Grpc.

(** ** The listener *)
Module Listener.
#[local] Existing Instance Grpc.Server_eta.

Section Listener.
  Context {Msg Credentials : Type}.

(** The [grpc.aio] server: its port, plain or secure, and whether it accepts. *)
Record AioServer := mkAio { aio_port : option (pystr * option Credentials); aio_accepting : bool }.

Record CloudEdgeGrpcServer := mkGrpcServer {
  server_ : option AioServer;                   (* [_server] *)
  registry : Grpc.Server (Msg := Msg) }.        (* [_streams], [_device_to_edge] *)

#[export] Instance CloudEdgeGrpcServer_eta : Eta CloudEdgeGrpcServer := fun s =>
  mkGrpcServer (server_ s) (registry s).

Definition new_grpc_server : CloudEdgeGrpcServer := mkGrpcServer None Grpc.server_init.

Inductive StartError : Type := AlreadyStarted | CannotBind | CannotStart.

(** [start]; [bound] and [started] tell whether [add_insecure_port] or [add_secure_port],
    and the [grpc.aio] server's own [start], succeed.  [_server] is assigned first. *)
Definition start (listen_addr : pystr) (credentials : option Credentials) (bound started : bool)
  (s : CloudEdgeGrpcServer) : result StartError unit * CloudEdgeGrpcServer :=
  match server_ s with
  | Some _ => (Err AlreadyStarted, s)
  | None =>
      if negb bound then (Err CannotBind, s <| server_ := Some (mkAio None false) |>)
      else if negb started then
        (Err CannotStart, s <| server_ := Some (mkAio (Some (listen_addr, credentials)) false) |>)
      else (Ok tt, s <| server_ := Some (mkAio (Some (listen_addr, credentials)) true) |>)
  end.

(** [stop]: the registered streams are closed, then the listener. *)
Definition stop (s : CloudEdgeGrpcServer) : CloudEdgeGrpcServer :=
  s <| registry ::= Grpc.stop |> <| server_ := None |>.

Definition accepting (s : CloudEdgeGrpcServer) : bool :=
  match server_ s with Some a => aio_accepting a | None => false end.

(** Connections come in only while the listener accepts. *)
Inductive step : CloudEdgeGrpcServer -> CloudEdgeGrpcServer -> Prop :=
| ls_start addr cred b st s : step s (start addr cred b st s).2
| ls_stop s : step s (stop s)
| ls_connect x e s :
    accepting s = true -> Grpc.conns (registry s) !! x = None ->
    step s (s <| registry ::= fun g =>
                   Grpc.register_stream x e (g <| Grpc.conns ::= <[x := Grpc.new_stream e]> |>) |>)
| ls_registry g s :
    Grpc.step (registry s) g -> dom (Grpc.conns g) ⊆ dom (Grpc.conns (registry s)) ->
    step s (s <| registry := g |>).

(** Whatever was started and stopped before, the registry is one the interleavings of
    [Grpc] reach: what they guarantee holds of it. *)
Lemma listener_reaches_registry s :
  rtc step new_grpc_server s -> rtc Grpc.step Grpc.server_init (registry s).
Proof.
  intros Hr. apply (rtc_invariant step (fun s => rtc Grpc.step Grpc.server_init (registry s)))
    with (x := new_grpc_server); [|done|reflexivity].
  clear. intros x y Hx Hy. destruct Hy as [addr cred b st s|s|c e s Ha Hc|g s Hg Hd].
  - unfold start. destruct (server_ s), b, st; exact Hx.
  - eapply rtc_r; [exact Hx|]. apply Grpc.st_stop.
  - eapply rtc_r; [exact Hx|]. by apply Grpc.st_connect.
  - by eapply rtc_r.
Qed.

(** A second start is refused and changes nothing; after a stop the server can be started
    again. *)
Lemma start_twice addr cred b st s addr' cred' b' st' :
  let s1 := (start addr cred b st s).2 in start addr' cred' b' st' s1 = (Err AlreadyStarted, s1).
Proof. unfold start. destruct (server_ s) eqn:Hs, b, st; simpl; by rewrite ?Hs. Qed.

Lemma restart_after_stop addr cred s :
  let '(r, s') := start addr cred true true (stop s) in r = Ok tt /\ accepting s' = true.
Proof. done. Qed.

(** A start that could not bind its port leaves a server that does not accept and cannot be
    started again: only [stop] clears it. *)
Lemma failed_start_blocks addr cred s addr' cred' :
  server_ s = None ->
  let s1 := (start addr cred false true s).2 in
  accepting s1 = false /\ (start addr' cred' true true s1).1 = Err AlreadyStarted.
Proof. intros Hs. unfold start. by rewrite Hs. Qed.
End Listener.
End Listener.

(** ** The session dispatcher *)
Module Dispatcher.

Record SessionEntry := mkEntry {
  en_call_id : string;
  en_edge : edge_id;
  en_has_dial_ack : bool                  (* [on_dial_ack] is not [None] *)
}.

Record Dispatcher := mkDispatcher {
  sessions : gmap string SessionEntry;
  hardware_alert_cb : bool;
  heartbeat_cb : bool
}.

#[export] Instance Dispatcher_eta : Eta Dispatcher := fun d =>
  mkDispatcher (sessions d) (hardware_alert_cb d) (heartbeat_cb d).

(** The [oneof] payload of an [Edge2Cloud] frame; [P] is what the callbacks
    receive. *)
Inductive frame (P : Type) : Type :=
| FCallEvent (call_id : string) (p : P)
| FDialAck (call_id : string) (p : P)
| FHardwareAlert (p : P)
| FHeartbeat (p : P)
| FEmpty
| FUnknown.
Arguments FCallEvent {P}. Arguments FDialAck {P}. Arguments FHardwareAlert {P}.
Arguments FHeartbeat {P}. Arguments FEmpty {P}. Arguments FUnknown {P}.

(** The callback invoked: a session's, by [call_id], or a process-wide one. *)
Inductive invocation (P : Type) : Type :=
| OnCallEvent (call_id : string) (p : P)
| OnDialAck (call_id : string) (p : P)
| OnHardwareAlert (from : edge_id) (p : P)
| OnHeartbeat (from : edge_id) (p : P).
Arguments OnCallEvent {P}. Arguments OnDialAck {P}.
Arguments OnHardwareAlert {P}. Arguments OnHeartbeat {P}.

Definition register (call_id : string) (e : edge_id) (has_ack : bool) (d : Dispatcher)
  : result PyErr Dispatcher :=
  match sessions d !! call_id with
  | Some _ => Err ValueError
  | None => Ok (d <| sessions ::= <[call_id := mkEntry call_id e has_ack]> |>)
  end.

Definition deregister (call_id : string) (d : Dispatcher) : Dispatcher :=
  d <| sessions ::= delete call_id |>.

Definition is_registered (call_id : string) (d : Dispatcher) : bool :=
  bool_decide (is_Some (sessions d !! call_id)).

Definition on_hardware_alert (d : Dispatcher) : Dispatcher := d <| hardware_alert_cb := true |>.
Definition on_heartbeat (d : Dispatcher) : Dispatcher := d <| heartbeat_cb := true |>.

Section Dispatch.
  Context {P : Type}.

Definition dispatch_call_event (from : edge_id) (call_id : string) (p : P) (d : Dispatcher)
  : option (invocation P) :=
  match sessions d !! call_id with
  | None => None
  | Some en => if decide (en_edge en = from) then Some (OnCallEvent call_id p) else None
  end.

Definition dispatch_dial_ack (from : edge_id) (call_id : string) (p : P) (d : Dispatcher)
  : option (invocation P) :=
  match sessions d !! call_id with
  | None => None
  | Some en =>
      if en_has_dial_ack en then
        if decide (en_edge en = from) then Some (OnDialAck call_id p) else None
      else None
  end.

Definition dispatch_hardware_alert (from : edge_id) (p : P) (d : Dispatcher)
  : option (invocation P) :=
  if hardware_alert_cb d then Some (OnHardwareAlert from p) else None.

Definition dispatch_heartbeat (from : edge_id) (p : P) (d : Dispatcher)
  : option (invocation P) :=
  if heartbeat_cb d then Some (OnHeartbeat from p) else None.

Definition handle_edge_message (from : edge_id) (msg : frame P) (d : Dispatcher)
  : option (invocation P) :=
  match msg with
  | FCallEvent c p => dispatch_call_event from c p d
  | FDialAck c p => dispatch_dial_ack from c p d
  | FHardwareAlert p => dispatch_hardware_alert from p d
  | FHeartbeat p => dispatch_heartbeat from p d
  | FEmpty => None
  | FUnknown => None
  end.

(** The call a frame reaches, if it reaches a session. *)
Definition reaches (from : edge_id) (msg : frame P) (d : Dispatcher) (call_id : string) : Prop :=
  exists p, handle_edge_message from msg d = Some (OnCallEvent call_id p)
            \/ handle_edge_message from msg d = Some (OnDialAck call_id p).

Lemma reaches_entry from msg d call_id :
  reaches from msg d call_id ->
  exists en, sessions d !! call_id = Some en /\ en_edge en = from.
Proof.
  intros (p & H). destruct msg; simpl in H;
    unfold dispatch_call_event, dispatch_dial_ack, dispatch_hardware_alert, dispatch_heartbeat in H;
    destruct H as [H|H]; repeat case_match; simplify_eq; eauto.
Qed.

End Dispatch.

End Dispatcher.

(** ** Heartbeats *)
Module Heartbeat.

Inductive ProtoStatus : Type :=
| P_UNSPECIFIED | P_UNKNOWN | P_DETECTED | P_REGISTERED | P_IDLE | P_DIALING | P_IN_CALL
| P_OFFLINE | P_FLAGGED | P_ERROR | P_OTHER (n : Z).

Inductive DeviceStatus : Type :=
| UNKNOWN | DETECTED | REGISTERED | IDLE | DIALING | DEV_IN_CALL | OFFLINE | FLAGGED.

Definition PROTO_STATUS_TO_ENUM (s : ProtoStatus) : option DeviceStatus :=
  match s with
  | P_UNKNOWN => Some UNKNOWN | P_DETECTED => Some DETECTED | P_REGISTERED => Some REGISTERED
  | P_IDLE => Some IDLE | P_DIALING => Some DIALING | P_IN_CALL => Some DEV_IN_CALL
  | P_OFFLINE => Some OFFLINE | P_FLAGGED => Some FLAGGED | P_ERROR => Some OFFLINE
  | P_UNSPECIFIED => None | P_OTHER _ => None
  end.

(** A row of the [device] table. *)
Record DeviceRow := mkRow { last_seen_at : Z; status : DeviceStatus }.

Record DeviceHealth := mkHealth { dh_device_id : Z; dh_status : ProtoStatus }.

Record HeartbeatMsg := mkHeartbeat { hb_ts : option Z; hb_devices : list DeviceHealth }.

Definition heartbeat_ts (now : Z) (h : HeartbeatMsg) : Z := default now (hb_ts h).

(** [UPDATE device SET ... WHERE id = ...]: the table and the row count. *)
Definition update_device (id ts : Z) (st : option DeviceStatus) (db : gmap Z DeviceRow)
  : gmap Z DeviceRow * Z :=
  match db !! id with
  | None => (db, 0)
  | Some row => (<[id := mkRow ts (default (status row) st)]> db, 1)
  end.

Fixpoint apply_devices (ts : Z) (l : list DeviceHealth) (db : gmap Z DeviceRow) (touched : Z)
  : gmap Z DeviceRow * Z :=
  match l with
  | [] => (db, touched)
  | h :: l' =>
      if dh_device_id h <=? 0 then apply_devices ts l' db touched
      else
        let '(db', n) := update_device (dh_device_id h) ts (PROTO_STATUS_TO_ENUM (dh_status h)) db in
        apply_devices ts l' db' (touched + n)
  end.

Definition apply_heartbeat (now : Z) (h : HeartbeatMsg) (db : gmap Z DeviceRow)
  : gmap Z DeviceRow * Z :=
  match hb_devices h with
  | [] => (db, 0)
  | l => apply_devices (heartbeat_ts now h) l db 0
  end.

(** The handler commits, or on a database failure keeps the table. *)
Definition heartbeat_handler (db_ok : bool) (now : Z) (h : HeartbeatMsg) (db : gmap Z DeviceRow)
  : gmap Z DeviceRow :=
  if db_ok then (apply_heartbeat now h db).1 else db.

(** A device the heartbeat does not list keeps its row. *)
Lemma apply_heartbeat_frame now h db id :
  Forall (fun x => dh_device_id x <> id) (hb_devices h) ->
  (apply_heartbeat now h db).1 !! id = db !! id.
Proof.
  unfold apply_heartbeat. generalize (heartbeat_ts now h); intros ts.
  destruct (hb_devices h) as [|x l]; [done|]. generalize (x :: l); clear x l. intros l Hl.
  generalize 0. revert db. induction Hl as [|x l Hx _ IH]; intros db n; simpl; [done|].
  destruct (dh_device_id x <=? 0); [by rewrite IH|]. unfold update_device.
  destruct (db !! dh_device_id x); simpl; rewrite IH; [|done]. by rewrite lookup_insert_ne.
Qed.

(** The row of a device the heartbeat lists once. *)
Lemma apply_heartbeat_row now h db pre x post row :
  hb_devices h = pre ++ x :: post -> 0 < dh_device_id x ->
  Forall (fun y => dh_device_id y <> dh_device_id x) (pre ++ post) ->
  db !! dh_device_id x = Some row ->
  (apply_heartbeat now h db).1 !! dh_device_id x
  = Some (mkRow (heartbeat_ts now h) (default (status row) (PROTO_STATUS_TO_ENUM (dh_status x)))).
Proof.
  intros Hd Hpos [Hpre Hpost]%Forall_app Hrow. unfold apply_heartbeat.
  generalize (heartbeat_ts now h); intros ts. rewrite Hd.
  assert (Hgo : forall n, (apply_devices ts (pre ++ x :: post) db n).1 !! dh_device_id x
    = Some (mkRow ts (default (status row) (PROTO_STATUS_TO_ENUM (dh_status x))))).
  { clear Hd. revert db Hrow. induction Hpre as [|y pre Hy _ IH]; intros db Hrow n; simpl.
    - rewrite (proj2 (Z.leb_gt _ _)) by lia. unfold update_device. rewrite Hrow.
      assert (Hkeep : forall db0 n0, (apply_devices ts post db0 n0).1 !! dh_device_id x
                                     = db0 !! dh_device_id x).
      { clear -Hpost. induction Hpost as [|y l Hy _ IH]; intros db0 n0; simpl; [done|].
        destruct (dh_device_id y <=? 0); [apply IH|]. unfold update_device.
        destruct (db0 !! dh_device_id y); simpl; rewrite IH; [|done]. by rewrite lookup_insert_ne. }
      rewrite Hkeep. by rewrite lookup_insert_eq.
    - destruct (dh_device_id y <=? 0); [by apply IH|]. unfold update_device.
      destruct (db !! dh_device_id y); simpl; apply IH; [|done]. by rewrite lookup_insert_ne. }
  destruct pre; apply Hgo.
Qed.
End Heartbeat.
