(* ===== verification/RtcTelephony.v ===== *)
(** * Telephony over RTC

    [realtime/rtc_telephony.py]: the inbound pump with its noise gate, the
    outbound playout queue, cushion, mixing pump and barge-in flush, the per-call
    event stream, and the client that ties a call to its RTC channel, its edge
    and its dispatcher entry.  The RTC SDK, [audioop] and the token issuer are
    parameters; the cloud-edge server is used through the interface
    [CloudEdgeServer], which the gRPC server implements. *)

From stdpp Require Import pretty.
From S2P Require Import Prelude Bytes Audio CloudEdge.

(** ** Inbound audio *)
Module Inbound.

Record AudioFrame := mkAudio {
  af_sender_uid : pystr; af_pcm : bytes; af_sample_rate : Z; af_channels : Z }.

Definition TARGET_RATE : Z := 16000.

Section Inbound.
  (** [audioop.tomono], [audioop.ratecv] with its carried state, and
      [audioop.rms]. *)
  Context {RS : Type} (tomono : bytes -> bytes) (ratecv : bytes -> Z -> RS -> bytes * RS)
    (rms : bytes -> Z).
  Context (edge_uid : pystr) (gate_rms : Z) (gate_hangover_ms : Q).

(** Mono at the target rate. *)
Definition normalize (f : AudioFrame) (rs : RS) : bytes * RS :=
  let pcm := af_pcm f in
  let channels := if af_channels f =? 0 then 1 else af_channels f in
  let pcm := if (1 <? channels) && negb (zlen pcm =? 0) then tomono pcm else pcm in
  if (0 <? af_sample_rate f) && negb (af_sample_rate f =? TARGET_RATE) && negb (zlen pcm =? 0)
  then ratecv pcm (af_sample_rate f) rs else (pcm, rs).

(** Milliseconds of a 16 kHz mono buffer. *)
Definition frame_ms (pcm : bytes) : Q := ((inject_Z (zlen pcm) / 2) / (inject_Z TARGET_RATE / 1000))%Q.

(** The gate: the frame for the recogniser and the silence counted so far. *)
Definition gate (pcm : bytes) (silence_ms : Q) : bytes * Q :=
  if (0 <? gate_rms) && negb (zlen pcm =? 0) then
    if gate_rms <=? rms pcm then (pcm, 0%Q)
    else
      let silence := (silence_ms + frame_ms pcm)%Q in
      (if qltb gate_hangover_ms silence then zeros (zlen pcm) else pcm, silence)
  else (pcm, silence_ms).

(** The frames put on [inbound_q] and [vad_q]; both end with the sentinel. *)
Fixpoint inbound_loop (frames : list AudioFrame) (silence_ms : Q) (rs : RS)
  : list bytes * list bytes :=
  match frames with
  | [] => ([], [])
  | f :: frames' =>
      if negb (zlen (af_sender_uid f) =? 0) && negb (bool_decide (af_sender_uid f = edge_uid))
      then inbound_loop frames' silence_ms rs
      else
        let '(pcm, rs') := normalize f rs in
        let '(asr, silence) := gate pcm silence_ms in
        let '(a, v) := inbound_loop frames' silence rs' in
        (asr :: a, pcm :: v)
  end.

(** The recogniser's frame is the raw one or the same amount of silence; it is
    the raw one for a loud frame and while the hangover lasts. *)
Lemma gate_spec pcm silence_ms :
  let '(asr, silence) := gate pcm silence_ms in
  (asr = pcm \/ asr = zeros (zlen pcm))
  /\ (gate_rms <= rms pcm -> asr = pcm)
  /\ ((silence <= gate_hangover_ms)%Q -> asr = pcm).
Proof.
  unfold gate. destruct (_ && _); [|by split_and!; auto].
  destruct (gate_rms <=? rms pcm) eqn:Hr; [by split_and!; auto|]. zbool.
  destruct (qltb _ _) eqn:Hq; split_and!; auto; try lia.
  intros Hle. rewrite <-qltb_false in Hle. congruence.
Qed.

(** The two inbound lanes stay aligned: frame for frame they have the same
    sizes, the recogniser hears either the raw frame or silence, and it hears
    every frame at or above the gate level unchanged; the barge-in lane is
    never gated. *)
Theorem inbound_lanes_aligned frames silence_ms rs asr vad :
  inbound_loop frames silence_ms rs = (asr, vad) ->
  Forall2 (fun a v => zlen a = zlen v /\ (a = v \/ a = zeros (zlen v))
                      /\ (gate_rms <= rms v -> a = v)) asr vad.
Proof.
  revert silence_ms rs asr vad.
  induction frames as [|f frames IH]; intros silence_ms rs asr vad; simpl.
  { intros [= <- <-]. constructor. }
  destruct (_ && _); [apply IH|].
  destruct (normalize f rs) as [pcm rs'].
  pose proof (gate_spec pcm silence_ms) as Hg. destruct (gate pcm silence_ms) as [a sil].
  destruct (inbound_loop frames sil rs') as [la lv] eqn:Hl. intros [= <- <-].
  destruct Hg as (Hor & Hloud & _). constructor; [|by eapply IH].
  split_and!; [|done|done]. destruct Hor as [->| ->]; [done|]. apply zeros_length, zlen_nonneg.
Qed.
End Inbound.

Lemma inbound_lanes_aligned_witness :
  let f := mkAudio [] [1; 2; 3; 4] 16000 1 in
  Forall2 (fun a v => zlen a = zlen v /\ (a = v \/ a = zeros (zlen v)) /\ (1500 <= 9 -> a = v))
    [[1; 2; 3; 4]; zeros 4] [[1; 2; 3; 4]; [1; 2; 3; 4]].
Proof.
  apply (inbound_lanes_aligned (RS := unit) (fun p => p) (fun p r s => (p, s)) (fun _ => 9) [] 1500
           (1#8) [mkAudio [] [1; 2; 3; 4] 16000 1; mkAudio [] [1; 2; 3; 4] 16000 1] 0 tt).
  vm_compute. reflexivity.
Defined.
End Inbound.

(** ** Outbound playout *)
Module Playout.

Definition PLAYOUT_PREBUFFER_FRAMES : nat := 20.
Definition PLAYOUT_MAX : nat := 300.
Definition DEFAULT_BARGE_IN_FADEOUT_MS : Z := 100.

(** The feeder's locals; [released] is what it has put on the queue. *)
Record Feeder := mkFeeder {
  leftover : bytes; cushion : list bytes; primed : bool; released : list bytes }.

(** One full frame. *)
Definition feed_frame (frame : bytes) (f : Feeder) : Feeder :=
  if primed f then mkFeeder (leftover f) (cushion f) true (released f ++ [frame])
  else
    let c := cushion f ++ [frame] in
    if (PLAYOUT_PREBUFFER_FRAMES <=? length c)%nat then
      mkFeeder (leftover f) [] true (released f ++ c)
    else mkFeeder (leftover f) c false (released f).

(** [while off + FRAME_BYTES <= len(buf)]: the frames and the rest; [fuel] is
    the buffer's length. *)
Fixpoint cut_frames (fuel : nat) (buf : bytes) : list bytes * bytes :=
  match fuel with
  | O => ([], buf)
  | S n =>
      if FRAME_BYTES <=? zlen buf then
        let '(fs, rest) := cut_frames n (drop (Z.to_nat FRAME_BYTES) buf) in
        (take (Z.to_nat FRAME_BYTES) buf :: fs, rest)
      else ([], buf)
  end.

Definition feed_chunk (chunk : bytes) (f : Feeder) : Feeder :=
  let buf := leftover f ++ chunk in
  let '(fs, rest) := cut_frames (length buf) buf in
  let f' := fold_left (fun f fr => feed_frame fr f) fs f in
  mkFeeder rest (cushion f') (primed f') (released f').

(** The end of the stream: the held cushion, then the padded last frame. *)
Definition feed_end (f : Feeder) : list bytes :=
  released f ++ cushion f
  ++ (if zlen (leftover f) =? 0 then []
      else [leftover f ++ zeros (FRAME_BYTES - zlen (leftover f))]).

Definition feeder_init (ambient_active : bool) : Feeder := mkFeeder [] [] (negb ambient_active) [].

(** All frames [feed_playout] puts on the queue, in order. *)
Definition feed_playout (ambient_active : bool) (chunks : list bytes) : list bytes :=
  feed_end (fold_left (fun f c => feed_chunk c f) chunks (feeder_init ambient_active)).

(** [_flush_playout]: the queue after a barge-in; [None] is a queue with odd
    frames. *)
Definition flush_playout (fadeout_ms : Z) (q : list bytes) : option (list bytes) :=
  match q with
  | [] => Some []
  | _ =>
      if fadeout_ms <=? 0 then Some []
      else
        let n := Z.min (- ((- fadeout_ms) / 10)) (zlen q) in
        apply_fadeout (take (Z.to_nat n) q)
  end.

(** *** The queue shared with the pump

    [unfinished] is the queue's count for [join]; [inflight] is the frame the pump
    took and has not accounted for yet. *)
Record Queue := mkQueue {
  items : list bytes; unfinished : Z; inflight : option bytes; pushed : list bytes; pump_ts : Z;
  reader : option AmbientReader; gain : Q }.

#[export] Instance Queue_eta : Eta Queue := fun q =>
  mkQueue (items q) (unfinished q) (inflight q) (pushed q) (pump_ts q) (reader q) (gain q).

Definition queue_init : Queue := mkQueue [] 0 None [] 0 None 0.

Definition put (f : bytes) (q : Queue) : Queue :=
  q <| items ::= fun l => l ++ [f] |> <| unfinished ::= Z.add 1 |>.

(** [task_done]: raises when called too often. *)
Definition task_done (q : Queue) : option Queue :=
  if unfinished q <=? 0 then None else Some (q <| unfinished ::= fun n => n - 1 |>).

Inductive push_result : Type := PushOk | PushFailed | NotJoined.

(** The frame pushed this tick: the queued one, or silence, over the bed. *)
Definition pump_frame (q : Queue) : option bytes * Queue :=
  let tts := match items q with f :: _ => f | [] => SILENCE_FRAME end in
  let '(bg, rd) := match reader q with
                   | Some r => let '(b, r') := next_frame r in (b, Some r')
                   | None => (SILENCE_FRAME, None)
                   end in
  (mix_frame tts bg (gain q),
   q <| reader := rd |>
     <| items ::= tail |>
     <| inflight := head (items q) |>).

(** After [push_audio]: the timestamp advances only on success; the frame taken from the
    queue is accounted for in every case.  [true] means the pump goes on. *)
Definition pump_pushed (r : push_result) (q : Queue) : option (bool * Queue) :=
  let q1 := match r with PushOk => q <| pump_ts ::= Z.add 10 |> | _ => q end in
  let q2 := match inflight q1 with
            | Some f => match r with
                        | PushOk => q1 <| pushed ::= fun l => l ++ [f] |>
                        | _ => q1
                        end
            | None => q1
            end in
  let k := match r with NotJoined => false | _ => true end in
  match inflight q2 with
  | None => Some (k, q2)
  | Some _ =>
      match task_done q2 with
      | Some q3 => Some (k, q3 <| inflight := None |>)
      | None => None
      end
  end.

(** [_flush_playout] on the shared queue: every drained frame is marked done,
    every faded one is a new item. *)
Definition flush (fadeout_ms : Z) (q : Queue) : option Queue :=
  match flush_playout fadeout_ms (items q) with
  | None => None
  | Some faded =>
      Some (q <| items := faded |> <| unfinished := unfinished q - zlen (items q) + zlen faded |>)
  end.

Inductive step : Queue -> Queue -> Prop :=
| st_put f q : (length (items q) < PLAYOUT_MAX)%nat -> step q (put f q)
| st_take out q q' : inflight q = None -> pump_frame q = (Some out, q') -> step q q'
| st_pushed r k q q' : pump_pushed r q = Some (k, q') -> step q q'
| st_flush ms q q' : flush ms q = Some q' -> step q q'
| st_ambient r g q : step q (q <| reader := Some r |> <| gain := g |>).

(** *** Framing *)

Definition is_frame (f : bytes) : Prop := zlen f = FRAME_BYTES.

Lemma cut_frames_spec fuel buf fs rest :
  (length buf <= fuel)%nat -> cut_frames fuel buf = (fs, rest) ->
  buf = concat fs ++ rest /\ Forall is_frame fs /\ zlen rest < FRAME_BYTES.
Proof.
  rewrite FRAME_BYTES_eq. revert buf fs. induction fuel as [|n IH]; intros buf fs Hl; simpl.
  - intros [= <- <-]. destruct buf; simpl in *; [|lia]. done.
  - rewrite FRAME_BYTES_eq. destruct (320 <=? zlen buf) eqn:Hb; zbool.
    + destruct (cut_frames n _) as [fs' rest'] eqn:Hc. intros [= <- <-].
      assert (Hlen : (320 <= length buf)%nat) by (unfold zlen in Hb; lia).
      apply IH in Hc as (Hcat & Hf & Hr).
      * split_and!; [|constructor; [|done]|done].
        -- rewrite concat_cons, <-app_assoc, <-Hcat. by rewrite take_drop.
        -- unfold is_frame, zlen. rewrite FRAME_BYTES_eq, length_take. lia.
      * rewrite length_drop. lia.
    + intros [= <- <-]. by split_and!.
Qed.

(** What the feeder holds after some audio. *)
Record feeder_inv (audio : bytes) (f : Feeder) : Prop := {
  fi_audio : concat (released f ++ cushion f) ++ leftover f = audio;
  fi_frames : Forall is_frame (released f ++ cushion f);
  fi_rest : zlen (leftover f) < FRAME_BYTES;
  fi_primed : primed f = true -> cushion f = [];
  fi_held : primed f = false -> released f = []
}.

Lemma feed_frames_app fs f :
  (primed f = true -> cushion f = []) -> (primed f = false -> released f = []) ->
  let f' := fold_left (fun f fr => feed_frame fr f) fs f in
  released f' ++ cushion f' = released f ++ cushion f ++ fs
  /\ (primed f' = true -> cushion f' = []) /\ (primed f' = false -> released f' = []).
Proof.
  revert f. induction fs as [|fr fs IH]; intros f Hp Hh; simpl; [by rewrite app_nil_r|].
  assert (Hstep : released (feed_frame fr f) ++ cushion (feed_frame fr f)
                  = released f ++ cushion f ++ [fr]
    /\ (primed (feed_frame fr f) = true -> cushion (feed_frame fr f) = [])
    /\ (primed (feed_frame fr f) = false -> released (feed_frame fr f) = [])).
  { unfold feed_frame. destruct (primed f) eqn:Hpr.
    - rewrite (Hp eq_refl). simpl. by rewrite app_nil_r.
    - destruct (_ <=? _)%nat; simpl; rewrite ?app_nil_r; split_and!; auto; done. }
  destruct Hstep as (H1 & H2 & H3). destruct (IH (feed_frame fr f) H2 H3) as (H4 & H5 & H6).
  split_and!; [|done|done]. rewrite H4, app_assoc, H1, <-!app_assoc. done.
Qed.

Lemma feed_chunk_inv audio chunk f :
  feeder_inv audio f -> feeder_inv (audio ++ chunk) (feed_chunk chunk f).
Proof.
  intros [Ha Hf Hr Hp Hh]. unfold feed_chunk.
  destruct (cut_frames _ _) as [fs rest] eqn:Hc.
  apply cut_frames_spec in Hc as (Hcat & Hfs & Hrest); [|done].
  destruct (feed_frames_app fs f Hp Hh) as (H1 & H2 & H3).
  constructor; simpl; [| |done|done|done].
  - rewrite H1. rewrite <-Ha, <-app_assoc, Hcat, app_assoc, concat_app, <-!app_assoc.
    by rewrite concat_app, <-!app_assoc.
  - rewrite H1, app_assoc. by apply Forall_app.
Qed.

Lemma feed_chunks_inv chunks audio f :
  feeder_inv audio f ->
  feeder_inv (audio ++ concat chunks) (fold_left (fun f c => feed_chunk c f) chunks f).
Proof.
  revert audio f. induction chunks as [|c chunks IH]; intros audio f Hi; simpl.
  - by rewrite app_nil_r.
  - rewrite app_assoc. apply IH. by apply feed_chunk_inv.
Qed.

Lemma feed_playout_spec ambient chunks :
  exists pad, 0 <= pad < FRAME_BYTES
    /\ concat (feed_playout ambient chunks) = concat chunks ++ zeros pad
    /\ Forall is_frame (feed_playout ambient chunks).
Proof.
  pose proof (feed_chunks_inv chunks [] (feeder_init ambient)) as H.
  destruct H as [Ha Hf Hr _ _]; [by constructor; simpl; try done; destruct ambient|].
  unfold feed_playout. set (f := fold_left _ _ _) in *. simpl in Ha. unfold feed_end.
  rewrite FRAME_BYTES_eq in *. pose proof (zlen_nonneg (leftover f)).
  destruct (zlen (leftover f) =? 0) eqn:Hz; zbool.
  - exists 0. split_and!; [lia|lia| |].
    + rewrite !app_nil_r, <-Ha. destruct (leftover f); [by rewrite app_nil_r|].
      rewrite zlen_cons in Hz. pose proof (zlen_nonneg l). lia.
    + by rewrite app_nil_r.
  - exists (320 - zlen (leftover f)). split_and!; [lia|lia| |].
    + rewrite <-Ha, app_assoc, concat_app. simpl. by rewrite app_nil_r, <-!app_assoc.
    + rewrite app_assoc. apply Forall_app. split; [done|]. constructor; [|constructor].
      unfold is_frame. rewrite zlen_app, FRAME_BYTES_eq, zeros_length by lia. lia.
Qed.

(** Frames of one size are determined by their concatenation. *)
Lemma frames_unique l k :
  Forall is_frame l -> Forall is_frame k -> concat l = concat k -> l = k.
Proof.
  intros Hl. revert k. induction Hl as [|f l Hf _ IH]; intros k Hk Heq.
  - destruct Hk as [|g k Hg _]; [done|]. unfold is_frame in Hg. rewrite FRAME_BYTES_eq in Hg.
    destruct g; [unfold zlen in Hg; simpl in Hg; lia|done].
  - destruct Hk as [|g k Hg Hk].
    { unfold is_frame in Hf. rewrite FRAME_BYTES_eq in Hf.
      destruct f; [unfold zlen in Hf; simpl in Hf; lia|done]. }
    simpl in Heq. unfold is_frame, zlen in Hf, Hg.
    apply app_inj_1 in Heq as [-> Heq]; [|lia]. f_equal. by apply IH.
Qed.

(** C39: However the synthesiser chunks its audio, and with or without the background's
    jitter cushion, the same frames reach the playout queue: whole 10 ms frames whose
    content is the audio in order, with less than one frame of silence at the end. *)
Theorem playout_frames_are_the_audio ambient chunks :
  (exists pad, 0 <= pad < FRAME_BYTES
     /\ concat (feed_playout ambient chunks) = concat chunks ++ zeros pad)
  /\ Forall is_frame (feed_playout ambient chunks)
  /\ feed_playout ambient chunks = feed_playout false [concat chunks].
Proof.
  destruct (feed_playout_spec ambient chunks) as (p1 & Hp1 & H1 & Hf1).
  destruct (feed_playout_spec false [concat chunks]) as (p2 & Hp2 & H2 & Hf2).
  split_and!; [by exists p1|done|]. apply frames_unique; [done..|]. rewrite H1, H2. simpl.
  rewrite app_nil_r. f_equal. f_equal.
  assert (Hmod : forall l, Forall is_frame l -> zlen (concat l) mod FRAME_BYTES = 0).
  { intros l. rewrite FRAME_BYTES_eq.
    induction 1 as [|f l Hf _ IH]; [done|]. simpl. unfold is_frame in Hf.
    rewrite zlen_app, Hf, FRAME_BYTES_eq. rewrite <-Zplus_mod_idemp_r, IH. done. }
  pose proof (Hmod _ Hf1) as M1. pose proof (Hmod _ Hf2) as M2.
  rewrite H1 in M1. rewrite H2 in M2. simpl in M2. rewrite app_nil_r in M2.
  rewrite zlen_app, zeros_length in M1, M2 by lia. rewrite FRAME_BYTES_eq in *.
  apply Z.mod_divide in M1 as [a Ha]; [|lia]. apply Z.mod_divide in M2 as [b Hb]; [|lia]. lia.
Qed.

(** *** Accounting *)

Definition outstanding (q : Queue) : Z :=
  zlen (items q) + match inflight q with Some _ => 1 | None => 0 end.

Lemma step_accounting q q' : unfinished q = outstanding q -> step q q' -> unfinished q' = outstanding q'.
Proof.
  unfold outstanding. intros Hu Hs. destruct Hs as [f q Hl|out q q' Hi Hp|r k q q' Hp|ms q q' Hf|r g q].
  - unfold put. simpl. rewrite zlen_app, Hu. unfold zlen. simpl. lia.
  - unfold pump_frame in Hp.
    destruct (reader q) as [rd0|]; [destruct (next_frame rd0)|]; injection Hp as _ <-;
      simpl; rewrite Hu, Hi; destruct (items q); simpl; rewrite ?zlen_cons; lia.
  - unfold pump_pushed, task_done in Hp.
    destruct r, (inflight q) eqn:Hin; simpl in Hp; rewrite ?Hin in Hp; simpl in Hp;
      repeat case_match; simplify_eq; simpl in *; rewrite ?Hin; simpl; lia.
  - unfold flush in Hf. destruct (flush_playout ms (items q)); [|done]. injection Hf as <-.
    simpl. rewrite Hu. lia.
  - done.
Qed.

(** C38: The playout accounting never goes out of balance, whatever mix of feeding, pump
    ticks, failed pushes and barge-in flushes: [task_done] is never called too
    often, and [join] is released exactly when nothing is queued and nothing is
    in the pump's hands. *)
Theorem playout_accounting q :
  rtc step queue_init q ->
  (forall r, exists k q', pump_pushed r q = Some (k, q'))
  /\ (unfinished q = 0 <-> items q = [] /\ inflight q = None).
Proof.
  intros Hr. assert (Hu : unfinished q = outstanding q).
  { eapply (rtc_invariant step (fun q => unfinished q = outstanding q));
      [apply step_accounting|exact Hr|done]. }
  unfold outstanding in Hu. pose proof (zlen_nonneg (items q)). split.
  - intros r. unfold pump_pushed, task_done.
    destruct r, (inflight q) eqn:Hin; simpl; rewrite ?Hin; simpl; eauto;
      (destruct (unfinished q <=? 0) eqn:Hz; [zbool; lia|eauto]).
  - rewrite Hu. split; [|by intros [-> ->]]. intros H0.
    destruct (items q) as [|f l].
    + split; [done|]. destruct (inflight q); [unfold zlen in H0; simpl in H0; lia|done].
    + rewrite zlen_cons in H0. pose proof (zlen_nonneg l). destruct (inflight q); lia.
Qed.

Lemma playout_accounting_witness :
  exists q, rtc step queue_init q /\ items q = [] /\ unfinished q = 1
    /\ (unfinished q = 0 <-> items q = [] /\ inflight q = None).
Proof.
  assert (Hrun : exists q, rtc step queue_init q /\ items q = [] /\ unfinished q = 1).
  { eexists. split_and!.
    - eapply rtc_l; [apply (st_put [1; 2]); simpl; unfold PLAYOUT_MAX; lia|].
      eapply rtc_l; [eapply st_take; reflexivity|]. apply rtc_refl.
    - reflexivity.
    - reflexivity. }
  destruct Hrun as (q & Hr & Hi & Hu). exists q. split_and!; [done|done|done|].
  destruct (playout_accounting q Hr) as [_ H]. exact H.
Defined.

(** A barge-in leaves at most the fade window queued. *)
Lemma flush_playout_window ms q :
  0 < ms -> Forall is_frame q -> Forall frame_ok q ->
  exists faded, flush_playout ms q = Some faded
    /\ zlen faded = Z.min (- ((- ms) / 10)) (zlen q).
Proof.
  intros Hms Hf Hok. unfold flush_playout. destruct q as [|f q].
  { exists []. split; [done|]. unfold zlen. simpl.
    assert (- (- ms / 10) >= 0); [|lia].
    pose proof (Z.div_lt_upper_bound (- ms) 10 0 ltac:(lia) ltac:(lia)). lia. }
  rewrite (proj2 (Z.leb_gt _ _)) by lia. set (n := Z.min _ _).
  assert (Hn : 0 <= n <= zlen (f :: q)).
  { pose proof (Z.div_lt_upper_bound (- ms) 10 0 ltac:(lia) ltac:(lia)).
    pose proof (zlen_nonneg (f :: q)). lia. }
  unfold apply_fadeout. destruct (_ <=? 1).
  - eexists. split; [done|]. unfold zlen in *. rewrite length_take. lia.
  - destruct (fade_frames_spec (total_samples (take (Z.to_nat n) (f :: q)))
                (take (Z.to_nat n) (f :: q)) 0) as (out & ss & -> & Hlen & _).
    { by apply Forall_take. }
    exists out. split; [done|]. apply Forall2_length in Hlen. unfold zlen in *.
    rewrite <-Hlen, length_take. lia.
Qed.
End Playout.

(** ** The cloud-edge server a client relies on *)

Inductive Cloud2Edge : Type :=
| DialCommand (call_id : string) (device_id : Z) (number : pystr) (rtc_channel : string)
    (rtc_token rtc_uid_edge rtc_uid_engine : pystr)
| CancelCommand (call_id : string) (reason : string).

(** [send_to_edge] refuses ([None], [EdgeNotConnected]) or accepts, and never
    changes which edge owns a device. *)
Class CloudEdgeServer (S : Type) := {
  ces_send : edge_id -> Cloud2Edge -> S -> option S;
  ces_resolve : Z -> S -> option edge_id;
  ces_send_resolve : forall e m s s' d,
    ces_send e m s = Some s' -> ces_resolve d s' = ces_resolve d s
}.

#[export] Program Instance grpc_cloud_edge : CloudEdgeServer (Grpc.Server (Msg := Cloud2Edge)) := {
  ces_send := Grpc.send_to_edge;
  ces_resolve := Grpc.resolve_edge_for_device
}.
Next Obligation. by intros e m s s' d (x & st & _ & _ & _ & _ & ->)%Grpc.send_conn. Qed.

(** ** Calls and the client *)
Module Client.

Inductive TelEvent : Type :=
| EvConnected | EvRemoteHangup (detail : pystr) | EvDeviceError (detail : pystr) | EvLocalHangup.

Definition terminal (e : TelEvent) : bool := match e with EvConnected => false | _ => true end.

(** [HangupCause] of the protocol. *)
Inductive HangupCause : Type :=
| UNSPECIFIED | NO_ANSWER | USER_BUSY | NETWORK_OUT_OF_ORDER | NORMAL_CLEARING | CALL_REJECTED
| CAUSE_OTHER (n : Z).

Definition HANGUP_CAUSE_DETAIL (c : HangupCause) : pystr :=
  u8 match c with
     | UNSPECIFIED => "unspecified" | NO_ANSWER => "no_answer" | USER_BUSY => "user_busy"
     | NETWORK_OUT_OF_ORDER => "network_out_of_order" | NORMAL_CLEARING => "normal_clearing"
     | CALL_REJECTED => "call_rejected" | CAUSE_OTHER _ => "unspecified"
     end.

(** The [kind] of a [CallEvent]. *)
Inductive CallEvent : Type :=
| CeConnected | CeRemoteHangup (cause : HangupCause) | CeDeviceError (code : pystr)
| CeRinging | CeUserSpeakingStarted | CeUserSpeakingStopped | CeUnknown.

Record DialAck := mkAck { ack_accepted : bool; ack_reason : pystr }.

(** What the dispatcher's callbacks of a call receive. *)
Inductive payload : Type := PEvent (e : CallEvent) | PAck (a : DialAck) | POther.

(** [None] in [cs_events] is the sentinel. *)
Record CallSt := mkCall {
  cs_edge_uid : pystr;
  cs_device_id : Z;
  cs_edge : edge_id;
  cs_events : list (option TelEvent);
  cs_inbound_pump : bool;
  cs_outbound_pump : bool;
  cs_closed : bool
}.

#[export] Instance CallSt_eta : Eta CallSt := fun c =>
  mkCall (cs_edge_uid c) (cs_device_id c) (cs_edge c) (cs_events c) (cs_inbound_pump c)
    (cs_outbound_pump c) (cs_closed c).

Definition put_event (e : TelEvent) (c : CallSt) : CallSt :=
  c <| cs_events ::= fun q => q ++ [Some e] |>.

(** The call-local part of [close_iterators]; leaving the channel is
    [leave_channel] below. *)
Definition close_iterators (c : CallSt) : CallSt :=
  if cs_closed c then c
  else c <| cs_closed := true |> <| cs_events ::= fun q => q ++ [None] |>
         <| cs_outbound_pump := false |> <| cs_inbound_pump := false |>.

Definition on_call_event (e : CallEvent) (c : CallSt) : CallSt :=
  match e with
  | CeConnected => put_event EvConnected c
  | CeRemoteHangup cause =>
      close_iterators (put_event (EvRemoteHangup (HANGUP_CAUSE_DETAIL cause)) c)
  | CeDeviceError code => close_iterators (put_event (EvDeviceError code) c)
  | CeRinging | CeUserSpeakingStarted | CeUserSpeakingStopped => c
  | CeUnknown => c
  end.

Definition on_dial_ack (a : DialAck) (c : CallSt) : CallSt :=
  if ack_accepted a then c
  else close_iterators
         (put_event (EvRemoteHangup (match ack_reason a with [] => u8 "dial_rejected" | r => r end)) c).

(** What the [events] iterator yields from the queue, and whether it ended. *)
Fixpoint events_iter (q : list (option TelEvent)) : list TelEvent * bool :=
  match q with
  | [] => ([], false)
  | None :: _ => ([], true)
  | Some e :: q' => let '(es, fin) := events_iter q' in (e :: es, fin)
  end.

Record Creds := mkCreds { cr_token : pystr; cr_user_id : pystr }.

Section Client.
  Context {S : Type} `{CloudEdgeServer S}.
  (** [sign_for_call]: the engine's and the edge's credentials. *)
  Context (sign_for_call : string -> Creds * Creds).

Record Client := mkClient {
  legacy_edge : edge_id;                  (* empty: resolve by device *)
  calls : gmap Z CallSt;
  pending_devices : gmap Z Z;
  dispatcher : Dispatcher.Dispatcher;
  grpc : S;
  joined : gset Z                         (* calls whose RTC channel the engine is in *)
}.

#[export] Instance Client_eta : Eta Client := fun c =>
  mkClient (legacy_edge c) (calls c) (pending_devices c) (dispatcher c) (grpc c) (joined c).

Inductive DialError : Type :=
| AlreadyActive | JoinFailed | NoEdgeForDevice | DispatcherConflict | EdgeNotConnected
| InboundPumpError.

Definition sid (call_id : Z) : string := pretty call_id.

(** [leave]: after the iterators of a call are closed its channel is left. *)
Definition leave_channel (call_id : Z) (k : Client) : Client := k <| joined ::= fun j => j ∖ {[call_id]} |>.

Definition purge_call (call_id : Z) (k : Client) : Client :=
  match calls k !! call_id with
  | None => k
  | Some _ =>
      k <| calls ::= delete call_id |> <| dispatcher ::= Dispatcher.deregister (sid call_id) |>
  end.

(** [join_ok] is whether the RTC join succeeds, [pump_ok] whether the inbound pump's task
    ends without raising: [close_iterators] awaits it and passes its exception on, before
    [_purge_call]. *)
Definition dial (join_ok pump_ok : bool) (call_id : Z) (phone : pystr) (k : Client)
  : option DialError * Client :=
  if bool_decide (is_Some (calls k !! call_id)) then (Some AlreadyActive, k)
  else
    let '(engine, edge) := sign_for_call (sid call_id) in
    if negb join_ok then (Some JoinFailed, k)
    else
      let k1 := k <| joined ::= fun j => {[call_id]} ∪ j |> in
      let device := default 0 (pending_devices k1 !! call_id) in
      let k2 := k1 <| pending_devices ::= delete call_id |> in
      match (match legacy_edge k2 with
             | [] => ces_resolve device (grpc k2)
             | e => Some e
             end) with
      | None => (Some NoEdgeForDevice, k2)
      | Some target =>
          let st := mkCall (cr_user_id edge) device target [] true false false in
          let k3 := k2 <| calls ::= <[call_id := st]> |> in
          match Dispatcher.register (sid call_id) target true (dispatcher k3) with
          | Err _ => (Some DispatcherConflict, k3)
          | Ok d =>
              let k4 := k3 <| dispatcher := d |> in
              match ces_send target
                      (DialCommand (sid call_id) device phone (sid call_id) (cr_token edge)
                         (cr_user_id edge) (cr_user_id engine)) (grpc k4) with
              | Some s => (None, k4 <| grpc := s |>)
              | None =>
                  let st' := close_iterators (put_event (EvDeviceError (u8 "edge_disconnected")) st) in
                  let k5 := leave_channel call_id (k4 <| calls ::= <[call_id := st']> |>) in
                  if pump_ok then (Some EdgeNotConnected, purge_call call_id k5)
                  else (Some InboundPumpError, k5)
              end
          end
      end.

(** A call already closed does not wait for its pump again. *)
Definition hangup (pump_ok : bool) (call_id : Z) (k : Client) : Client :=
  match calls k !! call_id with
  | None => k
  | Some st =>
      let k1 := match ces_send (cs_edge st) (CancelCommand (sid call_id) "local hangup") (grpc k) with
                | Some s => k <| grpc := s |>
                | None => k
                end in
      let st' := close_iterators (put_event EvLocalHangup st) in
      let k2 := leave_channel call_id (k1 <| calls ::= <[call_id := st']> |>) in
      if pump_ok || cs_closed st then purge_call call_id k2 else k2
  end.

Definition set_device_for_session (call_id device : Z) (k : Client) : Client :=
  k <| pending_devices ::= <[call_id := device]> |>.

(** A frame of an edge, through the dispatcher to the call's callbacks. *)
Definition apply_call (call_id : Z) (f : CallSt -> CallSt) (k : Client) : Client :=
  match calls k !! call_id with
  | None => k
  | Some st =>
      let st' := f st in
      let k1 := k <| calls ::= <[call_id := st']> |> in
      if cs_closed st' && negb (cs_closed st) then leave_channel call_id k1 else k1
  end.

Definition edge_frame (from : edge_id) (call_id : Z) (p : payload) (k : Client) : Client :=
  let msg := match p with
             | PEvent _ => Dispatcher.FCallEvent (sid call_id) p
             | PAck _ => Dispatcher.FDialAck (sid call_id) p
             | POther => Dispatcher.FEmpty
             end in
  match Dispatcher.handle_edge_message from msg (dispatcher k) with
  | Some (Dispatcher.OnCallEvent _ (PEvent e)) => apply_call call_id (on_call_event e) k
  | Some (Dispatcher.OnDialAck _ (PAck a)) => apply_call call_id (on_dial_ack a) k
  | _ => k
  end.

(** [audio_out] and [configure_ambient] only start the pump of a live call. *)
Definition start_outbound_pump (call_id : Z) (k : Client) : Client :=
  k <| calls ::= alter (fun c => c <| cs_outbound_pump := true |>) call_id |>.

Inductive step : Client -> Client -> Prop :=
| st_dial ok pump c phone k err k' : dial ok pump c phone k = (err, k') -> step k k'
| st_hangup pump c k : step k (hangup pump c k)
| st_frame from c p k : step k (edge_frame from c p k)
| st_device c d k : step k (set_device_for_session c d k)
| st_pump c k : step k (start_outbound_pump c k)
| st_server s k : step k (k <| grpc := s |>).

(** *** Invariant *)

(** Events up to the sentinel, which follows a terminal event; what comes after
    it is never read. *)
Definition events_ok (c : CallSt) : Prop :=
  exists evs late,
    cs_events c = map Some evs ++ (if cs_closed c then None :: map Some late else [])
    /\ (cs_closed c = true -> exists e, last evs = Some e /\ terminal e = true).

Record client_inv (k : Client) : Prop := {
  ci_calls : forall c st, calls k !! c = Some st ->
    exists en, Dispatcher.sessions (dispatcher k) !! sid c = Some en
               /\ Dispatcher.en_edge en = cs_edge st /\ Dispatcher.en_has_dial_ack en = true;
  ci_sessions : forall x en, Dispatcher.sessions (dispatcher k) !! x = Some en ->
    exists c st, x = sid c /\ calls k !! c = Some st;
  ci_events : forall c st, calls k !! c = Some st -> events_ok st;
  ci_joined : forall c st, calls k !! c = Some st -> cs_closed st = false -> c ∈ joined k
}.

Lemma sid_inj c c' : sid c = sid c' -> c = c'.
Proof. apply (inj pretty). Qed.

Lemma events_iter_ok c :
  events_ok c ->
  let '(es, fin) := events_iter (cs_events c) in
  fin = cs_closed c /\ (fin = true -> exists e, last es = Some e /\ terminal e = true).
Proof.
  intros (evs & late & -> & Ht).
  assert (Hit : events_iter (map Some evs ++ (if cs_closed c then None :: map Some late else []))
                = (evs, cs_closed c)).
  { clear Ht. induction evs as [|e evs IH]; simpl; [by destruct (cs_closed c)|]. by rewrite IH. }
  rewrite Hit. by split.
Qed.

Lemma put_event_ok e c : events_ok c -> events_ok (put_event e c).
Proof.
  intros (evs & late & He & Ht). unfold events_ok, put_event. simpl. rewrite He.
  destruct (cs_closed c).
  - exists evs, (late ++ [e]). rewrite map_app, <-app_assoc. done.
  - exists (evs ++ [e]), []. rewrite map_app, !app_nil_r. done.
Qed.

Lemma close_after_terminal e c : terminal e = true -> events_ok c -> events_ok (close_iterators (put_event e c)).
Proof.
  intros Hte Hok. pose proof (put_event_ok e c Hok) as Hok'. unfold close_iterators.
  destruct (cs_closed (put_event e c)) eqn:Hc; [done|].
  destruct Hok as (evs & late & He & _). unfold events_ok. simpl in *. rewrite He, Hc.
  exists (evs ++ [e]), []. rewrite map_app, app_nil_r. split; [done|].
  intros _. exists e. by rewrite last_snoc.
Qed.

Lemma on_call_event_ok e c : events_ok c -> events_ok (on_call_event e c).
Proof. destruct e; simpl; auto using put_event_ok, close_after_terminal. Qed.

Lemma on_dial_ack_ok a c : events_ok c -> events_ok (on_dial_ack a c).
Proof. unfold on_dial_ack. destruct (ack_accepted a); auto using close_after_terminal. Qed.

Lemma close_put_edge e c : cs_edge (close_iterators (put_event e c)) = cs_edge c.
Proof. unfold close_iterators. by destruct (cs_closed _). Qed.

Lemma close_put_closed e c : cs_closed (close_iterators (put_event e c)) = true.
Proof. unfold close_iterators. by destruct (cs_closed (put_event e c)) eqn:H0. Qed.

(** Changing one call in place. *)
Lemma update_call_inv k c st st' (j : gset Z) :
  client_inv k -> calls k !! c = Some st -> cs_edge st' = cs_edge st -> events_ok st' ->
  (cs_closed st' = false -> c ∈ j) -> (forall x, x <> c -> x ∈ joined k -> x ∈ j) ->
  client_inv (k <| calls ::= <[c := st']> |> <| joined := j |>).
Proof.
  intros [H1 H2 H3 H4] Hc He Hok Hj Hk. constructor; simpl.
  - intros x stx [[<- <-]|[Hne Hx]]%lookup_insert_Some; [rewrite He|]; eauto.
  - intros x en Hx. destruct (H2 x en Hx) as (c' & st0 & -> & Hc').
    destruct (decide (c = c')) as [->|Hne]; [exists c', st'|exists c', st0]; by simplify_map_eq.
  - intros x stx [[<- <-]|[Hne Hx]]%lookup_insert_Some; eauto.
  - intros x stx [[<- <-]|[Hne Hx]]%lookup_insert_Some Hcl; [auto|]. apply Hk; eauto.
Qed.

Lemma purge_call_inv c k : client_inv k -> client_inv (purge_call c k).
Proof.
  intros [H1 H2 H3 H4]. unfold purge_call. destruct (calls k !! c) as [st|] eqn:Hc; [|done].
  constructor; simpl.
  - intros x stx [Hne Hx]%lookup_delete_Some. destruct (H1 x stx Hx) as (en & ? & ? & ?).
    exists en. rewrite lookup_delete_ne; [done|]. by intros ?%sid_inj.
  - intros x en [Hne Hx]%lookup_delete_Some. destruct (H2 x en Hx) as (c' & st0 & -> & Hc').
    exists c', st0. split; [done|]. rewrite lookup_delete_ne; [done|]. congruence.
  - intros x stx [Hne Hx]%lookup_delete_Some. eauto.
  - intros x stx [Hne Hx]%lookup_delete_Some. eauto.
Qed.

(** Only the calls, the bindings and the joined channels matter. *)
Lemma client_inv_ext k k' :
  calls k' = calls k -> dispatcher k' = dispatcher k -> joined k ⊆ joined k' ->
  client_inv k -> client_inv k'.
Proof.
  intros Hc Hd Hj [H1 H2 H3 H4]. constructor; rewrite ?Hc, ?Hd; eauto.
Qed.

Lemma new_call_inv k c st d :
  client_inv k -> calls k !! c = None -> events_ok st -> c ∈ joined k ->
  Dispatcher.register (sid c) (cs_edge st) true (dispatcher k) = Ok d ->
  client_inv (k <| calls ::= <[c := st]> |> <| dispatcher := d |>).
Proof.
  intros [H1 H2 H3 H4] Hc Hok Hj. unfold Dispatcher.register.
  destruct (Dispatcher.sessions (dispatcher k) !! sid c) eqn:Hs; [done|]. intros [= <-].
  constructor; simpl.
  - intros x stx [[<- <-]|[Hne Hx]]%lookup_insert_Some.
    + eexists. by rewrite lookup_insert_eq.
    + destruct (H1 x stx Hx) as (en & ? & ? & ?). exists en.
      rewrite lookup_insert_ne; [done|]. by intros ?%sid_inj.
  - intros x en [[<- <-]|[Hne Hx]]%lookup_insert_Some.
    + exists c, st. by simplify_map_eq.
    + destruct (H2 x en Hx) as (c' & st0 & -> & Hc'). exists c', st0. split; [done|].
      rewrite lookup_insert_ne; [done|]. congruence.
  - intros x stx [[<- <-]|[Hne Hx]]%lookup_insert_Some; eauto.
  - intros x stx [[<- <-]|[Hne Hx]]%lookup_insert_Some; eauto.
Qed.

(** Closing a call: event, sentinel, channel left. *)
Lemma retire_inv k c st e :
  client_inv k -> calls k !! c = Some st -> terminal e = true ->
  client_inv (leave_channel c (k <| calls ::= <[c := close_iterators (put_event e st)]> |>)).
Proof.
  intros Hi Hc Hte.
  pose proof (update_call_inv k c st (close_iterators (put_event e st)) (joined k ∖ {[c]}) Hi Hc) as H0.
  apply H0.
  - apply close_put_edge.
  - apply close_after_terminal; [done|]. by eapply ci_events.
  - by rewrite close_put_closed.
  - set_solver.
Qed.

Lemma dial_inv ok pump c phone k err k' :
  client_inv k -> dial ok pump c phone k = (err, k') ->
  client_inv k' /\ err <> Some DispatcherConflict.
Proof.
  intros Hi. unfold dial. case_bool_decide as Hact; [by intros [= <- <-]|].
  destruct (sign_for_call (sid c)) as [engine edge].
  destruct (negb ok); [by intros [= <- <-]|]. simpl.
  assert (Hc : calls k !! c = None) by (by apply eq_None_not_Some).
  set (k2 := mkClient (legacy_edge k) (calls k) (delete c (pending_devices k)) (dispatcher k) (grpc k)
               ({[c]} ∪ joined k)).
  assert (Hi2 : client_inv k2) by (apply (client_inv_ext k); try done; simpl; set_solver).
  assert (Hfree : Dispatcher.sessions (dispatcher k) !! sid c = None).
  { destruct (Dispatcher.sessions (dispatcher k) !! sid c) eqn:Hs; [|done].
    destruct (ci_sessions k Hi _ _ Hs) as (c' & st & Hsid%sid_inj & Hst). subst. congruence. }
  destruct (match legacy_edge k with [] => _ | _ => _ end) as [target|]; [|by intros [= <- <-]].
  set (device := default 0 _).
  destruct (Dispatcher.register (sid c) target true (dispatcher k)) as [d|] eqn:Hreg;
    [|unfold Dispatcher.register in Hreg; by rewrite Hfree in Hreg].
  set (st := mkCall (cr_user_id edge) device target [] true false false).
  assert (Hi4 : client_inv (k2 <| calls ::= <[c := st]> |> <| dispatcher := d |>)).
  { apply new_call_inv; try done; [|simpl; set_solver]. exists [], []. by split. }
  destruct (ces_send _ _ _) as [s'|].
  - intros [= <- <-]. split; [|done]. by apply (client_inv_ext (k2 <| calls ::= <[c := st]> |> <| dispatcher := d |>)).
  - assert (Hst : calls (k2 <| calls ::= <[c := st]> |> <| dispatcher := d |>) !! c = Some st)
      by (simpl; apply lookup_insert_eq).
    pose proof (retire_inv _ c st (EvDeviceError (u8 "edge_disconnected")) Hi4 Hst eq_refl) as Hr.
    destruct pump; intros [= <- <-]; (split; [|done]); [by apply purge_call_inv|exact Hr].
Qed.

Lemma hangup_inv pump c k : client_inv k -> client_inv (hangup pump c k).
Proof.
  intros Hi. unfold hangup. destruct (calls k !! c) as [st|] eqn:Hc; [|done].
  set (k1 := match ces_send _ _ _ with Some s => _ | None => k end).
  assert (Hr : client_inv (leave_channel c
                 (k1 <| calls ::= <[c := close_iterators (put_event EvLocalHangup st)]> |>))).
  { unfold k1. destruct (ces_send _ _ _) as [s'|]; apply (retire_inv _ c st); try done.
    by apply (client_inv_ext k). }
  destruct (_ || _); [by apply purge_call_inv|done].
Qed.

Lemma apply_call_inv c f k :
  (forall st, cs_edge (f st) = cs_edge st) -> (forall st, events_ok st -> events_ok (f st)) ->
  (forall st, cs_closed st = true -> cs_closed (f st) = true) ->
  client_inv k -> client_inv (apply_call c f k).
Proof.
  intros He Hok Hcl Hi. unfold apply_call. destruct (calls k !! c) as [st|] eqn:Hc; [|done].
  destruct (cs_closed (f st) && negb (cs_closed st)) eqn:Hb.
  - apply andb_true_iff in Hb as [Hb _].
    apply (update_call_inv k c st (f st) (joined k ∖ {[c]})); auto; [|congruence|set_solver].
    apply Hok. by eapply ci_events.
  - apply (update_call_inv k c st (f st) (joined k)); auto.
    + apply Hok. by eapply ci_events.
    + intros Hf. eapply ci_joined; [done|done|]. destruct (cs_closed st) eqn:Hs; [|done].
      by rewrite (Hcl st Hs) in Hf.
Qed.

Lemma edge_frame_inv from c p k : client_inv k -> client_inv (edge_frame from c p k).
Proof.
  intros Hi. unfold edge_frame.
  destruct (Dispatcher.handle_edge_message _ _ _) as [[? [e| |]|? [|a|]| |]|]; try done.
  - apply apply_call_inv; [| |  |done].
    + intros st. by destruct e; simpl; rewrite ?close_put_edge.
    + intros st. apply on_call_event_ok.
    + intros st. by destruct e; simpl; rewrite ?close_put_closed.
  - apply apply_call_inv; [| |  |done].
    + intros st. unfold on_dial_ack. by destruct (ack_accepted a); rewrite ?close_put_edge.
    + intros st. apply on_dial_ack_ok.
    + intros st. unfold on_dial_ack. by destruct (ack_accepted a); rewrite ?close_put_closed.
Qed.

Lemma client_step_inv k k' : client_inv k -> step k k' -> client_inv k'.
Proof.
  intros Hi Hs. destruct Hs as [ok pump c phone k err k' Hd|pump c k|from c p k|c d k|c k|s k].
  - by eapply dial_inv.
  - by apply hangup_inv.
  - by apply edge_frame_inv.
  - by apply (client_inv_ext k).
  - destruct (calls k !! c) as [st|] eqn:Hc.
    + replace (start_outbound_pump c k) with
        (k <| calls ::= <[c := st <| cs_outbound_pump := true |>]> |> <| joined := joined k |>).
      * apply (update_call_inv k c st); try done.
        -- by eapply ci_events in Hc as (evs & late & He & Ht); [exists evs, late|].
        -- intros Hcl. by eapply ci_joined.
      * unfold start_outbound_pump. destruct k. simpl in *. f_equal. apply map_eq. intros x.
        destruct (decide (x = c)) as [->|Hne]; [|by rewrite lookup_insert_ne, lookup_alter_ne].
        by rewrite lookup_insert_eq, lookup_alter_eq, Hc.
    + unfold start_outbound_pump. apply (client_inv_ext k); try done. simpl.
      apply map_eq. intros x. destruct (decide (x = c)) as [->|Hne]; [|by rewrite lookup_alter_ne].
      by rewrite lookup_alter_eq, Hc.
  - by apply (client_inv_ext k).
Qed.

Definition client_init (legacy : edge_id) (s : S) : Client :=
  mkClient legacy ∅ ∅ (Dispatcher.mkDispatcher ∅ false false) s ∅.

(** C10: Whatever calls are dialled, refused, hung up or ended by the edge, in any order
    and with any server behaviour: every live call is bound in the dispatcher to
    its own edge and nothing else is bound, so a dial never fails on a stale
    binding; and a call's event stream ends exactly when the call is closed, its
    last event being a terminal one. *)
Theorem client_and_dispatcher_agree legacy s k :
  rtc step (client_init legacy s) k ->
  (forall c st, calls k !! c = Some st ->
     exists en, Dispatcher.sessions (dispatcher k) !! sid c = Some en
                /\ Dispatcher.en_edge en = cs_edge st)
  /\ (forall x, is_Some (Dispatcher.sessions (dispatcher k) !! x) ->
        exists c, x = sid c /\ is_Some (calls k !! c))
  /\ (forall ok pump c phone, (dial ok pump c phone k).1 <> Some DispatcherConflict)
  /\ (forall c st, calls k !! c = Some st ->
        let '(es, fin) := events_iter (cs_events st) in
        fin = cs_closed st /\ (fin = true -> exists e, last es = Some e /\ terminal e = true)).
Proof.
  intros Hr. assert (Hi : client_inv k).
  { eapply rtc_invariant; [apply client_step_inv|exact Hr|].
    constructor; simpl; intros *; rewrite lookup_empty; done. }
  split_and!.
  - intros c st Hc. destruct (ci_calls k Hi c st Hc) as (en & ? & ? & _). eauto.
  - intros x [en Hx]. destruct (ci_sessions k Hi x en Hx) as (c & st & -> & Hc). eauto.
  - intros ok pump c phone. destruct (dial ok pump c phone k) as [err k'] eqn:Hd.
    by destruct (dial_inv ok pump c phone k err k' Hi Hd).
  - intros c st Hc. apply events_iter_ok. by eapply ci_events.
Qed.

(** A dial whose device no edge owns fails after the RTC join: the channel stays
    joined with no call to leave it, and the device hint is gone. *)
Lemma dial_without_edge_leaks_channel c phone k :
  legacy_edge k = [] -> calls k !! c = None ->
  ces_resolve (default 0 (pending_devices k !! c)) (grpc k) = None ->
  exists k', dial true true c phone k = (Some NoEdgeForDevice, k')
    /\ c ∈ joined k' /\ calls k' !! c = None /\ pending_devices k' !! c = None.
Proof.
  intros Hl Hc Hr. unfold dial. rewrite bool_decide_eq_false_2 by (rewrite Hc; by intros []).
  destruct (sign_for_call (sid c)) as [engine edge]. simpl. rewrite Hl, Hr.
  eexists. split_and!; [done|simpl; set_solver|done|simpl; apply lookup_delete_eq].
Qed.

(** A call the remote side ended keeps its slot and its binding until somebody
    calls [hangup]. *)
Lemma remote_hangup_keeps_call c st e k :
  calls k !! c = Some st ->
  exists st', calls (apply_call c (on_call_event (CeRemoteHangup e)) k) !! c = Some st'
    /\ cs_closed st' = true
    /\ dispatcher (apply_call c (on_call_event (CeRemoteHangup e)) k) = dispatcher k.
Proof.
  intros Hc. unfold apply_call. rewrite Hc. simpl.
  exists (close_iterators (put_event (EvRemoteHangup (HANGUP_CAUSE_DETAIL e)) st)).
  rewrite close_put_closed. simpl. destruct (negb _); simpl; by rewrite lookup_insert_eq.
Qed.

(** A hangup of a live call whose inbound pump raised never reaches [_purge_call]: the call
    keeps its slot and its dispatcher binding. *)
Lemma pump_error_keeps_call c st k :
  calls k !! c = Some st -> cs_closed st = false ->
  is_Some (calls (hangup false c k) !! c) /\ dispatcher (hangup false c k) = dispatcher k.
Proof.
  intros Hc Hcl. unfold hangup. rewrite Hc, Hcl. simpl.
  destruct (ces_send _ _ _); simpl; rewrite lookup_insert_eq; split; try done; by eexists.
Qed.
End Client.

Lemma client_and_dispatcher_agree_witness :
  exists k, rtc (step (S := Grpc.Server) (fun _ => (mkCreds [] [], mkCreds [] [])))
              (client_init (u8 "e1") (Grpc.register_stream 0 (u8 "e1")
                 (Grpc.mkServer {[0%nat := Grpc.new_stream (u8 "e1")]} ∅ ∅))) k
    /\ is_Some (calls k !! 7)
    /\ forall c st, calls k !! c = Some st ->
         exists en, Dispatcher.sessions (dispatcher k) !! sid c = Some en
                    /\ Dispatcher.en_edge en = cs_edge st.
Proof.
  set (s0 := Grpc.register_stream 0 (u8 "e1") (Grpc.mkServer {[0%nat := Grpc.new_stream (u8 "e1")]} ∅ ∅)).
  destruct (dial (fun _ => (mkCreds [] [], mkCreds [] [])) true true 7 (u8 "138") (client_init (u8 "e1") s0))
    as [err k] eqn:Hd.
  assert (Hr : rtc (step (fun _ => (mkCreds [] [], mkCreds [] []))) (client_init (u8 "e1") s0) k)
    by (apply rtc_once; by eapply st_dial).
  exists k. split_and!; [done| |].
  - vm_compute in Hd. injection Hd as <- <-. vm_compute. by eexists.
  - destruct (client_and_dispatcher_agree (fun _ => (mkCreds [] [], mkCreds [] []))
                (u8 "e1") s0 k Hr) as [H _]. exact H.
Defined.
End Client.
