(* ===== verification/RtcLine.v ===== *)
(** * The audio of one RTC call

    [realtime/rtc_telephony.py], class [_CallState] and the iterators of the client: the
    tasks that move a call's audio.  Module [Media] is the inbound pump between the RTC
    session and its two consumers, with [close_iterators] cut at its awaits; Module
    [Speak] is [audio_out]: the feeder, the playout queue and the mixing pump, with
    barge-in, background and the end of the line.  The frames themselves are those of
    [RtcTelephony]. *)

From S2P Require Import Prelude Bytes Audio CloudEdge RtcTelephony.
Import RtcTelephony.Inbound.

(** ** Inbound audio and its end *)
Module Media.

(** How the pump's task ended: [Crashed] is an exception before its [try], so without the
    sentinels of its [finally]. *)
Inductive PumpEnd : Type := Clean | Raised | Cancelled | Crashed.

(** Where [close_iterators] is: [Stopping] awaits the outbound pump, [Leaving ok] the
    session's [leave], which will succeed or raise, [Waiting] the inbound pump. *)
Inductive Closing : Type := Open | Stopping | Leaving (ok : bool) | Waiting | Closed (raised : bool).

(** A consumer: [audio_in] and [audio_in_vad] differ only in their queue. *)
Record Iter := mkIter { heard : list bytes; ended : bool }.

(** One [get] of the iterator; the sentinel ends it. *)
Definition iter_get (q : list (option bytes)) (it : Iter) : option (list (option bytes) * Iter) :=
  if ended it then None
  else match q with
  | [] => None
  | None :: q' => Some (q', mkIter (heard it) true)
  | Some b :: q' => Some (q', mkIter (heard it ++ [b]) false)
  end.

(** The session's queue, and the frames its drainer moves in one pass. *)
Definition INBOUND_BUFFER : nat := 1024.
Definition DRAIN_BATCH : nat := 8.

(** [audioop.tomono] and [audioop.ratecv] raise on a buffer that is not a whole number of
    frames. *)
Definition audioop_accepts (f : AudioFrame) : bool :=
  let n := zlen (af_pcm f) in
  let stereo := 1 <? (if af_channels f =? 0 then 1 else af_channels f) in
  let resampled := (0 <? af_sample_rate f) && negb (af_sample_rate f =? TARGET_RATE) in
  if stereo then n mod 4 =? 0 else if resampled then n mod 2 =? 0 else true.

(** [ISALES_ASR_NOISE_GATE_RMS] and [ISALES_ASR_NOISE_GATE_HANGOVER_MS]; [None] is the
    [ValueError] of a malformed value. *)
Definition gate_config (int_of_str : pystr -> option Z) (float_of_str : pystr -> option Q)
    (env : string -> option pystr) : option (Z * Q) :=
  match match env "ISALES_ASR_NOISE_GATE_RMS" with None => Some 1500 | Some s => int_of_str s end,
        match env "ISALES_ASR_NOISE_GATE_HANGOVER_MS" with
        | None => Some (inject_Z 300) | Some s => float_of_str s
        end with
  | Some r, Some h => Some (r, h)
  | _, _ => None
  end.

Section Media.
  Context {RS : Type} (tomono : bytes -> bytes) (ratecv : bytes -> Z -> RS -> bytes * RS)
    (rms : bytes -> Z) (rs0 : RS).
  Context (edge_uid : pystr) (gate : option (Z * Q)).

Inductive InPump : Type :=
| NoPump
| Spawned                                   (* the task exists and has not run yet *)
| Pumping (silence_ms : Q) (rs : RS)        (* awaiting the next frame *)
| Ended (e : PumpEnd).

(** [None] in a queue is the sentinel.  [received] are the frames the pump took and did not
    raise on. *)
Record Line := mkLine {
  is_joined : bool; session_q : list (option AudioFrame); in_pump : InPump;
  inbound_q : list (option bytes); vad_q : list (option bytes);
  asr : Iter; vad : Iter; closing : Closing; received : list AudioFrame }.

#[export] Instance Line_eta : Eta Line := fun l =>
  mkLine (is_joined l) (session_q l) (in_pump l) (inbound_q l) (vad_q l) (asr l) (vad l)
    (closing l) (received l).

Definition new_line : Line := mkLine true [] NoPump [] [] (mkIter [] false) (mkIter [] false) Open [].

Definition start_inbound_pump (l : Line) : Line :=
  match in_pump l with NoPump => l <| in_pump := Spawned |> | _ => l end.

(** The [finally] of [_inbound_loop]. *)
Definition pump_finally (e : PumpEnd) (l : Line) : Line :=
  l <| inbound_q ::= fun q => q ++ [None] |> <| vad_q ::= fun q => q ++ [None] |>
    <| in_pump := Ended e |>.

(** The first run of the task, up to its first await. *)
Definition pump_begin (l : Line) : Line :=
  match gate with
  | None => l <| in_pump := Ended Crashed |>
  | Some _ => if is_joined l then l <| in_pump := Pumping 0 rs0 |> else pump_finally Clean l
  end.

Definition foreign (f : AudioFrame) : bool :=
  negb (zlen (af_sender_uid f) =? 0) && negb (bool_decide (af_sender_uid f = edge_uid)).

(** One round of the loop: both queues are unbounded, so the two [put]s do not wait. *)
Definition pump_frame (f : AudioFrame) (silence : Q) (rs : RS) (l : Line) : Line :=
  let l' := l <| received ::= fun r => r ++ [f] |> in
  if foreign f then l'
  else if negb (audioop_accepts f) then pump_finally Raised l
  else match gate with
  | None => l'
  | Some (gate_rms, hangover) =>
      let '(pcm, rs') := normalize tomono ratecv f rs in
      let '(a, silence') := Inbound.gate rms gate_rms hangover pcm silence in
      l' <| inbound_q ::= fun q => q ++ [Some a] |> <| vad_q ::= fun q => q ++ [Some pcm] |>
        <| in_pump := Pumping silence' rs' |>
  end.

(** [close_iterators] up to its first await; [leave_begin] is what follows the outbound
    pump's end. *)
Definition close_begin (l : Line) : Line :=
  match closing l with Open => l <| closing := Stopping |> | _ => l end.

Definition leave_begin (ok : bool) (l : Line) : Line :=
  if is_joined l then l <| is_joined := false |> <| closing := Leaving ok |>
  else l <| closing := Waiting |>.

(** How the wait for the pump returns. *)
Definition wait_end (e : PumpEnd) : bool :=
  match e with Raised | Crashed => true | Clean | Cancelled => false end.

(** What arrives from outside: frames, while the session's drainer runs (before the pump's
    first run it makes at most one pass), and the close. *)
Inductive outside : Line -> Line -> Prop :=
| out_frame f l :
    is_joined l = true -> (length (session_q l) < INBOUND_BUFFER)%nat ->
    (in_pump l = Spawned -> (length (session_q l) < DRAIN_BATCH)%nat) ->
    outside l (l <| session_q ::= fun q => q ++ [Some f] |>)
| out_close l : outside l (close_begin l).

(** The steps of the call's own tasks.  The pump is cancelled only by the expired wait. *)
Inductive own : Line -> Line -> Prop :=
| own_begin l : in_pump l = Spawned -> own l (pump_begin l)
| own_frame f q s rs l :
    in_pump l = Pumping s rs -> session_q l = Some f :: q ->
    own l (pump_frame f s rs (l <| session_q := q |>))
| own_stop q s rs l :
    in_pump l = Pumping s rs -> session_q l = None :: q ->
    own l (pump_finally Clean (l <| session_q := q |>))
| own_leave ok l : closing l = Stopping -> own l (leave_begin ok l)
| own_left l :
    closing l = Leaving true -> (length (session_q l) < INBOUND_BUFFER)%nat ->
    own l (l <| session_q ::= fun q => q ++ [None] |> <| closing := Waiting |>)
| own_leave_raises l : closing l = Leaving false -> own l (l <| closing := Waiting |>)
| own_waited e l :
    closing l = Waiting -> in_pump l = Ended e -> own l (l <| closing := Closed (wait_end e) |>)
| own_no_pump l :
    closing l = Waiting -> in_pump l = NoPump -> own l (l <| closing := Closed false |>)
| own_timeout s rs l :
    closing l = Waiting -> in_pump l = Pumping s rs -> own l (pump_finally Cancelled l)
| own_asr q it l :
    iter_get (inbound_q l) (asr l) = Some (q, it) ->
    own l (l <| inbound_q := q |> <| asr := it |>)
| own_vad q it l :
    iter_get (vad_q l) (vad l) = Some (q, it) ->
    own l (l <| vad_q := q |> <| vad := it |>).

Definition step (l l' : Line) : Prop := outside l l' \/ own l l'.

(** The two lanes of the frames received so far. *)
Definition lanes (frames : list AudioFrame) : list bytes * list bytes :=
  match gate with
  | None => ([], [])
  | Some (gate_rms, hangover) => inbound_loop tomono ratecv rms edge_uid gate_rms hangover frames 0 rs0
  end.

(** *** The lanes, frame by frame *)

(** The loop's state after some frames. *)
Fixpoint loop_state (gate_rms : Z) (hangover : Q) (frames : list AudioFrame) (s : Q) (rs : RS) : Q * RS :=
  match frames with
  | [] => (s, rs)
  | f :: frames' =>
      if foreign f then loop_state gate_rms hangover frames' s rs
      else
        let '(pcm, rs') := normalize tomono ratecv f rs in
        let '(_, s') := Inbound.gate rms gate_rms hangover pcm s in
        loop_state gate_rms hangover frames' s' rs'
  end.

Lemma inbound_loop_snoc g h frames f s rs :
  let loop := inbound_loop tomono ratecv rms edge_uid g h in
  let '(s', rs') := loop_state g h frames s rs in
  loop (frames ++ [f]) s rs
  = ((loop frames s rs).1 ++ (loop [f] s' rs').1, (loop frames s rs).2 ++ (loop [f] s' rs').2).
Proof.
  simpl. revert s rs. induction frames as [|f0 frames IH]; intros s rs.
  { simpl. by destruct (if _ : bool then _ else _). }
  cbn [loop_state app inbound_loop]. fold (foreign f0). destruct (foreign f0); [apply IH|].
  destruct (normalize tomono ratecv f0 rs) as [pcm rs1].
  destruct (Inbound.gate rms g h pcm s) as [a s1]. specialize (IH s1 rs1).
  destruct (loop_state g h frames s1 rs1) as [s' rs'].
  destruct (inbound_loop _ _ _ _ _ _ (frames ++ [f]) s1 rs1) as [la lv].
  destruct (inbound_loop _ _ _ _ _ _ frames s1 rs1) as [ka kv]. simpl in *.
  injection IH as -> ->. done.
Qed.

Lemma loop_state_snoc g h frames f s rs :
  loop_state g h (frames ++ [f]) s rs
  = let '(s', rs') := loop_state g h frames s rs in loop_state g h [f] s' rs'.
Proof.
  revert s rs. induction frames as [|f0 frames IH]; intros s rs; [done|].
  cbn [loop_state app]. destruct (foreign f0); [apply IH|].
  destruct (normalize _ _ f0 rs) as [pcm rs1]. destruct (Inbound.gate _ _ _ pcm s) as [a s1].
  apply IH.
Qed.

(** *** Invariant *)

Definition sentinel (p : InPump) : bool :=
  match p with Ended Crashed => false | Ended _ => true | _ => false end.

(** What a consumer heard and what its queue holds is the lane, then the sentinel. *)
Definition lane_ok (lane : list bytes) (q : list (option bytes)) (it : Iter) (p : InPump) : Prop :=
  if ended it then q = [] /\ heard it = lane /\ sentinel p = true
  else map Some (heard it) ++ q = map Some lane ++ (if sentinel p then [None] else []).

Definition past_leave (c : Closing) : bool := match c with Waiting | Closed _ => true | _ => false end.

Record line_inv (l : Line) : Prop := {
  li_asr : lane_ok (lanes (received l)).1 (inbound_q l) (asr l) (in_pump l);
  li_vad : lane_ok (lanes (received l)).2 (vad_q l) (vad l) (in_pump l);
  li_state : forall s rs, in_pump l = Pumping s rs ->
    exists g h, gate = Some (g, h) /\ loop_state g h (received l) 0 rs0 = (s, rs);
  li_fresh : in_pump l = Spawned -> received l = []
    /\ (length (session_q l) <= DRAIN_BATCH + if past_leave (closing l) then 1 else 0)%nat;
  li_started : in_pump l <> NoPump;
  li_crashed : in_pump l = Ended Crashed -> gate = None;
  li_cap : (length (session_q l) <= INBOUND_BUFFER)%nat;
  li_stop : None ∈ session_q l \/ in_pump l = Ended Cancelled -> past_leave (closing l) = true;
  li_full : closing l = Leaving true -> length (session_q l) = INBOUND_BUFFER ->
    (exists s rs, in_pump l = Pumping s rs) \/ in_pump l = Ended Raised \/ in_pump l = Ended Crashed;
  li_joined : is_joined l = true -> closing l = Open \/ closing l = Stopping;
  li_clean : in_pump l = Ended Clean -> is_joined l = false;
  li_closed : forall r, closing l = Closed r -> exists e, in_pump l = Ended e /\ r = wait_end e
}.

Lemma lane_ext lane q it p p' : sentinel p' = sentinel p -> lane_ok lane q it p -> lane_ok lane q it p'.
Proof. unfold lane_ok. intros ->. done. Qed.

Lemma lane_open lane q it p : sentinel p = false -> lane_ok lane q it p ->
  ended it = false /\ map Some (heard it) ++ q = map Some lane.
Proof.
  unfold lane_ok. intros Hp. destruct (ended it); [intros (_ & _ & ?); congruence|].
  rewrite Hp, app_nil_r. done.
Qed.

Lemma lane_put lane k q it p p' :
  sentinel p = false -> sentinel p' = false -> lane_ok lane q it p ->
  lane_ok (lane ++ k) (q ++ map Some k) it p'.
Proof.
  intros Hp Hp' Hl. apply lane_open in Hl as [He Hq]; [|done]. unfold lane_ok.
  by rewrite He, Hp', app_nil_r, app_assoc, Hq, map_app.
Qed.

Lemma lane_end lane q it p p' :
  sentinel p = false -> sentinel p' = true -> lane_ok lane q it p -> lane_ok lane (q ++ [None]) it p'.
Proof.
  intros Hp Hp' Hl. apply lane_open in Hl as [He Hq]; [|done]. unfold lane_ok.
  by rewrite He, Hp', app_assoc, Hq.
Qed.

Lemma lane_get lane q it p q' it' :
  lane_ok lane q it p -> iter_get q it = Some (q', it') -> lane_ok lane q' it' p.
Proof.
  unfold iter_get, lane_ok. destruct (ended it); [done|]. intros Hl.
  destruct q as [|[b|] q]; [done| |]; intros [= <- <-]; simpl.
  - rewrite <-Hl, map_app, <-app_assoc. done.
  - assert (Hin : In None (map Some lane ++ (if sentinel p then [None] else [])))
      by (rewrite <-Hl; apply in_app_iff; right; by left).
    destruct (sentinel p); [|by apply in_app_iff in Hin as [(? & ? & ?)%in_map_iff|[]]].
    assert (Hlen : length (heard it) = length lane /\ q = []).
    { revert Hl. generalize (heard it). clear.
      induction lane as [|b lane IH]; intros [|c k]; simpl; try done.
      - by intros [= ->].
      - intros [= -> He]. destruct (IH k He) as [-> ->]. done. }
    destruct Hlen as [Hn ->]. apply app_inj_1 in Hl as [Hl _]; [|by rewrite !length_map].
    split_and!; try done. by apply (inj (map Some)) in Hl.
Qed.

(** The prefix heard so far. *)
Lemma lane_prefix lane q it p : lane_ok lane q it p -> heard it `prefix_of` lane.
Proof.
  unfold lane_ok. destruct (ended it); [by intros (_ & -> & _)|]. generalize (heard it). clear.
  induction lane as [|b lane IH]; intros [|c k]; simpl; intros H; try apply prefix_nil.
  - by destruct (sentinel p).
  - injection H as -> H. apply prefix_cons. by apply IH.
Qed.

(** One more frame in both lanes. *)
Lemma lanes_snoc g h frames f s rs :
  gate = Some (g, h) -> loop_state g h frames 0 rs0 = (s, rs) ->
  let '(a, v) := inbound_loop tomono ratecv rms edge_uid g h [f] s rs in
  lanes (frames ++ [f]) = ((lanes frames).1 ++ a, (lanes frames).2 ++ v).
Proof.
  intros Hg Hs. unfold lanes. rewrite Hg.
  pose proof (inbound_loop_snoc g h frames f 0 rs0) as Hl. cbv zeta in Hl. rewrite Hs in Hl.
  rewrite Hl. by destruct (inbound_loop _ _ _ _ _ _ [f] s rs).
Qed.

Lemma pump_finally_inv e l :
  line_inv l -> (forall e', in_pump l <> Ended e') -> sentinel (Ended e) = true ->
  (e = Cancelled -> past_leave (closing l) = true) ->
  (closing l = Leaving true -> length (session_q l) = INBOUND_BUFFER -> e = Raised) ->
  (e = Clean -> is_joined l = false) ->
  line_inv (pump_finally e l).
Proof.
  intros [H1 H2 H3 H4 H5 H6 H7 H8 H9 H10 H11 H12] Hp He Hc Hf Hcl.
  assert (Hs : sentinel (in_pump l) = false) by (destruct (in_pump l); try done; by edestruct Hp).
  constructor; simpl; try done.
  - by eapply lane_end.
  - by eapply lane_end.
  - by intros [= ->].
  - intros [?|[= ->]]; auto.
  - intros Hle Hl. rewrite (Hf Hle Hl). auto.
  - intros [= ->]. auto.
  - intros r Hx. destruct (H12 r Hx) as (e' & Hx' & _). by edestruct Hp.
Qed.

Lemma take_frame_inv f q s rs l :
  line_inv l -> in_pump l = Pumping s rs -> session_q l = Some f :: q ->
  line_inv (pump_frame f s rs (l <| session_q := q |>)).
Proof.
  intros [H1 H2 H3 H4 H5 H6 H7 H8 H9 H10 H11 H12] Hp Hq. destruct (H3 s rs Hp) as (g & h & Hg & Hst).
  rewrite Hq in *. simpl in H7.
  assert (Hq' : line_inv (l <| session_q := q |>)).
  { constructor; simpl; rewrite ?Hp in *; try done; [lia| |].
    - intros [Hin|?]; [apply H8; left; by apply list_elem_of_further|done].
    - eauto. }
  pose proof (lanes_snoc g h (received l) f s rs Hg Hst) as Hlane.
  unfold pump_frame. simpl in Hlane. fold (foreign f) in Hlane.
  destruct (foreign f) eqn:Hfo; [|destruct (negb (audioop_accepts f)) eqn:Hau].
  - rewrite !app_nil_r in Hlane. constructor; simpl; rewrite ?Hlane; try apply Hq'; rewrite ?Hp.
    + intros s' rs' [= <- <-]. exists g, h. split; [done|]. rewrite loop_state_snoc, Hst.
      simpl. by rewrite Hfo.
    + done.
  - apply pump_finally_inv; simpl; try done; by rewrite ?Hp.
  - rewrite Hg. destruct (normalize _ _ f rs) as [pcm rs'] eqn:Hn.
    destruct (Inbound.gate _ _ _ pcm s) as [a s'] eqn:Hga.
    constructor; simpl; rewrite ?Hlane; simpl; try done.
    + eapply (lane_put _ [a]); [| |exact H1]; [by rewrite Hp|done].
    + eapply (lane_put _ [pcm]); [| |exact H2]; [by rewrite Hp|done].
    + intros s1 rs1 [= <- <-]. exists g, h. split; [done|]. rewrite loop_state_snoc, Hst.
      simpl. by rewrite Hfo, Hn, Hga.
    + apply Hq'.
    + intros [Hin|?]; [|done]. apply H8. left. by apply list_elem_of_further.
    + eauto.
    + intros r Hx. destruct (H12 r Hx) as (? & ? & _). congruence.
Qed.

Lemma pump_begin_inv l : line_inv l -> in_pump l = Spawned -> line_inv (pump_begin l).
Proof.
  intros Hi Hp. pose proof Hi as [H1 H2 H3 H4 H5 H6 H7 H8 H9 H10 H11 H12]. destruct (H4 Hp) as [Hr Hn].
  assert (Hsmall : (length (session_q l) < INBOUND_BUFFER)%nat)
    by (unfold DRAIN_BATCH, INBOUND_BUFFER in *; destruct (past_leave _); lia).
  unfold pump_begin. destruct gate as [[g h]|] eqn:Hg.
  - destruct (is_joined l) eqn:Hj.
    + constructor; simpl; try done; rewrite ?Hp in *; try (by eapply lane_ext; [|done]).
      * intros s rs [= <- <-]. exists g, h. by rewrite Hr.
      * intros [?|?]; [by apply H8; left|done].
      * lia.
      * auto.
      * intros r Hx. by destruct (H12 r Hx) as (? & ? & _).
    + apply pump_finally_inv; try done; [by rewrite Hp|lia].
  - constructor; simpl; try done; rewrite ?Hp in *; try (by eapply lane_ext; [|done]).
    + intros [?|?]; [by apply H8; left|done].
    + lia.
    + intros r Hx. by destruct (H12 r Hx) as (? & ? & _).
Qed.

Lemma line_outside_inv l l' : line_inv l -> outside l l' -> line_inv l'.
Proof.
  intros [H1 H2 H3 H4 H5 H6 H7 H8 H9 H10 H11 H12] Ho. destruct Ho as [f l Hj Hlen Hsp|l].
  - constructor; simpl; rewrite ?length_app; simpl; try done.
    + intros Hp. destruct (H4 Hp) as [-> _]. specialize (Hsp Hp). split; [done|].
      unfold DRAIN_BATCH in *. destruct (past_leave _); lia.
    + lia.
    + intros [Hin|Hin]; apply H8; [left|by right].
      apply elem_of_app in Hin as [?|Hin]; [done|]. by apply list_elem_of_singleton in Hin.
    + intros Hcl. destruct (H10 Hj); congruence.
  - unfold close_begin.
    destruct (closing l) eqn:Hc; constructor; simpl; rewrite ?Hc; auto;
      solve [done|by intros; apply H8].
Qed.

Lemma leave_begin_inv ok l : line_inv l -> closing l = Stopping -> line_inv (leave_begin ok l).
Proof.
  intros [H1 H2 H3 H4 H5 H6 H7 H8 H9 H10 H11 H12] Hc. rewrite Hc in *. unfold leave_begin.
  destruct (is_joined l) eqn:Hj; constructor; simpl; try done.
  - intros _ Hlen. destruct (in_pump l) as [| |s rs|[| | |]]; eauto; try done.
    + destruct (H4 eq_refl) as [_ ?]. unfold DRAIN_BATCH, INBOUND_BUFFER in *. simpl in *. lia.
    + by specialize (H11 eq_refl).
    + by specialize (H8 (or_intror eq_refl)).
  - intros Hp. destruct (H4 Hp). split; [done|]. simpl in *. lia.
  - congruence.
Qed.

Lemma line_own_inv l l' : line_inv l -> own l l' -> line_inv l'.
Proof.
  intros Hi Ho. pose proof Hi as [H1 H2 H3 H4 H5 H6 H7 H8 H9 H10 H11 H12].
  destruct Ho as [l Hp|f q s rs l Hp Hq|q s rs l Hp Hq|ok l Hc|l Hc Hlen|l Hc|e l Hc Hp|l Hc Hp
    |s rs l Hc Hp|q it l Hg|q it l Hg].
  - by apply pump_begin_inv.
  - by apply take_frame_inv.
  - rewrite Hq in *. simpl in H7. assert (past_leave (closing l) = true) as Hpl
      by (apply H8; left; apply list_elem_of_here).
    assert (is_joined l = false) as Hj
      by (destruct (is_joined l); [destruct (H10 eq_refl) as [Hx|Hx]; by rewrite Hx in Hpl|done]).
    apply pump_finally_inv; simpl; rewrite ?Hp; try done; [|by intros Hx; rewrite Hx in Hpl].
    constructor; simpl; rewrite ?Hp in *; try done; [lia|]. by intros Hx; rewrite Hx in Hpl.
  - by apply leave_begin_inv.
  - rewrite Hc in *. constructor; simpl; rewrite ?length_app; simpl; try done; [|lia| ].
    + intros Hp. destruct (H4 Hp). split; [done|]. simpl in *. lia.
    + intros Hj. by destruct (H10 Hj).
  - rewrite Hc in *. constructor; simpl; try done.
    + intros Hp. destruct (H4 Hp). split; [done|]. simpl in *. lia.
    + intros Hj. by destruct (H10 Hj).
  - rewrite Hc, Hp in *. constructor; simpl; try done; rewrite ?Hp; try done.
    + intros Hj. by destruct (H10 Hj).
    + intros r [= <-]. eauto.
  - done.
  - apply pump_finally_inv; rewrite ?Hp, ?Hc; done.
  - constructor; simpl; try done. by eapply lane_get.
  - constructor; simpl; try done. by eapply lane_get.
Qed.

Definition dialled : Line := start_inbound_pump new_line.

Lemma line_reachable l : rtc step dialled l -> line_inv l.
Proof.
  intros Hr. eapply rtc_invariant; [|exact Hr|].
  - intros l1 l2 Hi [Ho|Ho]; [by eapply line_outside_inv|by eapply line_own_inv].
  - constructor; simpl; unfold lanes, lane_ok; simpl; try done; try (by destruct gate as [[]|]).
    + split; [done|]. lia.
    + unfold INBOUND_BUFFER. lia.
    + intros [?%elem_of_nil|?]; done.
    + auto.
Qed.

(** *** The end of a call's audio *)

Definition pump_weight (p : InPump) : nat :=
  match p with Spawned => 5 | Pumping _ _ => 4 | _ => 0 end.
Definition close_weight (c : Closing) : nat :=
  match c with Open => 9 | Stopping => 8 | Leaving _ => 7 | Waiting => 1 | Closed _ => 0 end.

(** A bound on the steps the call's tasks can take by themselves. *)
Definition work_left (l : Line) : nat :=
  4 * length (session_q l) + length (inbound_q l) + length (vad_q l)
  + pump_weight (in_pump l) + close_weight (closing l).

Lemma iter_get_shorter q it q' it' : iter_get q it = Some (q', it') -> length q = S (length q').
Proof. unfold iter_get. destruct (ended it), q as [|[b|] q]; try done; by intros [= <- <-]. Qed.

Lemma own_work l l' : own l l' -> (work_left l' < work_left l)%nat.
Proof.
  unfold work_left.
  destruct 1 as [l Hp|f q s rs l Hp Hq|q s rs l Hp Hq|ok l Hc|l Hc Hlen|l Hc|e l Hc Hp|l Hc Hp
    |s rs l Hc Hp|q it l Hg|q it l Hg]; rewrite ?Hp, ?Hq, ?Hc; simpl.
  - unfold pump_begin. destruct gate; [destruct (is_joined l)|]; simpl; rewrite ?length_app; simpl; lia.
  - unfold pump_frame. destruct (foreign f); [simpl; rewrite Hp; simpl; lia|].
    destruct (negb _); [simpl; rewrite ?length_app; simpl; lia|].
    destruct gate as [[g h]|]; [|simpl; rewrite Hp; simpl; lia].
    destruct (normalize _ _ f rs). destruct (Inbound.gate _ _ _ _ s). simpl. rewrite !length_app. simpl. lia.
  - rewrite !length_app. simpl. lia.
  - unfold leave_begin. destruct (is_joined l); simpl; lia.
  - rewrite length_app. simpl. lia.
  - lia.
  - rewrite Hp. simpl. lia.
  - rewrite Hp. simpl. lia.
  - rewrite !length_app, Hc. simpl. lia.
  - apply iter_get_shorter in Hg. lia.
  - apply iter_get_shorter in Hg. lia.
Qed.

(** A consumer that can take no more after the pump's end has heard the whole lane. *)
Lemma lane_settled lane q it p :
  lane_ok lane q it p -> sentinel p = true -> (exists r, iter_get q it = Some r) \/ it = mkIter lane true.
Proof.
  unfold lane_ok, iter_get. destruct it as [h []]; simpl; [by intros (_ & -> & _); right|].
  intros Hl Hp. rewrite Hp in Hl. left. destruct q as [|[b|] q]; [|eauto..].
  rewrite app_nil_r in Hl. assert (In None (map Some h)) as (? & ? & ?)%in_map_iff; [|done].
  rewrite Hl. apply in_app_iff. right. by left.
Qed.

(** With a dead pump nobody empties the session's queue, and [leave] must find room in it
    for its own sentinel. *)
Definition room_to_leave (l : Line) : Prop :=
  in_pump l = Ended Raised -> past_leave (closing l) = true \/ (length (session_q l) < INBOUND_BUFFER)%nat.

Lemma close_progress l :
  line_inv l -> is_Some gate -> closing l <> Open -> room_to_leave l ->
  (exists l', own l l')
  \/ exists e, in_pump l = Ended e /\ closing l = Closed (wait_end e)
       /\ asr l = mkIter (lanes (received l)).1 true /\ vad l = mkIter (lanes (received l)).2 true.
Proof.
  intros [H1 H2 H3 H4 H5 H6 H7 H8 H9 H10 H11 H12] [g Hg] Ho Hr.
  destruct (closing l) as [| |ok| |r] eqn:Hc; try done.
  - left. eexists. by apply (own_leave true).
  - left. destruct ok; [|eexists; by apply own_leave_raises].
    destruct (decide (length (session_q l) = INBOUND_BUFFER)) as [Hlen|Hlen].
    + destruct (H9 eq_refl Hlen) as [(s & rs & Hp)|[Hp|Hp]];
        [|destruct (Hr Hp) as [Hx|?]; [by rewrite Hc in Hx|lia]|specialize (H6 Hp); congruence].
      destruct (session_q l) as [|[f|] q] eqn:Hq; [done| |]; eexists;
        [by eapply own_frame|by eapply own_stop].
    + eexists. apply own_left; [done|lia].
  - left. destruct (in_pump l) as [| |s rs|e] eqn:Hp; eexists;
      [by apply own_no_pump|by apply own_begin|by eapply own_timeout|by eapply own_waited].
  - destruct (H12 r eq_refl) as (e & Hp & ->).
    assert (Hs : sentinel (in_pump l) = true).
    { rewrite Hp. destruct e; try done. specialize (H6 Hp). congruence. }
    destruct (lane_settled _ _ _ _ H1 Hs) as [[[q it] Ha]|Ha]; [left; eexists; by eapply own_asr|].
    destruct (lane_settled _ _ _ _ H2 Hs) as [[[q it] Hv]|Hv]; [left; eexists; by eapply own_vad|].
    right. exists e. by rewrite Ha, Hv.
Qed.

Lemma own_keeps_close l l' :
  own l l' -> line_inv l -> closing l <> Open -> room_to_leave l ->
  closing l' <> Open /\ room_to_leave l'.
Proof.
  unfold room_to_leave. intros Ho [_ _ _ _ _ _ H7 _ _ _ _ _] Hc Hr.
  destruct Ho as [l Hp|f q s rs l Hp Hq|q s rs l Hp Hq|ok l Hcl|l Hcl Hlen|l Hcl|e l Hcl Hp|l Hcl Hp
    |s rs l Hcl Hp|q it l Hg|q it l Hg]; simpl in *; auto; try done.
  - unfold pump_begin. by destruct gate; [destruct (is_joined l)|].
  - rewrite Hq in H7. simpl in H7. unfold pump_frame.
    destruct (foreign f); [by rewrite ?Hp|].
    destruct (negb _); [split; [done|]; intros _; right; simpl; lia|].
    destruct gate as [[g h]|]; [|by rewrite ?Hp].
    destruct (normalize _ _ f rs). by destruct (Inbound.gate _ _ _ _ s).
  - rewrite Hcl in Hr. simpl in Hr. unfold leave_begin.
    destruct (is_joined l); simpl; (split; [done|]); auto.
Qed.


(** A malformed gate setting kills the pump before its [try]: no consumer ever ends,
    although the call was closed. *)
Lemma bad_gate_never_ends l :
  gate = None -> rtc step dialled l -> ended (asr l) = false /\ ended (vad l) = false.
Proof.
  intros Hg Hr.
  assert (Hi : (in_pump l = Spawned \/ in_pump l = Ended Crashed) /\ inbound_q l = [] /\ vad_q l = []
               /\ ended (asr l) = false /\ ended (vad l) = false); [|by destruct Hi as (_ & _ & _ & ?)].
  eapply (rtc_invariant step (fun l => (in_pump l = Spawned \/ in_pump l = Ended Crashed)
    /\ inbound_q l = [] /\ vad_q l = [] /\ ended (asr l) = false /\ ended (vad l) = false));
    [|exact Hr|simpl; auto].
  clear l Hr. intros l l' (Hp & Ha & Hv & He1 & He2) [Ho|Ho].
  - destruct Ho; [done|]. unfold close_begin. by destruct (closing l).
  - destruct Ho; try (destruct Hp; congruence); try done.
    + unfold pump_begin. rewrite Hg. simpl. auto.
    + unfold leave_begin. by destruct (is_joined l).
    + rewrite Ha in H. unfold iter_get in H. by destruct (ended (asr l)).
    + rewrite Hv in H. unfold iter_get in H. by destruct (ended (vad l)).
Qed.
End Media.

(** *** A run *)

Definition demo_gate : option (Z * Q) := Some (1500, 1#8).
Definition demo_in : AudioFrame := mkAudio [] [1; 2; 3; 4] 16000 1.
Definition demo_odd : AudioFrame := mkAudio [] [1; 2; 3] 48000 1.
Definition demo_lanes := lanes (RS := unit) (fun p => p) (fun p _ s => (p, s)) (fun _ => 9) tt [] demo_gate.
Definition demo_step :=
  step (RS := unit) (fun p => p) (fun p _ s => (p, s)) (fun _ => 9) tt [] demo_gate.
Definition demo_own :=
  own (RS := unit) (fun p => p) (fun p _ s => (p, s)) (fun _ => 9) tt [] demo_gate.

(** The state after one frame, put by the network and taken by the pump. *)
Definition demo_after (f : AudioFrame) : Line (RS := unit) :=
  pump_frame (fun p => p) (fun p _ s => (p, s)) (fun _ => 9) [] demo_gate f 0 tt
    (pump_begin tt demo_gate dialled).

Lemma demo_after_reached f : rtc demo_step dialled (demo_after f).
Proof.
  eapply rtc_l; [right; apply own_begin; reflexivity|].
  eapply rtc_l; [left; apply (out_frame f); [reflexivity|unfold INBOUND_BUFFER; simpl; lia|done]|].
  apply rtc_once. right. apply (own_frame) with (q := []); reflexivity.
Qed.

Definition demo_closing (f : AudioFrame) : Line := close_begin (demo_after f).

Lemma demo_closing_reached f : rtc demo_step dialled (demo_closing f).
Proof. eapply rtc_r; [apply demo_after_reached|left; apply out_close]. Qed.


(** A frame [audioop] rejects ends the pump with its exception, and the close raises it. *)
Lemma odd_frame_fails_close :
  exists l, rtc demo_step dialled l /\ closing l = Closed true /\ is_joined l = false.
Proof.
  eexists. split_and!.
  - etrans; [apply (demo_closing_reached demo_odd)|].
    eapply rtc_l; [right; apply (own_leave) with (ok := true); reflexivity|].
    eapply rtc_l; [right; apply own_left; [reflexivity|unfold INBOUND_BUFFER; simpl; lia]|].
    apply rtc_once. right. apply own_waited with (e := Raised); reflexivity.
  - reflexivity.
  - reflexivity.
Qed.
End Media.

(** ** Outbound audio *)
Module Speak.
Import RtcTelephony.Playout.

(** The pump's task: not there (never started, or stopped), about to take the next frame,
    awaiting [push_audio], out of its loop because the channel was left, or dead of an
    exception.  Only the first lets [start_outbound_pump] start a new one. *)
Inductive OutPump : Type := PNone | PTick | PPushing | PBroke | PDied.

(** [feed_playout] on its way through [frames], all it has to put: [todo] is still to be
    put; [base] is what the queue's frames were before it. *)
Inductive Feed : Type :=
| Idle
| Feeding (base todo frames : list bytes)
| Joining (base frames : list bytes)
| Returned (base frames : list bytes)
| FeedCancelled
| FeedRaised.

(** The line: [close_iterators] first stops the pump, then leaves the channel. *)
Inductive LineUp : Type := Up | Stopped | Down.

(** [taken]: the frames the pump took from the current queue; [script]: those it took and
    those still queued. *)
Record Speaker := mkSpeaker {
  line : LineUp; playout_q : option Queue; pump : OutPump; feed : Feed; fadeout_ms : Z;
  ambient_active : bool; cache : list (pystr * option AmbientLoop); taken : list bytes }.

#[export] Instance Speaker_eta : Eta Speaker := fun s =>
  mkSpeaker (line s) (playout_q s) (pump s) (feed s) (fadeout_ms s) (ambient_active s) (cache s) (taken s).

Definition new_speaker : Speaker :=
  mkSpeaker Up None PNone Idle DEFAULT_BARGE_IN_FADEOUT_MS false [] [].

Definition fresh_queue (q : option Queue) : Queue :=
  match q with
  | None => queue_init
  | Some q => q <| items := [] |> <| unfinished := 0 |> <| inflight := None |>
  end.

Definition start_outbound_pump (s : Speaker) : Speaker :=
  match pump s with
  | PNone => s <| playout_q ::= fun q => Some (fresh_queue q) |> <| pump := PTick |> <| taken := [] |>
  | _ => s
  end.

Definition enable_ambient (r : AmbientReader) (g : Q) (s : Speaker) : Speaker :=
  if ambient_active s then s
  else
    start_outbound_pump s
      <| playout_q ::= option_map (fun q => q <| reader := Some r |> <| gain := g |>) |>
      <| ambient_active := true |>.

Definition stop_outbound_pump (s : Speaker) : Speaker := s <| pump := PNone |>.

Definition set_barge_in_fadeout (ms : Z) (s : Speaker) : Speaker := s <| fadeout_ms := ms |>.

Definition script (s : Speaker) : list bytes :=
  taken s ++ match playout_q s with Some q => items q | None => [] end.

Definition speaking (f : Feed) : bool :=
  match f with Feeding _ _ _ | Joining _ _ => true | _ => false end.

(** [audio_out] up to its first await. *)
Definition audio_out (chunks : list bytes) (s : Speaker) : Speaker :=
  let s := start_outbound_pump s in
  let frames := feed_playout (ambient_active s) chunks in
  s <| feed := Feeding (script s) frames frames |>.

(** A cancelled [feed_playout]: the buffered frames are faded out. *)
Definition feed_cancelled (s : Speaker) : option Speaker :=
  match playout_q s with
  | None => Some (s <| feed := FeedCancelled |>)
  | Some q =>
      match flush (fadeout_ms s) q with
      | Some q' => Some (s <| playout_q := Some q' |> <| feed := FeedCancelled |>)
      | None => None
      end
  end.

(** One pass of the pump up to [push_audio], and what follows it. *)
Definition pump_tick (q : Queue) (s : Speaker) : Speaker :=
  match pump_frame q with
  | (None, q') => s <| playout_q := Some q' |> <| pump := PDied |>
  | (Some _, q') =>
      s <| playout_q := Some q' |> <| pump := PPushing |>
        <| taken ::= fun t => t ++ (match items q with f :: _ => [f] | [] => [] end) |>
  end.

Definition pump_after (r : push_result) (q : Queue) (s : Speaker) : option Speaker :=
  match pump_pushed r q with
  | None => None
  | Some (k, q') => Some (s <| playout_q := Some q' |> <| pump := if k : bool then PTick else PBroke |>)
  end.

Section Speak.
  Context (wave_open : pystr -> option Wave).
  Context (audioop : option ((bytes -> Z -> bytes) * (bytes -> bytes) * (bytes -> Z -> bytes))).

Definition configure_ambient (asset : option pystr) (g : Q) (s : Speaker) : Speaker :=
  let s := start_outbound_pump s in
  match asset with
  | None | Some [] => s
  | Some _ =>
      let '(loop, c) := get_ambient_loop wave_open audioop asset (cache s) in
      let s := s <| cache := c |> in
      match loop with
      | None => s
      | Some l => enable_ambient (Audio.reader l) g s
      end
  end.

(** Steps of the feeder and the pump.  [push_audio] raises [RtcNotJoined] exactly when the
    channel was left. *)
Inductive own : Speaker -> Speaker -> Prop :=
| own_put base f todo frames q s :
    feed s = Feeding base (f :: todo) frames -> playout_q s = Some q ->
    (length (items q) < PLAYOUT_MAX)%nat ->
    own s (s <| playout_q := Some (put f q) |> <| feed := Feeding base todo frames |>)
| own_drained base frames s :
    feed s = Feeding base [] frames -> own s (s <| feed := Joining base frames |>)
| own_join base frames q s :
    feed s = Joining base frames -> playout_q s = Some q -> unfinished q = 0 ->
    own s (s <| feed := Returned base frames |>)
| own_tick q s : pump s = PTick -> playout_q s = Some q -> own s (pump_tick q s)
| own_pushed r q s s' :
    pump s = PPushing -> playout_q s = Some q -> (r = NotJoined <-> line s = Down) ->
    pump_after r q s = Some s' -> own s s'.

(** What the call does to the speaker, short of cancelling a playback. *)
Inductive quiet : Speaker -> Speaker -> Prop :=
| qu_own s s' : own s s' -> quiet s s'
| qu_fadeout ms s : quiet s (set_barge_in_fadeout ms s)
| qu_stop s : line s = Up -> quiet s (stop_outbound_pump s <| line := Stopped |>)
| qu_leave s : line s = Stopped -> quiet s (s <| line := Down |>).

(** Playbacks are awaited one after the other. *)
Inductive step : Speaker -> Speaker -> Prop :=
| st_quiet s s' : quiet s s' -> step s s'
| st_play chunks s : speaking (feed s) = false -> step s (audio_out chunks s)
| st_cancel s s' : speaking (feed s) = true -> feed_cancelled s = Some s' -> step s s'
| st_raise s base todo frames : feed s = Feeding base todo frames -> step s (s <| feed := FeedRaised |>)
| st_ambient asset g s : speaking (feed s) = false -> step s (configure_ambient asset g s).

(** *** Frames stay whole *)

Definition even_frame (f : bytes) : Prop := Z.even (zlen f) = true.

(** A reader over whole frames, at a frame boundary. *)
Definition reader_ok (r : AmbientReader) : Prop :=
  exists n i, zlen (rd_pcm r) = n * FRAME_BYTES /\ 0 <= i < n /\ rd_pos r = i * FRAME_BYTES.

Lemma is_frame_even f : is_frame f -> even_frame f.
Proof. unfold is_frame, even_frame. by intros ->. Qed.

Lemma mix_frame_total tts bg g : even_frame tts -> even_frame bg -> is_Some (mix_frame tts bg g).
Proof.
  intros [st Hst]%samples_even [sb Hsb]%samples_even. unfold mix_frame.
  destruct (_ || _); [by eexists|]. rewrite Hst, Hsb. by eexists.
Qed.

Lemma reader_next r : reader_ok r -> even_frame (next_frame r).1 /\ reader_ok (next_frame r).2.
Proof.
  destruct r as [pcm pos]. intros (n & i & Hn & Hi & Hp). simpl in *. subst pos.
  rewrite (next_frame_aligned pcm n i Hn Hi). rewrite FRAME_BYTES_eq in *. split; simpl.
  - unfold even_frame. rewrite slice_zlen by lia. replace _ with 320 by lia. done.
  - exists n, (if i + 1 <? n then i + 1 else 0). rewrite FRAME_BYTES_eq. simpl.
    destruct (i + 1 <? n) eqn:Hb; zbool; split_and!; lia.
Qed.

Lemma fade_frames_even total idx frames out :
  fade_frames total idx frames = Some out -> Forall even_frame out.
Proof.
  revert idx out. induction frames as [|f frames IH]; intros idx out; simpl; [by intros [= <-]|].
  destruct (samples_of_bytes f) as [sa|]; [|done].
  destruct (fade_frames total _ frames) as [o|] eqn:Ho; [|done]. intros [= <-].
  constructor; [|by eapply IH]. unfold even_frame. rewrite bytes_of_samples_length.
  by rewrite Z.even_mul.
Qed.

Lemma fade_frames_total total idx frames :
  Forall even_frame frames -> is_Some (fade_frames total idx frames).
Proof.
  intros Hf. revert idx. induction Hf as [|f frames He _ IH]; intros idx; simpl; [by eexists|].
  destruct (samples_even f He) as [sa ->]. destruct (IH (idx + zlen sa)) as [o ->]. by eexists.
Qed.

(** Flushing never fails, and leaves whole frames. *)
Lemma flush_even ms q :
  Forall even_frame q -> exists q', flush_playout ms q = Some q' /\ Forall even_frame q'.
Proof.
  intros Hq. unfold flush_playout. destruct q as [|f q]; [by exists []|].
  destruct (ms <=? 0); [by exists []|]. set (n := Z.to_nat _). unfold apply_fadeout.
  assert (Ht : Forall even_frame (take n (f :: q))) by (by apply Forall_take).
  destruct (_ <=? 1); [by eexists|].
  destruct (fade_frames_total (total_samples (take n (f :: q))) 0 _ Ht) as [o Ho].
  exists o. split; [done|]. by eapply fade_frames_even.
Qed.

Lemma load_whole name l :
  load wave_open audioop name = Some l -> reader_ok (Audio.reader l).
Proof.
  unfold load. destruct (_ || _); [done|]. destruct (wave_open name) as [w|]; [|done].
  destruct (zlen (wv_pcm w) =? 0); [done|]. cbv zeta.
  match goal with |- match ?x with _ => _ end = _ -> _ => destruct x as [pcm|]; [|done] end.
  destruct (make_seamless pcm) as [b|] eqn:Hm; [|done]. unfold loop_bool.
  destruct (FRAME_BYTES <=? _) eqn:Hb; [|done]. intros [= <-]. simpl in *.
  apply make_seamless_aligned in Hm. rewrite FRAME_BYTES_eq in *. zbool.
  exists (zlen b / 320), 0. simpl. rewrite FRAME_BYTES_eq.
  pose proof (Z.div_mod (zlen b) 320 ltac:(lia)). split_and!; lia.
Qed.

(** *** Invariant *)

Definition cache_ok (c : list (pystr * option AmbientLoop)) : Prop :=
  forall n l, (n, Some l) ∈ c -> reader_ok (Audio.reader l).

Record queue_ok (q : Queue) : Prop := {
  qo_even : Forall even_frame (items q);
  qo_reader : forall r, Playout.reader q = Some r -> reader_ok r;
  qo_count : unfinished q = outstanding q
}.

Record speaker_inv (s : Speaker) : Prop := {
  si_queue : forall q, playout_q s = Some q -> queue_ok q;
  si_pump : pump s <> PNone -> is_Some (playout_q s);
  si_alive : pump s <> PDied;
  si_broke : pump s = PBroke -> line s = Down;
  si_tick : forall q, pump s = PTick -> playout_q s = Some q -> inflight q = None;
  si_cache : cache_ok (cache s);
  si_feed : match feed s with
            | Feeding base todo frames =>
                script s ++ todo = base ++ frames /\ Forall even_frame todo /\ is_Some (playout_q s)
            | Joining base frames => script s = base ++ frames /\ is_Some (playout_q s)
            | _ => True
            end;
  si_up : line s = Up -> speaking (feed s) = true -> pump s = PTick \/ pump s = PPushing
}.

Lemma cached_whole asset c l c' :
  cache_ok c -> get_ambient_loop wave_open audioop asset c = (l, c') ->
  cache_ok c' /\ forall x, l = Some x -> reader_ok (Audio.reader x).
Proof.
  intros Hc. destruct asset as [[|ch n]|]; simpl; [by intros [= <- <-]| |by intros [= <- <-]].
  destruct (cache_find (ch :: n) c) as [v|] eqn:Hf; intros [= <- <-].
  - split; [done|]. intros x ->. revert Hf. clear -Hc. induction c as [|[k v] c IH]; simpl; [done|].
    destruct (decide (k = ch :: n)) as [->|Hne].
    + intros [= ->]. apply (Hc (ch :: n)). apply list_elem_of_here.
    + apply IH. intros m y Hin. apply (Hc m). by apply list_elem_of_further.
  - split; [|intros x; apply load_whole]. intros m y [Hin|Hin]%elem_of_app; [by apply (Hc m)|].
    apply list_elem_of_singleton in Hin. injection Hin as -> Hl. by apply (load_whole (ch :: n)).
Qed.

Lemma put_ok f q : queue_ok q -> even_frame f -> queue_ok (put f q).
Proof.
  intros [H1 H2 H3] Hf. constructor; simpl; [by apply Forall_app; split; [|constructor]|done|].
  unfold outstanding in *. simpl. rewrite zlen_app, H3. unfold zlen. simpl. lia.
Qed.

(** A tick of the pump: it never dies, and takes the queue's first frame. *)
Lemma pump_frame_ok q :
  queue_ok q -> inflight q = None ->
  exists out q', pump_frame q = (Some out, q') /\ queue_ok q' /\ items q' = tail (items q)
    /\ inflight q' = head (items q).
Proof.
  intros [H1 H2 H3] Hi.
  assert (Hbg : even_frame (match Playout.reader q with Some r => (next_frame r).1 | None => SILENCE_FRAME end)
    /\ forall r, match Playout.reader q with Some r => Some (next_frame r).2 | None => None end = Some r -> reader_ok r).
  { destruct (Playout.reader q) as [r|]; [|done]. destruct (reader_next r (H2 r eq_refl)) as [Hb Hr].
    split; [done|]. by intros r' [= <-]. }
  destruct Hbg as [Hbg Hrd].
  assert (Ht : even_frame (match items q with f :: _ => f | [] => SILENCE_FRAME end))
    by (destruct H1; done).
  destruct (mix_frame_total _ _ (gain q) Ht Hbg) as [out Ho].
  unfold pump_frame, outstanding in *. rewrite Hi in H3.
  destruct (Playout.reader q) as [r|]; [destruct (next_frame r) as [bg r']|]; simpl in *;
    rewrite Ho in *; eexists out, _; (split; [reflexivity|]); (split; [|done]);
    (constructor; simpl; [by destruct H1|done|]); unfold outstanding; simpl;
    destruct (items q); simpl in *; rewrite ?zlen_cons in H3; lia.
Qed.

Lemma pump_pushed_ok r q :
  queue_ok q -> exists k q', pump_pushed r q = Some (k, q') /\ queue_ok q' /\ items q' = items q
    /\ inflight q' = None /\ (k = false <-> r = NotJoined).
Proof.
  intros [H1 H2 H3].
  assert (Hp : exists k q', pump_pushed r q = Some (k, q')).
  { unfold pump_pushed, task_done, outstanding in *. pose proof (zlen_nonneg (items q)).
    destruct r, (inflight q) eqn:Hin; simpl; rewrite ?Hin; simpl; eauto;
      (destruct (unfinished q <=? 0) eqn:Hz; [zbool; lia|eauto]). }
  destruct Hp as (k & q' & Hp). exists k, q'. split; [done|].
  pose proof (step_accounting q q' H3 (st_pushed r k q q' Hp)) as Hc.
  unfold pump_pushed, task_done in Hp.
  destruct r, (inflight q) eqn:Hin; simpl in Hp; rewrite ?Hin in Hp; simpl in Hp;
    repeat case_match; simplify_eq; (split; [by constructor|]); by rewrite ?Hin.
Qed.

Lemma flush_ok ms q :
  queue_ok q -> exists q', flush ms q = Some q' /\ queue_ok q' /\ inflight q' = inflight q.
Proof.
  intros [H1 H2 H3]. destruct (flush_even ms (items q) H1) as (f & Hf & He). unfold flush.
  rewrite Hf. eexists. split; [done|]. split; [|done]. constructor; simpl; [done|done|].
  unfold outstanding in *. simpl. lia.
Qed.

Lemma speak_start_inv s :
  speaker_inv s -> speaking (feed s) = false ->
  speaker_inv (start_outbound_pump s) /\ pump (start_outbound_pump s) <> PNone.
Proof.
  intros Hi Hs. pose proof Hi as [H1 H2 H3 H4 H5 H6 H7 H8]. unfold start_outbound_pump.
  destruct (pump s) eqn:Hp; try (split; [done|congruence]). split; [|done].
  constructor; simpl; try done.
  - intros q [= <-]. unfold fresh_queue. destruct (playout_q s) as [q0|]; [|by constructor].
    destruct (H1 q0 eq_refl). by constructor.
  - intros q _ [= <-]. unfold fresh_queue. by destruct (playout_q s).
  - by destruct (feed s).
  - rewrite Hs. done.
Qed.

Lemma audio_out_inv chunks s :
  speaker_inv s -> speaking (feed s) = false -> speaker_inv (audio_out chunks s).
Proof.
  intros Hi Hs. destruct (speak_start_inv s Hi Hs) as [Hi' Hp]. unfold audio_out.
  generalize dependent (start_outbound_pump s). intros s' [H1 H2 H3 H4 H5 H6 H7 H8] Hp.
  constructor; simpl; try done.
  - destruct (feed_playout_spec (ambient_active s') chunks) as (_ & _ & _ & Hf).
    split_and!; [done| |by apply H2]. eapply Forall_impl; [exact Hf|]. apply is_frame_even.
  - intros Hl _. destruct (pump s') eqn:Hp'; auto; try done. rewrite H4 in Hl; done.
Qed.

Lemma ambient_inv asset g s :
  speaker_inv s -> speaking (feed s) = false -> speaker_inv (configure_ambient asset g s).
Proof.
  intros Hi Hs. destruct (speak_start_inv s Hi Hs) as [Hi' Hp].
  assert (Hs' : speaking (feed (start_outbound_pump s)) = false)
    by (unfold start_outbound_pump; by destruct (pump s)).
  unfold configure_ambient. generalize dependent (start_outbound_pump s). intros s' Hi' Hp Hs'.
  destruct asset as [[|ch n]|]; [done| |done].
  destruct (get_ambient_loop _ _ _ _) as [l c] eqn:Hg.
  destruct (cached_whole _ _ _ _ (si_cache s' Hi') Hg) as [Hc Hl].
  assert (Hi2 : speaker_inv (s' <| cache := c |>)) by (destruct Hi'; by constructor).
  destruct l as [l|]; [|done]. unfold enable_ambient. destruct (ambient_active _); [done|].
  replace (start_outbound_pump (s' <| cache := c |>)) with (s' <| cache := c |>)
    by (unfold start_outbound_pump; simpl; by destruct (pump s')).
  destruct Hi2 as [H1 H2 H3 H4 H5 H6 H7 H8]. simpl in *.
  constructor; simpl; try done.
  - intros q (q0 & Hq & ->)%fmap_Some. destruct (H1 q0 Hq). constructor; simpl; try done.
    intros r [= <-]. by apply Hl.
  - intros H0. destruct (H2 H0) as [q0 Hq0]. rewrite Hq0. by eexists.
  - intros q Ht (q0 & Hq & ->)%fmap_Some. by apply (H5 q0).
  - by destruct (feed s').
Qed.

Lemma speak_own_inv s s' : speaker_inv s -> own s s' -> speaker_inv s'.
Proof.
  intros Hi Ho. pose proof Hi as [H1 H2 H3 H4 H5 H6 H7 H8].
  destruct Ho as [base f todo frames q s Hf Hq Hl|base frames s Hf|base frames q s Hf Hq Hu|q s Hp Hq|r q s s' Hp Hq Hr Ha].
  - rewrite Hf in *. destruct H7 as (Hsc & Hev & _). apply Forall_cons in Hev as [He Hev].
    constructor; simpl; try done; eauto.
    + intros q' [= <-]. apply put_ok; auto.
    + intros q' Ht [= <-]. by apply (H5 q).
    + split_and!; [|done|by eexists]. unfold script in *. simpl. rewrite Hq in Hsc.
      rewrite <-Hsc, <-!app_assoc. done.
  - rewrite Hf in *. destruct H7 as (Hsc & _ & Hq). constructor; simpl; try done.
    unfold script in *. simpl. by rewrite app_nil_r in Hsc.
  - rewrite Hf in *. by constructor.
  - destruct (pump_frame_ok q (H1 q Hq) (H5 q Hp Hq)) as (out & q' & Hpf & Hok & Hit & Hin).
    unfold pump_tick. rewrite Hpf. constructor; simpl; try done; eauto.
    + by intros ? [= <-].
    + unfold script in *. simpl. rewrite Hq in H7. rewrite Hit.
      replace ((taken s ++ _) ++ _) with (taken s ++ items q)
        by (rewrite <-app_assoc; by destruct (items q)).
      destruct (feed s); naive_solver.
  - destruct (pump_pushed_ok r q (H1 q Hq)) as (k & q' & Hpp & Hok & Hit & Hin & Hk).
    unfold pump_after in Ha. rewrite Hpp in Ha. injection Ha as <-.
    constructor; simpl; try done; eauto.
    + by intros ? [= <-].
    + by destruct k.
    + destruct k; [done|]. intros _. by apply Hr, Hk.
    + by intros ? _ [= <-].
    + unfold script in *. simpl. rewrite Hq in H7. rewrite Hit. destruct (feed s); naive_solver.
    + intros Hl Hs. destruct k; [by left|]. rewrite (proj1 Hr) in Hl; [done|]. by apply Hk.
Qed.

Lemma speak_step_inv s s' : speaker_inv s -> step s s' -> speaker_inv s'.
Proof.
  intros Hi Hs. destruct Hs as [s s' Hq|chunks s Hf|s s' Hf Hc|s base todo frames Hf|asset g s Hf];
    [| by apply audio_out_inv| | |by apply ambient_inv].
  - destruct Hq as [s s' Ho|ms s|s Hl|s Hl]; [by eapply speak_own_inv| | |]; destruct Hi;
      constructor; simpl; done.
  - destruct Hi as [H1 H2 H3 H4 H5 H6 H7 H8]. unfold feed_cancelled in Hc.
    destruct (playout_q s) as [q|] eqn:Hq; [|injection Hc as <-; constructor; simpl; rewrite ?Hq; done].
    destruct (flush_ok (fadeout_ms s) q (H1 q eq_refl)) as (q' & Hfl & Hok & Hin).
    rewrite Hfl in Hc. injection Hc as <-. constructor; simpl; try done; eauto.
    + by intros ? [= <-].
    + intros ? Hp [= <-]. rewrite Hin. by apply H5.
  - destruct Hi. constructor; simpl; done.
Qed.

Lemma speaker_reachable s : rtc step new_speaker s -> speaker_inv s.
Proof.
  intros Hr. eapply rtc_invariant; [apply speak_step_inv|exact Hr|].
  constructor; simpl; try done. by intros n l ?%elem_of_nil.
Qed.

(** *** A playback completes *)

(** Alive, with nothing in the pump's hands and nothing queued. *)
Definition drained (s : Speaker) : Prop :=
  pump s = PTick /\ exists q, playout_q s = Some q /\ items q = [] /\ unfinished q = 0.

Lemma push_returns s :
  speaker_inv s -> line s = Up -> pump s = PPushing ->
  exists s' q q', own s s' /\ pump s' = PTick /\ feed s' = feed s /\ line s' = Up
    /\ playout_q s = Some q /\ playout_q s' = Some q' /\ items q' = items q.
Proof.
  intros Hi Hl Hp. destruct (si_pump s Hi ltac:(congruence)) as [q Hq].
  destruct (pump_pushed_ok PushOk q (si_queue s Hi q Hq)) as (k & q' & Hpp & _ & Hit & _ & Hk).
  destruct k; [|by specialize (proj1 Hk eq_refl)].
  exists (s <| playout_q := Some q' |> <| pump := PTick |>), q, q'. split; [|done].
  apply (own_pushed PushOk q); [done|done|by rewrite Hl|]. unfold pump_after. by rewrite Hpp.
Qed.

Lemma queue_drains s :
  speaker_inv s -> line s = Up -> pump s = PTick \/ pump s = PPushing ->
  exists s', rtc own s s' /\ drained s' /\ feed s' = feed s /\ line s' = Up /\ speaker_inv s'.
Proof.
  intros Hi Hl Hp.
  assert (Ht : exists s' q, rtc own s s' /\ pump s' = PTick /\ feed s' = feed s /\ line s' = Up
                 /\ speaker_inv s' /\ playout_q s' = Some q).
  { destruct Hp as [Hp|Hp].
    - destruct (si_pump s Hi ltac:(congruence)) as [q Hq]. by exists s, q.
    - destruct (push_returns s Hi Hl Hp) as (s' & q & q' & Ho & ? & ? & ? & _ & ? & _).
      exists s', q'. split_and!; [by apply rtc_once|done..|by eapply speak_own_inv|done]. }
  clear Hi Hl Hp. destruct Ht as (s1 & q & Hr & Hp & Hf & Hl & Hi & Hq).
  remember (length (items q)) as n eqn:Hn. revert s1 q Hr Hp Hf Hl Hi Hq Hn.
  induction n as [n IH] using lt_wf_ind. intros s1 q Hr Hp Hf Hl Hi Hq Hn.
  destruct (items q) as [|f fs] eqn:Hit.
  { exists s1. split_and!; try done. split; [done|]. exists q. split_and!; try done.
    destruct (si_queue s1 Hi q Hq) as [_ _ Hc]. unfold outstanding in Hc.
    by rewrite (si_tick s1 Hi q Hp Hq), Hit in Hc. }
  assert (Ho : own s1 (pump_tick q s1)) by (by apply own_tick).
  pose proof (speak_own_inv _ _ Hi Ho) as Hi2.
  destruct (pump_frame_ok q (si_queue s1 Hi q Hq) (si_tick s1 Hi q Hp Hq)) as (out & q1 & Hpf & _ & Hit1 & _).
  rewrite Hit in Hit1. unfold pump_tick in Ho, Hi2. rewrite Hpf in Ho, Hi2.
  destruct (push_returns _ Hi2 Hl eq_refl) as (s3 & q2 & q3 & Ho3 & Hp3 & Hf3 & Hl3 & Hq2 & Hq3 & Hit3).
  simpl in Hq2. injection Hq2 as <-.
  eapply (IH (length (items q3))); [|by do 2 (eapply rtc_r; [|done])|done| |done| |done|done].
  - rewrite Hit3, Hit1, Hn. simpl. lia.
  - by rewrite Hf3.
  - by eapply speak_own_inv.
Qed.

Lemma feeding_completes todo : forall s base frames,
  speaker_inv s -> line s = Up -> feed s = Feeding base todo frames ->
  exists s', rtc own s s' /\ speaker_inv s' /\ line s' = Up /\ feed s' = Joining base frames.
Proof.
  induction todo as [|f todo IH]; intros s base frames Hi Hl Hf.
  { eexists. split; [by apply rtc_once, own_drained|].
    split; [by eapply speak_own_inv; [|apply own_drained]|done]. }
  destruct (queue_drains s Hi Hl) as (s1 & Hr1 & (Hp & q & Hq & Hit & _) & Hf1 & Hl1 & Hi1).
  { apply (si_up s Hi Hl). by rewrite Hf. }
  rewrite Hf in Hf1.
  assert (Ho : own s1 (s1 <| playout_q := Some (put f q) |> <| feed := Feeding base todo frames |>)).
  { eapply own_put; [done|done|]. rewrite Hit. unfold PLAYOUT_MAX. simpl. lia. }
  destruct (IH _ base frames (speak_own_inv _ _ Hi1 Ho) Hl1 eq_refl) as (s2 & Hr2 & ?).
  exists s2. split; [|done]. etrans; [exact Hr1|]. by eapply rtc_l.
Qed.


(** *** A playback cut short *)

Definition queued (s : Speaker) : list bytes :=
  match playout_q s with Some q => items q | None => [] end.

(** The frames a fade of [ms] milliseconds may last. *)
Definition fade_window (ms : Z) : Z := Z.max 0 (- ((- ms) / 10)).

Lemma fade_frames_length total idx frames out :
  fade_frames total idx frames = Some out -> length out = length frames.
Proof.
  revert idx out. induction frames as [|f frames IH]; intros idx out; simpl; [by intros [= <-]|].
  destruct (samples_of_bytes f) as [sa|]; [|done].
  destruct (fade_frames total _ frames) as [o|] eqn:Ho; [|done]. intros [= <-]. simpl. f_equal. by eapply IH.
Qed.

Lemma flush_window ms q out : flush_playout ms q = Some out -> zlen out <= fade_window ms.
Proof.
  unfold flush_playout, fade_window. destruct q as [|f q]; [intros [= <-]; unfold zlen; simpl; lia|].
  destruct (ms <=? 0) eqn:Hms; zbool; [intros [= <-]; unfold zlen; simpl; lia|]. set (n := Z.min _ _).
  assert (Hlen : zlen (take (Z.to_nat n) (f :: q)) <= Z.max 0 n) by (unfold zlen; rewrite length_take; lia).
  unfold apply_fadeout. destruct (_ <=? 1).
  - intros [= <-]. subst n. lia.
  - intros Ho%fade_frames_length. unfold zlen in *. rewrite Ho. subst n. lia.
Qed.

(** Nobody feeds the queue: what was taken and what is queued stay together. *)
Lemma cut_keeps_script s s' :
  speaker_inv s -> feed s = FeedCancelled -> quiet s s' ->
  feed s' = FeedCancelled /\ script s' = script s /\ taken s `prefix_of` taken s'.
Proof.
  intros Hi Hf Hq. destruct Hq as [s s' Ho|ms s|s Hl|s Hl]; try done.
  destruct Ho as [base f todo frames q s Hf'|base frames s Hf'|base frames q s Hf'|q s Hp Hq|r q s s' Hp Hq Hr Ha];
    try congruence.
  - destruct (pump_frame_ok q (si_queue s Hi q Hq) (si_tick s Hi q Hp Hq)) as (out & q' & Hpf & _ & Hit & _).
    unfold pump_tick. rewrite Hpf. split_and!; [done| |simpl; by apply prefix_app_r].
    unfold script. simpl. rewrite Hq, Hit, <-app_assoc. by destruct (items q).
  - destruct (pump_pushed_ok r q (si_queue s Hi q Hq)) as (k & q' & Hpp & _ & Hit & _).
    unfold pump_after in Ha. rewrite Hpp in Ha. injection Ha as <-. split_and!; [done| |done].
    unfold script. simpl. by rewrite Hq, Hit.
Qed.

Lemma cut_script s s' :
  speaker_inv s -> feed s = FeedCancelled -> rtc quiet s s' ->
  script s' = script s /\ taken s `prefix_of` taken s'.
Proof.
  intros Hi Hf Hr.
  enough (speaker_inv s' /\ feed s' = FeedCancelled /\ script s' = script s /\ taken s `prefix_of` taken s')
    by tauto.
  apply (rtc_invariant quiet (fun x => speaker_inv x /\ feed x = FeedCancelled /\ script x = script s
                                       /\ taken s `prefix_of` taken x)) with (x := s); [|done|done].
  intros x y (Hx & Hfx & Hsx & Hpx) Hq. destruct (cut_keeps_script x y Hx Hfx Hq) as (? & ? & ?).
  split_and!; [by eapply speak_step_inv, st_quiet|done|congruence|by etrans].
Qed.

(** C18: A barge-in falls silent within the configured fade: cancelling a running
    [audio_out] never fails, keeps at most one frame per ten milliseconds of the fade of
    what was queued, and however the pump, the configuration and the end of the line go on,
    the channel is handed after it only a prefix of those faded frames until the next
    playback; while the line is up they all are, and nothing stays queued. *)
Theorem barge_in_falls_silent s :
  rtc step new_speaker s -> speaking (feed s) = true ->
  exists s' tail_, feed_cancelled s = Some s'
    /\ flush_playout (fadeout_ms s) (queued s) = Some tail_ /\ zlen tail_ <= fade_window (fadeout_ms s)
    /\ (forall s2, rtc quiet s' s2 -> exists k, taken s2 = taken s ++ take k tail_)
    /\ (line s = Up -> exists s2, rtc own s' s2 /\ drained s2 /\ taken s2 = taken s ++ tail_).
Proof.
  intros Hr%speaker_reachable Hs.
  assert (Hq : is_Some (playout_q s)) by (pose proof (si_feed s Hr) as H; destruct (feed s); naive_solver).
  destruct Hq as [q Hq]. unfold feed_cancelled, queued. rewrite Hq.
  destruct (flush_ok (fadeout_ms s) q (si_queue s Hr q Hq)) as (q' & Hfl & _).
  rewrite Hfl. unfold flush in Hfl. destruct (flush_playout _ (items q)) as [out|] eqn:Hout; [|done].
  injection Hfl as <-. match goal with |- context [Some ?x = Some _] => set (s' := x) end.
  assert (Hi : speaker_inv s').
  { eapply speak_step_inv; [exact Hr|]. apply st_cancel; [done|]. unfold feed_cancelled, flush.
    by rewrite Hq, Hout. }
  assert (Hsc : script s' = taken s ++ out) by done.
  exists s', out. split_and!; [done|done|by eapply flush_window| |].
  - intros s2 Hr2. destruct (cut_script s' s2 Hi eq_refl Hr2) as [H2 [l Hl]]. rewrite Hsc in H2.
    unfold script in H2. rewrite Hl, <-app_assoc in *. apply app_inv_head in H2.
    exists (length l). f_equal. by rewrite <-H2, take_app_length.
  - intros Hl. destruct (queue_drains s' Hi Hl) as (s2 & Hr2 & Hd & _); [exact (si_up s Hr Hl Hs)|].
    exists s2. split_and!; [done|done|].
    destruct (cut_script s' s2 Hi eq_refl) as [H2 _]; [by eapply rtc_subrel; [apply qu_own|]|].
    rewrite Hsc in H2. destruct Hd as (_ & q2 & Hq2 & Hit & _). unfold script in H2.
    by rewrite Hq2, Hit, app_nil_r in H2.
Qed.

(** *** A playback the end of the line leaves behind *)

(** The frames [join] still has to see accounted for. *)
Definition frames_left (q : Queue) (f : Feed) : Z :=
  unfinished q + match f with Feeding _ todo _ => zlen todo | _ => 0 end.

(** No pump, or one that will leave its loop at the next frame. *)
Definition stranded (s : Speaker) : Prop :=
  exists q, playout_q s = Some q /\ speaking (feed s) = true
    /\ match pump s with
       | PTick | PPushing => line s = Down /\ 2 <= frames_left q (feed s)
       | _ => 1 <= frames_left q (feed s)
       end.

Lemma pump_frame_unfinished q : unfinished (pump_frame q).2 = unfinished q.
Proof. unfold pump_frame. destruct (Playout.reader q) as [r|]; [destruct (next_frame r)|]; done. Qed.

Lemma pump_pushed_unfinished r q k q' :
  pump_pushed r q = Some (k, q') ->
  unfinished q - 1 <= unfinished q' <= unfinished q /\ (r = NotJoined -> k = false).
Proof.
  unfold pump_pushed, task_done.
  destruct r, (inflight q) eqn:Hin; simpl; rewrite ?Hin; simpl; repeat case_match; try done;
    intros [= <- <-]; simplify_eq; simpl; split; try done; lia.
Qed.

Lemma stranded_stays s s' : stranded s -> quiet s s' -> stranded s'.
Proof.
  intros (q & Hq & Hf & Hp) Hs. destruct Hs as [s s' Ho|ms s|s Hl|s Hl].
  - destruct Ho as [base f todo frames q1 s Hfd Hq1 Hl|base frames s Hfd|base frames q1 s Hfd Hq1 Hu
      |q1 s Ht Hq1|r q1 s s' Ht Hq1 Hr Ha]; unfold frames_left in *; rewrite ?Hfd in *; simplify_eq.
    + exists (put f q). split_and!; [done|done|]. simpl. rewrite zlen_cons in Hp.
      unfold frames_left, put. simpl. destruct (pump s); try (split; [by destruct Hp|]); lia.
    + exists q. split_and!; [done|done|]. simpl. done.
    + destruct (pump s); try (destruct Hp as [_ Hp]); lia.
    + rewrite Ht in Hp. unfold pump_tick. pose proof (pump_frame_unfinished q) as Hu.
      destruct (pump_frame q) as [[out|] q1]; exists q1; unfold frames_left; simpl in *; rewrite Hu;
        split_and!; try done; try lia; by destruct Hp.
    + rewrite Ht in Hp. destruct Hp as [Hl Hp]. unfold pump_after in Ha.
      destruct (pump_pushed r q) as [[k q1]|] eqn:Hpp; [|done]. injection Ha as <-.
      apply pump_pushed_unfinished in Hpp as [Hu Hk]. rewrite Hk by (by apply Hr).
      exists q1. unfold frames_left. simpl. split_and!; [done|done|lia].
  - by exists q.
  - exists q. split_and!; [done|done|]. simpl. destruct (pump s); try done; lia.
  - exists q. split_and!; [done|done|]. simpl. by destruct (pump s); try (split; [|apply Hp]).
Qed.

(** Only a cancellation ends it. *)
Lemma stranded_never_returns s s' : stranded s -> rtc quiet s s' -> speaking (feed s') = true.
Proof.
  intros Hs Hr. assert (stranded s') as (q & _ & ? & _); [|done].
  eapply rtc_invariant; [apply stranded_stays|exact Hr|done].
Qed.

(** When [close_iterators] stops the pump during a playback, [audio_out] waits for ever. *)
Lemma line_end_strands_playback s q :
  line s = Up -> playout_q s = Some q -> speaking (feed s) = true -> 1 <= frames_left q (feed s) ->
  forall s', rtc quiet (stop_outbound_pump s <| line := Stopped |>) s' -> speaking (feed s') = true.
Proof. intros Hl Hq Hf Hn s'. apply stranded_never_returns. exists q. by split_and!. Qed.

(** So does a playback of two frames or more that starts after the line ended. *)
Lemma late_playback_strands s chunks :
  line s = Down -> pump s = PNone -> 2 <= zlen (feed_playout (ambient_active s) chunks) ->
  forall s', rtc quiet (audio_out chunks s) s' -> speaking (feed s') = true.
Proof.
  intros Hl Hp Hn s'. apply stranded_never_returns. unfold audio_out, start_outbound_pump. rewrite Hp.
  exists (fresh_queue (playout_q s)). split_and!; [done|done|]. simpl. split; [done|].
  unfold frames_left, fresh_queue. destruct (playout_q s); simpl in *; lia.
Qed.
End Speak.


Lemma barge_in_falls_silent_witness :
  let steps := step (fun _ => None) None in
  exists s, rtc steps new_speaker s /\ length (queued s) = 1%nat
    /\ exists s' tail_, feed_cancelled s = Some s' /\ zlen tail_ <= 10
        /\ forall s2, rtc quiet s' s2 -> exists k, taken s2 = taken s ++ take k tail_.
Proof.
  intros steps. eexists. split; [|split].
  - eapply rtc_l; [by apply (st_play _ _ [zeros 960])|].
    eapply rtc_l; [apply st_quiet, qu_own; eapply own_put; [reflexivity|reflexivity|vm_compute; lia]|].
    apply rtc_refl.
  - reflexivity.
  - match goal with |- context [feed_cancelled ?s] =>
      destruct (barge_in_falls_silent (fun _ => None) None s) as (s' & t & Hc & _ & Hn & Hp & _) end.
    + eapply rtc_l; [by apply (st_play _ _ [zeros 960])|].
      eapply rtc_l; [apply st_quiet, qu_own; eapply own_put; [reflexivity|reflexivity|vm_compute; lia]|].
      apply rtc_refl.
    + reflexivity.
    + exists s', t. split_and!; [exact Hc|exact Hn|exact Hp].
Defined.
End Speak.
