(* ===== verification/Providers.v ===== *)
(** * Speech and language providers

    [providers/tts_cache.py] (the phrase cache), [providers/llm_registry.py] (one
    client per provider and model) and [providers/asr_volcengine.py] (the vendor's
    binary frames, the 100 ms audio batching, the response parser and the
    reconnect loop).  The vendors, JSON and gzip are parameters. *)

From S2P Require Import Prelude Bytes.

(** ** The TTS cache *)
Module TtsCache.

Definition DEFAULT_MAX_ENTRIES : Z := 256.
Definition DEFAULT_MAX_TOTAL_BYTES : Z := 33554432.
Definition DEFAULT_MAX_CACHEABLE_CHARS : Z := 60.

Abbreviation key := (pystr * pystr)%type.

(** The ordered dict, least recently used first. *)
Record TtsCacheStore := mkStore {
  max_entries : Z; max_total_bytes : Z; store : list (key * list bytes); total_bytes : Z }.

#[export] Instance TtsCacheStore_eta : Eta TtsCacheStore := fun s =>
  mkStore (max_entries s) (max_total_bytes s) (store s) (total_bytes s).

Definition size_of (chunks : list bytes) : Z := zlen (concat chunks).

Fixpoint find (k : key) (l : list (key * list bytes)) : option (list bytes) :=
  match l with
  | [] => None
  | (k', v) :: l' => if decide (k' = k) then Some v else find k l'
  end.

Definition without (k : key) (l : list (key * list bytes)) : list (key * list bytes) :=
  List.filter (fun kv => negb (bool_decide (kv.1 = k))) l.

(** [get]: a hit becomes the most recently used. *)
Definition get (k : key) (s : TtsCacheStore) : option (list bytes) * TtsCacheStore :=
  match find k (store s) with
  | None => (None, s)
  | Some v => (Some v, s <| store := without k (store s) ++ [(k, v)] |>)
  end.

(** [_evict] pops from the front; each round removes an entry, so the store's
    length is fuel enough. *)
Fixpoint evict (fuel : nat) (s : TtsCacheStore) : TtsCacheStore :=
  match fuel, store s with
  | S n, (k, v) :: rest =>
      if (max_entries s <? zlen (store s)) || (max_total_bytes s <? total_bytes s) then
        evict n (s <| store := rest |> <| total_bytes ::= fun t => t - size_of v |>)
      else s
  | _, _ => s
  end.

Definition put (k : key) (chunks : list bytes) (s : TtsCacheStore) : TtsCacheStore :=
  let s1 := match find k (store s) with
            | Some v => s <| total_bytes ::= fun t => t - size_of v |> <| store ::= without k |>
            | None => s
            end in
  let size := size_of chunks in
  if max_total_bytes s1 <? size then s1
  else
    let s2 := s1 <| store ::= fun l => l ++ [(k, chunks)] |> <| total_bytes ::= Z.add size |> in
    evict (length (store s2)) s2.

(** How an inner synthesis went: the chunks it yielded and whether it ran to its
    end (an error or a barge-in does not). *)
Record synthesis := mkSynth { sy_chunks : list bytes; sy_complete : bool }.

(** [synthesize_stream] of the wrapper: what the caller receives and the store
    it leaves. *)
Definition synthesize_stream (max_cacheable_chars : Z) (inner : synthesis) (text voice : pystr)
  (s : TtsCacheStore) : list bytes * TtsCacheStore :=
  let k := (text, voice) in
  match get k s with
  | (Some hit, s') => (hit, s')
  | (None, s') =>
      if max_cacheable_chars <? zlen text then (sy_chunks inner, s')
      else if sy_complete inner then (sy_chunks inner, put k (sy_chunks inner) s')
      else (sy_chunks inner, s')
  end.

(** *** Invariant *)

Definition sum_sizes (l : list (key * list bytes)) : Z :=
  fold_right (fun kv acc => size_of kv.2 + acc) 0 l.

Record store_inv (s : TtsCacheStore) : Prop := {
  si_total : total_bytes s = sum_sizes (store s);
  si_bytes : total_bytes s <= max_total_bytes s;
  si_entries : zlen (store s) <= max_entries s;
  si_keys : NoDup (store s).*1
}.

Lemma sum_sizes_app l k : sum_sizes (l ++ k) = sum_sizes l + sum_sizes k.
Proof. induction l as [|x l IH]; simpl; [done|]. unfold sum_sizes in *. simpl. lia. Qed.

Lemma without_keys k l : (without k l).*1 = List.filter (fun k' => negb (bool_decide (k' = k))) l.*1.
Proof.
  unfold without. induction l as [|[k' v] l IH]; simpl; [done|].
  case_bool_decide; simpl; [exact IH|]. f_equal. exact IH.
Qed.

Lemma without_elem k k' l : k' ∈ (without k l).*1 <-> k' ∈ l.*1 /\ k' <> k.
Proof.
  rewrite without_keys, !list_elem_of_In, List.filter_In, negb_true_iff, bool_decide_eq_false.
  done.
Qed.

Lemma without_nodup k l : NoDup l.*1 -> NoDup (without k l).*1.
Proof.
  rewrite without_keys. intros H. rewrite NoDup_ListNoDup in *. by apply List.NoDup_filter.
Qed.

Lemma find_in k l v : find k l = Some v -> (k, v) ∈ l.
Proof.
  induction l as [|[k' v'] l IH]; simpl; [done|]. case_decide as Hk.
  - intros [= ->]. subst. left.
  - intros H. right. by apply IH.
Qed.

Lemma find_none k l : find k l = None -> k ∉ l.*1.
Proof.
  induction l as [|[k' v'] l IH]; simpl; [by intros _ ?%elem_of_nil|]. case_decide; [done|].
  intros H0 [->|Hin]%elem_of_cons; [done|]. by apply IH.
Qed.

Lemma find_unique k v l : NoDup l.*1 -> (k, v) ∈ l -> find k l = Some v.
Proof.
  induction l as [|[k' v'] l IH]; simpl; intros Hnd Hin; [by apply elem_of_nil in Hin|].
  apply NoDup_cons in Hnd as [Hn Hnd]. apply elem_of_cons in Hin as [[= -> ->]|Hin].
  - by rewrite decide_True.
  - rewrite decide_False; [by apply IH|]. intros ->. apply Hn.
    apply list_elem_of_fmap. by exists (k, v).
Qed.

Lemma without_absent k l : k ∉ l.*1 -> without k l = l.
Proof.
  induction l as [|[k' v'] l IH]; simpl; intros Hn; [done|].
  rewrite bool_decide_eq_false_2 by set_solver. simpl. rewrite IH; [done|set_solver].
Qed.

Lemma without_sum k l v :
  NoDup l.*1 -> find k l = Some v -> sum_sizes l = size_of v + sum_sizes (without k l)
    /\ zlen l = 1 + zlen (without k l).
Proof.
  induction l as [|[k' v'] l IH]; simpl; [done|]. intros [Hn Hnd]%NoDup_cons.
  case_decide as Hk.
  - intros [= ->]. subst k'. rewrite bool_decide_eq_true_2 by done. simpl.
    rewrite without_absent by done. rewrite zlen_cons. unfold sum_sizes. simpl. lia.
  - intros Hf. destruct (IH Hnd Hf) as [H1 H2]. rewrite bool_decide_eq_false_2 by done. simpl.
    rewrite !zlen_cons, H2. unfold sum_sizes in *. simpl. lia.
Qed.

(** Eviction ends within both bounds, dropping only the oldest entries. *)
Lemma evict_spec fuel s :
  (length (store s) <= fuel)%nat -> total_bytes s = sum_sizes (store s) ->
  0 <= max_entries s -> 0 <= max_total_bytes s -> NoDup (store s).*1 ->
  store_inv (evict fuel s) /\ (exists old, store s = old ++ store (evict fuel s))
  /\ max_entries (evict fuel s) = max_entries s
  /\ max_total_bytes (evict fuel s) = max_total_bytes s.
Proof.
  revert s. induction fuel as [|n IH]; intros s Hl Ht He Hb Hnd; simpl.
  - destruct (store s) as [|x l] eqn:Hs; [|simpl in Hl; lia]. split_and!; [|by exists []|done|done].
    constructor; rewrite ?Ht, ?Hs; simpl; done.
  - destruct (store s) as [|[k v] rest] eqn:Hs.
    { split_and!; [|by exists []|done|done].
      constructor; rewrite ?Ht, ?Hs; simpl; done. }
    destruct ((_ <? _) || _) eqn:Hover.
    + simpl in Hnd. apply NoDup_cons in Hnd as [_ Hnd].
      destruct (IH (s <| store := rest |> <| total_bytes ::= fun t => t - size_of v |>))
        as (Hi & (old & Ho) & H1 & H2); simpl in *; try done; [lia| |].
      * rewrite Ht. unfold sum_sizes. simpl. lia.
      * split_and!; [done| |done|done]. exists ((k, v) :: old). simpl. f_equal. exact Ho.
    + apply orb_false_iff in Hover as [H1 H2]. zbool. split_and!; [|by exists []|done|done].
      constructor; rewrite ?Hs; [by rewrite Ht, ?Hs|done|done|done].
Qed.

(** The newest entry survives its own eviction round. *)
Lemma evict_keeps_last fuel s l k v :
  store s = l ++ [(k, v)] -> total_bytes s = sum_sizes (store s) ->
  1 <= max_entries s -> size_of v <= max_total_bytes s ->
  exists l', store (evict fuel s) = l' ++ [(k, v)].
Proof.
  revert s l. induction fuel as [|n IH]; intros s l Hs Ht He Hb; simpl; [by exists l|].
  rewrite Hs. destruct l as [|[k0 v0] l]; simpl.
  - rewrite Ht, Hs. unfold sum_sizes, zlen. simpl.
    rewrite (proj2 (Z.ltb_ge _ _)) by lia. rewrite (proj2 (Z.ltb_ge _ _)) by lia. simpl.
    exists []. by rewrite Hs.
  - destruct ((_ <? _) || _); [|by exists ((k0, v0) :: l)].
    apply (IH _ l); simpl; try done. rewrite Ht, Hs. unfold sum_sizes. simpl. lia.
Qed.

Definition limits_ok (s : TtsCacheStore) : Prop := 1 <= max_entries s /\ 0 <= max_total_bytes s.

Lemma put_inv k chunks s :
  limits_ok s -> store_inv s ->
  store_inv (put k chunks s) /\ limits_ok (put k chunks s)
  /\ (forall k' v, (k', v) ∈ store (put k chunks s) ->
        (k' = k /\ v = chunks) \/ (k', v) ∈ store s)
  /\ (size_of chunks <= max_total_bytes s -> find k (store (put k chunks s)) = Some chunks).
Proof.
  intros [He Hb] [Ht Hbt Hn Hnd]. unfold put.
  set (s1 := match find k (store s) with Some v => _ | None => s end).
  assert (H1 : store s1 = without k (store s) /\ total_bytes s1 = sum_sizes (store s1)
               /\ total_bytes s1 <= total_bytes s /\ zlen (store s1) <= zlen (store s)
               /\ max_entries s1 = max_entries s /\ max_total_bytes s1 = max_total_bytes s).
  { unfold s1. destruct (find k (store s)) as [v|] eqn:Hf; simpl.
    - destruct (without_sum k (store s) v Hnd Hf) as [Hsum Hlen].
      assert (0 <= size_of v) by apply zlen_nonneg. split_and!; try done; lia.
    - rewrite without_absent by (by apply find_none). done. }
  destruct H1 as (Hs1 & Ht1 & Hle & Hlen & Hm1 & Hm2).
  assert (Hnd1 : NoDup (store s1).*1) by (rewrite Hs1; by apply without_nodup).
  assert (Hsub : forall k' v, (k', v) ∈ store s1 -> (k', v) ∈ store s).
  { intros k' v. rewrite Hs1. unfold without. rewrite !list_elem_of_In, List.filter_In. by intros []. }
  destruct (max_total_bytes s1 <? size_of chunks) eqn:Hbig; zbool.
  { split_and!; [by constructor; lia || done|unfold limits_ok; lia|by eauto|]. lia. }
  set (s2 := s1 <| store ::= _ |> <| total_bytes ::= _ |>).
  assert (Ht2 : total_bytes s2 = sum_sizes (store s2)).
  { unfold s2. simpl. rewrite sum_sizes_app, Ht1. unfold sum_sizes. simpl. lia. }
  assert (Hnd2 : NoDup (store s2).*1).
  { unfold s2. simpl. rewrite fmap_app. apply NoDup_app. split_and!; [done| |apply NoDup_singleton].
    intros x Hx. rewrite Hs1, without_elem in Hx. simpl. intros ->%list_elem_of_singleton. naive_solver. }
  destruct (evict_spec (length (store s2)) s2) as (Hi & (old & Ho) & Hme & Hmt);
    [done|done|simpl; lia|simpl; lia|done|].
  destruct (evict_keeps_last (length (store s2)) s2 (store s1) k chunks) as (l' & Hl');
    [done|done|simpl; lia|simpl; lia|].
  split_and!; [done|unfold limits_ok; rewrite Hme, Hmt; simpl; lia| |].
  - intros k' v Hin. assert (Hin2 : (k', v) ∈ store s2) by (rewrite Ho; set_solver).
    unfold s2 in Hin2. simpl in Hin2. apply elem_of_app in Hin2 as [?|[= -> ->]%list_elem_of_singleton];
      [right; eauto|by left].
  - intros _. apply find_unique; [apply si_keys, Hi|]. rewrite Hl'. set_solver.
Qed.

Lemma get_inv k s :
  limits_ok s -> store_inv s ->
  store_inv (get k s).2 /\ limits_ok (get k s).2
  /\ (forall kv, kv ∈ store (get k s).2 -> kv ∈ store s)
  /\ match (get k s).1 with Some v => (k, v) ∈ store s | None => (get k s).2 = s end.
Proof.
  intros Hlim [Ht Hbt Hn Hnd]. unfold get. destruct (find k (store s)) as [v|] eqn:Hf; simpl;
    [|by split_and!].
  pose proof (find_in _ _ _ Hf) as Hin. destruct (without_sum k (store s) v Hnd Hf) as [Hs Hl].
  split_and!; [|done| |done].
  - constructor; simpl; [|lia| |].
    + rewrite sum_sizes_app, Ht, Hs. unfold sum_sizes. simpl. lia.
    + rewrite zlen_app. unfold zlen at 2. simpl. lia.
    + rewrite fmap_app. apply NoDup_app. split_and!; [by apply without_nodup| |apply NoDup_singleton].
      intros x Hx%without_elem. simpl. intros ->%list_elem_of_singleton. naive_solver.
  - intros kv. rewrite elem_of_app. intros [Hx|Hx%list_elem_of_singleton]; [|by subst].
    unfold without in Hx. rewrite list_elem_of_In, List.filter_In in Hx.
    rewrite list_elem_of_In. by destruct Hx.
Qed.

(** A request and how its inner synthesis would go. *)
Record request := mkReq { rq_text : pystr; rq_voice : pystr; rq_inner : synthesis }.

Fixpoint run_requests (cap : Z) (rs : list request) (s : TtsCacheStore)
  : list (list bytes) * TtsCacheStore :=
  match rs with
  | [] => ([], s)
  | r :: rs' =>
      let '(out, s1) := synthesize_stream cap (rq_inner r) (rq_text r) (rq_voice r) s in
      let '(outs, s2) := run_requests cap rs' s1 in (out :: outs, s2)
  end.

(** C35: The cache is invisible and bounded.  If a phrase has one audio per voice, then over
    any sequence of requests, some cut short by errors or barge-ins, every caller
    hears either that complete audio or exactly what its own cut synthesis produced, never
    another request's truncated audio; and the store never exceeds its entry and
    byte limits, its byte count being exact. *)
Theorem tts_cache_transparent (audio : pystr -> pystr -> list bytes) cap rs s outs s' :
  limits_ok s -> store s = [] -> total_bytes s = 0 ->
  Forall (fun r => sy_complete (rq_inner r) = true ->
                   sy_chunks (rq_inner r) = audio (rq_text r) (rq_voice r)) rs ->
  run_requests cap rs s = (outs, s') ->
  store_inv s'
  /\ Forall2 (fun r out => out = audio (rq_text r) (rq_voice r)
                           \/ (sy_complete (rq_inner r) = false /\ out = sy_chunks (rq_inner r))) rs outs.
Proof.
  intros Hlim Hempty Hzero Hrs.
  assert (Hinv : store_inv s).
  { destruct Hlim. constructor; rewrite ?Hempty, ?Hzero; simpl; try done; [|by constructor].
    unfold zlen. simpl. lia. }
  assert (Hgood : forall k v, (k, v) ∈ store s -> v = audio k.1 k.2)
    by (rewrite Hempty; by intros k v ?%elem_of_nil).
  clear Hempty Hzero. revert s Hlim Hinv Hgood outs.
  induction Hrs as [|r rs Hr _ IH]; intros s Hlim Hinv Hgood outs; simpl.
  { intros [= <- <-]. by split. }
  destruct (synthesize_stream cap _ _ _ s) as [out s1] eqn:Hsyn.
  destruct (run_requests cap rs s1) as [outs' s2] eqn:Hrun. intros [= <- <-].
  assert (Hstep : store_inv s1 /\ limits_ok s1 /\ (forall k v, (k, v) ∈ store s1 -> v = audio k.1 k.2)
    /\ (out = audio (rq_text r) (rq_voice r)
        \/ (sy_complete (rq_inner r) = false /\ out = sy_chunks (rq_inner r)))).
  { unfold synthesize_stream in Hsyn.
    destruct (get_inv (rq_text r, rq_voice r) s Hlim Hinv) as (Hgi & Hgl & Hgs & Hgm).
    destruct (get _ s) as [[hit|] sg]; simpl in *.
    - injection Hsyn as <- <-. split_and!; eauto. left. apply (Hgood (rq_text r, rq_voice r)). done.
    - subst sg. destruct (sy_complete (rq_inner r)) eqn:Hc.
      + destruct (cap <? _); injection Hsyn as <- <-; [by split_and!; eauto|].
        destruct (put_inv (rq_text r, rq_voice r) (sy_chunks (rq_inner r)) s Hlim Hinv)
          as (Hpi & Hpl & Hps & _).
        split_and!; eauto. intros k v [[-> ->]|Hin]%Hps; eauto.
      + destruct (cap <? _); injection Hsyn as <- <-; by split_and!; eauto. }
  destruct Hstep as (H1 & H2 & H3 & H4). destruct (IH s1 H2 H1 H3 outs' Hrun) as [H5 H6].
  split; [done|]. by constructor.
Qed.

Lemma tts_cache_transparent_witness :
  exists outs s', run_requests 60
    [mkReq (u8 "喂") [] (mkSynth [[1; 2]] true); mkReq (u8 "喂") [] (mkSynth [[1]] false)]
    (mkStore 2 10 [] 0) = (outs, s') /\ store_inv s' /\ outs = [[[1; 2]]; [[1; 2]]].
Proof.
  destruct (run_requests 60
    [mkReq (u8 "喂") [] (mkSynth [[1; 2]] true); mkReq (u8 "喂") [] (mkSynth [[1]] false)]
    (mkStore 2 10 [] 0)) as [outs s'] eqn:Hrun.
  exists outs, s'. split; [done|]. split.
  - eapply (tts_cache_transparent (fun _ _ => [[1; 2]]) 60 _ (mkStore 2 10 [] 0));
      [split; simpl; lia|reflexivity|reflexivity| |exact Hrun].
    apply Forall_cons_2; [reflexivity|]. apply Forall_cons_2; [discriminate|]. apply Forall_nil_2.
  - vm_compute in Hrun. by injection Hrun as <- <-.
Defined.
End TtsCache.

(** ** The client registry *)
Module Registry.
Section Registry.
  Context {C : Type} `{EqDecision C}.
  (** [build_llm]: [Err true] is one of the three configuration errors the
      registry falls back on, [Err false] any other exception. *)
  Context (build_llm : pystr -> option pystr -> result bool C).

Record LLMRegistry := mkRegistry { default_client : C; cache : list (pystr * option pystr * C) }.

Fixpoint lookup_client (k : pystr * option pystr) (l : list (pystr * option pystr * C)) : option C :=
  match l with
  | [] => None
  | (k', c) :: l' => if decide (k' = k) then Some c else lookup_client k l'
  end.

Definition resolve (provider model : option pystr) (r : LLMRegistry)
  : result unit (C * LLMRegistry) :=
  match provider with
  | None | Some [] => Ok (default_client r, r)
  | Some p =>
      match lookup_client (p, model) (cache r) with
      | Some c => Ok (c, r)
      | None =>
          match build_llm p model with
          | Ok c => Ok (c, mkRegistry (default_client r) (cache r ++ [((p, model), c)]))
          | Err true =>
              Ok (default_client r,
                  mkRegistry (default_client r) (cache r ++ [((p, model), default_client r)]))
          | Err false => Err tt
          end
      end
  end.

(** The clients [aclose_all] closes: each once. *)
Definition aclose_all (r : LLMRegistry) : list C :=
  remove_dups (default_client r :: (cache r).*2).

Lemma lookup_client_app k l c :
  lookup_client k l = None -> lookup_client k (l ++ [(k, c)]) = Some c.
Proof.
  induction l as [|[k' c'] l IH]; simpl; [by rewrite decide_True|]. by case_decide.
Qed.

(** A slot keeps the client of its first resolution, whether it was built or
    fell back, and the registry closes it once. *)
Lemma resolve_stable provider model r c r' :
  resolve provider model r = Ok (c, r') ->
  resolve provider model r' = Ok (c, r') /\ c ∈ aclose_all r'.
Proof.
  unfold resolve, aclose_all. intros Hr.
  assert (Hdef : forall x : LLMRegistry, default_client x ∈ remove_dups (default_client x :: (cache x).*2))
    by (intros; rewrite elem_of_remove_dups; left).
  destruct provider as [[|ch p]|]; simplify_eq/=; [by split; auto| |by split; auto].
  destruct (lookup_client (ch :: p, model) (cache r)) eqn:Hl; simplify_eq/=.
  - rewrite Hl. split; [done|].
    apply (elem_of_remove_dups (default_client r' :: (cache r').*2)). right. clear -Hl. induction (cache r') as [|[k' c'] l IH]; simpl in *; [done|].
    case_decide; simplify_eq; [left|right; auto].
  - destruct (build_llm (ch :: p) model) as [c0|[|]]; simplify_eq/=;
      rewrite lookup_client_app by done; (split; [done|]).
    + apply (elem_of_remove_dups (default_client r :: (cache r ++ [_]).*2)). right.
      rewrite fmap_app. apply elem_of_app. right. left.
    + apply (elem_of_remove_dups (default_client r :: (cache r ++ [_]).*2)). left.
Qed.
End Registry.
End Registry.

(** ** The recogniser's wire protocol *)
Module Asr.

Definition PROTO_VERSION : Z := 1.
Definition HEADER_SIZE_UNITS : Z := 1.
Definition MSG_FULL_CLIENT_REQUEST : Z := 1.
Definition MSG_AUDIO_ONLY_REQUEST : Z := 2.
Definition MSG_FULL_SERVER_RESPONSE : Z := 9.
Definition MSG_ERROR_RESPONSE : Z := 15.
Definition FLAGS_NO_SEQ : Z := 0.
Definition FLAGS_POS_SEQ : Z := 1.
Definition FLAGS_NO_SEQ_LAST_PACKET : Z := 2.
Definition FLAGS_NEG_SEQ_LAST_PACKET : Z := 3.
Definition SERIALIZATION_RAW : Z := 0.
Definition SERIALIZATION_JSON : Z := 1.
Definition COMPRESSION_NONE : Z := 0.
Definition COMPRESSION_GZIP : Z := 1.

(** [None] when [bytes([...])] or [struct.pack] refuses a value. *)
Definition encode_frame (msg_type flags serialization compression : Z) (payload : bytes)
  (sequence : option Z) : option bytes :=
  let header := [Z.lor (Z.shiftl PROTO_VERSION 4) HEADER_SIZE_UNITS;
                 Z.lor (Z.shiftl msg_type 4) flags;
                 Z.lor (Z.shiftl serialization 4) compression; 0] in
  if forallb (fun b => (0 <=? b) && (b <? 256)) header && (zlen payload <? 4294967296)
     && match sequence with
        | Some n => (-2147483648 <=? n) && (n <=? 2147483647) | None => true end
  then Some (header
             ++ (match sequence with Some n => be_encode 4 n | None => [] end)
             ++ be_encode 4 (zlen payload) ++ payload)
  else None.

Record Decoded := mkDecoded {
  d_msg_type : Z; d_flags : Z; d_serialization : Z; d_compression : Z;
  d_sequence : option Z; d_error_code : option Z; d_payload : bytes }.

(** [ValueError] for a frame under four bytes; [struct.error], which is not a
    [ValueError], for one cut inside its numeric fields. *)
Inductive DecodeError : Type := FrameTooShort | StructError.

Definition to_signed32 (z : Z) : Z := if z <? 2147483648 then z else z - 4294967296.

(** [struct.unpack(fmt, raw[cursor:cursor + 4])[0]]. *)
Definition unpack_u32 (raw : bytes) (cursor : Z) : result DecodeError Z :=
  let s := slice cursor (cursor + 4) raw in
  if zlen s =? 4 then Ok (be_decode s) else Err StructError.

Definition unpack_i32 (raw : bytes) (cursor : Z) : result DecodeError Z :=
  let? u := unpack_u32 raw cursor in Ok (to_signed32 u).

Definition decode_frame (gunzip : bytes -> option bytes) (raw : bytes) : result DecodeError Decoded :=
  match raw with
  | b0 :: b1 :: b2 :: _ :: _ =>
      let msg_type := Z.shiftr b1 4 in
      let flags := Z.land b1 15 in
      let serialization := Z.shiftr b2 4 in
      let compression := Z.land b2 15 in
      let cursor := Z.land b0 15 * 4 in
      let? (error_code, sequence, cursor) :=
        if msg_type =? MSG_ERROR_RESPONSE then
          let? c := unpack_i32 raw cursor in Ok (Some c, None, cursor + 4)
        else if (flags =? FLAGS_POS_SEQ) || (flags =? FLAGS_NEG_SEQ_LAST_PACKET) then
          let? n := unpack_i32 raw cursor in Ok (None, Some n, cursor + 4)
        else Ok (None, None, cursor) in
      let? payload_size := unpack_u32 raw cursor in
      let cursor := cursor + 4 in
      let payload := slice cursor (cursor + payload_size) raw in
      let payload := if (compression =? COMPRESSION_GZIP) && negb (zlen payload =? 0) then
                       match gunzip payload with Some p => p | None => payload end
                     else payload in
      Ok (mkDecoded msg_type flags serialization compression sequence error_code payload)
  | _ => Err FrameTooShort
  end.

(** *** Sending audio *)

(** 100 ms of mono 16-bit audio. *)
Definition target_bytes (sample_rate : Z) : Z := (sample_rate / 10) * 2.

(** [while len(buf) >= target_bytes]; the buffer's length is fuel enough. *)
Fixpoint batch (fuel : nat) (target : Z) (buf : bytes) : list bytes * bytes :=
  match fuel with
  | O => ([], buf)
  | S n =>
      if target <=? zlen buf then
        let '(ps, rest) := batch n target (drop (Z.to_nat target) buf) in
        (take (Z.to_nat target) buf :: ps, rest)
      else ([], buf)
  end.

(** The payloads sent for a stream of chunks and the audio still buffered. *)
Fixpoint push_audio (target : Z) (chunks : list bytes) (buf : bytes) : list bytes * bytes :=
  match chunks with
  | [] => ([], buf)
  | c :: chunks' =>
      if zlen c =? 0 then push_audio target chunks' buf
      else
        let buf := buf ++ c in
        let '(ps, rest) := batch (length buf) target buf in
        let '(ps', rest') := push_audio target chunks' rest in
        (ps ++ ps', rest')
  end.

(** *** Results *)

Record ASRResult := mkASR { asr_text : pystr; asr_final : bool; asr_ts : Z }.

(** [now_ms] is [int((time.monotonic() - ts0) * 1000)]. *)
Definition parse_utterance (now_ms : Z) (utt : pyval) : list ASRResult :=
  match utt with
  | VDict u =>
      match dgetv "text" u with
      | VStr ((_ :: _) as text) =>
          let ts := match dgetv "end_time" u with
                    | VInt n => n
                    | VBool b => if b then 1 else 0
                    | VFloat q => Z.quot (Qnum q) (Zpos (Qden q))
                    | _ => now_ms
                    end in
          [mkASR text (truthy (dgetv "definite" u)) ts]
      | _ => []
      end
  | _ => []
  end.

Definition parse_v3_response (now_ms : Z) (data : pyval) : list ASRResult :=
  match data with
  | VDict d =>
      match dgetv "result" d with
      | VDict r =>
          match dgetv "utterances" r with
          | VList ((_ :: _) as us) => concat (map (parse_utterance now_ms) us)
          | _ =>
              match dgetv "text" r with
              | VStr ((_ :: _) as text) => [mkASR text false now_ms]
              | _ => []
              end
          end
      | _ => []
      end
  | _ => []
  end.

#[export] Instance ASRResult_eq_dec : EqDecision ASRResult.
Proof. solve_decision. Defined.

(** The results yielded, a repeated definite dropped. *)
Fixpoint dedup (rs : list ASRResult) (last : option (pystr * Z)) : list ASRResult * option (pystr * Z) :=
  match rs with
  | [] => ([], last)
  | r :: rs' =>
      if asr_final r then
        let sig := Some (asr_text r, asr_ts r) in
        if decide (sig = last) then dedup rs' last
        else let '(out, l) := dedup rs' sig in (r :: out, l)
      else let '(out, l) := dedup rs' last in (r :: out, l)
  end.

(** What one binary message does to the receive loop. *)
Inductive received : Type :=
| Skip                                    (* logged or ignored *)
| VendorError (code : option Z)           (* [ProviderInvalidRequest] *)
| Crash                                   (* an exception nothing here catches *)
| Results (rs : list ASRResult).

Definition receive (gunzip : bytes -> option bytes) (json_loads : bytes -> option pyval)
  (now_ms : Z) (raw : bytes) : received :=
  match decode_frame gunzip raw with
  | Err FrameTooShort => Skip
  | Err StructError => Crash
  | Ok d =>
      if d_msg_type d =? MSG_ERROR_RESPONSE then VendorError (d_error_code d)
      else if negb (d_msg_type d =? MSG_FULL_SERVER_RESPONSE) || (zlen (d_payload d) =? 0) then Skip
      else match json_loads (d_payload d) with
           | None => Skip
           | Some data => Results (parse_v3_response now_ms data)
           end
  end.

(** *** The reconnect loop *)

(** Where the push task was when its connection's [finally] cancelled it: waiting for
    the next chunk, or inside [ws.send]. *)
Inductive cancel_point : Type := AtNext | AtSend.

(** How a connection went: the results it yielded, how many chunks its push
    task read, and its end. *)
Inductive conn_end : Type := Disconnected (at_ : cancel_point) | CleanEnd | Failed.

Record connection := mkConn { cn_results : list ASRResult; cn_reads : nat; cn_end : conn_end }.

(** The audio iterator: an asynchronous generator; once an exception has passed
    through it, it is finished. *)
Abbreviation generator := (option (list bytes)).

Definition gen_read (n : nat) (g : generator) : list bytes * generator :=
  match g with None => ([], None) | Some l => (take n l, Some (drop n l)) end.

Inductive stream_end : Type := StreamReturned | ServerError | Waiting.

Fixpoint stream_recognize (target : Z) (backoffs attempt : nat) (conns : list connection)
  (g : generator) : list (list bytes) * list ASRResult * stream_end :=
  match conns with
  | [] => ([], [], Waiting)
  | c :: conns' =>
      let '(chunks, g1) := gen_read (cn_reads c) g in
      let sent := (push_audio target chunks []).1 in
      let attempt := match cn_results c with [] => attempt | _ => O end in
      match cn_end c with
      | CleanEnd => ([sent], cn_results c, StreamReturned)
      | Failed => ([sent], cn_results c, ServerError)
      | Disconnected at_ =>
          if (backoffs <=? attempt)%nat then ([sent], cn_results c, ServerError)
          else
            let g2 := match at_ with AtNext => None | AtSend => g1 end in
            let '(sents, rs, e) := stream_recognize target backoffs (S attempt) conns' g2 in
            (sent :: sents, cn_results c ++ rs, e)
      end
  end.

(** *** Frames *)

Lemma nibbles a b :
  0 <= a < 16 -> 0 <= b < 16 ->
  Z.shiftr (Z.lor (Z.shiftl a 4) b) 4 = a /\ Z.land (Z.lor (Z.shiftl a 4) b) 15 = b
  /\ 0 <= Z.lor (Z.shiftl a 4) b < 256.
Proof.
  intros Ha Hb.
  assert (H1 : Z.shiftr (Z.lor (Z.shiftl a 4) b) 4 = a).
  { rewrite Z.shiftr_lor, Z.shiftr_shiftl_l by lia. rewrite Z.sub_diag, Z.shiftl_0_r.
    rewrite (Z.shiftr_div_pow2 b) by lia. rewrite Z.div_small by lia. apply Z.lor_0_r. }
  assert (H2 : Z.land (Z.lor (Z.shiftl a 4) b) 15 = b).
  { rewrite Z.land_lor_distr_l. change 15 with (Z.ones 4). rewrite !Z.land_ones by lia.
    rewrite Z.shiftl_mul_pow2 by lia. rewrite Z_mod_mult, Z.mod_small by lia. apply Z.lor_0_l. }
  split_and!; [done|done| |].
  - apply Z.lor_nonneg. rewrite Z.shiftl_nonneg. lia.
  - assert (Hx : Z.lor (Z.shiftl a 4) b
                 = 16 * Z.shiftr (Z.lor (Z.shiftl a 4) b) 4 + Z.land (Z.lor (Z.shiftl a 4) b) 15).
    { change 15 with (Z.ones 4). rewrite Z.land_ones, Z.shiftr_div_pow2 by lia.
      apply Z.div_mod. lia. }
    rewrite H1, H2 in Hx. lia.
Qed.

Lemma slice_middle {A} (l m r : list A) a b :
  a = zlen l -> b = zlen l + zlen m -> slice a b (l ++ m ++ r) = m.
Proof.
  intros -> ->. unfold slice, zlen. rewrite Nat2Z.id, drop_app_length.
  replace (Z.to_nat _) with (length m) by lia. apply take_app_length.
Qed.

Lemma slice_tail {A} (l m : list A) a b :
  a = zlen l -> b = zlen l + zlen m -> slice a b (l ++ m) = m.
Proof. intros. rewrite <-(app_nil_r m) at 1. by apply slice_middle. Qed.

Lemma be4_length n : zlen (be_encode 4 n) = 4.
Proof. unfold zlen. by rewrite be_encode_length. Qed.

Lemma unpack_u32_app l n r c :
  c = zlen l -> 0 <= n < 4294967296 -> unpack_u32 (l ++ be_encode 4 n ++ r) c = Ok n.
Proof.
  intros -> Hn. unfold unpack_u32. rewrite slice_middle by (rewrite ?be4_length; done).
  rewrite be4_length. simpl. rewrite be_decode_encode. by rewrite Z.mod_small by (simpl; lia).
Qed.

Lemma unpack_i32_app l n r c :
  c = zlen l -> -2147483648 <= n <= 2147483647 -> unpack_i32 (l ++ be_encode 4 n ++ r) c = Ok n.
Proof.
  intros -> Hn. unfold unpack_i32, unpack_u32.
  rewrite slice_middle by (rewrite ?be4_length; done). rewrite be4_length. simpl.
  rewrite be_decode_encode. change (256 ^ Z.of_nat 4) with 4294967296. f_equal.
  unfold to_signed32. destruct (Z_lt_dec n 0).
  - replace (n mod 4294967296) with (n + 4294967296)
      by (rewrite <-(Z_mod_plus_full n 1 4294967296), Z.mod_small; lia).
    case_match; zbool; lia.
  - rewrite Z.mod_small by lia. case_match; zbool; lia.
Qed.

(** Decoding an encoded frame gives back its type, flags, serialization, compression,
    sequence number and payload, for every frame whose flags announce a sequence
    number exactly when it has one. *)
Theorem asr_frame_roundtrip gunzip msg_type flags ser comp payload sequence :
  0 <= msg_type < 16 -> msg_type <> MSG_ERROR_RESPONSE -> 0 <= flags < 16 -> 0 <= ser < 16 ->
  0 <= comp < 16 -> comp <> COMPRESSION_GZIP -> zlen payload < 4294967296 ->
  match sequence with
  | Some n => -2147483648 <= n <= 2147483647 /\ (flags = FLAGS_POS_SEQ \/ flags = FLAGS_NEG_SEQ_LAST_PACKET)
  | None => flags <> FLAGS_POS_SEQ /\ flags <> FLAGS_NEG_SEQ_LAST_PACKET
  end ->
  exists raw, encode_frame msg_type flags ser comp payload sequence = Some raw
    /\ decode_frame gunzip raw = Ok (mkDecoded msg_type flags ser comp sequence None payload).
Proof.
  intros Hm Hne Hf Hs Hc Hg Hp Hseq. pose proof (zlen_nonneg payload) as Hp0.
  destruct (nibbles msg_type flags Hm Hf) as (M1 & M2 & M3 & M4).
  destruct (nibbles ser comp Hs Hc) as (S1 & S2 & S3 & S4).
  set (h1 := Z.lor (Z.shiftl msg_type 4) flags) in *. set (h2 := Z.lor (Z.shiftl ser 4) comp) in *.
  set (header := [17; h1; h2; 0]).
  set (sq := match sequence with Some n => be_encode 4 n | None => [] end).
  exists (header ++ sq ++ be_encode 4 (zlen payload) ++ payload). split.
  { unfold encode_frame. fold h1 h2 sq. change (Z.lor (Z.shiftl PROTO_VERSION 4) HEADER_SIZE_UNITS) with 17.
    fold header. replace (_ && _) with true; [done|]. symmetry. unfold header. simpl.
    rewrite !(proj2 (Z.leb_le _ _)), !(proj2 (Z.ltb_lt _ _)) by lia. simpl.
    destruct sequence; [|done]. rewrite !(proj2 (Z.leb_le _ _)) by lia. done. }
  unfold decode_frame, header. cbn [app]. rewrite M1, M2, S1, S2.
  change (Z.land 17 15 * 4) with 4. rewrite (proj2 (Z.eqb_neq msg_type _)) by done.
  change (17 :: h1 :: h2 :: 0 :: sq ++ be_encode 4 (zlen payload) ++ payload)
    with (header ++ sq ++ be_encode 4 (zlen payload) ++ payload).
  rewrite (proj2 (Z.eqb_neq comp _)) by done. cbn [negb andb].
  destruct sequence as [n|]; simpl in sq.
  - destruct Hseq as [Hn Hfl].
    replace ((flags =? FLAGS_POS_SEQ) || (flags =? FLAGS_NEG_SEQ_LAST_PACKET)) with true
      by (symmetry; apply orb_true_iff; rewrite !Z.eqb_eq; done).
    unfold sq. rewrite unpack_i32_app by done. cbn [rbind].
    rewrite (app_assoc header), unpack_u32_app by (rewrite ?zlen_app, ?be4_length; done || lia).
    cbn [rbind]. do 2 f_equal.
    rewrite (app_assoc _ (be_encode 4 (zlen payload))).
    apply slice_tail; rewrite !zlen_app, !be4_length; unfold header, zlen; simpl; lia.
  - destruct Hseq as [Hf1 Hf2].
    rewrite (proj2 (Z.eqb_neq flags FLAGS_POS_SEQ)), (proj2 (Z.eqb_neq flags _)) by done.
    cbn [rbind orb]. unfold sq. rewrite app_nil_l. rewrite unpack_u32_app by (done || lia). cbn [rbind].
    do 2 f_equal. rewrite (app_assoc _ (be_encode 4 (zlen payload))).
    apply slice_tail; rewrite !zlen_app, !be4_length; unfold header, zlen; simpl; lia.
Qed.

Lemma asr_frame_roundtrip_witness :
  exists raw, encode_frame 2 0 0 0 [7; 8] None = Some raw
    /\ decode_frame (fun _ => None) raw = Ok (mkDecoded 2 0 0 0 None None [7; 8]).
Proof.
  apply asr_frame_roundtrip; try (unfold MSG_ERROR_RESPONSE, COMPRESSION_GZIP, zlen; simpl; lia).
  split; discriminate.
Defined.

(** A server frame cut inside its numeric fields is not skipped like a short
    frame: it ends the stream. *)
Lemma truncated_frame_crashes gunzip json now :
  receive gunzip json now [17; 144; 16; 0; 0] = Crash
  /\ receive gunzip json now [17; 144; 16] = Skip.
Proof. by split. Qed.

(** *** Batching *)

Lemma batch_spec target fuel buf ps rest :
  1 <= target -> (length buf <= fuel)%nat -> batch fuel target buf = (ps, rest) ->
  buf = concat ps ++ rest /\ Forall (fun p => zlen p = target) ps /\ zlen rest < target.
Proof.
  intros Ht. revert buf ps. induction fuel as [|n IH]; intros buf ps Hl; simpl.
  - intros [= <- <-]. destruct buf; simpl in *; [|lia]. unfold zlen. simpl. split_and!; auto; lia.
  - destruct (target <=? zlen buf) eqn:Hb; zbool.
    + destruct (batch n target _) as [ps' rest'] eqn:Hd. intros [= <- <-].
      assert (Hlen : (Z.to_nat target <= length buf)%nat) by (unfold zlen in Hb; lia).
      apply IH in Hd as (Hcat & Hf & Hr); [|rewrite length_drop; lia].
      split_and!; [|constructor; [|done]|done].
      * simpl. rewrite <-app_assoc, <-Hcat. by rewrite take_drop.
      * unfold zlen. rewrite length_take. lia.
    + intros [= <- <-]. split_and!; auto. 
Qed.

Lemma push_audio_spec target chunks buf ps rest :
  1 <= target -> zlen buf < target -> push_audio target chunks buf = (ps, rest) ->
  buf ++ concat chunks = concat ps ++ rest /\ Forall (fun p => zlen p = target) ps
  /\ zlen rest < target.
Proof.
  intros Ht. revert buf ps. induction chunks as [|c chunks IH]; intros buf ps Hb; simpl.
  - intros [= <- <-]. by rewrite app_nil_r.
  - destruct (zlen c =? 0) eqn:Hz.
    + destruct c; [apply IH; done|]. zbool. rewrite zlen_cons in Hz. pose proof (zlen_nonneg c). lia.
    + destruct (batch _ _ _) as [p1 r1] eqn:H1. destruct (push_audio target chunks r1) as [p2 r2] eqn:H2.
      intros [= <- <-]. apply batch_spec in H1 as (Hc1 & Hf1 & Hr1); [|done|done].
      apply IH in H2 as (Hc2 & Hf2 & Hr2); [|done]. split_and!; [|by apply Forall_app|done].
      by rewrite app_assoc, Hc1, <-app_assoc, Hc2, concat_app, <-app_assoc.
Qed.

(** The recogniser is sent the caller's audio unaltered and in order, in packets of
    exactly 100 ms however the line delivers it; less than one packet is ever held
    back. *)
Theorem asr_audio_batched sample_rate chunks :
  10 <= sample_rate ->
  let '(packets, rest) := push_audio (target_bytes sample_rate) chunks [] in
  concat chunks = concat packets ++ rest
  /\ Forall (fun p => zlen p = target_bytes sample_rate) packets
  /\ zlen rest < target_bytes sample_rate.
Proof.
  intros Hr. assert (Ht : 1 <= target_bytes sample_rate).
  { unfold target_bytes. pose proof (Z.div_le_lower_bound sample_rate 10 1). lia. }
  destruct (push_audio _ chunks []) as [ps rest] eqn:Hp.
  apply push_audio_spec in Hp; [exact Hp|done|unfold zlen; simpl; lia].
Qed.

Lemma asr_audio_batched_witness :
  let '(packets, rest) := push_audio (target_bytes 20) [[1]; []; [2; 3; 4; 5]] [] in
  concat [[1]; []; [2; 3; 4; 5]] = concat packets ++ rest
  /\ Forall (fun p => zlen p = target_bytes 20) packets /\ zlen rest < target_bytes 20.
Proof. apply (asr_audio_batched 20 [[1]; []; [2; 3; 4; 5]]). lia. Defined.

(** *** Reconnecting *)

(** After a disconnect that caught the push task waiting for audio, the iterator is
    finished and no later connection is sent anything: the call's recogniser
    is deaf although it has reconnected. *)
Lemma deaf_after_reconnect target backoffs attempt c conns g sents rs e :
  cn_end c = Disconnected AtNext ->
  stream_recognize target backoffs attempt (c :: conns) g = (sents, rs, e) ->
  exists first later, sents = first :: later /\ Forall (fun s => s = []) later.
Proof.
  assert (Hnone : forall conns a sents rs e,
    stream_recognize target backoffs a conns None = (sents, rs, e) -> Forall (fun s => s = []) sents).
  { clear. induction conns as [|c conns IH]; intros a sents rs e; simpl; [by intros [= <- <- <-]|].
    destruct (cn_end c) as [at_| |]; [|intros [= <- <- <-]; by repeat constructor..].
    destruct (_ <=? _)%nat; [intros [= <- <- <-]; by repeat constructor|].
    replace (match at_ with AtNext => None | AtSend => None end) with (@None (list bytes))
      by (by destruct at_).
    destruct (stream_recognize _ _ _ conns None) as [[ss rr] ee] eqn:Hs. intros [= <- <- <-].
    constructor; [done|]. by eapply IH. }
  intros He. cbn [stream_recognize]. rewrite He. destruct (gen_read _ g) as [chunks g1].
  destruct (_ <=? _)%nat; [intros [= <- <- <-]; by eexists _, []|].
  destruct (stream_recognize _ _ _ conns None) as [[ss rr] ee] eqn:Hs. intros [= <- <- <-].
  eexists _, ss. split; [done|]. by eapply Hnone.
Qed.
End Asr.
