(* ===== verification/AsrStream.v ===== *)
(** * The recogniser's connection

    [providers/asr_volcengine.py], [stream_recognize] and [_stream_one_connection]: the
    push task, the receive loop and the reconnects of one call as interleaved steps, cut at
    their awaits.  [Providers.Asr] has the sequential account of the same loop (what each
    connection is sent and yields); here every interleaving is shown to refine it.  The
    websocket, [gzip] and [json] are parameters. *)

From S2P Require Import Prelude Bytes Audio Providers.
Import Providers.Asr.

(** ** The first message *)

(** [max(200, int(partial_stable_s * 1000))]. *)
Definition end_window_ms (partial_stable_s : Q) : Z := Z.max 200 (qtrunc (partial_stable_s * 1000)).

Definition config_payload (sample_rate : Z) (partial_stable_s : Q) : pyval :=
  VDict [("user"%string, VDict [("uid"%string, VStr (u8 "isales-engine"))]);
         ("audio"%string, VDict [("format"%string, VStr (u8 "pcm")); ("rate"%string, VInt sample_rate);
                          ("bits"%string, VInt 16); ("channel"%string, VInt 1);
                          ("language"%string, VStr (u8 "zh-CN"))]);
         ("request"%string, VDict [("model_name"%string, VStr (u8 "bigmodel"));
                            ("enable_itn"%string, VBool true); ("enable_punc"%string, VBool true);
                            ("result_type"%string, VStr (u8 "single"));
                            ("show_utterances"%string, VBool true);
                            ("end_window_size"%string, VInt (end_window_ms partial_stable_s))])].

(** The two kinds of frame the client sends. *)
Definition config_frame (json_dumps : pyval -> bytes) (sample_rate : Z) (partial_stable_s : Q) : option bytes :=
  encode_frame MSG_FULL_CLIENT_REQUEST FLAGS_NO_SEQ SERIALIZATION_JSON COMPRESSION_NONE
    (json_dumps (config_payload sample_rate partial_stable_s)) None.

Definition audio_frame (payload : bytes) : option bytes :=
  encode_frame MSG_AUDIO_ONLY_REQUEST FLAGS_NO_SEQ SERIALIZATION_RAW COMPRESSION_NONE payload None.

(** ** The tasks *)

(** The push task of a connection: not there, created, waiting for the next chunk, inside
    [ws.send] of the first packet of its buffer, or finished (the audio ended, or a failed
    send, which it only logs). *)
Inductive Push : Type := NoPush | Spawned | PushNext (buf : bytes) | PushSend (buf : bytes) | PushDone.

(** How the generator ended: as in the sequential account, or closed by its consumer. *)
Inductive Finish : Type := Ended (e : stream_end) | Abandoned.

(** Where the generator is; [Yielding] holds the results of the last message still to be
    yielded. *)
Inductive Phase : Type :=
| Connecting
| Receiving
| Yielding (todo : list ASRResult)
| Backoff
| Finished (f : Finish).

(** [past] and [past_sent]: the connections that ended and the packets each was sent.  The
    fields [c_*] are the present connection's: the results it yielded, all results parsed
    from its messages, the chunks read, the packets sent. *)
Record Stream := mkStream {
  phase : Phase; gen : generator; push : Push; attempt : nat; last_final_sig : option (pystr * Z);
  past : list connection; past_sent : list (list bytes);
  c_results : list ASRResult; c_seen : list ASRResult; c_reads : nat; c_sent : list bytes }.

#[export] Instance Stream_eta : Eta Stream := fun s =>
  mkStream (phase s) (gen s) (push s) (attempt s) (last_final_sig s) (past s) (past_sent s)
    (c_results s) (c_seen s) (c_reads s) (c_sent s).

(** [audio] is the audio the call will deliver; a read happens when a chunk is there. *)
Definition new_stream (audio : list bytes) : Stream :=
  mkStream Connecting (Some audio) NoPush 0 None [] [] [] [] 0 [].

Section AsrStream.
  Context (target : Z) (backoffs : nat).
  Context (gunzip : bytes -> option bytes) (json_loads : bytes -> option pyval).

(** [while len(buf) >= target_bytes]. *)
Definition push_loop (buf : bytes) : Push :=
  if target <=? zlen buf then PushSend buf else PushNext buf.

(** The next chunk reaches the push task. *)
Definition push_read (c : bytes) (rest : list bytes) (buf : bytes) (s : Stream) : Stream :=
  s <| gen := Some rest |> <| c_reads ::= S |>
    <| push := if zlen c =? 0 then PushNext buf else push_loop (buf ++ c) |>.

(** [ws.send] returned. *)
Definition push_sent (buf : bytes) (s : Stream) : Stream :=
  s <| c_sent ::= fun l => l ++ [take (Z.to_nat target) buf] |>
    <| push := push_loop (drop (Z.to_nat target) buf) |>.

Definition cancel_at (p : Push) : cancel_point := match p with PushNext _ => AtNext | _ => AtSend end.

(** The [finally]s of a connection: the push task is cancelled; one that waits for audio
    takes the audio generator with it. *)
Definition conn_over (e : conn_end) (s : Stream) : Stream :=
  s <| past ::= fun l => l ++ [mkConn (c_results s) (c_reads s) e] |>
    <| past_sent ::= fun l => l ++ [c_sent s] |>
    <| gen ::= fun g => match push s with PushNext _ => None | _ => g end |>
    <| push := NoPush |> <| last_final_sig := None |>
    <| c_results := [] |> <| c_seen := [] |> <| c_reads := 0%nat |> <| c_sent := [] |>.

(** [except ConnectionClosed] of the reconnect loop. *)
Definition disconnected (s : Stream) : Stream :=
  let s' := conn_over (Disconnected (cancel_at (push s))) s in
  if (backoffs <=? attempt s)%nat then s' <| phase := Finished (Ended ServerError) |>
  else s' <| phase := Backoff |> <| attempt := S (attempt s) |>.

Definition finish (e : conn_end) (f : Finish) (s : Stream) : Stream := conn_over e s <| phase := Finished f |>.

(** One binary message. *)
Definition message (now_ms : Z) (raw : bytes) (s : Stream) : Stream :=
  match receive gunzip json_loads now_ms raw with
  | Skip => s
  | VendorError _ | Crash => finish Failed (Ended ServerError) s
  | Results rs =>
      let '(ys, sig) := dedup rs (last_final_sig s) in
      s <| phase := Yielding ys |> <| last_final_sig := sig |> <| c_seen ::= fun l => l ++ rs |>
  end.

Definition live (p : Phase) : bool := match p with Finished _ => false | _ => true end.

Inductive step : Stream -> Stream -> Prop :=
(* connecting, up to the task's creation *)
| st_connected s : phase s = Connecting -> step s (s <| phase := Receiving |> <| push := Spawned |>)
| st_connect_closed s : phase s = Connecting -> step s (disconnected s)
| st_connect_failed s : phase s = Connecting -> step s (finish Failed (Ended ServerError) s)
| st_backoff s : phase s = Backoff -> step s (s <| phase := Connecting |>)
(* the receive loop; the consumer resumes the generator after each result *)
| st_message now raw s : phase s = Receiving -> step s (message now raw s)
| st_text s : phase s = Receiving -> step s s
| st_yield r todo s :
    phase s = Yielding (r :: todo) ->
    step s (s <| phase := Yielding todo |> <| attempt := 0%nat |> <| c_results ::= fun l => l ++ [r] |>)
| st_yielded s : phase s = Yielding [] -> step s (s <| phase := Receiving |>)
| st_closed s : phase s = Receiving -> step s (disconnected s)
| st_closed_ok s : phase s = Receiving -> step s (finish CleanEnd (Ended StreamReturned) s)
| st_abandon s : live (phase s) = true -> step s (finish CleanEnd Abandoned s)
(* the push task *)
| st_push_start s : push s = Spawned -> step s (s <| push := PushNext [] |>)
| st_push_read c rest buf s :
    push s = PushNext buf -> gen s = Some (c :: rest) -> step s (push_read c rest buf s)
| st_push_end buf s :
    push s = PushNext buf -> gen s = Some [] \/ gen s = None -> step s (s <| push := PushDone |>)
| st_push_sent buf s : push s = PushSend buf -> step s (push_sent buf s)
| st_push_failed buf s : push s = PushSend buf -> step s (s <| push := PushDone |>).

(** Everything yielded so far. *)
Definition yielded (s : Stream) : list ASRResult := concat (map cn_results (past s)) ++ c_results s.
Definition sent (s : Stream) : list (list bytes) :=
  past_sent s ++ if live (phase s) then [c_sent s] else [].

(** The connections so far, the present one as if it closed now. *)
Definition connections (s : Stream) : list connection :=
  past s ++ if live (phase s) then [mkConn (c_results s) (c_reads s) CleanEnd] else [].

(** ** The sequential account, connection by connection *)

Lemma batch_fuel fuel buf :
  1 <= target -> (length buf <= fuel)%nat -> batch fuel target buf = batch (length buf) target buf.
Proof.
  intros Ht. revert buf. induction fuel as [fuel IH] using lt_wf_ind. intros buf Hl.
  destruct buf as [|b buf].
  { destruct fuel; [done|]. cbn [batch length]. rewrite (proj2 (Z.leb_gt _ _)); [done|]. unfold zlen. simpl. lia. }
  destruct fuel as [|n]; [simpl in Hl; lia|]. cbn [batch length].
  destruct (target <=? zlen (b :: buf)) eqn:Hb; [|done].
  assert (Hd : (length (drop (Z.to_nat target) (b :: buf)) <= length buf)%nat)
    by (rewrite length_drop; simpl; lia).
  simpl in Hl. rewrite (IH n), (IH (length buf)); [done|lia|lia|lia|lia].
Qed.

(** The buffer after one more packet. *)
Lemma batch_next buf :
  1 <= target -> target <= zlen buf ->
  let rest := drop (Z.to_nat target) buf in
  batch (length buf) target buf
  = (take (Z.to_nat target) buf :: (batch (length rest) target rest).1, (batch (length rest) target rest).2).
Proof.
  intros Ht Hl. destruct buf as [|b buf]; [unfold zlen in Hl; simpl in Hl; lia|].
  cbn [length batch]. rewrite (proj2 (Z.leb_le _ _)) by done.
  rewrite (batch_fuel (length buf)); [by destruct (batch _ _ _)|done|]. rewrite length_drop. simpl. lia.
Qed.

Lemma push_audio_snoc chunks c buf :
  push_audio target (chunks ++ [c]) buf
  = let '(ps, rest) := push_audio target chunks buf in
    if zlen c =? 0 then (ps, rest)
    else let '(ps', rest') := batch (length (rest ++ c)) target (rest ++ c) in (ps ++ ps', rest').
Proof.
  revert buf. induction chunks as [|d chunks IH]; intros buf; cbn [push_audio app].
  - destruct (zlen c =? 0); [done|]. destruct (batch _ _ _). by rewrite app_nil_r.
  - destruct (zlen d =? 0); [apply IH|]. destruct (batch _ _ _) as [p r]. rewrite IH.
    destruct (push_audio target chunks r) as [ps rest]. destruct (zlen c =? 0); [done|].
    destruct (batch _ _ _) as [p' r']. by rewrite app_assoc.
Qed.

Lemma dedup_app rs ks l :
  dedup (rs ++ ks) l
  = ((dedup rs l).1 ++ (dedup ks (dedup rs l).2).1, (dedup ks (dedup rs l).2).2).
Proof.
  revert l. induction rs as [|r rs IH]; intros l; simpl; [by destruct (dedup ks l)|].
  destruct (asr_final r).
  - destruct (decide _); [apply IH|]. specialize (IH (Some (asr_text r, asr_ts r))).
    destruct (dedup (rs ++ ks) _). destruct (dedup rs _). simpl in *. by injection IH as -> ->.
  - specialize (IH l). destruct (dedup (rs ++ ks) _). destruct (dedup rs _). simpl in *.
    by injection IH as -> ->.
Qed.

(** The state between connections, all of which were lost. *)
Fixpoint after (att : nat) (conns : list connection) (g : generator)
  : option (list (list bytes) * nat * generator) :=
  match conns with
  | [] => Some ([], att, g)
  | c :: conns' =>
      let '(chunks, g1) := gen_read (cn_reads c) g in
      let att := match cn_results c with [] => att | _ => O end in
      match cn_end c with
      | CleanEnd | Failed => None
      | Disconnected at_ =>
          if (backoffs <=? att)%nat then None
          else match after (S att) conns' (match at_ with AtNext => None | AtSend => g1 end) with
               | None => None
               | Some (ss, a, g') => Some ((push_audio target chunks []).1 :: ss, a, g')
               end
      end
  end.

Lemma after_app conns l att g ss a g' :
  after att conns g = Some (ss, a, g') ->
  stream_recognize target backoffs att (conns ++ l) g
  = let '(s1, r1, e1) := stream_recognize target backoffs a l g' in
    (ss ++ s1, concat (map cn_results conns) ++ r1, e1).
Proof.
  revert att g ss. induction conns as [|c0 conns IH]; intros att g ss.
  { intros [= <- <- <-]. cbn [app]. by destruct (stream_recognize _ _ att l g) as [[??]?]. }
  cbn [after app stream_recognize]. destruct (gen_read _ g) as [chunks g1].
  destruct (cn_end c0) as [at_| |]; [|done|done]. destruct (_ <=? _)%nat; [done|].
  destruct (after _ conns _) as [[[ss' a'] g2]|] eqn:Ha; [|done]. intros [= <- <- <-].
  rewrite (IH _ _ _ Ha). destruct (stream_recognize _ _ a' l g2) as [[s1 r1] e1].
  simpl. by rewrite app_assoc.
Qed.

Lemma after_snoc conns l att g ss a g' :
  after att conns g = Some (ss, a, g') ->
  after att (conns ++ l) g
  = match after a l g' with Some (s1, a1, g1) => Some (ss ++ s1, a1, g1) | None => None end.
Proof.
  revert att g ss. induction conns as [|c0 conns IH]; intros att g ss.
  { intros [= <- <- <-]. cbn [app]. by destruct (after att l g) as [[[??]?]|]. }
  cbn [app]. intros H. cbn [after] in H |- *. destruct (gen_read (cn_reads c0) g) as [chunks g1].
  destruct (cn_end c0) as [at_| |]; [|done|done]. destruct (_ <=? _)%nat; [done|].
  destruct (after _ conns _) as [[[ss' a'] g2]|] eqn:Ha; [|done]. injection H as <- <- <-.
  rewrite (IH _ _ _ Ha). by destruct (after a' l g2) as [[[??]?]|].
Qed.

(** ** Invariant *)

Context (audio : list bytes) (Htarget : 1 <= target).

Definition push_ok (p : Push) (sent chunks : list bytes) : Prop :=
  match p with
  | NoPush | Spawned => chunks = [] /\ sent = []
  | PushNext buf => push_audio target chunks [] = (sent, buf)
  | PushSend buf =>
      target <= zlen buf
      /\ push_audio target chunks []
         = (sent ++ (batch (length buf) target buf).1, (batch (length buf) target buf).2)
  | PushDone => sent `prefix_of` (push_audio target chunks []).1
  end.

Definition todo (p : Phase) : list ASRResult := match p with Yielding l => l | _ => [] end.

(** The chunks of [g] read so far, and that there were that many. *)
Definition reads_ok (n : nat) (g : generator) : Prop :=
  match g with Some l => (n <= length l)%nat | None => n = O end.

(** A connection yields the results of its messages without repeated finals, in order. *)
Definition results_ok (c : connection) : Prop := exists seen, cn_results c `prefix_of` (dedup seen None).1.

(** [ss], [a] and [g]: what the lost connections were to be sent, the retries counted and
    the audio iterator when the present connection began. *)
Record live_inv (s : Stream) (ss : list (list bytes)) (a : nat) (g : generator) : Prop := {
  lv_after : after 0 (past s) (Some audio) = Some (ss, a, g);
  lv_sent : Forall2 prefix (past_sent s) ss;
  lv_attempt : attempt s = match c_results s with [] => a | _ => O end;
  lv_bound : (attempt s <= backoffs)%nat;
  lv_gen : gen s = (gen_read (c_reads s) g).2;
  lv_reads : reads_ok (c_reads s) g;
  lv_push : push_ok (push s) (c_sent s) (gen_read (c_reads s) g).1;
  lv_results : dedup (c_seen s) None = (c_results s ++ todo (phase s), last_final_sig s);
  lv_idle : phase s = Connecting \/ phase s = Backoff -> push s = NoPush /\ c_results s = []
}.

Definition done_inv (f : Finish) (s : Stream) : Prop :=
  exists ss e, stream_recognize target backoffs 0 (past s) (Some audio)
               = (ss, concat (map cn_results (past s)), e)
    /\ Forall2 prefix (past_sent s) ss /\ c_results s = [] /\ (attempt s <= backoffs)%nat
    /\ match f with Ended e' => e = e' | Abandoned => True end.

Definition stream_inv (s : Stream) : Prop :=
  Forall results_ok (past s)
  /\ match phase s with Finished f => done_inv f s /\ push s = NoPush | _ => exists ss a g, live_inv s ss a g end.

Lemma push_ok_prefix p sent chunks : push_ok p sent chunks -> sent `prefix_of` (push_audio target chunks []).1.
Proof.
  destruct p as [| |buf|buf|]; simpl.
  - intros [-> ->]. done.
  - intros [-> ->]. done.
  - by intros ->.
  - intros [_ ->]. simpl. by apply prefix_app_r.
  - done.
Qed.

Lemma push_loop_ok buf sent chunks :
  push_audio target chunks [] = (sent ++ (batch (length buf) target buf).1, (batch (length buf) target buf).2) ->
  push_ok (push_loop buf) sent chunks.
Proof.
  intros Hp. unfold push_loop. destruct (target <=? zlen buf) eqn:Hb; zbool; simpl; [done|].
  assert (Hn : batch (length buf) target buf = ([], buf)).
  { destruct buf as [|b buf]; [done|]. cbn [length batch]. by rewrite (proj2 (Z.leb_gt _ _)). }
  rewrite Hp, Hn. simpl. by rewrite app_nil_r.
Qed.

Lemma gen_read_S n g c rest :
  reads_ok n g -> (gen_read n g).2 = Some (c :: rest) ->
  reads_ok (S n) g /\ (gen_read (S n) g).2 = Some rest /\ (gen_read (S n) g).1 = (gen_read n g).1 ++ [c].
Proof.
  destruct g as [l|]; simpl; [|done]. intros Hn [= Hd].
  assert (Hl : l !! n = Some c) by (rewrite <-(Nat.add_0_r n), <-lookup_drop, Hd; done).
  apply lookup_lt_Some in Hl as Hlt. split_and!; [lia| |].
  - f_equal. rewrite <-Nat.add_1_r, <-drop_drop, Hd. done.
  - by apply take_S_r.
Qed.

Lemma push_read_ok c rest buf s ss a g :
  live_inv s ss a g -> push s = PushNext buf -> gen s = Some (c :: rest) ->
  live_inv (push_read c rest buf s) ss a g.
Proof.
  intros [H1 H2 H3 H4 H5 H6 H7 H8 H9] Hp Hg. rewrite Hg in H5. symmetry in H5.
  destruct (gen_read_S _ _ _ _ H6 H5) as (Hr & Hg' & Hc). rewrite Hp in H7. simpl in H7.
  constructor; simpl; try done; [|intros Hx; destruct (H9 Hx); congruence].
  rewrite Hc. destruct (zlen c =? 0) eqn:Hz; simpl.
  - rewrite push_audio_snoc, H7, Hz. done.
  - apply push_loop_ok. rewrite push_audio_snoc, H7, Hz. by destruct (batch _ _ _).
Qed.

Lemma push_sent_ok buf s ss a g :
  live_inv s ss a g -> push s = PushSend buf -> live_inv (push_sent buf s) ss a g.
Proof.
  intros [H1 H2 H3 H4 H5 H6 H7 H8 H9] Hp. rewrite Hp in H7. destruct H7 as [Hl H7].
  constructor; simpl; try done; [|intros Hx; destruct (H9 Hx); congruence].
  apply push_loop_ok. rewrite H7. rewrite (batch_next buf Htarget Hl). simpl. by rewrite <-app_assoc.
Qed.

Lemma current_results s ss a g e : live_inv s ss a g -> results_ok (mkConn (c_results s) (c_reads s) e).
Proof. intros Hi. exists (c_seen s). rewrite (lv_results _ _ _ _ Hi). by apply prefix_app_r. Qed.

(** The present connection as the last one of the sequential account. *)
Lemma over_last s ss a g e f :
  live_inv s ss a g ->
  match e with
  | CleanEnd => f = StreamReturned
  | Failed => f = ServerError
  | Disconnected _ => (backoffs <= attempt s)%nat /\ f = ServerError
  end ->
  stream_recognize target backoffs 0 (past s ++ [mkConn (c_results s) (c_reads s) e]) (Some audio)
  = (ss ++ [(push_audio target (gen_read (c_reads s) g).1 []).1],
     concat (map cn_results (past s)) ++ c_results s, f).
Proof.
  intros [H1 H2 H3 H4 H5 H6 H7 H8 H9] He. rewrite (after_app _ _ _ _ _ _ _ H1). cbn [stream_recognize cn_reads cn_results cn_end].
  destruct (gen_read (c_reads s) g) as [chunks g1]. rewrite <-H3.
  destruct e as [at_| |]; [|by subst..]. destruct He as [He ->]. by rewrite (proj2 (Nat.leb_le _ _)).
Qed.

Lemma finish_ok s ss a g e f :
  Forall results_ok (past s) -> live_inv s ss a g ->
  match e with
  | CleanEnd => f = Ended StreamReturned \/ f = Abandoned
  | Failed => f = Ended ServerError
  | Disconnected _ => (backoffs <= attempt s)%nat /\ f = Ended ServerError
  end ->
  stream_inv (finish e f s).
Proof.
  intros Hres Hi He. split; simpl.
  { apply Forall_app. split; [done|]. constructor; [by eapply current_results|done]. }
  split; [|done].
  assert (Hf : exists x, match e with
     | CleanEnd => x = StreamReturned | Failed => x = ServerError
     | Disconnected _ => (backoffs <= attempt s)%nat /\ x = ServerError end
     /\ match f with Ended e' => x = e' | Abandoned => True end)
    by (destruct e; naive_solver).
  destruct Hf as (x & Hx & Hfx).
  eexists _, x. split; [|split_and!].
  - simpl. rewrite map_app, concat_app. simpl. rewrite app_nil_r. by apply (over_last s ss a g).
  - simpl. apply Forall2_app; [apply Hi|]. constructor; [|done].
    eapply push_ok_prefix, Hi.
  - done.
  - apply Hi.
  - done.
Qed.

Lemma disconnected_inv s ss a g :
  Forall results_ok (past s) -> live_inv s ss a g -> stream_inv (disconnected s).
Proof.
  intros Hres Hi. unfold disconnected. destruct (backoffs <=? attempt s)%nat eqn:Hb.
  { apply Nat.leb_le in Hb. by apply (finish_ok s ss a g). }
  apply Nat.leb_gt in Hb. pose proof Hi as [H1 H2 H3 H4 H5 H6 H7 H8 H9]. split; simpl.
  { apply Forall_app. split; [done|]. constructor; [by eapply current_results|done]. }
  set (g2 := match push s with PushNext _ => None | _ => gen s end).
  exists (ss ++ [(push_audio target (gen_read (c_reads s) g).1 []).1]), (S (attempt s)), g2.
  constructor; simpl; try done.
  - rewrite (after_snoc _ _ _ _ _ _ _ H1). cbn [after cn_reads cn_results cn_end].
    unfold g2. rewrite H5. destruct (gen_read (c_reads s) g) as [chunks g1]. rewrite <-H3.
    rewrite (proj2 (Nat.leb_gt _ _)) by done. simpl. by destruct (push s).
  - apply Forall2_app; [done|]. constructor; [|done]. by eapply push_ok_prefix.
  - destruct g2; simpl; [by rewrite drop_0|done].
  - destruct g2; simpl; [lia|done].
  - by destruct g2.
Qed.

Lemma message_inv now raw s ss a g :
  Forall results_ok (past s) -> live_inv s ss a g -> phase s = Receiving -> stream_inv (message now raw s).
Proof.
  intros Hres Hi Hp. unfold message. destruct (receive _ _ now raw) as [|code| |rs].
  - split; [done|]. rewrite Hp. eauto.
  - by apply (finish_ok s ss a g).
  - by apply (finish_ok s ss a g).
  - pose proof Hi as [H1 H2 H3 H4 H5 H6 H7 H8 H9]. rewrite Hp in *. simpl in H8. rewrite app_nil_r in H8.
    destruct (dedup rs (last_final_sig s)) as [ys sig] eqn:Hd. split; [done|]. simpl.
    exists ss, a, g. constructor; simpl; try done; [|by intros [?|?]].
    rewrite dedup_app, H8. simpl. by rewrite Hd.
Qed.

(** The push task runs whatever the receive loop does. *)
Lemma live_push p s ss a g :
  live_inv s ss a g -> push_ok p (c_sent s) (gen_read (c_reads s) g).1 -> push s <> NoPush ->
  live_inv (s <| push := p |>) ss a g.
Proof.
  intros [H1 H2 H3 H4 H5 H6 H7 H8 H9] Hok Hp. constructor; simpl; try done.
  intros Hx. by destruct (H9 Hx).
Qed.

Lemma asr_step_inv s s' : stream_inv s -> step s s' -> stream_inv s'.
Proof.
  intros [Hres Hi] Hs.
  assert (Hlive : live (phase s) = true -> exists ss a g, live_inv s ss a g)
    by (destruct (phase s); naive_solver).
  assert (Hidle : live (phase s) = false -> push s = NoPush) by (destruct (phase s); naive_solver).
  assert (Hkeep : forall s1, phase s1 = phase s -> past s1 = past s -> push s <> NoPush ->
    (forall ss a g, live_inv s ss a g -> live_inv s1 ss a g) -> stream_inv s1).
  { intros s1 He Hpa Hpu Hl. destruct (live (phase s)) eqn:Hlv; [|by specialize (Hidle eq_refl)].
    destruct (Hlive eq_refl) as (ss & a & g & Hi'). split; [by rewrite Hpa|].
    rewrite He. destruct (phase s); try done; eauto. }
  destruct Hs as [s Hp|s Hp|s Hp|s Hp|now raw s Hp|s Hp|r td s Hp|s Hp|s Hp|s Hp|s Hl
    |s Hp|c rest buf s Hp Hg|buf s Hp Hg|buf s Hp|buf s Hp].
  1-10: rewrite ?Hp in *; destruct (Hlive eq_refl) as (ss & a & g & Hv);
        pose proof Hv as [H1 H2 H3 H4 H5 H6 H7 H8 H9]; rewrite ?Hp in *.
  - destruct (H9 (or_introl eq_refl)) as [Hpu Hcr]. rewrite Hpu in H7.
    split; [done|]. exists ss, a, g. constructor; simpl; try done. by intros [?|?].
  - by eapply disconnected_inv.
  - by apply (finish_ok s ss a g).
  - split; [done|]. exists ss, a, g. constructor; simpl; try done. intros _. auto.
  - by eapply message_inv.
  - split; [done|]. rewrite Hp. eauto.
  - split; [done|]. exists ss, a, g. constructor; simpl; try done.
    + by destruct (c_results s).
    + lia.
    + by rewrite <-app_assoc.
    + by intros [?|?].
  - split; [done|]. exists ss, a, g. constructor; simpl; try done. by intros [?|?].
  - by eapply disconnected_inv.
  - apply (finish_ok s ss a g); auto.
  - destruct (Hlive Hl) as (ss & a & g & Hv). apply (finish_ok s ss a g); auto.
  - apply Hkeep; try done; [congruence|]. intros ss a g Hv. pose proof (lv_push _ _ _ _ Hv) as H7.
    rewrite Hp in H7. destruct H7 as [Hc Hsn]. apply live_push; [done| |congruence]. rewrite Hc, Hsn. done.
  - apply Hkeep; try done; [congruence|]. intros ss a g Hv. by apply push_read_ok.
  - apply Hkeep; try done; [congruence|]. intros ss a g Hv.
    apply live_push; [done| |congruence]. eapply push_ok_prefix, Hv.
  - apply Hkeep; try done; [congruence|]. intros ss a g Hv. by apply push_sent_ok.
  - apply Hkeep; try done; [congruence|]. intros ss a g Hv.
    apply live_push; [done| |congruence]. eapply push_ok_prefix, Hv.
Qed.

Lemma stream_reachable s : rtc step (new_stream audio) s -> stream_inv s.
Proof.
  intros Hr. eapply rtc_invariant; [apply asr_step_inv|exact Hr|]. split; [constructor|].
  exists [], O, (Some audio). constructor; simpl; try done; lia.
Qed.

(** Every interleaving is a run of the sequential account. *)
Lemma stream_refines s :
  rtc step (new_stream audio) s ->
  exists ss rr e, stream_recognize target backoffs 0 (connections s) (Some audio) = (ss, rr, e)
    /\ yielded s = rr /\ Forall2 prefix (sent s) ss /\ Forall results_ok (connections s)
    /\ (forall e', phase s = Finished (Ended e') -> e = e')
    /\ (attempt s <= backoffs)%nat.
Proof.
  intros [Hres Hi]%stream_reachable. unfold connections, sent, yielded.
  destruct (live (phase s)) eqn:Hl.
  - assert (Hv : exists ss a g, live_inv s ss a g) by (destruct (phase s); done).
    destruct Hv as (ss & a & g & Hv).
    eexists _, _, StreamReturned. split; [by apply (over_last s ss a g)|]. split_and!.
    + done.
    + apply Forall2_app; [apply Hv|]. constructor; [|done]. eapply push_ok_prefix, Hv.
    + apply Forall_app. split; [done|]. constructor; [by eapply current_results|done].
    + intros e' He. by rewrite He in Hl.
    + apply Hv.
  - destruct (phase s) as [| | | |f]; try done. destruct Hi as [(ss & e & Hs & Hf & Hc & Ha & He) _].
    rewrite !app_nil_r, Hc, app_nil_r. eexists ss, _, e. split_and!; try done. by intros e' [= ->].
Qed.

(** C19: However the push task, the receive loop, the vendor and the consumer interleave, the
    stream is a run of the sequential account over the connections made: the results
    yielded are theirs, in order and without repeated finals; each connection was sent a
    prefix of the 100 ms packets of the audio it read, none skipped, reordered or sent
    twice; the stream ends the way the account says; and the retries never exceed the
    configured ones. *)
Theorem asr_stream_refines s :
  rtc step (new_stream audio) s ->
  exists ss rr e, stream_recognize target backoffs 0 (connections s) (Some audio) = (ss, rr, e)
    /\ yielded s = rr /\ Forall2 prefix (sent s) ss /\ Forall results_ok (connections s)
    /\ (forall e', phase s = Finished (Ended e') -> e = e')
    /\ (attempt s <= backoffs)%nat.
Proof. apply stream_refines. Qed.
End AsrStream.

(** ** Runs *)

Definition demo_stream : Stream := new_stream [[1; 2; 3]; [4]].

Definition demo_asr_step := step 2 3 (fun _ => None) (fun _ => None).

(** Connected, three bytes read, one packet sent. *)
Definition demo_sending : Stream :=
  push_sent 2 [1; 2; 3]
    (push_read 2 [1; 2; 3] [[4]] []
       (demo_stream <| phase := Receiving |> <| push := Spawned |> <| push := PushNext [] |>)).

Lemma demo_sending_reached : rtc demo_asr_step demo_stream demo_sending.
Proof.
  eapply rtc_l; [apply st_connected; reflexivity|].
  eapply rtc_l; [apply st_push_start; reflexivity|].
  eapply rtc_l; [apply (st_push_read 2 3 _ _ [1; 2; 3] [[4]] []); reflexivity|].
  apply rtc_once. apply (st_push_sent 2 3 _ _ [1; 2; 3]). reflexivity.
Qed.

Lemma asr_stream_refines_witness :
  exists ss rr e, stream_recognize 2 3 0 (connections demo_sending) (Some [[1; 2; 3]; [4]]) = (ss, rr, e)
    /\ yielded demo_sending = rr /\ Forall2 prefix (sent demo_sending) ss
    /\ sent demo_sending = [[[1; 2]]].
Proof.
  destruct (asr_stream_refines 2 3 (fun _ => None) (fun _ => None) [[1; 2; 3]; [4]] ltac:(lia)
              demo_sending demo_sending_reached) as (ss & rr & e & Hs & Hy & Hf & _).
  exists ss, rr, e. split_and!; try done.
Defined.

(** A reconnect that is refused is not retried, whatever retries are left. *)
Lemma refused_reconnect_not_retried :
  exists s, rtc demo_asr_step demo_stream s /\ attempt s = 1%nat
    /\ phase s = Finished (Ended ServerError).
Proof.
  eexists. split_and!.
  - eapply rtc_l; [apply st_connected; reflexivity|].
    eapply rtc_l; [apply st_closed; reflexivity|].
    eapply rtc_l; [apply st_backoff; reflexivity|].
    apply rtc_once. apply st_connect_failed. reflexivity.
  - reflexivity.
  - reflexivity.
Qed.

(** A connection the vendor closes normally ends the recognition of a call whose audio
    goes on. *)
Lemma vendor_close_ends_stream :
  exists s, rtc demo_asr_step demo_stream s /\ gen s = Some [[1; 2; 3]; [4]]
    /\ phase s = Finished (Ended StreamReturned).
Proof.
  eexists. split_and!.
  - eapply rtc_l; [apply st_connected; reflexivity|]. apply rtc_once. apply st_closed_ok. reflexivity.
  - reflexivity.
  - reflexivity.
Qed.
