(* ===== verification/RtcToken.v ===== *)
(** * RTC tokens

    [transport/rtc_token.py]: the binary token the engine signs for itself and
    for the edge.  HMAC, zlib and base64 are parameters, with the facts the
    format relies on as section hypotheses (a digest has 32 bytes, decompression
    and decoding invert compression and encoding).  [verify_token] reads a token
    back by the layout the module documents; the round trip shows that what it
    reads is what was signed. *)

From S2P Require Import Prelude Bytes.

(** [s.encode("utf-8")]. *)
Definition utf8_char (c : Z) : bytes :=
  if c <? 128 then [c]
  else if c <? 2048 then [192 + c / 64; 128 + c mod 64]
  else if c <? 65536 then [224 + c / 4096; 128 + (c / 64) mod 64; 128 + c mod 64]
  else [240 + c / 262144; 128 + (c / 4096) mod 64; 128 + (c / 64) mod 64; 128 + c mod 64].

Definition utf8_encode (s : pystr) : bytes := concat (map utf8_char s).

(** [struct.pack(">I", n)]: [None] when out of range. *)
Definition pack_u32 (n : Z) : option bytes :=
  if (0 <=? n) && (n <? 4294967296) then Some (be_encode 4 n) else None.

(** The doubling loop; [n] rounds are always enough. *)
Fixpoint double_until (fuel : nat) (fixed n : Z) : Z :=
  match fuel with
  | O => fixed
  | S k => if fixed <? n then double_until k (fixed * 2) n else fixed
  end.

Definition next_pow2_multiple_of_256 (n : Z) : Z :=
  if n <=? 0 then 0 else double_until (Z.to_nat n) 256 n.

Definition pad256 (src : bytes) : bytes :=
  let target := next_pow2_multiple_of_256 (zlen src) in
  if target <=? zlen src then slice 0 target src else src ++ zeros (target - zlen src).

(** A length-prefixed byte string. *)
Definition pack_bytes (b : bytes) : option bytes := l ← pack_u32 (zlen b); Some (l ++ b).

Definition pack_service (channel_id user_id : pystr) (privilege : option Z) : option bytes :=
  c ← pack_bytes (utf8_encode channel_id);
  u ← pack_bytes (utf8_encode user_id);
  p ← (match privilege with
       | Some p => x ← pack_u32 p; Some (1 :: x)
       | None => Some [0]
       end);
  Some (c ++ u ++ p).

(** [sorted(items)] for pairs of strings, by code point. *)
Fixpoint str_leb (a b : pystr) : bool :=
  match a, b with
  | [], _ => true
  | _ :: _, [] => false
  | x :: a', y :: b' => if x =? y then str_leb a' b' else x <? y
  end.

Fixpoint insert_sorted (kv : pystr * pystr) (l : list (pystr * pystr)) : list (pystr * pystr) :=
  match l with
  | [] => [kv]
  | kv' :: l' => if str_leb kv.1 kv'.1 then kv :: l else kv' :: insert_sorted kv l'
  end.

Definition sort_items (l : list (pystr * pystr)) : list (pystr * pystr) :=
  fold_right insert_sorted [] l.

Fixpoint pack_items (l : list (pystr * pystr)) : option bytes :=
  match l with
  | [] => Some []
  | (k, v) :: l' =>
      kb ← pack_bytes (utf8_encode k);
      vb ← pack_bytes (utf8_encode v);
      rest ← pack_items l';
      Some (kb ++ vb ++ rest)
  end.

Definition pack_options (engine_options : option (list (pystr * pystr))) : option bytes :=
  match engine_options with
  | None => Some [0]
  | Some items =>
      n ← pack_u32 (zlen items);
      body ← pack_items (sort_items items);
      Some (1 :: n ++ body)
  end.

Record Claims := mkClaims {
  tk_channel : pystr; tk_user_id : pystr; tk_expires_at : Z; tk_issue_ts : Z; tk_salt : Z;
  tk_options : option (list (pystr * pystr)); tk_privilege : option Z }.

Record RtcCredentials := mkCredentials {
  rc_app_id : pystr; rc_channel : pystr; rc_user_id : pystr; rc_token : pystr;
  rc_expires_at : Z; rc_issue_ts : Z; rc_salt : Z }.

Definition VERSION_0 : pystr := u8 "000".

Section Token.
  Context (hmac : bytes -> bytes -> bytes)           (* key, message *)
    (zlib_compress : bytes -> bytes) (zlib_decompress : bytes -> option bytes)
    (b64encode : bytes -> pystr) (b64decode : pystr -> option bytes).
  Context (app_id app_key : pystr).

Definition generate_sign_key (issue_ts salt : Z) : option bytes :=
  t ← pack_u32 issue_ts;
  s ← pack_u32 salt;
  Some (hmac s (hmac t (utf8_encode app_key))).

Definition token_body (c : Claims) : option bytes :=
  a ← pack_bytes (utf8_encode app_id);
  i ← pack_u32 (tk_issue_ts c);
  s ← pack_u32 (tk_salt c);
  e ← pack_u32 (tk_expires_at c);
  sv ← pack_service (tk_channel c) (tk_user_id c) (tk_privilege c);
  o ← pack_options (tk_options c);
  Some (a ++ i ++ s ++ e ++ sv ++ o).

Definition build_token (c : Claims) : option pystr :=
  sign_key ← generate_sign_key (tk_issue_ts c) (tk_salt c);
  body ← token_body c;
  let body_padded := pad256 body in
  let signature := hmac sign_key body_padded in
  l ← pack_u32 (zlen signature);
  let outer_padded := pad256 (l ++ signature ++ body_padded) in
  Some (VERSION_0 ++ b64encode (zlib_compress outer_padded)).

Inductive SignError : Type := EmptyChannel | EmptyUser | BadTtl | PackFailed.

(** [clock] is [int(time.time())]; [rnd] is [secrets.randbelow]. *)
Definition sign (default_ttl : Z) (channel user_id : pystr) (ttl_seconds now issue_ts salt : option Z)
  (engine_options : option (list (pystr * pystr))) (privilege : option Z) (clock : Z) (rnd : Z -> Z)
  : result SignError RtcCredentials :=
  if zlen channel =? 0 then Err EmptyChannel
  else if zlen user_id =? 0 then Err EmptyUser
  else
    let ttl := default default_ttl ttl_seconds in
    if ttl <=? 0 then Err BadTtl
    else
      let now_ts := default clock now in
      let expires_at := now_ts + ttl in
      let issue := default now_ts issue_ts in
      let salt := match salt with Some s => s | None => rnd (Z.max issue 1) + 1 end in
      match build_token (mkClaims channel user_id expires_at issue salt engine_options privilege) with
      | None => Err PackFailed
      | Some token => Ok (mkCredentials app_id channel user_id token expires_at issue salt)
      end.

Definition sign_for_call (default_ttl : Z) (call_id : pystr) (ttl_seconds : option Z)
  (clock : Z) (rnd1 rnd2 : Z -> Z) : result SignError (RtcCredentials * RtcCredentials) :=
  if zlen call_id =? 0 then Err EmptyChannel
  else
    let? engine := sign default_ttl call_id (u8 "engine-" ++ call_id) ttl_seconds None None None
                     (Some []) None clock rnd1 in
    let? edge := sign default_ttl call_id (u8 "edge-" ++ call_id) ttl_seconds None None None
                   (Some []) None clock rnd2 in
    Ok (engine, edge).

(** ** Reading a token back *)

Definition read_u32 (b : bytes) : option (Z * bytes) :=
  if 4 <=? zlen b then Some (be_decode (take 4 b), drop 4 b) else None.

Definition read_bytes (b : bytes) : option (bytes * bytes) :=
  '(n, r) ← read_u32 b;
  if n <=? zlen r then Some (take (Z.to_nat n) r, drop (Z.to_nat n) r) else None.

Fixpoint read_items (n : nat) (b : bytes) : option (list (bytes * bytes) * bytes) :=
  match n with
  | O => Some ([], b)
  | S n' =>
      '(k, r1) ← read_bytes b;
      '(v, r2) ← read_bytes r1;
      '(l, r3) ← read_items n' r2;
      Some ((k, v) :: l, r3)
  end.

(** The fields as they are on the wire. *)
Record WireClaims := mkWire {
  w_app_id : bytes; w_issue_ts : Z; w_salt : Z; w_expires_at : Z; w_channel : bytes;
  w_user_id : bytes; w_privilege : option Z; w_options : option (list (bytes * bytes)) }.

Definition read_flagged {A} (b : bytes) (rd : bytes -> option (A * bytes))
  : option (option A * bytes) :=
  match b with
  | 0 :: r => Some (None, r)
  | _ :: r => '(x, r') ← rd r; Some (Some x, r')
  | [] => None
  end.

Definition read_body (b : bytes) : option (WireClaims * bytes) :=
  '(a, r1) ← read_bytes b;
  '(i, r2) ← read_u32 r1;
  '(s, r3) ← read_u32 r2;
  '(e, r4) ← read_u32 r3;
  '(c, r5) ← read_bytes r4;
  '(u, r6) ← read_bytes r5;
  '(p, r7) ← read_flagged r6 read_u32;
  '(o, r8) ← read_flagged r7 (fun b => '(n, r) ← read_u32 b; read_items (Z.to_nat n) r);
  Some (mkWire a i s e c u p o, r8).

(** The vendor's check: the signature over the padded body, under the key derived from
    the body's own timestamp and salt. *)
Definition verify_token (token : pystr) : option WireClaims :=
  if startswith token VERSION_0 then
    z ← b64decode (drop (length VERSION_0) token);
    outer ← zlib_decompress z;
    '(sig, rest) ← read_bytes outer;
    '(w, after) ← read_body rest;
    let body_len := zlen rest - zlen after in
    let padded := take (Z.to_nat (next_pow2_multiple_of_256 body_len)) rest in
    key ← generate_sign_key (w_issue_ts w) (w_salt w);
    if decide (hmac key padded = sig) then Some w else None
  else None.
End Token.

(** ** Padding *)

Lemma double_until_spec fuel fixed n :
  0 < fixed -> n <= fixed * 2 ^ Z.of_nat fuel ->
  exists k, double_until fuel fixed n = fixed * 2 ^ Z.of_nat k /\ n <= double_until fuel fixed n
    /\ (k = O \/ double_until fuel fixed n < 2 * n).
Proof.
  revert fixed. induction fuel as [|f IH]; intros fixed Hf Hn; simpl double_until.
  - exists O. simpl in *. lia.
  - destruct (fixed <? n) eqn:Hlt; zbool; [|exists O; simpl; lia].
    destruct (IH (fixed * 2)) as (k & Hk & Hle & Hor); [lia| |].
    { rewrite Nat2Z.inj_succ, Z.pow_succ_r in Hn by lia. lia. }
    exists (S k). rewrite Nat2Z.inj_succ, Z.pow_succ_r by lia. split_and!; [lia|done|].
    right. destruct Hor as [->|]; [|done]. rewrite Hk. simpl. lia.
Qed.

(** The padded size: a power-of-two multiple of 256 that fits, and the least. *)
Lemma next_pow2_spec n :
  0 < n ->
  exists k, next_pow2_multiple_of_256 n = 256 * 2 ^ Z.of_nat k
    /\ n <= next_pow2_multiple_of_256 n
    /\ (k = O \/ next_pow2_multiple_of_256 n < 2 * n).
Proof.
  intros Hn. unfold next_pow2_multiple_of_256. rewrite (proj2 (Z.leb_gt _ _)) by lia.
  apply double_until_spec; [lia|]. rewrite Z2Nat.id by lia.
  pose proof (Z.pow_gt_lin_r 2 n ltac:(lia) ltac:(lia)). lia.
Qed.

Lemma pad256_zeros src :
  src <> [] -> exists k, 0 <= k /\ pad256 src = src ++ zeros k
    /\ zlen (pad256 src) = next_pow2_multiple_of_256 (zlen src).
Proof.
  intros Hne. assert (Hpos : 0 < zlen src).
  { destruct src; [done|]. rewrite zlen_cons. pose proof (zlen_nonneg src). lia. }
  destruct (next_pow2_spec (zlen src) Hpos) as (k & _ & Hle & _). unfold pad256.
  set (t := next_pow2_multiple_of_256 (zlen src)) in *. destruct (t <=? zlen src) eqn:Hc; zbool.
  - exists 0. replace t with (zlen src) by lia. split; [lia|].
    assert (Hs : slice 0 (zlen src) src = src).
    { unfold slice, zlen. rewrite Z.sub_0_r, Nat2Z.id. simpl. by rewrite take_ge. }
    rewrite Hs. by rewrite app_nil_r.
  - exists (t - zlen src). split; [lia|]. split; [done|]. rewrite zlen_app, zeros_length by lia. lia.
Qed.

(** ** Reading what was packed *)

#[local] Opaque be_encode.

Lemma pack_u32_some n b : pack_u32 n = Some b -> b = be_encode 4 n /\ 0 <= n < 4294967296.
Proof. unfold pack_u32. destruct (_ && _) eqn:H; [|done]. zbool. intros [= <-]. done. Qed.

Lemma read_u32_app n r : 0 <= n < 4294967296 -> read_u32 (be_encode 4 n ++ r) = Some (n, r).
Proof.
  intros Hn. unfold read_u32. rewrite (proj2 (Z.leb_le _ _)).
  - rewrite take_app_length', drop_app_length' by (by rewrite be_encode_length).
    rewrite be_decode_encode. by rewrite Z.mod_small by (simpl; lia).
  - rewrite zlen_app. unfold zlen at 1. rewrite be_encode_length. pose proof (zlen_nonneg r). lia.
Qed.

Lemma read_bytes_app b p r : pack_bytes b = Some p -> read_bytes (p ++ r) = Some (b, r).
Proof.
  unfold pack_bytes. intros (l & (-> & Hl)%pack_u32_some & Hp)%bind_Some.
  apply (inj Some) in Hp as <-. unfold read_bytes. rewrite <-app_assoc, read_u32_app by done. simpl.
  rewrite (proj2 (Z.leb_le _ _)) by (rewrite zlen_app; pose proof (zlen_nonneg r); lia).
  unfold zlen. by rewrite Nat2Z.id, take_app_length, drop_app_length.
Qed.

#[local] Opaque read_u32 read_bytes.

Definition wire_item (kv : pystr * pystr) : bytes * bytes := (utf8_encode kv.1, utf8_encode kv.2).

Lemma read_items_app l p r :
  pack_items l = Some p -> read_items (length l) (p ++ r) = Some (map wire_item l, r).
Proof.
  revert p. induction l as [|[k v] l IH]; intros p; simpl; [by intros [= <-]|].
  intros (kb & Hk & (vb & Hv & (rest & Hl & [= <-])%bind_Some)%bind_Some)%bind_Some.
  rewrite <-!app_assoc. rewrite (read_bytes_app _ _ _ Hk). simpl.
  rewrite (read_bytes_app _ _ _ Hv). simpl. by rewrite (IH _ Hl).
Qed.

Lemma insert_sorted_length kv l : length (insert_sorted kv l) = S (length l).
Proof. induction l as [|x l IH]; simpl; [done|]. destruct (str_leb _ _); simpl; auto. Qed.

Lemma sort_items_length l : length (sort_items l) = length l.
Proof. induction l; simpl; [done|]. by rewrite insert_sorted_length, IHl. Qed.

Section Roundtrip.
  Context (hmac : bytes -> bytes -> bytes)
    (zlib_compress : bytes -> bytes) (zlib_decompress : bytes -> option bytes)
    (b64encode : bytes -> pystr) (b64decode : pystr -> option bytes).
  (** A SHA-256 digest has 32 bytes; decompression and decoding invert
      compression and encoding. *)
  Hypothesis hmac_length : forall k m, zlen (hmac k m) = 32.
  Hypothesis zlib_inverse : forall b, zlib_decompress (zlib_compress b) = Some b.
  Hypothesis b64_inverse : forall b, b64decode (b64encode b) = Some b.
  Context (app_id app_key : pystr).

Definition wire_claims (c : Claims) : WireClaims :=
  mkWire (utf8_encode app_id) (tk_issue_ts c) (tk_salt c) (tk_expires_at c)
    (utf8_encode (tk_channel c)) (utf8_encode (tk_user_id c)) (tk_privilege c)
    (option_map (fun l => map wire_item (sort_items l)) (tk_options c)).

Lemma read_body_app c body r :
  token_body app_id c = Some body -> read_body (body ++ r) = Some (wire_claims c, r).
Proof.
  unfold token_body, pack_service, pack_options.
  intros (a & Ha & (i & (-> & Hi)%pack_u32_some & (s & (-> & Hs)%pack_u32_some
    & (e & (-> & He)%pack_u32_some & (sv & Hsv & (o & Ho & [= <-])%bind_Some)%bind_Some)%bind_Some)
    %bind_Some)%bind_Some)%bind_Some.
  apply bind_Some in Hsv as (ch & Hch & (us & Hus & (pv & Hpv & [= <-])%bind_Some)%bind_Some).
  unfold read_body. rewrite <-!app_assoc.
  rewrite (read_bytes_app _ _ _ Ha). simpl. rewrite read_u32_app by done. simpl.
  rewrite read_u32_app by done. simpl. rewrite read_u32_app by done. simpl.
  rewrite (read_bytes_app _ _ _ Hch). simpl. rewrite (read_bytes_app _ _ _ Hus). simpl.
  assert (Hp : forall x, read_flagged (pv ++ x) read_u32 = Some (tk_privilege c, x)).
  { intros x. destruct (tk_privilege c) as [p|].
    - apply bind_Some in Hpv as (b & (-> & Hb)%pack_u32_some & [= <-]). simpl.
      by rewrite read_u32_app.
    - by injection Hpv as <-. }
  rewrite Hp. simpl. unfold wire_claims. destruct (tk_options c) as [items|]; simpl.
  - apply bind_Some in Ho as (n & (-> & Hn)%pack_u32_some & (b & Hb & [= <-])%bind_Some).
    simpl. rewrite <-app_assoc, read_u32_app by done. simpl.
    unfold zlen. rewrite Nat2Z.id, <-sort_items_length. by rewrite (read_items_app _ _ _ Hb).
  - injection Ho as <-. done.
Qed.

Lemma verify_build_token c token :
  build_token hmac zlib_compress b64encode app_id app_key c = Some token ->
  verify_token hmac zlib_decompress b64decode app_key token = Some (wire_claims c).
Proof.
  unfold build_token. intros (key & Hkey & (body & Hbody & (l & Hl & Ht)%bind_Some)%bind_Some)%bind_Some.
  apply (inj Some) in Ht as <-. set (sig := hmac key (pad256 body)) in *.
  apply pack_u32_some in Hl as [-> Hsig].
  assert (Hnb : body <> []).
  { intros ->. pose proof (read_body_app c [] [] Hbody) as Hr. discriminate Hr. }
  destruct (pad256_zeros body Hnb) as (k1 & Hk1 & Hpad1 & Hlen1).
  assert (Hno : be_encode 4 (zlen sig) ++ sig ++ pad256 body <> []).
  { intros Hnil. apply (f_equal length) in Hnil. rewrite length_app, be_encode_length in Hnil. done. }
  destruct (pad256_zeros _ Hno) as (k2 & Hk2 & Hpad2 & _).
  unfold verify_token.
  rewrite startswith_app, drop_app_length, b64_inverse. simpl. rewrite zlib_inverse. simpl.
  rewrite Hpad2, <-!app_assoc.
  assert (Hrb : read_bytes (be_encode 4 (zlen sig) ++ sig ++ pad256 body ++ zeros k2)
                = Some (sig, pad256 body ++ zeros k2)).
  { rewrite app_assoc. apply read_bytes_app. unfold pack_bytes, pack_u32.
    rewrite (proj2 (Z.leb_le _ _)), (proj2 (Z.ltb_lt _ _)) by lia. done. }
  rewrite Hrb. simpl. rewrite Hpad1 at 1. rewrite <-app_assoc, (read_body_app c body _ Hbody). simpl.
  rewrite Hkey. simpl.
  replace (zlen (pad256 body ++ zeros k2) - zlen (zeros k1 ++ zeros k2)) with (zlen body)
    by (rewrite Hpad1, !zlen_app; lia).
  assert (Htk : take (Z.to_nat (zlen (pad256 body))) (pad256 body ++ zeros k2) = pad256 body)
    by (unfold zlen; rewrite Nat2Z.id; apply take_app_length).
  rewrite <-Hlen1, Htk. by rewrite decide_True.
Qed.

(** The claims the wire format can carry: 32-bit numbers and 32-bit lengths. *)
Definition u32 (n : Z) : Prop := 0 <= n < 4294967296.

Definition claims_fit (c : Claims) : Prop :=
  u32 (zlen (utf8_encode app_id)) /\ u32 (tk_issue_ts c) /\ u32 (tk_salt c) /\ u32 (tk_expires_at c)
  /\ u32 (zlen (utf8_encode (tk_channel c))) /\ u32 (zlen (utf8_encode (tk_user_id c)))
  /\ (forall p, tk_privilege c = Some p -> u32 p)
  /\ (forall l, tk_options c = Some l -> u32 (zlen l)
        /\ Forall (fun kv => u32 (zlen (utf8_encode kv.1)) /\ u32 (zlen (utf8_encode kv.2))) l).

Lemma pack_u32_fits n : u32 n -> pack_u32 n = Some (be_encode 4 n).
Proof.
  unfold u32, pack_u32. intros. by rewrite (proj2 (Z.leb_le _ _)), (proj2 (Z.ltb_lt _ _)) by lia.
Qed.

Lemma pack_bytes_fits b : u32 (zlen b) -> is_Some (pack_bytes b).
Proof. intros H. unfold pack_bytes. rewrite pack_u32_fits by done. by eexists. Qed.

Lemma insert_sorted_perm kv l : insert_sorted kv l ≡ₚ kv :: l.
Proof.
  induction l as [|x l IH]; simpl; [done|]. destruct (str_leb _ _); [done|].
  rewrite IH. solve_Permutation.
Qed.

Lemma sort_items_perm l : sort_items l ≡ₚ l.
Proof. induction l as [|x l IH]; simpl; [done|]. by rewrite insert_sorted_perm, IH. Qed.

Lemma pack_items_fits l :
  Forall (fun kv => u32 (zlen (utf8_encode kv.1)) /\ u32 (zlen (utf8_encode kv.2))) l ->
  is_Some (pack_items l).
Proof.
  induction 1 as [|[k v] l [Hk Hv] _ IH]; simpl; [by eexists|].
  simpl in Hk, Hv.
  destruct (pack_bytes_fits _ Hk) as [? ->], (pack_bytes_fits _ Hv) as [? ->], IH as [? ->].
  by eexists.
Qed.

Lemma token_body_fits c : claims_fit c -> is_Some (token_body app_id c).
Proof.
  intros (Ha & Hi & Hs & He & Hc & Hu & Hp & Ho). unfold token_body, pack_service, pack_options.
  destruct (pack_bytes_fits _ Ha) as [? ->]. simpl. rewrite !pack_u32_fits by done. simpl.
  destruct (pack_bytes_fits _ Hc) as [? ->], (pack_bytes_fits _ Hu) as [? ->]. simpl.
  destruct (tk_privilege c) as [p|]; [rewrite (pack_u32_fits p) by auto|]; simpl;
    (destruct (tk_options c) as [l|]; [|by eexists]);
    destruct (Ho l eq_refl) as [Hn Hl]; rewrite (pack_u32_fits (zlen l)) by done; simpl;
    (destruct (pack_items_fits (sort_items l)) as [? ->]; [by rewrite sort_items_perm|by eexists]).
Qed.

End Roundtrip.

(** A keyed checksum of 32 bytes in the place of the digest, and the identity in the
    place of the codecs. *)
Definition toy_hmac (k m : bytes) : bytes := be_encode 32 (le_decode (k ++ m)).

Lemma toy_hmac_length k m : zlen (toy_hmac k m) = 32.
Proof. unfold zlen, toy_hmac. by rewrite be_encode_length. Qed.

Definition toy_claims : Claims :=
  mkClaims (u8 "c42") (u8 "engine-c42") 1700003600 1700000000 7 (Some [(u8 "b", u8 "2"); (u8 "a", u8 "1")])
    (Some 3).

Lemma toy_claims_fit : claims_fit (u8 "app") toy_claims.
Proof.
  unfold claims_fit. do 6 (split; [vm_compute; split; congruence|]). split.
  - intros p Hp. vm_compute in Hp. injection Hp as <-. split; vm_compute; congruence.
  - intros l Hl. vm_compute in Hl. injection Hl as <-.
    repeat constructor; vm_compute; congruence.
Qed.

