(* ===== verification/Lifecycle.v ===== *)
(** * From the dial queue to the settled call

    [dial_consumer.py], [session_manager.py], [call_lifecycle.py],
    [transcript_recorder.py] and [event_consumer.py]: a message of the dial
    queue becomes a reserved [call_record], a registered session and a task;
    when the task's runner ends, however it ends, the call is finalized:
    persisted, announced to the worker, taken off the concurrency counter and
    unregistered.

    Redis, the database and the process's registry are one [World]; every
    remote operation consumes one entry of [faults] and fails, with no effect,
    when that entry is [true].  The message schemas, the JSON parser and the
    enumerations of the shared package are parameters. *)

From stdpp Require Import gmap pretty.
From S2P Require Import Prelude Session.


(** [DialRequest], as far as the consumer reads it. *)
Record DialRequest := mkDial {
  rq_lead_id : Z; rq_campaign_id : Z; rq_caller_id : pystr; rq_device_id : Z;
  rq_prompt_versions : event }.

Inductive payload : Type :=
| PRaw (raw : pystr)
| PCallEnded (call_record_id : Z) (cause : string) (ended_at : Z)
| PExtract (call_record_id : Z) (snapshot : list DialogTurn) (role_config prompt_version : Z).

(** A row of [call_record]. *)
Record CallRecord := mkRecord {
  cr_lead_id : Z; cr_campaign_id : Z; cr_caller_id : pystr; cr_status : CallState;
  cr_started_at : option Z; cr_ended_at : option Z; cr_duration : Z;
  cr_transcript : list event; cr_prompt_versions : event; cr_transfer_status : string;
  cr_transfer_reason : option string; cr_wrap_up_started_at : option Z;
  cr_extract_status : option string }.

#[export] Instance CallRecord_eta : Eta CallRecord := fun r =>
  mkRecord (cr_lead_id r) (cr_campaign_id r) (cr_caller_id r) (cr_status r) (cr_started_at r)
    (cr_ended_at r) (cr_duration r) (cr_transcript r) (cr_prompt_versions r) (cr_transfer_status r)
    (cr_transfer_reason r) (cr_wrap_up_started_at r) (cr_extract_status r).

Record World := mkWorld {
  queues : gmap string (list payload);     (* Redis lists, head first *)
  counter : Z;                             (* the global concurrency counter *)
  records : gmap Z CallRecord;             (* the call_record table *)
  trace_rows : list (list (string * pyval)); (* the pipeline_trace table *)
  next_id : Z;                             (* the table's identity column *)
  sessions : gmap Z CallSession;           (* SessionManager._sessions *)
  running : gmap Z (CallSession * Z);      (* live call tasks with their start time *)
  slept : list Z;                          (* back-off sleeps, in milliseconds *)
  faults : list bool }.                    (* the fate of the coming remote operations *)

#[export] Instance World_eta : Eta World := fun w =>
  mkWorld (queues w) (counter w) (records w) (trace_rows w) (next_id w) (sessions w) (running w)
    (slept w) (faults w).

(** ** The registry *)

Definition register (s : CallSession) (w : World) : World :=
  match sessions w !! call_record_id s with
  | Some _ => w
  | None => w <| sessions ::= <[call_record_id s := s]> |>
  end.

Definition unregister (cid : Z) (w : World) : World := w <| sessions ::= delete cid |>.

Definition get (cid : Z) (w : World) : option CallSession := sessions w !! cid.

(** ** Remote operations *)

(** [remote f w]: [f] takes effect unless the operation fails. *)
Definition remote (f : World -> World) (w : World) : bool * World :=
  match faults w with
  | true :: fs => (false, w <| faults := fs |>)
  | false :: fs => (true, f (w <| faults := fs |>))
  | [] => (true, f w)
  end.

Definition push (queue : string) (p : payload) (w : World) : World :=
  w <| queues ::= fun q => <[queue := p :: default [] (q !! queue)]> q |>.

Definition lpush (queue : string) (p : payload) : World -> bool * World := remote (push queue p).

(** [for attempt in range(1, max_retries + 1)]: try, and between two attempts sleep a
    back-off that doubles. *)
Fixpoint retry (op : World -> bool * World) (attempts : nat) (backoff : Z) (w : World)
  : bool * World :=
  match attempts with
  | O => (false, w)
  | S rest =>
      let '(ok, w1) := op w in
      if ok then (true, w1)
      else match rest with
           | O => (false, w1)
           | S _ => retry op rest (backoff * 2) (w1 <| slept ::= fun l => l ++ [backoff] |>)
           end
  end.

Section Ops.
  (** The values of [HangupCause] and [TransferStatus] with their defaults; [int()] of a value that is not a
      number; the JSON parser; [DialRequest]'s validator; the queue and key names of the
      settings. *)
  Context (hangup_causes transfer_statuses : list string) (NORMAL_CLEARING TRANSFER_NONE : string)
    (int_other : pyval -> option Z)
    (json_loads : pystr -> option pyval)
    (validate_dial : pystr -> option DialRequest)
    (engine_dlq call_ended_queue EXTRACT_QUEUE : string).

(** ** Persisting a finished call *)

Definition trace_turn_id (t : list (string * pyval)) : option Z :=
  match dget "turn_id"%string t with
  | Some (VInt n) => Some n
  | Some (VBool b) => Some (Z.b2z b)
  | Some v => int_other v
  | None => None
  end.

Definition or_default (v : option pyval) (d : pyval) : pyval :=
  match v with Some x => if truthy x then x else d | None => d end.

Definition trace_get (k : string) (t : list (string * pyval)) : pyval := default VNone (dget k t).

Definition trace_row (cid started_at : Z) (t : list (string * pyval))
  : option (list (string * pyval)) :=
  turn_id ← trace_turn_id t;
  Some [("call_record_id", VInt cid); ("turn_id", VInt turn_id);
        ("ts_start", or_default (dget "ts_start" t) (VInt started_at));
        ("ts_end", trace_get "ts_end" t); ("user_input", trace_get "user_input" t);
        ("main_reply_text", trace_get "main_reply_text" t);
        ("main_duration_ms", trace_get "main_duration_ms" t);
        ("main_first_token_ms", trace_get "main_first_token_ms" t);
        ("main_first_sentence_ms", trace_get "main_first_sentence_ms" t);
        ("main_tokens_in", trace_get "main_tokens_in" t);
        ("main_tokens_out", trace_get "main_tokens_out" t);
        ("main_fallback_used", VBool (truthy (trace_get "main_fallback_used" t)));
        ("referee_results", or_default (dget "referee_results" t) (VList []));
        ("matched_rule", trace_get "matched_rule" t);
        ("restructure_active", VBool (truthy (trace_get "restructure_active" t)));
        ("restructure_trigger", trace_get "restructure_trigger" t);
        ("restructure_source_text", trace_get "restructure_source_text" t);
        ("first_audio_ms", trace_get "first_audio_ms" t);
        ("error", trace_get "error" t)]%string.

(** The row of the finished call: the reserved one, or a fresh one when it is missing. *)
Definition final_record (s : CallSession) (started_at ended_at : Z) (old : option CallRecord)
  : CallRecord :=
  let base := default (mkRecord (lead_id s) (campaign_id s) (caller_id s) INIT None None 0 []
                         (prompt_versions_snapshot s) TRANSFER_NONE None None None) old in
  let r := base <| cr_status := END_ |> <| cr_started_at := Some started_at |>
             <| cr_ended_at := Some ended_at |>
             <| cr_duration := Z.max 0 (Z.quot (ended_at - started_at) 1000000) |>
             <| cr_transcript := full_transcript s |>
             <| cr_transfer_status :=
                  if bool_decide (transfer_status s ∈ transfer_statuses)
                  then transfer_status s else TRANSFER_NONE |>
             <| cr_transfer_reason := transfer_reason s |> in
  let r := match wrap_up_started_at_wallclock s with
           | Some t => r <| cr_wrap_up_started_at := Some t |>
           | None => r
           end in
  r <| cr_prompt_versions := prompt_versions_snapshot s |>.

(** One transaction: the read of the row, the conversion of every trace, the commit.  A
    failure leaves both tables as they were. *)
Definition write_in_transaction (s : CallSession) (started_at ended_at : Z) (w : World)
  : bool * World :=
  let cid := call_record_id s in
  let '(ok, w1) := remote id w in
  if ok then
    match mapM (trace_row cid started_at) (pipeline_trace_records s) with
    | None => (false, w1)
    | Some rows =>
        remote (fun w => w <| records ::= fun m =>
                               <[cid := final_record s started_at ended_at (m !! cid)]> m |>
                           <| trace_rows ::= fun l => l ++ rows |>) w1
    end
  else (false, w1).

Definition persist_call_record (s : CallSession) (started_at ended_at : Z) (w : World)
  : bool * World :=
  retry (write_in_transaction s started_at ended_at) 3 200 w.

(** ** Finalizing *)

Definition resolve_hangup_cause (s : CallSession) : string :=
  let raw := match hangup_cause s with
             | Some c => if decide (c = ""%string) then NORMAL_CLEARING else c
             | None => NORMAL_CLEARING
             end in
  if bool_decide (raw ∈ hangup_causes) then raw else NORMAL_CLEARING.

Definition lpush_call_ended (cid : Z) (cause : string) (ended_at : Z) (w : World) : bool * World :=
  retry (lpush call_ended_queue (PCallEnded cid cause ended_at)) 3 200 w.

Definition lpush_extract (s : CallSession) (w : World) : bool * World :=
  let cid := call_record_id s in
  let p := PExtract cid (dialog_history s) (extractor_role_config_id s)
             (extractor_prompt_version_id s) in
  let '(pushed, w1) := retry (lpush EXTRACT_QUEUE p) 3 200 w in
  if pushed then
    let mark (w : World) := w <| records ::= alter (fun r =>
                                   r <| cr_extract_status := Some "pending"%string |>) cid |> in
    let '(ok, w2) := remote id w1 in                    (* execute; the commit makes it visible *)
    (true, if ok then (remote mark w2).2 else w2)
  else (false, w1).

(** [DECR], then back to zero when that went below it. *)
Definition decr_once (w : World) : bool * World :=
  let '(ok, w1) := remote (fun w => w <| counter ::= fun n => n - 1 |>) w in
  if ok then
    if counter w1 <? 0 then remote (fun w => w <| counter := 0 |>) w1 else (true, w1)
  else (false, w1).

Definition decr_concurrency (w : World) : bool * World := retry decr_once 3 200 w.

Definition wants_extract (s : CallSession) : bool :=
  negb (extractor_role_config_id s =? 0) && negb (zlen (dialog_history s) =? 0).

Definition finalize_session (s : CallSession) (started_at ended_at : Z) (w : World)
  : CallSession * World :=
  let cause := resolve_hangup_cause s in
  let s := s <| hangup_cause := Some cause |> in
  let w := (persist_call_record s started_at ended_at w).2 in
  let w := if wants_extract s then (lpush_extract s w).2 else w in
  let w := (lpush_call_ended (call_record_id s) cause ended_at w).2 in
  let w := (decr_concurrency w).2 in
  (s, unregister (call_record_id s) w).

(** ** The dial queue *)

Definition SUPPORTED_SCHEMA_VERSIONS : list Z := [1].

Definition peek_schema_version (raw : pystr) : option Z :=
  match json_loads raw with
  | Some (VDict d) =>
      match dget "schema_version"%string d with
      | Some (VInt n) => Some n
      | Some (VBool b) => Some (Z.b2z b)
      | _ => None
      end
  | _ => None
  end.

(** The insert's commit and the refresh that reads the identity back are two operations:
    a row whose refresh fails stays. *)
Definition reserve_call_record (rq : DialRequest) (started_at : Z) (w : World)
  : option Z * World :=
  let row := mkRecord (rq_lead_id rq) (rq_campaign_id rq) (rq_caller_id rq) INIT (Some started_at)
               None 0 [] (rq_prompt_versions rq) TRANSFER_NONE None None None in
  let cid := next_id w in
  let '(ok, w1) := remote (fun w => w <| records ::= <[cid := row]> |>
                                      <| next_id := cid + 1 |>) w in
  if ok then
    let '(ok2, w2) := remote id w1 in ((if ok2 then Some cid else None), w2)
  else (None, w1).

Inductive DialError : Type := DlqUnreachable.

Definition to_dlq (raw : pystr) (w : World) : result DialError (option CallSession) * World :=
  let '(ok, w1) := lpush engine_dlq (PRaw raw) w in
  ((if ok then Ok None else Err DlqUnreachable), w1).

(** [now] and [mono] are the wall clock and the monotonic clock. *)
Definition handle_dial (raw : pystr) (now mono : Z) (w : World)
  : result DialError (option CallSession) * World :=
  match peek_schema_version raw with
  | Some sv =>
      if bool_decide (sv ∈ SUPPORTED_SCHEMA_VERSIONS) then
        match validate_dial raw with
        | None => to_dlq raw w
        | Some rq =>
            match reserve_call_record rq now w with
            | (None, w1) => to_dlq raw w1
            | (Some cid, w1) =>
                let s := new_session cid (rq_campaign_id rq) (rq_lead_id rq) (rq_caller_id rq)
                           (rq_prompt_versions rq) (rq_device_id rq) mono in
                (Ok (Some s), register s w1 <| running ::= <[cid := (s, now)]> |>)
            end
        end
      else to_dlq raw w
  | None => to_dlq raw w
  end.

(** How the runner ended, with the session as it left it. *)
Inductive RunOutcome : Type :=
| RunReturned (s : CallSession)
| RunCancelled (s : CallSession)
| RunRaised (s : CallSession).

Definition cause_unless_set (c : string) (s : CallSession) : CallSession :=
  match hangup_cause s with
  | None => s <| hangup_cause := Some c |>
  | Some _ => s
  end.

Definition outcome_session (o : RunOutcome) : CallSession :=
  match o with
  | RunReturned s => s
  | RunCancelled s => cause_unless_set "manual_hangup" s
  | RunRaised s => cause_unless_set "no_progress_timeout" s
  end.

(** The flag tells whether the task ends by raising [CancelledError]. *)
Definition runner_with_finalize (o : RunOutcome) (started_at ended_at : Z) (w : World)
  : bool * CallSession * World :=
  let s := outcome_session o in
  let '(s', w') := finalize_session s started_at ended_at w in
  (match o with RunCancelled _ => true | _ => false end, s',
   w' <| running ::= delete (call_record_id s) |>).

(** One round of [dial_loop]: the queue poll yields nothing or a message, and an error of
    the handler is logged. *)
Definition dial_round (popped : option pystr) (now mono : Z) (w : World) : World :=
  match popped with
  | None => w
  | Some raw => (handle_dial raw now mono w).2
  end.

(** ** Interleavings *)

(** The process's dial loop, the ends of the call tasks in any order and at any time, the
    scheduler's increments and the fate of the remote operations. *)
Inductive step : World -> World -> Prop :=
| step_dial popped now mono w : step w (dial_round popped now mono w)
| step_end o s0 started ended w :
    running w !! call_record_id (outcome_session o) = Some (s0, started) ->
    step w (runner_with_finalize o started ended w).2
| step_incr w : step w (w <| counter ::= fun n => n + 1 |>)
| step_faults fs w : step w (w <| faults := fs |>).

Definition boot (n : Z) : World := mkWorld ∅ n ∅ [] 1 ∅ ∅ [] [].
End Ops.

(** ** The control channel *)

(** [EngineControl] messages. *)
Inductive Control : Type :=
| CManualHangup (call_record_id : Z) (operator : option pystr)
| CTransfer (call_record_id : Z) (agent_id : Z)
| COther (call_record_id : Z) (type : pystr).

Definition control_call (c : Control) : Z :=
  match c with CManualHangup i _ | CTransfer i _ | COther i _ => i end.

(** What [main.py]'s handlers post on the session's bus. *)
Inductive ControlPost : Type :=
| ManualHangupRequested (operator : option pystr)
| TransferRequested (agent_id : string).

Definition dispatch (validate : pystr -> option Control) (raw : pystr) (w : World)
  : option (Z * ControlPost) :=
  match validate raw with
  | None => None
  | Some msg =>
      match get (control_call msg) w with
      | None => None
      | Some _ =>
          match msg with
          | CManualHangup cid operator => Some (cid, ManualHangupRequested operator)
          | CTransfer cid agent => Some (cid, TransferRequested (pretty agent))
          | COther _ _ => None
          end
      end
  end.

(** ** Shutdown *)

(** [cancel_all]: every task of every registered session is cancelled. *)
Definition cancel_all (tasks : Z -> list string) (w : World) : list (Z * string) :=
  flat_map (fun '(cid, _) => map (pair cid) (tasks cid)) (map_to_list (sessions w)).

(** ** Remote operations and retries *)

(** The world without the record of faults and sleeps. *)
Definition core (w : World) : World := w <| faults := [] |> <| slept := [] |>.

Definition nfaults (w : World) : nat := length (List.filter (fun b => b) (faults w)).

Lemma core_inv w w' :
  core w = core w' ->
  queues w = queues w' /\ counter w = counter w' /\ records w = records w'
  /\ trace_rows w = trace_rows w' /\ next_id w = next_id w' /\ sessions w = sessions w'
  /\ running w = running w'.
Proof. destruct w, w'. unfold core, set_field. simpl. intros [= -> -> -> -> -> -> ->]. done. Qed.

Lemma core_intro w w' :
  queues w = queues w' -> counter w = counter w' -> records w = records w' ->
  trace_rows w = trace_rows w' -> next_id w = next_id w' -> sessions w = sessions w' ->
  running w = running w' -> core w = core w'.
Proof. destruct w, w'. simpl. intros -> -> -> -> -> -> ->. done. Qed.

(** A remote operation fails without effect, using up a fault, or takes effect. *)
Lemma remote_cases f w :
  exists fs, (remote f w = (false, w <| faults := fs |>) /\ nfaults w = S (nfaults (w <| faults := fs |>)))
          \/ (remote f w = (true, f (w <| faults := fs |>)) /\ nfaults w = nfaults (w <| faults := fs |>)).
Proof.
  destruct w as [q c r t n se ru sl [|[] fs]]; unfold remote, nfaults, set_field; simpl.
  - exists []. by right.
  - exists fs. by left.
  - exists fs. by right.
Qed.

(** Retrying succeeds when there are more attempts than faults: [P] is what a failed
    attempt keeps, [Q] what a successful one establishes. *)
Lemma retry_succeeds (P Q : World -> Prop) (op : World -> bool * World) :
  (forall w, P w -> let '(ok, w') := op w in
     (nfaults w' <= nfaults w)%nat /\ if ok then Q w' else P w' /\ (nfaults w' < nfaults w)%nat) ->
  (forall w l, P w -> P (w <| slept := l |>)) ->
  forall n b w, P w -> (nfaults w < n)%nat ->
  let '(ok, w') := retry op n b w in ok = true /\ Q w' /\ (nfaults w' <= nfaults w)%nat.
Proof.
  intros Hop Hsl n. induction n as [|n IH]; intros b w HP Hn; [lia|]. simpl.
  specialize (Hop w HP). destruct (op w) as [[] w1]; [naive_solver|].
  destruct Hop as (Hle & HP1 & Hlt). destruct n as [|n]; [lia|].
  specialize (IH (b * 2) (w1 <| slept := slept w1 ++ [b] |>) (Hsl _ _ HP1)).
  change (nfaults (w1 <| slept := slept w1 ++ [b] |>)) with (nfaults w1) in IH.
  specialize (IH ltac:(lia)). change (w1 <| slept ::= fun l => l ++ [b] |>)
    with (w1 <| slept := slept w1 ++ [b] |>).
  destruct (retry op (S n) (b * 2) _) as [ok w']. naive_solver lia.
Qed.

(** What a retry always keeps, whether it succeeds or not. *)
Lemma retry_keeps (P : World -> Prop) (op : World -> bool * World) :
  (forall w, P w -> P (op w).2) -> (forall w l, P w -> P (w <| slept := l |>)) ->
  forall n b w, P w -> P (retry op n b w).2.
Proof.
  intros Hop Hsl n. induction n as [|n IH]; intros b w HP; simpl; [done|].
  pose proof (Hop w HP) as H1. destruct (op w) as [[] w1]; simpl in *; [done|].
  destruct n; [done|]. apply IH. by apply (Hsl w1).
Qed.

(** The sleeps of a loop: at most one less than its attempts, each twice the one before. *)
Fixpoint backoffs (k : nat) (b : Z) : list Z :=
  match k with O => [] | S k' => b :: backoffs k' (b * 2) end.

Lemma retry_sleeps (op : World -> bool * World) :
  (forall w, slept (op w).2 = slept w) ->
  forall n b w, exists k, (k <= pred n)%nat /\ slept (retry op n b w).2 = slept w ++ backoffs k b.
Proof.
  intros Hop n. induction n as [|n IH]; intros b w; simpl.
  { exists O. by rewrite app_nil_r. }
  pose proof (Hop w) as H1. destruct (op w) as [[] w1]; simpl in H1.
  { exists O. rewrite app_nil_r. split; [lia|done]. }
  destruct n as [|n]; [exists O; by rewrite app_nil_r|].
  destruct (IH (b * 2) (w1 <| slept ::= fun l => l ++ [b] |>)) as (k & Hk & Hs).
  exists (S k). split; [simpl in Hk; lia|]. etrans; [exact Hs|]. simpl. by rewrite H1, <-app_assoc.
Qed.

(** ** The stages of a finalization *)

Section Stages.
  Context (hangup_causes transfer_statuses : list string) (NORMAL_CLEARING TRANSFER_NONE : string)
    (int_other : pyval -> option Z) (call_ended_queue EXTRACT_QUEUE : string).

Lemma lpush_retry_ok q p w :
  (nfaults w <= 2)%nat ->
  let w' := (retry (lpush q p) 3 200 w).2 in
  (retry (lpush q p) 3 200 w).1 = true /\ core w' = core (push q p w) /\ (nfaults w' <= nfaults w)%nat.
Proof.
  intros Hn. unshelve epose proof (retry_succeeds (fun x => core x = core w)
    (fun x => core x = core (push q p w)) (lpush q p) _ _ 3%nat 200 w eq_refl ltac:(lia)) as H.
  - intros x Hx. unfold lpush. destruct (remote_cases (push q p) x) as (fs & [[-> Hf]|[-> Hf]]).
    + rewrite Hf. split; [lia|]. split; [done|lia].
    + split; [rewrite Hf; done|]. apply core_inv in Hx as (Hq & ? & ? & ? & ? & ? & ?).
      apply core_intro; try done. simpl. by rewrite Hq.
  - done.
  - destruct (retry _ _ _ _). naive_solver.
Qed.

Definition commit_effect (s : CallSession) (started_at ended_at : Z)
  (rows : list (list (string * pyval))) (w : World) : World :=
  w <| records ::= fun m => <[call_record_id s := final_record transfer_statuses TRANSFER_NONE s
                               started_at ended_at (m !! call_record_id s)]> m |>
    <| trace_rows ::= fun l => l ++ rows |>.

Lemma persist_ok s st en rows w :
  (nfaults w <= 2)%nat ->
  mapM (trace_row int_other (call_record_id s) st) (pipeline_trace_records s) = Some rows ->
  let w' := (persist_call_record transfer_statuses TRANSFER_NONE int_other s st en w).2 in
  core w' = core (commit_effect s st en rows w) /\ (nfaults w' <= nfaults w)%nat.
Proof.
  intros Hn Hrows. unshelve epose proof (retry_succeeds (fun x => core x = core w)
    (fun x => core x = core (commit_effect s st en rows w))
    (write_in_transaction transfer_statuses TRANSFER_NONE int_other s st en) _ _ 3%nat 200 w eq_refl ltac:(lia)) as H.
  - intros x Hx. unfold write_in_transaction. rewrite Hrows.
    destruct (remote_cases id x) as (fs & [[-> Hf]|[-> Hf]]); [rewrite Hf; split; [lia|]; by split; [|lia]|].
    destruct (remote_cases (commit_effect s st en rows) (id (x <| faults := fs |>)))
      as (fs2 & [[Hr Hf2]|[Hr Hf2]]); unfold commit_effect in Hr at 1; rewrite Hr;
      unfold id in *; rewrite Hf, Hf2.
    + split; [lia|]. split; [done|]. lia.
    + split; [done|]. apply core_inv in Hx as (? & ? & Hrec & Htr & ? & ? & ?).
      apply core_intro; try done; simpl; [by rewrite Hrec|by rewrite Htr].
  - done.
  - unfold persist_call_record. destruct (retry _ _ _ _). naive_solver.
Qed.

Lemma decr_ok w :
  (nfaults w <= 2)%nat -> 0 <= counter w ->
  let w' := (decr_concurrency w).2 in
  core w' = core (w <| counter := Z.max 0 (counter w - 1) |>).
Proof.
  intros Hn Hc.
  pose (P := fun x : World => core (x <| counter := 0 |>) = core (w <| counter := 0 |>)
              /\ (counter x = counter w \/ counter x < 0 /\ counter w = 0)).
  pose (Q := fun x : World => core x = core (w <| counter := Z.max 0 (counter w - 1) |>)).
  unshelve epose proof (retry_succeeds P Q decr_once _ _ 3%nat 200 w (conj eq_refl (or_introl eq_refl)) ltac:(lia)) as H.
  - intros x [(Hq & _ & Hre & Htr & Hni & Hse & Hru)%core_inv Hcx]. simpl in *. unfold decr_once.
    destruct (remote_cases (fun w => w <| counter ::= fun n => n - 1 |>) x) as (fs & [[-> Hf]|[-> Hf]]).
    + rewrite Hf. split; [lia|]. split; [|lia]. split; [by apply core_intro|done].
    + simpl. destruct (counter x - 1 <? 0) eqn:Hlt; zbool.
      * match goal with |- context [remote ?f ?y] =>
          destruct (remote_cases f y) as (fs2 & [[-> Hf2]|[-> Hf2]]) end; simpl in Hf2.
        -- rewrite Hf. unfold nfaults in *. simpl in *. split; [lia|]. split; [|lia].
           split; [by apply core_intro|]. simpl. lia.
        -- rewrite Hf. unfold nfaults in *. simpl in *. split; [lia|].
           apply core_intro; simpl; try done. lia.
      * split; [rewrite Hf; done|]. apply core_intro; simpl; try done. lia.
  - done.
  - simpl. unfold decr_concurrency. destruct (retry _ _ _ _). naive_solver.
Qed.

(** A row up to the best-effort extraction mark. *)
Definition unmarked (r : CallRecord) : CallRecord := r <| cr_extract_status := None |>.

Lemma extract_ok s w :
  (nfaults w <= 2)%nat ->
  let w' := (lpush_extract EXTRACT_QUEUE s w).2 in
  let pushed := push EXTRACT_QUEUE (PExtract (call_record_id s) (dialog_history s)
                  (extractor_role_config_id s) (extractor_prompt_version_id s)) w in
  (core w' = core pushed
   \/ core w' = core (pushed <| records ::= alter (fun r =>
                        r <| cr_extract_status := Some "pending"%string |>) (call_record_id s) |>))
  /\ (nfaults w' <= nfaults w)%nat.
Proof.
  intros Hn. unfold lpush_extract.
  set (p := PExtract _ _ _ _). destruct (lpush_retry_ok EXTRACT_QUEUE p w Hn) as (Hok & Hc & Hle).
  destruct (retry _ _ _ _) as [ok w1]. simpl in *. subst ok.
  destruct (remote_cases id w1) as (fs & [[-> Hf]|[-> Hf]]); simpl.
  { split; [by left|]. unfold nfaults in *. simpl in *. lia. }
  unfold id. match goal with |- context [remote ?f ?y] =>
    destruct (remote_cases f y) as (fs2 & [[-> Hf2]|[-> Hf2]]) end; simpl in *;
    unfold nfaults in *; simpl in *; (split; [|lia]).
  - by left.
  - right. apply core_inv in Hc as (? & ? & Hr & ? & ? & ? & ?). apply core_intro; try done.
    simpl. by rewrite Hr.
Qed.

Lemma maybe_extract_ok s w :
  (nfaults w <= 2)%nat ->
  let w' := if wants_extract s then (lpush_extract EXTRACT_QUEUE s w).2 else w in
  (nfaults w' <= 2)%nat /\ counter w' = counter w /\ trace_rows w' = trace_rows w
  /\ sessions w' = sessions w
  /\ (forall i, unmarked <$> records w' !! i = unmarked <$> records w !! i)
  /\ (forall i, i <> call_record_id s -> records w' !! i = records w !! i)
  /\ queues w' = (if wants_extract s then queues (push EXTRACT_QUEUE (PExtract (call_record_id s)
       (dialog_history s) (extractor_role_config_id s) (extractor_prompt_version_id s)) w)
       else queues w).
Proof.
  intros Hn. cbv zeta. destruct (wants_extract s); [|split_and!; done || lia].
  destruct (extract_ok s w Hn) as [[He|He] Hle];
    apply core_inv in He as (-> & -> & -> & -> & _ & -> & _); simpl; (split_and!; try done; try lia).
  - intros i. destruct (decide (i = call_record_id s)) as [->|Hi].
    + rewrite lookup_alter_eq. by destruct (records w !! _).
    + by rewrite lookup_alter_ne.
  - intros i Hi. by rewrite lookup_alter_ne.
Qed.

(** What a finalization owes: the cause is a known one, the row is the finished call's,
    its traces are stored once, the worker hears of the end once and of the extraction
    once when one is due, the counter is one lower and not below zero, and the session
    is gone while every other one stays. *)
Record settled (s : CallSession) (st en : Z) (w w' : World) (s' : CallSession) : Prop := {
  settled_cause : hangup_cause s' = Some (resolve_hangup_cause hangup_causes NORMAL_CLEARING s)
                  /\ resolve_hangup_cause hangup_causes NORMAL_CLEARING s ∈ hangup_causes;
  settled_record : exists r, records w' !! call_record_id s = Some r
     /\ unmarked r = unmarked (final_record transfer_statuses TRANSFER_NONE s st en
                                 (records w !! call_record_id s));
  settled_other_records : forall i, i <> call_record_id s -> records w' !! i = records w !! i;
  settled_traces : exists rows,
     mapM (trace_row int_other (call_record_id s) st) (pipeline_trace_records s) = Some rows
     /\ trace_rows w' = trace_rows w ++ rows;
  settled_ended : queues w' !! call_ended_queue
     = Some (PCallEnded (call_record_id s) (resolve_hangup_cause hangup_causes NORMAL_CLEARING s) en
             :: default [] (queues w !! call_ended_queue));
  settled_extract : queues w' !! EXTRACT_QUEUE
     = if wants_extract s
       then Some (PExtract (call_record_id s) (dialog_history s) (extractor_role_config_id s)
                    (extractor_prompt_version_id s) :: default [] (queues w !! EXTRACT_QUEUE))
       else queues w !! EXTRACT_QUEUE;
  settled_counter : counter w' = Z.max 0 (counter w - 1);
  settled_sessions : sessions w' = delete (call_record_id s) (sessions w) }.

Hypothesis normal_known : NORMAL_CLEARING ∈ hangup_causes.
Hypothesis queues_differ : call_ended_queue <> EXTRACT_QUEUE.

Lemma resolve_known s : resolve_hangup_cause hangup_causes NORMAL_CLEARING s ∈ hangup_causes.
Proof. unfold resolve_hangup_cause. case_bool_decide; done. Qed.

(** Two failures, wherever they fall, are absorbed. *)
Lemma finalize_settles s st en w :
  (nfaults w <= 2)%nat -> 0 <= counter w ->
  is_Some (mapM (trace_row int_other (call_record_id s) st) (pipeline_trace_records s)) ->
  let '(s', w') := finalize_session hangup_causes transfer_statuses NORMAL_CLEARING TRANSFER_NONE
                     int_other call_ended_queue EXTRACT_QUEUE s st en w in
  settled s st en w w' s'.
Proof.
  intros Hn Hc [rows Hrows]. unfold finalize_session.
  set (cause := resolve_hangup_cause hangup_causes NORMAL_CLEARING s).
  set (s1 := s <| hangup_cause := Some cause |>).
  destruct (persist_ok s1 st en rows w Hn Hrows) as [Hp Hn1].
  set (w1 := (persist_call_record _ _ _ s1 st en w).2) in *.
  apply core_inv in Hp as (Hq1 & Hc1 & Hr1 & Ht1 & _ & Hs1 & _). simpl in *.
  set (w2 := if wants_extract s1 then _ else w1).
  destruct (maybe_extract_ok s1 w1 ltac:(lia)) as (Hn2 & Hc2 & Ht2 & Hs2 & Hm2 & Ho2 & Hq2).
  fold w2 in Hn2, Hc2, Ht2, Hs2, Hm2, Ho2, Hq2. change (wants_extract s1) with (wants_extract s) in Hq2.
  destruct (lpush_retry_ok call_ended_queue (PCallEnded (call_record_id s1) cause en) w2 Hn2)
    as (_ & H3 & Hn3). fold (lpush_call_ended call_ended_queue (call_record_id s1) cause en w2) in *.
  set (w3 := (lpush_call_ended _ _ _ _ w2).2) in *.
  apply core_inv in H3 as (Hq3 & Hc3 & Hr3 & Ht3 & _ & Hs3 & _). simpl in *.
  assert (H4 := decr_ok w3 ltac:(lia) ltac:(lia)).
  apply core_inv in H4 as (Hq4 & Hc4 & Hr4 & Ht4 & _ & Hs4 & _). simpl in *.
  constructor; simpl.
  - split; [done|]. apply resolve_known.
  - rewrite Hr4, Hr3. specialize (Hm2 (call_record_id s)). rewrite Hr1, lookup_insert_eq in Hm2.
    destruct (records w2 !! call_record_id s) as [r|]; [|done]. exists r. split; [done|].
    by apply (inj Some) in Hm2.
  - intros i Hi. rewrite Hr4, Hr3, Ho2, Hr1 by done. by rewrite lookup_insert_ne.
  - exists rows. split; [done|]. congruence.
  - rewrite Hq4, Hq3, lookup_insert_eq, Hq2. destruct (wants_extract s); simpl; [|by rewrite Hq1].
    by rewrite lookup_insert_ne, Hq1.
  - rewrite Hq4, Hq3, lookup_insert_ne, Hq2 by done.
    destruct (wants_extract s); simpl; [|by rewrite Hq1]. by rewrite lookup_insert_eq, Hq1.
  - rewrite Hc4. congruence.
  - rewrite Hs4. congruence.
Qed.
End Stages.

(** ** Every interleaving *)

Section Reachable.
  Context (hangup_causes transfer_statuses : list string) (NORMAL_CLEARING TRANSFER_NONE : string)
    (int_other : pyval -> option Z) (json_loads : pystr -> option pyval)
    (validate_dial : pystr -> option DialRequest)
    (engine_dlq call_ended_queue EXTRACT_QUEUE : string).

(** The registry holds exactly the calls whose task is alive, under their own ids; every
    such call still has the row reserved for it, at [INIT]; ids are never reused. *)
Record world_inv (w : World) : Prop := {
  inv_registry : forall i, is_Some (sessions w !! i) <-> is_Some (running w !! i);
  inv_keys : forall i s, sessions w !! i = Some s -> call_record_id s = i;
  inv_rows : forall i, is_Some (running w !! i) ->
               exists r, records w !! i = Some r /\ cr_status r = INIT;
  inv_fresh : forall i, is_Some (records w !! i) -> i < next_id w }.

(** What the stages of a finalization leave alone. *)
Definition frame (cid : Z) (w x : World) : Prop :=
  next_id x = next_id w /\ sessions x = sessions w /\ running x = running w
  /\ forall i, i <> cid -> records x !! i = records w !! i.

Lemma remote_frame cid f w x :
  frame cid w x -> (forall y, frame cid w y -> frame cid w (f y)) -> frame cid w (remote f x).2.
Proof.
  intros Hx Hf. destruct (remote_cases f x) as (fs & [[-> _]|[-> _]]); [done|]. by apply Hf.
Qed.

Lemma lpush_frame cid q p w x : frame cid w x -> frame cid w (lpush q p x).2.
Proof. intros Hx. by apply remote_frame. Qed.

Lemma decr_once_frame cid w x : frame cid w x -> frame cid w (decr_once x).2.
Proof.
  intros Hx. unfold decr_once.
  pose proof (remote_frame cid (fun w => w <| counter ::= fun n => n - 1 |>) w x Hx) as H.
  destruct (remote _ x) as [[] x1]; simpl in *; [|by apply H].
  destruct (counter x1 <? 0); [|by apply H]. by apply remote_frame; [apply H|].
Qed.

Lemma write_frame s st en w x :
  frame (call_record_id s) w x ->
  frame (call_record_id s) w
    (write_in_transaction transfer_statuses TRANSFER_NONE int_other s st en x).2.
Proof.
  intros Hx. unfold write_in_transaction.
  pose proof (remote_frame (call_record_id s) id w x Hx ltac:(done)) as H.
  destruct (remote id x) as [[] x1]; simpl in *; [|done].
  destruct (mapM _ _) as [rows|]; [|done]. apply remote_frame; [done|].
  intros y (? & ? & ? & Hr). split_and!; try done. intros i Hi. simpl.
  rewrite lookup_insert_ne by done. by apply Hr.
Qed.

Lemma extract_frame s w x :
  frame (call_record_id s) w x -> frame (call_record_id s) w (lpush_extract EXTRACT_QUEUE s x).2.
Proof.
  intros Hx. unfold lpush_extract. set (p := PExtract _ _ _ _).
  pose proof (retry_keeps (frame (call_record_id s) w) (lpush EXTRACT_QUEUE p)
    (lpush_frame _ _ _ _) ltac:(done) 3 200 x Hx) as H.
  destruct (retry _ _ _ _) as [[] x1]; simpl in *; [|done].
  pose proof (remote_frame (call_record_id s) id w x1 H ltac:(done)) as H1.
  destruct (remote id x1) as [[] x2]; simpl in *; [|done]. apply remote_frame; [done|].
  intros y (? & ? & ? & Hr). split_and!; try done. intros i Hi. simpl.
  rewrite lookup_alter_ne by done. by apply Hr.
Qed.

Lemma finalize_frame s st en w :
  let '(s', w') := finalize_session hangup_causes transfer_statuses NORMAL_CLEARING TRANSFER_NONE
                     int_other call_ended_queue EXTRACT_QUEUE s st en w in
  sessions w' = delete (call_record_id s) (sessions w) /\ running w' = running w
  /\ next_id w' = next_id w /\ forall i, i <> call_record_id s -> records w' !! i = records w !! i.
Proof.
  unfold finalize_session. set (cause := resolve_hangup_cause _ _ s).
  set (s1 := s <| hangup_cause := Some cause |>).
  assert (H1 : frame (call_record_id s1) w
    (persist_call_record transfer_statuses TRANSFER_NONE int_other s1 st en w).2)
    by (unfold persist_call_record; apply (retry_keeps (frame (call_record_id s1) w)); [intros x; apply write_frame|done|done]).
  revert H1. generalize (persist_call_record transfer_statuses TRANSFER_NONE int_other s1 st en w).2.
  intros w1 H1.
  assert (H2 : frame (call_record_id s1) w
    (if wants_extract s1 then (lpush_extract EXTRACT_QUEUE s1 w1).2 else w1))
    by (destruct (wants_extract s1); [by apply extract_frame|done]).
  revert H2. generalize (if wants_extract s1 then (lpush_extract EXTRACT_QUEUE s1 w1).2 else w1).
  intros w2 H2.
  assert (H3 : frame (call_record_id s1) w
    (lpush_call_ended call_ended_queue (call_record_id s1) cause en w2).2)
    by (unfold lpush_call_ended; apply (retry_keeps (frame (call_record_id s1) w)); [intros x; apply lpush_frame|done|done]).
  revert H3. generalize (lpush_call_ended call_ended_queue (call_record_id s1) cause en w2).2.
  intros w3 H3. assert (H4 : frame (call_record_id s1) w (decr_concurrency w3).2)
    by (unfold decr_concurrency; apply (retry_keeps (frame (call_record_id s1) w)); [intros x; apply decr_once_frame|done|done]).
  destruct H4 as (Hn & Hs & Hr & Hrec). simpl. rewrite Hs. done.
Qed.

(** The invariant reads only these five. *)
Lemma world_inv_ext w w' :
  sessions w' = sessions w -> running w' = running w -> records w' = records w ->
  next_id w' = next_id w -> world_inv w -> world_inv w'.
Proof.
  intros Hs Hr Hc Hn [H1 H2 H3 H4]. constructor; rewrite ?Hs, ?Hr, ?Hc, ?Hn; done.
Qed.

Lemma to_dlq_inv raw w : world_inv w -> world_inv (to_dlq engine_dlq raw w).2.
Proof.
  intros Hw. unfold to_dlq, lpush.
  destruct (remote_cases (push engine_dlq (PRaw raw)) w) as (fs & [[-> _]|[-> _]]); simpl;
    by eapply world_inv_ext; [..|exact Hw].
Qed.

(** A fresh row is below the new identity and not yet anybody's. *)
Lemma insert_row_inv row i0 w :
  world_inv w -> i0 = next_id w -> cr_status row = INIT ->
  world_inv (w <| records ::= <[i0 := row]> |> <| next_id := i0 + 1 |>).
Proof.
  intros [H1 H2 H3 H4] -> Hrow. constructor; simpl; try done.
  - intros i Hi. destruct (decide (i = next_id w)) as [->|Hne].
    + exists row. by rewrite lookup_insert_eq.
    + rewrite lookup_insert_ne by done. by apply H3.
  - intros i [r [[-> _]|[_ Hr]]%lookup_insert_Some]; [lia|].
    specialize (H4 i ltac:(by eexists)). lia.
Qed.

Lemma spawn_inv s now w r :
  world_inv w -> sessions w !! call_record_id s = None ->
  records w !! call_record_id s = Some r -> cr_status r = INIT ->
  world_inv (register s w <| running ::= <[call_record_id s := (s, now)]> |>).
Proof.
  intros [H1 H2 H3 H4] Hnone Hrec Hst. unfold register. rewrite Hnone. constructor; simpl; try done.
  - intros i. destruct (decide (i = call_record_id s)) as [->|Hne].
    + rewrite !lookup_insert_eq. split; by eexists.
    + rewrite !lookup_insert_ne by done. apply H1.
  - intros i s' [[<- <-]|[_ Hs]]%lookup_insert_Some; [done|]. by apply H2.
  - intros i Hi. destruct (decide (i = call_record_id s)) as [->|Hne]; [by exists r|].
    rewrite lookup_insert_ne in Hi by done. by apply H3.
Qed.

Lemma handle_dial_inv raw now mono w :
  world_inv w ->
  world_inv (handle_dial TRANSFER_NONE json_loads validate_dial engine_dlq raw now mono w).2.
Proof.
  intros Hw. unfold handle_dial. destruct (peek_schema_version _ raw); [|by apply to_dlq_inv].
  case_bool_decide; [|by apply to_dlq_inv]. destruct (validate_dial raw) as [rq|]; [|by apply to_dlq_inv].
  unfold reserve_call_record. set (row := mkRecord _ _ _ _ _ _ _ _ _ _ _ _ _).
  set (ins := fun w0 : World => w0 <| records ::= <[next_id w := row]> |> <| next_id := next_id w + 1 |>).
  destruct (remote_cases ins w) as (fs & [[-> _]|[-> _]]).
  { apply to_dlq_inv. by eapply world_inv_ext; [..|exact Hw]. }
  assert (Hins : world_inv (ins (w <| faults := fs |>))).
  { apply insert_row_inv; [|done|done].
    by eapply world_inv_ext; [..|exact Hw]. }
  destruct (remote_cases id (ins (w <| faults := fs |>))) as (fs2 & [[-> _]|[-> _]]).
  { apply to_dlq_inv. by eapply world_inv_ext; [..|exact Hins]. }
  unfold id. cbn [snd].
  set (s := new_session _ _ _ _ _ _ _). change (next_id w) with (call_record_id s).
  apply (spawn_inv s now _ row); [by eapply world_inv_ext; [..|exact Hins]| | |done].
  - simpl. destruct Hw as [H1 _ H3 H4]. apply eq_None_not_Some. intros Hs. apply H1, H3 in Hs.
    destruct Hs as (r & Hr & _). specialize (H4 (next_id w) ltac:(by eexists)). lia.
  - simpl. by rewrite lookup_insert_eq.
Qed.

Lemma runner_with_finalize_inv o s0 st en w :
  world_inv w -> running w !! call_record_id (outcome_session o) = Some (s0, st) ->
  world_inv (runner_with_finalize hangup_causes transfer_statuses NORMAL_CLEARING TRANSFER_NONE
               int_other call_ended_queue EXTRACT_QUEUE o st en w).2.
Proof.
  intros [H1 H2 H3 H4] Hrun. unfold runner_with_finalize.
  pose proof (finalize_frame (outcome_session o) st en w) as Hf.
  destruct (finalize_session _ _ _ _ _ _ _ _ _ _ _) as [s' w']. destruct Hf as (Hs & Hr & Hn & Hrec).
  set (cid := call_record_id (outcome_session o)) in *. constructor; simpl; rewrite ?Hs, ?Hr, ?Hn.
  - intros i. destruct (decide (i = cid)) as [->|Hne].
    + rewrite !lookup_delete_eq. split; by intros [].
    + rewrite !lookup_delete_ne by done. apply H1.
  - intros i s [_ Hi]%lookup_delete_Some. by apply H2.
  - intros i [x [Hne Hi]%lookup_delete_Some]. rewrite Hrec by done. apply H3. by eexists.
  - intros i [r Hi]. destruct (decide (i = cid)) as [->|Hne].
    + apply H4. destruct (H3 cid ltac:(by eexists)) as (r' & ? & _). by eexists.
    + rewrite Hrec in Hi by done. apply H4. by eexists.
Qed.

End Reachable.

(** ** Witnesses *)

Definition demo_causes : list string := ["normal_clearing"; "manual_hangup"]%string.

(** A call with one trace and an extraction due, finalized while the first commit and the
    first push fail. *)
Definition demo_session : CallSession :=
  new_session 1 2 3 [] [] 4 0 <| extractor_role_config_id := 5 |>
    <| dialog_history := [mkTurn RUser [65] 7] |>
    <| pipeline_trace_records := [[("turn_id"%string, VInt 1)]] |>.

Definition demo_world : World :=
  boot 3 <| sessions := {[1 := demo_session]} |> <| faults := [false; true; false; false; true] |>.


