(* ===== verification/Orchestrator.v ===== *)
(** * Prompts, greeting and the reply stream

    [pipeline/prompt_builder.py], [pipeline/greeting.py] and
    [pipeline/orchestrator.py]: the messages of the main model, the greeting,
    and [PipelineStream], which turns the model's token stream into sentences,
    falls back once to a plain call, never goes silent, and can generate
    eagerly into a buffer that playback replays.

    The model is a parameter: an [LLM] answers a stream request with the timed
    tokens it delivered and how the stream ended, and a plain request with a
    reply or an exception.  Times are milliseconds since the stream began. *)

From stdpp Require Import pretty.
From S2P Require Import Prelude Session Splitter Referee Managers.

(** ** Configuration *)

(** The slots of the shared package, as far as the engine reads them. *)
Record MainSpec := mkMainSpec {
  ms_role_config_id : Z; ms_prompt_version_id : Z; ms_system_prompt : pystr; ms_temperature : pyval; ms_top_p : pyval;
  ms_provider : option pystr; ms_model : option pystr }.

(** The optional slot that re-voices an interrupted reply. *)
Record RestructureSpec := mkRestructure { xs_slot :> MainSpec; xs_label : pystr }.

Record LeadInfo := mkLead {
  ld_name : option pystr; ld_phone : pystr; ld_custom_data : list (pystr * pyval) }.

Record PersonaSpec := mkPersona {
  ps_label : pystr; ps_role_config_id : Z; ps_prompt_version_id : Z; ps_system_prompt : pystr;
  ps_temperature : pyval; ps_top_p : pyval; ps_provider : option pystr; ps_model : option pystr }.

Record PipelineConfig := mkConfig {
  pc_main : MainSpec;
  pc_referees : list RefereeSpec;
  pc_extractor : MainSpec;
  pc_default_replies : list pystr;
  pc_lead : LeadInfo;
  pc_restructure : option RestructureSpec;
  pc_routing_rules : list (list (string * pyval));
  pc_max_continuous_restructure : Z;
  pc_auto_restructure_on_interrupt : bool;
  pc_restructure_gate_category : pystr;
  pc_last_call_summary : option pystr;
  pc_follow_up_count : Z;
  pc_short_reply_active : bool;
  pc_wrap_up_appended : bool;
  pc_personas : list PersonaSpec;
  pc_tools : list (string * pyval);
  pc_persona_fanout_cap : Z;
  pc_referee_timeout_ms : Z;
  pc_referee_fail_open_route : pystr }.

#[export] Instance PipelineConfig_eta : Eta PipelineConfig := fun c =>
  mkConfig (pc_main c) (pc_referees c) (pc_extractor c) (pc_default_replies c) (pc_lead c) (pc_restructure c)
    (pc_routing_rules c) (pc_max_continuous_restructure c) (pc_auto_restructure_on_interrupt c)
    (pc_restructure_gate_category c) (pc_last_call_summary c) (pc_follow_up_count c)
    (pc_short_reply_active c) (pc_wrap_up_appended c) (pc_personas c) (pc_tools c)
    (pc_persona_fanout_cap c) (pc_referee_timeout_ms c) (pc_referee_fail_open_route c).

(** ** Prompts *)

Definition nl : pystr := [10].

Definition WRAP_UP_APPEND : pystr :=
  nl ++ nl ++ u8 "---" ++ nl ++ u8 "【当前状态：收尾对话】" ++ nl
  ++ u8 "目标已达成。请简短确认或告别后结束对话，不要再尝试推进新议题。" ++ nl.

Definition FOLLOW_UP_APPEND (n : Z) : pystr :=
  nl ++ nl ++ u8 "【跟进上下文】" ++ nl ++ u8 "这是对该用户的第 " ++ u8 (pretty n)
  ++ u8 " 次跟进。请根据上述【上次通话纪要】调整开场和后续话术，避免重复内容。" ++ nl.

Definition SHORT_REPLY_APPEND : pystr := nl ++ nl ++ u8 "【打断保护】请用一句话回应。".

Definition role_string (r : Role) : string :=
  match r with RUser => "user" | RAssistant => "assistant" end.

(** [s or d] for a string that may be missing. *)
Definition str_or (s : option pystr) (d : pystr) : pystr :=
  match s with Some ((_ :: _) as x) => x | _ => d end.

Lemma str_or_nonempty s d : d <> [] -> str_or s d <> [].
Proof. destruct s as [[|]|]; simpl; done. Qed.

Lemma str_or_some m d x : m = Some x -> x <> [] -> str_or m d = x.
Proof. intros -> Hx. by destruct x. Qed.

Section Prompts.
  Context (other_str : pyval -> pystr).

Definition render_lead_info (lead : LeadInfo) : pystr :=
  let custom := str_join (u8 ", ")
                  (map (fun '(k, v) => k ++ u8 "=" ++ py_str other_str v) (ld_custom_data lead)) in
  u8 "【线索信息】name=" ++ str_or (ld_name lead) (u8 "—") ++ u8 ", phone=" ++ ld_phone lead
  ++ u8 ", custom_data=" ++ str_or (Some custom) (u8 "—").

Definition render_context (c : PipelineConfig) : pystr :=
  let summary := match pc_last_call_summary c with
                 | Some ((_ :: _) as s) =>
                     if 0 <? pc_follow_up_count c then [u8 "【上次通话纪要】" ++ nl ++ s] else []
                 | _ => []
                 end in
  nl ++ nl ++ u8 "---" ++ nl
  ++ str_join (nl ++ nl) (summary ++ [render_lead_info (pc_lead c)]).

Definition main_system (c : PipelineConfig) (is_wrap_up : bool) : pystr :=
  ms_system_prompt (pc_main c) ++ render_context c
  ++ (if 0 <? pc_follow_up_count c then FOLLOW_UP_APPEND (pc_follow_up_count c) else [])
  ++ (if pc_short_reply_active c then SHORT_REPLY_APPEND else [])
  ++ (if is_wrap_up then WRAP_UP_APPEND else []).

Definition build_main_messages (s : CallSession) (c : PipelineConfig) (is_wrap_up : bool)
  : list Message :=
  mkMessage "system" (main_system c is_wrap_up)
  :: map (fun t => mkMessage (role_string (dt_role t)) (dt_text t)) (dialog_history s).

Definition build_greeting_messages (c : PipelineConfig) : list Message :=
  [mkMessage "system" (ms_system_prompt (pc_main c));
   mkMessage "user" (u8 "【线索信息】name=" ++ str_or (ld_name (pc_lead c)) (u8 "—") ++ u8 ", phone="
                     ++ ld_phone (pc_lead c) ++ nl
                     ++ u8 "【任务】请生成开场白，直接输出要对客户说的话。")].

(** ** The model *)

(** A stream: the tokens with their arrival times, the time it ended, and the exception
    it ended with, if any. *)
Record StreamRun := mkRun {
  sr_tokens : list (Z * pystr); sr_end_ms : Z; sr_error : option pystr }.

Record LLM := mkLLM {
  llm_chat_stream : list Message -> pyval -> pyval -> StreamRun;
  (* the duration, and the content (possibly missing) or the exception, a timeout included *)
  llm_chat : list Message -> pyval -> pyval -> Z * result pystr (option pystr);
  llm_tokens_in : option Z;
  llm_tokens_out : option Z }.

(** ** Greeting *)

Definition GREETING_FALLBACK : pystr := u8 "您好。".

Definition generate_greeting (c : PipelineConfig) (llm : LLM) (fixed_template : option pystr)
  : pystr :=
  match fixed_template with
  | Some ((_ :: _) as t) => t
  | _ =>
      match llm_chat llm (build_greeting_messages c) (ms_temperature (pc_main c))
              (ms_top_p (pc_main c)) with
      | (_, Err _) => GREETING_FALLBACK
      | (_, Ok content) => str_or (Some (py_strip (default [] content))) GREETING_FALLBACK
      end
  end.

(** ** The reply stream *)

Record MainStreamResult := mkResult {
  mr_reply_text : pystr;
  mr_duration_ms : Z;
  mr_tokens_in : Z;
  mr_tokens_out : Z;
  mr_fallback_used : bool;
  mr_used_default_reply : bool;
  mr_error : option pystr;
  mr_first_token_ms : option Z;
  mr_first_sentence_ms : option Z }.

#[export] Instance MainStreamResult_eta : Eta MainStreamResult := fun r =>
  mkResult (mr_reply_text r) (mr_duration_ms r) (mr_tokens_in r) (mr_tokens_out r)
    (mr_fallback_used r) (mr_used_default_reply r) (mr_error r) (mr_first_token_ms r)
    (mr_first_sentence_ms r).

Definition empty_result : MainStreamResult := mkResult [] 0 0 0 false false None None None.

(** One turn's stream: its inputs, the model of its slot, and, after [start], its turn id
    and the verdicts of the referees it spawned. *)
Record PipelineStream := mkStream {
  st_user_input : pystr;
  st_config : PipelineConfig;
  st_llm : LLM;
  st_is_wrap_up : bool;
  st_restructure_text : option pystr;
  st_turn_id : Z;
  st_referee_labels : list pystr;
  st_referees : list RefereeResult }.

Definition is_restructure (restructure_text : option pystr) : bool :=
  match restructure_text with Some _ => true | None => false end.

(** The slot whose model and sampling parameters the stream uses. *)
Definition stream_slot (c : PipelineConfig) (restructure_text : option pystr) : MainSpec :=
  match restructure_text, pc_restructure c with
  | Some _, Some r => r
  | _, _ => pc_main c
  end.

Section Stream.
  (** The Unicode letters and digits; the registry, when there is one; the clock readings
      around each referee call. *)
  Context (readable : Z -> bool)
    (registry : option (option pystr -> option pystr -> LLM))
    (referee_clock : pystr -> Z * Z).

Definition resolve_llm (provider model : option pystr) (fallback : LLM) : LLM :=
  match registry with Some resolve => resolve provider model | None => fallback end.

(** [run_referee] against an [LLM]. *)
Definition referee_of (s : CallSession) (user : pystr) (llm : LLM) (spec : RefereeSpec)
  : RefereeResult :=
  let '(t0, t1) := referee_clock (rs_label spec) in
  run_referee (fun m temp top =>
      match (llm_chat llm m temp top).2 with Ok (Some c) => Some c | _ => None end)
    t0 t1 (interrupt_remaining_text s) user
    (recent_dialog_rounds RECENT_ROUNDS (dialog_history s)) spec.

(** [PipelineStream(...)] followed by [start()]: the turn id is the session's next, and
    every configured referee is spawned unless this is a wrap-up or restructure turn. *)
Definition start_stream (s : CallSession) (user_input : pystr) (c : PipelineConfig)
  (main_llm referee_llm : LLM) (is_wrap_up : bool) (restructure_text : option pystr)
  : PipelineStream * CallSession :=
  let slot := stream_slot c restructure_text in
  let llm := resolve_llm (ms_provider slot) (ms_model slot) main_llm in
  let s := s <| current_turn_id ::= Z.succ |> in
  let specs := if is_wrap_up || is_restructure restructure_text then [] else pc_referees c in
  (mkStream user_input c llm is_wrap_up restructure_text (current_turn_id s)
     (map rs_label specs)
     (map (fun spec =>
        referee_of s user_input (resolve_llm (rs_provider spec) (rs_model spec) referee_llm) spec)
        specs), s).

Definition run_pipeline_stream (s : CallSession) (user_input : pystr) (c : PipelineConfig)
  (main_llm referee_llm : LLM) (is_wrap_up : bool) : PipelineStream * CallSession :=
  start_stream s user_input c main_llm referee_llm is_wrap_up None.

Definition run_restructure_stream (s : CallSession) (restructure_text : pystr)
  (c : PipelineConfig) (llm : LLM) : PipelineStream * CallSession :=
  start_stream s [] c llm llm false (Some restructure_text).

Definition build_messages (s : CallSession) (st : PipelineStream) : list Message :=
  match st_restructure_text st, pc_restructure (st_config st) with
  | Some t, Some r => [mkMessage "system" (ms_system_prompt r); mkMessage "user" t]
  | _, _ => build_main_messages s (st_config st) (st_is_wrap_up st)
  end.

Definition stream_params (st : PipelineStream) : pyval * pyval :=
  let slot := stream_slot (st_config st) (st_restructure_text st) in
  (ms_temperature slot, ms_top_p slot).

(** The splitter over timed tokens: each sentence with the time of the token that closed
    it. *)
Fixpoint timed_split (buffer : pystr) (tokens : list (Z * pystr)) : pystr * list (Z * pystr) :=
  match tokens with
  | [] => (buffer, [])
  | (t, token) :: tokens' =>
      if zlen token =? 0 then timed_split buffer tokens'
      else
        let '(b1, o1) := split_token readable SOFT_SENTENCE_CHARS MAX_SENTENCE_CHARS buffer token in
        let '(b2, o2) := timed_split b1 tokens' in
        (b2, map (pair t) o1 ++ o2)
  end.

(** The plain call: its sentences, its duration, whether it answered, and its error. *)
Definition chat_fallback (st : PipelineStream) (messages : list Message)
  : list pystr * Z * bool * option pystr :=
  let '(temperature, top_p) := stream_params st in
  match llm_chat (st_llm st) messages temperature top_p with
  | (d, Err exc) => ([], d, false, Some (u8 "main_fallback: " ++ exc))
  | (d, Ok content) =>
      let text := py_strip (default [] content) in
      ((if decide (text = []) then []
        else split_sentences readable SOFT_SENTENCE_CHARS MAX_SENTENCE_CHARS [text]),
       d, true, None)
  end.

Definition generate_core (s : CallSession) (st : PipelineStream) : list pystr * MainStreamResult :=
  let messages := build_messages s st in
  let '(temperature, top_p) := stream_params st in
  let run := llm_chat_stream (st_llm st) messages temperature top_p in
  let '(tail, timed) := timed_split [] (sr_tokens run) in
  let timed := match sr_error run with
               | None => timed ++ map (pair (sr_end_ms run)) (emit readable tail)
               | Some _ => timed
               end in
  let res := empty_result
               <| mr_first_token_ms := fst <$> head (sr_tokens run) |>
               <| mr_first_sentence_ms := fst <$> head timed |>
               <| mr_tokens_in := default 0 (llm_tokens_in (st_llm st)) |>
               <| mr_tokens_out := default 0 (llm_tokens_out (st_llm st)) |>
               <| mr_duration_ms := sr_end_ms run |> in
  match sr_error run, timed with
  | Some _, [] =>
      let '(out, d, ok, err) := chat_fallback st messages in
      (out, res <| mr_reply_text := concat out |> <| mr_fallback_used := ok |>
                <| mr_error := err |> <| mr_duration_ms ::= Z.add d |>)
  | Some exc, _ =>
      (map snd timed, res <| mr_reply_text := concat (map snd timed) |>
                          <| mr_error := Some (u8 "main_stream_mid: " ++ exc) |>)
  | None, _ => (map snd timed, res <| mr_reply_text := concat (map snd timed) |>)
  end.

Definition DEFAULT_REPLY : pystr := u8 "好的，请稍等。".
Definition EMPTY_REPLY : pystr := u8 "empty_reply_default_used".

(** What [sentences()] adds once the generation is over: the default reply, and its event,
    when nothing audible was said.  [append] is the session's [append_event]. *)
Definition with_default (append : string -> event -> CallSession -> result AppendError CallSession)
  (rnd : nat) (c : PipelineConfig) (s : CallSession) (out : list pystr) (res : MainStreamResult)
  : result AppendError (list pystr * MainStreamResult * CallSession) :=
  if decide (py_strip (mr_reply_text res) = []) then
    let def := default DEFAULT_REPLY (choose rnd (pc_default_replies c)) in
    let res := res <| mr_reply_text := def |> <| mr_used_default_reply := true |>
                   <| mr_error := match mr_error res with
                                  | Some e => Some e
                                  | None => Some EMPTY_REPLY
                                  end |> in
    let? s := append "default_reply_used"%string
                [("text"%string, VStr def);
                 ("reason"%string, match mr_error res with Some e => VStr e | None => VNone end)] s in
    Ok (out ++ [def], res, s)
  else Ok (out, res, s).

(** [sentences()] on the direct path. *)
Definition sentences (append : string -> event -> CallSession -> result AppendError CallSession)
  (rnd : nat) (s : CallSession) (st : PipelineStream)
  : result AppendError (list pystr * MainStreamResult * CallSession) :=
  let '(out, res) := generate_core s st in
  with_default append rnd (st_config st) s out res.
End Stream.
End Prompts.

(** ** Lemmas *)

Section Lemmas.
  Context (other_str : pyval -> pystr) (readable : Z -> bool).

Definition cut_stream (tokens : list (Z * pystr)) : list pystr :=
  (split_stream readable SOFT_SENTENCE_CHARS MAX_SENTENCE_CHARS [] (map snd tokens)).2.

Lemma timed_split_stream tokens buffer :
  split_stream readable SOFT_SENTENCE_CHARS MAX_SENTENCE_CHARS buffer (map snd tokens)
  = let '(b, o) := timed_split readable buffer tokens in (b, map snd o).
Proof.
  revert buffer. induction tokens as [|[t token] tokens IH]; intros buffer; simpl; [done|].
  destruct (zlen token =? 0); [apply IH|].
  destruct (split_token _ _ _ buffer token) as [b1 o1]. rewrite IH.
  destruct (timed_split readable b1 tokens) as [b2 o2].
  rewrite map_app, map_map. simpl. by rewrite map_id.
Qed.

(** Everything the splitter yields can be heard. *)
Definition audible (s : pystr) : Prop := s <> [] /\ py_strip s = s.

Lemma emit_audible buffer : Forall audible (emit readable buffer).
Proof.
  apply Forall_forall. intros s Hs. apply emit_spec in Hs as (-> & Hne & _).
  split; [done|apply strip_idem].
Qed.

Lemma split_token_audible soft max token buffer :
  Forall audible (split_token readable soft max buffer token).2.
Proof.
  revert buffer. induction token as [|ch token IH]; intros buffer; simpl; [constructor|].
  unfold split_char. set (b := buffer ++ [ch]).
  destruct (should_emit soft max b ch); simpl.
  - specialize (IH []). destruct (split_token readable soft max [] token) as [b2 o2].
    apply Forall_app. split; [apply emit_audible|done].
  - specialize (IH b). by destruct (split_token readable soft max b token).
Qed.

Lemma cut_stream_audible tokens : Forall audible (cut_stream tokens).
Proof. unfold cut_stream. rewrite split_stream_concat. apply split_token_audible. Qed.

Lemma split_sentences_audible tokens :
  Forall audible (split_sentences readable SOFT_SENTENCE_CHARS MAX_SENTENCE_CHARS tokens).
Proof.
  unfold split_sentences. rewrite split_stream_concat.
  pose proof (split_token_audible SOFT_SENTENCE_CHARS MAX_SENTENCE_CHARS (concat tokens) []) as H.
  destruct (split_token _ _ _ _ _) as [tl o]. apply Forall_app. split; [done|apply emit_audible].
Qed.

Lemma strip_blank_all s : py_strip s = [] <-> Forall (fun c => is_space c = true) s.
Proof.
  split; intros H.
  - destruct (strip_decomp is_space s) as (l & r & Hs & Hlr).
    unfold py_strip in H. rewrite H in Hs. by rewrite Hs.
  - unfold py_strip, strip_by. rewrite <-(app_nil_r s), lstrip_wrap by done. done.
Qed.

(** A reply of audible sentences is blank only when there is none. *)
Lemma blank_reply out : Forall audible out -> py_strip (concat out) = [] -> out = [].
Proof.
  intros [|a l [Hne Hst] _]; [done|]. intros Hb%strip_blank_all. exfalso.
  apply Forall_app in Hb as [Ha _]. apply strip_blank_all in Ha. congruence.
Qed.

Lemma audible_reply out : Forall audible out -> out <> [] -> py_strip (concat out) <> [].
Proof. eauto using blank_reply. Qed.

(** The sentences of a generation and the error it records, by how the stream ended. *)
Inductive core_spec (s : CallSession) (st : PipelineStream) : list pystr -> MainStreamResult -> Prop :=
| core_complete run out res :
    run = llm_chat_stream (st_llm st) (build_messages other_str s st) (stream_params st).1
            (stream_params st).2 ->
    sr_error run = None ->
    out = split_sentences readable SOFT_SENTENCE_CHARS MAX_SENTENCE_CHARS (map snd (sr_tokens run)) ->
    mr_fallback_used res = false -> mr_error res = None ->
    core_spec s st out res
| core_midway run exc out res :
    run = llm_chat_stream (st_llm st) (build_messages other_str s st) (stream_params st).1
            (stream_params st).2 ->
    sr_error run = Some exc ->
    out = cut_stream (sr_tokens run) -> out <> [] ->
    mr_fallback_used res = false -> mr_error res = Some (u8 "main_stream_mid: " ++ exc) ->
    core_spec s st out res
| core_fallback run exc d reply out res :
    run = llm_chat_stream (st_llm st) (build_messages other_str s st) (stream_params st).1
            (stream_params st).2 ->
    sr_error run = Some exc -> cut_stream (sr_tokens run) = [] ->
    llm_chat (st_llm st) (build_messages other_str s st) (stream_params st).1 (stream_params st).2
      = (d, reply) ->
    match reply with
    | Ok content =>
        out = split_sentences readable SOFT_SENTENCE_CHARS MAX_SENTENCE_CHARS
                [py_strip (default [] content)]
        /\ mr_fallback_used res = true /\ mr_error res = None
    | Err e => out = [] /\ mr_fallback_used res = false
               /\ mr_error res = Some (u8 "main_fallback: " ++ e)
    end ->
    core_spec s st out res.

Lemma split_sentences_nil : split_sentences readable SOFT_SENTENCE_CHARS MAX_SENTENCE_CHARS [[]] = [].
Proof. done. Qed.

Lemma generate_core_spec s st :
  let '(out, res) := generate_core other_str readable s st in
  core_spec s st out res /\ Forall audible out /\ mr_reply_text res = concat out
  /\ mr_used_default_reply res = false.
Proof.
  unfold generate_core. destruct (stream_params st) as [temp top] eqn:Hp.
  set (run := llm_chat_stream _ _ _ _). pose proof (timed_split_stream (sr_tokens run) []) as Ht.
  pose proof (cut_stream_audible (sr_tokens run)) as Hcut. unfold cut_stream in Hcut.
  destruct (timed_split readable [] (sr_tokens run)) as [tl timed]. rewrite Ht in Hcut. simpl in Hcut.
  destruct (sr_error run) as [exc|] eqn:Herr; [destruct timed as [|x timed]|].
  - unfold chat_fallback. rewrite Hp.
    destruct (llm_chat _ _ temp top) as [d [content|e]] eqn:Hc; simpl.
    + split_and!; try done.
      * eapply (core_fallback _ _ run exc d (Ok content)); rewrite ?Hp; try done.
        -- unfold cut_stream. by rewrite Ht.
        -- split_and!; try done. case_decide as Hnil; [|done]. by rewrite Hnil, split_sentences_nil.
      * case_decide; [constructor|]. apply split_sentences_audible.
    + split_and!; try done. eapply (core_fallback _ _ run exc d (Err e)); rewrite ?Hp; try done.
      unfold cut_stream. by rewrite Ht.
  - split_and!; try done. eapply (core_midway _ _ run exc); rewrite ?Hp; try done.
    unfold cut_stream. by rewrite Ht.
  - assert (Hout : map snd (timed ++ map (pair (sr_end_ms run)) (emit readable tl))
      = split_sentences readable SOFT_SENTENCE_CHARS MAX_SENTENCE_CHARS (map snd (sr_tokens run))).
    { unfold split_sentences. rewrite Ht, map_app, map_map. simpl. by rewrite map_id. }
    rewrite Hout. split_and!; try done; [|apply split_sentences_audible].
    by eapply (core_complete _ _ run); rewrite ?Hp.
Qed.
End Lemmas.

(** ** Eager generation and replay *)

Module Eager.

(** The speculative buffer of one stream.  [pending] are the sentences the generation has
    still to produce, [taken] the ones playback has received. *)
Record state := mkEager {
  pending : list pystr;
  buffer : list pystr;
  replayed_count : nat;
  eager_done : bool;
  cancelled : bool;
  taken : list pystr;
  returned : bool }.

#[export] Instance state_eta : Eta state := fun e =>
  mkEager (pending e) (buffer e) (replayed_count e) (eager_done e) (cancelled e) (taken e) (returned e).

Definition start_eager (all : list pystr) : state := mkEager all [] 0 false false [] false.

(** The next sentence [_replay] hands out, when one is buffered. *)
Definition next_sentence (e : state) : option pystr := buffer e !! replayed_count e.

Definition buffer_remainder (e : state) : pystr := concat (drop (replayed_count e) (buffer e)).

(** [_drain_eager] and [_replay] interleave under the buffer's condition; [cancel_eager] may
    come at any time, and its [finally] marks the buffer done. *)
Inductive step : state -> state -> Prop :=
| step_generate x rest e :
    pending e = x :: rest -> eager_done e = false ->
    step e (e <| pending := rest |> <| buffer ::= fun b => b ++ [x] |>)
| step_done e :
    pending e = [] -> eager_done e = false -> step e (e <| eager_done := true |>)
| step_cancel e :
    eager_done e = false -> step e (e <| eager_done := true |> <| cancelled := true |>)
| step_replay x e :
    next_sentence e = Some x -> returned e = false ->
    step e (e <| replayed_count ::= S |> <| taken ::= fun l => l ++ [x] |>)
| step_return e :
    next_sentence e = None -> eager_done e = true -> returned e = false ->
    step e (e <| returned := true |>).

Record inv (all : list pystr) (e : state) : Prop := {
  inv_split : buffer e ++ pending e = all;
  inv_taken : taken e = take (replayed_count e) (buffer e);
  inv_bound : (replayed_count e <= length (buffer e))%nat;
  inv_done : eager_done e = true -> cancelled e = false -> pending e = [];
  inv_cancel : cancelled e = true -> eager_done e = true;
  inv_returned : returned e = true -> eager_done e = true /\ replayed_count e = length (buffer e) }.

Lemma eager_start_inv all : inv all (start_eager all).
Proof. by constructor. Qed.

Lemma eager_step_inv all e e' : inv all e -> step e e' -> inv all e'.
Proof.
  intros Hi Hs. destruct Hs as [x rest e Hp Hd|e Hp Hd|e Hd|x e Hn Hr|e Hn Hd Hr];
    destruct Hi as [H1 H2 H3 H4 H5 H6]; simpl in *.
  - constructor; simpl; try (intros; congruence).
    + rewrite <-H1, Hp. by rewrite <-app_assoc.
    + by rewrite take_app_le.
    + rewrite length_app. simpl. lia.
    + done.
    + intros Hret. destruct (H6 Hret). congruence.
  - constructor; simpl; try done. intros Hret. destruct (H6 Hret). congruence.
  - constructor; simpl; try done. intros Hret. destruct (H6 Hret). congruence.
  - pose proof (lookup_lt_Some _ _ _ Hn). constructor; simpl; try done; [|congruence].
    unfold next_sentence in Hn. by rewrite (take_S_r _ _ x Hn), H2.
  - constructor; simpl; try done. intros _. split; [done|]. apply lookup_ge_None in Hn. lia.
Qed.

(** Steps left before playback returns, if nothing cancels. *)
Definition work (e : state) : nat :=
  (2 * length (pending e) + (length (buffer e) - replayed_count e)
   + (if eager_done e then 0 else 1) + (if returned e then 0 else 1))%nat.

(** Playback can always go on, and each step brings the end nearer. *)
Lemma eager_progress all e : inv all e -> returned e = false -> exists e', step e e' /\ cancelled e' = cancelled e.
Proof.
  intros Hi Hr. destruct (next_sentence e) as [x|] eqn:Hn; [eexists; split; [by eapply step_replay|done]|].
  destruct (eager_done e) eqn:Hd; [eexists; split; [by apply step_return|done]|].
  destruct (pending e) as [|x rest] eqn:Hp; eexists.
  - split; [by apply step_done|done].
  - split; [by eapply step_generate|done].
Qed.

Lemma eager_work_decreases all e e' : inv all e -> step e e' -> (work e' < work e)%nat.
Proof.
  intros Hi Hs. destruct Hs as [x rest e Hp Hd|e Hp Hd|e Hd|x e Hn Hr|e Hn Hd Hr];
    destruct Hi as [_ _ Hb _ _ _]; unfold work; simpl; rewrite ?Hp, ?Hd, ?Hr, ?length_app; simpl; try lia.
  apply lookup_lt_Some in Hn. lia.
Qed.

Lemma reaches_end all e :
  inv all e -> cancelled e = false -> exists e', rtc step e e' /\ returned e' = true /\ cancelled e' = false.
Proof.
  remember (work e) as n eqn:Hn. revert e Hn.
  induction n as [n IH] using lt_wf_ind. intros e -> Hi Hc.
  destruct (returned e) eqn:Hr; [by exists e|].
  destruct (eager_progress all e Hi Hr) as (e1 & Hs & Hc1).
  destruct (IH (work e1) (eager_work_decreases _ _ _ Hi Hs) e1 eq_refl (eager_step_inv _ _ _ Hi Hs) ltac:(congruence))
    as (e' & Hr' & H'). exists e'. split; [by eapply rtc_l|done].
Qed.

(** C6: Eager generation is invisible to playback: however generating and replaying
    interleave, what playback has received, what the barge-in capture would still read from
    the buffer and what is still to be generated are together, in order, the sentences of
    the direct path; when the replay returns uncancelled it has delivered all of them, and
    until then it can always be completed.  After a cancellation it has delivered a
    prefix. *)
Theorem eager_replay_is_direct other_str readable s st e :
  rtc step (start_eager (generate_core other_str readable s st).1) e ->
  let all := (generate_core other_str readable s st).1 in
  taken e ++ drop (replayed_count e) (buffer e) ++ pending e = all
  /\ concat (taken e) ++ buffer_remainder e ++ concat (pending e) = concat all
  /\ (returned e = true -> cancelled e = false -> taken e = all)
  /\ (cancelled e = false ->
       exists e', rtc step e e' /\ returned e' = true /\ cancelled e' = false /\ taken e' = all).
Proof.
  generalize (generate_core other_str readable s st).1. intros all Hr. cbv zeta.
  assert (Hinv : forall e1, rtc step e e1 -> inv all e1).
  { intros e1 H1. refine (rtc_invariant _ _ (eager_step_inv all) _ _ (transitivity Hr H1) (eager_start_inv all)). }
  assert (Hend : forall e1, inv all e1 -> returned e1 = true -> cancelled e1 = false -> taken e1 = all).
  { intros e1 [H1 H2 _ H4 _ H6] Hret Hc. destruct (H6 Hret) as [Hd Hlen].
    rewrite H2, Hlen, firstn_all, <-H1, (H4 Hd Hc). by rewrite app_nil_r. }
  pose proof (Hinv e (rtc_refl _ _)) as Hi. pose proof Hi as [H1 H2 _ _ _ _].
  assert (Hall : taken e ++ drop (replayed_count e) (buffer e) ++ pending e = all)
    by (by rewrite H2, app_assoc, take_drop).
  split_and!; [done| |by apply Hend|].
  - rewrite <-Hall, !concat_app. done.
  - intros Hc. destruct (reaches_end all e Hi Hc) as (e' & He' & Hret & Hc').
    exists e'. split_and!; try done. apply Hend; [by apply Hinv|done|done].
Qed.
End Eager.
Import Eager.

(** ** The whole reply *)

Lemma or_default_error {A} (x : A) (o : option A) :
  match o with Some e => Some e | None => Some x end = Some (default x o).
Proof. by destruct o. Qed.

(** C24: A turn never goes silent: with production's lenient transcript, whatever the
    model does, at least one sentence is handed to playback and the recorded reply is
    exactly what was handed over.  The model's own sentences are used when there are any;
    the plain call is tried only when the stream failed before its first sentence; the
    default reply is used, and its event appended, exactly when all of that said nothing. *)
Theorem reply_never_silent other_str readable valid_event now rnd s st :
  exists out res s',
    sentences other_str readable (append_event valid_event false other_str now) rnd s st
      = Ok (out, res, s')
    /\ out <> [] /\ mr_reply_text res = concat out
    /\ exists gen core, generate_core other_str readable s st = (gen, core)
         /\ core_spec other_str readable s st gen core
         /\ (gen <> [] -> out = gen /\ res = core /\ s' = s)
         /\ (gen = [] -> mr_used_default_reply res = true
              /\ (out = [DEFAULT_REPLY] \/ exists d, d ∈ pc_default_replies (st_config st) /\ out = [d])
              /\ mr_error res = Some (default EMPTY_REPLY (mr_error core))
              /\ dialog_history s' = dialog_history s
              /\ exists ev, full_transcript s' = full_transcript s ++ [ev]).
Proof.
  pose proof (generate_core_spec other_str readable s st) as Hspec. unfold sentences.
  destruct (generate_core other_str readable s st) as [gen core] eqn:Hg.
  destruct Hspec as (Hcore & Haud & Htext & _). unfold with_default. rewrite Htext.
  case_decide as Hblank.
  - apply blank_reply in Hblank as ->; [|done].
    set (d := default DEFAULT_REPLY (choose rnd (pc_default_replies (st_config st)))).
    unfold append_event. rewrite bool_decide_eq_true_2 by (apply list_elem_of_In; simpl; tauto).
    rewrite andb_false_r. cbn [dialog_turn_of]. unfold dialog_turn_of.
    rewrite bool_decide_eq_false_2 by (intros H%list_elem_of_In; simpl in H; intuition discriminate).
    cbn [rbind]. eexists _, _, _. split; [reflexivity|].
    split; [done|]. split; [simpl; by rewrite app_nil_r|].
    exists [], core. split_and!; try done. intros _. split_and!; try done.
    + simpl. subst d. destruct (choose rnd _) as [x|] eqn:Hx; [|by left].
      right. exists x. split; [by eapply choose_elem|done].
    + exact (or_default_error EMPTY_REPLY (mr_error core)).
    + by eexists.
  - exists gen, core, s. assert (gen <> []) by (by intros ->).
    split_and!; try done. exists gen, core. by split_and!.
Qed.

(** The campaign's closing instruction is the literal end of the system message, and the
    dialogue follows it turn by turn. *)
Lemma wrap_up_instruction_last other_str s c :
  exists pre, build_main_messages other_str s c true
    = mkMessage "system" (pre ++ WRAP_UP_APPEND)
      :: map (fun t => mkMessage (role_string (dt_role t)) (dt_text t)) (dialog_history s).
Proof.
  unfold build_main_messages, main_system.
  exists (ms_system_prompt (pc_main c) ++ render_context other_str c
    ++ (if 0 <? pc_follow_up_count c then FOLLOW_UP_APPEND (pc_follow_up_count c) else [])
    ++ (if pc_short_reply_active c then SHORT_REPLY_APPEND else [])).
  by rewrite <-!app_assoc.
Qed.

(** ** Witnesses *)

Definition demo_config : PipelineConfig :=
  mkConfig (mkMainSpec 1 2 [80] VNone VNone None None) [] (mkMainSpec 0 0 [] VNone VNone None None) [] (mkLead None [] []) None [] 2 false []
    None 0 false false [] [] 1 600 [].

Definition demo_stream : PipelineStream :=
  mkStream [] demo_config
    (mkLLM (fun _ _ _ => mkRun [(5, [65; 46]); (9, [66; 46])] 12 None) (fun _ _ _ => (0, Ok None)) None None)
    false None 1 [] [].

Lemma eager_replay_is_direct_witness :
  let e := start_eager (generate_core (fun _ => []) (fun _ => true)
             (new_session 1 2 3 [] [] 4 0) demo_stream).1 in
  pending e = [[65; 46]; [66; 46]]
  /\ exists e', rtc step e e' /\ returned e' = true /\ cancelled e' = false
       /\ taken e' = [[65; 46]; [66; 46]].
Proof.
  split; [vm_compute; reflexivity|].
  apply (eager_replay_is_direct (fun _ => []) (fun _ => true) (new_session 1 2 3 [] [] 4 0) demo_stream);
    [apply rtc_refl|reflexivity].
Defined.
