(* ===== verification/Playback.v ===== *)
(** * Streaming playback

    [run_loop.py], [_SynthJob] and [_play_streaming]: a producer takes the
    sentences of the reply, starts the synthesis of each at once and puts the
    job on a queue of two; a consumer plays the jobs one by one.  A barge-in
    cancels the job being played, and the unspoken rest is captured for a later
    restructure turn. *)

From S2P Require Import Prelude.

(** ** One synthesis job *)

(** [_drain]: what the provider's chunks and ending leave in the buffer.  [None] is the
    sentinel. *)
Definition drain (chunks : list (list Z)) : list (option (list Z)) := map Some chunks ++ [None].

(** [stream()]: the chunks up to the sentinel, then the synthesis error, if any. *)
Fixpoint job_stream (buffer : list (option (list Z))) : list (list Z) :=
  match buffer with
  | Some c :: rest => c :: job_stream rest
  | _ => []
  end.

Lemma job_stream_drain chunks : job_stream (drain chunks) = chunks.
Proof. induction chunks as [|c l IH]; [done|]. by apply (f_equal (cons c)). Qed.

(** ** Producer and consumer *)

Definition JOB_QUEUE_SIZE : nat := 2.

Inductive PlayEnd : Type := Finished | BargedIn | PlaybackError.

Record player := mkPlayer {
  upcoming : list pystr;          (* sentences the producer has not taken yet *)
  blocked : option pystr;         (* a job made and waiting for room in the queue *)
  queue : list (option pystr);    (* [None] is the completion sentinel *)
  sentinel_put : bool;
  current_job : option pystr;
  spoken : list pystr;            (* sentences played to their end *)
  ending : option PlayEnd }.

#[export] Instance player_eta : Eta player := fun p =>
  mkPlayer (upcoming p) (blocked p) (queue p) (sentinel_put p) (current_job p) (spoken p) (ending p).

Definition start_player (sentences : list pystr) : player :=
  mkPlayer sentences None [] false None [] None.

Inductive step : player -> player -> Prop :=
| step_make x rest p :                                        (* _SynthJob(sentence, ...) *)
    ending p = None -> blocked p = None -> upcoming p = x :: rest ->
    step p (p <| blocked := Some x |> <| upcoming := rest |>)
| step_put x p :                                              (* await job_q.put(pending) *)
    ending p = None -> blocked p = Some x -> (length (queue p) < JOB_QUEUE_SIZE)%nat ->
    step p (p <| blocked := None |> <| queue ::= fun q => q ++ [Some x] |>)
| step_sentinel p :                                           (* await job_q.put(None) *)
    ending p = None -> blocked p = None -> upcoming p = [] -> sentinel_put p = false ->
    (length (queue p) < JOB_QUEUE_SIZE)%nat ->
    step p (p <| sentinel_put := true |> <| queue ::= fun q => q ++ [None] |>)
| step_get x rest p :                                         (* await job_q.get() *)
    ending p = None -> current_job p = None -> queue p = Some x :: rest ->
    step p (p <| current_job := Some x |> <| queue := rest |>)
| step_finish rest p :
    ending p = None -> current_job p = None -> queue p = None :: rest ->
    step p (p <| queue := rest |> <| ending := Some Finished |>)
| step_played x p :                                           (* _play_chunks -> True *)
    ending p = None -> current_job p = Some x ->
    step p (p <| current_job := None |> <| spoken ::= fun l => l ++ [x] |>)
| step_barge x p :                                            (* _play_chunks -> False *)
    ending p = None -> current_job p = Some x -> step p (p <| ending := Some BargedIn |>)
| step_error x p :                                            (* _play_chunks raises *)
    ending p = None -> current_job p = Some x -> step p (p <| ending := Some PlaybackError |>).

(** The jobs still queued. *)
Definition queued (p : player) : list pystr := omap id (queue p).

Definition opt_list {A} (o : option A) : list A := match o with Some x => [x] | None => [] end.

(** The [finally] of an interrupted main reply: the job being played, the queued jobs and,
    for an eager stream, the [generated] sentences not yet replayed. *)
Definition interrupt_remaining (generated : nat) (p : player) : option pystr :=
  let captured := opt_list (current_job p) ++ queued p ++ take generated (upcoming p) in
  match py_strip (concat captured) with
  | [] => None
  | t => Some t
  end.

Record inv (all : list pystr) (p : player) : Prop := {
  inv_order : spoken p ++ opt_list (current_job p) ++ queued p ++ opt_list (blocked p) ++ upcoming p = all;
  inv_room : (length (queue p) <= JOB_QUEUE_SIZE)%nat;
  inv_sentinel : sentinel_put p = true -> blocked p = None /\ upcoming p = [];
  inv_queue : ending p <> Some Finished ->
              exists xs, queue p = map Some xs ++ (if sentinel_put p then [None] else []);
  inv_finished : ending p = Some Finished ->
                 sentinel_put p = true /\ current_job p = None /\ queue p = [] }.

Lemma queued_app p x : omap id (queue p ++ [x]) = queued p ++ opt_list x.
Proof. rewrite omap_app. by destruct x. Qed.

Lemma queued_some xs tl : omap id (map Some xs ++ tl) = xs ++ omap id tl :> list pystr.
Proof.
  rewrite omap_app. f_equal. induction xs as [|x xs IH]; [done|]. exact (f_equal (cons x) IH).
Qed.

Lemma queued_length (q : list (option pystr)) : (length (omap id q) <= length q)%nat.
Proof.
  induction q as [|x q IH]; [done|]. change (x :: q) with ([x] ++ q). rewrite omap_app, !length_app.
  assert (length (omap id [x]) <= 1)%nat by (destruct x; [apply le_n|apply le_S, le_n]).
  change (length [x]) with 1%nat. lia.
Qed.

Lemma player_start_inv all : inv all (start_player all).
Proof. constructor; simpl; try done; [unfold JOB_QUEUE_SIZE; lia|]. intros _. by exists []. Qed.

Lemma player_step_inv all p p' : inv all p -> step p p' -> inv all p'.
Proof.
  intros Hi Hs. destruct Hs as [x rest p He Hb Hu|x p He Hb Hq|p He Hb Hu Hs Hq|x rest p He Hc Hq
    |rest p He Hc Hq|x p He Hc|x p He Hc|x p He Hc]; destruct Hi as [H1 H2 H3 H4 H5].
  all: assert (Hne : ending p <> Some Finished) by (by rewrite He).
  all: destruct (H4 Hne) as (xs & Hxs).
  - constructor; simpl; [by rewrite <-H1, Hb, Hu|done| |done|done].
    intros Hse. destruct (H3 Hse). congruence.
  - assert (Hse : sentinel_put p = false).
    { destruct (sentinel_put p); [|done]. destruct (H3 eq_refl). congruence. }
    constructor; simpl; [| |congruence| |congruence].
    + rewrite <-H1, Hb. unfold queued at 1. simpl. rewrite queued_app. by rewrite <-!app_assoc.
    + rewrite length_app. simpl. lia.
    + intros _. exists (xs ++ [x]). by rewrite Hxs, Hse, !app_nil_r, map_app.
  - constructor; simpl; [| |done| |congruence].
    + rewrite <-H1. unfold queued at 1. simpl. rewrite queued_app. simpl. by rewrite app_nil_r.
    + rewrite length_app. simpl. lia.
    + intros _. exists xs. by rewrite Hxs, Hs, app_nil_r.
  - constructor; simpl; [| |done| |congruence].
    + rewrite <-H1, Hc. unfold queued. simpl. by rewrite Hq.
    + rewrite Hq in H2. simpl in H2. lia.
    + intros _. destruct xs as [|y xs]; simpl in Hxs; rewrite Hq in Hxs.
      * by destruct (sentinel_put p).
      * injection Hxs as -> ->. by exists xs.
  - rewrite Hq in Hxs. destruct xs; [|done]. simpl in Hxs.
    destruct (sentinel_put p) eqn:Hse; [|done]. injection Hxs as ->.
    constructor; simpl; [|lia|by rewrite Hse|done|by rewrite Hse].
    rewrite <-H1. unfold queued. simpl. by rewrite Hq.
  - constructor; simpl; [|done|done|done|congruence]. rewrite <-H1, Hc. by rewrite <-app_assoc.
  - constructor; simpl; [done|done|done|by exists xs|done].
  - constructor; simpl; [done|done|done|by exists xs|done].
Qed.

(** ** Progress *)

Definition work (p : player) : nat :=
  (4 * length (upcoming p) + 3 * length (opt_list (blocked p)) + 2 * length (queue p)
   + (if sentinel_put p then 0 else 3) + length (opt_list (current_job p))
   + (if ending p then 0 else 1))%nat.

Lemma player_work_decreases p p' : step p p' -> (work p' < work p)%nat.
Proof.
  intros Hs. destruct Hs as [x rest p He Hb Hu|x p He Hb Hq|p He Hb Hu Hs Hq|x rest p He Hc Hq
    |rest p He Hc Hq|x p He Hc|x p He Hc|x p He Hc]; unfold work; simpl;
    rewrite ?He, ?length_app; try (rewrite ?Hb, ?Hu, ?Hc, ?Hs, ?Hq; simpl; lia).
Qed.

(** Left alone, the players never wait on each other for ever. *)
Lemma player_progress all p :
  inv all p -> ending p = None ->
  exists p', step p p' /\ (ending p' = None \/ ending p' = Some Finished).
Proof.
  intros [_ _ H3 H4 _] He. destruct (H4 ltac:(by rewrite He)) as (xs & Hxs).
  destruct (current_job p) as [x|] eqn:Hc; [eexists; split; [by eapply step_played|by left]|].
  destruct (queue p) as [|[x|] rest] eqn:Hq.
  - destruct (blocked p) as [x|] eqn:Hb; [eexists; split; [apply (step_put x); try done|by left]|].
    { rewrite Hq. unfold JOB_QUEUE_SIZE. simpl. lia. }
    destruct (upcoming p) as [|x rest] eqn:Hu; [|eexists; split; [by eapply step_make|by left]].
    destruct (sentinel_put p) eqn:Hs; [by destruct xs|].
    eexists; split; [apply step_sentinel; try done|by left].
    rewrite Hq. unfold JOB_QUEUE_SIZE. simpl. lia.
  - eexists; split; [by eapply step_get|by left].
  - eexists; split; [by eapply step_finish|by right].
Qed.

Lemma reaches_finish all p :
  inv all p -> ending p = None -> exists p', rtc step p p' /\ ending p' = Some Finished.
Proof.
  remember (work p) as n eqn:Hn. revert p Hn.
  induction n as [n IH] using lt_wf_ind. intros p -> Hi He.
  destruct (player_progress all p Hi He) as (p1 & Hs & [He1|He1]).
  - destruct (IH (work p1) (player_work_decreases _ _ Hs) p1 eq_refl (player_step_inv _ _ _ Hi Hs) He1)
      as (p' & Hr & Hf). exists p'. split; [by eapply rtc_l|done].
  - exists p1. split; [by apply rtc_once|done].
Qed.

Lemma finished_spoken all p : inv all p -> ending p = Some Finished -> spoken p = all.
Proof.
  intros [H1 _ H3 _ H5] Hf. destruct (H5 Hf) as (Hs & Hc & Hq). destruct (H3 Hs) as [Hb Hu].
  unfold queued in H1. by rewrite Hc, Hq, Hb, Hu, !app_nil_r in H1.
Qed.

(** C5: Streaming playback speaks the reply in order and completely: whatever the
    interleaving of producer and consumer, the sentences spoken, playing, queued, waiting
    for the queue and still to come are together the reply, at most four of them
    synthesized ahead; the playback never deadlocks, and unless it is cut it ends with
    every sentence spoken.  When a barge-in cuts it with the producer not waiting and the
    rest generated, what is captured for the restructure turn is all that was not said. *)
Theorem playback_in_order all p :
  rtc step (start_player all) p ->
  spoken p ++ opt_list (current_job p) ++ queued p ++ opt_list (blocked p) ++ upcoming p = all
  /\ (length (opt_list (current_job p) ++ queued p ++ opt_list (blocked p)) <= 4)%nat
  /\ (ending p = Some Finished -> spoken p = all)
  /\ (ending p = None -> exists p', rtc step p p' /\ ending p' = Some Finished /\ spoken p' = all)
  /\ (ending p = Some BargedIn -> blocked p = None ->
      interrupt_remaining (length (upcoming p)) p
      = match py_strip (concat (drop (length (spoken p)) all)) with [] => None | t => Some t end).
Proof.
  intros Hr. assert (Hinv : forall p1, rtc step p p1 -> inv all p1).
  { intros p1 H1. exact (rtc_invariant _ _ (player_step_inv all) _ _ (transitivity Hr H1) (player_start_inv all)). }
  pose proof (Hinv p (rtc_refl _ _)) as Hi. pose proof Hi as [H1 H2 _ _ _].
  split_and!; [done| |by apply finished_spoken| |].
  - pose proof (queued_length (queue p)) as Hq. fold (queued p) in Hq. unfold JOB_QUEUE_SIZE in H2. rewrite !length_app.
    assert (Ho : forall o : option pystr, (length (opt_list o) <= 1)%nat) by (intros []; simpl; lia).
    pose proof (Ho (current_job p)). pose proof (Ho (blocked p)). lia.
  - intros He. destruct (reaches_finish all p Hi He) as (p' & Hr' & Hf).
    exists p'. split_and!; try done. apply finished_spoken; [by apply Hinv|done].
  - intros _ Hb. unfold interrupt_remaining. rewrite firstn_all.
    replace (drop (length (spoken p)) all)
      with (opt_list (current_job p) ++ queued p ++ upcoming p); [done|].
    rewrite Hb in H1. simpl in H1. by rewrite <-H1, drop_app_length.
Qed.

(** A run that fills the queue while the first sentence plays. *)
Definition four : list pystr := [[65]; [66]; [67]; [68]].

Definition full_player : player :=
  mkPlayer [] (Some [68]) [Some [66]; Some [67]] false (Some [65]) [] None.

Lemma full_player_reached : rtc step (start_player four) full_player.
Proof.
  assert (Hroom : (0 < JOB_QUEUE_SIZE)%nat /\ (1 < JOB_QUEUE_SIZE)%nat)
    by (unfold JOB_QUEUE_SIZE; lia).
  destruct Hroom. unfold four.
  eapply rtc_l; [by apply (step_make [65])|]. eapply rtc_l; [by apply (step_put [65])|].
  eapply rtc_l; [by apply (step_get [65])|].
  eapply rtc_l; [by apply (step_make [66])|]. eapply rtc_l; [by apply (step_put [66])|].
  eapply rtc_l; [by apply (step_make [67])|]. eapply rtc_l; [by apply (step_put [67])|].
  eapply rtc_l; [by apply (step_make [68])|]. apply rtc_refl.
Qed.

(** A barge-in while the producer waits for room loses the sentence it holds: the fourth
    sentence is neither spoken nor captured, although it had been generated. *)
Lemma waiting_sentence_lost :
  exists p, rtc step (start_player four) p /\ ending p = Some BargedIn /\ spoken p = []
    /\ interrupt_remaining (length (upcoming p)) p = Some [65; 66; 67].
Proof.
  exists (full_player <| ending := Some BargedIn |>). split_and!; try done.
  eapply rtc_r; [apply full_player_reached|]. by eapply (step_barge [65]).
Qed.

Lemma playback_in_order_witness :
  exists p', rtc step full_player p' /\ ending p' = Some Finished /\ spoken p' = four.
Proof. apply (playback_in_order four full_player full_player_reached). reflexivity. Defined.
