(* ===== verification/Synth.v ===== *)
(** * Synthesis jobs and their release

    [run_loop.py], [_SynthJob] and the resources of [_play_streaming]: every sentence of a
    reply is synthesised by a task of its own over a vendor connection.  The jobs are the
    sentences [Playback.player] moves around, in the order they were made; this file adds
    their tasks and connections and the clean-up in the [finally] of [_play_streaming], cut
    at its awaits, with the cancellation that can arrive at each of them. *)

From S2P Require Import Prelude Playback.

(** ** One job *)

(** The drain task: created, waiting for the vendor's next chunk, ended by itself, or
    cancelled. *)
Inductive JTask : Type := JSpawned | JDraining | JDone | JCancelled.

(** [buffer]: the internal queue, [None] its sentinel.  [gen_open]: the vendor's iterator
    has been started and has not finished. *)
Record Job := mkJob {
  job_task : JTask; buffer : list (option (list Z)); gen_open : bool; job_error : bool }.

#[export] Instance Job_eta : Eta Job := fun j => mkJob (job_task j) (buffer j) (gen_open j) (job_error j).

Definition new_job : Job := mkJob JSpawned [] false false.

(** What the vendor does next. *)
Inductive vendor_event : Type := Chunk (c : list Z) | Exhausted | VendorError.

(** [_drain], from one await to the next; an ended or failed iterator is finished, and the
    [finally] puts the sentinel. *)
Definition drain_step (e : vendor_event) (j : Job) : Job :=
  match e with
  | Chunk c => j <| buffer ::= fun b => b ++ [Some c] |>
  | Exhausted => j <| buffer ::= fun b => b ++ [None] |> <| gen_open := false |> <| job_task := JDone |>
  | VendorError =>
      j <| buffer ::= fun b => b ++ [None] |> <| gen_open := false |> <| job_task := JDone |>
        <| job_error := true |>
  end.

(** [_task.cancel()] and its await: a task that never ran does nothing; a draining one
    passes the exception through the iterator, which ends it, and puts the sentinel. *)
Definition cancel_drain (j : Job) : Job :=
  match job_task j with
  | JSpawned => j <| job_task := JCancelled |>
  | JDraining => j <| buffer ::= fun b => b ++ [None] |> <| gen_open := false |> <| job_task := JCancelled |>
  | _ => j
  end.

(** [aclose]: cancel the task, then close the iterator. *)
Definition job_aclose (j : Job) : Job := cancel_drain j <| gen_open := false |>.

Definition job_over (j : Job) : Prop :=
  gen_open j = false /\ (job_task j = JDone \/ job_task j = JCancelled).

Record job_ok (j : Job) : Prop := {
  jo_done : job_task j = JDone \/ job_task j = JCancelled -> gen_open j = false;
  jo_sentinel : job_task j = JDone -> exists cs, buffer j = map Some cs ++ [None];
  jo_open : job_task j = JSpawned \/ job_task j = JDraining -> exists cs, buffer j = map Some cs
}.

Lemma job_aclose_over j : job_over (job_aclose j).
Proof. unfold job_over, job_aclose, cancel_drain. destruct (job_task j) eqn:Ht; simpl; rewrite ?Ht; auto. Qed.

Lemma job_aclose_ok j : job_ok j -> job_ok (job_aclose j).
Proof.
  intros [H1 H2 H3]. unfold job_aclose, cancel_drain.
  destruct (job_task j) eqn:Ht; constructor; simpl; rewrite ?Ht; try done; try (by intros []); auto.
Qed.

Lemma drain_step_ok e j : job_ok j -> job_task j = JDraining -> job_ok (drain_step e j).
Proof.
  intros [H1 H2 H3] Ht. destruct (H3 (or_intror Ht)) as [cs Hb].
  destruct e as [c| |]; constructor; simpl; rewrite ?Ht, ?Hb; try done; try (by intros []); try eauto.
  intros _. exists (cs ++ [c]). by rewrite map_app.
Qed.

(** What [stream()] yields of an ended job is what the vendor sent. *)
Lemma job_streams j : job_ok j -> job_task j = JDone -> exists cs, buffer j = drain cs /\ job_stream (buffer j) = cs.
Proof.
  intros [_ H2 _] Ht. destruct (H2 Ht) as [cs Hb]. exists cs. rewrite Hb. split; [done|]. apply job_stream_drain.
Qed.

(** ** A playback with its jobs *)

(** The [finally]: stop the producer, close the sentence stream, the current job, the
    queued jobs; then [Over], returning or raising.  [Over true] is a clean-up that a
    cancellation cut short. *)
Inductive Stage : Type := Playing | StopProducer | CloseSentences | CloseCurrent | CloseQueued | Over (cut : bool).

(** [jobs]: all jobs made, in order: those spoken, the current one, those queued, the one
    the producer holds.  [cancelled]: [_play_streaming] itself was cancelled. *)
Record Play := mkPlay { pl : player; jobs : list Job; stage : Stage; cancelled : bool }.

#[export] Instance Play_eta : Eta Play := fun p => mkPlay (pl p) (jobs p) (stage p) (cancelled p).

Definition start_play (sentences : list pystr) : Play := mkPlay (start_player sentences) [] Playing false.

Definition n_spoken (p : player) : nat := length (spoken p).
Definition n_current (p : player) : nat := length (opt_list (current_job p)).
Definition n_queued (p : player) : nat := length (queued p).
Definition n_blocked (p : player) : nat := length (opt_list (blocked p)).

(** Apply [job_aclose] to [n] jobs from the [i]-th on. *)
Fixpoint close_jobs (i n : nat) (js : list Job) : list Job :=
  match js with
  | [] => []
  | j :: js' =>
      match i, n with
      | S i', _ => j :: close_jobs i' n js'
      | O, S n' => job_aclose j :: close_jobs O n' js'
      | O, O => js
      end
  end.

(** How many jobs a step of the players adds. *)
Definition jobs_after (p p' : player) (js : list Job) : list Job :=
  if (n_spoken p + n_current p + n_queued p + n_blocked p
      <? n_spoken p' + n_current p' + n_queued p' + n_blocked p')%nat then js ++ [new_job] else js.

Inductive pstep : Play -> Play -> Prop :=
(* producer and consumer; a sentence counts as played when its job's stream ended *)
| ps_player p' p :
    stage p = Playing -> step (pl p) p' ->
    (n_spoken (pl p) < n_spoken p' -> exists j, jobs p !! n_spoken (pl p) = Some j /\ job_task j = JDone)%nat ->
    pstep p (p <| pl := p' |> <| jobs ::= jobs_after (pl p) p' |>)
(* a job's task *)
| ps_spawn i j p :
    jobs p !! i = Some j -> job_task j = JSpawned ->
    pstep p (p <| jobs ::= <[i := j <| job_task := JDraining |> <| gen_open := true |>]> |>)
| ps_drain e i j p :
    jobs p !! i = Some j -> job_task j = JDraining -> pstep p (p <| jobs ::= <[i := drain_step e j]> |>)
(* leaving the loop: it ended, or the task was cancelled at one of its awaits *)
| ps_ended p : stage p = Playing -> is_Some (ending (pl p)) -> pstep p (p <| stage := StopProducer |>)
| ps_cancel p : stage p = Playing -> ending (pl p) = None ->
    pstep p (p <| stage := StopProducer |> <| cancelled := true |>)
(* while the filler's task is awaited the producer still runs *)
| ps_late_make x rest p :
    stage p = StopProducer -> blocked (pl p) = None -> upcoming (pl p) = x :: rest ->
    pstep p (p <| pl := pl p <| blocked := Some x |> <| upcoming := rest |> |>
               <| jobs ::= fun l => l ++ [new_job] |>)
| ps_late_put x p :
    stage p = StopProducer -> blocked (pl p) = Some x -> (length (queue (pl p)) < JOB_QUEUE_SIZE)%nat ->
    pstep p (p <| pl := pl p <| blocked := None |> <| queue ::= fun q => q ++ [Some x] |> |>)
(* the clean-up; the producer closes the job it holds *)
| ps_producer p : stage p = StopProducer ->
    pstep p (p <| stage := CloseSentences |>
               <| jobs ::= close_jobs (n_spoken (pl p) + n_current (pl p) + n_queued (pl p)) (n_blocked (pl p)) |>)
| ps_sentences p : stage p = CloseSentences -> pstep p (p <| stage := CloseCurrent |>)
| ps_current p : stage p = CloseCurrent ->
    pstep p (p <| stage := CloseQueued |> <| jobs ::= close_jobs (n_spoken (pl p)) (n_current (pl p)) |>)
| ps_queued p : stage p = CloseQueued ->
    pstep p (p <| stage := Over false |>
               <| jobs ::= close_jobs (n_spoken (pl p) + n_current (pl p)) (n_queued (pl p)) |>)
(* a cancellation during the clean-up: suppressed around the producer's await, raised at
   the others *)
| ps_suppressed p : stage p = StopProducer -> pstep p (p <| cancelled := true |>)
| ps_cut p : stage p = CloseSentences \/ stage p = CloseCurrent \/ stage p = CloseQueued ->
    pstep p (p <| stage := Over true |> <| cancelled := true |>).

(** ** Invariant *)

Definition total (p : player) : nat := (n_spoken p + n_current p + n_queued p + n_blocked p)%nat.

Definition over_range (i n : nat) (js : list Job) : Prop :=
  forall k j, (i <= k < i + n)%nat -> js !! k = Some j -> job_over j.

Definition stage_rank (st : Stage) : nat :=
  match st with Playing => 0 | StopProducer => 1 | CloseSentences => 2 | CloseCurrent => 3
              | CloseQueued => 4 | Over false => 5 | Over true => 2 end.

Record play_inv (p : Play) : Prop := {
  pi_jobs : Forall job_ok (jobs p);
  pi_total : length (jobs p) = total (pl p);
  pi_spoken : over_range 0 (n_spoken (pl p)) (jobs p);
  pi_blocked : (2 <= stage_rank (stage p))%nat ->
    over_range (n_spoken (pl p) + n_current (pl p) + n_queued (pl p)) (n_blocked (pl p)) (jobs p);
  pi_current : (4 <= stage_rank (stage p))%nat ->
    over_range (n_spoken (pl p)) (n_current (pl p)) (jobs p);
  pi_queued : (5 <= stage_rank (stage p))%nat ->
    over_range (n_spoken (pl p) + n_current (pl p)) (n_queued (pl p)) (jobs p)
}.

Lemma close_jobs_lookup i n js k :
  close_jobs i n js !! k
  = if decide (i <= k < i + n)%nat then job_aclose <$> js !! k else js !! k.
Proof.
  revert i n k. induction js as [|j js IH]; intros i n k; cbn [close_jobs].
  { by destruct (decide _); rewrite ?lookup_nil. }
  destruct i as [|i]; [destruct n as [|n]; [by rewrite decide_False by lia|]|];
    (destruct k as [|k]; [by rewrite ?decide_True, ?decide_False by lia|]);
    change ((?x :: ?l) !! S k) with (l !! k); rewrite IH; do 2 destruct (decide _); done || lia.
Qed.

Lemma close_jobs_length i n js : length (close_jobs i n js) = length js.
Proof.
  revert i n. induction js as [|j js IH]; intros [|i] n; simpl; auto; try (by rewrite IH).
  destruct n; simpl; auto.
Qed.

Lemma close_jobs_ok i n js : Forall job_ok js -> Forall job_ok (close_jobs i n js).
Proof.
  intros H. apply Forall_lookup. intros k j. rewrite close_jobs_lookup.
  destruct (decide _); [|by apply Forall_lookup_1].
  destruct (js !! k) as [j0|] eqn:Hk; [|done]. intros [= <-].
  apply job_aclose_ok. by eapply Forall_lookup_1.
Qed.

(** The jobs just closed are over, and those that were stay so. *)
Lemma close_range i n js : over_range i n (close_jobs i n js).
Proof.
  intros k j Hk. rewrite close_jobs_lookup, decide_True by done.
  destruct (js !! k); [|done]. intros [= <-]. apply job_aclose_over.
Qed.

Lemma close_keeps i n a b js : over_range a b js -> over_range a b (close_jobs i n js).
Proof.
  intros H k j Hk. rewrite close_jobs_lookup. destruct (decide _); [|by apply H].
  destruct (js !! k); [|done]. intros [= <-]. apply job_aclose_over.
Qed.

Lemma insert_keeps a b i j j' js :
  js !! i = Some j -> ~ job_over j -> over_range a b js -> over_range a b (<[i := j']> js).
Proof.
  intros Hi Hn H k x Hk Hx. destruct (decide (k = i)) as [->|Hne].
  - destruct Hn. by apply (H i).
  - rewrite list_lookup_insert_ne in Hx by done. by apply (H k).
Qed.

(** A running job's own step. *)
Lemma job_step_inv i j j' p :
  play_inv p -> jobs p !! i = Some j -> ~ job_over j -> job_ok j' ->
  play_inv (p <| jobs ::= <[i := j']> |>).
Proof.
  intros [H1 H2 H3 H4 H5 H6] Hi Hn Hok.
  constructor; simpl; intros; eauto using insert_keeps.
  - apply Forall_insert; done.
  - by rewrite length_insert.
Qed.

Lemma running_not_over j : job_task j = JSpawned \/ job_task j = JDraining -> ~ job_over j.
Proof. intros H [_ H']. intuition congruence. Qed.

Lemma over_range_app a b js k :
  (a + b <= length js)%nat -> over_range a b js -> over_range a b (js ++ k).
Proof. intros Hl H i j Hi. rewrite lookup_app_l by lia. by apply H. Qed.

(** What a step of the players does to the sentences' places. *)
Lemma player_counts p p' :
  step p p' ->
  (n_spoken p' = n_spoken p /\ (total p' = total p \/ total p' = S (total p)))
  \/ (n_spoken p' = S (n_spoken p) /\ total p' = total p).
Proof.
  unfold total, n_spoken, n_current, n_queued, n_blocked, queued. intros Hs.
  destruct Hs as [x rest p He Hb Hu|x p He Hb Hq|p He Hb Hu Hs Hq|x rest p He Hc Hq
    |rest p He Hc Hq|x p He Hc|x p He Hc|x p He Hc]; simpl; rewrite ?Hb, ?Hu, ?Hc, ?Hq.
  - left. split; [done|]. right. simpl. lia.
  - left. split; [done|]. left. rewrite queued_app, length_app. unfold queued. simpl. lia.
  - left. split; [done|]. left. rewrite queued_app, length_app. unfold queued. simpl. lia.
  - left. split; [done|]. left. change (omap id (Some x :: rest)) with (x :: omap id rest). simpl. lia.
  - left. split; [done|]. left. done.
  - right. rewrite length_app. simpl. lia.
  - left. split; [done|]. by left.
  - left. split; [done|]. by left.
Qed.

Lemma new_job_ok : job_ok new_job.
Proof. constructor; simpl; try done. intros _. by exists []. Qed.

Lemma player_step_play p p' :
  play_inv p -> stage p = Playing -> step (pl p) p' ->
  (n_spoken (pl p) < n_spoken p' -> exists j, jobs p !! n_spoken (pl p) = Some j /\ job_task j = JDone)%nat ->
  play_inv (p <| pl := p' |> <| jobs ::= jobs_after (pl p) p' |>).
Proof.
  intros [H1 H2 H3 H4 H5 H6] Hst Hs Hj.
  assert (Hsp : over_range 0 (n_spoken p') (jobs p)).
  { destruct (player_counts _ _ Hs) as [[-> _]|[Hn _]]; [done|]. rewrite Hn in *.
    destruct Hj as (j & Hjl & Ht); [lia|]. intros k x Hk Hx.
    destruct (decide (k = n_spoken (pl p))) as [->|Hne]; [|apply (H3 k); [lia|done]].
    rewrite Hjl in Hx. injection Hx as <-. split; [|by left].
    eapply (jo_done j); [by eapply Forall_lookup_1|by left]. }
  assert (Hlen : (n_spoken p' <= length (jobs p))%nat).
  { rewrite H2. destruct (player_counts _ _ Hs) as [[-> _]|[Hn Ht]]; unfold total in *; lia. }
  unfold jobs_after. fold (total (pl p)) (total p').
  destruct (total (pl p) <? total p')%nat eqn:Hb.
  - apply Nat.ltb_lt in Hb.
    constructor; simpl; rewrite ?Hst; try (simpl; lia).
    + apply Forall_app. split; [done|]. constructor; [apply new_job_ok|done].
    + rewrite length_app, H2. simpl. destruct (player_counts _ _ Hs) as [[_ []]|[]]; lia.
    + by apply over_range_app.
  - apply Nat.ltb_ge in Hb. constructor; simpl; rewrite ?Hst; try (simpl; lia); try done.
    rewrite H2. destruct (player_counts _ _ Hs) as [[_ []]|[]]; lia.
Qed.

Lemma late_make_inv x rest p :
  play_inv p -> stage p = StopProducer -> blocked (pl p) = None ->
  play_inv (p <| pl := pl p <| blocked := Some x |> <| upcoming := rest |> |>
              <| jobs ::= fun l => l ++ [new_job] |>).
Proof.
  intros [H1 H2 H3 H4 H5 H6] Hst Hb. constructor; simpl; rewrite ?Hst; try (simpl; lia).
  - apply Forall_app. split; [done|]. constructor; [apply new_job_ok|done].
  - rewrite length_app, H2. unfold total, n_blocked, n_spoken, n_current, n_queued, queued.
    rewrite Hb. simpl. lia.
  - apply over_range_app; [|done]. rewrite H2. unfold total, n_spoken. simpl. lia.
Qed.

Lemma late_put_inv x p :
  play_inv p -> stage p = StopProducer -> blocked (pl p) = Some x ->
  play_inv (p <| pl := pl p <| blocked := None |> <| queue ::= fun q => q ++ [Some x] |> |>).
Proof.
  intros [H1 H2 H3 H4 H5 H6] Hst Hb. constructor; simpl; rewrite ?Hst; try (simpl; lia); try done.
  rewrite H2. unfold total, n_blocked, n_spoken, n_current, n_queued, queued. simpl.
  rewrite Hb, queued_app, length_app. unfold queued. simpl. lia.
Qed.

(** A stage of the clean-up that closes the jobs of one place. *)
Lemma close_stage_inv i n st p :
  play_inv p ->
  ((2 <= stage_rank st)%nat -> (2 <= stage_rank (stage p))%nat
     \/ i = (n_spoken (pl p) + n_current (pl p) + n_queued (pl p))%nat /\ n = n_blocked (pl p)) ->
  ((4 <= stage_rank st)%nat -> (4 <= stage_rank (stage p))%nat
     \/ i = n_spoken (pl p) /\ n = n_current (pl p)) ->
  ((5 <= stage_rank st)%nat -> (5 <= stage_rank (stage p))%nat
     \/ i = (n_spoken (pl p) + n_current (pl p))%nat /\ n = n_queued (pl p)) ->
  play_inv (p <| stage := st |> <| jobs ::= close_jobs i n |>).
Proof.
  intros [H1 H2 H3 H4 H5 H6] Hb Hc Hq. constructor; simpl.
  - by apply close_jobs_ok.
  - by rewrite close_jobs_length.
  - by apply close_keeps.
  - intros Hr. destruct (Hb Hr) as [?|[-> ->]]; [apply close_keeps; auto|apply close_range].
  - intros Hr. destruct (Hc Hr) as [?|[-> ->]]; [apply close_keeps; auto|apply close_range].
  - intros Hr. destruct (Hq Hr) as [?|[-> ->]]; [apply close_keeps; auto|apply close_range].
Qed.

Lemma play_step_inv p p' : play_inv p -> pstep p p' -> play_inv p'.
Proof.
  intros Hi Hs. destruct Hs as [p' p Hst Hs Hj|i j p Hj Ht|e i j p Hj Ht|p Hst He|p Hst He
    |x rest p Hst Hb Hu|x p Hst Hb Hq|p Hst|p Hst|p Hst|p Hst|p Hst|p Hst].
  - by apply player_step_play.
  - eapply job_step_inv; [done|done|apply running_not_over; auto|].
    destruct (Forall_lookup_1 _ _ _ _ (pi_jobs p Hi) Hj) as [_ _ H3].
    constructor; simpl; [by intros []|done|]. intros _. apply H3. auto.
  - eapply job_step_inv; [done|done|apply running_not_over; auto|].
    apply drain_step_ok; [|done]. eapply Forall_lookup_1; [apply (pi_jobs p Hi)|done].
  - destruct Hi. constructor; simpl; try done; lia.
  - destruct Hi. constructor; simpl; try done; lia.
  - by apply late_make_inv.
  - by apply late_put_inv.
  - apply close_stage_inv; [done|auto|simpl; lia|simpl; lia].
  - destruct Hi as [H1 H2 H3 H4 H5 H6]. rewrite Hst in *. constructor; simpl in *; try done; try lia.
    intros _. apply H4. lia.
  - apply close_stage_inv; [done| |auto|simpl; lia]. rewrite Hst. simpl. lia.
  - apply close_stage_inv; [done| | |auto]; rewrite Hst; simpl; lia.
  - destruct Hi. by constructor.
  - destruct Hi as [H1 H2 H3 H4 H5 H6]. constructor; simpl; try done; try lia. intros _. apply H4.
    destruct Hst as [Hst|[Hst|Hst]]; rewrite Hst; simpl; lia.
Qed.

(** C20: No synthesis outlives its playback: when [_play_streaming] is over - the reply was
    spoken to its end, cut by the customer, failed, or its task was cancelled - and its
    clean-up was not itself cut by a cancellation, every job made for it has ended and its
    vendor connection is closed, whether the job was spoken, playing, queued, held by the
    producer or made during the clean-up. *)
Theorem jobs_released sentences p :
  rtc pstep (start_play sentences) p -> stage p = Over false -> Forall job_over (jobs p).
Proof.
  intros Hr Hst. assert (Hi : play_inv p).
  { eapply rtc_invariant; [apply play_step_inv|exact Hr|].
    constructor; simpl; try done; try lia; intros k j _ Hj; by rewrite lookup_nil in Hj. }
  destruct Hi as [H1 H2 H3 H4 H5 H6]. rewrite Hst in *. simpl in *.
  apply Forall_lookup. intros k j Hk. apply lookup_lt_Some in Hk as Hl. rewrite H2 in Hl.
  unfold total in Hl. set (s := n_spoken (pl p)) in *. set (c := n_current (pl p)) in *.
  set (q := n_queued (pl p)) in *. set (b := n_blocked (pl p)) in *.
  destruct (decide (k < s)%nat); [by apply (H3 k); [lia|]|].
  destruct (decide (k < s + c)%nat); [by apply (H5 ltac:(lia) k); [lia|]|].
  destruct (decide (k < s + c + q)%nat); [by apply (H6 ltac:(lia) k); [lia|]|].
  by apply (H4 ltac:(lia) k); [lia|].
Qed.

(** ** Runs *)

(** The first of two sentences is being spoken, the second is synthesised ahead. *)
Definition demo_play : Play :=
  mkPlay (mkPlayer [] None [Some [66]] false (Some [65]) [] None)
    [mkJob JDraining [] true false; mkJob JDraining [] true false] Playing false.

Lemma demo_play_reached : rtc pstep (start_play [[65]; [66]]) demo_play.
Proof.
  assert (Hroom : (0 < JOB_QUEUE_SIZE)%nat) by (unfold JOB_QUEUE_SIZE; lia).
  eapply rtc_l; [eapply ps_player; [done|by apply (step_make [65])|unfold n_spoken; simpl; intros; lia]|].
  eapply rtc_l; [eapply ps_player; [done|by apply (step_put [65])|unfold n_spoken; simpl; intros; lia]|].
  eapply rtc_l; [eapply ps_player; [done|by apply (step_get [65])|unfold n_spoken; simpl; intros; lia]|].
  eapply rtc_l; [eapply ps_player; [done|by apply (step_make [66])|unfold n_spoken; simpl; intros; lia]|].
  eapply rtc_l; [eapply ps_player; [done|by apply (step_put [66])|unfold n_spoken; simpl; intros; lia]|].
  eapply rtc_l; [by apply (ps_spawn 0 new_job)|].
  apply rtc_once. by apply (ps_spawn 1 new_job).
Qed.

Definition demo_cut : Play := demo_play <| pl ::= fun p => p <| ending := Some BargedIn |> |>.

Lemma demo_cut_reached : rtc pstep (start_play [[65]; [66]]) demo_cut.
Proof.
  eapply rtc_r; [apply demo_play_reached|].
  apply (ps_player (pl demo_cut) demo_play); [done|by apply (step_barge [65])|unfold n_spoken; simpl; intros; lia].
Qed.

Lemma jobs_released_witness :
  exists p, rtc pstep (start_play [[65]; [66]]) p /\ length (jobs p) = 2%nat /\ Forall job_over (jobs p).
Proof.
  assert (Hr : exists p, rtc pstep demo_cut p /\ length (jobs p) = 2%nat /\ stage p = Over false).
  { eexists. split_and!.
    - eapply rtc_l; [apply ps_ended; [done|by eexists]|]. eapply rtc_l; [by apply ps_producer|].
      eapply rtc_l; [by apply ps_sentences|]. eapply rtc_l; [by apply ps_current|].
      apply rtc_once. by apply ps_queued.
    - reflexivity.
    - reflexivity. }
  destruct Hr as (p & Hr & Hn & Hs). exists p.
  assert (Hrr : rtc pstep (start_play [[65]; [66]]) p) by (etrans; [apply demo_cut_reached|done]).
  split_and!; [done|done|]. by apply (jobs_released [[65]; [66]] p Hrr).
Defined.

(** A cancellation that arrives while the clean-up closes the sentence stream leaves the
    jobs running. *)
Lemma cut_cleanup_leaks_jobs :
  exists p, rtc pstep (start_play [[65]; [66]]) p /\ stage p = Over true
    /\ Forall (fun j => gen_open j = true) (jobs p) /\ jobs p <> [].
Proof.
  eexists. split_and!.
  - etrans; [apply demo_cut_reached|].
    eapply rtc_l; [apply ps_ended; [done|by eexists]|]. eapply rtc_l; [by apply ps_producer|].
    apply rtc_once. apply ps_cut. auto.
  - reflexivity.
  - simpl. by repeat constructor.
  - done.
Qed.

(** A cancellation that arrives while the producer is awaited is suppressed with the
    producer's own: the playback returns as if nothing had been asked. *)
Lemma cancel_suppressed :
  exists p, rtc pstep (start_play [[65]; [66]]) p /\ stage p = Over false /\ cancelled p = true
    /\ ending (pl p) = Some BargedIn.
Proof.
  eexists. split_and!.
  - etrans; [apply demo_cut_reached|].
    eapply rtc_l; [apply ps_ended; [done|by eexists]|]. eapply rtc_l; [by apply ps_suppressed|].
    eapply rtc_l; [by apply ps_producer|]. eapply rtc_l; [by apply ps_sentences|].
    eapply rtc_l; [by apply ps_current|]. apply rtc_once. by apply ps_queued.
  - reflexivity.
  - reflexivity.
  - reflexivity.
Qed.
