(* ===== verification/RunLoop.v ===== *)
(** * The call loop

    [run_loop.py]: one call from its first listening window to its end.  The
    barge-in monitor, the playback helpers, the pre-reply gate with its route
    selection, the gated turn, the wrap-up turn, the listening window and the
    loop that composes them.

    The loop is a state and error monad over the session and a log of what the
    call did to the outside.  What the outside decides is an explicit input of
    each step: which partial transcripts arrive during a playback or the gate,
    what the referees and the transfer detector answer and when, how far a reply
    got.  The clock is read once per step, in microseconds.  The transcript validator
    runs in production's lenient mode.

    The call runs as a task, which an operator's command or the shutdown may cancel
    wherever it waits: the state carries what is to hit each wait, in the order of the
    waits, and every wait consumes its entry. *)

From stdpp Require Import pretty.
From S2P Require Import Prelude Bytes Session Referee Interruption Managers Orchestrator.
Import Detector.

(** ** State and effects *)

(** What a call does outside its session. *)
Inductive Effect : Type :=
| ESay (text : pystr)                        (* a phrase synthesized and played *)
| EReply (route : pystr) (text : pystr)      (* a streamed reply released to playback *)
| ECancel (route : pystr)                    (* an eager candidate cancelled *)
| EHangup                                    (* telephony.hangup *)
| EAsrFinal (text : pystr)                   (* ASRFinal published *)
| EStatus (reason : string).                 (* StatusChanged published *)

(** Who cancels the main task: the operator's hangup or transfer, which records its cause
    first, or the shutdown.  A late cancellation comes when what the task awaits is done. *)
Inductive Cancel : Type := ByOperator | ByShutdown.

Record RL := mkRL {
  sess : CallSession; short_reply_active : bool; log : list Effect;
  cancels : list (option (Cancel * bool)) }.    (* per wait: nothing, or who and whether late *)

#[export] Instance RL_eta : Eta RL := fun r => mkRL (sess r) (short_reply_active r) (log r) (cancels r).

Definition M (A : Type) : Type := RL -> result PyErr A * RL.

#[export] Instance M_ret : MRet M := fun A x r => (Ok x, r).
#[export] Instance M_bind : MBind M := fun A B f m r =>
  match m r with
  | (Ok x, r') => f x r'
  | (Err e, r') => (Err e, r')
  end.

Definition raise {A} (e : PyErr) : M A := fun r => (Err e, r).
Definition lift {A} (x : result PyErr A) : M A := fun r => (x, r).

(** [try]: the exception as a value; what was done before it stays done. *)
Definition attempt {A} (m : M A) : M (result PyErr A) := fun r => let '(o, r') := m r in (Ok o, r').
Definition get_session : M CallSession := fun r => (Ok (sess r), r).
Definition modify (f : CallSession -> CallSession) : M unit := fun r => (Ok tt, r <| sess ::= f |>).
Definition emit (e : Effect) : M unit := fun r => (Ok tt, r <| log ::= fun l => l ++ [e] |>).
Definition set_short_reply (b : bool) : M unit := fun r => (Ok tt, r <| short_reply_active := b |>).

Definition when (b : bool) (m : M unit) : M unit := if b then m else mret tt.

(** What hits the next wait; after the last entry nothing does.  [_terminate] records the
    cause before it cancels. *)
Definition next_cancel : M (option (Cancel * bool)) := fun r =>
  match cancels r with
  | [] => (Ok None, r)
  | c :: cs =>
      (Ok c, r <| cancels := cs |>
               <| sess ::= fun s => match c with
                                    | Some (ByOperator, _) =>
                                        s <| hangup_cause := Some "manual_hangup"%string |>
                                    | _ => s
                                    end |>)
  end.

(** A wait the cancellation of which propagates. *)
Definition awaits : M unit :=
  hit ← next_cancel;
  match hit with Some _ => raise Cancelled | None => mret tt end.

(** A wait under [contextlib.suppress(asyncio.CancelledError)]. *)
Definition awaits_quietly : M unit := _ ← next_cancel; mret tt.

(** [try ... finally]: what the clean-up raises replaces the outcome. *)
Definition finally_ {A} (m : M A) (cleanup : M unit) : M A :=
  o ← attempt m;
  cleanup;;
  lift o.

Inductive Directive : Type := CONTINUE | RETURN.

(** ** Configuration *)

Record RuntimeConfig := mkRuntime {
  rc_pipeline : PipelineConfig;
  rc_filler_phrases : list pystr;
  rc_transfer : Transfer.TransferConfig;
  rc_wrap_up : WrapUp.WrapUpConfig;
  rc_interruption : InterruptionConfig;
  rc_silence : Silence.SilenceConfig;
  rc_fixed_greeting : option pystr;
  rc_filler_enabled : bool;
  rc_max_continuous_interruptions : Z;
  rc_continuous_interruption_strategy : pystr;
  rc_voice_id : pystr;
  rc_asr_partial_stable_s : Q;
  rc_filler_delay_ms : Z;
  rc_ambient_audio : option pystr;
  rc_ambient_gain : Q;
  rc_barge_in_fadeout_ms : Z }.

(** ** Inputs of a step *)

(** A playback: the partial transcripts that arrive while it runs, when it is over, and
    whether the synthesis or [audio_out] raises in it. *)
Record Play := mkPlay { pl_partials : list (Z * pystr); pl_end : Z; pl_error : bool }.

(** How one referee task answers the gate. *)
Inductive Gate : Type := GAnswer | GTimeout | GError.

(** How the playback of a streamed reply goes: one playback per sentence.  When a partial
    cuts one or an error stops it, [ry_cut] is the result as far as it was generated,
    [ry_remaining] what [interrupt_remaining] captured and [ry_error] the exception's text;
    [ry_filler] is a filler that began before the first audio. *)
Record Reply := mkReply {
  ry_plays : list Play; ry_first_audio : option Z; ry_cut : MainStreamResult;
  ry_remaining : option pystr; ry_error : pystr;
  ry_filler : option (nat * Filler.Played) }.

Record TurnEnv := mkTurnEnv {
  te_now : Z; te_wall : Z; te_rnd : nat;
  te_gate : list Gate; te_gate_partials : list (Z * pystr);
  te_transfer : option Transfer.TransferDecision;   (* the parallel detector's answer *)
  te_play : Play;                                   (* a phrase played by the turn *)
  te_reply : Reply;                                 (* the released reply *)
  te_partial : MainStreamResult;                    (* the main stream when the gate resolved *)
  te_wrap_gate : Gate }.                            (* how the wrap-up referee answers *)

Section Loop.
  Context (valid_event : event -> bool) (other_str : pyval -> pystr)
    (readable : Z -> bool) (re_search : pystr -> pystr -> bool)
    (registry : option (option pystr -> option pystr -> LLM)) (llm : LLM)
    (referee_clock : pystr -> Z * Z)
    (default_temperature default_top_p : pyval).     (* the shared package's slot defaults *)

(** ** Recording *)

Definition append (now : Z) (etype : string) (fields : event) : M unit := fun r =>
  match append_event valid_event false other_str now etype fields (sess r) with
  | Ok s => (Ok tt, r <| sess := s |>)
  | Err _ => (Err ValueError, r)
  end.

Definition goto_for (now : Z) (new : CallState) (reason : pystr) : M unit := fun r =>
  match transition_to valid_event false other_str now new (Some reason) (sess r) with
  | Ok s => (Ok tt, r <| sess := s |>)
  | Err _ => (Err ValueError, r)
  end.

Definition goto (now : Z) (new : CallState) (reason : string) : M unit := goto_for now new (u8 reason).

Definition VS (s : string) : pyval := VStr (u8 s).

Definition hangup_event (now : Z) (reason : string) (by_ : string) : M unit :=
  append now "hangup" [("reason"%string, VS reason); ("initiated_by"%string, VS by_)].

(** ** The barge-in monitor *)

(** One partial transcript.  The flag tells whether it cancelled a playback. *)
Definition partial_monitor (cfg : InterruptionConfig) (now : Z) (raw : pystr) : M bool :=
  s ← get_session;
  if (negb (in_processing_turn s) && negb (speaking s)) || interruption_signaled s then mret false
  else
    let text := py_strip raw in
    if decide (text = []) then mret false
    else
      let now_ms := Z.quot now 1000 in
      let started := default now_ms (current_user_speech_started_ms s) in
      modify (fun s => s <| current_user_speech_started_ms := Some started |>);;
      match iv_verdict (evaluate_partial re_search text started now_ms cfg) with
      | Ignored => mret false
      | Triggered =>
          modify (fun s => s <| interruption_signaled := true |>);;
          append now "interruption"
            [("interrupted_event_id"%string, VInt (current_turn_id s));
             ("user_text_at_interruption"%string, VStr text)];;
          mret (speaking s)
      end.

(** The partials of a period, in order; the flag tells whether one cut the playback. *)
Fixpoint monitor (cfg : InterruptionConfig) (partials : list (Z * pystr)) : M bool :=
  match partials with
  | [] => mret false
  | (now, raw) :: rest =>
      cut ← partial_monitor cfg now raw;
      more ← monitor cfg rest;
      mret (cut || more)
  end.

(** ** Playback *)

(** The playback is a task of its own, which the call awaits: a partial cancels it, and so
    does, through the wait, whoever cancels the call while it plays.  [play_task.cancelled()]
    does not tell the two apart. *)
Definition play_chunks (cfg : InterruptionConfig) (interruptible : bool) (p : Play) : M bool :=
  when interruptible (modify (fun s => s <| speaking := true |>));;
  cut ← monitor cfg (pl_partials p);
  hit ← next_cancel;
  when interruptible (modify (fun s => s <| speaking := false |>));;
  let stopped := cut || match hit with Some (_, late) => negb late | None => false end in
  if stopped then
    modify (fun s => s <| last_tts_end_at := Some (pl_end p) |>);;
    mret false
  else
    match hit with
    | Some _ => raise Cancelled
    | None =>
        if pl_error p then raise OtherError
        else
          modify (fun s => s <| last_tts_end_at := Some (pl_end p) |>);;
          mret true
    end.

Definition play_tts (cfg : InterruptionConfig) (interruptible : bool) (text : pystr) (p : Play)
  : M bool :=
  emit (ESay text);; play_chunks cfg interruptible p.

(** ** Traces *)

Definition opt_int (o : option Z) : pyval := match o with Some n => VInt n | None => VNone end.
Definition opt_str (o : option pystr) : pyval := match o with Some t => VStr t | None => VNone end.

Definition base_trace (turn_id : Z) (res : MainStreamResult) (ts_start ts_end : Z)
  (user_text : pystr) (first_audio_ms : option Z) : event :=
  [("turn_id", VInt turn_id); ("ts_start", VInt ts_start); ("ts_end", VInt ts_end);
   ("user_input", VStr user_text); ("main_reply_text", VStr (mr_reply_text res));
   ("main_duration_ms", VInt (mr_duration_ms res));
   ("main_first_token_ms", opt_int (mr_first_token_ms res));
   ("main_first_sentence_ms", opt_int (mr_first_sentence_ms res));
   ("main_tokens_in", VInt (mr_tokens_in res)); ("main_tokens_out", VInt (mr_tokens_out res));
   ("main_fallback_used", VBool (mr_fallback_used res)); ("referee_results", VList []);
   ("matched_rule", VNone); ("restructure_active", VBool false); ("restructure_trigger", VNone);
   ("restructure_source_text", VNone); ("first_audio_ms", opt_int first_audio_ms);
   ("error", opt_str (mr_error res))]%string.

Definition referee_traces (results : list RefereeResult) : pyval :=
  VList (map (fun r => VDict (as_trace r)) results).

(** ** Route selection *)

Definition R_MAIN : pystr := u8 "main".
Definition R_CLOSING : pystr := u8 "closing".
Definition R_RECOVERY : pystr := u8 "recovery".
Definition R_RESTRUCTURE : pystr := u8 "restructure".
Definition persona_route (label : pystr) : pystr := u8 "persona:" ++ label.
Definition tool_route (alias : pystr) : pystr := u8 "tool:" ++ alias.

Inductive ToolType : Type := THangup | TTransfer.

(** [_GatedSelection]: a dialogue route, or a tool with its configuration. *)
Record GatedSelection := mkSel {
  gs_route_id : pystr;
  gs_tool : option ToolType;                 (* [None] is the kind "dialogue" *)
  gs_then_state : pyval;
  gs_goal_type : pyval;
  gs_source : pyval;
  gs_restructure_trigger : pyval;
  gs_tool_config : list (string * pyval);
  gs_closing_phrase : pyval }.

Definition dialogue (route : pystr) (then_state : pyval) : GatedSelection :=
  mkSel route None then_state (VStr []) VNone VNone [] VNone.

(** [tools.get(alias)]: an unhashable alias raises. *)
Definition tool_get (alias : pyval) (tools : list (string * pyval)) : result PyErr (option pyval) :=
  match alias with
  | VStr a => Ok (snd <$> List.find (fun kv => bool_decide (u8 kv.1 = a)) tools)
  | VList _ | VDict _ => Err TypeError
  | _ => Ok None
  end.

Definition tool_type (tc : option pyval) : option (ToolType * list (string * pyval)) :=
  match tc with
  | Some (VDict d) =>
      if val_is (dgetv "type" d) "hangup" then Some (THangup, d)
      else if val_is (dgetv "type" d) "transfer" then Some (TTransfer, d)
      else None
  | _ => None
  end.

Definition select_gated_route (action : DeciderAction) (c : PipelineConfig)
  : result PyErr GatedSelection :=
  let fail_open := dialogue (str_or (Some (pc_referee_fail_open_route c)) R_MAIN) VNone in
  match da_kind action with
  | KTransition =>
      if val_is (da_to action) "goal_achieved" then
        Ok (mkSel R_CLOSING None (VS "WRAPPING_UP") (val_or (da_goal_type action) (VStr []))
              VNone VNone [] VNone)
      else if val_is (da_to action) "transfer" then
        Ok (mkSel (tool_route (u8 "transfer")) (Some TTransfer) (VS "TRANSFERRING") (VStr [])
              VNone VNone [] VNone)
      else if val_is (da_to action) "customer_decline" then
        Ok (dialogue R_RECOVERY (VS "ACTIVATING"))
      else Ok fail_open
  | KRestructure =>
      Ok (mkSel R_RESTRUCTURE None (VS "LISTENING") (VStr []) (da_source action)
            (da_restructure_trigger action) [] VNone)
  | KRoute =>
      match val_or (da_to action) (VStr []) with
      | VList _ | VDict _ => Err TypeError                       (* unhashable *)
      | to =>
          if val_is to "closing" then
            Ok (mkSel R_CLOSING None (val_or (da_then_state action) (VS "WRAPPING_UP"))
                  (val_or (da_goal_type action) (VStr [])) VNone VNone [] VNone)
          else if val_is to "recovery" then
            Ok (mkSel R_RECOVERY None (val_or (da_then_state action) (VS "ACTIVATING"))
                  (val_or (da_goal_type action) (VStr [])) VNone VNone [] VNone)
          else
            match to with
            | VStr label =>
                if bool_decide (label ∈ map ps_label (pc_personas c))
                then Ok (dialogue (persona_route label) (da_then_state action))
                else Ok fail_open
            | _ => Ok fail_open
            end
      end
  | KTool =>
      let alias := val_or (da_tool action) (VStr []) in
      let? tc := tool_get alias (pc_tools c) in
      Ok (match tool_type tc with
          | Some (ty, d) =>
              mkSel (tool_route (match alias with VStr a => a | _ => [] end)) (Some ty)
                (val_or (da_then_state action)
                   (VS (match ty with THangup => "END" | TTransfer => "TRANSFERRING" end)))
                (VStr []) VNone VNone d (da_closing_phrase action)
          | None => fail_open
          end)
  | KContinue => Ok fail_open
  end.

Definition gated_trace (turn_id : Z) (res : MainStreamResult) (ts_start ts_end : Z)
  (user_text : pystr) (first_audio_ms : option Z) (results : list RefereeResult)
  (action : DeciderAction) (sel : GatedSelection) (candidates : list pystr)
  (restructure_text : option pystr) : event :=
  dupdate (base_trace turn_id res ts_start ts_end user_text first_audio_ms)
    [("referee_results", referee_traces results);
     ("matched_rule", match da_matched_rule action with Some r => VDict r | None => VNone end);
     ("restructure_active", VBool (is_restructure restructure_text));
     ("restructure_trigger", match restructure_text with
                             | Some _ => gs_restructure_trigger sel | None => VNone end);
     ("restructure_source_text", opt_str restructure_text);
     ("selected_route_id", VStr (gs_route_id sel));
     ("selected_route_kind", VS (match gs_tool sel with Some _ => "tool" | None => "dialogue" end));
     ("persona_candidates", if (1 <? zlen candidates)%Z then VList (map VStr candidates) else VNone)]%string.

Definition add_trace (t : event) : M unit :=
  modify (fun s => s <| pipeline_trace_records ::= fun l => l ++ [t] |>).

(** ** Handoff *)

Definition trigger_name (t : Transfer.Trigger) : string :=
  match t with
  | Transfer.TKeyword => "keyword" | Transfer.TIntent => "intent"
  | Transfer.TRound => "round" | Transfer.TLlm => "llm"
  end.

Definition perform_handoff (cfg : InterruptionConfig) (now : Z) (trigger : string) (detail : pystr)
  (phrase : pystr) (p : Play) : M unit :=
  goto now TRANSFERRING trigger;;
  append now "transfer_initiated"
    [("trigger_type"%string, VS trigger); ("trigger_detail"%string, VStr detail)];;
  when (negb (zlen phrase =? 0)) (_ ← play_tts cfg true phrase p; mret tt);;
  modify (fun s => s <| transfer_status := "marked_for_handoff"%string |>
                     <| transfer_reason := Some trigger |>);;
  append now "transfer_marked" [];;
  emit EHangup;;
  awaits;;
  goto now END_ "marked_for_handoff";;
  modify (fun s => s <| hangup_cause := Some "marked_for_handoff"%string |>);;
  hangup_event now "marked_for_handoff" "ai".

(** The trigger of a decision, "transfer" when it names none. *)
Definition decision_trigger (d : Transfer.TransferDecision) : string :=
  match Transfer.trigger_type d with Some t => trigger_name t | None => "transfer" end.

(** ** The gate *)

Definition await_one (r : RefereeResult) (label : pystr) (g : Gate) : RefereeResult :=
  match g with
  | GAnswer => r
  | GTimeout => fail_open label FAILOPEN_TIMEOUT 0 None
  | GError => fail_open label FAILOPEN_INVALID 0 None
  end.

(** One verdict per spawned referee; a referee without an answer has not answered in time. *)
Fixpoint await_referees (results : list RefereeResult) (labels : list pystr) (gates : list Gate)
  : list RefereeResult :=
  match results, labels with
  | r :: rs, l :: ls =>
      match gates with
      | g :: gs => await_one r l g :: await_referees rs ls gs
      | [] => await_one r l GTimeout :: await_referees rs ls []
      end
  | _, _ => []
  end.

(** Take and clear the captured remainder, or fall back to the last audible AI turn. *)
Definition last_assistant (h : list DialogTurn) : option pystr :=
  dt_text <$> List.find (fun t => bool_decide (dt_role t = RAssistant)
                                  && negb (zlen (py_strip (dt_text t)) =? 0)) (rev h).

Definition assemble_interrupt_text (source : pyval) : M (option pystr) :=
  s ← get_session;
  if val_is source "interrupt_remaining" then
    modify (fun s => s <| interrupt_remaining_text := None |>);;
    mret (match interrupt_remaining_text s with
          | Some t => if decide (py_strip t = []) then last_assistant (dialog_history s) else Some t
          | None => last_assistant (dialog_history s)
          end)
  else mret (last_assistant (dialog_history s)).

(** ** Streamed replies *)

(** A filler that began before the first audio of the reply. *)
Definition run_filler (rc : RuntimeConfig) (now : Z) (f : option (nat * Filler.Played)) : M unit :=
  match f with
  | None => mret tt
  | Some (rnd, how) => fun r =>
      let '(f, s) := Filler.start rnd (Filler.mkFiller (rc_filler_phrases rc) Filler.NoTask false)
                       (sess r) in
      match Filler.f_task f with
      | Filler.Playing phrase =>
          match Filler.play valid_event false other_str now phrase how f s with
          | Ok s' => (Ok tt, r <| sess := s' |> <| log ::= fun l => l ++ [ESay phrase] |>)
          | Err _ => (Err ValueError, r <| sess := s |>)
          end
      | _ => (Ok tt, r <| sess := s |>)
      end
  end.

(** The consumer of [_play_streaming]: sentence after sentence, until one is cut or fails.
    Between two of them no partial counts, as nothing is being said.  Before the first one
    the filler and its timer are stopped. *)
Inductive JobsEnd : Type := AllPlayed | CutShort | PlayFailed.

Fixpoint play_jobs (cfg : InterruptionConfig) (filler : bool) (jobs : list pystr)
  (plays : list Play) (now : Z) : M JobsEnd :=
  awaits;;                                         (* [job_q.get()] *)
  match jobs with
  | [] => mret AllPlayed
  | _ :: jobs' =>
      when filler (awaits_quietly;; awaits_quietly);;
      o ← attempt (play_chunks cfg true (hd (mkPlay [] now false) plays));
      match o with
      | Ok true => play_jobs cfg false jobs' (tl plays) now
      | Ok false => mret CutShort
      | Err Cancelled => raise Cancelled
      | Err _ => mret PlayFailed
      end
  end.

(** The waits of the [finally] of [_play_streaming]: the filler's timer and the producer,
    the sentence generator, a job and its connection, the eager task, the filler.  [Synth]
    models what they release. *)
Definition streaming_cleanup (filler : bool) : M unit :=
  when filler awaits_quietly;;
  awaits_quietly;;
  awaits;;
  awaits_quietly;;
  awaits;;
  awaits_quietly;;
  when filler awaits_quietly.

(** [_play_streaming] on the stream of one route: the whole reply when it plays out, the
    part generated and the captured remainder when a partial cuts it, and the part
    generated with the error noted when a playback fails. *)
Definition play_streaming (rc : RuntimeConfig) (now : Z) (rnd : nat) (route : pystr)
  (filler_enabled : bool) (st : PipelineStream) (ry : Reply) : M (option Z * bool * MainStreamResult) :=
  when filler_enabled (run_filler rc now (ry_filler ry));;
  s ← get_session;
  match sentences other_str readable (append_event valid_event false other_str now) rnd s st with
  | Err _ => raise ValueError
  | Ok (out, res, s') =>
      modify (fun _ => s');;
      emit (EReply route (mr_reply_text res));;
      ending ← finally_ (play_jobs (rc_interruption rc) filler_enabled out (ry_plays ry) now)
                 (streaming_cleanup filler_enabled);
      match ending with
      | AllPlayed => mret (ry_first_audio ry, true, res)
      | PlayFailed =>
          let cut := ry_cut ry in
          mret (ry_first_audio ry, true,
                cut <| mr_error := Some (default (u8 "tts_playback: " ++ ry_error ry) (mr_error cut)) |>)
      | CutShort =>
          when (negb (is_restructure (st_restructure_text st)))
            (modify (fun s => s <| interrupt_remaining_text := ry_remaining ry |>));;
          mret (ry_first_audio ry, false, ry_cut ry)
      end
  end.

Definition ai_reply (now : Z) (text : pystr) (turn_id role_config_id : Z) (goal_achieved : bool)
  (goal_type : pyval) (is_wrap_up : bool) : M unit :=
  append now "ai_reply"
    [("text", VStr text); ("turn_id", VInt turn_id);
     ("selected_role_config_id", if (role_config_id =? 0)%Z then VNone else VInt role_config_id);
     ("goal_achieved", VBool goal_achieved); ("goal_type", goal_type); ("extracted", VDict []);
     ("is_wrap_up", VBool is_wrap_up)]%string.

Definition count_tokens (res : MainStreamResult) : M unit :=
  modify (fun s => s <| total_tokens_in ::= Z.add (mr_tokens_in res) |>
                     <| total_tokens_out ::= Z.add (mr_tokens_out res) |>).

(** A barge-in consumed by the turn. *)
Definition take_interruption : M unit :=
  modify (fun s => s <| consecutive_interruption_count ::= Z.succ |>
                     <| interruption_signaled := false |>).

(** The pipeline configuration, whose short-reply flag the loop sets. *)
Definition pipeline_of (rc : RuntimeConfig) : M PipelineConfig := fun r =>
  (Ok (rc_pipeline rc <| pc_short_reply_active := short_reply_active r |>), r).

Definition run_restructure (rc : RuntimeConfig) (te : TurnEnv) (text : pystr) (trigger : pyval)
  : M bool :=
  c ← pipeline_of rc;
  s ← get_session;
  let '(st, s1) := run_restructure_stream registry referee_clock s text c llm in
  modify (fun _ => s1);;
  '(first_audio, played, res) ←
    play_streaming rc (te_now te) (te_rnd te) R_RESTRUCTURE false st (te_reply te);
  let role := match pc_restructure (rc_pipeline rc) with
              | Some m => ms_role_config_id m | None => 0 end in
  ai_reply (te_now te) (mr_reply_text res) (st_turn_id st) role false (VStr []) false;;
  add_trace (dupdate (base_trace (st_turn_id st) res (te_wall te) (te_wall te) text first_audio)
    [("restructure_active"%string, VBool true); ("restructure_trigger"%string, trigger);
     ("restructure_source_text"%string, VStr text)]);;
  mret (played : bool).

(** ** The gated turn *)

(** The persona's prompt in the main slot.  The provider is not carried over. *)
Definition persona_main_spec (p : PersonaSpec) : MainSpec :=
  mkMainSpec (ps_role_config_id p) (ps_prompt_version_id p) (ps_system_prompt p) (ps_temperature p) (ps_top_p p) None
    (ps_model p).

(** A stream built without [start]: no referees, the turn id of the main stream. *)
Definition bare_stream (c : PipelineConfig) (user_text : pystr) (is_wrap_up : bool) (turn_id : Z)
  : PipelineStream :=
  let slot := stream_slot c None in
  mkStream user_text c (resolve_llm registry (ms_provider slot) (ms_model slot) llm) is_wrap_up None
    turn_id [] [].

Definition enabled_personas (c : PipelineConfig) : list PersonaSpec :=
  let cap := Z.max 1 (Z.min 3 (pc_persona_fanout_cap c)) in
  take (Z.to_nat (Z.max 0 (cap - 1))) (pc_personas c).

(** The speculative candidates with the role each would be recorded under; a later entry
    of the same id replaces an earlier one. *)
Record Candidate := mkCandidate { cd_id : pystr; cd_stream : PipelineStream; cd_role : Z }.

Definition put_candidate (x : Candidate) (l : list Candidate) : list Candidate :=
  if bool_decide (cd_id x ∈ map cd_id l)
  then map (fun y => if decide (cd_id y = cd_id x) then x else y) l
  else l ++ [x].

Definition find_candidate (id : pystr) (l : list Candidate) : option Candidate :=
  List.find (fun x => bool_decide (cd_id x = id)) l.

Definition candidates_of (c : PipelineConfig) (user_text : pystr) (main : PipelineStream)
  : list Candidate :=
  fold_left (fun acc p =>
      put_candidate
        (mkCandidate (persona_route (ps_label p))
           (bare_stream (c <| pc_main := persona_main_spec p |> <| pc_referees := [] |>)
              user_text false (st_turn_id main)) (ps_role_config_id p)) acc)
    (enabled_personas c)
    [mkCandidate R_MAIN main (ms_role_config_id (pc_main c))].

Fixpoint cancel_each (l : list Candidate) : M unit :=
  match l with
  | [] => mret tt
  | x :: l' => emit (ECancel (cd_id x));; awaits_quietly;; cancel_each l'
  end.

Definition cancel_candidates (except_id : option pystr) (l : list Candidate) : M unit :=
  cancel_each (List.filter (fun x => negb (bool_decide (Some (cd_id x) = except_id))) l).

(** The override that resumes a cut-off line: only for a filler verdict on the no-match
    fallback.  The flag tells whether a stale remainder is dropped instead. *)
Definition restructure_override (c : PipelineConfig) (results : list RefereeResult)
  (remaining : option pystr) (action : DeciderAction) : DeciderAction * bool :=
  let gate_filler := existsb (fun r =>
        bool_decide (effective_category r = Some (pc_restructure_gate_category c))) results in
  let pending := match remaining with Some (_ :: _) => true | _ => false end in
  let auto := pc_auto_restructure_on_interrupt c in
  if gate_filler && bool_decide (da_kind action = KContinue) && auto
     && match pc_restructure c with Some _ => true | None => false end && pending
  then (continue_action <| da_kind := KRestructure |> <| da_source := VS "interrupt_remaining" |>
          <| da_restructure_trigger := VS "interrupt_remaining" |>, false)
  else (action, auto && pending).

Definition pystr_of (v : pyval) : pystr := match v with VStr t => t | _ => [] end.

(** The phrase a hangup tool says: the matched rule's, else the tool's. *)
Definition hangup_phrase (sel : GatedSelection) : pyval :=
  val_or (val_or (gs_closing_phrase sel) (dgetv "closing_phrase" (gs_tool_config sel))) (VStr []).

(** A tool route: hang up or hand over; the buffered reply is never released. *)
Definition tool_turn (rc : RuntimeConfig) (te : TurnEnv) (ty : ToolType) (sel : GatedSelection)
  (trace : event) : M Directive :=
  match ty with
  | THangup =>
      modify (fun s => s <| hangup_cause := Some "referee_hangup"%string |>);;
      when (truthy (hangup_phrase sel))
        (_ ← play_tts (rc_interruption rc) true (pystr_of (hangup_phrase sel)) (te_play te); mret tt);;
      add_trace trace;;
      goto (te_now te) END_ "referee_hangup";;
      hangup_event (te_now te) "referee_hangup" "ai";;
      mret RETURN
  | TTransfer =>
      add_trace trace;;
      perform_handoff (rc_interruption rc) (te_now te) "referee" (u8 "referee_decision") []
        (te_play te);;
      mret RETURN
  end.

(** The restructure route, capped. *)
Definition restructure_turn (rc : RuntimeConfig) (te : TurnEnv) (sel : GatedSelection)
  (trace : option pystr -> event) : M Directive :=
  s ← get_session;
  let c := rc_pipeline rc in
  if pc_max_continuous_restructure c <=? consecutive_restructure_count s then
    add_trace (trace None);;
    match choose (te_rnd te) (pc_default_replies c) with
    | Some t => _ ← play_tts (rc_interruption rc) true t (te_play te); mret tt
    | None => mret tt
    end;;
    modify (fun s => s <| consecutive_restructure_count := 0 |>);;
    mret CONTINUE
  else
    text ← assemble_interrupt_text (gs_source sel);
    add_trace (trace text);;
    match text with
    | None => mret CONTINUE
    | Some t =>
        played ← run_restructure rc te t (gs_restructure_trigger sel);
        modify (fun s => s <| consecutive_restructure_count ::= Z.succ |>);;
        when (negb played) take_interruption;;
        mret CONTINUE
    end.

(** A dialogue route: the winning candidate, or a fresh stream for [closing] and
    [recovery], is released; then the selection's state is projected. *)
Definition dialogue_turn (rc : RuntimeConfig) (te : TurnEnv) (user_text : pystr)
  (main : PipelineStream) (cands : list Candidate) (sel : GatedSelection)
  (trace : Z -> MainStreamResult -> option Z -> event) : M Directive :=
  let now := te_now te in
  let route := gs_route_id sel in
  c ← pipeline_of rc;
  let '(winner, role, kept) :=
    match find_candidate route cands with
    | Some x => (cd_stream x, cd_role x, Some route)
    | None => (bare_stream c user_text (bool_decide (route = R_CLOSING)) (st_turn_id main),
               ms_role_config_id (pc_main c), None)
    end in
  cancel_candidates kept cands;;
  goto now IN_CALL "main_stream_started";;
  '(first_audio, played, res) ←
    play_streaming rc now (te_rnd te) route (rc_filler_enabled rc) winner (te_reply te);
  count_tokens res;;
  let goal_achieved := bool_decide (route = R_CLOSING) in
  let goal_type := if goal_achieved then gs_goal_type sel else VStr [] in
  if negb played then
    add_trace (trace (st_turn_id winner) res first_audio);;
    ai_reply now (mr_reply_text res) (st_turn_id winner) role false (VStr []) false;;
    take_interruption;;
    mret CONTINUE
  else
    modify (fun s => s <| consecutive_interruption_count := 0 |>
                       <| consecutive_restructure_count := 0 |>);;
    add_trace (trace (st_turn_id winner) res first_audio);;
    ai_reply now (mr_reply_text res) (st_turn_id winner) role goal_achieved
      (val_or goal_type (VStr [])) goal_achieved;;
    (if val_is (gs_then_state sel) "WRAPPING_UP" then
       goto_for now IN_CALL (pystr_of (val_or goal_type (VS "goal_achieved")));;
       modify (fun s => s <| in_wrap_up := true |> <| wrap_up_started_at_monotonic := Some now |>
                          <| wrap_up_started_at_wallclock := Some (te_wall te) |>);;
       append now "wrap_up_started"
         [("rounds_remaining"%string, VInt (WrapUp.max_rounds (rc_wrap_up rc)));
          ("seconds_remaining"%string, VInt (WrapUp.max_seconds (rc_wrap_up rc)))];;
       append now "goal_achieved" [("goal_type"%string, goal_type); ("extracted"%string, VDict [])]
     else mret tt);;
    mret CONTINUE.

(** One gate-first turn outside wrap-up. *)
Definition gated_turn (rc : RuntimeConfig) (user_text : pystr) (te : TurnEnv) : M Directive :=
  let now := te_now te in
  modify (fun s => s <| in_processing_turn := true |>);;
  c ← pipeline_of rc;
  s0 ← get_session;
  let '(main, s1) := run_pipeline_stream registry referee_clock s0 user_text c llm llm false in
  modify (fun _ => s1);;
  let cands := candidates_of c user_text main in
  finally_ (_ ← monitor (rc_interruption rc) (te_gate_partials te);
            when (negb (zlen (st_referees main) =? 0)) awaits)
    (modify (fun s => s <| in_processing_turn := false |>));;
  let results := await_referees (st_referees main) (st_referee_labels main) (te_gate te) in
  s ← get_session;
  if interruption_signaled s then
    cancel_candidates None cands;;
    take_interruption;;
    add_trace (dupdate (base_trace (st_turn_id main) (te_partial te) (te_wall te) (te_wall te)
                          user_text None)
                 [("referee_results"%string, referee_traces results)]);;
    mret CONTINUE
  else
    action0 ← lift (decide_route results (pc_routing_rules c));
    let '(action, drop_remainder) :=
      restructure_override c results (interrupt_remaining_text s) action0 in
    when drop_remainder (modify (fun s => s <| interrupt_remaining_text := None |>));;
    sel ← lift (select_gated_route action c);
    when (Transfer.intent_enabled (rc_transfer rc) || Transfer.llm_enabled (rc_transfer rc)) awaits;;
    let suppressed := gated_trace (st_turn_id main) (te_partial te) (te_wall te) (te_wall te)
                        user_text None results action sel (map cd_id cands) None in
    let detector :=
      match te_transfer te with
      | Some d => if Transfer.triggered d
                     && negb (match gs_tool sel with Some TTransfer => true | _ => false end)
                  then Some d else None
      | None => None
      end in
    match detector, gs_tool sel with
    | Some d, _ =>
        cancel_candidates None cands;;
        add_trace suppressed;;
        perform_handoff (rc_interruption rc) now (decision_trigger d) (Transfer.trigger_detail d)
          (Transfer.phrase d) (te_play te);;
        mret RETURN
    | None, Some ty =>
        cancel_candidates None cands;;
        tool_turn rc te ty sel suppressed
    | None, None =>
        if bool_decide (gs_route_id sel = R_RESTRUCTURE) then
          cancel_candidates None cands;;
          restructure_turn rc te sel (fun text =>
            gated_trace (st_turn_id main) (te_partial te) (te_wall te) (te_wall te) user_text None
              results action sel (map cd_id cands) text)
        else
          dialogue_turn rc te user_text main cands sel (fun turn res first_audio =>
            gated_trace turn res (te_wall te) (te_wall te) user_text first_audio results action sel
              (map cd_id cands) None)
    end.

(** ** The wrap-up turn *)

Definition WRAP_UP_HANGUP_CATEGORIES : list pystr := [u8 "无问题"].

Definition WRAP_UP_REFEREE_PROMPT : pystr :=
  u8 "你是通话收尾阶段的判定助手。AI 刚对客户说完收尾/告别语。"
  ++ u8 "请判断客户最后这句回复里，有没有需要 AI 继续回答的实质性新问题。" ++ nl
  ++ u8 "判定规则：" ++ nl
  ++ u8 "- 有需要 AI 回答的实质新问题（如追问价格、时间、产品细节、办理方式等）→ 输出：有问题" ++ nl
  ++ u8 "- 没有实质新问题（只是附和、客套、道别、表示同意结束、或无具体内容）→ 输出：无问题" ++ nl
  ++ u8 "只输出「有问题」或「无问题」其中一个词，不要输出任何别的内容。" ++ nl ++ nl
  ++ u8 "客户最后一句：{{user_last_utterance}}" ++ nl
  ++ u8 "最近对话：" ++ nl ++ u8 "{{recent_dialog_history}}".

Definition WRAP_UP_REFEREE_SPEC : RefereeSpec :=
  mkRefereeSpec 0 0 (u8 "wrap_up_referee") WRAP_UP_REFEREE_PROMPT default_temperature default_top_p
    None None.

Definition wrap_up_hangup (r : option RefereeResult) : bool :=
  match r with
  | Some r => match rr_category r with
              | Some c => bool_decide (c ∈ WRAP_UP_HANGUP_CATEGORIES) | None => false end
  | None => false
  end.

Definition reason_name (r : WrapUp.Reason) : string :=
  match r with
  | WrapUp.MaxRounds => "max_rounds" | WrapUp.MaxSeconds => "max_seconds" | WrapUp.OkReason => "ok"
  end.

Definition choice_of (rnd : nat) (l : list pystr) : pystr := default [] (choose rnd l).

(** [pipeline_trace_records[-1]["referee_results"] = [...]]. *)
Definition record_verdict (r : RefereeResult) : M unit :=
  modify (fun s => s <| pipeline_trace_records ::= fun l =>
    match rev l with
    | t :: earlier => rev earlier ++ [dset "referee_results"%string (referee_traces [r]) t]
    | [] => []
    end |>).

Definition gated_wrap_up_turn (rc : RuntimeConfig) (user_text : pystr) (te : TurnEnv) : M Directive :=
  let now := te_now te in
  c ← pipeline_of rc;
  s0 ← get_session;
  let '(st, s1) := run_pipeline_stream registry referee_clock s0 user_text c llm llm true in
  modify (fun _ => s1);;
  goto now IN_CALL "main_stream_started";;
  '(first_audio, played, res) ←
    play_streaming rc now (te_rnd te) R_CLOSING false st (te_reply te);
  count_tokens res;;
  add_trace (dupdate (base_trace (st_turn_id st) res (te_wall te) (te_wall te) user_text first_audio)
    [("referee_results"%string, referee_traces []);
     ("selected_route_id"%string, VStr R_CLOSING); ("selected_route_kind"%string, VS "dialogue");
     ("persona_candidates"%string, VNone)]);;
  ai_reply now (mr_reply_text res) (st_turn_id st) (ms_role_config_id (pc_main c)) false (VStr []) true;;
  if negb played then take_interruption;; mret CONTINUE
  else
  when (WrapUp.referee_enabled (rc_wrap_up rc)) awaits;;
  let verdict :=
    match WrapUp.referee_enabled (rc_wrap_up rc), te_wrap_gate te with
    | true, GAnswer => Some (referee_of referee_clock s1 user_text llm WRAP_UP_REFEREE_SPEC)
    | _, _ => None
    end in
  match verdict with Some r => record_verdict r | None => mret tt end;;
  if wrap_up_hangup verdict then
    modify (fun s => s <| hangup_cause := Some "referee_hangup"%string |>);;
    goto now END_ "wrap_up_referee_hangup";;
    hangup_event now "wrap_up_referee_hangup" "ai";;
    mret RETURN
  else
    modify (fun s => s <| wrap_up_round_count ::= Z.succ |>);;
    s ← get_session;
    let d := WrapUp.evaluate_wrap_up (choice_of (te_rnd te)) (wrap_up_round_count s)
               (wrap_up_started_at_monotonic s) None now (rc_wrap_up rc) in
    if WrapUp.proceed d then mret CONTINUE
    else
      _ ← play_tts (rc_interruption rc) true (WrapUp.closing_phrase d) (te_play te);
      append now "wrap_up_completed" [("reason"%string, VS (reason_name (WrapUp.reason d)))];;
      goto now END_ "wrap_up_completed";;
      modify (fun s => s <| hangup_cause := Some "wrap_up_completed"%string |>);;
      hangup_event now "wrap_up_completed" "ai";;
      mret RETURN.

(** ** Listening *)

Inductive UserAwait : Type :=
| UserFinal (text : pystr)
| SilenceActivation (text : option pystr)
| SilenceHangup (text : option pystr)
| RemoteHangup
| NoProgress.

(** What ends a listening window: the line, a final with the backlog queued behind it, or
    the window's length in microseconds. *)
Inductive Wake : Type :=
| WakeHangup
| WakeFinal (first : pystr) (backlog : list pystr)
| WakeTimeout (elapsed : Z).

(** [text.strip()] of each final, the blank ones dropped, joined by spaces. *)
Definition coalesce (first : pystr) (backlog : list pystr) : pystr :=
  str_join [32] (List.filter (fun t => negb (zlen t =? 0)) (map py_strip (first :: backlog))).

Definition await_user_or_silence (rc : RuntimeConfig) (hangup_set : bool) (wake : Wake) (now : Z)
  : M UserAwait :=
  if hangup_set then mret RemoteHangup
  else
    awaits;;
    match wake with
    | WakeHangup => awaits_quietly;; mret RemoteHangup
    | WakeFinal first backlog =>
        awaits_quietly;;
        let combined := coalesce first backlog in
        if bool_decide (combined = []) || bool_decide (combined ∈ ic_whitelist (rc_interruption rc))
        then mret NoProgress
        else
          modify (fun s => s <| last_user_speech_end_at := Some now |>);;
          mret (UserFinal combined)
    | WakeTimeout elapsed =>
        awaits_quietly;;
        awaits_quietly;;
        s ← get_session;
        let d := Silence.evaluate_silence (Z.quot elapsed 1000) (silence_activation_count s)
                   (rc_silence rc) (in_wrap_up s) in
        mret (match Silence.sd_decision d with
              | Silence.Activate => SilenceActivation (Silence.sd_phrase d)
              | Silence.Hangup => SilenceHangup (Silence.sd_phrase d)
              | Silence.Wait => NoProgress
              end)
    end.

(** ** Continuous-interruption protection *)

Inductive Protection : Type := NoProtection | ShortReply | ListenOnly.

Definition decide_protection (rc : RuntimeConfig) (s : CallSession) : Protection :=
  if consecutive_interruption_count s <? rc_max_continuous_interruptions rc then NoProtection
  else if bool_decide (rc_continuous_interruption_strategy rc = u8 "listen_only") then ListenOnly
  else ShortReply.

(** ** The loop *)

Record IterEnv := mkIter {
  ie_now : Z; ie_rnd : nat; ie_hangup_set : bool; ie_wake : Wake; ie_play : Play;
  ie_turn : TurnEnv }.

Definition LISTEN_CUE : pystr := u8 "您请说。".

(** The reply to a user utterance: cheap transfer triggers, interruption protection, then
    the gated or the wrap-up turn. *)
Definition user_turn (rc : RuntimeConfig) (e : IterEnv) (user_text : pystr) : M Directive :=
  let now := ie_now e in
  append now "user_speech" [("text"%string, VStr user_text)];;
  emit (EAsrFinal user_text);;
  s ← get_session;
  let decision := Transfer.evaluate_transfer_cheap (ie_rnd e) user_text (zlen (dialog_history s)) false
                    (rc_transfer rc) in
  if Transfer.triggered decision then
    perform_handoff (rc_interruption rc) now (decision_trigger decision)
      (Transfer.trigger_detail decision) (Transfer.phrase decision) (ie_play e);;
    mret RETURN
  else
    let wrap := in_wrap_up s in
    match decide_protection rc s with
    | ListenOnly =>
        goto now IN_CALL "listen_only_cue";;
        _ ← play_tts (rc_interruption rc) false LISTEN_CUE (ie_play e);
        modify (fun s => s <| consecutive_interruption_count := 0 |>);;
        set_short_reply false;;
        goto now IN_CALL "listen_only_done";;
        mret CONTINUE
    | p =>
        set_short_reply (match p with ShortReply => true | _ => false end);;
        goto now IN_CALL "speech_end";;
        emit (EStatus "speech_end");;
        if wrap then
          modify (fun s => s <| prompt_versions_snapshot ::=
                                  dset "wrap_up_appended"%string (VBool true) |>);;
          gated_wrap_up_turn rc user_text (ie_turn e)
        else gated_turn rc user_text (ie_turn e)
    end.

(** One iteration of [_main_turn_loop]. *)
Definition iteration (rc : RuntimeConfig) (e : IterEnv) : M Directive :=
  let now := ie_now e in
  outcome ← await_user_or_silence rc (ie_hangup_set e) (ie_wake e) now;
  match outcome with
  | RemoteHangup =>
      goto now END_ "user_hangup";;
      modify (fun s => s <| hangup_cause := Some "user_hangup"%string |>);;
      hangup_event now "user_hangup" "user";;
      mret RETURN
  | SilenceHangup text =>
      match text with
      | Some ((_ :: _) as t) => _ ← play_tts (rc_interruption rc) true t (ie_play e); mret tt
      | _ => mret tt
      end;;
      s ← get_session;
      let reason := if in_wrap_up s then "wrap_up_silence"%string else "silence_max_reached"%string in
      goto now END_ reason;;
      modify (fun s => s <| hangup_cause := Some "silence_max_reached"%string |>);;
      hangup_event now reason "ai";;
      mret RETURN
  | SilenceActivation text =>
      goto now IN_CALL "silence_threshold";;
      s ← get_session;
      append now "silence_activation"
        [("text"%string, VStr (default [] text));
         ("activation_index"%string, VInt (silence_activation_count s))];;
      _ ← play_tts (rc_interruption rc) true (default [] text) (ie_play e);
      modify (fun s => s <| silence_activation_count ::= Z.succ |>
                         <| last_tts_end_at := Some now |>);;
      goto now IN_CALL "activation_done";;
      mret CONTINUE
  | NoProgress => mret CONTINUE
  | UserFinal user_text => user_turn rc e user_text
  end.

(** The loop over the inputs of its iterations: whether the call is over within them. *)
Fixpoint main_turn_loop (rc : RuntimeConfig) (es : list IterEnv) : M bool :=
  s ← get_session;
  if decide (state s = END_) then mret true
  else
    match es with
    | [] => mret false
    | e :: rest =>
        d ← iteration rc e;
        match d with RETURN => mret true | CONTINUE => main_turn_loop rc rest end
    end.

(** ** The whole session *)

(** The call events up to the first that decides; running out of them is the timeout. *)
Fixpoint wait_connected (events : list string) : bool :=
  match events with
  | [] => false
  | ev :: rest =>
      if bool_decide (ev = "connected"%string) then true
      else if bool_decide (ev ∈ ["local_hangup"; "remote_hangup"; "device_error"]%string) then false
      else wait_connected rest
  end.

(** The inputs before the loop: whether [dial] succeeded, the call events, the clock, the
    end of the greeting's playback and whether it raised. *)
Record SessionEnv := mkSessionEnv {
  se_now : Z; se_dialed : bool; se_events : list string; se_greeting_end : Z; se_greeting_error : bool;
  se_token_budget : Z }.

(** A fixed greeting needs no model, and is the time in which the main model is warmed up. *)
Definition has_fixed_greeting (rc : RuntimeConfig) : bool :=
  match rc_fixed_greeting rc with Some (_ :: _) => true | _ => false end.

(** The monitors start after the greeting, so no partial can cut it; the results heard
    during it are drained. *)
Definition do_greeting (rc : RuntimeConfig) (se : SessionEnv) : M unit :=
  c ← pipeline_of rc;
  let slot := pc_main c in
  let text := generate_greeting c (resolve_llm registry (ms_provider slot) (ms_model slot) llm)
                (rc_fixed_greeting rc) in
  when (negb (has_fixed_greeting rc)) awaits;;
  append (se_now se) "greeting" [("text"%string, VStr text)];;
  _ ← play_tts (rc_interruption rc) true text (mkPlay [] (se_greeting_end se) (se_greeting_error se));
  mret tt.

(** [_dial_and_wait_connected]. *)
Definition dial_and_wait (se : SessionEnv) : M bool :=
  awaits;;
  if negb (se_dialed se) then raise OtherError
  else awaits;; mret (wait_connected (se_events se)).

Definition no_answer (now : Z) : M bool :=
  goto now END_ "no_answer";;
  modify (fun s => s <| hangup_cause := Some "no_answer"%string |>);;
  hangup_event now "no_answer" "ai";;
  mret true.

(** The connected call: the greeting, with the warm-up probe awaited after it, and the loop. *)
Definition talk (rc : RuntimeConfig) (se : SessionEnv) (es : list IterEnv) : M bool :=
  let now := se_now se in
  goto now IN_CALL "connected";;
  emit (EStatus "connected");;
  do_greeting rc se;;
  goto now IN_CALL "greeting_done";;
  emit (EStatus "greeting_done");;
  when (has_fixed_greeting rc) awaits;;
  modify (fun s => s <| current_user_speech_started_ms := None |>);;
  main_turn_loop rc es.

(** The [except] clause: whatever goes wrong, the call is ended with a cause. *)
Definition internal_error (now : Z) : M bool :=
  s ← get_session;
  (if decide (state s = END_) then mret tt else goto now END_ "engine_internal_error");;
  modify (fun s => match hangup_cause s with
                   | None => s <| hangup_cause := Some "no_progress_timeout"%string |>
                   | Some _ => s end);;
  s ← get_session;
  hangup_event now (default ""%string (hangup_cause s)) "ai";;
  mret true.

(** [except Exception], which a cancellation passes, and the [finally]: the listening pumps
    are stopped if they were started, and the bus is closed. *)
Definition settle (now : Z) (listening : bool) (m : M bool) : M bool :=
  finally_
    (o ← attempt m;
     match o with
     | Ok b => mret b
     | Err Cancelled => raise Cancelled
     | Err _ => internal_error now
     end)
    (when listening awaits;; awaits).

Definition run_session (rc : RuntimeConfig) (se : SessionEnv) (es : list IterEnv) : M bool :=
  modify (fun s => s <| token_budget_per_call := se_token_budget se |>
                     <| extractor_role_config_id := ms_role_config_id (pc_extractor (rc_pipeline rc)) |>
                     <| extractor_prompt_version_id := ms_prompt_version_id (pc_extractor (rc_pipeline rc)) |>
                     <| call_started_at_monotonic := se_now se |>);;
  connected ← attempt (dial_and_wait se);
  match connected with
  | Ok true => settle (se_now se) true (talk rc se es)
  | Ok false => settle (se_now se) false (no_answer (se_now se))
  | Err e => settle (se_now se) false (raise e)
  end.
End Loop.

(** ** The voice-activity mirror *)

Definition BYTES_PER_MS : Z := 32.
Definition VOICE_RMS_THRESHOLD : Z := 1200.
Definition SILENCE_HANGOVER_MS : Z := 300.

(** [audioop.rms] of 16-bit samples; an odd length is its error, read as 0. *)
Definition rms (pcm : bytes) : Z :=
  match samples_of_bytes pcm with
  | Some ((_ :: _) as l) => Z.sqrt (fold_left (fun acc x => acc + x * x) l 0 / zlen l)
  | _ => 0
  end.

(** One frame: the voiced span, the run of silence inside it, and the session's mirror. *)
Definition vad_frame (st : Z * Z) (pcm : bytes) : Z * Z :=
  let '(voice, silence) := st in
  match pcm with
  | [] => st
  | _ =>
      let frame_ms := Z.max (zlen pcm / BYTES_PER_MS) 1 in
      if VOICE_RMS_THRESHOLD <=? rms pcm then (voice + frame_ms, 0)
      else if 0 <? voice then
        if SILENCE_HANGOVER_MS <=? silence + frame_ms then (0, 0) else (voice, silence + frame_ms)
      else (voice, silence)
  end.

Definition vad_step (st : Z * Z * CallSession) (pcm : bytes) : Z * Z * CallSession :=
  match pcm with
  | [] => st
  | _ => let '(voice, silence) := vad_frame st.1 pcm in
         (voice, silence, st.2 <| vad_voice_active_ms := voice |>)
  end.

Definition vad_monitor (frames : list bytes) (s : CallSession) : CallSession :=
  (fold_left vad_step frames (0, 0, s)).2.
