(* ===== verification/RunLoopFacts.v ===== *)
(** * What the call loop guarantees

    Theorems about the definitions of [RunLoop]: a call that ends has ended
    properly, its counters stay within the campaign's limits, and the pre-reply
    gate releases at most one reply. *)

From S2P Require Import Prelude Session Referee Interruption Managers Orchestrator RunLoop.
Import Detector.

(** ** Reasoning about the monad *)

Lemma bind_ok {A B} (m : M A) (k : A -> M B) r o r' :
  (x ← m; k x) r = (o, r') ->
  (exists x r1, m r = (Ok x, r1) /\ k x r1 = (o, r')) \/ (exists e, m r = (Err e, r') /\ o = Err e).
Proof.
  unfold mbind, M_bind. destruct (m r) as [[x|e] r1]; intros H; [left; by eauto|].
  right. exists e. by injection H as <- <-.
Qed.

Lemma bind_step {A B} (m : M A) (k : A -> M B) r x r' :
  (y ← m; k y) r = (Ok x, r') -> exists y r1, k y r1 = (Ok x, r').
Proof. intros [(y & r1 & _ & H)|(e & _ & ?)]%bind_ok; [by exists y, r1|done]. Qed.

Lemma bind_get {A} (k : CallSession -> M A) r : (s ← get_session; k s) r = k (sess r) r.
Proof. done. Qed.

Lemma bind_modify {A} g (k : unit -> M A) r : (x ← modify g; k x) r = k tt (r <| sess ::= g |>).
Proof. done. Qed.

Lemma bind_pipeline_of {A} rc (k : PipelineConfig -> M A) r :
  (c ← pipeline_of rc; k c) r
  = k (rc_pipeline rc <| pc_short_reply_active := short_reply_active r |>) r.
Proof. done. Qed.

(** [m] leaves [f] of the session alone. *)
Definition keeps {X A} (f : CallSession -> X) (m : M A) : Prop :=
  forall r, f (sess (m r).2) = f (sess r).

Section Keeps.
  Context {X : Type} (f : CallSession -> X).

Lemma keeps_ret {A} (x : A) : keeps f (mret x).
Proof. done. Qed.

Lemma keeps_bind {A B} (m : M A) (k : A -> M B) :
  keeps f m -> (forall x, keeps f (k x)) -> keeps f (x ← m; k x).
Proof.
  intros Hm Hk r. unfold mbind, M_bind. specialize (Hm r).
  destruct (m r) as [[x|e] r1]; simpl in *; [|done]. by rewrite Hk.
Qed.

Lemma keeps_modify g : (forall s, f (g s) = f s) -> keeps f (modify g).
Proof. intros H r. apply H. Qed.

Lemma keeps_emit e : keeps f (emit e).
Proof. done. Qed.

Lemma keeps_when b m : keeps f m -> keeps f (when b m).
Proof. by destruct b. Qed.

Lemma keeps_lift {A} (x : result PyErr A) : keeps f (lift x).
Proof. done. Qed.

Lemma keeps_get : keeps f get_session.
Proof. done. Qed.

Lemma keeps_raise {A} e : keeps f (raise (A := A) e).
Proof. done. Qed.

Lemma keeps_attempt {A} (m : M A) : keeps f m -> keeps f (attempt m).
Proof. intros Hm r. specialize (Hm r). unfold attempt. by destruct (m r). Qed.

Lemma keeps_finally {A} (m : M A) c : keeps f m -> keeps f c -> keeps f (finally_ m c).
Proof.
  intros Hm Hc. apply keeps_bind; [by apply keeps_attempt|]. intros o.
  apply keeps_bind; [done|]. intros _. apply keeps_lift.
Qed.
End Keeps.

Create HintDb keep discriminated.
#[export] Hint Constants Opaque : keep.
#[export] Hint Variables Opaque : keep.
#[export] Hint Resolve keeps_ret keeps_emit keeps_lift keeps_get keeps_raise : keep.

(** Walk down a computation, leaving its primitive steps. *)
Ltac keep :=
  repeat lazymatch goal with
  | |- forall _, _ => intro
  | |- keeps _ (mbind _ _) => apply keeps_bind
  | |- keeps _ (if ?b then _ else _) => destruct b
  | |- keeps _ (match ?x with _ => _ end) => destruct x
  | |- keeps _ (let '(_, _) := ?x in _) => destruct x
  | |- keeps _ (modify _) => apply keeps_modify; try reflexivity
  | |- keeps _ (when _ _) => apply keeps_when
  | |- keeps _ (attempt _) => apply keeps_attempt
  | |- keeps _ (finally_ _ _) => apply keeps_finally
  | |- keeps _ _ => solve [auto with keep] || fail 1
  end.

(** The counters of the loop, and the cause a call ends with. *)
Definition counters (s : CallSession) : Z * Z * Z :=
  (consecutive_restructure_count s, silence_activation_count s, wrap_up_round_count s).

Definition cause_and_counters (s : CallSession) : option string * (Z * Z * Z) :=
  (hangup_cause s, counters s).

Definition vitals (s : CallSession) : CallState * (option string * (Z * Z * Z)) :=
  (state s, cause_and_counters s).

(** The same without the cause, which a cancellation sets wherever the call waits. *)
Definition pulse (s : CallSession) : CallState * (Z * Z * Z) := (state s, counters s).

Lemma keeps_cc {A} (m : M A) : keeps vitals m -> keeps cause_and_counters m.
Proof. intros H r. exact (f_equal snd (H r)). Qed.

Lemma keeps_counters {A} (m : M A) : keeps vitals m -> keeps counters m.
Proof. intros H r. exact (f_equal snd (keeps_cc _ H r)). Qed.

Lemma keeps_cause {A} (m : M A) : keeps vitals m -> keeps hangup_cause m.
Proof. intros H r. exact (f_equal fst (keeps_cc _ H r)). Qed.

Lemma keeps_pulse {A} (m : M A) : keeps vitals m -> keeps pulse m.
Proof. intros H r. exact (f_equal (fun v => (v.1, v.2.2)) (H r)). Qed.

Lemma pulse_counters {A} (m : M A) : keeps pulse m -> keeps counters m.
Proof. intros H r. exact (f_equal snd (H r)). Qed.

Lemma keeps_state {A} (m : M A) : keeps pulse m -> keeps state m.
Proof. intros H r. exact (f_equal fst (H r)). Qed.

Lemma keeps_next : keeps pulse next_cancel.
Proof. intros r. unfold next_cancel. by destruct (cancels r) as [|[[[] ?]|] ?]. Qed.

#[export] Hint Resolve keeps_next : keep.

Lemma keeps_awaits : keeps pulse awaits.
Proof. unfold awaits. keep. Qed.

Lemma keeps_awaits_quietly : keeps pulse awaits_quietly.
Proof. unfold awaits_quietly. keep. Qed.

#[export] Hint Resolve keeps_awaits keeps_awaits_quietly : keep.

Section Facts.
  Context (valid_event : event -> bool) (other_str : pyval -> pystr)
    (readable : Z -> bool) (re_search : pystr -> pystr -> bool)
    (registry : option (option pystr -> option pystr -> LLM)) (llm : LLM)
    (referee_clock : pystr -> Z * Z) (default_temperature default_top_p : pyval).

Abbreviation append := (append valid_event other_str).
Abbreviation goto := (goto valid_event other_str).
Abbreviation goto_for := (goto_for valid_event other_str).
Abbreviation hangup_event := (hangup_event valid_event other_str).
Abbreviation cc := cause_and_counters.

(** ** Recording *)

Lemma append_spec now etype fields r :
  etype ∈ TRANSCRIPT_EVENT_TYPES ->
  exists s', append now etype fields r = (Ok tt, r <| sess := s' |>)
    /\ append_event valid_event false other_str now etype fields (sess r) = Ok s'.
Proof.
  intros Hin. unfold RunLoop.append.
  destruct (append_event valid_event false other_str now etype fields (sess r)) as [s'|e] eqn:Ha.
  - by exists s'.
  - unfold append_event in Ha. rewrite bool_decide_eq_true_2, andb_false_r in Ha by done.
    by destruct (dialog_turn_of _ _ _ _).
Qed.

Lemma keeps_append now etype fields : keeps vitals (append now etype fields).
Proof.
  intros r. unfold RunLoop.append.
  destruct (append_event _ _ _ _ _ _ _) as [s'|] eqn:Ha; [|done].
  apply append_event_inv in Ha as [_ ->]. done.
Qed.

Lemma goto_for_spec now new reason r :
  exists s', goto_for now new reason r = (Ok tt, r <| sess := s' |>)
    /\ state s' = new /\ cc s' = cc (sess r).
Proof.
  unfold RunLoop.goto_for.
  destruct (transition_to_completes valid_event other_str now new (Some reason) (sess r))
    as (s' & Ht & Hst). rewrite Ht. exists s'. split_and!; [done|done|].
  unfold transition_to in Ht. case_decide; [by injection Ht as <-|].
  case_bool_decide; simpl in Ht; [by injection Ht as <-|].
  destruct (append_event _ _ _ _ _ _ _) as [s1|] eqn:Ha; [|done]. injection Ht as <-.
  apply append_event_inv in Ha as [_ ->]. done.
Qed.

Lemma keeps_goto_for now new reason : keeps cc (goto_for now new reason).
Proof. intros r. by destruct (goto_for_spec now new reason r) as (s' & -> & _ & H). Qed.

Lemma keeps_goto now new reason : keeps cc (goto now new reason).
Proof. apply keeps_goto_for. Qed.
End Facts.

#[export] Hint Resolve keeps_append keeps_goto_for keeps_goto : keep.

Section Facts2.
  Context (valid_event : event -> bool) (other_str : pyval -> pystr)
    (readable : Z -> bool) (re_search : pystr -> pystr -> bool)
    (registry : option (option pystr -> option pystr -> LLM)) (llm : LLM)
    (referee_clock : pystr -> Z * Z) (default_temperature default_top_p : pyval).

Abbreviation cc := pulse.
#[local] Hint Resolve keeps_pulse : keep.

Lemma keeps_partial_monitor cfg now raw :
  keeps cc (partial_monitor valid_event other_str re_search cfg now raw).
Proof. unfold partial_monitor. keep. Qed.

Lemma keeps_monitor cfg ps : keeps cc (monitor valid_event other_str re_search cfg ps).
Proof.
  induction ps as [|[now raw] ps IH]; simpl; [apply keeps_ret|].
  apply keeps_bind; [apply keeps_partial_monitor|]. intros. by keep.
Qed.

Lemma keeps_play_chunks cfg i p : keeps cc (play_chunks valid_event other_str re_search cfg i p).
Proof. unfold play_chunks. pose proof (keeps_monitor cfg (pl_partials p)). by keep. Qed.

Lemma keeps_play_tts cfg i text p : keeps cc (play_tts valid_event other_str re_search cfg i text p).
Proof. unfold play_tts. pose proof (keeps_play_chunks cfg i p). by keep. Qed.

#[local] Hint Resolve keeps_play_chunks keeps_play_tts keeps_monitor : keep.

Lemma keeps_play_jobs cfg fe jobs plays now :
  keeps cc (play_jobs valid_event other_str re_search cfg fe jobs plays now).
Proof. revert fe plays. induction jobs as [|x jobs IH]; intros fe plays; simpl; by keep. Qed.

Lemma keeps_streaming_cleanup fe : keeps cc (streaming_cleanup fe).
Proof. unfold streaming_cleanup. keep. Qed.

#[local] Hint Resolve keeps_play_jobs keeps_streaming_cleanup : keep.

Lemma keeps_run_filler rc now f : keeps cc (run_filler valid_event other_str rc now f).
Proof.
  destruct f as [[rnd how]|]; [|apply keeps_ret]. intros r. unfold run_filler, Filler.start. simpl.
  destruct (Filler.pick_phrase rnd _ _) as [[phrase|] used]; simpl; [|done].
  unfold Filler.play. destruct how; simpl; try done.
  destruct (append_event _ _ _ _ _ _ _) as [s'|] eqn:Ha; [|done].
  apply append_event_inv in Ha as [_ ->]. done.
Qed.

(** What the default reply does to the session. *)
Lemma sentences_keeps now rnd s st out res s' :
  sentences other_str readable (append_event valid_event false other_str now) rnd s st
    = Ok (out, res, s') ->
  cc s' = cc s.
Proof.
  unfold sentences, with_default. destruct (generate_core _ _ _ _) as [o r0].
  case_decide; [|by intros [= _ _ <-]].
  destruct (append_event _ _ _ _ _ _ _) as [s1|] eqn:Ha; simpl; [|done].
  intros [= _ _ <-]. apply append_event_inv in Ha as [_ ->]. done.
Qed.

Lemma keeps_play_streaming rc now rnd route fe st ry :
  keeps cc (play_streaming valid_event other_str readable re_search rc now rnd route fe st ry).
Proof.
  unfold play_streaming. pose proof (keeps_run_filler rc now (ry_filler ry)).
  apply keeps_bind; [by keep|]. intros _ r. rewrite bind_get.
  destruct (sentences other_str readable _ rnd (sess r) st) as [[[out res] s']|] eqn:Hs; [|done].
  apply sentences_keeps in Hs as Hcc. rewrite bind_modify, <-Hcc.
  match goal with |- context [?m (set_field sess _ r)] =>
    assert (Hm : keeps cc m) by keep; exact (Hm (r <| sess := s' |>)) end.
Qed.

Lemma keeps_start_stream s u c l1 l2 w rt :
  cc (start_stream registry referee_clock s u c l1 l2 w rt).2 = cc s.
Proof. done. Qed.

#[local] Hint Resolve keeps_play_streaming : keep.

Lemma keeps_ai_reply now t i r g gt w : keeps cc (ai_reply valid_event other_str now t i r g gt w).
Proof. unfold ai_reply. keep. Qed.

Lemma keeps_hangup_event now a b : keeps cc (hangup_event valid_event other_str now a b).
Proof. unfold hangup_event. keep. Qed.

Lemma keeps_pipeline_of rc : keeps cc (pipeline_of rc).
Proof. done. Qed.

Lemma keeps_set_short b : keeps cc (set_short_reply b).
Proof. done. Qed.

#[local] Hint Resolve keeps_ai_reply keeps_hangup_event keeps_pipeline_of keeps_set_short : keep.

Lemma keeps_run_restructure rc te text trig :
  keeps cc (run_restructure valid_event other_str readable re_search registry llm referee_clock
              rc te text trig).
Proof.
  unfold run_restructure. intros r. rewrite bind_pipeline_of, bind_get.
  destruct (run_restructure_stream registry referee_clock (sess r) text _ llm) as [st s1] eqn:Hst.
  assert (Hc : cc s1 = cc (sess r)) by (injection Hst as _ <-; done).
  rewrite bind_modify, <-Hc.
  match goal with |- context [?m (set_field sess _ r)] =>
    assert (Hm : keeps cc m) by (unfold add_trace; keep); exact (Hm (r <| sess := s1 |>)) end.
Qed.

Lemma keeps_cancel_candidates kept cands : keeps cc (cancel_candidates kept cands).
Proof.
  unfold cancel_candidates. induction (List.filter _ cands) as [|x l IH]; simpl; [apply keeps_ret|]. by keep.
Qed.

Lemma keeps_assemble src : keeps cc (assemble_interrupt_text src).
Proof. unfold assemble_interrupt_text. keep. Qed.

Lemma keeps_take_interruption : keeps cc take_interruption.
Proof. unfold take_interruption. keep. Qed.

Lemma keeps_await rc h w now : keeps cc (await_user_or_silence rc h w now).
Proof. unfold await_user_or_silence. keep. Qed.

(** ** Cancellation *)

(** [m] consumes a part of what is to hit the call's waits: it is cancelled only by an entry
    of that part, or for [P]; a cause once recorded is not lost, and an operator's command
    leaves one. *)
Definition heeds_if {A} (P : Prop) (m : M A) : Prop := forall r, exists l,
  cancels r = l ++ cancels (m r).2
  /\ ((m r).1 = Err Cancelled -> P \/ exists c, Some c ∈ l)
  /\ (is_Some (hangup_cause (sess r)) \/ (exists late, Some (ByOperator, late) ∈ l) ->
      is_Some (hangup_cause (sess (m r).2))).

Abbreviation heeds := (heeds_if False).

Lemma heeds_still {A} P (m : M A) :
  (forall r, cancels (m r).2 = cancels r) ->
  (forall r, is_Some (hangup_cause (sess r)) -> is_Some (hangup_cause (sess (m r).2))) ->
  (forall r, (m r).1 = Err Cancelled -> P) -> heeds_if P m.
Proof.
  intros Hc Hs HP r. exists []. split_and!; [by rewrite Hc|by left; eapply HP|].
  intros [H|[late H%elem_of_nil]]; [by apply Hs|done].
Qed.

Lemma heeds_bind {A B} P (m : M A) (k : A -> M B) :
  heeds_if P m -> (forall x, heeds_if P (k x)) -> heeds_if P (x ← m; k x).
Proof.
  intros Hm Hk r. destruct (Hm r) as (l1 & H1 & C1 & S1). unfold mbind, M_bind.
  destruct (m r) as [[x|e] r1]; simpl in *; [|exists l1; split_and!; [done|naive_solver|done]].
  destruct (Hk x r1) as (l2 & H2 & C2 & S2). exists (l1 ++ l2). split_and!.
  - by rewrite H1, H2, app_assoc.
  - intros [HP|[c Hc]]%C2; [by left|right]. exists c. apply elem_of_app. by right.
  - intros H. apply S2. destruct H as [H|[late [H|H]%elem_of_app]]; [left; auto|left; eauto|eauto].
Qed.

(** [try]: the handler of [Err Cancelled] may raise it again. *)
Lemma heeds_try {A B} P (m : M A) (k : result PyErr A -> M B) :
  heeds_if P m -> (forall x, heeds_if P (k (Ok x))) ->
  (forall e, heeds_if (P \/ e = Cancelled) (k (Err e))) -> heeds_if P (o ← attempt m; k o).
Proof.
  intros Hm Hk He r. destruct (Hm r) as (l1 & H1 & C1 & S1). unfold mbind, M_bind, attempt.
  destruct (m r) as [o r1]; simpl in *.
  assert (Ho : heeds_if (P \/ o = Err Cancelled) (k o)).
  { destruct o as [x|e].
    - intros r2. destruct (Hk x r2) as (l & ? & Hc & ?). exists l. split_and!; [done| |done]. tauto.
    - intros r2. destruct (He e r2) as (l & ? & Hc & ?). exists l. split_and!; [done| |done].
      intros [[?| ->]|?]%Hc; auto. }
  destruct (Ho r1) as (l2 & H2 & C2 & S2). exists (l1 ++ l2). split_and!.
  - by rewrite H1, H2, app_assoc.
  - setoid_rewrite elem_of_app. intros [[HP|HP%C1]|[c Hc]]%C2; [by left|naive_solver|eauto].
  - intros H. apply S2. destruct H as [H|[late [H|H]%elem_of_app]]; [left; auto|left; eauto|eauto].
Qed.

Lemma heeds_finally {A} P (m : M A) c :
  heeds_if P m -> (forall Q, heeds_if Q c) -> heeds_if P (finally_ m c).
Proof.
  intros Hm Hc. apply heeds_try; [done| |]; intros x; (apply heeds_bind; [done|intros _]);
    apply heeds_still; try done. intros r [= ->]. by right.
Qed.

Lemma heeds_weaken {A} (P Q : Prop) (m : M A) : (P -> Q) -> heeds_if P m -> heeds_if Q m.
Proof. intros HPQ Hm r. destruct (Hm r) as (l & ? & Hc & ?). exists l. split_and!; [done|tauto|done]. Qed.

Lemma heeds_modify P g : (forall s, is_Some (hangup_cause s) -> is_Some (hangup_cause (g s))) -> heeds_if P (modify g).
Proof. intros Hg. apply heeds_still; [done| |done]. intros r. apply Hg. Qed.

Lemma heeds_when P b m : heeds_if P m -> heeds_if P (when b m).
Proof. destruct b; [done|]. intros _. by apply heeds_still. Qed.

(** What hits a wait; a handler may raise the cancellation again. *)
Lemma heeds_hit {B} P (k : option (Cancel * bool) -> M B) :
  heeds_if P (k None) -> (forall x, heeds_if True (k (Some x))) -> heeds_if P (o ← next_cancel; k o).
Proof.
  intros Hn Hs r. unfold mbind, M_bind, next_cancel. destruct (cancels r) as [|[x|] cs] eqn:Hr.
  - destruct (Hn r) as (l & Hl & ?). exists l. by rewrite <-Hr.
  - match goal with |- context [k (Some x) ?r1] => set (r2 := r1) end.
    destruct (Hs x r2) as (l & Hl & _ & Sl). exists (Some x :: l).
    split_and!; [simpl; f_equal; exact Hl|intros _; right; exists x; by constructor|].
    intros H. apply Sl. destruct x as [[] late]; simpl.
    + left. by eexists.
    + destruct H as [H|[la [?|H]%elem_of_cons]]; [by left|done|right; by exists la].
  - match goal with |- context [k None ?r1] => set (r2 := r1) end.
    destruct (Hn r2) as (l & Hl & Cl & Sl). exists (None :: l).
    split_and!; [simpl; f_equal; exact Hl| |].
    + intros [HP|[c Hc]]%Cl; [by left|right]. exists c. by constructor.
    + intros H. apply Sl. destruct H as [H|[la [?|H]%elem_of_cons]]; [by left|done|right; by exists la].
Qed.

Lemma heeds_ret {A} P (x : A) : heeds_if P (mret x).
Proof. by apply heeds_still. Qed.

Lemma heeds_awaits P : heeds_if P awaits.
Proof. apply heeds_hit; [apply heeds_ret|]. intros x. by apply heeds_still. Qed.

Lemma heeds_awaits_quietly P : heeds_if P awaits_quietly.
Proof. apply heeds_hit; intros; apply heeds_ret. Qed.

Lemma heeds_vitals {A} P (m : M A) :
  (forall r, cancels (m r).2 = cancels r) -> keeps hangup_cause m ->
  (forall r, (m r).1 <> Err Cancelled) -> heeds_if P m.
Proof. intros Hc Hk He. apply heeds_still; [done| |by intros r H%He]. intros r. by rewrite Hk. Qed.

Lemma heeds_append P now t f : heeds_if P (append valid_event other_str now t f).
Proof.
  apply heeds_vitals; [|apply keeps_cause, keeps_append|]; intros r; unfold append;
    by destruct (append_event _ _ _ _ _ _ _).
Qed.

Lemma heeds_goto_for P now n x : heeds_if P (goto_for valid_event other_str now n x).
Proof.
  apply heeds_vitals; [|intros r; exact (f_equal fst (keeps_goto_for _ _ _ _ _ r))|]; intros r;
    unfold goto_for; by destruct (transition_to _ _ _ _ _ _ _).
Qed.

Create HintDb heed discriminated.
#[export] Hint Constants Opaque : heed.
#[export] Hint Variables Opaque : heed.

Ltac heed :=
  repeat lazymatch goal with
  | |- forall _, _ => intro
  | |- heeds_if _ (o ← attempt _; _) => apply heeds_try
  | |- heeds_if _ (o ← next_cancel; _) => apply heeds_hit
  | |- heeds_if _ (mbind _ _) => apply heeds_bind
  | |- heeds_if _ (finally_ _ _) => apply heeds_finally
  | |- heeds_if _ (when _ _) => apply heeds_when
  | |- heeds_if _ (append _ _ _ _ _) => apply heeds_append
  | |- heeds_if _ (goto _ _ _ _ _) => apply heeds_goto_for
  | |- heeds_if _ (goto_for _ _ _ _ _) => apply heeds_goto_for
  | |- heeds_if _ (hangup_event _ _ _ _ _) => apply heeds_append
  | |- heeds_if _ (ai_reply _ _ _ _ _ _ _ _ _) => apply heeds_append
  | |- heeds_if _ awaits => apply heeds_awaits
  | |- heeds_if _ awaits_quietly => apply heeds_awaits_quietly
  | |- heeds_if _ (modify _) => apply heeds_modify; simpl; solve [auto | by eexists]
  | |- heeds_if _ (raise _) =>
      apply heeds_still; [done|done|let H := fresh in intros ? H; simplify_eq/=; tauto]
  | |- heeds_if _ (mret _) => apply heeds_ret
  | |- heeds_if _ (if ?b then _ else _) => destruct b
  | |- heeds_if _ (match ?x with _ => _ end) => destruct x
  | |- heeds_if _ (emit _) => by apply heeds_still
  | |- heeds_if _ get_session => by apply heeds_still
  | |- heeds_if _ (pipeline_of _) => by apply heeds_still
  | |- heeds_if _ (set_short_reply _) => by apply heeds_still
  | |- heeds_if _ _ => solve [auto with heed nocore]
  end.

Lemma heeds_monitor P cfg ps : heeds_if P (monitor valid_event other_str re_search cfg ps).
Proof. induction ps as [|[now raw] ps IH]; simpl; [apply heeds_ret|]. unfold partial_monitor. heed. Qed.

Lemma heeds_play_chunks P cfg i p : heeds_if P (play_chunks valid_event other_str re_search cfg i p).
Proof. pose proof heeds_monitor. unfold play_chunks. heed. Qed.

Lemma heeds_play_tts P cfg i t p : heeds_if P (play_tts valid_event other_str re_search cfg i t p).
Proof. pose proof heeds_play_chunks. unfold play_tts. heed. Qed.

(** ** How a call ends *)

(** The call is over, for a recorded cause, and its last transcript event says so. *)
Definition ended (s : CallSession) : Prop :=
  state s = END_ /\ is_Some (hangup_cause s)
  /\ exists pre ev, full_transcript s = pre ++ [ev] /\ event_type ev = u8 "hangup".

(** If [m] returns, its final session satisfies [Q]. *)
Definition post {A} (m : M A) (Q : A -> CallSession -> Prop) : Prop :=
  forall r x r', m r = (Ok x, r') -> Q x (sess r').

Lemma post_bind {A B} (m : M A) (k : A -> M B) Q : (forall x, post (k x) Q) -> post (x ← m; k x) Q.
Proof.
  intros Hk r x r' H. apply bind_ok in H as [(y & r1 & _ & H)|(e & _ & H)]; [|done]. by eapply Hk.
Qed.

Lemma hangup_event_ends now a b r :
  state (sess r) = END_ -> is_Some (hangup_cause (sess r)) ->
  exists s', hangup_event valid_event other_str now a b r = (Ok tt, r <| sess := s' |>) /\ ended s'.
Proof.
  intros Hst Hc. unfold hangup_event.
  edestruct (append_spec valid_event other_str now "hangup") as (s' & Heq & Ha);
    [|exists s'; split; [exact Heq|]]; [apply list_elem_of_In; simpl; tauto|].
  apply append_event_inv in Ha as [_ ->]. split_and!; [done|done|].
  eexists _, _. split; [reflexivity|]. apply event_type_base; [|done].
  apply NoDup_ListNoDup. simpl. repeat constructor; simpl; intuition discriminate.
Qed.

(** The three ways the code closes a call. *)
Lemma close_with_cause now a c b d :
  post (goto valid_event other_str now END_ a;;
        modify (fun s => s <| hangup_cause := Some c |>);;
        hangup_event valid_event other_str now b d) (fun _ s => ended s).
Proof.
  intros r x r' H. unfold goto in H.
  destruct (goto_for_spec valid_event other_str now END_ (u8 a) r) as (s' & Heq & Hst & _).
  apply bind_ok in H as [(y & r1 & Hg & H)|(e & _ & ?)]; [|done]. rewrite Heq in Hg.
  injection Hg as _ <-. rewrite bind_modify in H.
  match type of H with hangup_event _ _ _ _ _ ?r1 = _ =>
    destruct (hangup_event_ends now b d r1) as (s2 & Heq2 & He); [done|by eexists|] end.
  pose proof (eq_trans (eq_sym Heq2) H) as [= _ <-]. exact He.
Qed.

Lemma close_keeping_cause now a b d r x r' :
  is_Some (hangup_cause (sess r)) ->
  (goto valid_event other_str now END_ a;; hangup_event valid_event other_str now b d) r = (Ok x, r') ->
  ended (sess r').
Proof.
  intros Hc H. unfold goto in H.
  destruct (goto_for_spec valid_event other_str now END_ (u8 a) r) as (s' & Heq & Hst & Hcc).
  apply bind_ok in H as [(y & r1 & Hg & H)|(e & _ & ?)]; [|done]. rewrite Heq in Hg.
  injection Hg as _ <-.
  destruct (hangup_event_ends now b d (r <| sess := s' |>)) as (s2 & Heq2 & He); [done| |].
  { change (is_Some (cause_and_counters s').1). by rewrite Hcc. }
  pose proof (eq_trans (eq_sym Heq2) H) as [= _ <-]. exact He.
Qed.

Lemma bind_assoc {A B C} (m : M A) (k : A -> M B) (h : B -> M C) r :
  (y ← (x ← m; k x); h y) r = (x ← m; y ← k x; h y) r.
Proof. unfold mbind, M_bind. by destruct (m r) as [[x|e] r1]. Qed.

(** Returning after [m] leaves what [m] left. *)
Lemma post_ret {A B} (m : M A) (b : B) (Q : CallSession -> Prop) :
  post m (fun _ => Q) -> post (m;; mret b) (fun _ => Q).
Proof.
  intros Hm r x r' H. apply bind_ok in H as [(y & r1 & Hy & H)|(e & _ & ?)]; [|done].
  injection H as _ <-. by eapply Hm.
Qed.

Lemma perform_handoff_ends cfg now trig detail phrase p :
  post (perform_handoff valid_event other_str re_search cfg now trig detail phrase p)
    (fun _ s => ended s).
Proof. unfold perform_handoff. do 7 (apply post_bind; intros _). apply close_with_cause. Qed.

(** A step that says [RETURN] has ended the call. *)
Definition return_ends (d : Directive) (s : CallSession) : Prop := d = RETURN -> ended s.

Lemma bind_assoc3 {A B C D} (m1 : M A) (m2 : M B) (m3 : M C) (b : D) r :
  (m1;; m2;; m3;; mret b) r = ((m1;; m2;; m3);; mret b) r.
Proof.
  unfold mbind, M_bind. destruct (m1 r) as [[]r1]; [|done]. by destruct (m2 r1) as [[] r2].
Qed.

Lemma close_returns now a c b d :
  post (goto valid_event other_str now END_ a;;
        modify (fun s => s <| hangup_cause := Some c |>);;
        hangup_event valid_event other_str now b d;; mret RETURN) return_ends.
Proof.
  intros r x r' H _. rewrite bind_assoc3 in H. revert H.
  apply (post_ret _ RETURN (fun s => ended s)). apply close_with_cause.
Qed.

Lemma handoff_returns cfg now trig detail phrase p :
  post (perform_handoff valid_event other_str re_search cfg now trig detail phrase p;; mret RETURN)
    return_ends.
Proof. intros r x r' H _. revert H. apply (post_ret _ RETURN (fun s => ended s)), perform_handoff_ends. Qed.

Lemma post_continue : post (mret CONTINUE) return_ends.
Proof. by intros r x r' [= <- _]. Qed.

Lemma carry_cause {A B} (m : M A) (k : A -> M B) (Q : B -> CallSession -> Prop) :
  heeds m ->
  (forall x r y r', is_Some (hangup_cause (sess r)) -> k x r = (Ok y, r') -> Q y (sess r')) ->
  forall r y r', is_Some (hangup_cause (sess r)) -> (x ← m; k x) r = (Ok y, r') -> Q y (sess r').
Proof.
  intros Hm Hk r y r' Hc H. apply bind_ok in H as [(x & r1 & Hx & H)|(e & _ & ?)]; [|done].
  apply (Hk x r1); [|done]. destruct (Hm r) as (l & _ & _ & Hs). rewrite Hx in Hs. apply Hs. by left.
Qed.

Lemma close_keeping_returns now a b d r x r' :
  is_Some (hangup_cause (sess r)) ->
  (goto valid_event other_str now END_ a;; hangup_event valid_event other_str now b d;; mret RETURN) r
    = (Ok x, r') -> return_ends x (sess r').
Proof.
  intros Hc H _. rewrite <-bind_assoc in H.
  apply bind_ok in H as [(y & r1 & Hy & H)|(e & _ & ?)]; [|done]. injection H as _ <-.
  by eapply close_keeping_cause.
Qed.

Lemma tool_turn_ends rc te ty sel trace :
  post (tool_turn valid_event other_str re_search rc te ty sel trace) return_ends.
Proof.
  destruct ty; unfold tool_turn.
  - intros r x r'. rewrite bind_modify. apply carry_cause with (Q := return_ends); [| |by eexists].
    + pose proof heeds_play_tts. heed.
    + intros _ r1 x1 r1'. apply carry_cause with (Q := return_ends); [unfold add_trace; heed|].
      intros _ r2 x2 r2'. apply close_keeping_returns.
  - apply post_bind. intros _. apply handoff_returns.
Qed.

Lemma set_then_close now a b d c :
  post (modify (fun s => s <| hangup_cause := Some c |>);;
        goto valid_event other_str now END_ a;; hangup_event valid_event other_str now b d;; mret RETURN)
    return_ends.
Proof. intros r x r'. rewrite bind_modify. apply close_keeping_returns. by eexists. Qed.

(** Walk down a turn to where it returns. *)
Ltac returns :=
  repeat lazymatch goal with
  | |- forall _, _ => intro
  | |- post (mret CONTINUE) _ => apply post_continue
  | |- post (goto _ _ _ END_ _;; modify _;; hangup_event _ _ _ _ _;; mret RETURN) _ => apply close_returns
  | |- post (modify _;; goto _ _ _ END_ _;; hangup_event _ _ _ _ _;; mret RETURN) _ => apply set_then_close
  | |- post (perform_handoff _ _ _ _ _ _ _ _ _;; mret RETURN) _ => apply handoff_returns
  | |- post (tool_turn _ _ _ _ _ _ _ _) _ => apply tool_turn_ends
  | |- post (mbind _ _) _ => apply post_bind
  | |- post (if ?b then _ else _) _ => destruct b
  | |- post (match ?x with _ => _ end) _ => destruct x
  | |- post (let '(_, _) := ?x in _) _ => destruct x
  end.

(** The lemma for the turn, or the route, of the goal. *)
Ltac by_turn wrap_up gated :=
  lazymatch goal with
  | |- context [gated_wrap_up_turn] => apply wrap_up
  | |- context [gated_turn] => apply gated
  end.

Ltac by_route tool restructure dialogue :=
  lazymatch goal with
  | |- context [tool_turn] => apply tool
  | |- context [restructure_turn] => apply restructure
  | |- context [dialogue_turn] => apply dialogue
  end.

Lemma restructure_turn_ends rc te sel trace :
  post (restructure_turn valid_event other_str readable re_search registry llm referee_clock
          rc te sel trace) return_ends.
Proof. unfold restructure_turn. returns. Qed.

Lemma dialogue_turn_ends rc te u main cands sel trace :
  post (dialogue_turn valid_event other_str readable re_search registry llm rc te u main cands sel trace)
    return_ends.
Proof. unfold dialogue_turn. returns. Qed.

Lemma gated_turn_ends rc u te :
  post (gated_turn valid_event other_str readable re_search registry llm referee_clock rc u te)
    return_ends.
Proof.
  unfold gated_turn. returns; [apply restructure_turn_ends|apply dialogue_turn_ends].
Qed.

Lemma gated_wrap_up_turn_ends rc u te :
  post (gated_wrap_up_turn valid_event other_str readable re_search registry llm referee_clock
          default_temperature default_top_p rc u te) return_ends.
Proof.
  unfold gated_wrap_up_turn. cbv zeta. returns.
Qed.

Lemma user_turn_ends rc e u :
  post (user_turn valid_event other_str readable re_search registry llm referee_clock
          default_temperature default_top_p rc e u) return_ends.
Proof.
  unfold user_turn. cbv zeta. returns; by_turn gated_wrap_up_turn_ends gated_turn_ends.
Qed.

Lemma iteration_ends rc e :
  post (iteration valid_event other_str readable re_search registry llm referee_clock
          default_temperature default_top_p rc e) return_ends.
Proof. unfold iteration. cbv zeta. returns. apply user_turn_ends. Qed.

(** ** A call that goes on is not over *)

Definition alive {A} (m : M A) : Prop :=
  forall r x r', state (sess r) <> END_ -> m r = (Ok x, r') -> state (sess r') <> END_.

Definition goes_on (m : M Directive) : Prop :=
  forall r r', state (sess r) <> END_ -> m r = (Ok CONTINUE, r') -> state (sess r') <> END_.

Lemma keeps_alive {A} (m : M A) : keeps pulse m -> alive m.
Proof.
  intros Hm%keeps_state r x r' Hs H. specialize (Hm r). rewrite H in Hm. simpl in Hm. congruence.
Qed.

Lemma alive_modify g : (forall s, state (g s) = state s) -> alive (modify g).
Proof. intros Hg r x r' Hs [= _ <-]. simpl. by rewrite Hg. Qed.

Lemma alive_bind {A B} (m : M A) (k : A -> M B) :
  alive m -> (forall x, alive (k x)) -> alive (x ← m; k x).
Proof.
  intros Hm Hk r x r' Hs H. apply bind_ok in H as [(y & r1 & Hy & H)|(e & _ & ?)]; [|done].
  eapply Hk; [|exact H]. by eapply Hm.
Qed.

Lemma goes_on_bind {A} (m : M A) (k : A -> M Directive) :
  alive m -> (forall x, goes_on (k x)) -> goes_on (x ← m; k x).
Proof.
  intros Hm Hk r r' Hs H. apply bind_ok in H as [(y & r1 & Hy & H)|(e & _ & ?)]; [|done].
  eapply Hk; [|exact H]. by eapply Hm.
Qed.

Lemma alive_in_call now reason : alive (goto valid_event other_str now IN_CALL reason).
Proof.
  intros r x r' Hs H. unfold goto in H.
  destruct (goto_for_spec valid_event other_str now IN_CALL (u8 reason) r) as (s' & Heq & Hst & _).
  rewrite Heq in H. injection H as _ <-. change (state s' <> END_). by rewrite Hst.
Qed.

Lemma alive_in_call_for now reason : alive (goto_for valid_event other_str now IN_CALL reason).
Proof.
  intros r x r' Hs H.
  destruct (goto_for_spec valid_event other_str now IN_CALL reason r) as (s' & Heq & Hst & _).
  rewrite Heq in H. injection H as _ <-. change (state s' <> END_). by rewrite Hst.
Qed.

(** A computation all of whose paths say [RETURN]. *)
Definition only_returns (m : M Directive) : Prop := forall r r', m r <> (Ok CONTINUE, r').

Lemma only_returns_bind {A} (m : M A) (k : A -> M Directive) :
  (forall x, only_returns (k x)) -> only_returns (x ← m; k x).
Proof.
  intros Hk r r' H. apply bind_ok in H as [(y & r1 & _ & H)|(e & _ & ?)]; [|done]. by eapply Hk.
Qed.

Lemma only_returns_ret : only_returns (mret RETURN).
Proof. by intros r r' [=]. Qed.

Lemma only_returns_goes_on m : only_returns m -> goes_on m.
Proof. intros H r r' _ Hc. by apply H in Hc. Qed.

Lemma goes_on_ret d : goes_on (mret d).
Proof. by intros r r' Hs [= _ <-]. Qed.

(** Replacing the session by one with the same vital signs. *)
Lemma goes_on_swap {X} (f : CallSession -> X * CallSession)
  (k : CallSession -> X -> CallSession -> M Directive) :
  (forall s, vitals (f s).2 = vitals s) -> (forall s x s1, goes_on (k s x s1)) ->
  goes_on (s ← get_session; let '(x, s1) := f s in modify (fun _ => s1);; k s x s1).
Proof.
  intros Hf Hk r r' Hs H. rewrite bind_get in H. specialize (Hf (sess r)).
  destruct (f (sess r)) as [x s1]. rewrite bind_modify in H. eapply Hk; [|exact H].
  change (state s1 <> END_). by injection Hf as ->.
Qed.

#[local] Hint Resolve keeps_take_interruption keeps_assemble keeps_run_restructure keeps_cancel_candidates : keep.

Ltac lives :=
  repeat lazymatch goal with
  | |- forall _, _ => intro
  | |- goes_on (mret _) => apply goes_on_ret
  | |- goes_on (mbind _ _) =>
      first [apply only_returns_goes_on; repeat (apply only_returns_bind; intros ?);
             apply only_returns_ret
            |apply goes_on_bind]
  | |- goes_on (if ?b then _ else _) => destruct b
  | |- goes_on (match ?x with _ => _ end) => destruct x
  | |- goes_on (let '(_, _) := ?x in _) => destruct x
  | |- alive (goto _ _ _ IN_CALL _) => apply alive_in_call
  | |- alive (goto_for _ _ _ IN_CALL _) => apply alive_in_call_for
  | |- alive (if ?b then _ else _) => destruct b
  | |- alive (mbind _ _) => apply alive_bind
  | |- alive (modify _) => apply alive_modify; reflexivity
  | |- alive _ => apply keeps_alive; unfold add_trace, count_tokens, record_verdict; keep
  end.

Lemma tool_turn_goes_on rc te ty sel trace :
  goes_on (tool_turn valid_event other_str re_search rc te ty sel trace).
Proof. unfold tool_turn. lives. Qed.

Lemma restructure_turn_goes_on rc te sel trace :
  goes_on (restructure_turn valid_event other_str readable re_search registry llm referee_clock
             rc te sel trace).
Proof. unfold restructure_turn. lives. Qed.

Lemma dialogue_turn_goes_on rc te u main cands sel trace :
  goes_on (dialogue_turn valid_event other_str readable re_search registry llm rc te u main cands sel trace).
Proof. unfold dialogue_turn. cbv zeta. lives. Qed.

Lemma gated_turn_goes_on rc u te :
  goes_on (gated_turn valid_event other_str readable re_search registry llm referee_clock rc u te).
Proof.
  unfold gated_turn. cbv zeta. apply goes_on_bind; [by lives|intros _].
  apply goes_on_bind; [by lives|intros c].
  apply (goes_on_swap (fun s => run_pipeline_stream registry referee_clock s u c llm llm false));
    [done|intros s0 main s1].
  lives; by_route tool_turn_goes_on restructure_turn_goes_on dialogue_turn_goes_on.
Qed.

Lemma gated_wrap_up_turn_goes_on rc u te :
  goes_on (gated_wrap_up_turn valid_event other_str readable re_search registry llm referee_clock
             default_temperature default_top_p rc u te).
Proof.
  unfold gated_wrap_up_turn. cbv zeta. apply goes_on_bind; [by lives|intros c].
  apply (goes_on_swap (fun s => run_pipeline_stream registry referee_clock s u c llm llm true));
    [done|intros s0 st s1]. lives.
Qed.

Lemma user_turn_goes_on rc e u :
  goes_on (user_turn valid_event other_str readable re_search registry llm referee_clock
             default_temperature default_top_p rc e u).
Proof.
  unfold user_turn. cbv zeta.
  lives; by_turn gated_wrap_up_turn_goes_on gated_turn_goes_on.
Qed.

Lemma iteration_goes_on rc e :
  goes_on (iteration valid_event other_str readable re_search registry llm referee_clock
             default_temperature default_top_p rc e).
Proof.
  unfold iteration. cbv zeta. apply goes_on_bind; [apply keeps_alive, keeps_await|].
  intros o. destruct o; lives. apply user_turn_goes_on.
Qed.

Lemma main_turn_loop_spec rc es r b r' :
  state (sess r) <> END_ ->
  main_turn_loop valid_event other_str readable re_search registry llm referee_clock
    default_temperature default_top_p rc es r = (Ok b, r') ->
  if b then ended (sess r') else state (sess r') <> END_.
Proof.
  revert r. induction es as [|e es IH]; intros r Hs; simpl; rewrite bind_get, decide_False by done.
  - by intros [= <- <-].
  - intros H. apply bind_ok in H as [(d & r1 & Hd & H)|(e' & _ & ?)]; [|done]. destruct d.
    + apply (IH r1); [|done]. by eapply iteration_goes_on.
    + injection H as <- <-. by eapply iteration_ends.
Qed.

Lemma internal_error_ends now r :
  exists r', internal_error valid_event other_str now r = (Ok true, r') /\ ended (sess r').
Proof.
  unfold internal_error. rewrite bind_get.
  assert (Hgo : exists r1, (if decide (state (sess r) = END_) then mret tt
      else goto valid_event other_str now END_ "engine_internal_error") r = (Ok tt, r1)
      /\ state (sess r1) = END_).
  { case_decide; [by exists r|]. unfold goto.
    destruct (goto_for_spec valid_event other_str now END_ (u8 "engine_internal_error") r)
      as (s' & Heq & Hst & _). exists (r <| sess := s' |>). by split. }
  destruct Hgo as (r1 & Hgo & Hst). unfold mbind at 1, M_bind at 1. rewrite Hgo.
  rewrite bind_modify, bind_get. set (r2 := set_field sess _ r1).
  assert (H2 : state (sess r2) = END_ /\ is_Some (hangup_cause (sess r2))).
  { subst r2. simpl. destruct (hangup_cause (sess r1)) eqn:Hc; simpl; by rewrite ?Hc. }
  destruct H2 as [H2s H2c].
  destruct (hangup_event_ends now (default ""%string (hangup_cause (sess r2))) "ai" r2 H2s H2c)
    as (s3 & Heq & He).
  exists (r2 <| sess := s3 |>). split; [|exact He].
  unfold mbind at 1, M_bind at 1. by rewrite Heq.
Qed.

(** The answer of a loop: over, and properly, or still going on. *)
Definition answers (m : M bool) : Prop :=
  forall r b r', state (sess r) <> END_ -> m r = (Ok b, r') ->
  if b then ended (sess r') else state (sess r') <> END_.

Lemma answers_bind {A} (m : M A) (k : A -> M bool) :
  alive m -> (forall x, answers (k x)) -> answers (x ← m; k x).
Proof.
  intros Hm Hk r b r' Hs H. apply bind_ok in H as [(y & r1 & Hy & H)|(e & _ & ?)]; [|done].
  eapply Hk; [|exact H]. by eapply Hm.
Qed.

Lemma keeps_do_greeting rc se :
  keeps pulse (do_greeting valid_event other_str re_search registry llm rc se).
Proof. unfold do_greeting. cbv zeta. keep. Qed.

Lemma talk_answers rc se es :
  answers (talk valid_event other_str readable re_search registry llm referee_clock
             default_temperature default_top_p rc se es).
Proof.
  unfold talk. cbv zeta. pose proof (keeps_do_greeting rc se).
  do 7 (apply answers_bind; [lives|intros _]).
  intros r b r'. apply main_turn_loop_spec.
Qed.

Lemma no_answer_answers now : answers (no_answer valid_event other_str now).
Proof.
  intros r b r' _ H. unfold no_answer in H. rewrite bind_assoc3 in H.
  apply bind_ok in H as [(x & r1 & Hx & H)|(e & _ & ?)]; [|done].
  injection H as <- <-. by eapply close_with_cause.
Qed.

(** A wait that is not hit changes nothing. *)
Lemma awaits_cases r :
  (exists r', awaits r = (Ok tt, r') /\ sess r' = sess r) \/ (exists r', awaits r = (Err Cancelled, r')).
Proof. unfold awaits, next_cancel, mbind, M_bind. destruct (cancels r) as [|[x|] cs]; [left|right|left]; by eexists. Qed.

(** How a run of the session may come out. *)
Definition outcome_ok (o : result PyErr bool) (s : CallSession) : Prop :=
  match o with
  | Ok true => ended s
  | Ok false => state s <> END_
  | Err e => e = Cancelled
  end.

Lemma finally_outcome (m : M bool) listening r :
  outcome_ok (m r).1 (sess (m r).2) ->
  let '(o, r') := finally_ m (when listening awaits;; awaits) r in outcome_ok o (sess r').
Proof.
  intros Hm. unfold finally_. unfold attempt, mbind at 1, M_bind at 1.
  destruct (m r) as [o r1]. simpl in Hm. unfold mbind at 1, M_bind at 1.
  assert (Hw : (exists r', (when listening awaits;; awaits) r1 = (Ok tt, r') /\ sess r' = sess r1)
               \/ (exists r', (when listening awaits;; awaits) r1 = (Err Cancelled, r'))).
  { unfold mbind, M_bind. destruct listening; [|apply awaits_cases]. simpl.
    destruct (awaits_cases r1) as [(r2 & -> & <-)|(r2 & ->)]; [apply awaits_cases|right; by exists r2]. }
  destruct Hw as [(r2 & -> & Hr)|(r2 & ->)]; [|done]. unfold lift. by rewrite Hr.
Qed.

Lemma settle_outcome now listening m r :
  answers m -> state (sess r) <> END_ ->
  let '(o, r') := settle valid_event other_str now listening m r in outcome_ok o (sess r').
Proof.
  intros Hm Hs. apply finally_outcome. unfold attempt, mbind, M_bind.
  specialize (Hm r). destruct (m r) as [[b|e] r1]; simpl.
  - specialize (Hm b r1 Hs eq_refl). by destruct b.
  - assert (Hi : outcome_ok (internal_error valid_event other_str now r1).1
                   (sess (internal_error valid_event other_str now r1).2)).
    { by destruct (internal_error_ends now r1) as (r2 & -> & He). }
    destruct e; try exact Hi. done.
Qed.

Lemma run_session_outcome rc se es r :
  state (sess r) = INIT ->
  let '(o, r') := run_session valid_event other_str readable re_search registry llm referee_clock
                    default_temperature default_top_p rc se es r in outcome_ok o (sess r').
Proof.
  intros Hs. unfold run_session. rewrite bind_modify. set (r0 := set_field sess _ r).
  assert (H0 : state (sess r0) = INIT) by done. clearbody r0.
  assert (Hd : keeps pulse (dial_and_wait se)) by (unfold dial_and_wait; keep).
  specialize (keeps_state _ Hd r0) as Hst.
  unfold mbind at 1, M_bind at 1, attempt. destruct (dial_and_wait se r0) as [o r1]. simpl in Hst.
  assert (H1 : state (sess r1) <> END_) by congruence.
  destruct o as [[]|e]; apply settle_outcome; try done;
    [apply talk_answers|apply no_answer_answers].
Qed.

(** ** Who stopped the call *)

#[local] Hint Resolve heeds_monitor heeds_play_chunks heeds_play_tts : heed.

Lemma heeds_play_jobs P cfg fe jobs plays now :
  heeds_if P (play_jobs valid_event other_str re_search cfg fe jobs plays now).
Proof. revert fe plays. induction jobs as [|x jobs IH]; intros fe plays; simpl; heed. Qed.

Lemma heeds_cleanup P fe : heeds_if P (streaming_cleanup fe).
Proof. unfold streaming_cleanup. heed. Qed.

Lemma heeds_run_filler P rc now f : heeds_if P (run_filler valid_event other_str rc now f).
Proof.
  destruct f as [[rnd how]|]; [|apply heeds_ret].
  apply heeds_still; intros r; unfold run_filler, Filler.start; simpl;
    destruct (Filler.pick_phrase rnd _ _) as [[phrase|] used]; simpl; try done;
    unfold Filler.play; destruct how; simpl; try done;
    destruct (append_event _ _ _ _ _ _ _) as [s'|] eqn:Ha; simpl; try done.
  by apply append_event_inv in Ha as [_ ->].
Qed.

#[local] Hint Resolve heeds_play_jobs heeds_cleanup heeds_run_filler : heed.

(** Replacing the session by one with the same cause. *)
Lemma heeds_swap {X B} P (f : CallSession -> X * CallSession) (k : CallSession -> X -> CallSession -> M B) :
  (forall s, hangup_cause (f s).2 = hangup_cause s) -> (forall s x s1, heeds_if P (k s x s1)) ->
  heeds_if P (s ← get_session; let '(x, s1) := f s in modify (fun _ => s1);; k s x s1).
Proof.
  intros Hf Hk r. rewrite bind_get. specialize (Hf (sess r)). destruct (f (sess r)) as [x s1] eqn:Hfs.
  rewrite bind_modify. destruct (Hk (sess r) x s1 (r <| sess := s1 |>)) as (l & Hl & Hc & Hs).
  exists l. split_and!; [exact Hl|exact Hc|]. intros H. apply Hs. simpl in Hf |- *. by rewrite Hf.
Qed.

Lemma heeds_play_streaming P rc now rnd route fe st ry :
  heeds_if P (play_streaming valid_event other_str readable re_search rc now rnd route fe st ry).
Proof.
  unfold play_streaming. apply heeds_bind; [heed|intros _ r]. rewrite bind_get.
  destruct (sentences other_str readable _ rnd (sess r) st) as [[[out res] s']|] eqn:Hs;
    [|exists []; split_and!; [done|done|]; intros [H|[? H%elem_of_nil]]; done].
  assert (Hc : hangup_cause s' = hangup_cause (sess r)).
  { revert Hs. unfold sentences, with_default. destruct (generate_core _ _ _ _) as [o r0].
    case_decide; [|by intros [= _ _ <-]].
    destruct (append_event _ _ _ _ _ _ _) as [s1|] eqn:Ha; simpl; [|done].
    intros [= _ _ <-]. by apply append_event_inv in Ha as [_ ->]. }
  rewrite bind_modify. match goal with |- context [?m (set_field sess _ r)] =>
    assert (Hm : heeds_if P m) by heed; destruct (Hm (r <| sess := s' |>)) as (l & Hl & Hc' & Hs') end.
  exists l. split_and!; [exact Hl|exact Hc'|]. intros H. apply Hs'. simpl. by rewrite Hc.
Qed.

#[local] Hint Resolve heeds_play_streaming : heed.

Lemma heeds_handoff P cfg now a b t p :
  heeds_if P (perform_handoff valid_event other_str re_search cfg now a b t p).
Proof. unfold perform_handoff. heed. Qed.

Lemma heeds_cancel_candidates P kept cands : heeds_if P (cancel_candidates kept cands).
Proof. unfold cancel_candidates. induction (List.filter _ cands) as [|x l IH]; simpl; heed. Qed.

#[local] Hint Resolve heeds_handoff heeds_cancel_candidates : heed.

Lemma heeds_run_restructure P rc te text trig :
  heeds_if P (run_restructure valid_event other_str readable re_search registry llm referee_clock
                rc te text trig).
Proof.
  unfold run_restructure, add_trace. apply heeds_bind; [heed|intros c].
  apply (heeds_swap _ (fun s => run_restructure_stream registry referee_clock s text c llm)); [done|]. heed.
Qed.

#[local] Hint Resolve heeds_run_restructure : heed.

(** The decision and the selection raise, but do not wait. *)
Lemma decide_route_not_cancelled results rules : decide_route results rules <> Err Cancelled.
Proof.
  induction rules as [|rule rules IH]; simpl; [done|].
  destruct (rule_matches results rule) as [[|]|e] eqn:Hm; simpl; [|exact IH|].
  - unfold rule_action, val_get. destruct (val_or _ _); simpl; try done. by repeat destruct (val_is _ _).
  - intros [= ->]. revert Hm. unfold rule_matches, categories_get.
    destruct (dgetv "referee" rule); simpl; try done.
    destruct (fold_left _ _ _) as [c|]; [|done]. unfold str_in_val. by destruct (val_or _ _).
Qed.

Lemma select_not_cancelled a c :
  match select_gated_route a c with Err Cancelled => False | _ => True end.
Proof.
  unfold select_gated_route. cbv zeta. destruct (da_kind a).
  - repeat match goal with |- context [if ?b then _ else _] => destruct b end; exact I.
  - exact I.
  - exact I.
  - destruct (val_or (da_to a) _);
      repeat match goal with |- context [if ?b then _ else _] => destruct b end; exact I.
  - unfold tool_get. destruct (val_or (da_tool a) _); exact I.
Qed.

Lemma heeds_lift {A} P (x : result PyErr A) : x <> Err Cancelled -> heeds_if P (lift x).
Proof. intros H. by apply heeds_still. Qed.

Lemma heeds_gated_turn rc u te :
  heeds (gated_turn valid_event other_str readable re_search registry llm referee_clock rc u te).
Proof.
  unfold gated_turn. cbv zeta. apply heeds_bind; [heed|intros _]. apply heeds_bind; [heed|intros c].
  apply (heeds_swap _ (fun s => run_pipeline_stream registry referee_clock s u c llm llm false));
    [done|intros s0 main s1].
  unfold tool_turn, restructure_turn, dialogue_turn, assemble_interrupt_text, take_interruption,
    count_tokens, add_trace.
  heed; apply heeds_lift; [apply decide_route_not_cancelled|let H := fresh in intros H; pose proof (select_not_cancelled d c) as Hn; by rewrite H in Hn].
Qed.

Lemma heeds_gated_wrap_up_turn rc u te :
  heeds (gated_wrap_up_turn valid_event other_str readable re_search registry llm referee_clock
           default_temperature default_top_p rc u te).
Proof.
  unfold gated_wrap_up_turn. cbv zeta. apply heeds_bind; [heed|intros c].
  apply (heeds_swap _ (fun s => run_pipeline_stream registry referee_clock s u c llm llm true));
    [done|intros s0 st s1].
  unfold count_tokens, add_trace, take_interruption, record_verdict. heed.
Qed.

Lemma heeds_iteration rc e :
  heeds (iteration valid_event other_str readable re_search registry llm referee_clock
           default_temperature default_top_p rc e).
Proof.
  unfold iteration, user_turn, await_user_or_silence. cbv zeta.
  heed; by_turn heeds_gated_wrap_up_turn heeds_gated_turn.
Qed.

Lemma heeds_main_turn_loop rc es :
  heeds (main_turn_loop valid_event other_str readable re_search registry llm referee_clock
           default_temperature default_top_p rc es).
Proof. pose proof (heeds_iteration rc). induction es as [|e es IH]; simpl; heed. Qed.

Lemma heeds_settle P now listening m : heeds_if P m -> heeds_if P (settle valid_event other_str now listening m).
Proof. intros Hm. unfold settle, internal_error. heed; apply heeds_modify; intros s; destruct (hangup_cause s) eqn:E; simpl; rewrite ?E; eauto. Qed.

Lemma heeds_run_session rc se es :
  heeds (run_session valid_event other_str readable re_search registry llm referee_clock
           default_temperature default_top_p rc se es).
Proof.
  pose proof (heeds_main_turn_loop rc es).
  unfold run_session, dial_and_wait. heed; apply heeds_settle; unfold talk, do_greeting, no_answer; heed.
Qed.

(** C1: A call always ends properly: whatever the line, the models and the customer do, and
    whatever raises inside the call, [run_session] raises nothing but a cancellation, and
    that only when an operator or the shutdown cancelled the call; once the call is over
    its state is [END], it has a hangup cause for the record, and its last transcript event
    is the hangup; until then its state is not [END]; and wherever the operator's command
    hit the call, it leaves with a hangup cause. *)
Theorem session_ends_properly rc se es r :
  state (sess r) = INIT ->
  exists o r' l, run_session valid_event other_str readable re_search registry llm referee_clock
                   default_temperature default_top_p rc se es r = (o, r')
    /\ cancels r = l ++ cancels r'
    /\ match o with
       | Ok true => ended (sess r')
       | Ok false => state (sess r') <> END_
       | Err e => e = Cancelled /\ exists c, Some c ∈ l
       end
    /\ ((exists late, Some (ByOperator, late) ∈ l) -> is_Some (hangup_cause (sess r'))).
Proof.
  intros Hs. destruct (heeds_run_session rc se es r) as (l & Hl & Hc & Hcause).
  pose proof (run_session_outcome rc se es r Hs) as Ho.
  destruct (run_session _ _ _ _ _ _ _ _ _ _ _ _ r) as [o r']. simpl in *.
  exists o, r', l. split_and!; [done|done| |by auto].
  destruct o as [[]|e]; [done|done|]. simpl in Ho. subst e. split; [done|]. by destruct (Hc eq_refl).
Qed.

(** ** The campaign's limits *)

Section Limits.
  Context (rc : RuntimeConfig).

(** Restructures in a row, silence prompts in the call, wrap-up rounds. *)
Definition within_limits (s : CallSession) : Prop :=
  0 <= consecutive_restructure_count s
    <= Z.max 0 (pc_max_continuous_restructure (rc_pipeline rc))
  /\ 0 <= silence_activation_count s <= Z.max 0 (Silence.max_activations (rc_silence rc))
  /\ 0 <= wrap_up_round_count s <= Z.max 1 (WrapUp.max_rounds (rc_wrap_up rc)).

(** While the call goes on, the wrap-up has rounds left. *)
Definition rounds_left (s : CallSession) : Prop :=
  wrap_up_round_count s = 0 \/ wrap_up_round_count s < WrapUp.max_rounds (rc_wrap_up rc).

Definition in_limits (s : CallSession) : Prop := within_limits s /\ rounds_left s.

Lemma in_limits_counters s s' : counters s' = counters s -> in_limits s -> in_limits s'.
Proof.
  unfold counters. intros [= H1 H2 H3]. unfold in_limits, within_limits, rounds_left.
  by rewrite H1, H2, H3.
Qed.

(** A step keeps the limits, and has rounds left when the call goes on. *)
Definition bounded (m : M Directive) : Prop :=
  forall r o r', in_limits (sess r) -> m r = (o, r') ->
  within_limits (sess r') /\ (o = Ok CONTINUE -> in_limits (sess r')).

Lemma bounded_bind {A} (m : M A) (k : A -> M Directive) :
  keeps counters m -> (forall x, bounded (k x)) -> bounded (x ← m; k x).
Proof.
  intros Hm Hk r o r' Hi H. specialize (Hm r).
  apply bind_ok in H as [(x & r1 & Hx & H)|(e & Hx & ->)]; rewrite Hx in Hm; simpl in Hm.
  - eapply Hk; [|exact H]. by eapply in_limits_counters.
  - split; [|done]. by eapply in_limits_counters.
Qed.

Lemma bounded_modify g (k : unit -> M Directive) :
  (forall s, in_limits s -> in_limits (g s)) -> (forall x, bounded (k x)) -> bounded (x ← modify g; k x).
Proof. intros Hg Hk r o r' Hi. rewrite bind_modify. apply Hk. by apply Hg. Qed.

Lemma bounded_ret d : bounded (mret d).
Proof. intros r o r' Hi [= <- <-]. split; [apply Hi|done]. Qed.

Lemma keeps_goto_counters now new reason : keeps counters (goto valid_event other_str now new reason).
Proof. intros r. exact (f_equal snd (keeps_goto valid_event other_str now new reason r)). Qed.

Lemma keeps_goto_for_counters now new reason :
  keeps counters (goto_for valid_event other_str now new reason).
Proof. intros r. exact (f_equal snd (keeps_goto_for valid_event other_str now new reason r)). Qed.

#[local] Hint Resolve pulse_counters keeps_goto_counters keeps_goto_for_counters : keep.

Lemma keeps_perform_handoff cfg now trig detail phrase p :
  keeps counters (perform_handoff valid_event other_str re_search cfg now trig detail phrase p).
Proof. unfold perform_handoff. keep. Qed.

#[local] Hint Resolve keeps_perform_handoff : keep.

Ltac stays :=
  repeat lazymatch goal with
  | |- forall _, _ => intro
  | |- bounded (mret _) => apply bounded_ret
  | |- bounded (mbind _ _) =>
      apply bounded_bind; [unfold add_trace, count_tokens, record_verdict; solve [keep]|]
  | |- bounded (if ?b then _ else _) => destruct b
  | |- bounded (match ?x with _ => _ end) => destruct x
  | |- bounded (let '(_, _) := ?x in _) => destruct x
  end.

Lemma tool_turn_bounded te ty sel trace :
  bounded (tool_turn valid_event other_str re_search rc te ty sel trace).
Proof. unfold tool_turn. stays. Qed.

Lemma reset_restructure s :
  in_limits s -> in_limits (s <| consecutive_interruption_count := 0 |> <| consecutive_restructure_count := 0 |>).
Proof. unfold in_limits, within_limits, rounds_left. simpl. lia. Qed.

Lemma dialogue_turn_bounded te u main cands sel trace :
  bounded (dialogue_turn valid_event other_str readable re_search registry llm rc te u main cands sel trace).
Proof.
  unfold dialogue_turn. cbv zeta. stays. apply bounded_modify; [apply reset_restructure|]. stays.
Qed.

(** The same, when the counters are known to satisfy [P] first. *)
Definition bounded_when (P : Z * Z * Z -> Prop) (m : M Directive) : Prop :=
  forall r o r', P (counters (sess r)) -> in_limits (sess r) -> m r = (o, r') ->
  within_limits (sess r') /\ (o = Ok CONTINUE -> in_limits (sess r')).

Lemma bounded_when_bind {A} P (m : M A) (k : A -> M Directive) :
  keeps counters m -> (forall x, bounded_when P (k x)) -> bounded_when P (x ← m; k x).
Proof.
  intros Hm Hk r o r' HP Hi H. specialize (Hm r).
  apply bind_ok in H as [(x & r1 & Hx & H)|(e & Hx & ->)]; rewrite Hx in Hm; simpl in Hm.
  - eapply Hk; [|by eapply in_limits_counters|exact H]. by rewrite Hm.
  - split; [|done]. by eapply in_limits_counters.
Qed.

Lemma bounded_when_modify (P : Z * Z * Z -> Prop) g (k : unit -> M Directive) :
  (forall s, P (counters s) -> in_limits s -> in_limits (g s)) -> (forall x, bounded (k x)) ->
  bounded_when P (x ← modify g; k x).
Proof. intros Hg Hk r o r' HP Hi. rewrite bind_modify. apply Hk. by apply Hg. Qed.

Lemma restructure_turn_bounded te sel trace :
  bounded (restructure_turn valid_event other_str readable re_search registry llm referee_clock
             rc te sel trace).
Proof.
  unfold restructure_turn. intros r o r' Hi. rewrite bind_get. cbv zeta.
  destruct (_ <=? _) eqn:Hcap; zbool; revert Hi.
  - match goal with |- _ -> ?m r = _ -> _ => enough (Hb : bounded m) by apply Hb end.
    stays; (apply bounded_modify; [|stays]); unfold in_limits, within_limits, rounds_left; simpl; lia.
  - set (P := fun c : Z * Z * Z => c.1.1 < pc_max_continuous_restructure (rc_pipeline rc)).
    match goal with |- _ -> ?m r = _ -> _ => enough (Hb : bounded_when P m) by (apply Hb; exact Hcap) end.
    apply bounded_when_bind; [keep|intros text]. apply bounded_when_bind; [unfold add_trace; keep|intros _].
    destruct text as [t|]; [|intros ? ? ? _; apply bounded_ret].
    apply bounded_when_bind; [keep|intros played]. apply bounded_when_modify; [|stays].
    unfold P, counters, in_limits, within_limits, rounds_left. simpl. lia.
Qed.

Lemma bounded_swap {X} (f : CallSession -> X * CallSession)
  (k : CallSession -> X -> CallSession -> M Directive) :
  (forall s, vitals (f s).2 = vitals s) -> (forall s x s1, bounded (k s x s1)) ->
  bounded (s ← get_session; let '(x, s1) := f s in modify (fun _ => s1);; k s x s1).
Proof.
  intros Hf Hk r o r' Hi H. rewrite bind_get in H. specialize (Hf (sess r)).
  destruct (f (sess r)) as [x s1]. rewrite bind_modify in H. eapply Hk; [|exact H].
  eapply in_limits_counters; [|exact Hi]. exact (f_equal (fun v => v.2.2) Hf).
Qed.

Lemma gated_turn_bounded u te :
  bounded (gated_turn valid_event other_str readable re_search registry llm referee_clock rc u te).
Proof.
  unfold gated_turn. cbv zeta. apply bounded_bind; [keep|intros _]. apply bounded_bind; [keep|intros c].
  apply (bounded_swap (fun s => run_pipeline_stream registry referee_clock s u c llm llm false));
    [done|intros s0 main s1].
  stays; by_route tool_turn_bounded restructure_turn_bounded dialogue_turn_bounded.
Qed.

Lemma returning_bounded (m : M Directive) r o r' :
  keeps counters m -> only_returns m -> within_limits (sess r) -> m r = (o, r') ->
  within_limits (sess r') /\ (o = Ok CONTINUE -> in_limits (sess r')).
Proof.
  intros Hm Hr Hw H. split.
  - specialize (Hm r). rewrite H in Hm. simpl in Hm. injection Hm as H1 H2 H3.
    unfold within_limits. by rewrite H1, H2, H3.
  - intros ->. by apply Hr in H.
Qed.

(** The count of a wrap-up round that played out: the next one is allowed only while rounds
    are left. *)
Lemma count_round_bounded te u now :
  bounded (modify (fun s => s <| wrap_up_round_count ::= Z.succ |>);;
    s ← get_session;
    let d := WrapUp.evaluate_wrap_up (choice_of (te_rnd te)) (wrap_up_round_count s)
               (wrap_up_started_at_monotonic s) None now (rc_wrap_up rc) in
    if WrapUp.proceed d then mret CONTINUE
    else
      _ ← play_tts valid_event other_str re_search (rc_interruption rc) true (WrapUp.closing_phrase d)
            (te_play te);
      append valid_event other_str now "wrap_up_completed"
        [("reason"%string, VS (reason_name (WrapUp.reason d)))];;
      goto valid_event other_str now END_ "wrap_up_completed";;
      modify (fun s => s <| hangup_cause := Some "wrap_up_completed"%string |>);;
      hangup_event valid_event other_str now u "ai";;
      mret RETURN).
Proof.
  intros r o r' Hi. rewrite bind_modify, bind_get. set (r1 := set_field sess _ r). cbv zeta.
  assert (Hw : within_limits (sess r1)).
  { revert Hi. subst r1. unfold in_limits, within_limits, rounds_left. simpl. lia. }
  destruct (WrapUp.proceed _) eqn:Hp.
  - intros [= <- <-]. split; [done|]. intros _. split; [done|]. right. revert Hp.
    unfold WrapUp.evaluate_wrap_up. destruct (_ <=? wrap_up_round_count (sess r1)) eqn:Hle; zbool; [done|lia].
  - apply returning_bounded; [keep| |done].
    repeat (apply only_returns_bind; intros ?). apply only_returns_ret.
Qed.

Lemma gated_wrap_up_turn_bounded u te :
  bounded (gated_wrap_up_turn valid_event other_str readable re_search registry llm referee_clock
             default_temperature default_top_p rc u te).
Proof.
  unfold gated_wrap_up_turn. cbv zeta. apply bounded_bind; [keep|intros c].
  apply (bounded_swap (fun s => run_pipeline_stream registry referee_clock s u c llm llm true));
    [done|intros s0 st s1].
  stays. apply count_round_bounded.
Qed.

Lemma user_turn_bounded e u :
  bounded (user_turn valid_event other_str readable re_search registry llm referee_clock
             default_temperature default_top_p rc e u).
Proof.
  unfold user_turn. cbv zeta.
  stays; by_turn gated_wrap_up_turn_bounded gated_turn_bounded.
Qed.

(** A silence prompt is due only while prompts are left. *)
Lemma await_activation h w now r t r' :
  await_user_or_silence rc h w now r = (Ok (SilenceActivation t), r') ->
  silence_activation_count (sess r') < Silence.max_activations (rc_silence rc).
Proof.
  unfold await_user_or_silence. destruct h; [done|]. intros (_ & r1 & H)%bind_step.
  destruct w as [|f b|el]; apply bind_step in H as (_ & r2 & H); [done| |].
  - revert H. destruct (_ || _); [done|]. rewrite bind_modify. done.
  - apply bind_step in H as (_ & r3 & H). revert H. rewrite bind_get. cbv zeta. unfold Silence.evaluate_silence.
    destruct (in_wrap_up (sess r3)); [by destruct (_ <=? _)|].
    destruct (_ <? _); [done|]. destruct (_ <=? silence_activation_count (sess r3)) eqn:Hle; zbool; [done|].
    by destruct (Silence.phrases _); intros [= _ <-].
Qed.

Lemma iteration_bounded e :
  bounded (iteration valid_event other_str readable re_search registry llm referee_clock
             default_temperature default_top_p rc e).
Proof.
  unfold iteration. cbv zeta. intros r o r' Hi H.
  pose proof (pulse_counters _ (keeps_await rc (ie_hangup_set e) (ie_wake e) (ie_now e)) r) as Hk.
  apply bind_ok in H as [(out & r1 & Ho & H)|(x & Hx & ->)].
  2: { rewrite Hx in Hk. split; [|done]. by eapply in_limits_counters. }
  rewrite Ho in Hk. simpl in Hk. assert (Hi1 : in_limits (sess r1)) by (by eapply in_limits_counters).
  destruct out as [u|t|t| |]; revert H; revert Hi1.
  - apply user_turn_bounded.
  - apply await_activation in Ho.
    set (P := fun c : Z * Z * Z => c.1.2 < Silence.max_activations (rc_silence rc)).
    match goal with |- _ -> ?m r1 = _ -> _ => enough (Hb : bounded_when P m) by (apply Hb; exact Ho) end.
    apply bounded_when_bind; [keep|intros _]. apply bounded_when_bind; [keep|intros s].
    apply bounded_when_bind; [keep|intros _]. apply bounded_when_bind; [keep|intros _].
    apply bounded_when_modify; [|stays].
    unfold P, counters, in_limits, within_limits, rounds_left. simpl. lia.
  - match goal with |- _ -> ?m r1 = _ -> _ => enough (Hb : bounded m) by apply Hb end. stays.
  - match goal with |- _ -> ?m r1 = _ -> _ => enough (Hb : bounded m) by apply Hb end. stays.
  - apply bounded_ret.
Qed.

End Limits.

(** ** The gate fails open *)

(** A computation none of whose paths says [RETURN]. *)
Definition only_continues (m : M Directive) : Prop := forall r r', m r <> (Ok RETURN, r').

Lemma only_continues_bind {A} (m : M A) (k : A -> M Directive) :
  (forall x, only_continues (k x)) -> only_continues (x ← m; k x).
Proof.
  intros Hk r r' H. apply bind_ok in H as [(y & r1 & _ & H)|(e & _ & ?)]; [|done]. by eapply Hk.
Qed.

Lemma only_continues_ret : only_continues (mret CONTINUE).
Proof. by intros r r' [=]. Qed.

Ltac continues :=
  repeat lazymatch goal with
  | |- forall _, _ => intro
  | |- only_continues (mret CONTINUE) => apply only_continues_ret
  | |- only_continues (mbind _ _) => apply only_continues_bind
  | |- only_continues (if ?b then _ else _) => destruct b
  | |- only_continues (match ?x with _ => _ end) => destruct x
  | |- only_continues (let '(_, _) := ?x in _) => destruct x
  end.

Lemma restructure_turn_continues rc te sel trace :
  only_continues (restructure_turn valid_event other_str readable re_search registry llm referee_clock
                    rc te sel trace).
Proof. unfold restructure_turn. continues. Qed.

Lemma dialogue_turn_continues rc te u main cands sel trace :
  only_continues (dialogue_turn valid_event other_str readable re_search registry llm rc te u main
                    cands sel trace).
Proof. unfold dialogue_turn. cbv zeta. continues. Qed.

(** A referee without a category. *)
Definition undecided (r : RefereeResult) : Prop := rr_category r = None.

Lemma undecided_decide results rules a :
  Forall undecided results -> decide_route results rules = Ok a -> a = continue_action.
Proof.
  intros Hu. assert (Hcat : forall ref c, categories_get results ref = Ok c -> c = None).
  { intros ref c. destruct ref; simpl; try by intros [= <-]. intros [= <-].
    assert (Hf : forall acc, acc = None -> fold_left (fun acc r =>
      if decide (rr_label r = s) then effective_category r else acc) results acc = None).
    { clear -Hu. induction Hu as [|r l Hr _ IH]; intros acc Hacc; simpl; [done|].
      apply IH. case_decide; done. }
    by apply Hf. }
  induction rules as [|rule rules IH]; simpl; [by intros [= <-]|].
  unfold rule_matches. destruct (categories_get results _) as [c|] eqn:Hc; [|done].
  apply Hcat in Hc as ->. exact IH.
Qed.

Lemma undecided_override c results rem a :
  Forall undecided results -> da_kind a = KContinue ->
  (restructure_override c results rem a).1 = a.
Proof.
  intros Hu _. unfold restructure_override.
  replace (existsb _ results) with false; [done|]. symmetry.
  induction Hu as [|r l Hr _ IH]; simpl; [done|]. rewrite IH, orb_false_r.
  unfold effective_category. by rewrite Hr.
Qed.

Lemma undecided_await results labels gates :
  Forall (fun g => g <> GAnswer) gates -> Forall undecided (await_referees results labels gates).
Proof.
  revert labels gates. induction results as [|r rs IH]; intros [|l ls] gates Hg; simpl; try done.
  destruct Hg as [|g gs Hg Hgs]; constructor; try by apply IH.
  - done.
  - by destruct g.
Qed.


(** ** What a turn does outside *)

(** [m] adds to the log a list that [P] allows for its outcome. *)
Definition emits {A} (m : M A) (P : result PyErr A -> list Effect -> Prop) : Prop :=
  forall r, exists l, log (m r).2 = log r ++ l /\ P (m r).1 l.

Definition quiet (e : Effect) : Prop :=
  match e with EReply _ _ | ECancel _ => False | _ => True end.

Definition hushed {A} (m : M A) : Prop := emits m (fun _ l => Forall quiet l).

Lemma hushed_same {A} (m : M A) : (forall r, log (m r).2 = log r) -> hushed m.
Proof. intros H r. exists []. rewrite H, app_nil_r. by split. Qed.

Lemma hushed_emit e : quiet e -> hushed (emit e).
Proof. intros He r. exists [e]. split; [done|]. by repeat constructor. Qed.

Lemma hushed_bind {A B} (m : M A) (k : A -> M B) :
  hushed m -> (forall x, hushed (k x)) -> hushed (x ← m; k x).
Proof.
  intros Hm Hk r. destruct (Hm r) as (l1 & H1 & Q1). unfold mbind, M_bind.
  destruct (m r) as [[x|e] r1]; simpl in *; [|by exists l1].
  destruct (Hk x r1) as (l2 & H2 & Q2). exists (l1 ++ l2).
  rewrite H2, H1, app_assoc. split; [done|]. by apply Forall_app.
Qed.

Lemma hushed_attempt {A} (m : M A) : hushed m -> hushed (attempt m).
Proof. intros Hm r. destruct (Hm r) as (l & H & Q). exists l. unfold attempt. by destruct (m r). Qed.

Lemma hushed_append now t f : hushed (append valid_event other_str now t f).
Proof. apply hushed_same. intros r. unfold append. by destruct (append_event _ _ _ _ _ _ _). Qed.

Lemma hushed_goto_for now n x : hushed (goto_for valid_event other_str now n x).
Proof. apply hushed_same. intros r. unfold goto_for. by destruct (transition_to _ _ _ _ _ _ _). Qed.

Lemma hushed_next : hushed next_cancel.
Proof. apply hushed_same. intros r. unfold next_cancel. by destruct (cancels r). Qed.

Lemma hushed_awaits : hushed awaits.
Proof. apply hushed_bind; [apply hushed_next|]. intros [x|]; by apply hushed_same. Qed.

Lemma hushed_awaits_quietly : hushed awaits_quietly.
Proof. apply hushed_bind; [apply hushed_next|]. intros x. by apply hushed_same. Qed.

Ltac hush :=
  repeat lazymatch goal with
  | |- forall _, _ => intro
  | |- hushed (mbind _ _) => apply hushed_bind
  | |- hushed (append _ _ _ _ _) => apply hushed_append
  | |- hushed (goto _ _ _ _ _) => apply hushed_goto_for
  | |- hushed (goto_for _ _ _ _ _) => apply hushed_goto_for
  | |- hushed (hangup_event _ _ _ _ _) => apply hushed_append
  | |- hushed (ai_reply _ _ _ _ _ _ _ _ _) => apply hushed_append
  | |- hushed (emit _) => apply hushed_emit; exact I
  | |- hushed (if ?b then _ else _) => destruct b
  | |- hushed (match ?x with _ => _ end) => destruct x
  | |- hushed (when ?b _) => destruct b; cbn [when]
  | |- hushed (mret _) => by apply hushed_same
  | |- hushed (raise _) => by apply hushed_same
  | |- hushed (attempt _) => apply hushed_attempt
  | |- hushed (finally_ _ _) => unfold finally_
  | |- hushed awaits => apply hushed_awaits
  | |- hushed awaits_quietly => apply hushed_awaits_quietly
  | |- hushed next_cancel => apply hushed_next
  | |- hushed (modify _) => by apply hushed_same
  | |- hushed get_session => by apply hushed_same
  | |- hushed (pipeline_of _) => by apply hushed_same
  | |- hushed (lift _) => by apply hushed_same
  | |- hushed _ => assumption
  end.

Lemma hushed_monitor cfg ps : hushed (monitor valid_event other_str re_search cfg ps).
Proof.
  induction ps as [|[now raw] ps IH]; simpl; [by apply hushed_same|].
  unfold partial_monitor. hush.
Qed.

Lemma hushed_play_chunks cfg i p : hushed (play_chunks valid_event other_str re_search cfg i p).
Proof. pose proof (hushed_monitor cfg (pl_partials p)). unfold play_chunks. hush. Qed.

Lemma hushed_play_jobs cfg fe jobs plays now :
  hushed (play_jobs valid_event other_str re_search cfg fe jobs plays now).
Proof.
  revert fe plays. induction jobs as [|x jobs IH]; intros fe plays; simpl; [by hush|].
  pose proof (hushed_play_chunks cfg true (hd (mkPlay [] now false) plays)). hush. apply IH.
Qed.

Lemma hushed_play_tts cfg i t p : hushed (play_tts valid_event other_str re_search cfg i t p).
Proof. pose proof (hushed_play_chunks cfg i p). unfold play_tts. hush. Qed.

Lemma hushed_handoff cfg now a b t p :
  hushed (perform_handoff valid_event other_str re_search cfg now a b t p).
Proof. pose proof (hushed_play_tts cfg true t p). unfold perform_handoff. hush. Qed.

Lemma hushed_tool_turn rc te ty sel trace :
  hushed (tool_turn valid_event other_str re_search rc te ty sel trace).
Proof.
  pose proof (hushed_handoff (rc_interruption rc) (te_now te) "referee" (u8 "referee_decision") []
    (te_play te)) as H1.
  pose proof (hushed_play_tts (rc_interruption rc) true (pystr_of (hangup_phrase sel)) (te_play te)) as H2.
  unfold tool_turn, add_trace. hush.
Qed.

Lemma hushed_run_filler rc now f : hushed (run_filler valid_event other_str rc now f).
Proof.
  destruct f as [[rnd how]|]; [|by apply hushed_same]. intros r. unfold run_filler.
  destruct (Filler.start _ _ _) as [f s]. destruct (Filler.f_task f) as [|phrase|].
  1,3: exists []; simpl; rewrite app_nil_r; by split.
  destruct (Filler.play _ _ _ _ _ _ _ _); [exists [ESay phrase]|exists []; simpl; rewrite app_nil_r];
    split; try done. by repeat constructor.
Qed.

(** Exactly one reply, of that route, and no cancellation. *)
Definition released (route : pystr) (l : list Effect) : Prop :=
  exists q1 t q2, l = q1 ++ EReply route t :: q2 /\ Forall quiet q1 /\ Forall quiet q2.

(** A computation that releases [route]'s reply, unless it raises before. *)
Definition releases {A} (route : pystr) (m : M A) : Prop :=
  emits m (fun o l => released route l \/ (Forall quiet l /\ forall x, o <> Ok x)).

Lemma releases_after {A B} route (m : M A) (k : A -> M B) :
  hushed m -> (forall x, releases route (k x)) -> releases route (x ← m; k x).
Proof.
  intros Hm Hk r. destruct (Hm r) as (l1 & H1 & Q1). unfold mbind, M_bind.
  destruct (m r) as [[x|e] r1]; simpl in *; [|exists l1; split; [done|]; by right].
  destruct (Hk x r1) as (l2 & H2 & [(q1 & t & q2 & -> & Hq1 & Hq2)|[Q2 Ho]]).
  - exists ((l1 ++ q1) ++ EReply route t :: q2). rewrite H2, H1, <-!app_assoc. split; [done|]. left.
    exists (l1 ++ q1), t, q2. split_and!; [by rewrite <-app_assoc|by apply Forall_app|done].
  - exists (l1 ++ l2). rewrite H2, H1, app_assoc. split; [done|]. right. split; [by apply Forall_app|done].
Qed.

Lemma releases_before {A B} route (m : M A) (k : A -> M B) :
  releases route m -> (forall x, hushed (k x)) -> releases route (x ← m; k x).
Proof.
  intros Hm Hk r. destruct (Hm r) as (l1 & H1 & Hl). unfold mbind, M_bind.
  destruct (m r) as [[x|e] r1]; simpl in *.
  - destruct Hl as [(q1 & t & q2 & -> & Hq1 & Hq2)|[_ Ho]]; [|by destruct (Ho x)].
    destruct (Hk x r1) as (l2 & H2 & Q2). exists (q1 ++ EReply route t :: (q2 ++ l2)).
    rewrite H2, H1, <-!app_assoc. split; [done|]. left. exists q1, t, (q2 ++ l2).
    split_and!; [done|done|by apply Forall_app].
  - exists l1. split; [done|]. destruct Hl as [Hl|[Hl _]]; [by left|by right].
Qed.

Lemma play_streaming_releases rc now rnd route fe st ry :
  releases route (play_streaming valid_event other_str readable re_search rc now rnd route fe st ry).
Proof.
  pose proof (hushed_run_filler rc now (ry_filler ry)) as Hf. unfold play_streaming.
  apply releases_after; [hush|intros _]. apply releases_after; [hush|intros s].
  destruct (sentences _ _ _ _ _ _) as [[[out res] s']|].
  - apply releases_after; [by hush|intros _]. apply releases_before.
    + intros r. exists [EReply route (mr_reply_text res)]. split; [done|]. left. by exists [], (mr_reply_text res), [].
    + intros _. pose proof (hushed_play_jobs (rc_interruption rc) fe out (ry_plays ry) now).
      unfold streaming_cleanup. hush.
  - intros r. exists []. rewrite app_nil_r. split; [done|]. by right.
Qed.

Lemma run_restructure_releases rc te text trig :
  releases R_RESTRUCTURE (run_restructure valid_event other_str readable re_search registry llm
                            referee_clock rc te text trig).
Proof.
  unfold run_restructure. apply releases_after; [by hush|intros c].
  apply releases_after; [by hush|intros s]. destruct (run_restructure_stream _ _ _ _ _ _) as [st s1].
  apply releases_after; [by hush|intros _]. apply releases_before; [apply play_streaming_releases|].
  intros [[fa pl] res]. unfold add_trace. hush.
Qed.

(** At most one reply, and only of that route. *)
Definition may_release {A} (route : pystr) (m : M A) : Prop :=
  emits m (fun _ l => Forall quiet l \/ released route l).

Lemma may_hushed {A} route (m : M A) : hushed m -> may_release route m.
Proof. intros Hm r. destruct (Hm r) as (l & ? & ?). exists l. auto. Qed.

Lemma may_releases {A} route (m : M A) : releases route m -> may_release route m.
Proof. intros Hm r. destruct (Hm r) as (l & ? & [|[? _]]); exists l; auto. Qed.

Lemma may_bind {A B} route (m : M A) (k : A -> M B) :
  hushed m -> (forall x, may_release route (k x)) -> may_release route (x ← m; k x).
Proof.
  intros Hm Hk r. destruct (Hm r) as (l1 & H1 & Q1). unfold mbind, M_bind.
  destruct (m r) as [[x|e] r1]; simpl in *; [|exists l1; split; [done|]; by left].
  destruct (Hk x r1) as (l2 & H2 & Hl2). exists (l1 ++ l2). rewrite H2, H1, app_assoc.
  split; [done|]. destruct Hl2 as [Q2|(q1 & t & q2 & -> & Hq1 & Hq2)]; [left; by apply Forall_app|].
  right. exists (l1 ++ q1), t, q2. split_and!; [by rewrite <-app_assoc|by apply Forall_app|done].
Qed.

(** The restructure turn says nothing but the restructured line. *)
Lemma restructure_turn_emits rc te sel trace :
  may_release R_RESTRUCTURE
    (restructure_turn valid_event other_str readable re_search registry llm referee_clock rc te sel trace).
Proof.
  unfold restructure_turn, add_trace. apply may_bind; [hush|intros s]. cbv zeta. destruct (_ <=? _).
  - apply may_hushed. hush. apply hushed_play_tts.
  - apply may_bind; [unfold assemble_interrupt_text; hush|intros text]. apply may_bind; [hush|intros _].
    destruct text as [t|]; [|apply may_hushed; hush]. apply may_releases.
    apply releases_before; [apply run_restructure_releases|]. intros pl. unfold take_interruption. hush.
Qed.

(** ** Cancelling candidates *)

Definition cancelled_ids (kept : option pystr) (cands : list Candidate) : list pystr :=
  map cd_id (List.filter (fun x => negb (bool_decide (Some (cd_id x) = kept))) cands).

Lemma awaits_quietly_ok r : exists r', awaits_quietly r = (Ok tt, r') /\ log r' = log r.
Proof. unfold awaits_quietly, next_cancel, mbind, M_bind. destruct (cancels r); by eexists. Qed.

Lemma cancel_log kept cands r :
  exists r', cancel_candidates kept cands r = (Ok tt, r')
    /\ log r' = log r ++ map ECancel (cancelled_ids kept cands).
Proof.
  unfold cancel_candidates, cancelled_ids. revert r. induction (List.filter _ cands) as [|x l IH]; intros r; simpl.
  - exists r. by rewrite app_nil_r.
  - unfold mbind at 1, M_bind at 1, emit. unfold mbind, M_bind.
    match goal with |- context [awaits_quietly ?r1] => destruct (awaits_quietly_ok r1) as (r2 & -> & H2) end.
    destruct (IH r2) as (r3 & -> & H3). exists r3. rewrite H3, H2. simpl. by rewrite <-app_assoc.
Qed.

(** Undisturbed, it does nothing else. *)
Lemma cancel_undisturbed kept cands r :
  cancels r = [] ->
  cancel_candidates kept cands r = (Ok tt, r <| log ::= fun x => x ++ map ECancel (cancelled_ids kept cands) |>).
Proof.
  unfold cancel_candidates, cancelled_ids. revert r.
  induction (List.filter _ cands) as [|x l IH]; intros r Hr; simpl.
  - destruct r. unfold set_field. simpl. by rewrite app_nil_r.
  - assert (Hq : forall r, cancels r = [] -> awaits_quietly r = (Ok tt, r)).
    { intros r1 H1. unfold awaits_quietly, next_cancel, mbind, M_bind. by rewrite H1. }
    unfold mbind at 1, M_bind at 1, emit. unfold mbind, M_bind. rewrite Hq, IH by done.
    unfold set_field. simpl. by rewrite <-app_assoc.
Qed.

(** ** One reply per turn *)

Definition reply_routes : list Effect -> list pystr :=
  flat_map (fun e => match e with EReply route _ => [route] | _ => [] end).

Definition cancelled_routes : list Effect -> list pystr :=
  flat_map (fun e => match e with ECancel route => [route] | _ => [] end).

Lemma quiet_routes l : Forall quiet l -> reply_routes l = [] /\ cancelled_routes l = [].
Proof. induction 1 as [|e l He _ [IH1 IH2]]; [done|]. destruct e; simpl in *; done. Qed.

Lemma cancel_routes ids : reply_routes (map ECancel ids) = [] /\ cancelled_routes (map ECancel ids) = ids.
Proof. induction ids as [|i ids [IH1 IH2]]; [done|]. simpl. by rewrite IH1, IH2. Qed.

Lemma released_routes route l : released route l -> reply_routes l = [route] /\ cancelled_routes l = [].
Proof.
  intros (q1 & t & q2 & -> & [R1 D1]%quiet_routes & [R2 D2]%quiet_routes).
  unfold reply_routes, cancelled_routes in *. rewrite !flat_map_app. simpl. by rewrite R1, R2, D1, D2.
Qed.

(** Which candidate a dialogue route spares. *)
Definition kept_for (kept : option pystr) (route : pystr) (cands : list Candidate) : Prop :=
  (kept = Some route) \/ (kept = None /\ find_candidate route cands = None).

(** The log of a gated turn: cancellations, then at most one reply. *)
Definition turn_shape (cands : list Candidate) (o : result PyErr Directive) (l : list Effect) : Prop :=
  exists q ids l', l = q ++ map ECancel ids ++ l' /\ Forall quiet q /\
  ((ids = [] /\ l' = [] /\ forall x, o <> Ok x)
   \/ (ids = cancelled_ids None cands /\ (Forall quiet l' \/ released R_RESTRUCTURE l'))
   \/ (exists route kept, ids = cancelled_ids kept cands /\ kept_for kept route cands
         /\ (released route l' \/ (Forall quiet l' /\ forall x, o <> Ok x)))).

Lemma shape_bind {A} cands (m : M A) (k : A -> M Directive) :
  hushed m -> (forall x, emits (k x) (turn_shape cands)) -> emits (x ← m; k x) (turn_shape cands).
Proof.
  intros Hm Hk r. destruct (Hm r) as (l1 & H1 & Q1). unfold mbind, M_bind.
  destruct (m r) as [[x|e] r1]; simpl in *.
  - destruct (Hk x r1) as (l2 & H2 & (q & ids & l' & -> & Hq & Hb)).
    exists ((l1 ++ q) ++ map ECancel ids ++ l'). rewrite H2, H1, <-!app_assoc. split; [done|].
    exists (l1 ++ q), ids, l'. rewrite <-app_assoc. split_and!; [done|by apply Forall_app|done].
  - exists l1. split; [done|]. exists l1, [], []. rewrite app_nil_r. split_and!; [done|done|].
    left. by split_and!.
Qed.

Lemma cancel_then {A} kept cands (m : M A) (P : result PyErr A -> list Effect -> Prop) r :
  emits m P ->
  exists l', log ((cancel_candidates kept cands;; m) r).2
             = log r ++ map ECancel (cancelled_ids kept cands) ++ l'
    /\ P ((cancel_candidates kept cands;; m) r).1 l'.
Proof.
  intros Hm. unfold mbind, M_bind. destruct (cancel_log kept cands r) as (r1 & -> & Hr).
  destruct (Hm r1) as (l' & Hl & HP). exists l'. split; [|done]. by rewrite Hl, Hr, <-app_assoc.
Qed.

Lemma shape_cancel_all cands (m : M Directive) :
  may_release R_RESTRUCTURE m -> emits (cancel_candidates None cands;; m) (turn_shape cands).
Proof.
  intros Hm r. destruct (cancel_then None cands m _ r Hm) as (l' & Hl & HP).
  eexists. split; [exact Hl|]. exists [], (cancelled_ids None cands), l'.
  split_and!; [done|done|]. right. left. by split.
Qed.

Lemma dialogue_turn_shape rc te u main cands sel trace :
  emits (dialogue_turn valid_event other_str readable re_search registry llm rc te u main cands sel trace)
    (turn_shape cands).
Proof.
  unfold dialogue_turn. cbv zeta. apply shape_bind; [hush|intros c].
  set (route := gs_route_id sel). destruct (find_candidate route cands) as [x|] eqn:Hf; cbv beta iota;
    intros r; match goal with |- context [(cancel_candidates ?kept cands;; ?m) r] =>
      assert (Hk : kept_for kept route cands) by (unfold kept_for; auto);
      assert (Hm : releases route m);
      [apply releases_after; [hush|intros _]; apply releases_before; [apply play_streaming_releases|];
       intros [[fa pl] res]; unfold count_tokens, add_trace, take_interruption; hush
      |destruct (cancel_then kept cands _ _ r Hm) as (l' & Hl & HP); eexists; split; [exact Hl|];
       exists [], (cancelled_ids kept cands), l'; split_and!; [done|done|];
       right; right; by exists route, kept] end.
Qed.

(** The candidates' ids are the main route and the personas'. *)
Lemma candidate_ids c u main x :
  x ∈ candidates_of registry llm c u main -> cd_id x <> R_RESTRUCTURE.
Proof.
  unfold candidates_of. intros Hx.
  assert (Hall : forall ps acc, Forall (fun y => cd_id y <> R_RESTRUCTURE) acc ->
    Forall (fun y => cd_id y <> R_RESTRUCTURE) (fold_left (fun acc p => put_candidate
      (mkCandidate (persona_route (ps_label p)) (bare_stream registry llm
        (c <| pc_main := persona_main_spec p |> <| pc_referees := [] |>) u false (st_turn_id main))
        (ps_role_config_id p)) acc) ps acc)).
  { induction ps as [|p ps IH]; intros acc Hacc; simpl; [done|]. apply IH. unfold put_candidate.
    assert (Hp : persona_route (ps_label p) <> R_RESTRUCTURE).
    { intros Heq. apply (f_equal head) in Heq. vm_compute in Heq. discriminate Heq. }
    case_bool_decide.
    - apply Forall_map. eapply Forall_impl; [exact Hacc|]. intros y Hy. simpl. by case_decide.
    - apply Forall_app. split; [done|]. by repeat constructor. }
  refine (proj1 (Forall_forall _ _) (Hall _ _ _) x Hx).
  constructor; [|done]. vm_compute. discriminate.
Qed.

Lemma gated_turn_shape rc u te r :
  let c := rc_pipeline rc <| pc_short_reply_active := short_reply_active r |> in
  let main := (run_pipeline_stream registry referee_clock
                 (sess r <| in_processing_turn := true |>) u c llm llm false).1 in
  let cands := candidates_of registry llm c u main in
  exists l, log (gated_turn valid_event other_str readable re_search registry llm referee_clock
                   rc u te r).2 = log r ++ l
    /\ turn_shape cands (gated_turn valid_event other_str readable re_search registry llm referee_clock
                           rc u te r).1 l.
Proof.
  intros c main cands. unfold gated_turn. cbv zeta. rewrite bind_modify, bind_pipeline_of, bind_get.
  change (rc_pipeline rc <| pc_short_reply_active := _ |>) with c.
  destruct (run_pipeline_stream registry referee_clock _ u c llm llm false) as [main' s1] eqn:Hrun.
  change main' with main. fold cands. rewrite bind_modify.
  match goal with |- context [log (?m ?r1).2] =>
    enough (Hm : emits m (turn_shape cands)) by exact (Hm r1) end.
  apply shape_bind; [pose proof (hushed_monitor (rc_interruption rc) (te_gate_partials te)); hush|intros _].
  apply shape_bind; [hush|intros s]. destruct (interruption_signaled s).
  { apply shape_cancel_all, may_hushed. unfold take_interruption, add_trace. hush. }
  apply shape_bind; [hush|intros a0]. destruct (restructure_override _ _ _ _) as [a dropped].
  apply shape_bind; [hush|intros _]. apply shape_bind; [hush|intros sel].
  apply shape_bind; [hush|intros _].
  match goal with |- emits (match ?dt with _ => _ end) _ => destruct dt as [td|] end.
  { apply shape_cancel_all, may_hushed. unfold add_trace. hush. apply hushed_handoff. }
  destruct (gs_tool sel) as [ty|].
  { apply shape_cancel_all, may_hushed, hushed_tool_turn. }
  destruct (bool_decide _); [|apply dialogue_turn_shape].
  apply shape_cancel_all, restructure_turn_emits.
Qed.

Lemma cancel_all_filter cands :
  List.filter (fun x => negb (bool_decide (Some (cd_id x) = None))) cands = cands.
Proof. induction cands as [|x l IH]; simpl; [done|]. f_equal. exact IH. Qed.

Lemma cancelled_ids_elem kept cands x :
  x ∈ cands -> Some (cd_id x) <> kept -> cd_id x ∈ cancelled_ids kept cands.
Proof.
  intros Hx Hk. unfold cancelled_ids. apply list_elem_of_In, in_map, List.filter_In.
  split; [by apply list_elem_of_In|]. by rewrite bool_decide_eq_false_2.
Qed.

Lemma cancelled_ids_inv kept cands i :
  i ∈ cancelled_ids kept cands -> Some i <> kept /\ exists x, x ∈ cands /\ cd_id x = i.
Proof.
  unfold cancelled_ids. intros (x & <- & [Hx Hb]%List.filter_In)%list_elem_of_In%in_map_iff.
  apply negb_true_iff, bool_decide_eq_false in Hb. split; [done|]. exists x.
  by rewrite list_elem_of_In.
Qed.

(** What the shape of a log means for its routes. *)
Lemma shape_accounts cands (o : result PyErr Directive) ids l' :
  (forall x, x ∈ cands -> cd_id x <> R_RESTRUCTURE) ->
  ((ids = [] /\ l' = [] /\ forall x, o <> Ok x)
   \/ (ids = cancelled_ids None cands /\ (Forall quiet l' \/ released R_RESTRUCTURE l'))
   \/ (exists route kept, ids = cancelled_ids kept cands /\ kept_for kept route cands
         /\ (released route l' \/ (Forall quiet l' /\ forall x, o <> Ok x)))) ->
  (length (reply_routes l') <= 1)%nat
  /\ (forall route, route ∈ reply_routes l' -> route ∉ ids ++ cancelled_routes l')
  /\ (forall d x, o = Ok d -> x ∈ cands ->
       cd_id x ∈ ids ++ cancelled_routes l' \/ cd_id x ∈ reply_routes l').
Proof.
  intros Hids [(-> & -> & Ho)|[(-> & Hl)|(route & kept & -> & Hk & Hl)]].
  - split_and!; [simpl; lia|by intros ? ?%elem_of_nil|]. intros d x Hd. by destruct (Ho d).
  - destruct Hl as [[-> ->]%quiet_routes|[-> ->]%released_routes]; rewrite app_nil_r; (split_and!; [simpl; lia| |]).
    + by intros ? ?%elem_of_nil.
    + intros d x _ Hx. left. by apply cancelled_ids_elem.
    + intros route ->%list_elem_of_singleton (_ & x & Hx & Hi)%cancelled_ids_inv. by apply (Hids x).
    + intros d x _ Hx. left. by apply cancelled_ids_elem.
  - destruct Hl as [[-> ->]%released_routes|[[-> ->]%quiet_routes Ho]]; rewrite app_nil_r; (split_and!; [simpl; lia| |]).
    + intros i ->%list_elem_of_singleton (Hne & x & Hx & Hi)%cancelled_ids_inv.
      destruct Hk as [->|[-> Hf]]; [done|]. unfold find_candidate in Hf.
      eapply find_none in Hf; [|by apply list_elem_of_In]. by apply bool_decide_eq_false in Hf.
    + intros d x _ Hx. destruct (decide (cd_id x = route)) as [->|Hne]; [right; by constructor|].
      left. apply cancelled_ids_elem; [done|]. destruct Hk as [->|[-> _]]; [congruence|done].
    + by intros ? ?%elem_of_nil.
    + intros d x Hd. by destruct (Ho d).
Qed.

(** C4: A gated turn lets at most one reply be heard, and accounts for every candidate:
    it releases the reply of at most one route, never one it cancelled, and when it
    completes every speculative candidate was either released or cancelled. *)
Theorem gated_turn_releases_one rc u te r o r' :
  let c := rc_pipeline rc <| pc_short_reply_active := short_reply_active r |> in
  let main := (run_pipeline_stream registry referee_clock
                 (sess r <| in_processing_turn := true |>) u c llm llm false).1 in
  gated_turn valid_event other_str readable re_search registry llm referee_clock rc u te r = (o, r') ->
  exists l, log r' = log r ++ l
    /\ (length (reply_routes l) <= 1)%nat
    /\ (forall route, route ∈ reply_routes l -> route ∉ cancelled_routes l)
    /\ (forall d x, o = Ok d -> x ∈ candidates_of registry llm c u main ->
         cd_id x ∈ cancelled_routes l \/ cd_id x ∈ reply_routes l).
Proof.
  intros c main Hr. destruct (gated_turn_shape rc u te r) as (l & Hl & q & ids & l' & -> & Hq & Hb).
  rewrite Hr in Hl, Hb. simpl in Hl, Hb. fold c main in Hb.
  set (cands := candidates_of registry llm c u main) in *.
  exists (q ++ map ECancel ids ++ l'). split; [exact Hl|].
  apply quiet_routes in Hq as [Rq Cq]. destruct (cancel_routes ids) as [Ri Ci].
  assert (HR : reply_routes (q ++ map ECancel ids ++ l') = reply_routes l').
  { unfold reply_routes in *. by rewrite !flat_map_app, Rq, Ri. }
  assert (HC : cancelled_routes (q ++ map ECancel ids ++ l') = ids ++ cancelled_routes l').
  { unfold cancelled_routes in *. by rewrite !flat_map_app, Cq, Ci. }
  rewrite HR, HC. apply shape_accounts with (cands := cands); [|exact Hb].
  intros x Hx. by eapply candidate_ids.
Qed.

(** ** Cancelling a call that speaks or listens *)

(** What a call did outside, and what is still to hit it. *)
Definition outer (r : RL) := (log r, cancels r).

Lemma monitor_outer cfg ps r : outer (monitor valid_event other_str re_search cfg ps r).2 = outer r.
Proof.
  assert (Hap : forall now t f r, outer (append valid_event other_str now t f r).2 = outer r).
  { intros now t f r0. unfold append. by destruct (append_event _ _ _ _ _ _ _). }
  assert (Hpm : forall now raw r,
    outer (partial_monitor valid_event other_str re_search cfg now raw r).2 = outer r).
  { intros now raw r0. unfold partial_monitor. rewrite bind_get. destruct (_ || _); [done|].
    case_decide; [done|]. rewrite bind_modify. destruct (iv_verdict _); [done|]. rewrite bind_modify.
    match goal with |- context [(append _ _ _ _ ?f;; mret _) ?r1] => pose proof (Hap now "interruption"%string f r1) as Ha end.
    unfold mbind, M_bind. destruct (append _ _ _ _ _ _) as [[] r2]; done. }
  revert r. induction ps as [|[now raw] ps IH]; intros r; simpl; [done|].
  unfold mbind, M_bind. specialize (Hpm now raw r). destruct (partial_monitor _ _ _ _ _ _ r) as [[cut|e] r1]; [|done].
  specialize (IH r1). destruct (monitor _ _ _ _ _ r1) as [[more|e] r2]; simpl in *; congruence.
Qed.

Lemma monitor_ok cfg ps r : exists b r1, monitor valid_event other_str re_search cfg ps r = (Ok b, r1).
Proof.
  revert r. induction ps as [|[now raw] ps IH]; intros r; simpl; [by eexists _, _|].
  assert (Hp : exists b r1, partial_monitor valid_event other_str re_search cfg now raw r = (Ok b, r1)).
  { unfold partial_monitor. rewrite bind_get. destruct (_ || _); [by eexists _, _|].
    case_decide; [by eexists _, _|]. rewrite bind_modify. destruct (iv_verdict _); [by eexists _, _|].
    rewrite bind_modify. unfold mbind, M_bind.
    edestruct (append_spec valid_event other_str now "interruption") as (s' & Heq & _); [|rewrite Heq; by eexists _, _].
    apply list_elem_of_In. simpl. tauto. }
  destruct Hp as (b & r1 & Hp). unfold mbind, M_bind. rewrite Hp.
  destruct (IH r1) as (b2 & r2 & ->). by eexists _, _.
Qed.

(** Whoever cancels the call while it speaks only stops the playback, which then counts as
    cut short by the customer: the call goes on. *)
Lemma cancelled_playback_goes_on cfg i p c cs r :
  cancels r = Some (c, false) :: cs ->
  exists r', play_chunks valid_event other_str re_search cfg i p r = (Ok false, r') /\ cancels r' = cs.
Proof.
  intros Hr. unfold play_chunks. unfold mbind at 1, M_bind at 1.
  match goal with |- context [match when i ?m r with _ => _ end] =>
    assert (Hon : exists r0, when i m r = (Ok tt, r0) /\ cancels r0 = cancels r) by (destruct i; by eexists) end.
  destruct Hon as (r0 & -> & H0). destruct (monitor_ok cfg (pl_partials p) r0) as (cut & r1 & Hm).
  pose proof (f_equal snd (monitor_outer cfg (pl_partials p) r0)) as H1. rewrite Hm in H1. simpl in H1.
  unfold mbind at 1, M_bind at 1. rewrite Hm. unfold mbind at 1, M_bind at 1, next_cancel.
  rewrite H1, H0, Hr. cbv zeta. rewrite orb_true_r.
  unfold mbind at 1, M_bind at 1. destruct i; by eexists.
Qed.

(** Cancelled while it listens, the call stops there: nothing more is said or recorded. *)
Lemma cancelled_listening_stops rc e es c late cs r :
  state (sess r) <> END_ -> ie_hangup_set e = false -> cancels r = Some (c, late) :: cs ->
  exists r', main_turn_loop valid_event other_str readable re_search registry llm referee_clock
               default_temperature default_top_p rc (e :: es) r = (Err Cancelled, r')
    /\ log r' = log r /\ full_transcript (sess r') = full_transcript (sess r)
    /\ (c = ByOperator -> hangup_cause (sess r') = Some "manual_hangup"%string).
Proof.
  intros Hs Hh Hr. simpl. rewrite bind_get, decide_False by done.
  unfold iteration, await_user_or_silence. rewrite Hh.
  unfold awaits, next_cancel, mbind, M_bind. rewrite Hr. eexists. split; [reflexivity|].
  destruct c; by split_and!.
Qed.

(** ** Barge-in while the AI thinks *)

Lemma awaits_undisturbed r : cancels r = [] -> awaits r = (Ok tt, r).
Proof. intros Hr. unfold awaits, next_cancel, mbind, M_bind. by rewrite Hr. Qed.

(** The gate, when the partials raise nothing and nobody cancels the call. *)
Lemma gate_undisturbed b r cut r1 cfg ps :
  cancels r = [] -> monitor valid_event other_str re_search cfg ps r = (Ok cut, r1) ->
  finally_ (_ ← monitor valid_event other_str re_search cfg ps; when b awaits)
    (modify (fun s => s <| in_processing_turn := false |>)) r
  = (Ok tt, r1 <| sess ::= fun s => s <| in_processing_turn := false |> |>) /\ cancels r1 = [].
Proof.
  intros Hr Hm. pose proof (f_equal snd (monitor_outer cfg ps r)) as Hc. rewrite Hm in Hc. simpl in Hc.
  assert (H1 : cancels r1 = []) by congruence. split; [|done].
  unfold finally_, attempt, modify, lift, mbind, M_bind. rewrite Hm. cbv beta iota.
  destruct b; simpl; [by rewrite awaits_undisturbed|done].
Qed.

(** C23: A barge-in before any audio silences the turn: when the interruption signal is up
    once the gate has resolved, and nobody cancels the call meanwhile, the turn is dropped
    without a word: all candidates are cancelled, nothing is said, the interruption is
    counted once and its signal taken down, the conversation and the captured remainder are
    left as they were, and the loop goes on to the next utterance. *)
Theorem thinking_window_barge_in rc u te r cut r1 :
  let c := rc_pipeline rc <| pc_short_reply_active := short_reply_active r |> in
  let started := run_pipeline_stream registry referee_clock
                   (sess r <| in_processing_turn := true |>) u c llm llm false in
  cancels r = [] ->
  monitor valid_event other_str re_search (rc_interruption rc) (te_gate_partials te)
    (r <| sess := started.2 |>) = (Ok cut, r1) ->
  interruption_signaled (sess r1) = true ->
  exists r', gated_turn valid_event other_str readable re_search registry llm referee_clock rc u te r
               = (Ok CONTINUE, r')
    /\ log r' = log r ++ map (fun x => ECancel (cd_id x)) (candidates_of registry llm c u started.1)
    /\ consecutive_interruption_count (sess r') = consecutive_interruption_count (sess r1) + 1
    /\ interruption_signaled (sess r') = false /\ in_processing_turn (sess r') = false
    /\ interrupt_remaining_text (sess r') = interrupt_remaining_text (sess r1)
    /\ dialog_history (sess r') = dialog_history (sess r1)
    /\ full_transcript (sess r') = full_transcript (sess r1).
Proof.
  intros c started Hcan Hmon Hsig.
  pose proof (f_equal fst (monitor_outer (rc_interruption rc) (te_gate_partials te) (r <| sess := started.2 |>)))
    as Hlog. rewrite Hmon in Hlog. simpl in Hlog. eexists. split.
  - unfold gated_turn. cbv zeta. rewrite bind_modify, bind_pipeline_of, bind_get.
    change (rc_pipeline rc <| pc_short_reply_active := _ |>) with c.
    destruct (run_pipeline_stream registry referee_clock _ u c llm llm false) as [main s1] eqn:Hrun.
    rewrite bind_modify. unfold mbind at 1, M_bind at 1.
    destruct (fun H => gate_undisturbed (negb (zlen (st_referees main) =? 0)) _ _ _ _ _ H Hmon)
      as [Hg H1]; [exact Hcan|].
    match goal with |- context [finally_ _ _ ?r0] => change r0 with (r <| sess := started.2 |>) end.
    rewrite Hg. cbv beta iota. rewrite bind_get.
    match goal with |- (if ?b then _ else _) _ = _ => change b with (interruption_signaled (sess r1)) end.
    rewrite Hsig. unfold mbind at 1, M_bind at 1. rewrite cancel_undisturbed by exact H1.
    unfold take_interruption, add_trace. change main with started.1. reflexivity.
  - simpl. split_and!; try done. rewrite Hlog. f_equal. unfold cancelled_ids.
    rewrite map_map. f_equal. apply cancel_all_filter.
Qed.
End Facts2.

(** ** A concrete campaign *)

Definition demo_llm : LLM :=
  mkLLM (fun _ _ _ => mkRun [(5, [65; 46]); (9, [66; 46])] 12 None) (fun _ _ _ => (3, Ok None)) None None.

Definition demo_rc : RuntimeConfig :=
  mkRuntime (demo_config <| pc_referees := [mkRefereeSpec 0 0 [103] [] VNone VNone None None] |>
               <| pc_personas := [mkPersona [112] 7 0 [] VNone VNone (Some [120]) None] |>
               <| pc_persona_fanout_cap := 2 |>)
    [] (Transfer.mkTransfer false [] false None [] false None false [] [])
    (WrapUp.mkWrapUp 2 60 [] false) (mkIConfig [] (Rules.default_rule [] 1 0))
    (Silence.mkSilence 5000 1 [[63]] [66] 8000) None false 3 [] [] 0 600 None 0 100.

Definition demo_play : Play := mkPlay [] 1000 false.
Definition demo_reply : Reply := mkReply [] None empty_result None [] None.

Definition demo_turn (gate : list Gate) (partials : list (Z * pystr)) : TurnEnv :=
  mkTurnEnv 10 20 0 gate partials None demo_play demo_reply empty_result GTimeout.

Definition demo_rl : RL := mkRL (new_session 1 2 3 [] [] 4 0 <| state := IN_CALL |>) false [] [].

Abbreviation demo_gated :=
  (gated_turn (fun _ => true) (fun _ => []) (fun _ => true) (fun _ _ => false) None demo_llm
    (fun _ => (0, 0)) demo_rc [72]).

Abbreviation demo_loop :=
  (main_turn_loop (fun _ => true) (fun _ => []) (fun _ => true) (fun _ _ => false) None demo_llm
    (fun _ => (0, 0)) VNone VNone demo_rc).

(** A customer who stays silent for the whole window, and one who says something. *)
Definition silent_iter (partials : list (Z * pystr)) : IterEnv :=
  mkIter 10 0 false (WakeTimeout 6000000) (mkPlay partials 1000 false) (demo_turn [GTimeout] []).

Definition spoken_iter (text : pystr) : IterEnv :=
  mkIter 10 0 false (WakeFinal text []) demo_play (demo_turn [GTimeout] []).

Definition demo_se : SessionEnv := mkSessionEnv 0 true ["connected"%string] 9 false 50000.

Abbreviation demo_run es script :=
  (run_session (fun _ => true) (fun _ => []) (fun _ => true) (fun _ _ => false) None demo_llm
     (fun _ => (0, 0)) VNone VNone demo_rc demo_se es
     (demo_rl <| sess := new_session 1 2 3 [] [] 4 0 |> <| cancels := script |>)).

Lemma session_ends_properly_witness :
  exists o r' l, demo_run [silent_iter []; silent_iter []] [None; None; None; Some (ByOperator, false)]
                 = (o, r')
    /\ [None; None; None; Some (ByOperator, false)] = l ++ cancels r'
    /\ match o with
       | Ok true => ended (sess r')
       | Ok false => state (sess r') <> END_
       | Err e => e = Cancelled /\ exists c, Some c ∈ l
       end
    /\ ((exists late, Some (ByOperator, late) ∈ l) -> is_Some (hangup_cause (sess r'))).
Proof. apply session_ends_properly. reflexivity. Defined.



Lemma gated_turn_releases_one_witness :
  let '(o, r') := demo_gated (demo_turn [GTimeout] []) demo_rl in
  exists l, log r' = log demo_rl ++ l /\ (length (reply_routes l) <= 1)%nat.
Proof.
  destruct (demo_gated (demo_turn [GTimeout] []) demo_rl) as [o r'] eqn:H.
  destruct (gated_turn_releases_one (fun _ => true) (fun _ => []) (fun _ => true) (fun _ _ => false) None
    demo_llm (fun _ => (0, 0)) demo_rc [72] (demo_turn [GTimeout] []) demo_rl o r' H) as (l & Hl & Hn & _).
  by exists l.
Defined.

Lemma thinking_window_barge_in_witness :
  exists r', demo_gated (demo_turn [GTimeout] [(5000, [90; 90])]) demo_rl = (Ok CONTINUE, r')
    /\ interruption_signaled (sess r') = false.
Proof.
  match goal with |- exists r', gated_turn ?v ?o ?rd ?re ?rg ?lm ?ck ?rc ?u ?te ?r = _ /\ _ =>
    pose (started := run_pipeline_stream rg ck (sess r <| in_processing_turn := true |>) u
      (rc_pipeline rc <| pc_short_reply_active := short_reply_active r |>) lm lm false);
    destruct (monitor v o re (rc_interruption rc) (te_gate_partials te) (r <| sess := started.2 |>))
      as [[cut|e] r1] eqn:Hm;
    [|vm_compute in Hm; discriminate Hm];
    destruct (thinking_window_barge_in v o rd re rg lm ck rc u te r cut r1 eq_refl Hm) as (r' & Hr & _ & _ & Hs & _)
  end.
  - vm_compute in Hm. injection Hm as _ <-. reflexivity.
  - by exists r'.
Defined.

(** ** What the model shows about the code *)

(** A barge-in over a silence prompt is never taken down by the loop: the customer's next
    utterance runs into it at the gate, its turn is dropped as if interrupted, and it gets
    no reply. *)
Lemma stale_signal_swallows_utterance :
  let r := (demo_loop [silent_iter [(500, [90; 90])]; spoken_iter [72; 73]] demo_rl).2 in
  (exists t, last (dialog_history (sess r)) = Some (mkTurn RUser [72; 73] t))
  /\ reply_routes (log r) = [] /\ consecutive_interruption_count (sess r) = 1.
Proof. vm_compute. split; [by eexists|]. by split. Qed.

(** Without the barge-in the same utterance is answered. *)
Lemma utterance_answered :
  reply_routes (log (demo_loop [silent_iter []; spoken_iter [72; 73]] demo_rl).2) = [R_MAIN].
Proof. vm_compute. reflexivity. Qed.

(** A call the AI ends for silence reaches [END] without the line being hung up: no
    [telephony.hangup] is made. *)
Lemma silence_end_leaves_line_open :
  let r := (demo_loop [silent_iter []; silent_iter []] demo_rl).2 in
  state (sess r) = END_ /\ hangup_cause (sess r) = Some "silence_max_reached"%string
  /\ log r = [ESay [63]; ESay [66]].
Proof. vm_compute. by split_and!. Qed.

(** A persona's configured provider does not reach the registry. *)
Lemma persona_provider_dropped p : ms_provider (persona_main_spec p) = None.
Proof. reflexivity. Qed.

(** A routing rule whose target is a list or an object raises in the selection, where the
    code promises to fail open. *)
Lemma unhashable_target_raises :
  select_gated_route (continue_action <| da_kind := KRoute |> <| da_to := VList [VNone] |>) demo_config
  = Err TypeError.
Proof. reflexivity. Qed.

(** An operator's hangup over the greeting does not end the call: the greeting stops, the
    call goes on listening, answers the customer and ends when the customer hangs up, with
    the customer's hangup as its cause. *)
Lemma hangup_over_greeting_lost :
  let gone := mkIter 10 0 false WakeHangup demo_play (demo_turn [] []) in
  let '(o, r) := demo_run [spoken_iter [72]; gone] [None; None; None; Some (ByOperator, false)] in
  o = Ok true /\ cancels r = [] /\ reply_routes (log r) = [R_MAIN]
  /\ hangup_cause (sess r) = Some "user_hangup"%string.
Proof. vm_compute. by split_and!. Qed.

(** A hangup while the gate waits ends the call, but leaves the speculative replies and the
    referees running: nothing cancels them. *)
Lemma hangup_at_gate_keeps_candidates :
  let '(o, r) := demo_gated (demo_turn [GTimeout] []) (demo_rl <| cancels := [Some (ByOperator, false)] |>) in
  o = Err Cancelled /\ log r = [] /\ hangup_cause (sess r) = Some "manual_hangup"%string.
Proof. vm_compute. by split_and!. Qed.
