(* ===== verification/WholeCall.v ===== *)
(** * A call from its dial to its record

    [dial_consumer.py], [_runner_with_finalize] around [run_loop.py], [run_session]: the
    call loop of [RunLoop] composed with the finalization of [Lifecycle].  Whatever happens
    in the call, the finalization finds a session it can record: every trace has the turn
    number its row needs, and the hangup cause is one of the causes the engine uses. *)

From S2P Require Import Prelude Session Referee Interruption Managers Lifecycle Orchestrator RunLoop RunLoopFacts.

(** ** The composition *)

(** How [run_session] ends, as the runner's [except] clauses see it. *)
Definition call_outcome (o : result PyErr bool) (s : CallSession) : RunOutcome :=
  match o with
  | Ok _ => RunReturned s
  | Err Cancelled => RunCancelled s
  | Err _ => RunRaised s
  end.

(** Every value the engine assigns to [hangup_cause]. *)
Definition ENGINE_CAUSES : list string :=
  ["no_answer"; "no_progress_timeout"; "manual_hangup"; "user_hangup"; "silence_max_reached";
   "marked_for_handoff"; "referee_hangup"; "wrap_up_completed"]%string.

Ltac engine_cause := apply (bool_decide_unpack _); vm_compute; exact I.

(** ** What the loop leaves for the record *)

Definition traced (t : event) : Prop := exists n, dget "turn_id"%string t = Some (VInt n).

Definition record_ok (s : CallSession) : Prop :=
  Forall traced (pipeline_trace_records s) /\ forall c, hangup_cause s = Some c -> c ∈ ENGINE_CAUSES.

Definition carries (s s' : CallSession) : Prop :=
  call_record_id s' = call_record_id s /\ (record_ok s -> record_ok s').

(** [m] leaves a session that can be recorded, under its number. *)
Definition files {A} (m : M A) : Prop := forall r, carries (sess r) (sess (m r).2).

Lemma carries_trans s1 s2 s3 : carries s1 s2 -> carries s2 s3 -> carries s1 s3.
Proof. intros [E1 H1] [E2 H2]. split; [congruence|auto]. Qed.

(** The fields a record is made of. *)
Definition ledger (s : CallSession) := (call_record_id s, hangup_cause s, pipeline_trace_records s).

Lemma carries_ledger s s' : ledger s' = ledger s -> carries s s'.
Proof. unfold ledger, carries, record_ok. intros [= -> -> ->]. auto. Qed.

Lemma files_bind {A B} (m : M A) (k : A -> M B) : files m -> (forall x, files (k x)) -> files (x ← m; k x).
Proof.
  intros Hm Hk r. specialize (Hm r). unfold mbind, M_bind. destruct (m r) as [[x|e] r1]; [|done].
  eapply carries_trans; [exact Hm|apply Hk].
Qed.

Lemma files_keeps {A} (m : M A) : keeps ledger m -> files m.
Proof. intros Hm r. apply carries_ledger, Hm. Qed.

Lemma files_attempt {A} (m : M A) : files m -> files (attempt m).
Proof. intros Hm r. specialize (Hm r). unfold attempt. by destruct (m r). Qed.

Lemma files_finally {A} (m : M A) c : files m -> files c -> files (finally_ m c).
Proof.
  intros Hm Hc. apply files_bind; [by apply files_attempt|intros o]. apply files_bind; [done|intros _].
  by apply files_keeps.
Qed.

Lemma files_modify g : (forall s, carries s (g s)) -> files (modify g).
Proof. intros Hg r. apply Hg. Qed.

Lemma files_when b m : files m -> files (when b m).
Proof. destruct b; [done|]. intros _. by apply files_keeps. Qed.

Lemma carries_cause s c : c ∈ ENGINE_CAUSES -> carries s (s <| hangup_cause := Some c |>).
Proof. intros Hc. split; [done|]. intros [Ht _]. split; [done|]. intros c' [= <-]. exact Hc. Qed.

Lemma files_next : files next_cancel.
Proof.
  intros r. unfold next_cancel. destruct (cancels r) as [|[[[] late]|] cs]; simpl; try by apply carries_ledger.
  apply carries_cause. engine_cause.
Qed.

Lemma files_add_trace t : traced t -> files (add_trace t).
Proof.
  intros Ht r. split; [done|]. intros [Hts Hc]. split; [|done]. apply Forall_app. by repeat constructor.
Qed.

Section Files.
  Context (valid_event : event -> bool) (other_str : pyval -> pystr)
    (readable : Z -> bool) (re_search : pystr -> pystr -> bool)
    (registry : option (option pystr -> option pystr -> LLM)) (llm : LLM)
    (referee_clock : pystr -> Z * Z) (default_temperature default_top_p : pyval).

Lemma append_ledger now t f s s' :
  append_event valid_event false other_str now t f s = Ok s' -> ledger s' = ledger s.
Proof. by intros [_ ->]%append_event_inv. Qed.

Lemma files_append now t f : files (append valid_event other_str now t f).
Proof.
  apply files_keeps. intros r. unfold append.
  destruct (append_event _ _ _ _ _ _ _) eqn:Ha; [|done]. by apply append_ledger in Ha.
Qed.

Lemma files_goto_for now n x : files (goto_for valid_event other_str now n x).
Proof.
  apply files_keeps. intros r. unfold goto_for, transition_to. case_decide; [done|].
  case_bool_decide; simpl; [done|].
  destruct (append_event _ _ _ _ _ _ _) eqn:Ha; simpl; [|done]. by apply append_ledger in Ha.
Qed.

Ltac file :=
  repeat lazymatch goal with
  | |- forall _, _ => intro
  | |- files (mbind _ _) => apply files_bind
  | |- files (attempt _) => apply files_attempt
  | |- files (finally_ _ _) => apply files_finally
  | |- files (when _ _) => apply files_when
  | |- files (append _ _ _ _ _) => apply files_append
  | |- files (goto _ _ _ _ _) => apply files_goto_for
  | |- files (goto_for _ _ _ _ _) => apply files_goto_for
  | |- files (hangup_event _ _ _ _ _) => apply files_append
  | |- files (ai_reply _ _ _ _ _ _ _ _ _) => apply files_append
  | |- files next_cancel => apply files_next
  | |- files awaits => unfold awaits
  | |- files awaits_quietly => unfold awaits_quietly
  | |- files (modify (fun s => s <| hangup_cause := Some _ |>)) =>
      apply files_modify; intro; apply carries_cause; engine_cause
  | |- files (modify _) => apply files_keeps, keeps_modify; reflexivity
  | |- files (if ?b then _ else _) => destruct b
  | |- files (match ?x with _ => _ end) => destruct x
  | |- files _ => first [assumption | solve [eauto with nocore] | by apply files_keeps]
  end.

Lemma files_monitor cfg ps : files (monitor valid_event other_str re_search cfg ps).
Proof. induction ps as [|[now raw] ps IH]; simpl; unfold partial_monitor; file. Qed.

Lemma files_play_chunks cfg i p : files (play_chunks valid_event other_str re_search cfg i p).
Proof. pose proof (files_monitor cfg). unfold play_chunks. file. Qed.

Lemma files_play_tts cfg i t p : files (play_tts valid_event other_str re_search cfg i t p).
Proof. pose proof (files_play_chunks cfg i p). unfold play_tts. file. Qed.

Lemma files_play_jobs cfg fe jobs plays now :
  files (play_jobs valid_event other_str re_search cfg fe jobs plays now).
Proof.
  pose proof (files_play_chunks cfg true).
  revert fe plays. induction jobs as [|x jobs IH]; intros fe plays; simpl; file.
Qed.

Lemma files_run_filler rc now f : files (run_filler valid_event other_str rc now f).
Proof.
  apply files_keeps. destruct f as [[rnd how]|]; [|done]. intros r. unfold run_filler, Filler.start. simpl.
  destruct (Filler.pick_phrase rnd _ _) as [[phrase|] used]; simpl; [|done].
  unfold Filler.play. destruct how; simpl; try done.
  destruct (append_event _ _ _ _ _ _ _) as [s'|] eqn:Ha; [|done]. by apply append_ledger in Ha.
Qed.

Lemma files_play_streaming rc now rnd route fe st ry :
  files (play_streaming valid_event other_str readable re_search rc now rnd route fe st ry).
Proof.
  pose proof (files_run_filler rc now (ry_filler ry)).
  pose proof (fun out => files_play_jobs (rc_interruption rc) fe out (ry_plays ry) now).
  unfold play_streaming. apply files_bind; [file|intros _ r]. rewrite bind_get.
  destruct (sentences other_str readable _ rnd (sess r) st) as [[[out res] s']|] eqn:Hs;
    [|by apply carries_ledger].
  assert (Hl : ledger s' = ledger (sess r)).
  { revert Hs. unfold sentences, with_default. destruct (generate_core _ _ _ _) as [o r0].
    case_decide; [|by intros [= _ _ <-]].
    destruct (append_event _ _ _ _ _ _ _) as [s1|] eqn:Ha; simpl; [|done].
    intros [= _ _ <-]. by apply append_ledger in Ha. }
  rewrite bind_modify. eapply carries_trans; [by apply carries_ledger|].
  match goal with |- context [?m (set_field sess _ r)] =>
    enough (Hm : files m) by exact (Hm (r <| sess := s' |>)) end.
  unfold streaming_cleanup. file.
Qed.

(** ** Traces *)

Lemma traced_dset k v t : k <> "turn_id"%string -> traced t -> traced (dset k v t).
Proof. intros Hk [n Hn]. exists n. by rewrite dget_dset_ne. Qed.

Lemma traced_dupdate t e : Forall (fun kv => kv.1 <> "turn_id"%string) e -> traced t -> traced (dupdate t e).
Proof.
  unfold dupdate. intros He. revert t. induction He as [|kv e Hk _ IH]; intros t Ht; simpl; [done|].
  apply IH. by apply traced_dset.
Qed.

Lemma traced_base id res t0 t1 u fa : traced (base_trace id res t0 t1 u fa).
Proof. by exists id. Qed.

Lemma traced_gated id res t0 t1 u fa rs a sel cs rt : traced (gated_trace id res t0 t1 u fa rs a sel cs rt).
Proof. apply traced_dupdate; [by repeat constructor|apply traced_base]. Qed.

(** ** The turns *)

Lemma files_swap {X B} (f : CallSession -> X * CallSession) (k : CallSession -> X -> CallSession -> M B) :
  (forall s, ledger (f s).2 = ledger s) -> (forall s x s1, files (k s x s1)) ->
  files (s ← get_session; let '(x, s1) := f s in modify (fun _ => s1);; k s x s1).
Proof.
  intros Hf Hk r. rewrite bind_get. specialize (Hf (sess r)). destruct (f (sess r)) as [x s1].
  rewrite bind_modify. eapply carries_trans; [by apply carries_ledger|].
  exact (Hk (sess r) x s1 (r <| sess := s1 |>)).
Qed.

Lemma files_handoff cfg now a b t p : files (perform_handoff valid_event other_str re_search cfg now a b t p).
Proof. pose proof (files_play_tts cfg true t p). unfold perform_handoff. file. Qed.

Lemma files_cancel_candidates kept cands : files (cancel_candidates kept cands).
Proof. unfold cancel_candidates. induction (List.filter _ cands) as [|x l IH]; simpl; file. Qed.

Lemma files_run_restructure rc te text trig :
  files (run_restructure valid_event other_str readable re_search registry llm referee_clock rc te text trig).
Proof.
  unfold run_restructure. apply files_bind; [by apply files_keeps|intros c].
  apply (files_swap (fun s => run_restructure_stream registry referee_clock s text c llm));
    [done|intros s st s1].
  apply files_bind; [apply files_play_streaming|]. intros [[fa pl] res].
  apply files_bind; [file|intros _]. apply files_bind; [|file].
  apply files_add_trace, traced_dupdate; [by repeat constructor|apply traced_base].
Qed.

Lemma files_tool_turn rc te ty sel trace :
  traced trace -> files (tool_turn valid_event other_str re_search rc te ty sel trace).
Proof.
  intros Ht%files_add_trace.
  pose proof (files_handoff (rc_interruption rc) (te_now te) "referee" (u8 "referee_decision") [] (te_play te)).
  pose proof (fun t => files_play_tts (rc_interruption rc) true t (te_play te)).
  unfold tool_turn. file.
Qed.

Lemma files_restructure_turn rc te sel trace :
  (forall t, traced (trace t)) ->
  files (restructure_turn valid_event other_str readable re_search registry llm referee_clock rc te sel trace).
Proof.
  intros Ht. pose proof (fun t => files_add_trace _ (Ht t)).
  pose proof (fun t => files_play_tts (rc_interruption rc) true t (te_play te)).
  pose proof (files_run_restructure rc te). unfold restructure_turn, assemble_interrupt_text, take_interruption.
  cbv zeta. file.
Qed.

Lemma files_dialogue_turn rc te u main cands sel trace :
  (forall i res fa, traced (trace i res fa)) ->
  files (dialogue_turn valid_event other_str readable re_search registry llm rc te u main cands sel trace).
Proof.
  intros Ht. pose proof (fun i res fa => files_add_trace _ (Ht i res fa)).
  pose proof files_cancel_candidates. pose proof files_play_streaming.
  unfold dialogue_turn, count_tokens, take_interruption. cbv zeta. file.
Qed.

Lemma files_gated_turn rc u te :
  files (gated_turn valid_event other_str readable re_search registry llm referee_clock rc u te).
Proof.
  unfold gated_turn. cbv zeta. apply files_bind; [file|intros _]. apply files_bind; [file|intros c].
  apply (files_swap (fun s => run_pipeline_stream registry referee_clock s u c llm llm false));
    [done|intros s0 main s1].
  pose proof (files_monitor (rc_interruption rc) (te_gate_partials te)). pose proof files_cancel_candidates.
  pose proof files_handoff. apply files_bind; [file|intros _]. apply files_bind; [file|intros s].
  destruct (interruption_signaled s).
  { apply files_bind; [done|intros _]. unfold take_interruption. apply files_bind; [file|intros _].
    apply files_bind; [|file]. apply files_add_trace, traced_dupdate; [by repeat constructor|apply traced_base]. }
  apply files_bind; [file|intros a0]. destruct (restructure_override _ _ _ _) as [a dropped].
  apply files_bind; [file|intros _]. apply files_bind; [file|intros sel]. apply files_bind; [file|intros _].
  match goal with |- files (match ?d with _ => _ end) => destruct d as [td|] end.
  { apply files_bind; [done|intros _]. apply files_bind; [apply files_add_trace, traced_gated|]. file. }
  destruct (gs_tool sel) as [ty|].
  { apply files_bind; [done|intros _]. apply files_tool_turn, traced_gated. }
  destruct (bool_decide _).
  - apply files_bind; [done|intros _]. apply files_restructure_turn. intros t. apply traced_gated.
  - apply files_dialogue_turn. intros. apply traced_gated.
Qed.

Lemma files_record_verdict v : files (record_verdict v).
Proof.
  apply files_modify. intros s. split; [done|]. intros [Ht Hc]. split; [|done]. simpl.
  destruct (rev (pipeline_trace_records s)) as [|t ts] eqn:Hr; [constructor|].
  assert (Hs : pipeline_trace_records s = rev ts ++ [t]) by (by rewrite <-(rev_involutive (pipeline_trace_records s)), Hr).
  rewrite Hs in Ht. apply Forall_app in Ht as [Ht1 Ht2]. apply Forall_app. split; [done|].
  inversion Ht2; subst. constructor; [|constructor]. by apply traced_dset.
Qed.

Lemma files_gated_wrap_up_turn rc u te :
  files (gated_wrap_up_turn valid_event other_str readable re_search registry llm referee_clock
           default_temperature default_top_p rc u te).
Proof.
  unfold gated_wrap_up_turn. cbv zeta. apply files_bind; [file|intros c].
  apply (files_swap (fun s => run_pipeline_stream registry referee_clock s u c llm llm true));
    [done|intros s0 st s1].
  pose proof files_play_streaming. pose proof files_record_verdict.
  pose proof (fun t => files_play_tts (rc_interruption rc) true t (te_play te)).
  apply files_bind; [file|intros _]. apply files_bind; [done|]. intros [[fa pl] res]. unfold count_tokens.
  apply files_bind; [file|intros _].
  apply files_bind; [apply files_add_trace, traced_dupdate; [by repeat constructor|apply traced_base]|].
  unfold take_interruption. file.
Qed.

Lemma files_iteration rc e :
  files (iteration valid_event other_str readable re_search registry llm referee_clock
           default_temperature default_top_p rc e).
Proof.
  pose proof files_handoff. pose proof (fun i t => files_play_tts (rc_interruption rc) i t (ie_play e)).
  pose proof (files_gated_turn rc). pose proof (files_gated_wrap_up_turn rc).
  unfold iteration, user_turn, await_user_or_silence. cbv zeta. file.
Qed.

Lemma files_main_turn_loop rc es :
  files (main_turn_loop valid_event other_str readable re_search registry llm referee_clock
           default_temperature default_top_p rc es).
Proof. pose proof (files_iteration rc). induction es as [|e es IH]; simpl; file. Qed.

Lemma files_settle now listening m : files m -> files (settle valid_event other_str now listening m).
Proof.
  intros Hm. unfold settle, internal_error. file; apply files_modify; intros s;
    (destruct (hangup_cause s); [by apply carries_ledger|apply carries_cause; engine_cause]).
Qed.

Lemma files_run_session rc se es :
  files (run_session valid_event other_str readable re_search registry llm referee_clock
           default_temperature default_top_p rc se es).
Proof.
  pose proof (files_main_turn_loop rc es). pose proof (files_play_tts (rc_interruption rc) true).
  unfold run_session, dial_and_wait. file; apply files_settle; unfold talk, do_greeting, no_answer; cbv zeta; file.
Qed.

(** ** The record *)

Section Record.
  Context (hangup_causes transfer_statuses : list string) (NORMAL_CLEARING TRANSFER_NONE : string)
    (int_other : pyval -> option Z) (call_ended_queue EXTRACT_QUEUE : string).

(** The shared package's enum has the engine's causes and its default; the two queues are
    different lists. *)
Hypothesis causes_known : forall c, c ∈ ENGINE_CAUSES -> c ∈ hangup_causes.
Hypothesis normal_known : NORMAL_CLEARING ∈ hangup_causes.
Hypothesis queues_differ : call_ended_queue <> EXTRACT_QUEUE.

Lemma traced_rows cid st ts : Forall traced ts -> is_Some (mapM (trace_row int_other cid st) ts).
Proof.
  intros Hts. apply mapM_is_Some. eapply Forall_impl; [exact Hts|]. intros t [n Hn].
  unfold compose, trace_row, trace_turn_id. rewrite Hn. by eexists.
Qed.

Lemma known_cause_resolves s c :
  hangup_cause s = Some c -> c ∈ ENGINE_CAUSES ->
  resolve_hangup_cause hangup_causes NORMAL_CLEARING s = c.
Proof.
  intros Hs Hc. unfold resolve_hangup_cause. rewrite Hs.
  rewrite decide_False by (intros ->; revert Hc; unfold ENGINE_CAUSES; set_solver).
  by rewrite bool_decide_eq_true_2 by auto.
Qed.

Lemma final_record_fields s st en old :
  let row := unmarked (final_record transfer_statuses TRANSFER_NONE s st en old) in
  cr_status row = END_ /\ cr_transcript row = full_transcript s.
Proof. unfold final_record. by destruct (wrap_up_started_at_wallclock s). Qed.

(** The session the finalization gets. *)
Lemma outcome_recordable o s :
  record_ok s -> (forall b, o = Ok b -> is_Some (hangup_cause s)) ->
  let s1 := outcome_session (call_outcome o s) in
  call_record_id s1 = call_record_id s /\ full_transcript s1 = full_transcript s
  /\ pipeline_trace_records s1 = pipeline_trace_records s
  /\ exists c, hangup_cause s1 = Some c /\ c ∈ ENGINE_CAUSES
             /\ forall c', hangup_cause s = Some c' -> c = c'.
Proof.
  intros [_ Hc] Ho. assert (Hset : forall d, d ∈ ENGINE_CAUSES ->
    let s1 := cause_unless_set d s in
    call_record_id s1 = call_record_id s /\ full_transcript s1 = full_transcript s
    /\ pipeline_trace_records s1 = pipeline_trace_records s
    /\ exists c, hangup_cause s1 = Some c /\ c ∈ ENGINE_CAUSES /\ forall c', hangup_cause s = Some c' -> c = c').
  { intros d Hd. unfold cause_unless_set. destruct (hangup_cause s) as [c|] eqn:Hs; simpl.
    - rewrite Hs. split_and!; [done..|]. exists c. split_and!; [done|by apply Hc|congruence].
    - split_and!; [done..|]. exists d. by split_and!. }
  destruct o as [b|e]; simpl.
  - destruct (Ho b eq_refl) as [c Hs]. split_and!; [done..|]. exists c. split_and!; [done|by apply Hc|congruence].
  - destruct e; apply Hset; engine_cause.
Qed.

End Record.
End Files.

(** ** A call the operator hangs up *)

Definition demo_store : World :=
  boot 3 <| counter := 2 |> <| sessions := {[1 := new_session 1 2 3 [] [] 4 0]} |>
         <| faults := [false; true; false; false; true] |>.

(** The customer speaks and is answered; then the operator hangs up. *)
Abbreviation hung_up :=
  (demo_run [spoken_iter [72]; spoken_iter [73]] (replicate 18 None ++ [Some (ByOperator, false)])).

