(* ===== verification/Listen.v ===== *)
(** * Listening

    [run_loop.py], from [_subscribe_control_bridges] to [_stop_listen_pumps]: the
    recogniser's results and the line's events are posted on the call's event bus by
    two pumps, and bridge handlers on the bus feed the queues and flags the call loop
    and the monitors read; operator commands reach the call over the same bus.  The
    state is the bus system of [EventBus] with the bridges as its handlers, the pumps,
    and a history of what was recognised and what the loop took; every order in which
    the tasks can run is a path of [lstep]. *)
From S2P Require Import Prelude Session EventBus Providers.
Import Providers.Asr.

(** ** The bridges *)

(** [session.tasks["main"]]. *)
Inductive MainTask : Type := NoMain | MainLive | MainDone.

(** What the bridge handlers write. *)
Record Sink := mkSink {
  asr_finals_q : list pystr;
  asr_partials_q : list pystr;
  hangup_set : bool;
  asr_finished : bool;
  sk_cause : option string;              (* session.hangup_cause *)
  main_task : MainTask;
  main_cancelled : bool }.

#[export] Instance Sink_eta : Eta Sink := fun w =>
  mkSink (asr_finals_q w) (asr_partials_q w) (hangup_set w) (asr_finished w) (sk_cause w)
    (main_task w) (main_cancelled w).

Definition MANUAL_HANGUP : string := "manual_hangup".

Definition terminate (cause : string) (w : Sink) : Sink :=
  match main_task w with
  | MainLive => w <| sk_cause := Some cause |> <| main_cancelled := true |>
  | _ => w
  end.

Definition H_MANUAL : hid := 0%nat.
Definition H_TRANSFER : hid := 1%nat.
Definition H_FINAL : hid := 2%nat.
Definition H_PARTIAL : hid := 3%nat.
Definition H_HANGUP : hid := 4%nat.
Definition H_ENDED : hid := 5%nat.

(** What one bridge call writes. *)
Definition bridge_sink (h : hid) (e : Event) (w : Sink) : Sink :=
  match h, e with
  | 0%nat, ManualHangupRequested _ | 1%nat, TransferRequested _ => terminate MANUAL_HANGUP w
  | 2%nat, AsrFinal t => w <| asr_finals_q ::= fun q => q ++ [t] |>
  | 3%nat, AsrPartial t => w <| asr_partials_q ::= fun q => q ++ [t] |>
  | 4%nat, HangupDetected _ => w <| hangup_set := true |>
  | 5%nat, AsrStreamEnded => w <| asr_finished := true |>
  | _, _ => w
  end.

(** No bridge raises or touches the bus. *)
Definition bridge (h : hid) (e : Event) (w : Sink) : Sink * list bus_act * outcome :=
  (bridge_sink h e w, [], Returned).

Definition control_bridges : list bus_act :=
  [ActSubscribe TManualHangupRequested H_MANUAL; ActSubscribe TTransferRequested H_TRANSFER].

Definition listen_bridges : list bus_act :=
  [ActRegister TAsrPartial LOSSY; ActSubscribe TAsrFinal H_FINAL;
   ActSubscribe TAsrPartial H_PARTIAL; ActSubscribe THangupDetected H_HANGUP;
   ActSubscribe TAsrStreamEnded H_ENDED].

(** ** The listening part of a call *)

Inductive Phase : Type := Preamble | Dialing | Listening | Stopped.

#[export] Instance Phase_eq_dec : EqDecision Phase.
Proof. solve_decision. Defined.

Record Listener := mkListener {
  l_sys : sys Sink;
  phase : Phase;
  pump_asr : bool;                       (* the pumps that are running *)
  pump_ev : bool;
  monitors : bool;
  speech_anchor : option Z;              (* session.current_user_speech_started_ms *)
  recognised : list pystr;               (* the nonempty finals of the recogniser, so far *)
  discarded : list pystr;                (* those thrown away after the greeting *)
  heard : list pystr }.                  (* those the call loop took *)

#[export] Instance Listener_eta : Eta Listener := fun l =>
  mkListener (l_sys l) (phase l) (pump_asr l) (pump_ev l) (monitors l) (speech_anchor l)
    (recognised l) (discarded l) (heard l).

Abbreviation sink l := (s_world (l_sys l)).

Definition new_listener (maxsize : nat) : Listener :=
  mkListener (sys_init maxsize (mkSink [] [] false false None MainLive false)) Preamble false false
    false None [] [] [].

(** An operator command, posted by the control consumer; it may come before the session
    has begun. *)
Definition control (e : Event) (l : Listener) : Listener := l <| l_sys ::= acts_step [ActPost e] |>.

(** [_subscribe_control_bridges] and [bus.start]. *)
Definition begin_session (l : Listener) : Listener :=
  l <| l_sys ::= fun s => acts_step control_bridges s <| s_bus ::= start |> |> <| phase := Dialing |>.

Definition start_monitors (l : Listener) : Listener := l <| monitors := true |>.

Definition start_listen_pumps (with_monitors : bool) (l : Listener) : Listener :=
  let l := l <| l_sys ::= acts_step listen_bridges |> <| phase := Listening |>
             <| pump_asr := true |> <| pump_ev := true |> in
  if with_monitors then start_monitors l else l.

(** One result of the recogniser in [_asr_pump]. *)
Definition asr_result (r : ASRResult) (l : Listener) : Listener :=
  match asr_text r with
  | [] => l
  | t =>
      if asr_final r then
        l <| l_sys ::= acts_step [ActPost (AsrFinal t)] |> <| speech_anchor := None |>
          <| recognised ::= fun ts => ts ++ [t] |>
      else l <| l_sys ::= acts_step [ActPost (AsrPartial t)] |>
  end.

(** The end of [_asr_pump], by exhaustion, error or cancellation. *)
Definition asr_ended (l : Listener) : Listener :=
  l <| l_sys ::= acts_step [ActPost AsrStreamEnded] |> <| pump_asr := false |>.

Definition HANGUP_EVENTS : list string := ["remote_hangup"; "local_hangup"; "device_error"]%string.

(** One line event in [_ev_pump], which stops at the first hangup. *)
Definition ev_event (type : string) (l : Listener) : Listener :=
  if bool_decide (type ∈ HANGUP_EVENTS) then
    l <| l_sys ::= acts_step [ActPost (HangupDetected type)] |> <| pump_ev := false |>
  else l.

Definition drain_greeting_era_asr (l : Listener) : Listener :=
  l <| discarded ::= fun ts => ts ++ asr_finals_q (sink l) |>
    <| l_sys ::= fun s => s <| s_world := s_world s <| asr_finals_q := [] |>
                                                    <| asr_partials_q := [] |> |> |>
    <| speech_anchor := None |>.

Definition stop_listen_pumps (l : Listener) : Listener :=
  let l := if pump_asr l then asr_ended l else l in
  l <| pump_ev := false |> <| monitors := false |> <| phase := Stopped |>.

(** The call loop takes an utterance, a monitor a partial. *)
Definition take_final (t : pystr) (q : list pystr) (l : Listener) : Listener :=
  l <| l_sys ::= fun s => s <| s_world := s_world s <| asr_finals_q := q |> |> |>
    <| heard ::= fun ts => ts ++ [t] |>.

Definition take_partial (q : list pystr) (l : Listener) : Listener :=
  l <| l_sys ::= fun s => s <| s_world := s_world s <| asr_partials_q := q |> |> |>.

Definition is_control (e : Event) : bool :=
  match e with ManualHangupRequested _ | TransferRequested _ => true | _ => false end.

Inductive lstep : Listener -> Listener -> Prop :=
| ls_control e l : is_control e = true -> lstep l (control e l)
| ls_begin l : phase l = Preamble -> lstep l (begin_session l)
| ls_listen m l : phase l = Dialing -> lstep l (start_listen_pumps m l)
| ls_asr r l : phase l = Listening -> pump_asr l = true -> lstep l (asr_result r l)
| ls_asr_ended l : phase l = Listening -> pump_asr l = true -> lstep l (asr_ended l)
| ls_ev type l : phase l = Listening -> pump_ev l = true -> lstep l (ev_event type l)
| ls_ev_ended l : phase l = Listening -> lstep l (l <| pump_ev := false |>)
| ls_greeting_done l :
    phase l = Listening -> monitors l = false ->
    lstep l (start_monitors (drain_greeting_era_asr l))
| ls_final t q l :
    phase l = Listening -> monitors l = true -> asr_finals_q (sink l) = t :: q ->
    lstep l (take_final t q l)
| ls_partial t q l :
    phase l = Listening -> monitors l = true -> asr_partials_q (sink l) = t :: q ->
    lstep l (take_partial q l)
| ls_main_done l :
    lstep l (l <| l_sys ::= fun s => s <| s_world := s_world s <| main_task := MainDone |> |> |>)
| ls_work s' l : work bridge (l_sys l) s' -> lstep l (l <| l_sys := s' |>)
| ls_stop l : phase l = Listening -> lstep l (stop_listen_pumps l)
| ls_close l :
    phase l = Dialing \/ phase l = Stopped -> closed (s_bus (l_sys l)) = false ->
    lstep l (l <| l_sys ::= fun s => s <| s_bus := s_bus s <| closed := true |> |>
                                       <| s_ac := Draining (length (lossless (s_bus s))) None |> |>
               <| phase := Stopped |>).

(** ** What the bridges have seen *)

Definition finals_of (es : list Event) : list pystr :=
  flat_map (fun e => match e with AsrFinal t => [t] | _ => [] end) es.

Definition is_hangup (e : Event) : bool := match e with HangupDetected _ => true | _ => false end.
Definition is_ended (e : Event) : bool := match e with AsrStreamEnded => true | _ => false end.
Definition is_partial (e : Event) : Prop := match e with AsrPartial _ => True | _ => False end.

(** Events accepted on the lossless lane that no bridge has been called for yet. *)
Definition in_flight (d : dispatcher) : list Event :=
  match d with
  | Busy f => match fl_todo f with [] => [] | _ => [fl_event f] end
  | _ => []
  end.

Definition transit {W} (s : sys W) : list Event := in_flight (s_ll s) ++ lossless (s_bus s).

(** The finals still on their way to the call loop's queue. *)
Definition in_transit (l : Listener) : list pystr := finals_of (transit (l_sys l)).

Definition stopped_by_operator (w : Sink) : Prop :=
  (main_cancelled w = true /\ sk_cause w = Some MANUAL_HANGUP) \/ main_task w = MainDone.

(** The sink is what the bridges make of the events [seen]. *)
Record delivered (seen : list Event) (l : Listener) : Prop := {
  dl_finals : finals_of seen = discarded l ++ heard l ++ asr_finals_q (sink l);
  dl_control : existsb is_control seen = true -> stopped_by_operator (sink l);
  dl_hangup : hangup_set (sink l) = existsb is_hangup seen;
  dl_ended : asr_finished (sink l) = existsb is_ended seen }.

(** The bridge of each class that travels on the lossless lane. *)
Definition bridge_of (e : Event) : option hid :=
  match e with
  | ManualHangupRequested _ => Some H_MANUAL
  | TransferRequested _ => Some H_TRANSFER
  | AsrFinal _ => Some H_FINAL
  | HangupDetected _ => Some H_HANGUP
  | AsrStreamEnded => Some H_ENDED
  | _ => None
  end.

Definition bridges_up (p : Phase) : list (EventType * list hid) :=
  match p with
  | Preamble => []
  | Dialing => handlers (do_acts control_bridges (bus_init 0))
  | _ => handlers (do_acts listen_bridges (do_acts control_bridges (bus_init 0)))
  end.

Definition lanes_up (p : Phase) : list (EventType * Lane) :=
  match p with Preamble | Dialing => [] | _ => [(TAsrPartial, LOSSY)] end.

(** The events that can be queued in a phase. *)
Definition served (p : Phase) (e : Event) : Prop :=
  match p with
  | Preamble | Dialing => is_control e = true
  | _ => is_Some (bridge_of e)
  end.

Definition flight_served (p : Phase) (f : flight) : Prop :=
  fl_todo f = [] \/ (served p (fl_event f) /\ bridge_of (fl_event f) = head (fl_todo f)
                     /\ length (fl_todo f) = 1%nat).

(** While the bus is open. *)
Record open_inv (l : Listener) : Prop := {
  oi_closed : closed (s_bus (l_sys l)) = false;
  oi_started : started (s_bus (l_sys l)) = negb (bool_decide (phase l = Preamble));
  oi_handlers : handlers (s_bus (l_sys l)) = bridges_up (phase l);
  oi_lanes : lanes (s_bus (l_sys l)) = lanes_up (phase l);
  oi_ll : match s_ll (l_sys l) with Idle => True | Busy f => flight_served (phase l) f | Dead => False end;
  oi_ly : match s_ly (l_sys l) with Busy f => is_partial (fl_event f) | _ => True end;
  oi_lossy : Forall is_partial (lossy (s_bus (l_sys l)));
  oi_served : Forall (served (phase l)) (lossless (s_bus (l_sys l)));
  oi_main : main_task (sink l) <> NoMain;
  oi_recognised : recognised l = finals_of (posted_ll (l_sys l));
  oi_delivered : exists seen, posted_ll (l_sys l) = seen ++ transit (l_sys l) /\ delivered seen l }.

Definition listen_inv (l : Listener) : Prop :=
  (phase l <> Stopped -> s_ac (l_sys l) = Open /\ (monitors l = false -> heard l = []))
  /\ (s_ac (l_sys l) = Open -> open_inv l).

Lemma finals_of_app es es' : finals_of (es ++ es') = finals_of es ++ finals_of es'.
Proof. apply flat_map_app. Qed.

#[local] Arguments finals_of : simpl never.

(** *** Posting *)

Lemma post_lossless {W} e (s : sys W) :
  closed (s_bus s) = false -> lane_for (s_bus s) (event_class e) = LOSSLESS ->
  acts_step [ActPost e] s
  = s <| s_bus := s_bus s <| lossless ::= fun q => q ++ [e] |> |>
      <| posted_ll ::= fun p => p ++ [e] |>.
Proof.
  intros Hc Hl. destruct s as [[? ? ? ? ? ? cl ?] w ll ly ac pl py tl ty fi ab]. simpl in *. subst cl.
  unfold acts_step, do_acts. simpl. unfold post. simpl. rewrite Hl. simpl. by rewrite app_nil_r.
Qed.

Lemma post_lossy {W} e (s : sys W) :
  closed (s_bus s) = false -> lane_for (s_bus s) (event_class e) = LOSSY ->
  exists b' y, acts_step [ActPost e] s = s <| s_bus := b' |> <| posted_ly := y |>
    /\ closed b' = false /\ started b' = started (s_bus s) /\ handlers b' = handlers (s_bus s)
    /\ lanes b' = lanes (s_bus s) /\ lossless b' = lossless (s_bus s)
    /\ (forall P : Event -> Prop, P e -> Forall P (lossy (s_bus s)) -> Forall P (lossy b')).
Proof.
  intros Hc Hl. destruct s as [b w ll ly ac pl py tl ty fi ab]. simpl in *.
  unfold acts_step, do_acts. simpl. unfold post. rewrite Hc, Hl. simpl.
  eexists _, _. split; [by rewrite app_nil_r|]. unfold put_nowait.
  destruct (_ && _); [destruct (lossy b) as [|x q] eqn:Hq; simpl; destruct (_ && _)|]; simpl;
    rewrite ?Hq; split_and!; try done; intros P He HP; simpl;
    try apply Forall_cons in HP as [_ HP]; try apply Forall_app_2; auto.
Qed.

(** [open_inv] reads only these fields. *)
Lemma open_inv_ext l l' :
  l_sys l' = l_sys l -> phase l' = phase l -> recognised l' = recognised l ->
  discarded l' = discarded l -> heard l' = heard l -> open_inv l -> open_inv l'.
Proof.
  destruct l, l'. simpl. intros -> -> -> -> -> [? ? ? ? ? ? ? ? ? ? [seen [Hs [? ? ? ?]]]].
  constructor; try done. by exists seen.
Qed.

Lemma lane_up l e :
  open_inv l -> lane_for (s_bus (l_sys l)) (event_class e)
                = if bool_decide (event_class e = TAsrPartial)
                  then match phase l with Preamble | Dialing => LOSSLESS | _ => LOSSY end
                  else LOSSLESS.
Proof.
  intros Ho. pose proof (oi_lanes _ Ho) as Hl. case_bool_decide as He.
  - unfold lane_for. rewrite Hl, He. by destruct (phase l); simpl; try case_match.
  - apply lane_for_unregistered. rewrite Hl. by destruct (phase l), (event_class e).
Qed.

(** A lossless post: the queue, what was posted and, for a final, what was recognised. *)
Lemma post_open e l :
  open_inv l -> served (phase l) e ->
  open_inv (l <| l_sys ::= acts_step [ActPost e] |> <| recognised ::= fun r => r ++ finals_of [e] |>).
Proof.
  intros Ho He. unfold set_field; cbv beta. rewrite post_lossless; [|by apply oi_closed|].
  - destruct Ho as [Hc Hst Hh Hl Hll Hly Hy Hs Hm Hr (seen & Hp & [? ? ? ?])].
    constructor; try done; simpl.
    + apply Forall_app. split; [done|by apply Forall_singleton].
    + by rewrite finals_of_app, Hr.
    + exists seen. split; [|by constructor]. unfold transit in *. simpl.
      by rewrite Hp, !app_assoc.
  - rewrite lane_up by done. rewrite bool_decide_false; [done|].
    destruct (phase l), e; simpl in *; try done; by destruct He.
Qed.

Lemma post_open_silent e l :
  open_inv l -> served (phase l) e -> finals_of [e] = [] ->
  open_inv (l <| l_sys ::= acts_step [ActPost e] |>).
Proof.
  intros Ho He Hf. apply (open_inv_ext (l <| l_sys ::= acts_step [ActPost e] |>
    <| recognised ::= fun r => r ++ finals_of [e] |>)); try done; [|by apply post_open].
  simpl. by rewrite Hf, app_nil_r.
Qed.

Lemma post_partial_open t l :
  open_inv l -> phase l = Listening -> open_inv (l <| l_sys ::= acts_step [ActPost (AsrPartial t)] |>).
Proof.
  intros Ho Hph.
  destruct (post_lossy (AsrPartial t) (l_sys l)) as (b & y & Heq & Hc & Hst & Hh & Hl & Hll & HP);
    [by apply oi_closed|rewrite lane_up by done; by rewrite Hph|].
  unfold set_field; cbv beta. rewrite Heq. clear Heq.
  destruct Ho as [? ? ? ? ? ? ? ? ? ? (seen & Hp & [? ? ? ?])].
  constructor; simpl; try congruence; auto.
  - by apply HP.
  - exists seen. unfold transit in *. simpl. rewrite Hll. by split.
Qed.

(** *** One bridge call *)

Lemma terminate_sink c w :
  asr_finals_q (terminate c w) = asr_finals_q w /\ hangup_set (terminate c w) = hangup_set w
  /\ asr_finished (terminate c w) = asr_finished w /\ main_task (terminate c w) = main_task w.
Proof. unfold terminate. by destruct (main_task w) eqn:?. Qed.

Lemma bridge_main h e w : main_task (bridge_sink h e w) = main_task w.
Proof.
  destruct h as [|[|[|[|[|[|h]]]]]], e; simpl; try done; apply terminate_sink.
Qed.

Lemma terminate_stops w : main_task w <> NoMain -> stopped_by_operator (terminate MANUAL_HANGUP w).
Proof. unfold terminate, stopped_by_operator. destruct (main_task w) eqn:H; naive_solver. Qed.

Lemma stopped_bridge h e w : stopped_by_operator w -> stopped_by_operator (bridge_sink h e w).
Proof.
  unfold stopped_by_operator.
  destruct h as [|[|[|[|[|[|h]]]]]], e; simpl; try done; unfold terminate;
    destruct (main_task w) eqn:Hm; simpl; naive_solver.
Qed.

Lemma delivered_next seen l e h s' :
  delivered seen l -> bridge_of e = Some h -> main_task (sink l) <> NoMain ->
  s_world s' = (bridge_sink h e (sink l)) -> delivered (seen ++ [e]) (l <| l_sys := s' |>).
Proof.
  intros [Hf Hc Hh He] Hb Hm Hw. pose proof (terminate_sink MANUAL_HANGUP (sink l)) as (Ht & Hth & Hte & _).
  constructor; simpl; rewrite ?finals_of_app, ?existsb_app, Hw.
  - rewrite Hf. destruct e; simplify_eq/=; rewrite ?Ht, ?app_nil_r, <-?app_assoc; done.
  - intros [Hs|Hs]%orb_true_iff; [by apply stopped_bridge, Hc|].
    destruct e; simplify_eq/=; by apply terminate_stops.
  - destruct e; simplify_eq/=; rewrite ?Hth, ?Hh, ?orb_false_r, ?orb_true_r; done.
  - destruct e; simplify_eq/=; rewrite ?Hte, ?He, ?orb_false_r, ?orb_true_r; done.
Qed.

(** *** Every step keeps the invariant *)

(** The snapshot of a served event is its bridge alone. *)
Lemma served_snapshot l e :
  open_inv l -> phase l <> Preamble -> served (phase l) e ->
  exists h, bridge_of e = Some h /\ snapshot (s_bus (l_sys l)) e = [h].
Proof.
  intros Ho Hp He. unfold snapshot. rewrite (oi_handlers _ Ho).
  destruct (phase l), e; simpl in *; try done; try (by destruct He); eexists; split; reflexivity.
Qed.

Lemma call_bridge h e s :
  call_step bridge h e s = (s <| s_world := (bridge_sink h e (s_world s)) |>, Returned).
Proof. destruct s. unfold call_step, acts_step. simpl. by rewrite !app_nil_r. Qed.

#[local] Arguments bridge_sink : simpl never.

(** A call of a flight on the lossless lane. *)
Lemma call_ll_open e sn cl h todo l :
  open_inv l -> s_ll (l_sys l) = Busy (mkFlight e sn cl (h :: todo)) ->
  open_inv (l <| l_sys ::= fun s => s <| s_world := (bridge_sink h e (s_world s)) |>
                                      <| s_ll := Busy (mkFlight e sn (cl ++ [h]) todo) |> |>).
Proof.
  intros Ho Hll. destruct Ho as [Hc Hst Hh Hl Hfl Hly Hy Hs Hm Hr (seen & Hp & Hd)].
  rewrite Hll in Hfl. destruct Hfl as [[=]|(He & Hb & [= Hlen])]. simpl in Hb.
  apply nil_length_inv in Hlen as ->.
  constructor; simpl; try done; [by left|by rewrite bridge_main|].
  exists (seen ++ [e]). unfold transit in *. simpl. rewrite Hll in Hp. simpl in Hp.
  split; [by rewrite Hp, <-app_assoc|]. by eapply delivered_next.
Qed.

(** A call on the lossy lane touches the partials alone. *)
Lemma bridge_partial_sink h e w :
  is_partial e -> exists q, (bridge_sink h e w) = w <| asr_partials_q := q |>.
Proof.
  destruct e; intros Hp; try done. destruct w as [f p hs af c m mc].
  destruct h as [|[|[|[|[|[|h]]]]]]; unfold bridge_sink; simpl; eexists; reflexivity.
Qed.

Lemma call_ly_open e h l d :
  open_inv l -> is_partial e -> match d with Busy f => is_partial (fl_event f) | _ => True end ->
  open_inv (l <| l_sys ::= fun s => s <| s_world := (bridge_sink h e (s_world s)) |>
                                      <| s_ly := d |> |>).
Proof.
  intros Ho He Hd. destruct (bridge_partial_sink h e (sink l) He) as [q Hq].
  destruct Ho as [Hc Hst Hh Hl Hfl Hly Hy Hs Hm Hr (seen & Hp & [? ? ? ?])].
  constructor; simpl; try done; [by rewrite bridge_main|].
  exists seen. split; [done|]. constructor; simpl; by rewrite Hq.
Qed.

(** The dispatchers take, and finish, events. *)
Lemma take_ll_open e q l :
  open_inv l -> started (s_bus (l_sys l)) = true -> s_ll (l_sys l) = Idle ->
  lossless (s_bus (l_sys l)) = e :: q ->
  open_inv (l <| l_sys ::= fun s => s <| s_bus := s_bus s <| lossless := q |> |>
     <| s_ll := Busy (mkFlight e (snapshot (s_bus s) e) [] (snapshot (s_bus s) e)) |>
     <| taken_ll ::= fun l => l ++ [e] |> |>).
Proof.
  intros Ho Hst Hi Hq. pose proof (oi_served _ Ho) as Hs. rewrite Hq in Hs.
  apply Forall_cons in Hs as [He Hs].
  assert (Hnp : phase l <> Preamble).
  { intros Hp. rewrite (oi_started _ Ho), Hp in Hst. done. }
  destruct (served_snapshot l e Ho Hnp He) as (h & Hb & Hsn).
  destruct Ho as [? ? ? ? ? ? ? _ ? ? (seen & Hp & [? ? ? ?])].
  unfold set_field; cbv beta. rewrite Hsn. constructor; simpl; try done; [by right|].
  exists seen. unfold transit in *. simpl. rewrite Hp, Hi, Hq. by split.
Qed.

Lemma work_open s' l :
  open_inv l -> s_ac (l_sys l) = Open -> work bridge (l_sys l) s' ->
  s_ac s' = Open /\ open_inv (l <| l_sys := s' |>).
Proof.
  intros Ho Hac Hw. inversion Hw as
    [e q s Hst Hi Hq|e sn cl h todo s s1 o Hb Hc _|e sn cl h todo s s1 Hb Hc|e sn cl s Hb
    |e q s Hst Hi Hq|e sn cl h todo s s1 o Hb Hc|e sn cl s Hb| | | | | ]; subst; try congruence;
    try (rewrite call_bridge in Hc; simplify_eq); (split; [done|]).
  - by apply (take_ll_open e q).
  - by apply call_ll_open.
  - destruct Ho as [? ? ? ? ? ? ? ? ? ? (seen & Hp & [? ? ? ?])]. constructor; try done. simpl.
    exists seen. unfold transit in *. rewrite Hb in Hp. by split.
  - destruct Ho as [? ? ? ? ? ? Hy ? ? ? (seen & Hp & [? ? ? ?])]. rewrite Hq in Hy.
    apply Forall_cons in Hy as [? ?]. constructor; try done. by exists seen.
  - pose proof (oi_ly _ Ho) as Hly. rewrite Hb in Hly. by apply call_ly_open.
  - destruct Ho as [? ? ? ? ? ? ? ? ? ? (seen & Hp & [? ? ? ?])]. constructor; try done.
    by exists seen.
Qed.

(** The phases' own operations. *)
Lemma served_mono p e : served Dialing e -> p <> Preamble -> p <> Dialing -> served p e.
Proof. destruct p, e; simpl; try done; eauto. Qed.

Lemma begin_open l : open_inv l -> phase l = Preamble -> open_inv (begin_session l).
Proof.
  intros [Hc Hst Hh Hl Hfl Hly Hy Hs Hm Hr (seen & Hp & [? ? ? ?])] Hph. rewrite Hph in *.
  unfold begin_session, acts_step, do_acts. simpl. unfold subscribe, start. simpl. rewrite Hst, Hh. simpl.
  constructor; simpl; rewrite ?app_nil_r; try done.
  by exists seen.
Qed.

Lemma listen_open m l : open_inv l -> phase l = Dialing -> open_inv (start_listen_pumps m l).
Proof.
  intros Ho Hph.
  assert (Hl : open_inv (start_listen_pumps false l)).
  { destruct Ho as [Hc Hst Hh Hl Hfl Hly Hy Hs Hm Hr (seen & Hp & [? ? ? ?])]. rewrite Hph in *.
    unfold start_listen_pumps, acts_step, do_acts. simpl.
    unfold subscribe, register_lane. simpl. rewrite Hh, Hl. simpl.
    constructor; simpl; rewrite ?app_nil_r; try done.
    - destruct (s_ll (l_sys l)) as [|f|]; try done. destruct Hfl as [?|(? & ? & ?)]; [by left|right].
      split_and!; try done. by apply served_mono.
    - eapply Forall_impl; [exact Hs|]. intros e He. by apply served_mono.
    - by exists seen. }
  destruct m; [|done]. by apply (open_inv_ext (start_listen_pumps false l)).
Qed.

Lemma drain_open l :
  open_inv l -> heard l = [] -> open_inv (start_monitors (drain_greeting_era_asr l)).
Proof.
  intros [Hc Hst Hh Hl Hfl Hly Hy Hs Hm Hr (seen & Hp & [Hd ? ? ?])] He.
  constructor; try done. exists seen. split; [done|]. constructor; try done. simpl.
  by rewrite Hd, He, app_nil_r.
Qed.

Lemma take_final_open t q l :
  open_inv l -> asr_finals_q (sink l) = t :: q -> open_inv (take_final t q l).
Proof.
  intros [Hc Hst Hh Hl Hfl Hly Hy Hs Hm Hr (seen & Hp & [Hd ? ? ?])] Hq.
  constructor; try done. exists seen. split; [done|]. constructor; try done. simpl.
  by rewrite Hd, Hq, <-app_assoc.
Qed.

Lemma world_open f l :
  open_inv l -> (forall w, asr_finals_q (f w) = asr_finals_q w /\ hangup_set (f w) = hangup_set w
    /\ asr_finished (f w) = asr_finished w /\ (main_task w <> NoMain -> main_task (f w) <> NoMain)
    /\ (stopped_by_operator w -> stopped_by_operator (f w))) ->
  open_inv (l <| l_sys ::= fun s => s <| s_world ::= f |> |>).
Proof.
  intros [Hc Hst Hh Hl Hfl Hly Hy Hs Hm Hr (seen & Hp & [Hd ? ? ?])] Hf.
  destruct (Hf (sink l)) as (Hf1 & Hf2 & Hf3 & Hf4 & Hf5).
  constructor; simpl; auto. exists seen. split; [done|]. constructor; simpl; auto; by rewrite ?Hf1, ?Hf2, ?Hf3.
Qed.

Lemma asr_result_open r l : open_inv l -> phase l = Listening -> open_inv (asr_result r l).
Proof.
  intros Ho Hp. unfold asr_result. destruct (asr_text r) as [|c t]; [done|].
  destruct (asr_final r); [|by apply post_partial_open].
  eapply open_inv_ext; [..|apply (post_open (AsrFinal (c :: t)) l Ho)]; try done.
  rewrite Hp. simpl. eauto.
Qed.

Lemma asr_ended_open l : open_inv l -> phase l = Listening -> open_inv (asr_ended l).
Proof.
  intros Ho Hp. eapply open_inv_ext; [..|apply (post_open_silent AsrStreamEnded l Ho)]; try done.
  rewrite Hp. simpl. eauto.
Qed.

Lemma stop_open l : open_inv l -> phase l = Listening -> open_inv (stop_listen_pumps l).
Proof.
  intros Ho Hp. unfold stop_listen_pumps.
  assert (Ho' : open_inv (if pump_asr l then asr_ended l else l)).
  { destruct (pump_asr l); [by apply asr_ended_open|done]. }
  set (l1 := if pump_asr l then asr_ended l else l) in *.
  assert (Hp1 : phase l1 = Listening) by (subst l1; by destruct (pump_asr l)).
  destruct Ho' as [? Hst Hh Hl Hfl ? ? Hs ? ? (seen & Hq & [? ? ? ?])].
  rewrite Hp1 in *. constructor; try done. by exists seen.
Qed.

Lemma ev_event_open type l : open_inv l -> phase l = Listening -> open_inv (ev_event type l).
Proof.
  intros Ho Hp. unfold ev_event. case_bool_decide; [|done].
  eapply open_inv_ext; [..|apply (post_open_silent (HangupDetected type) l Ho)]; try done.
  rewrite Hp. simpl. eauto.
Qed.

Lemma control_open e l : open_inv l -> is_control e = true -> open_inv (control e l).
Proof.
  intros Ho He. apply post_open_silent; [done| |by destruct e].
  destruct (phase l), e; simpl in *; eauto; done.
Qed.

Lemma lstep_inv l l' : listen_inv l -> lstep l l' -> listen_inv l'.
Proof.
  intros [Hph Ho] Hs. destruct Hs as
    [e l He|l Hp|m l Hp|r l Hp Hr|l Hp Hr|type l Hp Hr|l Hp|l Hp Hm|t q l Hp Hm Hq|t q l Hp Hm Hq
    |l|s' l Hw|l Hp|l Hp Hc].
  - split; [done|]. intros Hac. apply control_open; auto.
  - split; [intros _; apply Hph; by rewrite Hp|]. intros Hac. apply begin_open; auto.
  - destruct Hph as [Hac Hm]; [by rewrite Hp|]. split; [intros _|intros _; apply listen_open; auto].
    split; [by destruct m|]. destruct m; [by intros|done].
  - destruct Hph as [Hac Hm]; [by rewrite Hp|]. split; [intros _|intros _; apply asr_result_open; auto].
    unfold asr_result. by destruct (asr_text r), (asr_final r).
  - split; [done|]. intros Hac. apply asr_ended_open; auto.
  - destruct Hph as [Hac Hm]; [by rewrite Hp|]. split; [intros _|intros _; apply ev_event_open; auto].
    unfold ev_event. by case_bool_decide.
  - split; [done|]. intros Hac. by eapply open_inv_ext; [..|apply Ho].
  - destruct Hph as [Hac Hh]; [by rewrite Hp|]. split; [done|].
    intros _. apply drain_open; auto.
  - destruct Hph as [Hac Hh]; [by rewrite Hp|]. split; [intros _; split; [done|simpl; congruence]|].
    intros _. apply take_final_open; auto.
  - split; [done|]. intros Hac. apply (world_open (fun w => w <| asr_partials_q := q |>)); auto.
  - split; [done|]. intros Hac. apply (world_open (fun w => w <| main_task := MainDone |>)); [auto|].
    intros w. split_and!; try done. by right.
  - split.
    + intros Hns. destruct (Hph Hns) as [Hac Hm]. split; [|done]. simpl.
      by apply (work_open s' l); auto.
    + simpl. intros Hac. destruct (s_ac (l_sys l)) eqn:Hl; [apply work_open; auto|..];
        inversion Hw; subst; simpl in *; simplify_eq; try congruence;
        rewrite call_bridge in *; simplify_eq/=; congruence.
  - split; [done|]. destruct Hph as [Hac _]; [by rewrite Hp|]. intros _. apply stop_open; auto.
  - by split.
Qed.

Lemma listen_reachable n l : rtc lstep (new_listener n) l -> listen_inv l.
Proof.
  intros Hr. eapply rtc_invariant; [apply lstep_inv|exact Hr|]. split; [done|]. intros _.
  constructor; try done; try constructor. by exists [].
Qed.

(** ** What the call hears *)

Lemma bridge_quiet h e w : (bridge h e w).1.2 = [] /\ (bridge h e w).2 <> Cancelled.
Proof. done. Qed.

Lemma works_open s' l :
  open_inv l -> s_ac (l_sys l) = Open -> rtc (work bridge) (l_sys l) s' ->
  s_ac s' = Open /\ open_inv (l <| l_sys := s' |>).
Proof.
  intros Ho Hac Hr. remember (l_sys l) as s eqn:Hs. revert l Ho Hac Hs.
  induction Hr as [s|s s1 s2 Hw Hr IH]; intros l Ho Hac ->.
  - split; [done|]. by apply (open_inv_ext l).
  - destruct (work_open s1 l) as [Ha1 Ho1]; [done..|].
    destruct (IH _ Ho1 Ha1 eq_refl) as [Ha2 Ho2]. split; [done|].
    by apply (open_inv_ext (l <| l_sys := s1 |> <| l_sys := s2 |>)).
Qed.

(** Left alone, the dispatcher delivers everything accepted so far. *)
Lemma bridges_catch_up l :
  open_inv l -> s_ac (l_sys l) = Open -> phase l <> Preamble ->
  exists s', rtc (work bridge) (l_sys l) s' /\ open_inv (l <| l_sys := s' |>)
    /\ transit s' = [] /\ posted_ll s' = posted_ll (l_sys l).
Proof.
  intros Ho Hac Hp.
  destruct (dispatcher_catches_up bridge bridge_quiet (l_sys l)) as (s' & Hr & Hi & Hq & _ & Hps).
  - rewrite (oi_started _ Ho). by rewrite bool_decide_false.
  - intros Hd. pose proof (oi_ll _ Ho) as Hll. by rewrite Hd in Hll.
  - exists s'. split_and!; [done|by apply works_open| |done].
    unfold transit. by rewrite Hi, Hq.
Qed.

Lemma signals_delivered l :
  open_inv l -> s_ac (l_sys l) = Open -> phase l <> Preamble ->
  exists s', rtc (work bridge) (l_sys l) s'
    /\ (existsb is_control (posted_ll (l_sys l)) = true -> stopped_by_operator (s_world s'))
    /\ hangup_set (s_world s') = existsb is_hangup (posted_ll (l_sys l)).
Proof.
  intros Ho Hac Hp. destruct (bridges_catch_up l Ho Hac Hp) as (s' & Hw & Ho' & Ht & Hps).
  exists s'. destruct (oi_delivered _ Ho') as (seen & Hseen & [_ Hc Hh _]). simpl in *.
  rewrite Ht, app_nil_r in Hseen. by rewrite <-Hps, Hseen.
Qed.

(** Where the utterances recognised so far are. *)
Lemma utterances_accounted n l :
  rtc lstep (new_listener n) l -> phase l = Listening ->
  recognised l = discarded l ++ heard l ++ asr_finals_q (sink l) ++ in_transit l.
Proof.
  intros Hr Hp. destruct (listen_reachable n l Hr) as [Hph Ho]. destruct Hph as [Hac _]; [congruence|].
  specialize (Ho Hac). pose proof (oi_recognised _ Ho) as Hrec.
  destruct (oi_delivered _ Ho) as (seen & Hps & [Hd _ _ _]).
  by rewrite Hrec, Hps, finals_of_app, Hd, <-!app_assoc.
Qed.

(** C13: However the recogniser, the line, operator commands and the tasks of a call
    interleave, no utterance is lost, repeated or reordered between the recogniser and
    the call loop: the nonempty finals recognised so far are those discarded after the
    greeting, then those the loop took, then those in its queue, then those still on
    the bus.  And the bus always delivers: from any such state the dispatcher's own
    turns bring every utterance into the loop's queue. *)
Theorem utterances_reach_loop n l :
  rtc lstep (new_listener n) l -> phase l = Listening ->
  recognised l = discarded l ++ heard l ++ asr_finals_q (sink l) ++ in_transit l
  /\ exists s', rtc (work bridge) (l_sys l) s'
       /\ recognised l = discarded l ++ heard l ++ asr_finals_q (s_world s').
Proof.
  intros Hr Hp. destruct (listen_reachable n l Hr) as [Hph Ho].
  destruct Hph as [Hac _]; [congruence|]. specialize (Ho Hac).
  split; [by apply (utterances_accounted n)|].
  - destruct (bridges_catch_up l Ho Hac) as (s' & Hw & Ho' & Ht & _); [congruence|].
    exists s'. split; [done|]. pose proof (oi_recognised _ Ho') as Hrec.
    destruct (oi_delivered _ Ho') as (seen & Hps & [Hd _ _ _]). simpl in *.
    by rewrite Hrec, Hps, Ht, app_nil_r.
Qed.

(** Once the session has begun and until the bus is closed, an operator's hangup or
    transfer command that was accepted, even one posted before the session began, reaches
    the call within the dispatcher's own turns: the main task has been cancelled
    with the cause recorded as a manual hangup, or had already ended; and a hangup of
    the line reported by the event pump sets the flag the call loop waits on.  Neither is
    ever set without such an event. *)
Theorem signals_reach_call n l e :
  rtc lstep (new_listener n) l -> phase l <> Preamble -> s_ac (l_sys l) = Open ->
  e ∈ posted_ll (l_sys l) ->
  exists s', rtc (work bridge) (l_sys l) s'
    /\ (is_control e = true -> stopped_by_operator (s_world s'))
    /\ hangup_set (s_world s') = existsb is_hangup (posted_ll (l_sys l)).
Proof.
  intros Hr Hp Hac He. destruct (listen_reachable n l Hr) as [_ Ho]. specialize (Ho Hac).
  destruct (signals_delivered l Ho Hac Hp) as (s' & Hw & Hc & Hh). exists s'. split_and!; [done| |done].
  intros Hctl. apply Hc, existsb_exists. exists e. split; [by apply list_elem_of_In|done].
Qed.

(** *** Witnesses *)

(** A call on which the greeting is being played and the customer has said something. *)
Definition greeting_call (said : pystr) : Listener :=
  asr_result (mkASR said true 0) (start_listen_pumps false (begin_session (new_listener 4))).

Lemma greeting_call_reached c t : rtc lstep (new_listener 4) (greeting_call (c :: t)).
Proof.
  eapply rtc_l; [by apply ls_begin|]. eapply rtc_l; [by apply (ls_listen false)|].
  apply rtc_once. by apply ls_asr.
Qed.

Lemma utterances_reach_loop_witness :
  recognised (greeting_call (u8 "no")) = [u8 "no"]
  /\ exists s', rtc (work bridge) (l_sys (greeting_call (u8 "no"))) s' /\ [u8 "no"] = asr_finals_q (s_world s').
Proof.
  split; [reflexivity|]. exact (proj2 (utterances_reach_loop 4 (greeting_call (u8 "no"))
    (greeting_call_reached _ _) eq_refl)).
Defined.

Definition early_transfer : Listener :=
  begin_session (control (TransferRequested None) (new_listener 4)).

Lemma early_transfer_reached : rtc lstep (new_listener 4) early_transfer.
Proof. eapply rtc_l; [by apply (ls_control (TransferRequested None))|]. apply rtc_once. by apply ls_begin. Qed.

Lemma signals_reach_call_witness :
  exists s', rtc (work bridge) (l_sys early_transfer) s'
    /\ (is_control (TransferRequested None) = true -> stopped_by_operator (s_world s'))
    /\ hangup_set (s_world s') = existsb is_hangup (posted_ll (l_sys early_transfer)).
Proof.
  apply (signals_reach_call 4 early_transfer (TransferRequested None)).
  - apply early_transfer_reached.
  - discriminate.
  - reflexivity.
  - apply list_elem_of_here.
Defined.

(** The drain after the greeting empties the queues behind the bus, not the bus: an
    utterance recognised during the greeting that the dispatcher has not delivered yet
    is taken by the call loop as the first user turn. *)
Lemma greeting_final_survives_drain c t :
  exists l, rtc lstep (start_monitors (drain_greeting_era_asr (greeting_call (c :: t)))) l
    /\ discarded l = [] /\ heard l = [c :: t].
Proof.
  eexists. split; [|split].
  - eapply rtc_l; [apply ls_work; by apply (st_take_ll bridge (AsrFinal (c :: t)) [])|].
    eapply rtc_l; [apply ls_work; by eapply st_call_ll|].
    apply rtc_once. by apply (ls_final (c :: t) []).
  - reflexivity.
  - reflexivity.
Qed.
