(* ===== verification/Hearing.v ===== *)
(** * Hearing

    The path from the line to the call loop: the inbound audio of [RtcLine.Media], the
    recogniser's stream of [AsrStream] that reads it, and the bus and queues of [Listen]
    its results go through.  The three systems run side by side and meet in three places:
    the push task takes the next chunk from the line's iterator, or sees it end; and the
    pump of [run_loop.py] takes the stream's next result and posts it. *)

From S2P Require Import Prelude Bytes CloudEdge RtcTelephony RtcLine Providers AsrStream Session EventBus Listen.
Import Providers.Asr.
#[local] Existing Instance Media.Line_eta.

Section Hearing.
  Context {RS : Type} (tomono : bytes -> bytes) (ratecv : bytes -> Z -> RS -> bytes * RS)
    (rms : bytes -> Z) (rs0 : RS) (edge_uid : pystr) (gate : option (Z * Q)).
  Context (target : Z) (backoffs : nat).
  Context (gunzip : bytes -> option bytes) (json_loads : bytes -> option pyval).

Abbreviation line_step := (Media.step tomono ratecv rms rs0 edge_uid gate).
Abbreviation stream_step := (AsrStream.step target backoffs gunzip json_loads).

Record Ear := mkEar { e_line : Media.Line (RS := RS); e_stream : Stream; e_listen : Listener }.

#[export] Instance Ear_eta : Eta Ear := fun x => mkEar (e_line x) (e_stream x) (e_listen x).

(** The chunks a stream has read, over all its connections. *)
Definition reads (s : Stream) : nat := (list_sum (map cn_reads (past s)) + c_reads s)%nat.

(** The push task finds the audio ended. *)
Definition sees_end (s s' : Stream) : Prop :=
  gen s = Some [] /\ (exists buf, push s = PushNext buf) /\ push s' = PushDone.

Inductive hstep : Ear -> Ear -> Prop :=
(* each part by itself *)
| h_line l' x : line_step (e_line x) l' -> Media.asr l' = Media.asr (e_line x) -> hstep x (x <| e_line := l' |>)
| h_stream s' x :
    stream_step (e_stream x) s' -> reads s' = reads (e_stream x) -> yielded s' = yielded (e_stream x) ->
    ~ sees_end (e_stream x) s' -> hstep x (x <| e_stream := s' |>)
| h_listen l' x :
    lstep (e_listen x) l' -> (forall r, l' = asr_result r (e_listen x) -> l' = e_listen x) ->
    hstep x (x <| e_listen := l' |>)
(* the push task and the line's iterator *)
| h_read c q buf rest x :
    Media.iter_get (Media.inbound_q (e_line x)) (Media.asr (e_line x))
      = Some (q, Media.mkIter (Media.heard (Media.asr (e_line x)) ++ [c]) false) ->
    push (e_stream x) = PushNext buf -> gen (e_stream x) = Some (c :: rest) ->
    hstep x (x <| e_line ::= fun l => l <| Media.inbound_q := q |>
                                        <| Media.asr := Media.mkIter (Media.heard (Media.asr l) ++ [c]) false |> |>
               <| e_stream ::= push_read target c rest buf |>)
| h_audio_ends q buf x :
    Media.iter_get (Media.inbound_q (e_line x)) (Media.asr (e_line x))
      = Some (q, Media.mkIter (Media.heard (Media.asr (e_line x))) true) ->
    push (e_stream x) = PushNext buf -> gen (e_stream x) = Some [] ->
    hstep x (x <| e_line ::= fun l => l <| Media.inbound_q := q |>
                                        <| Media.asr := Media.mkIter (Media.heard (Media.asr l)) true |> |>
               <| e_stream ::= fun s => s <| push := PushDone |> |>)
(* the stream's next result and the pump *)
| h_result r todo x :
    AsrStream.phase (e_stream x) = Yielding (r :: todo) ->
    phase (e_listen x) = Listening -> pump_asr (e_listen x) = true ->
    hstep x (x <| e_stream ::= fun s => s <| AsrStream.phase := Yielding todo |> <| attempt := 0%nat |>
                                          <| c_results ::= fun l => l ++ [r] |> |>
               <| e_listen ::= asr_result r |>).

(** The nonempty finals among some results. *)
Definition finals_in (rs : list ASRResult) : list pystr :=
  flat_map (fun r => if asr_final r then match asr_text r with [] => [] | t => [t] end else []) rs.

Lemma finals_in_app rs rs' : finals_in (rs ++ rs') = finals_in rs ++ finals_in rs'.
Proof. apply flat_map_app. Qed.

(** *** What the parts do by themselves *)

Lemma stream_gen s s' :
  stream_step s s' -> reads s' = reads s -> gen s' = gen s \/ gen s' = None.
Proof.
  intros Hs Hr.
  destruct Hs; simpl in *; auto; unfold disconnected, message, finish.
  all: repeat match goal with
              | |- context [if ?b then _ else _] => destruct b
              | |- context [match receive ?a ?b ?c ?d with _ => _ end] => destruct (receive a b c d)
              | |- context [let '(_, _) := ?d in _] => destruct d
              end; simpl; try (destruct (push s); auto); auto.
  all: unfold reads, push_read in Hr; simpl in Hr; lia.
Qed.

Lemma listen_recognised l l' :
  lstep l l' -> (forall r, l' = asr_result r l -> l' = l) -> recognised l' = recognised l.
Proof.
  intros Hl Hr. destruct Hl; simpl; try done.
  - unfold start_listen_pumps. by destruct m.
  - by rewrite (Hr r).
  - unfold ev_event. by case_bool_decide.
  - unfold stop_listen_pumps. by destruct (pump_asr l).
Qed.

Lemma asr_result_phase r l : phase (asr_result r l) = phase l.
Proof. unfold asr_result. destruct (asr_text r), (asr_final r); reflexivity. Qed.

Lemma result_recognised r l : recognised (asr_result r l) = recognised l ++ finals_in [r].
Proof.
  unfold asr_result, finals_in. simpl.
  destruct (asr_text r) as [|ch t]; destruct (asr_final r); simpl; by rewrite ?app_nil_r.
Qed.

(** *** The whole path *)

Context (audio : list bytes) (n : nat) (Htarget : 1 <= target).

(** A call that was just dialled; [audio] is what its recogniser will get to read. *)
Definition new_ear : Ear := mkEar (Media.dialled (RS := RS)) (new_stream audio) (new_listener n).

Record ear_inv (x : Ear) : Prop := {
  ei_line : rtc line_step Media.dialled (e_line x);
  ei_stream : rtc stream_step (new_stream audio) (e_stream x);
  ei_listen : rtc lstep (new_listener n) (e_listen x);
  ei_read : Media.heard (Media.asr (e_line x)) = take (reads (e_stream x)) audio;
  ei_gen : forall l, gen (e_stream x) = Some l -> l = drop (reads (e_stream x)) audio;
  ei_results : recognised (e_listen x) = finals_in (yielded (e_stream x)) }.

Lemma hstep_inv x y : ear_inv x -> hstep x y -> ear_inv y.
Proof.
  intros [H1 H2 H3 H4 H5 H6] Hxy.
  destruct Hxy as [l' x Hl Ha|s' x Hs Hr Hy _|l' x Hl Hn|c q buf rest x Hi Hp Hg|q buf x Hi Hp Hg|r todo x Hp Hph Hpu].
  - constructor; simpl; try done; [by eapply rtc_r|by rewrite Ha].
  - constructor; simpl; try done; [by eapply rtc_r|by rewrite Hr| |by rewrite Hy].
    intros l Hg. rewrite Hr. apply H5. destruct (stream_gen _ _ Hs Hr) as [He|He]; congruence.
  - constructor; simpl; try done; [by eapply rtc_r|]. by rewrite (listen_recognised _ _ Hl Hn).
  - specialize (H5 _ Hg).
    assert (Hrd : reads (push_read target c rest buf (e_stream x)) = S (reads (e_stream x))) by (unfold reads, push_read; simpl; lia).
    assert (Hc : audio !! reads (e_stream x) = Some c) by (rewrite <-(Nat.add_0_r (reads (e_stream x))), <-lookup_drop, <-H5; done).
    constructor; simpl; try done.
    + eapply rtc_r; [exact H1|]. right. by apply Media.own_asr.
    + eapply rtc_r; [exact H2|]. by apply st_push_read.
    + by rewrite Hrd, H4, (take_S_r _ _ _ Hc).
    + rewrite Hrd. intros l [= <-]. by rewrite <-Nat.add_1_r, <-drop_drop, <-H5.
  - constructor; simpl; try done.
    + eapply rtc_r; [exact H1|]. right. by apply Media.own_asr.
    + eapply rtc_r; [exact H2|]. apply (st_push_end _ _ _ _ buf); [done|by left].
  - constructor; simpl; try done.
    + eapply rtc_r; [exact H2|]. by apply st_yield.
    + eapply rtc_r; [exact H3|]. by apply ls_asr.
    + rewrite result_recognised, H6. unfold yielded. simpl. by rewrite (app_assoc _ _ [r]), (finals_in_app _ [r]).
Qed.

Lemma ear_reachable x : rtc hstep new_ear x -> ear_inv x.
Proof.
  intros Hr. eapply rtc_invariant; [apply hstep_inv|exact Hr|].
  constructor; simpl; try done; try reflexivity. by intros l [= <-].
Qed.

(** C12: What the caller says reaches the call loop as the recogniser understood it: however
    the line, the recogniser's tasks and connections, the bus and the loop interleave, the
    recogniser has read exactly the frames its iterator delivered, a prefix of the audio
    received on the line; each of its connections was sent a prefix of the packets of what
    it read of them; and the nonempty finals it returned are, in order and each once, those
    discarded after the greeting, those the loop took, those in its queue and those still
    on the bus. *)
Theorem speech_reaches_loop x :
  rtc hstep new_ear x -> phase (e_listen x) = Listening ->
  Media.heard (Media.asr (e_line x)) = take (reads (e_stream x)) audio
  /\ Media.heard (Media.asr (e_line x)) `prefix_of`
       (Media.lanes tomono ratecv rms rs0 edge_uid gate (Media.received (e_line x))).1
  /\ (exists ss rr e,
        stream_recognize target backoffs 0 (connections (e_stream x)) (Some audio) = (ss, rr, e)
        /\ Forall2 prefix (sent (e_stream x)) ss
        /\ finals_in rr = discarded (e_listen x) ++ heard (e_listen x)
                          ++ asr_finals_q (sink (e_listen x)) ++ in_transit (e_listen x)).
Proof.
  intros [H1 H2 H3 H4 H5 H6]%ear_reachable Hp. split_and!; [done| |].
  - apply Media.line_reachable in H1. eapply Media.lane_prefix, Media.li_asr, H1.
  - destruct (stream_refines target backoffs gunzip json_loads audio Htarget _ H2)
      as (ss & rr & e & Hs & Hy & Hsent & _).
    exists ss, rr, e. split_and!; [done|done|]. rewrite <-Hy, <-H6. by apply (utterances_accounted n).
Qed.
End Hearing.

(** ** A run *)

(** The caller's first frame is read, and the recogniser answers it with a final. *)
Definition demo_raw : bytes := [17; 144; 16; 0; 0; 0; 0; 1; 123].
Definition demo_said : pyval :=
  VDict [("result"%string, VDict [("utterances"%string,
    VList [VDict [("text"%string, VStr (u8 "no")); ("definite"%string, VBool true);
                  ("end_time"%string, VInt 7)]])])].
Definition demo_hstep :=
  hstep (RS := unit) (fun p => p) (fun p _ s => (p, s)) (fun _ => 9) tt [] Media.demo_gate 2 3
    (fun _ => None) (fun _ => Some demo_said).

Lemma demo_heard :
  exists x, rtc demo_hstep (new_ear (RS := unit) [[1; 2; 3; 4]] 4) x
    /\ phase (e_listen x) = Listening
    /\ Media.heard (Media.asr (e_line x)) = [[1; 2; 3; 4]] /\ in_transit (e_listen x) = [u8 "no"].
Proof.
  eexists. split_and!.
  - eapply rtc_l; [apply h_line; [right; by apply Media.own_begin|reflexivity]|].
    eapply rtc_l; [apply h_line; [left; apply (Media.out_frame Media.demo_in);
      [reflexivity|unfold Media.INBOUND_BUFFER; simpl; lia|done]|reflexivity]|].
    eapply rtc_l; [apply h_line; [right; eapply Media.own_frame with (q := []); reflexivity|reflexivity]|].
    eapply rtc_l; [apply h_stream; [by apply st_connected|reflexivity|reflexivity|by intros (_ & [b Hb] & _)]|].
    eapply rtc_l; [apply h_stream; [by apply st_push_start|reflexivity|reflexivity|by intros (_ & [b Hb] & _)]|].
    eapply rtc_l; [apply (h_read _ _ _ _ _ _ _ _ _ _ [1; 2; 3; 4] [] [] []); reflexivity|].
    eapply rtc_l; [apply h_listen; [by apply ls_begin|]|].
    { intros r Hr%(f_equal phase). by rewrite asr_result_phase in Hr. }
    eapply rtc_l; [apply h_listen; [by apply (ls_listen false)|]|].
    { intros r Hr%(f_equal phase). by rewrite asr_result_phase in Hr. }
    eapply rtc_l; [apply h_stream; [apply (st_message _ _ _ _ 0 demo_raw); reflexivity|reflexivity|reflexivity|]|].
    { by intros (_ & [b Hb] & _). }
    apply rtc_once. eapply (h_result _ _ _ _ _ _ _ _ _ _ (mkASR (u8 "no") true 7) []); reflexivity.
  - reflexivity.
  - reflexivity.
  - reflexivity.
Qed.

Lemma speech_reaches_loop_witness :
  exists x, phase (e_listen x) = Listening
    /\ Media.heard (Media.asr (e_line (RS := unit) x)) = take (reads (e_stream x)) [[1; 2; 3; 4]]
    /\ in_transit (e_listen x) = [u8 "no"].
Proof.
  destruct demo_heard as (x & Hx & Hp & _ & Ht). exists x.
  destruct (speech_reaches_loop (fun p => p) (fun p _ s => (p, s)) (fun _ => 9) tt [] Media.demo_gate 2 3
              (fun _ => None) (fun _ => Some demo_said) [[1; 2; 3; 4]] 4 ltac:(lia) x Hx Hp) as (H & _).
  by split_and!.
Defined.
