(* ===== verification/Config.v ===== *)
(** * The configuration of a call

    [runtime_config.py]: a [RuntimeConfig] assembled from the campaign's row, its role
    configurations and prompt versions, the lead's row and the dial request.  The tables
    are what the queries return; JSON columns are Python values whose shape nothing
    enforces, so reading one can raise.  The shared package's slot defaults, its role-kind
    names, [str] and [dict] of other values, and the regular-expression compiler are
    parameters. *)
From stdpp Require Import pretty.
From S2P Require Import Prelude Referee Interruption Managers Orchestrator RunLoop.
Import Interruption.Detector.

(** ** Rows *)

Inductive RoleKind : Type := MAIN | REFEREE | RESTRUCTURE | EXTRACTOR | PERSONA.

Record RoleConfig := mkRole {
  ro_id : Z; ro_campaign_id : Z; ro_kind : pystr; ro_enabled : bool; ro_label : option pystr;
  ro_model : option pystr; ro_temperature : option Q; ro_top_p : option Q;
  ro_ext_params : pyval; ro_current_prompt_version_id : option Z }.

Record PromptVersion := mkPrompt { pv_id : Z; pv_content : pystr }.

Record LeadRow := mkLeadRow {
  lr_phone : pystr; lr_name : option pystr; lr_custom_data : list (pystr * pyval) }.

(** A column read as a string, or as a member of an enumeration with a [value]. *)
Inductive Strategy : Type := AsStr (s : pystr) | AsEnum (value : pystr).

Record Campaign := mkCampaign {
  cp_id : Z;
  cp_routing_rules : pyval;
  cp_max_continuous_restructure : Z;
  cp_auto_restructure_on_interrupt : bool;
  cp_default_replies : pyval;
  cp_tools : pyval;
  cp_persona_fanout_cap : Z;
  cp_referee_timeout_ms : Z;
  cp_referee_fail_open_route : pystr;
  cp_filler_phrases : pyval;
  cp_transfer_keyword_enabled : bool;
  cp_transfer_keywords : pyval;
  cp_transfer_intent_enabled : bool;
  cp_transfer_intent_threshold : option Q;
  cp_transfer_round_enabled : bool;
  cp_transfer_round_threshold : option Z;
  cp_transfer_llm_enabled : bool;
  cp_transfer_phrases : pyval;
  cp_wrap_up_max_rounds : Z;
  cp_wrap_up_max_seconds : Z;
  cp_wrap_up_closing_phrases : pyval;
  cp_wrap_up_referee_enabled : bool;
  cp_interruption_whitelist : pyval;
  cp_interruption_rules : pyval;
  cp_interruption_min_chars : Z;
  cp_interruption_min_duration_ms : Z;
  cp_silence_threshold_ms : Z;
  cp_max_silence_activations : Z;
  cp_silence_phrases : pyval;
  cp_silence_hangup_phrase : option pystr;
  cp_wrap_up_silence_hangup_ms : Z;
  cp_greeting : option pystr;
  cp_voice_id : option pystr;
  cp_asr_eos_silence_ms : option Z;
  cp_filler_enabled : bool;
  cp_filler_delay_ms : option Z;
  cp_ambient_audio : option pystr;
  cp_ambient_gain : Q;
  cp_barge_in_fadeout_ms : Z;
  cp_max_continuous_interruptions : Z;
  cp_continuous_interruption_strategy : Strategy }.

(** The tables; the rows of a query come in the order of the list. *)
Record Tables := mkTables {
  tb_campaigns : list Campaign;
  tb_leads : list (Z * LeadRow);
  tb_role_configs : list RoleConfig;
  tb_prompt_versions : list PromptVersion }.

(** [db.get(Lead, i)]. *)
Definition lead_row (db : Tables) (i : Z) : option LeadRow :=
  snd <$> List.find (fun l => l.1 =? i) (tb_leads db).

(** What [load_runtime_config] reads of a [DialRequest]. *)
Record DialRequest := mkRequest {
  rq_campaign_id : Z; rq_lead_id : Z; rq_name : option pystr; rq_phone : pystr;
  rq_custom_data : list (pystr * pyval);
  rq_history : list (option pystr) }.             (* the summaries, latest first *)

(** ** Reading columns *)

(** [for x in (v or [])]. *)
Definition iter_or_empty (v : pyval) : result PyErr (list pyval) :=
  if truthy v then
    match v with
    | VList l => Ok l
    | VStr s => Ok (map (fun c => VStr [c]) s)
    | VDict d => Ok (map (fun kv => VStr (u8 kv.1)) d)
    | _ => Err TypeError
    end
  else Ok [].

(** [x or 1.0]. *)
Definition or_one (x : option Q) : pyval :=
  match x with
  | Some q => if Qnum q =? 0 then VFloat 1 else VFloat q
  | None => VFloat 1
  end.

Section Load.
  Context (kind_value : RoleKind -> pystr)
    (other_str : pyval -> pystr) (other_dict : pyval -> result PyErr (list (string * pyval)))
    (default_temperature default_top_p : pyval) (default_provider default_model : option pystr)
    (re_compile : pystr -> bool) (int_of_str : pystr -> option Z) (rule_other : pyval -> pystr)
    (recursion_limit : nat).

(** [str(x) for x in (v or [])]. *)
Definition str_column (v : pyval) : result PyErr (list pystr) :=
  let? l := iter_or_empty v in Ok (map (py_str other_str) l).

Definition py_dict (v : pyval) : result PyErr (list (string * pyval)) :=
  match v with VDict d => Ok d | _ => other_dict v end.

Definition routing_rules_column (v : pyval) : result PyErr (list (list (string * pyval))) :=
  let? l := iter_or_empty v in rmap py_dict l.

Definition tools_column (v : pyval) : result PyErr (list (string * pyval)) :=
  if truthy v then
    match v with
    | VDict d => rmap (fun '(k, t) => let? t' := py_dict t in Ok (k, VDict t')) d
    | _ => Err AttributeError
    end
  else Ok [].

(** ** Slots *)

Definition pv_ids (role_configs : list RoleConfig) : list Z :=
  flat_map (fun rc => match ro_current_prompt_version_id rc with
                      | Some i => if i =? 0 then [] else [i]
                      | None => []
                      end) role_configs.

(** [pv_by_id.get(i)]: of rows with the same id the last one stays in the dict. *)
Definition pv_by_id (pvs : list PromptVersion) (i : Z) : option PromptVersion :=
  last (List.filter (fun pv => pv_id pv =? i) pvs).

Definition spec_for (pvs : list PromptVersion) (rc : RoleConfig)
  : result PyErr (option pystr * pystr * pystr * Z) :=
  let i := default 0 (ro_current_prompt_version_id rc) in
  let pv := if i =? 0 then None else pv_by_id pvs i in
  let? raw := if truthy (ro_ext_params rc) then val_get "provider" (ro_ext_params rc) else Ok VNone in
  let provider := match raw with
                  | VStr s => match py_strip s with [] => None | s' => Some s' end
                  | _ => None
                  end in
  Ok (provider, str_or (ro_model rc) (u8 "mock"),
      match pv with Some p => pv_content p | None => [] end, i).

Definition first_of (role_configs : list RoleConfig) (kind : RoleKind) : option RoleConfig :=
  List.find (fun rc => bool_decide (ro_kind rc = kind_value kind)) role_configs.

Definition all_enabled (role_configs : list RoleConfig) (kind : RoleKind) : list RoleConfig :=
  List.filter (fun rc => bool_decide (ro_kind rc = kind_value kind) && ro_enabled rc) role_configs.

(** The part the five kinds of slot share. *)
Definition slot_spec (pvs : list PromptVersion) (rc : RoleConfig) : result PyErr MainSpec :=
  let? (provider, model, prompt, pv) := spec_for pvs rc in
  Ok (mkMainSpec (ro_id rc) pv prompt (or_one (ro_temperature rc)) (or_one (ro_top_p rc))
        provider (Some model)).

Definition empty_slot : MainSpec :=
  mkMainSpec 0 0 [] default_temperature default_top_p default_provider default_model.

Definition main_spec (pvs : list PromptVersion) (rc : option RoleConfig) : result PyErr MainSpec :=
  match rc with None => Ok empty_slot | Some rc => slot_spec pvs rc end.

Definition extractor_spec (pvs : list PromptVersion) (rc : option RoleConfig)
  : result PyErr MainSpec :=
  match rc with None => Ok empty_slot | Some rc => slot_spec pvs rc end.

Definition label_or (prefix : string) (rc : RoleConfig) : pystr :=
  str_or (ro_label rc) (u8 prefix ++ u8 (pretty (ro_id rc))).

Definition referee_spec (pvs : list PromptVersion) (rc : RoleConfig) : result PyErr RefereeSpec :=
  let? (provider, model, prompt, pv) := spec_for pvs rc in
  Ok (mkRefereeSpec (ro_id rc) pv (label_or "referee_" rc) prompt (or_one (ro_temperature rc))
        (or_one (ro_top_p rc)) provider (Some model)).

Definition persona_spec (pvs : list PromptVersion) (rc : RoleConfig) : result PyErr PersonaSpec :=
  let? (provider, model, prompt, pv) := spec_for pvs rc in
  Ok (mkPersona (label_or "persona_" rc) (ro_id rc) pv prompt (or_one (ro_temperature rc))
        (or_one (ro_top_p rc)) provider (Some model)).

Definition restructure_spec (pvs : list PromptVersion) (rc : option RoleConfig)
  : result PyErr (option RestructureSpec) :=
  match rc with
  | None => Ok None
  | Some rc => let? s := slot_spec pvs rc in Ok (Some (mkRestructure s (label_or "restructure_" rc)))
  end.

(** ** Assembly *)

Definition lead_info (row : option LeadRow) (request : DialRequest) : LeadInfo :=
  mkLead (match row with Some l => lr_name l | None => rq_name request end) (rq_phone request)
    (match row with Some l => lr_custom_data l | None => rq_custom_data request end).

Definition load_pipeline (campaign : Campaign) (lead : option LeadRow) (request : DialRequest)
  (role_configs : list RoleConfig) (pvs : list PromptVersion) : result PyErr PipelineConfig :=
  let? main := main_spec pvs (first_of role_configs MAIN) in
  let? referees := rmap (referee_spec pvs) (all_enabled role_configs REFEREE) in
  let? restructure := restructure_spec pvs (first_of role_configs RESTRUCTURE) in
  let? rules := routing_rules_column (cp_routing_rules campaign) in
  let? extractor := extractor_spec pvs (first_of role_configs EXTRACTOR) in
  let? default_replies := str_column (cp_default_replies campaign) in
  let? personas := rmap (persona_spec pvs) (all_enabled role_configs PERSONA) in
  let? tools := tools_column (cp_tools campaign) in
  Ok (mkConfig main referees extractor default_replies (lead_info lead request) restructure rules
        (cp_max_continuous_restructure campaign) (cp_auto_restructure_on_interrupt campaign)
        (u8 "FILLER")
        (match rq_history request with summary :: _ => summary | [] => None end)
        (zlen (rq_history request)) false false personas tools (cp_persona_fanout_cap campaign)
        (cp_referee_timeout_ms campaign) (cp_referee_fail_open_route campaign)).

Definition load_transfer (campaign : Campaign) : result PyErr Transfer.TransferConfig :=
  let? keywords := str_column (cp_transfer_keywords campaign) in
  let? phrases := str_column (cp_transfer_phrases campaign) in
  Ok (Transfer.mkTransfer (cp_transfer_keyword_enabled campaign) keywords
        (cp_transfer_intent_enabled campaign) (cp_transfer_intent_threshold campaign)
        (u8 "判定用户是否要转人工。") (cp_transfer_round_enabled campaign)
        (cp_transfer_round_threshold campaign) (cp_transfer_llm_enabled campaign)
        (u8 "独立判定是否转人工。")
        (match phrases with [] => [u8 "请稍候，专员稍后联系您。"] | _ => phrases end)).

Definition load_wrap_up (campaign : Campaign) : result PyErr WrapUp.WrapUpConfig :=
  let? closing := str_column (cp_wrap_up_closing_phrases campaign) in
  Ok (WrapUp.mkWrapUp (cp_wrap_up_max_rounds campaign) (cp_wrap_up_max_seconds campaign) closing
        (cp_wrap_up_referee_enabled campaign)).

Definition load_interruption (campaign : Campaign) : result PyErr InterruptionConfig :=
  let? whitelist := str_column (cp_interruption_whitelist campaign) in
  let? rule := match cp_interruption_rules campaign with
               | VNone => Ok (Rules.default_rule whitelist (cp_interruption_min_chars campaign)
                                (cp_interruption_min_duration_ms campaign))
               | rules => Rules.build_rule re_compile int_of_str rule_other recursion_limit rules
               end in
  Ok (mkIConfig whitelist rule).

Definition load_silence (campaign : Campaign) : result PyErr Silence.SilenceConfig :=
  let? phrases := str_column (cp_silence_phrases campaign) in
  Ok (Silence.mkSilence (cp_silence_threshold_ms campaign) (cp_max_silence_activations campaign)
        phrases (str_or (cp_silence_hangup_phrase campaign) [])
        (cp_wrap_up_silence_hangup_ms campaign)).

Definition strategy_value (s : Strategy) : pystr :=
  match s with AsStr v => v | AsEnum v => v end.

(** The record itself, from the parts above and the campaign's own columns. *)
Definition assemble_runtime (campaign : Campaign) (pipeline : PipelineConfig) (filler_phrases : list pystr)
    (transfer : Transfer.TransferConfig) (wrap_up : WrapUp.WrapUpConfig) (interruption : InterruptionConfig)
    (silence : Silence.SilenceConfig) : RuntimeConfig :=
  let fixed_greeting := cp_greeting campaign in
  let voice_speaker := str_or (cp_voice_id campaign) (u8 "default") in
  let asr_partial_stable_s := Qdiv (inject_Z (default 400 (cp_asr_eos_silence_ms campaign))) 1000 in
  let filler_delay_ms := default 600 (cp_filler_delay_ms campaign) in
  mkRuntime pipeline filler_phrases transfer wrap_up interruption silence
    fixed_greeting (cp_filler_enabled campaign)
    (cp_max_continuous_interruptions campaign)
    (strategy_value (cp_continuous_interruption_strategy campaign))
    voice_speaker asr_partial_stable_s filler_delay_ms
    (cp_ambient_audio campaign) (cp_ambient_gain campaign)
    (cp_barge_in_fadeout_ms campaign).

Definition load_runtime_config (db : Tables) (request : DialRequest) : result PyErr RuntimeConfig :=
  match List.find (fun c => cp_id c =? rq_campaign_id request) (tb_campaigns db) with
  | None => Err OtherError                         (* RuntimeError: campaign not found *)
  | Some campaign =>
      let lead := lead_row db (rq_lead_id request) in
      let role_configs :=
        List.filter (fun rc => ro_campaign_id rc =? cp_id campaign) (tb_role_configs db) in
      let ids := pv_ids role_configs in
      let pvs := List.filter (fun pv => existsb (Z.eqb (pv_id pv)) ids) (tb_prompt_versions db) in
      let? pipeline := load_pipeline campaign lead request role_configs pvs in
      let? filler_phrases := str_column (cp_filler_phrases campaign) in
      let? transfer := load_transfer campaign in
      let? wrap_up := load_wrap_up campaign in
      let? interruption := load_interruption campaign in
      let? silence := load_silence campaign in
      Ok (assemble_runtime campaign pipeline filler_phrases transfer wrap_up interruption silence)
  end.

(** ** What a loaded configuration is *)

(** A provider name is missing, or nonempty with no surrounding whitespace. *)
Definition provider_ok (p : option pystr) : Prop :=
  match p with None => True | Some s => s <> [] /\ py_strip s = s end.

Definition sampling_ok (v : pyval) : Prop := exists q, v = VFloat q /\ ~ (q == 0)%Q.

(** A slot read from a row of the campaign. *)
Record slot_ok (m : MainSpec) : Prop := {
  so_provider : provider_ok (ms_provider m);
  so_model : exists s, ms_model m = Some s /\ s <> [];
  so_temperature : sampling_ok (ms_temperature m);
  so_top_p : sampling_ok (ms_top_p m) }.

Definition referee_slot (r : RefereeSpec) : MainSpec :=
  mkMainSpec (rs_role_config_id r) (rs_prompt_version_id r) (rs_system_prompt r) (rs_temperature r)
    (rs_top_p r) (rs_provider r) (rs_model r).

Definition persona_slot (p : PersonaSpec) : MainSpec :=
  mkMainSpec (ps_role_config_id p) (ps_prompt_version_id p) (ps_system_prompt p) (ps_temperature p)
    (ps_top_p p) (ps_provider p) (ps_model p).

Record pipeline_ok (c : PipelineConfig) : Prop := {
  po_main : pc_main c = empty_slot \/ slot_ok (pc_main c);
  po_extractor : pc_extractor c = empty_slot \/ slot_ok (pc_extractor c);
  po_referees : Forall (fun r => rs_label r <> [] /\ slot_ok (referee_slot r)) (pc_referees c);
  po_personas : Forall (fun p => ps_label p <> [] /\ slot_ok (persona_slot p)) (pc_personas c);
  po_restructure : match pc_restructure c with
                   | Some r => xs_label r <> [] /\ slot_ok r
                   | None => True
                   end;
  po_follow_up : match pc_last_call_summary c with
                 | Some _ => 0 < pc_follow_up_count c
                 | None => 0 <= pc_follow_up_count c
                 end;
  po_fresh : pc_short_reply_active c = false /\ pc_wrap_up_appended c = false }.

Lemma or_one_ok x : sampling_ok (or_one x).
Proof.
  destruct x as [q|]; simpl; [destruct (Qnum q =? 0) eqn:Hq|]; eexists; (split; [reflexivity|]).
  - discriminate.
  - unfold Qeq. simpl. zbool. lia.
  - discriminate.
Qed.

Lemma spec_for_ok pvs rc provider model prompt pv :
  spec_for pvs rc = Ok (provider, model, prompt, pv) -> provider_ok provider /\ model <> [].
Proof.
  unfold spec_for. intros (raw & _ & [= <- <- _ _])%rbind_Ok. split.
  - destruct raw as [| | | |s| |]; try done. destruct (py_strip s) as [|c s'] eqn:Hs; simpl; [done|].
    split; [done|]. rewrite <-Hs. apply strip_idem.
  - by apply str_or_nonempty.
Qed.

Lemma slot_spec_ok pvs rc m : slot_spec pvs rc = Ok m -> slot_ok m.
Proof.
  unfold slot_spec. intros ([[[p mo] pr] v] & [Hp Hm]%spec_for_ok & [= <-])%rbind_Ok.
  constructor; simpl; eauto using or_one_ok.
Qed.

Lemma label_or_nonempty prefix rc : u8 prefix <> [] -> label_or prefix rc <> [].
Proof. intros Hp. apply str_or_nonempty. by destruct (u8 prefix). Qed.

Lemma referee_spec_ok pvs rc r :
  referee_spec pvs rc = Ok r -> rs_label r <> [] /\ slot_ok (referee_slot r).
Proof.
  unfold referee_spec. intros ([[[p mo] pr] v] & [Hp Hm]%spec_for_ok & [= <-])%rbind_Ok.
  split; [by apply label_or_nonempty|]. constructor; simpl; eauto using or_one_ok.
Qed.

Lemma persona_spec_ok pvs rc p :
  persona_spec pvs rc = Ok p -> ps_label p <> [] /\ slot_ok (persona_slot p).
Proof.
  unfold persona_spec. intros ([[[? mo] pr] v] & [Hp Hm]%spec_for_ok & [= <-])%rbind_Ok.
  split; [by apply label_or_nonempty|]. constructor; simpl; eauto using or_one_ok.
Qed.

Lemma rmap_Forall {A B} (f : A -> result PyErr B) (P : B -> Prop) l l' :
  (forall x y, f x = Ok y -> P y) -> rmap f l = Ok l' -> Forall P l'.
Proof. intros Hf H%rmap_Ok. induction H; constructor; eauto. Qed.

Lemma main_spec_ok pvs rc m : main_spec pvs rc = Ok m -> m = empty_slot \/ slot_ok m.
Proof. destruct rc; simpl; [right; by eapply slot_spec_ok|intros [= <-]; by left]. Qed.

Lemma load_pipeline_ok campaign lead request rcs pvs c :
  load_pipeline campaign lead request rcs pvs = Ok c -> pipeline_ok c.
Proof.
  unfold load_pipeline. intros H. ok_steps. injection H as <-. constructor; simpl.
  - by eapply main_spec_ok.
  - by eapply (main_spec_ok pvs (first_of rcs EXTRACTOR)).
  - by eapply rmap_Forall; [apply referee_spec_ok|].
  - by eapply rmap_Forall; [apply persona_spec_ok|].
  - destruct (first_of rcs RESTRUCTURE) as [rc|]; simpl in *; ok_steps; simplify_eq; [|done].
    simpl. split; [by apply label_or_nonempty|by eapply slot_spec_ok].
  - unfold zlen. destruct (rq_history request) as [|[s|] h]; simpl; lia.
  - done.
Qed.

(** ** When loading succeeds *)

(** The shapes the columns are meant to have. *)
Definition list_column (v : pyval) : Prop := v = VNone \/ exists l, v = VList l.

Definition is_object (v : pyval) : Prop := exists d, v = VDict d.

Record campaign_shaped (c : Campaign) : Prop := {
  cs_rules : cp_routing_rules c = VNone \/ exists l, cp_routing_rules c = VList l /\ Forall is_object l;
  cs_tools : cp_tools c = VNone
             \/ exists d, cp_tools c = VDict d /\ Forall (fun kv => is_object kv.2) d;
  cs_lists : Forall list_column
    [cp_default_replies c; cp_filler_phrases c; cp_transfer_keywords c; cp_transfer_phrases c;
     cp_wrap_up_closing_phrases c; cp_interruption_whitelist c; cp_silence_phrases c] }.

Definition rules_build (c : Campaign) : Prop :=
  cp_interruption_rules c = VNone
  \/ exists r, Rules.build_rule re_compile int_of_str rule_other recursion_limit
                (cp_interruption_rules c) = Ok r.

Lemma str_column_total v : list_column v -> exists l, str_column v = Ok l.
Proof.
  unfold str_column, iter_or_empty. intros [->|[l ->]]; simpl; [eauto|].
  destruct (negb _); simpl; eauto.
Qed.

Lemma slots_total pvs rc :
  ro_ext_params rc = VNone \/ is_object (ro_ext_params rc) ->
  (exists m, slot_spec pvs rc = Ok m) /\ (exists r, referee_spec pvs rc = Ok r)
  /\ (exists p, persona_spec pvs rc = Ok p).
Proof.
  intros Hx. assert (exists q, spec_for pvs rc = Ok q) as [[[[p m] pr] v] Hq].
  { unfold spec_for. destruct Hx as [->|[d ->]]; simpl; [eauto|]. destruct (negb _); simpl; eauto. }
  unfold slot_spec, referee_spec, persona_spec. rewrite Hq. simpl. split_and!; eauto.
Qed.

Lemma rules_column_total c : campaign_shaped c ->
  (exists l, routing_rules_column (cp_routing_rules c) = Ok l)
  /\ exists d, tools_column (cp_tools c) = Ok d.
Proof.
  intros [Hr Ht _]. unfold routing_rules_column, tools_column, iter_or_empty. split.
  - destruct Hr as [->|(l & -> & Hl)]; simpl; [eauto|]. destruct (negb _); simpl; [|eauto].
    apply rmap_total. eapply Forall_impl; [exact Hl|]. intros v [d ->]. simpl. eauto.
  - destruct Ht as [->|(d & -> & Hd)]; simpl; [eauto|]. destruct (negb _); simpl; [|eauto].
    apply rmap_total. eapply Forall_impl; [exact Hd|]. intros [k v] [d' Hv]. simpl in *. subst v.
    simpl. eauto.
Qed.

Lemma first_of_In rcs kind rc : first_of rcs kind = Some rc -> In rc rcs.
Proof. unfold first_of. intros H%find_some. tauto. Qed.

Lemma load_pipeline_total campaign lead request rcs pvs :
  campaign_shaped campaign ->
  Forall (fun rc => ro_ext_params rc = VNone \/ is_object (ro_ext_params rc)) rcs ->
  exists c, load_pipeline campaign lead request rcs pvs = Ok c.
Proof.
  intros Hc Hx. rewrite List.Forall_forall in Hx.
  assert (Hmain : forall kind, exists m, main_spec pvs (first_of rcs kind) = Ok m).
  { intros kind. destruct (first_of rcs kind) as [rc|] eqn:Hf; simpl; [|eauto].
    by apply (slots_total pvs), Hx, (first_of_In _ kind). }
  destruct (Hmain MAIN) as [m Hm], (Hmain EXTRACTOR) as [x Hex].
  assert (exists r, restructure_spec pvs (first_of rcs RESTRUCTURE) = Ok r) as [r Hr].
  { destruct (first_of rcs RESTRUCTURE) as [rc|] eqn:Hf; simpl; [|eauto].
    apply first_of_In, Hx in Hf. destruct (slots_total pvs rc Hf) as [[s ->] _]. simpl. eauto. }
  assert (Hall : forall kind rc, In rc (all_enabled rcs kind) -> In rc rcs).
  { intros kind rc. unfold all_enabled. rewrite filter_In. tauto. }
  destruct (rmap_total (referee_spec pvs) (all_enabled rcs REFEREE)) as [rs Hrs].
  { apply List.Forall_forall. intros rc Hin. by apply (slots_total pvs), Hx, (Hall REFEREE). }
  destruct (rmap_total (persona_spec pvs) (all_enabled rcs PERSONA)) as [ps Hps].
  { apply List.Forall_forall. intros rc Hin. by apply (slots_total pvs), Hx, (Hall PERSONA). }
  destruct (rules_column_total _ Hc) as [[l Hl] [d Hd]].
  pose proof (cs_lists _ Hc) as Hls. apply Forall_cons in Hls as [[dr Hdr]%str_column_total _].
  unfold load_pipeline. unfold extractor_spec. unfold main_spec in Hex.
  rewrite Hm, Hrs, Hr, Hl. simpl. rewrite Hex. simpl. rewrite Hdr, Hps, Hd. simpl. eauto.
Qed.

Definition campaign_of (db : Tables) (request : DialRequest) : option Campaign :=
  List.find (fun c => cp_id c =? rq_campaign_id request) (tb_campaigns db).


(** Loading fails loudly and only on broken rows: with every column null or in its
    shape (lists, objects, lists of objects) and a rule tree that builds it always
    succeeds; a missing campaign raises, and so does a barge-in rule tree that cannot be
    built, which no default replaces. *)
Theorem load_errors db request :
  match campaign_of db request with
  | None => load_runtime_config db request = Err OtherError
  | Some campaign =>
      (campaign_shaped campaign ->
       Forall (fun r => ro_ext_params r = VNone \/ is_object (ro_ext_params r)) (tb_role_configs db) ->
       rules_build campaign -> exists rc, load_runtime_config db request = Ok rc)
      /\ (~ rules_build campaign -> exists e, load_runtime_config db request = Err e)
  end.
Proof.
  unfold load_runtime_config. fold (campaign_of db request).
  destruct (campaign_of db request) as [c|]; [|done]. split.
  - intros Hc Hx Hb. pose proof (cs_lists _ Hc) as Hl. rewrite !Forall_cons in Hl.
    destruct Hl as (_ & [f Hf]%str_column_total & [k Hk]%str_column_total & [p Hp]%str_column_total
                    & [w Hw]%str_column_total & [i Hi]%str_column_total & [s Hs]%str_column_total & _).
    edestruct (load_pipeline_total c) as [pc Hpc]; [done| |]; last first.
    { rewrite Hpc, Hf. unfold load_transfer, load_wrap_up, load_interruption, load_silence.
      rewrite Hk, Hp, Hw, Hi, Hs. simpl.
      destruct Hb as [->|[r Hr]]; simpl; [eauto|]. destruct (cp_interruption_rules c);
        rewrite ?Hr; simpl; eauto. }
    rewrite List.Forall_forall in *. intros r [Hin _]%filter_In. auto.
  - intros Hb. destruct (rbind _ _) as [rc|e] eqn:H; [|eauto]. ok_steps. exfalso. apply Hb.
    unfold load_interruption in *. ok_steps. unfold rules_build.
    destruct (cp_interruption_rules c); eauto.
Qed.

(** The barge-in detector a call runs with is the one its campaign describes: with no
    rule tree stored, a partial transcript interrupts exactly when it is outside the
    whitelist, long enough and late enough by the campaign's legacy columns; with a
    tree stored, exactly when the boolean formula of that tree holds. *)
Theorem loaded_barge_in re_search db request rc campaign text started now :
  campaign_of db request = Some campaign -> load_runtime_config db request = Ok rc ->
  exists whitelist, str_column (cp_interruption_whitelist campaign) = Ok whitelist
  /\ (iv_verdict (evaluate_partial re_search text started now (rc_interruption rc)) = Triggered <->
      match cp_interruption_rules campaign with
      | VNone => py_strip text ∉ whitelist
                 /\ cp_interruption_min_chars campaign <= zlen (py_strip text)
                 /\ cp_interruption_min_duration_ms campaign <= now - started
      | rules => exists r, Rules.build_rule re_compile int_of_str rule_other recursion_limit rules = Ok r
                 /\ Rules.holds re_search (Rules.mkInput text (now - started)) r = true
      end).
Proof.
  intros Hc. unfold load_runtime_config. fold (campaign_of db request). rewrite Hc.
  intros H. ok_steps. injection H as <-. unfold load_interruption in *. ok_steps. simplify_eq. simpl.
  eexists. split; [eassumption|]. unfold evaluate_partial. simpl.
  assert (Hv : forall (b : bool) (x y : pystr), iv_verdict (if b then mkIVerdict Triggered x else mkIVerdict Ignored y)
                        = Triggered <-> b = true) by (by intros []).
  rewrite Hv. destruct (cp_interruption_rules campaign);
    [simplify_eq; rewrite Rules.default_rule_is_legacy; simpl;
     rewrite !andb_true_iff, negb_true_iff, bool_decide_eq_false, !Z.leb_le; tauto|..];
    rewrite Rules.evaluate_is_boolean; (split; [eauto|]); intros (r0 & Hr & Hh); congruence.
Qed.
End Load.

(** *** Witnesses *)

Definition demo_campaign : Campaign :=
  mkCampaign 7 (VList [VDict [("when"%string, VStr (u8 "x"))]]) 2 true VNone VNone 2 600 (u8 "main") VNone
    true (VList [VStr (u8 "人工")]) false None false None false VNone 3 60 VNone false
    (VList [VStr (u8 "嗯")]) VNone 2 300 5000 2 VNone None 6000 None None None false None None (1#10) 100 3
    (AsEnum (u8 "short_reply")).

Definition demo_tables : Tables :=
  mkTables [demo_campaign] []
    [mkRole 11 7 (u8 "main") true None None (Some 0%Q) None
       (VDict [("provider"%string, VStr (u8 " ark "))]) (Some 3);
     mkRole 12 7 (u8 "referee") true None (Some (u8 "m")) None None VNone None;
     mkRole 13 7 (u8 "referee") false None None None None VNone None]
    [mkPrompt 3 (u8 "hi")].

Definition demo_request : DialRequest := mkRequest 7 1 None (u8 "+8613") [] [].

Definition demo_kind (k : RoleKind) : pystr :=
  u8 match k with MAIN => "main" | REFEREE => "referee" | RESTRUCTURE => "restructure"
                | EXTRACTOR => "extractor" | PERSONA => "persona" end.

Abbreviation demo_load := (load_runtime_config demo_kind (fun _ => []) (fun _ => Err TypeError)
  VNone VNone None None (fun _ => true) (fun _ => None) (fun _ => []) 50 demo_tables demo_request).

Abbreviation demo_config :=
  (match demo_load with Ok rc => rc | Err _ => mkRuntime
     (mkConfig (mkMainSpec 0 0 [] VNone VNone None None) [] (mkMainSpec 0 0 [] VNone VNone None None)
        [] (mkLead None [] []) None [] 0 false [] None 0 false false [] [] 0 0 [])
     [] (Transfer.mkTransfer false [] false None [] false None false [] []) (WrapUp.mkWrapUp 0 0 [] false)
     (mkIConfig [] Rules.NoneRule) (Silence.mkSilence 0 0 [] [] 0) None false 0 [] [] 0 0 None 0 0 end).


Lemma load_errors_witness : exists rc, demo_load = Ok rc.
Proof.
  refine (proj1 (load_errors demo_kind (fun _ => []) (fun _ => Err TypeError) VNone VNone None None
    (fun _ => true) (fun _ => None) (fun _ => []) 50 demo_tables demo_request) _ _ _).
  - constructor.
    + right. eexists. split; [reflexivity|]. repeat constructor. eexists. reflexivity.
    + left. reflexivity.
    + repeat (apply Forall_cons; split; [first [left; reflexivity | right; eexists; reflexivity]|]).
      apply Forall_nil_2.
  - repeat (apply Forall_cons; split; [first [left; reflexivity | right; eexists; reflexivity]|]).
    apply Forall_nil_2.
  - left. reflexivity.
Defined.

Lemma loaded_barge_in_witness :
  exists whitelist, str_column (fun _ => []) (cp_interruption_whitelist demo_campaign) = Ok whitelist
  /\ (iv_verdict (evaluate_partial (fun _ _ => false) (u8 "等一下") 0 400 (rc_interruption demo_config))
        = Triggered <->
      py_strip (u8 "等一下") ∉ whitelist /\ 2 <= zlen (py_strip (u8 "等一下")) /\ 300 <= 400 - 0).
Proof.
  refine (loaded_barge_in demo_kind (fun _ => []) (fun _ => Err TypeError) VNone VNone None None
    (fun _ => true) (fun _ => None) (fun _ => []) 50 (fun _ _ => false) demo_tables demo_request
    demo_config demo_campaign (u8 "等一下") 0 400 _ _); vm_compute; reflexivity.
Defined.

(** A temperature configured as 0 is read as missing and becomes 1. *)
Lemma zero_temperature_lost pvs rc m :
  ro_temperature rc = Some 0%Q -> slot_spec pvs rc = Ok m -> ms_temperature m = VFloat 1.
Proof.
  unfold slot_spec. intros Ht ([[[p mo] pr] v] & _ & [= <-])%rbind_Ok. simpl. by rewrite Ht.
Qed.
