(* ===== verification/LlmClient.v ===== *)
(** * The chat client

    [providers/llm_openai_compatible.py] and [providers/factory.py]: the HTTP client of
    the OpenAI-compatible vendors (Module [OpenAI]) and the factory that builds providers
    from stored credentials (Module [Factory]), with the recogniser's constructor and
    headers of [providers/asr_volcengine.py].  JSON, the error values of the shared package and the credential store are
    parameters; the network decides what an exchange returns. *)
From S2P Require Import Prelude Session Referee Splitter Orchestrator Providers.

(** ** The OpenAI-compatible client *)
Module OpenAI.

Record Client := mkClient {
  op_provider : pystr;
  op_api_key : pystr;
  op_base_url : pystr;
  op_model : pystr;
  op_extra_headers : list (string * pystr);
  last_call_tokens_in : option Z;
  last_call_tokens_out : option Z;
  last_call_finish_reason : option pystr }.

#[export] Instance Client_eta : Eta Client := fun c =>
  mkClient (op_provider c) (op_api_key c) (op_base_url c) (op_model c) (op_extra_headers c)
    (last_call_tokens_in c) (last_call_tokens_out c) (last_call_finish_reason c).

#[export] Instance Client_eq_dec : EqDecision Client.
Proof. solve_decision. Defined.

(** [__init__]; the counters start as the base class leaves them. *)
Definition new_client (provider api_key base_url model : pystr)
  (extra_headers : list (string * pystr)) : Client :=
  mkClient provider api_key (rstrip_by (Z.eqb 47) base_url) model extra_headers None None None.

(** *** Requests *)

Definition thinking_off_payload (c : Client) : list (string * pyval) :=
  if decide (op_provider c = u8 "dashscope") then [("enable_thinking"%string, VBool false)]
  else if decide (op_provider c = u8 "volcengine") then
    [("thinking"%string, VDict [("type"%string, VStr (u8 "disabled"))])]
  else [].

Definition request_url (c : Client) : pystr := op_base_url c ++ u8 "/chat/completions".

Definition request_headers (c : Client) : list (string * pystr) :=
  dupdate [("Authorization"%string, u8 "Bearer " ++ op_api_key c);
           ("Content-Type"%string, u8 "application/json")] (op_extra_headers c).

Definition messages_json (messages : list Message) : pyval :=
  VList (map (fun m => VDict [("role"%string, VStr (u8 (msg_role m)));
                              ("content"%string, VStr (msg_content m))]) messages).

Definition chat_payload (c : Client) (messages : list Message) (json_mode : bool)
  (temperature top_p : pyval) (max_tokens : option Z) : list (string * pyval) :=
  let payload := [("model"%string, VStr (op_model c)); ("messages"%string, messages_json messages);
                  ("temperature"%string, temperature); ("top_p"%string, top_p)] in
  let payload := dupdate payload (thinking_off_payload c) in
  let payload := match max_tokens with
                 | Some n => dset "max_tokens" (VInt n) payload
                 | None => payload
                 end in
  if json_mode then
    dset "response_format" (VDict [("type"%string, VStr (u8 "json_object"))]) payload
  else payload.

Definition stream_payload (c : Client) (messages : list Message) (temperature top_p : pyval)
  (max_tokens : option Z) : list (string * pyval) :=
  let payload := [("model"%string, VStr (op_model c)); ("messages"%string, messages_json messages);
                  ("temperature"%string, temperature); ("top_p"%string, top_p);
                  ("stream"%string, VBool true);
                  ("stream_options"%string, VDict [("include_usage"%string, VBool true)])] in
  let payload := dupdate payload (thinking_off_payload c) in
  match max_tokens with Some n => dset "max_tokens" (VInt n) payload | None => payload end.

(** *** Answers *)

(** An [httpx.HTTPError], or another exception. *)
Inductive Failure : Type := HttpFailed (exc : pystr) | OtherFailed (exc : pystr).

(** What the network makes of a request. *)
Inductive Exchange : Type := Responded (status : Z) (body : pystr) | Failed (f : Failure).

(** A streamed request: refused, or answered with a status, a body for an error status,
    lines with their arrival times, and the failure the transport ends with, if any. *)
Inductive StreamExchange : Type :=
| Refused (f : Failure)
| Streamed (status : Z) (body : pystr) (lines : list (Z * pystr)) (failure : option Failure).

Record LLMResponse := mkResponse {
  lr_content : pystr; lr_tokens_in : Z; lr_tokens_out : Z; lr_finish_reason : pystr;
  lr_latency_ms : Z }.

Section Wire.
  Context (json_loads : pystr -> option pyval) (int_of_str : pystr -> option Z).
  (** The shared package's errors. *)
  Context {E : Type} (map_http_error : Z -> pystr -> pystr -> E)
    (map_transport_error : pystr -> pystr -> E) (invalid_response : pystr -> pystr -> E).

(** What a call raises: a [ProviderError], or something else. *)
Inductive Raised : Type := ProviderError (e : E) | Escaped (exc : pystr).

Definition coerce_int (v : pyval) : Z :=
  match v with
  | VInt n => n
  | VBool b => if b then 1 else 0
  | VStr s => default 0 (int_of_str s)
  | _ => 0
  end.

Definition FINISH_REASONS : list string :=
  ["stop"; "length"; "content_filter"; "tool_calls"; "error"]%string.

Definition normalize_finish_reason (v : pyval) : pystr :=
  match v with
  | VStr s => if existsb (fun r => bool_decide (s = u8 r)) FINISH_REASONS then s else u8 "stop"
  | _ => u8 "stop"
  end.

Definition invalid (c : Client) (what : string) : Raised :=
  ProviderError (invalid_response (op_provider c ++ u8 what) (op_provider c)).

Definition parse_chat_response (c : Client) (body : pystr) (latency_ms : Z)
  : result Raised LLMResponse :=
  match json_loads body with
  | None => Err (invalid c " response was not JSON")
  | Some (VDict data) =>
      match dgetv "choices" data with
      | VList (first :: _) =>
          match first with
          | VDict f =>
              match dgetv "message" f with
              | VDict message =>
                  match dgetv "content" message with
                  | VStr content =>
                      let usage := match dgetv "usage" data with VDict u => u | _ => [] end in
                      Ok (mkResponse content (coerce_int (dgetv "prompt_tokens" usage))
                            (coerce_int (dgetv "completion_tokens" usage))
                            (normalize_finish_reason (dgetv "finish_reason" f)) latency_ms)
                  | _ => Err (invalid c " choices[0].message.content not a string")
                  end
              | _ => Err (invalid c " choices[0].message missing")
              end
          | _ => Err (invalid c " choices[0] was not an object")
          end
      | _ => Err (invalid c " response missing 'choices'")
      end
  | Some _ => Err (invalid c " response root was not an object")
  end.

(** [except httpx.HTTPError]. *)
Definition raised (c : Client) (f : Failure) : Raised :=
  match f with
  | HttpFailed exc => ProviderError (map_transport_error exc (op_provider c))
  | OtherFailed exc => Escaped exc
  end.

(** [chat], after the request was sent. *)
Definition chat (c : Client) (answer : Exchange) (latency_ms : Z) : result Raised LLMResponse :=
  match answer with
  | Failed f => Err (raised c f)
  | Responded status body =>
      if 400 <=? status then Err (ProviderError (map_http_error status body (op_provider c)))
      else parse_chat_response c body latency_ms
  end.

(** *** Streaming *)

Inductive SseLine : Type :=
| SseSkip
| SseDone
| SseChunk (delta : pystr) (finish_reason : option pystr) (usage : option (list (string * pyval))).

Definition parse_sse_line (line : pystr) : SseLine :=
  let line := py_strip line in
  if startswith line (u8 "data:") then
    let data := py_strip (drop 5 line) in
    if decide (data = u8 "[DONE]") then SseDone
    else match json_loads data with
         | Some (VDict obj) =>
             let usage := match dgetv "usage" obj with VDict u => Some u | _ => None end in
             match dgetv "choices" obj with
             | VList (VDict first :: _) =>
                 SseChunk
                   (match dgetv "delta" first with
                    | VDict d => match dgetv "content" d with VStr s => s | _ => [] end
                    | _ => []
                    end)
                   (match dgetv "finish_reason" first with VStr s => Some s | _ => None end) usage
             | _ => SseChunk [] None usage
             end
         | _ => SseSkip
         end
  else SseSkip.

(** The bookkeeping of one chunk. *)
Definition note_chunk (finish_reason : option pystr) (usage : option (list (string * pyval)))
  (c : Client) : Client :=
  let c := match usage with
           | Some u => c <| last_call_tokens_in := Some (coerce_int (dgetv "prompt_tokens" u)) |>
                         <| last_call_tokens_out := Some (coerce_int (dgetv "completion_tokens" u)) |>
           | None => c
           end in
  match finish_reason with
  | Some fr => c <| last_call_finish_reason := Some (normalize_finish_reason (VStr fr)) |>
  | None => c
  end.

(** [async for line in response.aiter_lines()]: the yielded deltas, the client, and
    whether [\[DONE\]] was reached. *)
Fixpoint stream_lines (lines : list (Z * pystr)) (c : Client) : list (Z * pystr) * Client * bool :=
  match lines with
  | [] => ([], c, false)
  | (t, line) :: lines' =>
      match parse_sse_line line with
      | SseDone => ([], c, true)
      | SseSkip => stream_lines lines' c
      | SseChunk delta fr usage =>
          let '(ds, c', fin) := stream_lines lines' (note_chunk fr usage c) in
          (match delta with [] => ds | _ => (t, delta) :: ds end, c', fin)
      end
  end.

Definition chat_stream (c : Client) (x : StreamExchange) : list (Z * pystr) * Client * option Raised :=
  let c := c <| last_call_tokens_in := None |> <| last_call_tokens_out := None |>
             <| last_call_finish_reason := None |> in
  match x with
  | Refused f => ([], c, Some (raised c f))
  | Streamed status body lines failure =>
      if 400 <=? status then
        ([], c, Some (match failure with                      (* [aread] may fail too *)
                      | Some f => raised c f
                      | None => ProviderError (map_http_error status body (op_provider c))
                      end))
      else
        let '(ds, c', fin) := stream_lines lines c in
        (ds, c', if (fin : bool) then None else raised c <$> failure)
  end.
End Wire.

(** ** What a streamed reply carries *)

(** A chunk as the vendors send it. *)
Record Chunk := mkChunk {
  ck_delta : pystr; ck_finish : option pystr; ck_usage : option (Z * Z) }.

Definition chunk_json (ck : Chunk) : list (string * pyval) :=
  [("choices"%string,
    VList [VDict [("delta"%string, VDict [("content"%string, VStr (ck_delta ck))]);
                  ("finish_reason"%string, match ck_finish ck with Some s => VStr s | None => VNone end)]]);
   ("usage"%string, match ck_usage ck with
                    | Some (i, o) => VDict [("prompt_tokens"%string, VInt i); ("completion_tokens"%string, VInt o)]
                    | None => VNone
                    end)].

(** A line of the stream: a chunk, or a blank line, comment or other field. *)
Inductive Line : Type := LChunk (ck : Chunk) | LOther (s : pystr).

Definition other_ok (l : Line) : Prop :=
  match l with LOther s => startswith (py_strip s) (u8 "data:") = false | LChunk _ => True end.

Definition deltas (ls : list (Z * Line)) : list (Z * pystr) :=
  flat_map (fun tl => match tl.2 with
                      | LChunk ck => match ck_delta ck with [] => [] | d => [(tl.1, d)] end
                      | LOther _ => []
                      end) ls.

(** The usage of the last chunk that has one. *)
Definition usage_of (ls : list (Z * Line)) : option (Z * Z) :=
  last (flat_map (fun tl => match tl.2 with
                            | LChunk ck => match ck_usage ck with Some u => [u] | None => [] end
                            | LOther _ => []
                            end) ls).

Section Streaming.
  Context (json_loads : pystr -> option pyval) (json_dumps : pyval -> pystr)
    (int_of_str : pystr -> option Z).
  Context {E : Type} (map_http_error : Z -> pystr -> pystr -> E)
    (map_transport_error : pystr -> pystr -> E) (invalid_response : pystr -> pystr -> E).
  (** JSON: a printed chunk is read back, and an object is printed between braces. *)
  Hypothesis loads_dumps : forall ck,
    json_loads (json_dumps (VDict (chunk_json ck))) = Some (VDict (chunk_json ck)).
  Hypothesis dumps_braces : forall d, exists s, json_dumps (VDict d) = [123] ++ s ++ [125].

Definition render (l : Line) : pystr :=
  match l with LChunk ck => u8 "data: " ++ json_dumps (VDict (chunk_json ck)) | LOther s => s end.

Lemma strip_between l a s b :
  Forall (fun c => is_space c = true) l -> is_space a = false -> is_space b = false ->
  py_strip (l ++ [a] ++ s ++ [b]) = [a] ++ s ++ [b].
Proof.
  intros Hl Ha Hb. unfold py_strip.
  pose proof (strip_wrap is_space l ([a] ++ s ++ [b]) []) as H. rewrite !app_nil_r in H.
  apply H; [done|done|done|]. rewrite app_assoc, rev_app_distr. done.
Qed.

Lemma parse_chunk ck :
  parse_sse_line json_loads (render (LChunk ck))
  = SseChunk (ck_delta ck) (ck_finish ck)
      ((fun u => [("prompt_tokens"%string, VInt u.1); ("completion_tokens"%string, VInt u.2)])
       <$> ck_usage ck).
Proof.
  unfold parse_sse_line, render. destruct (dumps_braces (chunk_json ck)) as [s Hs].
  assert (Hl : py_strip (u8 "data: " ++ json_dumps (VDict (chunk_json ck)))
               = u8 "data: " ++ json_dumps (VDict (chunk_json ck))).
  { rewrite Hs. exact (strip_between [] 100 (u8 "ata: " ++ [123] ++ s) 125 (Forall_nil_2 _) eq_refl eq_refl). }
  assert (Hx : py_strip (drop 5 (u8 "data: " ++ json_dumps (VDict (chunk_json ck))))
               = json_dumps (VDict (chunk_json ck))).
  { rewrite Hs. apply (strip_between [32] 123 s 125); [by repeat constructor|done..]. }
  rewrite Hl, Hx.
  change (startswith (u8 "data: " ++ json_dumps (VDict (chunk_json ck))) (u8 "data:")) with true.
  cbv iota. rewrite decide_False by (rewrite Hs; discriminate). rewrite loads_dumps.
  destruct ck as [d [f|] [[i o]|]]; reflexivity.
Qed.

(** The client after a stretch of stream. *)
Fixpoint noted (ls : list (Z * Line)) (c : Client) : Client :=
  match ls with
  | [] => c
  | (_, LChunk ck) :: ls' =>
      noted ls' (note_chunk int_of_str (ck_finish ck)
        ((fun u => [("prompt_tokens"%string, VInt u.1); ("completion_tokens"%string, VInt u.2)])
         <$> ck_usage ck) c)
  | (_, LOther _) :: ls' => noted ls' c
  end.

Lemma stream_lines_render ls tail c :
  Forall (fun tl => other_ok tl.2) ls ->
  stream_lines json_loads int_of_str (map (fun tl => (tl.1, render tl.2)) ls ++ tail) c
  = let '(ds, c', fin) := stream_lines json_loads int_of_str tail (noted ls c) in
    (deltas ls ++ ds, c', fin).
Proof.
  intros Hls. revert c. induction Hls as [|[t l] ls Hl _ IH]; intros c.
  - simpl. by destruct (stream_lines _ _ tail c) as [[]].
  - cbn [map app stream_lines fst snd]. destruct l as [ck|s].
    + rewrite parse_chunk, IH. simpl. destruct (stream_lines _ _ tail _) as [[ds c'] fin].
      by destruct (ck_delta ck).
    + simpl in Hl. unfold render, parse_sse_line at 1. rewrite Hl, IH. simpl. done.
Qed.

Lemma noted_usage ls c :
  last_call_tokens_in (noted ls c)
  = match usage_of ls with Some u => Some u.1 | None => last_call_tokens_in c end
  /\ last_call_tokens_out (noted ls c)
  = match usage_of ls with Some u => Some u.2 | None => last_call_tokens_out c end.
Proof.
  unfold usage_of. revert c. induction ls as [|[t [ck|s]] ls IH]; intros c; simpl; [done| |apply IH].
  edestruct IH as [-> ->]. rewrite last_app. destruct (last _); [done|].
  destruct ck as [d [f|] [[i o]|]]; done.
Qed.

(** The exchange of a reply that arrived whole: any chunks and other lines, then
    [\[DONE\]], then whatever else the connection carries or how it ends. *)
Definition whole_reply (ls : list (Z * Line)) (done_at : Z) (more : list (Z * pystr))
  (failure : option Failure) : StreamExchange :=
  Streamed 200 [] (map (fun tl => (tl.1, render tl.2)) ls ++ (done_at, u8 "data: [DONE]") :: more) failure.

Lemma whole_reply_read c ls done_at more failure :
  Forall (fun tl => other_ok tl.2) ls ->
  exists c', chat_stream json_loads int_of_str map_http_error map_transport_error c
               (whole_reply ls done_at more failure) = (deltas ls, c', None)
    /\ last_call_tokens_in c' = fst <$> usage_of ls /\ last_call_tokens_out c' = snd <$> usage_of ls.
Proof.
  intros Hls. unfold chat_stream, whole_reply. cbn [Z.leb Z.compare Pos.compare Pos.compare_cont].
  rewrite stream_lines_render by done. cbn [stream_lines].
  replace (parse_sse_line json_loads (u8 "data: [DONE]")) with SseDone by reflexivity.
  eexists. rewrite app_nil_r. split; [reflexivity|].
  match goal with |- context [noted ls ?c0] => destruct (noted_usage ls c0) as [-> ->] end.
  by destruct (usage_of ls).
Qed.

(** The client as the pipeline sees it for one streamed exchange. *)
Definition llm_of (error_text : Raised -> pystr) (c : Client) (x : StreamExchange) (end_ms : Z)
  (fallback : Z * result pystr (option pystr)) : LLM :=
  let '(ds, c', e) := chat_stream json_loads int_of_str map_http_error map_transport_error c x in
  mkLLM (fun _ _ _ => mkRun ds end_ms (error_text <$> e)) (fun _ _ _ => fallback)
    (last_call_tokens_in c') (last_call_tokens_out c').
End Streaming.

(** What the vendor said. *)
Definition said (ls : list (Z * Line)) : pystr :=
  concat (map (fun tl => match tl.2 with LChunk ck => ck_delta ck | LOther _ => [] end) ls).

Lemma concat_deltas ls : concat (map snd (deltas ls)) = said ls.
Proof.
  unfold said, deltas. induction ls as [|[t [ck|s]] ls IH]; simpl; [done| |done].
  rewrite map_app, concat_app, IH. destruct (ck_delta ck); simpl; by rewrite ?app_nil_r.
Qed.

Lemma generate_core_tokens other_str readable s st :
  let res := (generate_core other_str readable s st).2 in
  mr_tokens_in res = default 0 (llm_tokens_in (st_llm st))
  /\ mr_tokens_out res = default 0 (llm_tokens_out (st_llm st)).
Proof.
  unfold generate_core. destruct (stream_params st) as [temp top]. simpl.
  destruct (timed_split _ _ _) as [tl timed].
  destruct (sr_error _) as [exc|]; [destruct timed|]; simpl; try done.
  by destruct (chat_fallback _ _ _) as [[[]]].
Qed.


(** C40: Every answer of a vendor is a usable reply or a [ProviderError], whatever JSON it
    is: the call returns exactly for a success status and an object whose first choice
    has a message with a string content, and that string is returned; an error status, a
    body that is not JSON or has another shape, and a transport error raise a
    [ProviderError], and no other exception is made from an answer. *)
Theorem chat_answers json_loads int_of_str {E} map_http_error map_transport_error invalid_response
  c answer latency :
  let r := @chat json_loads int_of_str E map_http_error map_transport_error invalid_response c answer latency in
  (forall content, (exists resp, r = Ok resp /\ lr_content resp = content) <->
     exists status body data first choices message,
       answer = Responded status body /\ status < 400 /\ json_loads body = Some (VDict data)
       /\ dget "choices" data = Some (VList (VDict first :: choices))
       /\ dget "message" first = Some (VDict message) /\ dget "content" message = Some (VStr content))
  /\ (forall exc, r = Err (Escaped exc) <-> answer = Failed (OtherFailed exc)).
Proof.
  assert (Hg : forall k d v, dgetv k d = v -> v <> VNone -> dget k d = Some v).
  { unfold dgetv. intros k d v <-. by destruct (dget k d). }
  simpl. unfold chat. destruct answer as [status body|[exc|exc]]; simpl; [|naive_solver..].
  destruct (400 <=? status) eqn:Hst; zbool; [split; [|naive_solver];
    intros content; split; [naive_solver|intros (? & ? & ? & ? & ? & ? & [= <- <-] & ? & _); lia]|].
  unfold parse_chat_response. split.
  - intros content. split.
    + intros (resp & H & <-). repeat case_match; simplify_eq; simpl; repeat eexists; try done; by apply Hg.
    + intros (? & ? & data & first & chs & message & [= <- <-] & _ & -> & Hc & Hm & Ht).
      unfold dgetv at 1. rewrite Hc. simpl. unfold dgetv at 1. rewrite Hm. simpl.
      unfold dgetv at 1. rewrite Ht. simpl. by eexists.
  - intros exc. split; [|done]. repeat case_match; done.
Qed.
End OpenAI.

(** ** The factory *)
Module Factory.
Import OpenAI.

(** A [CredentialStore]: the value of a provider's field. *)
Abbreviation store_get := (pystr -> string -> option pystr).

(** The factory's only exception of its own. *)
Inductive BuildError : Type := NotImplementedError (provider : pystr) | BadArguments.

Definition KNOWN_LLM_PROVIDERS : list pystr := map u8 ["mock"; "volcengine"; "dashscope"]%string.
Definition KNOWN_ASR_PROVIDERS : list pystr := map u8 ["mock"; "volcengine_speech"]%string.
Definition KNOWN_TTS_PROVIDERS : list pystr := map u8 ["mock"; "volcengine_speech"]%string.

Definition ARK_ENDPOINT : pystr := u8 "https://ark.cn-beijing.volces.com/api/v3".
Definition DASHSCOPE_ENDPOINT : pystr := u8 "https://dashscope.aliyuncs.com/compatible-mode/v1".

Definition DEFAULT_MODEL_volcengine : pystr := u8 "doubao-pro-32k".
Definition DEFAULT_MODEL_dashscope : pystr := u8 "qwen-plus".

Definition require (store : option store_get) (provider : pystr) : result BuildError store_get :=
  match store with Some s => Ok s | None => Err (NotImplementedError provider) end.

Definition require_field (s : store_get) (provider : pystr) (field : string) : result BuildError pystr :=
  match s provider field with
  | Some ((_ :: _) as value) => Ok value
  | _ => Err (NotImplementedError provider)
  end.

Inductive LLMClient : Type := MockLLM | VendorLLM (c : Client).

#[export] Instance LLMClient_eq_dec : EqDecision LLMClient.
Proof. solve_decision. Defined.

Definition build_llm (name : pystr) (store : option store_get) (model : option pystr)
  : result BuildError LLMClient :=
  if decide (name = u8 "mock") then Ok MockLLM
  else if bool_decide (name ∈ KNOWN_LLM_PROVIDERS) then
    let? s := require store name in
    if decide (name = u8 "volcengine") then
      let? api_key := require_field s name "api_key" in
      Ok (VendorLLM (new_client name api_key (str_or (s name "endpoint"%string) ARK_ENDPOINT)
            (str_or model (str_or (s name "default_model"%string) DEFAULT_MODEL_volcengine)) []))
    else if decide (name = u8 "dashscope") then
      let? api_key := require_field s name "api_key" in
      Ok (VendorLLM (new_client name api_key (str_or (s name "endpoint"%string) DASHSCOPE_ENDPOINT)
            (str_or model (str_or (s name "default_model"%string) DEFAULT_MODEL_dashscope)) []))
    else Err (NotImplementedError name)
  else Err (NotImplementedError name).

(** *** The recogniser *)

Definition DEFAULT_ASR_RESOURCE_ID : pystr := u8 "volc.bigasr.sauc.duration".
Definition DEFAULT_PARTIAL_STABLE_S : Q := 2 # 5.

Record VolcengineASR := mkVolcASR {
  va_api_key : option pystr; va_app_key : option pystr; va_access_key : option pystr;
  va_resource_id : pystr; va_partial_stable_s : Q }.

(** [VolcengineASRProvider.__init__]. *)
Definition new_volc_asr (api_key app_key access_key : option pystr) (resource_id : pystr)
  (partial_stable_s : option Q) : result BuildError VolcengineASR :=
  match str_or api_key [], str_or app_key [], str_or access_key [] with
  | [], [], _ | [], _, [] => Err BadArguments       (* ValueError *)
  | _, _, _ => Ok (mkVolcASR api_key app_key access_key resource_id
                     (default DEFAULT_PARTIAL_STABLE_S partial_stable_s))
  end.

(** [_headers], with the request's id. *)
Definition asr_headers (request_id : pystr) (a : VolcengineASR) : list (string * pystr) :=
  let common := [("X-Api-Resource-Id"%string, va_resource_id a); ("X-Api-Request-Id"%string, request_id);
                 ("X-Api-Sequence"%string, u8 "-1")] in
  match va_api_key a with
  | Some ((_ :: _) as k) => ("X-Api-Key"%string, k) :: common
  | _ => ("X-Api-App-Key"%string, str_or (va_app_key a) [])
         :: ("X-Api-Access-Key"%string, str_or (va_access_key a) []) :: common
  end.

Inductive ASRClient : Type := MockASR | VendorASR (a : VolcengineASR).

Definition build_asr (name : pystr) (store : option store_get) (partial_stable_s : option Q)
  : result BuildError ASRClient :=
  if decide (name = u8 "mock") then Ok MockASR
  else if bool_decide (name ∈ KNOWN_ASR_PROVIDERS) then
    let? s := require store name in
    if decide (name = u8 "volcengine_speech") then
      let resource_id := str_or (s name "asr_resource_id"%string) DEFAULT_ASR_RESOURCE_ID in
      match s name "api_key"%string with
      | Some ((_ :: _) as api_key) =>
          let? a := new_volc_asr (Some api_key) None None resource_id partial_stable_s in Ok (VendorASR a)
      | _ =>
          let? app_key := require_field s name "app_key" in
          let? app_token := require_field s name "app_token" in
          let? a := new_volc_asr None (Some app_key) (Some app_token) resource_id partial_stable_s in
          Ok (VendorASR a)
      end
    else Err (NotImplementedError name)
  else Err (NotImplementedError name).

(** *** Synthesis: the shared package builds the vendor's client. *)
Section Tts.
  Context {T : Type} (mock_tts : T) (build_volcengine_tts : store_get -> result BuildError T).

Definition build_tts (name : pystr) (store : option store_get) : result BuildError T :=
  if decide (name = u8 "mock") then Ok mock_tts
  else if bool_decide (name ∈ KNOWN_TTS_PROVIDERS) then
    let? s := require store name in
    if decide (name = u8 "volcengine_speech") then build_volcengine_tts s
    else Err (NotImplementedError name)
  else Err (NotImplementedError name).
End Tts.

(** *** What the factory builds *)

(** The client's key is that vendor's own API key, and its model the slot's. *)
Definition built_for (s : store_get) (name : pystr) (model : option pystr) (c : Client) : Prop :=
  op_provider c = name /\ s name "api_key"%string = Some (op_api_key c) /\ op_api_key c <> []
  /\ op_model c <> [] /\ (forall m, model = Some m -> m <> [] -> op_model c = m)
  /\ thinking_off_payload c <> [].

Lemma require_field_ok s p f v : require_field s p f = Ok v -> s p f = Some v /\ v <> [].
Proof. unfold require_field. destruct (s p f) as [[|]|]; naive_solver. Qed.

Lemma thinking_off_known name key url model headers :
  name = u8 "volcengine" \/ name = u8 "dashscope" ->
  thinking_off_payload (new_client name key url model headers) <> [].
Proof.
  unfold thinking_off_payload. intros Hn. case_decide as H0; [discriminate|]. case_decide as H; [discriminate|].
  destruct Hn as [E|E]; [destruct (H E)|destruct (H0 E)].
Qed.

Lemma vendor_built (s : store_get) name key url model fallback :
  s name "api_key"%string = Some key -> key <> [] -> fallback <> [] ->
  name = u8 "volcengine" \/ name = u8 "dashscope" ->
  built_for s name model (new_client name key url (str_or model (str_or (s name "default_model"%string) fallback)) []).
Proof.
  intros Hk Hne Hf Hn. split; [reflexivity|]. split; [exact Hk|]. split; [exact Hne|].
  split; [by apply str_or_nonempty, str_or_nonempty|].
  split; [intros m; apply str_or_some|by apply thinking_off_known].
Qed.

Lemma build_llm_ok name store model c :
  build_llm name store model = Ok c ->
  (name = u8 "mock" /\ c = MockLLM)
  \/ exists s v, store = Some s /\ c = VendorLLM v /\ built_for s name model v.
Proof.
  unfold build_llm. case_decide as Hm; [intros [= <-]; by left|]. case_bool_decide; [|discriminate].
  intros (s & Hs & Hb)%rbind_Ok. right. unfold require in Hs. destruct store as [s0|]; [|discriminate].
  injection Hs as ->.
  assert (Hinj : forall a b : LLMClient, Ok a = Ok b :> result BuildError LLMClient -> b = a)
    by (intros a b [=]; done).
  case_decide as Hv; [|case_decide as Hd; [|discriminate]];
    apply rbind_Ok in Hb as (k & [Hk Hne]%require_field_ok & Hc); apply Hinj in Hc as ->;
    exists s; eexists; (split; [reflexivity|]); (split; [reflexivity|]);
    (apply vendor_built; [exact Hk|exact Hne|discriminate|]); [left; exact Hv|right; exact Hd].
Qed.

(** *** Slots of a call *)

(** [build_llm] as the registry calls it: it catches [NotImplementedError] and
    [ValueError]. *)
Definition registry_build (store : option store_get) (p : pystr) (m : option pystr)
  : result bool LLMClient :=
  match build_llm p store m with Ok c => Ok c | Err _ => Err true end.

(** The slots of a call resolved one after the other. *)
Fixpoint resolve_all {C} (build : pystr -> option pystr -> result bool C)
  (slots : list (option pystr * option pystr)) (r : Registry.LLMRegistry)
  : result unit (list C * Registry.LLMRegistry) :=
  match slots with
  | [] => Ok ([], r)
  | (p, m) :: slots' =>
      let? (c, r1) := Registry.resolve build p m r in
      let? (cs, r2) := resolve_all build slots' r1 in
      Ok (c :: cs, r2)
  end.

(** The client a slot means. *)
Definition slot_client (store : option store_get) (dflt : LLMClient) (p m : option pystr) : LLMClient :=
  match p with
  | None | Some [] => dflt
  | Some p => match build_llm p store m with Ok c => c | Err _ => dflt end
  end.

Definition cache_ok (store : option store_get) (r : Registry.LLMRegistry) : Prop :=
  forall p m c, p <> [] -> Registry.lookup_client (p, m) (Registry.cache r) = Some c ->
  c = slot_client store (Registry.default_client r) (Some p) m.

Lemma lookup_client_snoc {C} k k' (c : C) l :
  Registry.lookup_client k (l ++ [(k', c)])
  = match Registry.lookup_client k l with
    | Some x => Some x
    | None => if decide (k' = k) then Some c else None
    end.
Proof. induction l as [|[k0 c0] l IH]; simpl; [done|]. by destruct (decide (k0 = k)). Qed.

Lemma resolve_slot store p m r :
  cache_ok store r ->
  exists r', Registry.resolve (registry_build store) p m r
             = Ok (slot_client store (Registry.default_client r) p m, r')
    /\ cache_ok store r' /\ Registry.default_client r' = Registry.default_client r.
Proof.
  intros Hr. unfold Registry.resolve. destruct p as [[|ch p]|]; [by exists r| |by exists r].
  destruct (Registry.lookup_client _ _) as [c|] eqn:Hl.
  { exists r. apply Hr in Hl as ->; [|done]. done. }
  assert (Hsnoc : cache_ok store (Registry.mkRegistry (Registry.default_client r) (Registry.cache r
    ++ [((ch :: p, m), slot_client store (Registry.default_client r) (Some (ch :: p)) m)]))).
  { intros p' m' c Hp'. simpl. rewrite lookup_client_snoc.
    destruct (Registry.lookup_client (p', m') _) eqn:Hl'; [intros [= <-]; by apply Hr|].
    case_decide as Hk; [|done]. injection Hk as <- <-. by intros [= <-]. }
  unfold registry_build in *. simpl in *. destruct (build_llm (ch :: p) store m); by eexists.
Qed.

(** A misconfigured slot never breaks a call: whatever providers, models and
    credentials the rows of a campaign name, resolving its slots through the per-call
    cache always succeeds, and every slot gets exactly the client the factory builds for
    its provider and model, or the engine's default when the factory refuses.  A vendor's
    client carries that vendor's own API key, the slot's model when it names one, and the
    field that turns the vendor's reasoning off. *)
Theorem slots_fail_open store dflt slots :
  exists cs r, resolve_all (registry_build store) slots (Registry.mkRegistry dflt []) = Ok (cs, r)
    /\ cs = map (fun pm => slot_client store dflt pm.1 pm.2) slots
    /\ Forall2 (fun pm c => c = dflt \/ c = MockLLM
         \/ exists s p v, store = Some s /\ pm.1 = Some p /\ c = VendorLLM v /\ built_for s p pm.2 v)
         slots cs.
Proof.
  assert (Hall : forall r, cache_ok store r -> exists r',
    resolve_all (registry_build store) slots r
    = Ok (map (fun pm => slot_client store (Registry.default_client r) pm.1 pm.2) slots, r')).
  { induction slots as [|[p m] slots IH]; intros r Hr; simpl; [by eexists|].
    destruct (resolve_slot store p m r Hr) as (r1 & -> & Hr1 & Hd). simpl.
    destruct (IH r1 Hr1) as [r2 ->]. rewrite Hd. by eexists. }
  destruct (Hall (Registry.mkRegistry dflt [])) as [r' Hr]; [by intros p m c _|].
  eexists _, r'. split; [exact Hr|]. split; [done|]. simpl. clear.
  apply Forall2_fmap_r, Forall_Forall2_diag, Forall_true. intros [p m]. simpl.
  destruct p as [[|ch p]|]; simpl; [by left| |by left].
  destruct (build_llm (ch :: p) store m) as [c|] eqn:Hb; [|by left]. right.
  apply build_llm_ok in Hb as [[_ ->]|(s & v & -> & -> & Hf)]; [by left|right].
  by exists s, (ch :: p), v.
Qed.

(** The recogniser's requests are always signed: with the new console's key when there is
    one, else with both legacy keys, and the end-of-speech window is the campaign's. *)
Lemma asr_always_signed name store stable a :
  build_asr name store stable = Ok (VendorASR a) ->
  va_partial_stable_s a = default DEFAULT_PARTIAL_STABLE_S stable
  /\ forall rid, exists k v, head (asr_headers rid a) = Some (k, v) /\ v <> []
     /\ (k = "X-Api-Key"%string
         \/ exists k2 v2, k = "X-Api-App-Key"%string /\ asr_headers rid a !! 1%nat = Some (k2, v2)
                          /\ k2 = "X-Api-Access-Key"%string /\ v2 <> []).
Proof.
  unfold build_asr. case_decide; [discriminate|]. case_bool_decide; [|discriminate].
  intros (s & _ & Hb)%rbind_Ok. case_decide; [|discriminate].
  assert (Hlegacy : forall app tok res, app <> [] -> tok <> [] ->
    (let? v := new_volc_asr None (Some app) (Some tok) res stable in Ok (VendorASR v)) = Ok (VendorASR a) ->
    a = mkVolcASR None (Some app) (Some tok) res (default DEFAULT_PARTIAL_STABLE_S stable)).
  { intros [|x app] [|y tok] res; try done. intros _ _ [=]. done. }
  assert (Hnew : forall c k res,
    (let? v := new_volc_asr (Some (c :: k)) None None res stable in Ok (VendorASR v)) = Ok (VendorASR a) ->
    a = mkVolcASR (Some (c :: k)) None None res (default DEFAULT_PARTIAL_STABLE_S stable)).
  { intros c k res [=]. done. }
  destruct (s name "api_key"%string) as [[|c k]|].
  2: { apply Hnew in Hb as ->. split; [reflexivity|]. intros rid. simpl. eexists _, _.
       split; [reflexivity|]. split; [discriminate|by left]. }
  all: apply rbind_Ok in Hb as (ak & [_ Hak]%require_field_ok & Hb);
       apply rbind_Ok in Hb as (tk & [_ Htk]%require_field_ok & Hb);
       apply Hlegacy in Hb as ->; [|exact Hak|exact Htk]; split; [reflexivity|]; intros rid;
       eexists _, _; (split; [reflexivity|]);
       (split; [destruct ak; [contradiction|discriminate]|right]); eexists _, _;
       split_and!; try reflexivity; destruct tk; [contradiction|discriminate].
Qed.
End Factory.

(** ** Witnesses *)
Section Witness.
Import OpenAI.

(** A printer and a reader of chunks. *)
Definition demo_dumps (v : pyval) : pystr :=
  match v with
  | VDict [(_, VList [VDict [(_, VDict [(_, VStr d)]); (_, fr)]]); (_, us)] =>
      let f := match fr with VStr s => Some s | _ => None end in
      let u := match us with VDict [(_, VInt i); (_, VInt o)] => Some (i, o) | _ => None end in
      [123] ++ [Zpos (encode (d, f, u))] ++ [125]
  | _ => [123] ++ [] ++ [125]
  end.

Definition demo_loads (s : pystr) : option pyval :=
  match s with
  | [_; Zpos p; _] =>
      (fun '(d, f, u) => VDict (chunk_json (mkChunk d f u)))
      <$> decode (A := list Z * option (list Z) * option (Z * Z)) p
  | _ => None
  end.

Lemma demo_json ck : demo_loads (demo_dumps (VDict (chunk_json ck))) = Some (VDict (chunk_json ck)).
Proof.
  destruct ck as [d [f|] [[i o]|]]; unfold demo_loads, demo_dumps, chunk_json; simpl ck_delta;
    cbn [ck_delta ck_finish ck_usage app]; rewrite decode_encode; reflexivity.
Qed.

Lemma demo_braces d : exists b, demo_dumps (VDict d) = [123] ++ b ++ [125].
Proof. unfold demo_dumps. repeat case_match; eexists; reflexivity. Qed.

(** A keep-alive, two chunks, and the usage. *)
Definition demo_lines : list (Z * Line) :=
  [(1, LOther (u8 ": ping")); (2, LChunk (mkChunk (u8 "好的") None None)); (3, LOther []);
   (4, LChunk (mkChunk (u8 "。") (Some (u8 "stop")) None)); (5, LChunk (mkChunk [] None (Some (12, 3))))].

Definition demo_exchange : StreamExchange :=
  whole_reply demo_dumps demo_lines 6 [(7, u8 "data: x")] (Some (HttpFailed [])).

Definition demo_client : Client := new_client (u8 "dashscope") (u8 "k") (u8 "https://h/") (u8 "m") [].

Definition demo_wire_stream : PipelineStream :=
  mkStream [] Orchestrator.demo_config
    (llm_of demo_loads (fun _ => None) (fun _ _ _ => tt) (fun _ _ => tt) (fun _ => []) demo_client
       demo_exchange 8 (0, Ok None)) false None 1 [] [].

End Witness.
