(* ===== verification/Mocks.v ===== *)
(** * The stand-in providers

    [providers/llm_mock.py], [asr_mock.py] and [tts_mock.py], what the factory returns for
    the provider name [mock]: a model that answers by keywords (Module [MockLlm]), a
    recogniser that replays scripted turns (Module [MockAsr]) and a synthesiser whose
    audio is as long as its text (Module [MockTts]).  They must keep to the contracts of
    the prompts and queues they are used with, which is what the lemmas here say. *)
From S2P Require Import Prelude Session Referee Providers Orchestrator RunLoop Listen.
Import Providers.Asr.

(** ** The model *)
Module MockLlm.

Definition REFEREE_PRIMER_MARK : pystr := u8 "分类词".

Record Decision := mkDecision { dc_content : pystr; dc_tokens_in : Z; dc_tokens_out : Z }.

Definition plain (content : pystr) : Decision := mkDecision content 16 16.

(** [_first_role]. *)
Fixpoint first_role (messages : list Message) (role : string) : pystr :=
  match messages with
  | [] => []
  | m :: ms => if decide (msg_role m = role) then msg_content m else first_role ms role
  end.

(** [re.search] of an alternation of literals. *)
Definition search_any (words : list string) (s : pystr) : bool := existsb (fun w => contains s (u8 w)) words.

(** [re.search(r"客户最后一句：(.*)", s).group(1)]: the rest of the line after the first
    occurrence of the mark. *)
Fixpoint until_newline (s : pystr) : pystr :=
  match s with [] => [] | c :: s' => if c =? 10 then [] else c :: until_newline s' end.

Fixpoint after_mark (mark s : pystr) : option pystr :=
  if startswith s mark then Some (until_newline (drop (length mark) s))
  else match s with [] => None | _ :: s' => after_mark mark s' end.

Definition mock_referee (system : pystr) : Decision :=
  if contains system (u8 "收尾阶段的判定助手") then
    let utterance := default [] (after_mark (u8 "客户最后一句：") system) in
    if search_any ["价格"; "多少钱"; "怎么"; "什么时候"; "地址"; "细节"; "为什么"; "能不能"]%string utterance
    then plain (u8 "有问题") else plain (u8 "无问题")
  else if search_any ["预约"; "成功"; "约见"; "appointment"]%string system then plain (u8 "goal_achieved")
  else if search_any ["转人工"; "人工"]%string system then plain (u8 "transfer")
  else if search_any ["拒绝"; "不需要"; "没兴趣"; "do_not_call"]%string system then plain (u8 "customer_decline")
  else if search_any ["嗯你继续"; "嗯嗯"; "你继续"; "你说"; "对对对"; "继续说"]%string system then plain (u8 "FILLER")
  else plain (u8 "continue").

Section Chat.
  Context (json_dumps : pyval -> pystr).

Definition transfer_intent (user : pystr) : Decision :=
  let prob := if contains user (u8 "转人工") || contains user (u8 "人工") then 19 # 20 else 1 # 10 in
  plain (json_dumps (VDict [("intent"%string, VStr (u8 "transfer")); ("probability"%string, VFloat prob)])).

Definition transfer_llm (user : pystr) : Decision :=
  plain (json_dumps (VDict [("transfer"%string,
    VBool (contains user (u8 "投诉") || contains user (u8 "退款")))])).

Definition decide_chat (messages : list Message) : Decision :=
  let system := first_role messages "system" in
  let user := first_role messages "user" in
  if contains system (u8 "[transfer_intent]") then transfer_intent user
  else if contains system (u8 "[transfer_llm]") then transfer_llm user
  else if contains user REFEREE_PRIMER_MARK then mock_referee system
  else plain (u8 "您好，我是 AI 助手，请问现在方便吗？").

Definition GOODBYE : pystr := u8 "好的，期待和您再次联系，再见。".
Definition SHORT : pystr := u8 "明白了。".
Definition REPLY : pystr := u8 "好的，我明白了。请问您还有什么需要？".

Definition decide_main (messages : list Message) : pystr :=
  let system := first_role messages "system" in
  if contains system (u8 "目标已达成") || contains system (u8 "收尾对话") then GOODBYE
  else if contains system (u8 "请用一句话回应") then SHORT
  else REPLY.

(** The model as the pipeline sees it; each character arrives [per_token] after the one
    before, the first after [first_token]. *)
Definition token_times (first_token per_token : Z) (text : pystr) : list (Z * pystr) :=
  imap (fun i c => (first_token + Z.of_nat i * per_token, [c])) text.

Definition mock_llm (first_token per_token : Z) (messages : list Message) : LLM :=
  let text := decide_main messages in
  mkLLM (fun ms _ _ => let text := decide_main ms in
           mkRun (token_times first_token per_token text)
             (first_token + (zlen text - 1) * per_token) None)
        (fun ms _ _ => (0, Ok (Some (dc_content (decide_chat ms)))))
        (Some 16) (Some (Z.max 1 (zlen text / 2))).
End Chat.

(** *** Its place in the engine *)

Lemma contains_app_r s p q : contains q p = true -> contains (s ++ q) p = true.
Proof. intros Hq. induction s as [|c s IH]; simpl; [done|]. rewrite IH. apply orb_true_r. Qed.

Lemma contains_app_l s p q : contains s p = true -> contains (s ++ q) p = true.
Proof.
  assert (Hst : forall p s, startswith s p = true -> startswith (s ++ q) p = true).
  { clear. intros p. induction p as [|c p IH]; intros [|d s]; simpl; try done; [by destruct q|].
    intros [-> H]%andb_true_iff. by rewrite IH. }
  induction s as [|c s IH].
  - intros H. simpl in H. apply orb_true_iff in H as [H|H]; [|done].
    destruct p; [|done]. by destruct q.
  - intros H. change (startswith (c :: s) p || contains s p = true) in H.
    change (startswith ((c :: s) ++ q) p || contains (s ++ q) p = true).
    apply orb_true_iff in H as [H|H]; apply orb_true_iff; [left; by apply Hst|right; by apply IH].
Qed.

Definition CATEGORIES : list pystr :=
  map u8 ["有问题"; "无问题"; "goal_achieved"; "transfer"; "customer_decline"; "FILLER"; "continue"]%string.

Lemma category_parsed w label d :
  w ∈ CATEGORIES -> parse_referee_output w label d = mkReferee label (Some w) 1 d (Some w) None.
Proof.
  intros Hw%list_elem_of_In.
  destruct Hw as [<-|[<-|[<-|[<-|[<-|[<-|[<-|[]]]]]]]]; vm_compute; reflexivity.
Qed.

Lemma mock_referee_category system : dc_content (mock_referee system) ∈ CATEGORIES.
Proof.
  unfold mock_referee. repeat match goal with |- context [if ?b then _ else _] => destruct b end;
    apply (bool_decide_unpack _); vm_compute; exact I.
Qed.

(** The keyword model answers every referee the engine runs with exactly one category word
    that the engine's parser takes at face value; the referee is told apart from the other
    calls by the engine's own primer. *)
Lemma mock_referee_understood json_dumps start finish remainder user history spec :
  let system := referee_system_prompt remainder user history spec in
  contains system (u8 "[transfer_intent]") = false -> contains system (u8 "[transfer_llm]") = false ->
  let w := dc_content (mock_referee system) in
  run_referee (fun ms _ _ => Some (dc_content (decide_chat json_dumps ms))) start finish remainder user
    history spec
  = mkReferee (rs_label spec) (Some w) 1 (Z.quot (finish - start) 1000) (Some w) None.
Proof.
  intros system H1 H2 w. unfold run_referee. fold system.
  assert (Hd : decide_chat json_dumps [mkMessage "system" system; mkMessage "user" USER_PRIMER]
               = mock_referee system).
  { unfold decide_chat. change (first_role _ "system") with system.
    change (first_role _ "user") with USER_PRIMER. rewrite H1, H2.
    replace (contains USER_PRIMER REFEREE_PRIMER_MARK) with true by (vm_compute; reflexivity). reflexivity. }
  rewrite Hd. apply category_parsed, mock_referee_category.
Qed.

(** It says goodbye on every wrap-up turn: the engine's closing instruction is what it
    recognises. *)
Lemma mock_wraps_up other_str s c : decide_main (build_main_messages other_str s c true) = GOODBYE.
Proof.
  unfold decide_main. change (first_role _ "system") with (main_system other_str c true).
  replace (contains (main_system other_str c true) (u8 "目标已达成")) with true; [reflexivity|].
  symmetry. unfold main_system. do 4 apply contains_app_r. vm_compute. reflexivity.
Qed.
End MockLlm.

(** ** The recogniser *)
Module MockAsr.

Record ScriptedASR := mkScripted {
  asr_queue : list ASRResult; asr_closed : bool; partial_step_ms : Z; received_chunks : list (list Z) }.

#[export] Instance ScriptedASR_eta : Eta ScriptedASR := fun a =>
  mkScripted (asr_queue a) (asr_closed a) (partial_step_ms a) (received_chunks a).

Definition new_asr (step_ms : Z) : ScriptedASR := mkScripted [] false step_ms [].

Definition partials (step_ms start_ms : Z) (text : pystr) : list ASRResult :=
  map (fun i => mkASR (take i text) false (start_ms + Z.of_nat i * step_ms)) (seq 1 (length text)).

Definition turn (step_ms : Z) (text : pystr) (start_ms : Z) (final_at_ms : option Z) : list ASRResult :=
  let dflt := start_ms + (zlen text + 1) * step_ms in
  partials step_ms start_ms text
  ++ [mkASR text true (match final_at_ms with Some t => if t =? 0 then dflt else t | None => dflt end)].

Definition feed_turn (text : pystr) (start_ms : Z) (final_at_ms : option Z) (a : ScriptedASR) : ScriptedASR :=
  a <| asr_queue ::= fun q => q ++ turn (partial_step_ms a) text start_ms final_at_ms |>.

Definition close (a : ScriptedASR) : ScriptedASR :=
  a <| asr_closed := true |> <| asr_queue ::= fun q => q ++ [mkASR [] true 0] |>.

(** One pass of the loop of [stream_recognize]; [OWait] is the 50 ms timeout. *)
Inductive Out : Type := OYield (r : ASRResult) | OEnd | OWait.

Definition recognise (a : ScriptedASR) : Out * ScriptedASR :=
  match asr_queue a with
  | [] => (if asr_closed a then OEnd else OWait, a)
  | r :: q =>
      let a := a <| asr_queue := q |> in
      if asr_closed a && bool_decide (asr_text r = []) && asr_final r then (OEnd, a) else (OYield r, a)
  end.

(** [_drain]. *)
Definition drain_chunk (chunk : list Z) (a : ScriptedASR) : ScriptedASR :=
  a <| received_chunks ::= fun l => l ++ [chunk] |>.

(** Everything the stream yields until it waits or ends. *)
Fixpoint recognise_all (fuel : nat) (a : ScriptedASR) : list ASRResult * ScriptedASR :=
  match fuel with
  | O => ([], a)
  | S n =>
      match recognise a with
      | (OYield r, a') => let '(rs, a2) := recognise_all n a' in (r :: rs, a2)
      | (_, a') => ([], a')
      end
  end.

(** While the recogniser is open, a stream yields what was fed, all of it and in order. *)
Lemma recognise_open a :
  asr_closed a = false ->
  recognise_all (S (length (asr_queue a))) a = (asr_queue a, a <| asr_queue := [] |>).
Proof.
  destruct a as [q cl st rc]. simpl asr_closed. intros ->. induction q as [|r q IH]; [done|].
  cbn [asr_queue length recognise_all].
  replace (recognise _) with (OYield r, mkScripted q false st rc) by reflexivity.
  cbn [asr_queue length recognise_all] in IH. by rewrite IH.
Qed.

(** A scripted turn reaches the call like a spoken one: its results, taken by the listening
    pump, post the growing partials and make the turn's text, once, a recognised
    utterance. *)
Lemma turn_recognised step_ms text start_ms final_at l :
  text <> [] ->
  recognised (foldl (fun l r => asr_result r l) l (turn step_ms text start_ms final_at))
  = recognised l ++ [text].
Proof.
  intros Hne. unfold turn. rewrite foldl_app. simpl.
  assert (Hp : forall rs l, Forall (fun r => asr_final r = false) rs ->
    recognised (foldl (fun l r => asr_result r l) l rs) = recognised l).
  { intros rs. induction rs as [|r rs IH]; intros l0 Hr; [done|].
    inversion Hr as [|? ? Hf Hrs]; subst. simpl. rewrite IH by done. unfold asr_result.
    rewrite Hf. by destruct (asr_text r). }
  unfold asr_result at 1. destruct text as [|c t]; [done|]. simpl asr_text. simpl asr_final. simpl.
  rewrite Hp; [done|]. apply List.Forall_forall. intros r (i & <- & _)%in_map_iff. done.
Qed.
End MockAsr.

(** ** The synthesiser *)
Module MockTts.

Record LengthTTS := mkLengthTTS { bytes_per_char : Z; chunk_size : Z; tts_calls : list (pystr * pystr) }.

Definition total_bytes (tts : LengthTTS) (text : pystr) : Z := Z.max 1 (zlen text) * bytes_per_char tts.

(** [while emitted < total]; [None] when the fuel runs out. *)
Fixpoint chunks (fuel : nat) (size total emitted : Z) : option (list Z) :=
  if emitted <? total then
    match fuel with
    | O => None
    | S n =>
        let k := Z.min size (total - emitted) in
        option_map (cons k) (chunks n size total (emitted + k))
    end
  else Some [].

(** The lengths of the chunks of silence, and the provider with the call recorded. *)
Definition synthesize_stream (fuel : nat) (text voice : pystr) (tts : LengthTTS)
  : option (list Z) * LengthTTS :=
  (chunks fuel (chunk_size tts) (total_bytes tts text) 0,
   mkLengthTTS (bytes_per_char tts) (chunk_size tts) (tts_calls tts ++ [(text, voice)])).

(** With a positive chunk size the synthesis ends, and its chunks are nonempty, no larger
    than the chunk size, and together as long as the text. *)
Lemma chunks_total size total : 0 < size -> forall fuel emitted,
  0 <= emitted -> (Z.to_nat (total - emitted) <= fuel)%nat ->
  exists ks, chunks fuel size total emitted = Some ks
    /\ Forall (fun k => 0 < k <= size) ks
    /\ foldr Z.add 0 ks = Z.max 0 (total - emitted).
Proof.
  intros Hs. induction fuel as [|n IH]; intros emitted He Hf; simpl;
    destruct (emitted <? total) eqn:Hlt; zbool.
  - exfalso. lia.
  - exists []. split_and!; [done|constructor|simpl; lia].
  - destruct (IH (emitted + Z.min size (total - emitted))) as (ks & -> & Hk & Hsum); [lia|lia|].
    exists (Z.min size (total - emitted) :: ks). split_and!; [done|constructor; [lia|done]|].
    simpl. rewrite Hsum. lia.
  - exists []. split_and!; [done|constructor|simpl; lia].
Qed.
End MockTts.
