(* ===== verification/SocketTelephony.v ===== *)
(** * Telephony clients and their contract

    [realtime/telephony_client.py], [mock_telephony.py] and [real_telephony.py].  The
    abstract class [TelephonyClient] is a type class here: what it promises the engine is
    that a call's event stream ends only after an event that ends the call.  The in-process
    mock (Module [MockLine]), the client of the modem controller's Unix socket (Module
    [SocketLine]) and the RTC client of [RtcTelephony] are its instances, and the
    engine's event pump is proved against the class alone. *)
From S2P Require Import Prelude Bytes RtcTelephony Session EventBus Providers Listen.
Import RtcTelephony.Client(TelEvent, EvConnected, EvRemoteHangup, EvDeviceError, EvLocalHangup,
  terminal, events_iter).

(** An [asyncio.Queue] of events, as everything put on it so far; [None] is the sentinel. *)
Abbreviation evqueue := (list (option TelEvent)).

(** The event stream of a queue ends only after an event that ends the call. *)
Definition line_ok (q : evqueue) : Prop :=
  let '(es, fin) := events_iter q in
  fin = true -> exists e, last es = Some e /\ terminal e = true.

Class TelephonyClient (C : Type) := {
  tc_init : C -> Prop;
  tc_step : C -> C -> Prop;
  tc_events : Z -> C -> evqueue;
  tc_line : forall c0 c call, tc_init c0 -> rtc tc_step c0 c -> line_ok (tc_events call c) }.

(** ** Queues *)

Lemma events_iter_app q q' :
  events_iter (q ++ q') = let '(es, fin) := events_iter q in
    if fin then (es, true) else let '(es', fin') := events_iter q' in (es ++ es', fin').
Proof.
  induction q as [|[e|] q IH]; simpl; [by destruct (events_iter q')| |done].
  rewrite IH. destruct (events_iter q) as [es []]; [done|]. by destruct (events_iter q').
Qed.

Lemma line_ok_event q e : line_ok q -> line_ok (q ++ [Some e]).
Proof.
  unfold line_ok. rewrite events_iter_app. destruct (events_iter q) as [es []]; [done|]. done.
Qed.

Lemma line_ok_end q e : line_ok q -> terminal e = true -> line_ok (q ++ [Some e; None]).
Proof.
  unfold line_ok. rewrite events_iter_app. destruct (events_iter q) as [es []]; [done|].
  intros _ He _. exists e. simpl. by rewrite last_snoc.
Qed.

(** How an operation changes the queue of a call: not at all, by an event, or by a
    terminal event and the sentinel. *)
Inductive grows (q : evqueue) : evqueue -> Prop :=
| g_same : grows q q
| g_event e : grows q (q ++ [Some e])
| g_end e : terminal e = true -> grows q (q ++ [Some e; None]).

Lemma grows_ok q q' : grows q q' -> line_ok q -> line_ok q'.
Proof. destruct 1; auto using line_ok_event, line_ok_end. Qed.

(** ** The in-process mock *)
Module MockLine.

Record MockClient := mkMock {
  connect_delay : bool;                   (* [connect_delay_ms > 0] *)
  dialed_phones : gmap Z pystr;
  mk_events : gmap Z evqueue;
  mk_inbound : gmap Z (list (option bytes));
  outbound_log : gmap Z (list bytes);
  connect_tasks : gset Z }.

#[export] Instance MockClient_eta : Eta MockClient := fun c =>
  mkMock (connect_delay c) (dialed_phones c) (mk_events c) (mk_inbound c) (outbound_log c) (connect_tasks c).

Definition new_mock (delay : bool) : MockClient := mkMock delay ∅ ∅ ∅ ∅ ∅.

Definition ensure_call (call : Z) (c : MockClient) : MockClient :=
  match mk_events c !! call with
  | Some _ => c
  | None => c <| mk_events ::= <[call := []]> |> <| mk_inbound ::= <[call := []]> |>
              <| outbound_log ::= fun l => match l !! call with Some _ => l | None => <[call := []]> l end |>
  end.

Definition put_event (call : Z) (e : TelEvent) (c : MockClient) : MockClient :=
  c <| mk_events ::= alter (fun q => q ++ [Some e]) call |>.

Definition close_call (call : Z) (c : MockClient) : MockClient :=
  c <| mk_inbound ::= alter (fun q => q ++ [None]) call |>
    <| mk_events ::= alter (fun q => q ++ [None]) call |>.

Definition dial (call : Z) (phone : pystr) (c : MockClient) : MockClient :=
  let c := ensure_call call c <| dialed_phones ::= <[call := phone]> |> in
  if connect_delay c then c <| connect_tasks ::= fun s => {[call]} ∪ s |>
  else put_event call EvConnected c.

(** The end of [_connect_after_delay]. *)
Definition connect_task (call : Z) (c : MockClient) : MockClient := put_event call EvConnected c.

Definition hangup (call : Z) (c : MockClient) : MockClient :=
  close_call call (put_event call EvLocalHangup (ensure_call call c)).

Definition simulate_remote_hangup (call : Z) (detail : pystr) (c : MockClient) : MockClient :=
  close_call call (put_event call (EvRemoteHangup detail) (ensure_call call c)).

Definition inject_user_audio (call : Z) (frames : list bytes) (c : MockClient) : MockClient :=
  ensure_call call c <| mk_inbound ::= alter (fun q => q ++ map Some frames) call |>.

Definition audio_out (call : Z) (chunks : list bytes) (c : MockClient) : MockClient :=
  ensure_call call c <| outbound_log ::= alter (fun l => l ++ chunks) call |>.

Inductive step : MockClient -> MockClient -> Prop :=
| mk_dial call phone c : step c (dial call phone c)
| mk_connected call c : call ∈ connect_tasks c -> step c (connect_task call c)
| mk_hangup call c : step c (hangup call c)
| mk_remote call detail c : step c (simulate_remote_hangup call detail c)
| mk_inject call frames c : step c (inject_user_audio call frames c)
| mk_listen call c : step c (ensure_call call c)            (* [audio_in], [events] *)
| mk_speak call chunks c : step c (audio_out call chunks c).

Definition queue (call : Z) (c : MockClient) : evqueue := default [] (mk_events c !! call).

Lemma queue_ensure call x c : queue x (ensure_call call c) = queue x c.
Proof.
  unfold queue, ensure_call. destruct (mk_events c !! call) eqn:He; [done|]. simpl.
  destruct (decide (x = call)) as [->|]; [by rewrite lookup_insert_eq, He|by rewrite lookup_insert_ne].
Qed.

Lemma queue_put call x e c :
  queue x (put_event call e c) = queue x c \/ queue x (put_event call e c) = queue x c ++ [Some e].
Proof.
  unfold queue, put_event. simpl. destruct (decide (x = call)) as [->|].
  - rewrite lookup_alter_eq. destruct (mk_events c !! call); simpl; auto.
  - left. by rewrite lookup_alter_ne.
Qed.

Lemma queue_hang call x e c :
  terminal e = true -> grows (queue x c) (queue x (close_call call (put_event call e c))).
Proof.
  intros He. unfold queue, close_call, put_event. simpl. destruct (decide (x = call)) as [->|].
  - rewrite !lookup_alter_eq. destruct (mk_events c !! call) as [q|]; simpl; [|constructor].
    rewrite <-app_assoc. by constructor.
  - rewrite !lookup_alter_ne by done. constructor.
Qed.

Lemma mock_step_grows c c' x : step c c' -> grows (queue x c) (queue x c').
Proof.
  assert (Hput : forall call e c, grows (queue x c) (queue x (put_event call e c))).
  { intros call e c0. destruct (queue_put call x e c0) as [-> | ->]; constructor. }
  destruct 1 as [call phone c|call c _|call c|call detail c|call frames c|call c|call chunks c].
  - unfold dial. rewrite <-(queue_ensure call x c). simpl. destruct (connect_delay _); [constructor|].
    apply (Hput call EvConnected (mkMock _ _ _ _ _ _)).
  - apply Hput.
  - rewrite <-(queue_ensure call x c). by apply queue_hang.
  - rewrite <-(queue_ensure call x c). by apply queue_hang.
  - rewrite <-(queue_ensure call x c). constructor.
  - rewrite queue_ensure. constructor.
  - rewrite <-(queue_ensure call x c). constructor.
Qed.
End MockLine.

#[export] Program Instance mock_telephony : TelephonyClient MockLine.MockClient := {
  tc_init := fun c => MockLine.mk_events c = ∅;
  tc_step := MockLine.step;
  tc_events := MockLine.queue }.
Next Obligation.
  intros c0 c call H0 Hr. eapply (rtc_invariant _ (fun c => line_ok (MockLine.queue call c))); [|exact Hr|].
  - intros x y Hx Hs. by eapply grows_ok; [apply MockLine.mock_step_grows|].
  - unfold MockLine.queue. rewrite H0, lookup_empty. done.
Qed.

(** ** The modem controller's socket *)
Module SocketLine.
Section SocketLine.
  (** [str(call_id)], [int(sid)], [str(v)] of other JSON values and base64. *)
  Context (str_of_int : Z -> pystr) (int_of_str : pystr -> option Z) (other_str : pyval -> pystr)
    (b64encode : bytes -> pystr) (b64decode : pystr -> option bytes).

Record SocketClient := mkSocket {
  writer : bool;                          (* [_writer is not None] *)
  reader_task : bool;                     (* [_read_loop] is running *)
  sk_events : gmap pystr evqueue;
  sk_inbound : gmap pystr (list (option bytes));
  device_ids : gmap pystr Z;
  wire : list (list (string * pyval)) }.  (* the commands written, in order *)

#[export] Instance SocketClient_eta : Eta SocketClient := fun c =>
  mkSocket (writer c) (reader_task c) (sk_events c) (sk_inbound c) (device_ids c) (wire c).

Definition new_socket : SocketClient := mkSocket false false ∅ ∅ ∅ [].

Inductive SocketError : Type := ConnectFailed | WriteFailed | NotConnected.

(** [connect]; [up] is whether the socket can be opened. *)
Definition connect (up : bool) (c : SocketClient) : result SocketError unit * SocketClient :=
  if writer c then (Ok tt, c)
  else if up then (Ok tt, c <| writer := true |> <| reader_task := true |>)
  else (Err ConnectFailed, c).

Definition setdefault {A} (sid : pystr) (m : gmap pystr (list A)) : gmap pystr (list A) :=
  match m !! sid with Some _ => m | None => <[sid := []]> m end.

Definition ensure_session (sid : pystr) (c : SocketClient) : SocketClient :=
  c <| sk_events ::= setdefault sid |> <| sk_inbound ::= setdefault sid |>.

Definition close_session (sid : pystr) (c : SocketClient) : SocketClient :=
  c <| sk_inbound ::= alter (fun q => q ++ [None]) sid |>
    <| sk_events ::= alter (fun q => q ++ [None]) sid |>.

Definition put_event (sid : pystr) (e : TelEvent) (c : SocketClient) : SocketClient :=
  c <| sk_events ::= alter (fun q => q ++ [Some e]) sid |>.

(** [_write]; [sent] is whether [drain] succeeds. *)
Definition write (sent : bool) (msg : list (string * pyval)) (c : SocketClient)
  : result SocketError unit * SocketClient :=
  if writer c then (if sent then (Ok tt, c <| wire ::= fun w => w ++ [msg] |>) else (Err WriteFailed, c))
  else (Err NotConnected, c).

Definition dial (up sent : bool) (call : Z) (phone : pystr) (c : SocketClient)
  : result SocketError unit * SocketClient :=
  match connect up c with
  | (Err e, c) => (Err e, c)
  | (Ok _, c) =>
      let sid := str_of_int call in
      let c := ensure_session sid c in
      write sent [("cmd"%string, VStr (u8 "dial")); ("session_id"%string, VStr sid);
                  ("device_id"%string, VInt (default 0 (device_ids c !! sid)));
                  ("number"%string, VStr phone)] c
  end.

Definition hangup (up sent : bool) (call : Z) (c : SocketClient) : result SocketError unit * SocketClient :=
  match connect up c with
  | (Err e, c) => (Err e, c)
  | (Ok _, c) =>
      let sid := str_of_int call in
      match write sent [("cmd"%string, VStr (u8 "hangup")); ("session_id"%string, VStr sid)] c with
      | (Err e, c) => (Err e, c)
      | (Ok _, c) =>
          (Ok tt, close_session sid (put_event sid EvLocalHangup (c <| sk_events ::= setdefault sid |>)))
      end
  end.

(** [audio_out] up to the chunk whose write fails, if one does. *)
Fixpoint audio_out (call : Z) (chunks : list (bytes * bool)) (c : SocketClient)
  : result SocketError unit * SocketClient :=
  match chunks with
  | [] => (Ok tt, c)
  | (chunk, sent) :: chunks' =>
      match write sent [("cmd"%string, VStr (u8 "audio_downstream"));
                        ("session_id"%string, VStr (str_of_int call));
                        ("pcm_chunk"%string, VStr (b64encode chunk))] c with
      | (Err e, c) => (Err e, c)
      | (Ok _, c) => audio_out call chunks' c
      end
  end.

Definition set_device_for_session (call device : Z) (c : SocketClient) : SocketClient :=
  c <| device_ids ::= <[str_of_int call := device]> |>.

(** [str(a or b)] and the like. *)
Definition detail_of (vs : list pyval) (d : pystr) : pystr :=
  match List.find truthy vs with Some v => py_str other_str v | None => d end.

Definition dispatch (msg : list (string * pyval)) (c : SocketClient) : SocketClient :=
  match dgetv "event" msg, dgetv "session_id" msg with
  | VStr event, VStr sid =>
      let c := ensure_session sid c in
      match int_of_str sid with
      | None => c
      | Some _ =>
          if decide (event = u8 "dial_ack") then c
          else if decide (event = u8 "connected") then put_event sid EvConnected c
          else if decide (event = u8 "remote_hangup") then
            close_session sid (put_event sid
              (EvRemoteHangup (detail_of [dgetv "cause" msg] (u8 "remote_clearing"))) c)
          else if decide (event = u8 "device_error") then
            close_session sid (put_event sid
              (EvDeviceError (detail_of [dgetv "code" msg; dgetv "message" msg] [])) c)
          else if decide (event = u8 "audio_upstream") then
            match dgetv "pcm_chunk" msg with
            | VStr b => match b64decode b with
                        | Some chunk => c <| sk_inbound ::= alter (fun q => q ++ [Some chunk]) sid |>
                        | None => c
                        end
            | _ => c
            end
          else c
      end
  | _, _ => c
  end.

Definition broadcast_disconnect (c : SocketClient) : SocketClient :=
  c <| sk_events ::= map_imap (fun sid q =>
         Some (match int_of_str sid with
               | Some _ => q ++ [Some (EvDeviceError (u8 "ipc_disconnected")); None]
               | None => q
               end)) |>
    <| sk_inbound ::= fmap (fun q => q ++ [None]) |>.

(** One line of the socket: end of file or a read error, a line that is no JSON object,
    or a message. *)
Inductive line : Type := LEnd | LBad | LMsg (msg : list (string * pyval)).

Definition read_line (l : line) (c : SocketClient) : SocketClient :=
  match l with
  | LEnd => broadcast_disconnect c <| reader_task := false |>
  | LBad => c
  | LMsg msg => dispatch msg c
  end.

Definition aclose (c : SocketClient) : SocketClient := c <| reader_task := false |>.

Inductive step : SocketClient -> SocketClient -> Prop :=
| sk_dial up sent call phone c : step c (dial up sent call phone c).2
| sk_hangup up sent call c : step c (hangup up sent call c).2
| sk_speak call chunks c : step c (audio_out call chunks c).2
| sk_listen call c : step c (ensure_session (str_of_int call) c)     (* [audio_in], [events] *)
| sk_device call device c : step c (set_device_for_session call device c)
| sk_read l c : reader_task c = true -> step c (read_line l c)
| sk_close c : step c (aclose c).

Definition queue (call : Z) (c : SocketClient) : evqueue := default [] (sk_events c !! str_of_int call).

(** *** The queues *)

Definition at_sid (sid : pystr) (m : gmap pystr evqueue) : evqueue := default [] (m !! sid).

Lemma setdefault_at sid x m : at_sid x (setdefault sid m) = at_sid x m.
Proof.
  unfold at_sid, setdefault. destruct (m !! sid) eqn:Hm; [done|].
  destruct (decide (x = sid)) as [->|]; [by rewrite lookup_insert_eq, Hm|by rewrite lookup_insert_ne].
Qed.

Lemma put_grows sid x e m : grows (at_sid x m) (at_sid x (alter (fun q => q ++ [Some e]) sid m)).
Proof.
  unfold at_sid. destruct (decide (x = sid)) as [->|]; [|rewrite lookup_alter_ne by done; constructor].
  rewrite lookup_alter_eq. destruct (m !! sid); simpl; constructor.
Qed.

Lemma hang_grows sid x e m :
  terminal e = true ->
  grows (at_sid x m) (at_sid x (alter (fun q => q ++ [None]) sid (alter (fun q => q ++ [Some e]) sid m))).
Proof.
  intros He. unfold at_sid.
  destruct (decide (x = sid)) as [->|]; [|rewrite !lookup_alter_ne by done; constructor].
  rewrite !lookup_alter_eq. destruct (m !! sid) as [q|]; simpl; [|constructor].
  rewrite <-app_assoc. by constructor.
Qed.

Lemma dispatch_grows msg x c : grows (at_sid x (sk_events c)) (at_sid x (sk_events (dispatch msg c))).
Proof.
  unfold dispatch. destruct (dgetv "event" msg) as [| | | |ev| |]; try constructor.
  destruct (dgetv "session_id" msg) as [| | | |sid| |]; try constructor.
  rewrite <-(setdefault_at sid x (sk_events c)).
  destruct (int_of_str sid); [|constructor].
  destruct (decide (ev = u8 "dial_ack")); [constructor|].
  destruct (decide (ev = u8 "connected")); [apply put_grows|].
  destruct (decide (ev = u8 "remote_hangup")); [by apply hang_grows|].
  destruct (decide (ev = u8 "device_error")); [by apply hang_grows|].
  destruct (decide (ev = u8 "audio_upstream")); [|constructor].
  destruct (dgetv "pcm_chunk" msg); try constructor. destruct (b64decode s); constructor.
Qed.

Lemma broadcast_grows x c :
  grows (at_sid x (sk_events c)) (at_sid x (sk_events (broadcast_disconnect c))).
Proof.
  unfold at_sid, broadcast_disconnect. simpl. rewrite map_lookup_imap.
  destruct (sk_events c !! x) as [q|]; simpl; [|constructor].
  destruct (int_of_str x); constructor. done.
Qed.

Lemma write_events sent msg c : sk_events (write sent msg c).2 = sk_events c.
Proof. unfold write. by destruct (writer c), sent. Qed.

Lemma connect_events up c : sk_events (connect up c).2 = sk_events c.
Proof. unfold connect. by destruct (writer c), up. Qed.

Lemma audio_out_events call chunks c : sk_events (audio_out call chunks c).2 = sk_events c.
Proof.
  revert c. induction chunks as [|[chunk sent] chunks IH]; intros c; simpl; [done|].
  pose proof (write_events sent [("cmd"%string, VStr (u8 "audio_downstream"));
    ("session_id"%string, VStr (str_of_int call)); ("pcm_chunk"%string, VStr (b64encode chunk))] c) as Hw.
  destruct (write _ _ _) as [[] c1]; simpl in *; [|done]. by rewrite IH.
Qed.

Lemma hangup_grows up sent call x c :
  grows (at_sid x (sk_events c)) (at_sid x (sk_events (hangup up sent call c).2)).
Proof.
  unfold hangup. pose proof (connect_events up c) as Hc. destruct (connect up c) as [[] c1];
    simpl in *; rewrite <-Hc; [|constructor].
  match goal with |- context [write sent ?m c1] => pose proof (write_events sent m c1) as Hw;
    destruct (write sent m c1) as [[] c2] end; simpl in *; rewrite <-Hw; [|constructor].
  rewrite <-(setdefault_at (str_of_int call) x). by apply hang_grows.
Qed.

Lemma socket_step_grows c c' x : step c c' -> grows (at_sid x (sk_events c)) (at_sid x (sk_events c')).
Proof.
  destruct 1 as [up sent call phone c|up sent call c|call chunks c|call c|call device c|l c _|c].
  - unfold dial. pose proof (connect_events up c) as Hc. destruct (connect up c) as [[] c1];
      simpl in *; rewrite <-Hc; [|constructor].
    rewrite write_events. simpl. rewrite setdefault_at. constructor.
  - apply hangup_grows.
  - rewrite audio_out_events. constructor.
  - simpl. rewrite setdefault_at. constructor.
  - constructor.
  - destruct l; simpl; [apply broadcast_grows|constructor|apply dispatch_grows].
  - constructor.
Qed.

(** *** Once the link is lost *)

(** The reader is started only by the first [connect], so once it has stopped nothing of
    the modem controller is read any more, and the only events still put are the
    client's own hangups. *)
Definition lost (c : SocketClient) : Prop := writer c = true /\ reader_task c = false.

Lemma write_lost sent msg c : lost c -> lost (write sent msg c).2.
Proof. intros [Hw Hr]. unfold write. rewrite Hw. by destruct sent. Qed.

Lemma lost_connect up c : lost c -> connect up c = (Ok tt, c).
Proof. intros [Hw _]. unfold connect. by rewrite Hw. Qed.

Lemma audio_out_lost call chunks c : lost c -> lost (audio_out call chunks c).2.
Proof.
  revert c. induction chunks as [|[chunk sent] chunks IH]; intros c Hl; simpl; [done|].
  match goal with |- context [write sent ?m c] => pose proof (write_lost sent m c Hl) as Hw;
    destruct (write sent m c) as [[] c1] end; simpl in *; auto.
Qed.

Lemma hang_elem sid x e e' m :
  Some e' ∈ at_sid x (alter (fun q => q ++ [None]) sid (alter (fun q => q ++ [Some e]) sid m)) ->
  Some e' ∈ at_sid x m \/ e' = e.
Proof.
  unfold at_sid. destruct (decide (x = sid)) as [->|]; [|rewrite !lookup_alter_ne by done; auto].
  rewrite !lookup_alter_eq. destruct (m !! sid); simpl; set_solver.
Qed.

Lemma lost_step c c' :
  lost c -> step c c' -> lost c' /\ forall x e, Some e ∈ at_sid x (sk_events c') ->
    Some e ∈ at_sid x (sk_events c) \/ e = EvLocalHangup.
Proof.
  intros Hl. destruct 1 as [up sent call phone c|up sent call c|call chunks c|call c|call device c|l c Hr|c].
  - unfold dial. rewrite lost_connect by done. simpl. split; [by apply write_lost|].
    intros x e. rewrite write_events. simpl. rewrite setdefault_at. auto.
  - unfold hangup. rewrite lost_connect by done. simpl.
    match goal with |- context [write sent ?m c] => pose proof (write_lost sent m c Hl) as Hw;
      pose proof (write_events sent m c) as He; destruct (write sent m c) as [[] c1] end; simpl in *.
    + split; [done|]. intros x e Hin. apply hang_elem in Hin. by rewrite setdefault_at, He in Hin.
    + split; [done|]. intros x ev. rewrite He. auto.
  - split; [by apply audio_out_lost|]. intros x e. rewrite audio_out_events. auto.
  - split; [done|]. intros x e. simpl. rewrite setdefault_at. auto.
  - split; [done|]. auto.
  - destruct Hl. congruence.
  - split; [by destruct Hl|]. auto.
Qed.

Lemma lost_link_never_recovers c c' :
  lost c -> rtc step c c' ->
  lost c' /\ forall call e, Some e ∈ queue call c' -> Some e ∈ queue call c \/ e = EvLocalHangup.
Proof.
  intros Hl Hr. revert Hl. induction Hr as [c|c c1 c2 Hs _ IH]; intros Hl; [auto|].
  destruct (lost_step _ _ Hl Hs) as [Hl1 H1]. destruct (IH Hl1) as [Hl2 H2]. split; [done|].
  intros call e He. destruct (H2 call e He) as [He1|]; [|auto]. by apply (H1 (str_of_int call)).
Qed.
End SocketLine.

(** A dial after the modem controller went away and came back: the command is written, and
    no [connected] or hangup event can follow. *)
Definition demo_lost : SocketClient :=
  read_line (fun s => match s with [c] => Some (c - 48) | _ => None end) (fun _ => []) (fun _ => None) LEnd
    (dial (fun n => [48 + n]) true true 1 [] new_socket).2.

Lemma demo_lost_is_lost : lost demo_lost.
Proof. split; vm_compute; reflexivity. Qed.
End SocketLine.

Section SocketInstance.
  Context (str_of_int : Z -> pystr) (int_of_str : pystr -> option Z) (other_str : pyval -> pystr)
    (b64encode : bytes -> pystr) (b64decode : pystr -> option bytes).

#[export] Program Instance socket_telephony : TelephonyClient SocketLine.SocketClient := {
  tc_init := fun c => SocketLine.sk_events c = ∅;
  tc_step := SocketLine.step str_of_int int_of_str other_str b64encode b64decode;
  tc_events := SocketLine.queue str_of_int }.
Next Obligation.
  intros c0 c call H0 Hr. eapply (rtc_invariant _ (fun c =>
    line_ok (SocketLine.at_sid (str_of_int call) (SocketLine.sk_events c)))); [|exact Hr|].
  - intros x y Hx Hs. by eapply grows_ok; [eapply SocketLine.socket_step_grows|].
  - unfold SocketLine.at_sid. rewrite H0, lookup_empty. done.
Qed.
End SocketInstance.

(** ** The RTC client *)
Section RtcInstance.
  Context {S : Type} `{CloudEdgeServer S} (sign_for_call : string -> Client.Creds * Client.Creds).

#[export] Program Instance rtc_telephony : TelephonyClient (Client.Client (S := S)) := {
  tc_init := fun k => exists legacy s, k = Client.client_init legacy s;
  tc_step := Client.step sign_for_call;
  tc_events := fun call k => match Client.calls k !! call with Some st => Client.cs_events st | None => [] end }.
Next Obligation.
  intros k0 k call (legacy & s & ->) Hr.
  assert (Hi : Client.client_inv k).
  { eapply rtc_invariant; [apply Client.client_step_inv|exact Hr|].
    constructor; simpl; intros *; rewrite lookup_empty; done. }
  destruct (Client.calls k !! call) as [st|] eqn:Hc; [|done]. unfold line_ok.
  pose proof (Client.events_iter_ok st (Client.ci_events _ Hi _ _ Hc)) as He.
  destruct (events_iter (Client.cs_events st)) as [es fin]. apply He.
Qed.
End RtcInstance.

(** ** The event pump *)

Definition event_type (e : TelEvent) : string :=
  match e with
  | EvConnected => "connected" | EvRemoteHangup _ => "remote_hangup"
  | EvDeviceError _ => "device_error" | EvLocalHangup => "local_hangup"
  end.

(** [_ev_pump] over the events of a line: it returns at the first hangup. *)
Fixpoint run_ev_pump (es : list TelEvent) (l : Listener) : Listener :=
  match es with
  | [] => l
  | e :: es' => if pump_ev l then run_ev_pump es' (ev_event (event_type e) l) else l
  end.

Lemma ev_event_terminal e :
  bool_decide (event_type e ∈ HANGUP_EVENTS) = terminal e.
Proof. destruct e; reflexivity. Qed.

Lemma run_ev_pump_steps es l :
  phase l = Listening -> rtc lstep l (run_ev_pump es l) /\ phase (run_ev_pump es l) = Listening.
Proof.
  revert l. induction es as [|e es IH]; intros l Hp; simpl; [done|].
  destruct (pump_ev l) eqn:Hev; [|done].
  assert (Hp' : phase (ev_event (event_type e) l) = Listening)
    by (unfold ev_event; by case_bool_decide).
  destruct (IH _ Hp') as [Hr Hq]. split; [|done]. eapply rtc_l; [by apply (ls_ev (event_type e))|done].
Qed.

(** The pump posts the hangup of a line that has one. *)
Lemma run_ev_pump_posts es l :
  listen_inv l -> phase l = Listening -> pump_ev l = true -> existsb terminal es = true ->
  pump_ev (run_ev_pump es l) = false
  /\ existsb is_hangup (posted_ll (l_sys (run_ev_pump es l))) = true.
Proof.
  revert l. induction es as [|e es IH]; intros l Hi Hp Hev Ht; simpl; [done|].
  rewrite Hev. simpl in Ht. unfold ev_event in *. rewrite ev_event_terminal.
  destruct (terminal e) eqn:He; [|by apply IH].
  destruct Hi as [Hac Ho]. destruct Hac as [Hac _]; [congruence|]. specialize (Ho Hac).
  assert (Hpost : existsb is_hangup (posted_ll (acts_step [ActPost (HangupDetected (event_type e))] (l_sys l))) = true).
  { rewrite post_lossless; [|by apply oi_closed|by rewrite lane_up].
    simpl. rewrite existsb_app. simpl. by rewrite orb_true_r. }
  by destruct es.
Qed.

(** C28: Whichever telephony client the engine runs on (the mock, the modem controller's
    socket or RTC), however its operations interleave: when the event stream of a call's
    line has ended, the event pump has posted the hangup and stopped, and the bus
    brings it to the call: the flag the call loop waits on is set within the dispatcher's
    own turns.  A loop that waits for the customer is woken when the line ends. *)
Theorem line_end_reaches_call `{TelephonyClient C} c0 c call es n l :
  tc_init c0 -> rtc tc_step c0 c -> events_iter (tc_events call c) = (es, true) ->
  rtc lstep (new_listener n) l -> phase l = Listening -> pump_ev l = true ->
  rtc lstep l (run_ev_pump es l) /\ pump_ev (run_ev_pump es l) = false
  /\ exists s', rtc (work bridge) (l_sys (run_ev_pump es l)) s' /\ hangup_set (s_world s') = true.
Proof.
  intros Hi Hr He Hl Hp Hev. pose proof (tc_line c0 c call Hi Hr) as Hline. unfold line_ok in Hline.
  rewrite He in Hline. destruct (Hline eq_refl) as (e & Hlast & Hterm).
  assert (Hex : existsb terminal es = true).
  { apply existsb_exists. exists e. split; [|done]. apply list_elem_of_In. by apply last_Some_elem_of. }
  destruct (run_ev_pump_steps es l Hp) as [Hsteps Hph]. split; [done|].
  destruct (run_ev_pump_posts es l (listen_reachable n l Hl) Hp Hev Hex) as [Hoff Hposted]. split; [done|].
  assert (Hl' : rtc lstep (new_listener n) (run_ev_pump es l)) by (by etrans).
  destruct (listen_reachable n _ Hl') as [Hac Ho]. destruct Hac as [Hac _]; [congruence|].
  destruct (signals_delivered _ (Ho Hac) Hac) as (s' & Hw & _ & Hh); [congruence|].
  exists s'. by rewrite Hh.
Qed.

(** *** Witness *)

Definition demo_line : MockLine.MockClient :=
  MockLine.simulate_remote_hangup 1 (u8 "bye") (MockLine.dial 1 (u8 "+86") (MockLine.new_mock false)).

Definition demo_listening : Listener := start_listen_pumps false (begin_session (new_listener 4)).

Lemma line_end_reaches_call_witness :
  let es := [EvConnected; EvRemoteHangup (u8 "bye")] in
  rtc lstep demo_listening (run_ev_pump es demo_listening)
  /\ pump_ev (run_ev_pump es demo_listening) = false
  /\ exists s', rtc (work bridge) (l_sys (run_ev_pump es demo_listening)) s' /\ hangup_set (s_world s') = true.
Proof.
  apply (line_end_reaches_call (MockLine.new_mock false) demo_line 1
           [EvConnected; EvRemoteHangup (u8 "bye")] 4 demo_listening).
  - reflexivity.
  - eapply rtc_l; [apply (MockLine.mk_dial 1 (u8 "+86"))|]. apply rtc_once. apply MockLine.mk_remote.
  - vm_compute. reflexivity.
  - eapply rtc_l; [apply ls_begin; reflexivity|]. apply rtc_once. apply (ls_listen false). reflexivity.
  - reflexivity.
  - reflexivity.
Defined.
