(* ===== verification/Binding.v ===== *)
(** * The vendor binding

    [deploy/cloud/pybind/dingrtc_pywrap/src], the C++ extension between the engine and the
    vendor's RTC library: the ring buffer of received frames (Module [Ring],
    [ring_buffer.cpp]), the audio observer that fills it (Module [Observer],
    [audio_observer.cpp]), the owner of a vendor engine (Module [Engine],
    [bindings.cpp]), the event listener (Module [Listener], [engine_listener.cpp]) and the
    locks a teardown and the vendor's callback threads contend for (Module [Locks]).
    [size_t] and [uint64_t] wrap at 64 bits; undefined behaviour is [None] or a flag of
    the vendor's state, and is proved not to happen. *)
From S2P Require Import Prelude Bytes.

Definition u64 (z : Z) : Z := z mod 2 ^ 64.

(** ** The ring buffer *)
Module Ring.
Section Ring.
  Context {A : Type} (blank : A) (moved : A -> A).      (* a moved-from frame is unspecified *)

Record FrameRingBuffer := mkRing {
  capacity : nat;
  ring : list A;
  head : nat;                             (* next write *)
  tail : nat;                             (* next read *)
  size : nat;
  dropped : Z }.

#[global] Instance Ring_eta : Eta FrameRingBuffer := fun r =>
  mkRing (capacity r) (ring r) (head r) (tail r) (size r) (dropped r).

Definition new_ring (capacity_frames : nat) : FrameRingBuffer :=
  mkRing capacity_frames (repeat blank capacity_frames) 0 0 0 0.

(** Overwriting the oldest frame. *)
Definition evict (r : FrameRingBuffer) : FrameRingBuffer :=
  r <| tail := ((tail r + 1) mod capacity r)%nat |> <| size ::= pred |> <| dropped ::= fun d => u64 (d + 1) |>.

(** [None] is a remainder by zero or a write outside the vector. *)
Definition push (frame : A) (r : FrameRingBuffer) : option (bool * FrameRingBuffer) :=
  if (capacity r =? 0)%nat then None
  else
    let dropped_oldest := (size r =? capacity r)%nat in
    let r := if dropped_oldest then evict r else r in
    if (head r <? length (ring r))%nat then
      Some (negb dropped_oldest,
            r <| ring ::= <[head r := frame]> |> <| head := ((head r + 1) mod capacity r)%nat |>
              <| size ::= S |>)
    else None.

Fixpoint drain_loop (n : nat) (r : FrameRingBuffer) : option (list A * FrameRingBuffer) :=
  match n with
  | O => Some ([], r)
  | S n' =>
      match ring r !! tail r with
      | None => None
      | Some x =>
          match drain_loop n' (r <| ring ::= <[tail r := moved x]> |>
                                 <| tail := ((tail r + 1) mod capacity r)%nat |>) with
          | None => None
          | Some (out, r') => Some (x :: out, r')
          end
      end
  end.

Definition drain (max_n : nat) (r : FrameRingBuffer) : option (list A * FrameRingBuffer) :=
  let n := Nat.min max_n (size r) in
  match drain_loop n r with
  | None => None
  | Some (out, r') => Some (out, r' <| size ::= fun s => (s - n)%nat |>)
  end.

Definition clear (r : FrameRingBuffer) : FrameRingBuffer :=
  r <| head := 0%nat |> <| tail := 0%nat |> <| size := 0%nat |>.

(** *** The frames it holds *)

Fixpoint view (c : nat) (l : list A) (t n : nat) : list A :=
  match n with
  | O => []
  | S n' => option_list (l !! t) ++ view c l ((t + 1) mod c)%nat n'
  end.

Definition contents (r : FrameRingBuffer) : list A := view (capacity r) (ring r) (tail r) (size r).

Record ring_wf (r : FrameRingBuffer) : Prop := {
  rw_capacity : (0 < capacity r)%nat;
  rw_length : length (ring r) = capacity r;
  rw_tail : (tail r < capacity r)%nat;
  rw_size : (size r <= capacity r)%nat;
  rw_head : head r = ((tail r + size r) mod capacity r)%nat }.

Lemma wrap_mod c t i :
  (t < c)%nat -> (i <= c)%nat -> ((t + i) mod c)%nat = (if t + i <? c then t + i else t + i - c)%nat.
Proof.
  intros Ht Hi. destruct (Nat.ltb_spec (t + i) c) as [Hl|Hl]; [by apply Nat.mod_small|].
  replace (t + i)%nat with ((t + i - c) + 1 * c)%nat at 1 by lia.
  rewrite Nat.Div0.mod_add. apply Nat.mod_small. lia.
Qed.

Lemma wrap_succ (c t i : nat) : (((t + 1) mod c + i) mod c = (t + S i) mod c)%nat.
Proof. rewrite Nat.Div0.add_mod_idemp_l. f_equal. lia. Qed.

Lemma wrap_lt c t : (0 < c)%nat -> (t mod c < c)%nat.
Proof. intros. apply Nat.mod_upper_bound. lia. Qed.

Lemma view_snoc c l t n :
  (t < c)%nat -> view c l t (S n) = view c l t n ++ option_list (l !! ((t + n) mod c)%nat).
Proof.
  revert t. induction n as [|n IH]; intros t Ht.
  - simpl. rewrite app_nil_r, Nat.add_0_r, Nat.mod_small by lia. done.
  - change (view c l t (S (S n))) with (option_list (l !! t) ++ view c l ((t + 1) mod c)%nat (S n)).
    rewrite IH by (apply wrap_lt; lia). rewrite wrap_succ. simpl. by rewrite app_assoc.
Qed.

(** A position outside the window does not show. *)
Lemma view_insert c l t n h x :
  (forall i, (i < n)%nat -> ((t + i) mod c)%nat <> h) -> (t < c)%nat -> view c (<[h := x]> l) t n = view c l t n.
Proof.
  revert t. induction n as [|n IH]; intros t Hout Ht; [done|]. simpl. f_equal.
  - rewrite list_lookup_insert_ne; [done|]. intros <-. apply (Hout 0%nat); [lia|].
    rewrite Nat.add_0_r. apply Nat.mod_small. lia.
  - apply IH; [|apply wrap_lt; lia]. intros i Hi. rewrite wrap_succ. apply Hout. lia.
Qed.

Lemma window_disjoint c t n i : (t < c)%nat -> (i < n)%nat -> (n < c)%nat -> ((t + i) mod c)%nat <> ((t + n) mod c)%nat.
Proof.
  intros Ht Hi Hn. rewrite !wrap_mod by lia.
  destruct (Nat.ltb_spec (t + i) c), (Nat.ltb_spec (t + n) c); lia.
Qed.

Lemma view_length c l t n : (t < c)%nat -> length l = c -> length (view c l t n) = n.
Proof.
  intros Ht Hl. revert t Ht. induction n as [|n IH]; intros t Ht; [done|]. simpl.
  destruct (lookup_lt_is_Some_2 l t) as [x ->]; [lia|]. simpl. by rewrite IH by (apply wrap_lt; lia).
Qed.

Lemma contents_length r : ring_wf r -> length (contents r) = size r.
Proof. intros []. by apply view_length. Qed.

Lemma new_ring_wf c : (0 < c)%nat -> ring_wf (new_ring c).
Proof.
  intros. constructor; simpl; try lia; [apply repeat_length|]. symmetry. apply Nat.mod_small. lia.
Qed.

Lemma ring_evict_spec r :
  ring_wf r -> size r = capacity r ->
  ring_wf (evict r) /\ (size (evict r) < capacity r)%nat /\ contents (evict r) = drop 1 (contents r)
  /\ head (evict r) = head r.
Proof.
  intros [Hc Hl Ht Hs Hh] Hf. unfold evict, contents. simpl. split_and!; [|lia| |done].
  - constructor; simpl; try lia; [by apply wrap_lt|]. rewrite Hh, wrap_succ. f_equal. lia.
  - replace (size r) with (S (pred (size r))) at 2 by lia. cbn [view].
    destruct (lookup_lt_is_Some_2 (ring r) (tail r)) as [x ->]; [lia|]. done.
Qed.

Lemma write_spec f r :
  ring_wf r -> (size r < capacity r)%nat ->
  let r' := r <| ring ::= <[head r := f]> |> <| head := ((head r + 1) mod capacity r)%nat |> <| size ::= S |> in
  (head r < length (ring r))%nat /\ ring_wf r' /\ contents r' = contents r ++ [f].
Proof.
  intros [Hc Hl Ht Hs Hh] Hf r'. assert (Hlt : (head r < length (ring r))%nat).
  { rewrite Hh, Hl. by apply wrap_lt. }
  split_and!; [done| |].
  - constructor; simpl; try lia; [by rewrite length_insert|]. rewrite Hh, Nat.Div0.add_mod_idemp_l. f_equal. lia.
  - change (contents r') with (view (capacity r) (<[head r := f]> (ring r)) (tail r) (S (size r))).
    rewrite view_snoc by lia. rewrite <-Hh, list_lookup_insert_eq by done. simpl. f_equal. apply view_insert; [|done].
    intros i Hi. rewrite Hh. apply window_disjoint; lia.
Qed.

Lemma push_spec f r :
  ring_wf r ->
  exists r', push f r = Some (bool_decide (size r < capacity r)%nat, r') /\ ring_wf r' /\ capacity r' = capacity r
    /\ contents r' = drop (if decide (size r < capacity r)%nat then 0 else 1) (contents r) ++ [f]
    /\ dropped r' = (if decide (size r < capacity r)%nat then dropped r else u64 (dropped r + 1)).
Proof.
  intros Hw. pose proof Hw as [Hc Hl Ht Hs Hh]. unfold push.
  destruct (Nat.eqb_spec (capacity r) 0) as [?|_]; [lia|].
  destruct (Nat.eqb_spec (size r) (capacity r)) as [Hf|Hf]; cbv zeta; cbn [negb].
  - destruct (ring_evict_spec r Hw Hf) as (Hw' & Hs' & He & _).
    destruct (write_spec f (evict r) Hw' Hs') as (Hlt & Hw2 & Hc2).
    destruct (Nat.ltb_spec (head (evict r)) (length (ring (evict r)))); [|lia].
    rewrite bool_decide_false, !decide_False by lia. eexists. split_and!; [done|exact Hw2|done| |done].
    by rewrite Hc2, He.
  - destruct (write_spec f r Hw) as (Hlt & Hw2 & Hc2); [lia|].
    destruct (Nat.ltb_spec (head r) (length (ring r))); [|lia].
    rewrite bool_decide_true, !decide_True by lia. eexists. by split_and!.
Qed.

Lemma drain_loop_spec n m r :
  length (ring r) = capacity r -> (tail r < capacity r)%nat -> (n <= m)%nat -> (m <= capacity r)%nat ->
  let v := view (capacity r) (ring r) (tail r) m in
  exists l, drain_loop n r = Some (take n v, r <| ring := l |> <| tail := ((tail r + n) mod capacity r)%nat |>)
    /\ length l = capacity r /\ view (capacity r) l ((tail r + n) mod capacity r)%nat (m - n) = drop n v.
Proof.
  revert m r. induction n as [|n IH]; intros m r Hl Ht Hn Hm; simpl.
  - exists (ring r). rewrite Nat.add_0_r, Nat.mod_small, Nat.sub_0_r by lia. by destruct r.
  - destruct m as [|m]; [lia|]. destruct (lookup_lt_is_Some_2 (ring r) (tail r)) as [x Hx]; [lia|].
    rewrite Hx. cbn [view]. rewrite Hx. simpl.
    set (r1 := r <| ring ::= <[tail r := moved x]> |> <| tail := ((tail r + 1) mod capacity r)%nat |>).
    destruct (IH m r1) as (l & Hd & Hll & Hv); subst r1; simpl in *; try lia.
    { by rewrite length_insert. }
    { apply wrap_lt. lia. }
    assert (Hi : view (capacity r) (<[tail r := moved x]> (ring r)) ((tail r + 1) mod capacity r)%nat m
                 = view (capacity r) (ring r) ((tail r + 1) mod capacity r)%nat m).
    { apply view_insert; [|apply wrap_lt; lia]. intros i Hi. rewrite wrap_succ.
      pose proof (window_disjoint (capacity r) (tail r) (S i) 0 Ht ltac:(lia) ltac:(lia)) as Hne.
      rewrite Nat.add_0_r, Nat.mod_small in Hne by lia. congruence. }
    rewrite wrap_succ in Hd, Hv. rewrite Hd, Hi. rewrite Hi in Hv. exists l. by split_and!.
Qed.

Lemma drain_spec n r :
  ring_wf r ->
  exists r', drain n r = Some (take n (contents r), r') /\ ring_wf r' /\ capacity r' = capacity r
    /\ contents r' = drop n (contents r) /\ dropped r' = dropped r.
Proof.
  intros Hw. pose proof Hw as [Hc Hl Ht Hs Hh]. unfold drain.
  destruct (drain_loop_spec (Nat.min n (size r)) (size r) r) as (l & Hd & Hll & Hv); try lia.
  rewrite Hd. pose proof (contents_length r Hw) as Hlen.
  assert (Htk : take (Nat.min n (size r)) (contents r) = take n (contents r)).
  { rewrite <-Hlen. destruct (Nat.min_spec n (length (contents r))) as [[_ ->]|[? ->]]; [done|].
    by rewrite !take_ge by lia. }
  assert (Hdr : drop (Nat.min n (size r)) (contents r) = drop n (contents r)).
  { rewrite <-Hlen. destruct (Nat.min_spec n (length (contents r))) as [[_ ->]|[? ->]]; [done|].
    by rewrite !drop_ge by lia. }
  eexists. split_and!; [by rewrite <-Htk| |done| |done].
  - constructor; simpl; try lia; [by apply wrap_lt|]. rewrite Hh, Nat.Div0.add_mod_idemp_l. f_equal. lia.
  - by rewrite <-Hdr.
Qed.

Lemma clear_spec r : ring_wf r -> ring_wf (clear r) /\ contents (clear r) = [].
Proof.
  intros [Hc Hl Ht Hs Hh]. split; [|done]. constructor; simpl; try lia. symmetry. by apply Nat.mod_small.
Qed.

(** *** Refinement *)

Inductive Op : Type := Push (f : A) | Drain (n : nat) | Clear.
Inductive Out : Type := Accepted (whole : bool) | Frames (l : list A) | Cleared.

Definition ring_op (o : Op) (r : FrameRingBuffer) : option (Out * FrameRingBuffer) :=
  match o with
  | Push f => match push f r with Some (b, r') => Some (Accepted b, r') | None => None end
  | Drain n => match drain n r with Some (l, r') => Some (Frames l, r') | None => None end
  | Clear => Some (Cleared, clear r)
  end.

Fixpoint ring_run (os : list Op) (r : FrameRingBuffer) : option (list Out * FrameRingBuffer) :=
  match os with
  | [] => Some ([], r)
  | o :: os' =>
      match ring_op o r with
      | None => None
      | Some (x, r') =>
          match ring_run os' r' with Some (xs, r'') => Some (x :: xs, r'') | None => None end
      end
  end.

(** The queue it stands for: bounded, the oldest frame making room. *)
Definition fifo_op (cap : nat) (o : Op) (q : list A * Z) : Out * (list A * Z) :=
  match o with
  | Push f => if decide (length q.1 < cap)%nat then (Accepted true, (q.1 ++ [f], q.2))
              else (Accepted false, (drop 1 q.1 ++ [f], q.2 + 1))
  | Drain n => (Frames (take n q.1), (drop n q.1, q.2))
  | Clear => (Cleared, ([], q.2))
  end.

Fixpoint fifo_run (cap : nat) (os : list Op) (q : list A * Z) : list Out * (list A * Z) :=
  match os with
  | [] => ([], q)
  | o :: os' => let '(x, q') := fifo_op cap o q in let '(xs, q'') := fifo_run cap os' q' in (x :: xs, q'')
  end.

(** The ring stands for the queue. *)
Definition ring_repr (r : FrameRingBuffer) (q : list A * Z) : Prop :=
  ring_wf r /\ contents r = q.1 /\ dropped r = u64 q.2.

Lemma ring_op_refines o r q :
  ring_repr r q ->
  exists r', ring_op o r = Some ((fifo_op (capacity r) o q).1, r') /\ capacity r' = capacity r
    /\ ring_repr r' (fifo_op (capacity r) o q).2.
Proof.
  intros (Hw & Hc & Hd). pose proof (contents_length r Hw) as Hlen. destruct o as [f|n|]; simpl.
  - destruct (push_spec f r Hw) as (r' & -> & Hw' & Hcap & Hc' & Hd'). rewrite <-Hc, Hlen.
    destruct (decide (size r < capacity r)%nat); [rewrite bool_decide_true by done|rewrite bool_decide_false by done];
      exists r'; split_and!; try done; unfold ring_repr; simpl; split_and!; try done; [congruence|].
    rewrite Hd', Hd. unfold u64. by rewrite Zplus_mod_idemp_l.
  - destruct (drain_spec n r Hw) as (r' & -> & Hw' & Hcap & Hc' & Hd'). rewrite <-Hc. exists r'.
    unfold ring_repr. simpl. split_and!; congruence || done.
  - exists (clear r). destruct (clear_spec r Hw). by split_and!.
Qed.

(** C30: The ring buffer is the bounded queue it stands for.  Whatever sequence of pushes,
    drains and clears runs on a buffer of positive capacity, no access leaves the vector,
    every push reports whether the oldest frame had to go, every drain returns the oldest
    frames in order, and the counter holds the number of frames lost, modulo its width. *)
Theorem ring_refines_fifo cap ops :
  (0 < cap)%nat ->
  exists outs r, ring_run ops (new_ring cap) = Some (outs, r)
    /\ (fifo_run cap ops ([], 0)).1 = outs /\ ring_repr r (fifo_run cap ops ([], 0)).2.
Proof.
  intros Hc. assert (Hr : ring_repr (new_ring cap) ([], 0)) by (split_and!; [by apply new_ring_wf|done|done]).
  assert (Hcap : capacity (new_ring cap) = cap) by done. revert Hr Hcap. generalize (new_ring cap) ([] : list A, 0).
  induction ops as [|o ops IH]; intros r q Hr Hcap; [by exists [], r|].
  destruct (ring_op_refines o r q Hr) as (r' & Ho & Hcap' & Hr'). rewrite Hcap in *. simpl. rewrite Ho.
  destruct (fifo_op cap o q) as [x q'] eqn:Hf. simpl in *. destruct (IH r' q' Hr') as (outs & r2 & -> & Hx & Hr2); [done|].
  destruct (fifo_run cap ops q') as [xs q2]. simpl in *. subst. by eexists _, _.
Qed.
End Ring.
End Ring.

(** ** The audio observer *)
Module Observer.

Record PcmFrame := mkPcm {
  pf_pcm : bytes;
  pf_sample_rate : Z;
  pf_channels : Z;
  pf_bytes_per_sample : Z;
  pf_num_samples : Z;
  pf_remote_uid : pystr;
  pf_timestamp : Z }.

(** The vendor's frame; the buffer is the memory its pointer gives access to. *)
Record AudioFrame := mkAudio {
  au_buffer : option bytes;
  au_samples : Z;
  au_bytes_per_sample : Z;
  au_channels : Z;
  au_samples_per_sec : Z;
  au_timestamp : Z }.

(** [None] is a copy past the end of the vendor's buffer. *)
Definition to_pcm_frame (raw : AudioFrame) (uid : pystr) : option PcmFrame :=
  let total_bytes := u64 (u64 (u64 (au_samples raw) * u64 (au_bytes_per_sample raw)) * u64 (au_channels raw)) in
  let frame pcm := mkPcm pcm (au_samples_per_sec raw) (au_channels raw) (au_bytes_per_sample raw) (au_samples raw)
                     uid (au_timestamp raw) in
  match au_buffer raw with
  | Some b =>
      if 0 <? total_bytes then
        if total_bytes <=? zlen b then Some (frame (take (Z.to_nat total_bytes) b)) else None
      else Some (frame [])
  | None => Some (frame [])
  end.

Abbreviation frames := (Ring.FrameRingBuffer (A := PcmFrame)).

Definition on_playback_audio_frame (raw : AudioFrame) (buffer : option frames) : option (option frames) :=
  match buffer with
  | None => Some None
  | Some r =>
      match to_pcm_frame raw [] with
      | None => None
      | Some f => match Ring.push f r with Some (_, r') => Some (Some r') | None => None end
      end
  end.

Definition on_remote_user_audio_frame (expected_remote_uid : pystr) (uid : option pystr) (raw : AudioFrame)
  (buffer : option frames) : option (option frames) :=
  match buffer with
  | None => Some None
  | Some r =>
      if negb (bool_decide (expected_remote_uid = []))
         && match uid with None => true | Some u => negb (bool_decide (expected_remote_uid = u)) end
      then Some buffer
      else match to_pcm_frame raw (default [] uid) with
           | None => None
           | Some f => match Ring.push f r with Some (_, r') => Some (Some r') | None => None end
           end
  end.

(** A frame whose buffer is as long as its header says is copied whole. *)
Lemma to_pcm_frame_whole b samples bps ch rate ts uid :
  0 <= samples < 2 ^ 31 -> 0 <= bps < 2 ^ 8 -> 0 <= ch < 2 ^ 8 -> zlen b = samples * bps * ch ->
  to_pcm_frame (mkAudio (Some b) samples bps ch rate ts) uid = Some (mkPcm b rate ch bps samples uid ts).
Proof.
  intros Hs Hb Hc Hl. unfold to_pcm_frame, u64. simpl.
  assert (samples * bps <= 2 ^ 31 * 2 ^ 8) by nia. assert (samples * bps * ch <= 2 ^ 39 * 2 ^ 8) by nia.
  rewrite !(Z.mod_small samples), !(Z.mod_small bps), !(Z.mod_small ch), (Z.mod_small (samples * bps)), Z.mod_small by nia.
  destruct (Z.ltb_spec 0 (samples * bps * ch)) as [Hp|Hp].
  - destruct (Z.leb_spec (samples * bps * ch) (zlen b)); [|lia]. rewrite <-Hl. unfold zlen.
    by rewrite Nat2Z.id, take_ge.
  - destruct b; [done|]. unfold zlen in Hl. simpl in Hl. nia.
Qed.
End Observer.

(** ** The engine handle *)
Module Engine.
Import Observer.

(** The vendor's side: the engines created and not destroyed, those with an observer or a
    listener, the frames accepted, and whether a destroyed engine was ever used. *)
Record Vendor := mkVendor {
  v_next : nat;
  v_live : gset nat;
  v_observed : gset nat;
  v_listened : gset nat;
  v_pushed : list AudioFrame;
  v_ub : bool }.

#[global] Instance Vendor_eta : Eta Vendor := fun v =>
  mkVendor (v_next v) (v_live v) (v_observed v) (v_listened v) (v_pushed v) (v_ub v).

Definition new_vendor : Vendor := mkVendor 0 ∅ ∅ ∅ [] false.

Definition touch (e : nat) (v : Vendor) : Vendor := if decide (e ∈ v_live v) then v else v <| v_ub := true |>.

Record EngineHandle := mkHandle { engine_ : option nat; registered_observer : bool }.

#[global] Instance EngineHandle_eta : Eta EngineHandle := fun h => mkHandle (engine_ h) (registered_observer h).

Definition new_handle : EngineHandle := mkHandle None false.

Abbreviation st := (EngineHandle * Vendor)%type.
Abbreviation outcome := (result Z unit).                (* [Err] carries the code of a DingRtcError *)

Definition create (made : bool) (s : st) : outcome * st :=
  let '(h, v) := s in
  match engine_ h with
  | Some _ => (Err (-1), s)
  | None =>
      if made then (Ok tt, (h <| engine_ := Some (v_next v) |>,
                            v <| v_live ::= fun l => {[v_next v]} ∪ l |> <| v_next ::= S |>))
      else (Err (-2), s)
  end.

Definition is_alive (h : EngineHandle) : bool := bool_decide (is_Some (engine_ h)).

(** [require_alive_locked], then the vendor's call. *)
Definition with_alive (f : nat -> outcome * st) (s : st) : outcome * st :=
  match engine_ s.1 with None => (Err (-4), s) | Some e => f e end.

(** [enable_audio_frame_observer], [publish_local_audio_stream],
    [publish_local_video_stream], [subscribe_all_remote_audio_streams], [join_channel] and
    [leave_channel]: one vendor call whose nonzero return code is raised. *)
Definition vendor_call (rc : Z) (s : st) : outcome * st :=
  with_alive (fun e => (if rc =? 0 then Ok tt else Err rc, (s.1, touch e s.2))) s.

Definition set_external_audio_source (rc : Z) (s : st) : outcome * st :=
  with_alive (fun e => (if rc <? 0 then Err rc else Ok tt, (s.1, touch e s.2))) s.

Definition set_event_listener (rc : Z) (s : st) : outcome * st :=
  with_alive (fun e =>
    let v := touch e s.2 in
    if rc =? 0 then (Ok tt, (s.1, v <| v_listened ::= fun l => {[e]} ∪ l |>)) else (Err rc, (s.1, v))) s.

Definition register_audio_observer (rc : Z) (s : st) : outcome * st :=
  with_alive (fun e =>
    let v := touch e s.2 in
    if rc =? 0 then (Ok tt, (s.1 <| registered_observer := true |>, v <| v_observed ::= fun l => {[e]} ∪ l |>))
    else (Err rc, (s.1, v))) s.

Definition unregister_audio_observer (s : st) : st :=
  match engine_ s.1, registered_observer s.1 with
  | Some e, true => (s.1 <| registered_observer := false |>, touch e s.2 <| v_observed ::= fun l => l ∖ {[e]} |>)
  | _, _ => s
  end.

(** A 32-bit [int]. *)
Definition i32 (z : Z) : Z := (z + 2 ^ 31) mod 2 ^ 32 - 2 ^ 31.

Definition push_external_audio (rc : Z) (pcm : bytes) (sample_rate channels bytes_per_sample timestamp : Z)
  (s : st) : outcome * st :=
  if (channels <=? 0) || (bytes_per_sample <=? 0) then (Err (-3), s)
  else if sample_rate <=? 0 then (Err (-3), s)
  else
    let num_samples := Z.quot (i32 (zlen pcm)) (bytes_per_sample * channels) in
    let frame := mkAudio (Some pcm) num_samples bytes_per_sample channels sample_rate timestamp in
    let v := if bytes_per_sample * channels <? 2 ^ 31 then s.2 else s.2 <| v_ub := true |> in   (* [int] overflow *)
    with_alive (fun e =>
      if rc =? 0 then (Ok tt, (s.1, touch e v <| v_pushed ::= fun l => l ++ [frame] |>))
      else (Err rc, (s.1, touch e v))) (s.1, v).

Definition destroy (s : st) : st :=
  match engine_ s.1 with
  | None => s
  | Some e =>
      let s := if registered_observer s.1 then unregister_audio_observer s else s in
      (mkHandle None false,
       touch e s.2 <| v_listened ::= fun l => l ∖ {[e]} |> <| v_live ::= fun l => l ∖ {[e]} |>)
  end.

Inductive HandleOp : Type :=
| HCreate (made : bool)
| HListen (rc : Z)
| HObserve (rc : Z)
| HUnobserve
| HSource (rc : Z)
| HCall (rc : Z)
| HPush (rc : Z) (pcm : bytes) (sample_rate channels bytes_per_sample timestamp : Z)
| HDestroy.

Definition handle_op (o : HandleOp) (s : st) : st :=
  match o with
  | HCreate made => (create made s).2
  | HListen rc => (set_event_listener rc s).2
  | HObserve rc => (register_audio_observer rc s).2
  | HUnobserve => unregister_audio_observer s
  | HSource rc => (set_external_audio_source rc s).2
  | HCall rc => (vendor_call rc s).2
  | HPush rc pcm rate ch bps ts => (push_external_audio rc pcm rate ch bps ts s).2
  | HDestroy => destroy s
  end.

(** The frame header fits an [int]. *)
Definition op_ok (o : HandleOp) : bool :=
  match o with HPush _ _ _ ch bps _ => bps * ch <? 2 ^ 31 | _ => true end.

(** The vendor's state as one handle leaves it. *)
Record handle_inv (s : st) : Prop := {
  hi_ub : v_ub s.2 = false;
  hi_live : v_live s.2 = match engine_ s.1 with Some e => {[e]} | None => ∅ end;
  hi_observed : v_observed s.2 = if registered_observer s.1 then v_live s.2 else ∅;
  hi_listened : v_listened s.2 ⊆ v_live s.2;
  hi_observer : registered_observer s.1 = true -> engine_ s.1 <> None }.

Lemma touch_live e v : e ∈ v_live v -> touch e v = v.
Proof. intros. unfold touch. by rewrite decide_True. Qed.

Lemma fresh_inv v : v_ub v = false -> v_live v = ∅ -> v_observed v = ∅ -> v_listened v = ∅ -> handle_inv (new_handle, v).
Proof. intros ? Hl ? Hs. constructor; try done. simpl. by rewrite Hl, Hs. Qed.

Lemma destroy_spec s :
  handle_inv s -> handle_inv (destroy s) /\ (destroy s).1 = mkHandle None (registered_observer (destroy s).1)
    /\ v_live (destroy s).2 = ∅ /\ v_observed (destroy s).2 = ∅ /\ v_listened (destroy s).2 = ∅
    /\ v_pushed (destroy s).2 = v_pushed s.2 /\ v_next (destroy s).2 = v_next s.2.
Proof.
  destruct s as [[[e|] b] v]; intros [Hu Hl Ho Hs Hr]; simpl in *; unfold destroy; simpl.
  - assert (Hin : e ∈ v_live v) by set_solver. destruct b; simpl; rewrite ?(touch_live e v Hin); rewrite ?touch_live by done;
      simpl; (split; [constructor; simpl; try done; set_solver|]); split_and!; set_solver.
  - destruct b; [by destruct (Hr eq_refl)|]. split; [by constructor|]. split_and!; set_solver.
Qed.

Lemma handle_op_inv o s : op_ok o = true -> handle_inv s -> handle_inv (handle_op o s).
Proof.
  intros Hok Hi. destruct o as [made|rc|rc| |rc|rc|rc pcm rate ch bps ts|]; simpl; [..|by apply destroy_spec].
  all: destruct s as [[[e|] b] v]; destruct Hi as [Hu Hl Ho Hs Hr]; simpl in *.
  all: try (assert (Hin : e ∈ v_live v) by set_solver).
  all: unfold create, set_event_listener, register_audio_observer, unregister_audio_observer,
    set_external_audio_source, vendor_call, push_external_audio, with_alive; simpl; rewrite ?Hok;
    rewrite ?touch_live by done.
  all: repeat case_match; simpl; rewrite ?touch_live by done; constructor; simpl; try done; set_solver.
Qed.

Definition handle_run (os : list HandleOp) (s : st) : st := foldl (fun s o => handle_op o s) s os.

Lemma handle_run_inv os s : forallb op_ok os = true -> handle_inv s -> handle_inv (handle_run os s).
Proof.
  revert s. induction os as [|o os IH]; intros s Hok Hi; [done|]. simpl in Hok. apply andb_true_iff in Hok as [Ho Hok].
  by apply IH, handle_op_inv.
Qed.

(** However the operations of one engine handle are called, and whatever the vendor
    returns: no call reaches an engine that was destroyed; the vendor holds an engine
    exactly when the handle is alive, and then one; after [destroy] no engine, observer or
    listener is left, a second [destroy] does nothing, and audio pushed afterwards is
    refused without reaching the vendor. *)
Theorem engine_handle_safe os :
  forallb op_ok os = true ->
  let s := handle_run os (new_handle, new_vendor) in
  v_ub s.2 = false
  /\ v_live s.2 = match engine_ s.1 with Some e => {[e]} | None => ∅ end
  /\ v_live (destroy s).2 = ∅ /\ v_observed (destroy s).2 = ∅ /\ v_listened (destroy s).2 = ∅
  /\ destroy (destroy s) = destroy s
  /\ forall rc pcm rate ch bps ts, bps * ch < 2 ^ 31 ->
       exists code, push_external_audio rc pcm rate ch bps ts (destroy s) = (Err code, destroy s).
Proof.
  intros Hok s. assert (Hi : handle_inv s) by (apply handle_run_inv; [done|by apply fresh_inv]).
  destruct (destroy_spec s Hi) as (_ & Hn & Hl & Ho & Hs & _ & _). destruct Hi as [Hu Hl0 _ _ _].
  split_and!; try done.
  - unfold destroy at 1. by rewrite Hn.
  - intros rc pcm rate ch bps ts Hb. unfold push_external_audio, with_alive.
    rewrite (proj2 (Z.ltb_lt _ _) Hb). destruct (destroy s) as [h v] eqn:Hd. simpl in *. rewrite Hn. simpl.
    repeat case_match; by eexists.
Qed.
End Engine.

(** ** The event listener *)
Module Listener.
Section Listener.
  Context {C : Type}.                     (* Python callables *)

Inductive EventKind : Type := EvJoin | EvLeave | EvBye | EvError | EvConnection.

#[export] Instance EventKind_eq_dec : EqDecision EventKind.
Proof. solve_decision. Defined.

Definition EngineListener : Type := EventKind -> option C.

Definition new_listener : EngineListener := fun _ => None.

(** [set_on_join], [set_on_leave], [set_on_bye], [set_on_error] and
    [set_on_connection_status_change]; [None] is Python's [None]. *)
Definition set_on (k : EventKind) (cb : option C) (l : EngineListener) : EngineListener :=
  fun k' => if decide (k' = k) then cb else l k'.

Definition clear_callbacks (l : EngineListener) : EngineListener := fun _ => None.

(** A vendor event: the callable called, if any.  What it raises stays in the binding. *)
Definition on_event (k : EventKind) (l : EngineListener) : list C := option_list (l k).
End Listener.
End Listener.

(** ** Locks

    A teardown runs on the thread of the event loop; the vendor's threads call back at any
    time.  They contend for the interpreter lock, the handle's mutex, the listener's and
    the ring buffer's.  Unsetting the listener or the observer may block until the
    callbacks in flight have returned. *)
Module Locks.

Inductive lock : Type := GIL | HandleMu | ListenerMu | RingMu.

#[export] Instance lock_eq_dec : EqDecision lock.
Proof. solve_decision. Defined.

Inductive act : Type :=
| Acq (l : lock)
| Rel (l : lock)
| Unset                                   (* the vendor starts no further callback *)
| Quiet                                   (* waits for the callbacks in flight *)
| Call.                                   (* a vendor or Python call that takes none of the locks *)

#[export] Instance act_eq_dec : EqDecision act.
Proof. solve_decision. Defined.

(** [lock_guard] on the handle's mutex, then [gil_scoped_release]; undone in reverse. *)
Definition without_gil (body : list act) : list act :=
  Acq HandleMu :: Rel GIL :: body ++ [Acq GIL; Rel HandleMu].

(** Between two calls the interpreter may switch threads. *)
Definition switch : list act := [Rel GIL; Acq GIL].

Definition clear_callbacks : list act := [Acq ListenerMu; Rel ListenerMu].
Definition leave_channel : list act := without_gil [Call].
Definition unregister_audio_observer : list act := without_gil [Quiet].
Definition destroy : list act := without_gil [Unset; Quiet; Call].
Definition drain : list act := [Acq RingMu; Rel RingMu].

(** [_PybindDingRtcChannel.leave] on the loop's thread, after a last drain. *)
Definition leave : list act :=
  Acq GIL :: drain ++ switch ++ clear_callbacks ++ switch ++ leave_channel ++ switch
    ++ unregister_audio_observer ++ switch ++ destroy ++ [Rel GIL].

(** A callback of the listener, which calls into Python, and one of the audio observer,
    which does not. *)
Definition listener_callback : list act := [Acq GIL; Acq ListenerMu; Rel ListenerMu; Call; Rel GIL].
Definition audio_callback : list act := [Acq RingMu; Rel RingMu].

(** What each thread still has to do; thread 0 is the loop's. *)
Record State := mkState { progs : list (list act); owner : lock -> option nat; listening : bool }.

Definition start (p : list act) : State := mkState [p] (fun _ => None) true.

Definition set_owner (l : lock) (o : option nat) (f : lock -> option nat) : lock -> option nat :=
  fun l' => if decide (l' = l) then o else f l'.

Definition enabled (a : act) (s : State) : Prop :=
  match a with
  | Acq l => owner s l = None
  | Quiet => Forall (fun p => p = []) (drop 1 (progs s))
  | _ => True
  end.

Definition perform (i : nat) (a : act) (p : list act) (s : State) : State :=
  mkState (<[i := p]> (progs s))
    (match a with Acq l => set_owner l (Some i) (owner s) | Rel l => set_owner l None (owner s) | _ => owner s end)
    (match a with Unset => false | _ => listening s end).

Inductive run1 : State -> State -> Prop :=
| r_act i a p s : progs s !! i = Some (a :: p) -> enabled a s -> run1 s (perform i a p s).

Inductive step : State -> State -> Prop :=
| s_run s s' : run1 s s' -> step s s'
| s_fire c s : listening s = true -> c = listener_callback \/ c = audio_callback ->
    step s (mkState (progs s ++ [c]) (owner s) (listening s)).

(** *** Lock order *)

(** Whether a thread with this much left holds the lock. *)
Fixpoint holds (p : list act) (l : lock) : bool :=
  match p with
  | [] => false
  | Acq l' :: q => if decide (l = l') then false else holds q l
  | Rel l' :: q => if decide (l = l') then true else holds q l
  | _ :: q => holds q l
  end.

Definition shared (l : lock) : bool := match l with HandleMu => false | _ => true end.
Definition rank (l : lock) : nat := match l with GIL => 0 | ListenerMu => 1 | RingMu => 2 | HandleMu => 3 end.
Definition locks : list lock := [GIL; ListenerMu; RingMu].

Definition unsets (p : list act) : bool := existsb (fun a => match a with Unset => true | _ => false end) p.

(** The loop's thread alone takes the handle's mutex; the others are taken in order of
    rank; nobody waits for callbacks with one of them held. *)
Definition next_ok (loop : bool) (a : act) (q : list act) : bool :=
  match a with
  | Acq l => holds q l && (loop || shared l)
             && (negb (shared l) || forallb (fun l' => negb (holds (a :: q) l') || (rank l' <? rank l)%nat) locks)
  | Rel l => negb (holds q l) && (loop || shared l)
  | Quiet => loop && forallb (fun l => negb (holds q l)) locks
  | Unset => loop && negb (unsets q)
  | Call => true
  end.

Fixpoint disciplined (loop : bool) (p : list act) : bool :=
  match p with [] => true | a :: q => next_ok loop a q && disciplined loop q end.

Record lock_inv (s : State) : Prop := {
  li_loop : exists p, progs s !! 0%nat = Some p /\ listening s = unsets p;
  li_disc : forall i p, progs s !! i = Some p -> disciplined (i =? 0)%nat p = true;
  li_own : forall l i, owner s l = Some i <-> exists p, progs s !! i = Some p /\ holds p l = true }.

Lemma disciplined_cons b a p : disciplined b (a :: p) = true -> next_ok b a p = true /\ disciplined b p = true.
Proof. apply andb_true_iff. Qed.

Lemma handle_private p : disciplined false p = true -> holds p HandleMu = false.
Proof.
  induction p as [|a p IH]; [done|]. intros [Hn Hd]%disciplined_cons. specialize (IH Hd).
  destruct a as [[]|[]| | |]; simpl in *; try done; rewrite ?andb_false_r in Hn; done.
Qed.

Lemma start_inv p : disciplined true p = true -> unsets p = true -> (forall l, holds p l = false) -> lock_inv (start p).
Proof.
  intros Hd Hu Hh. constructor; simpl.
  - by exists p.
  - intros [|i] q Hq; simpl in Hq; [by injection Hq as <-|by destruct i].
  - intros l i. split; [done|]. intros (q & Hq & Hl). destruct i as [|[]]; simpl in Hq; [|done..].
    injection Hq as <-. by rewrite Hh in Hl.
Qed.

Lemma fire_inv c s :
  lock_inv s -> c = listener_callback \/ c = audio_callback -> lock_inv (mkState (progs s ++ [c]) (owner s) (listening s)).
Proof.
  intros [(p & Hp & Hu) Hd Ho] Hc. constructor; simpl.
  - exists p. split; [by apply lookup_app_l_Some|done].
  - intros i q [Hq|[Hge Hq]]%lookup_app_Some; [by apply Hd|].
    destruct (i - length (progs s))%nat eqn:Hi; simpl in Hq; [|by destruct n]. injection Hq as <-.
    apply lookup_lt_Some in Hp. destruct (Nat.eqb_spec i 0); [lia|]. by destruct Hc as [-> | ->].
  - intros l i. rewrite Ho. split; intros (q & Hq & Hl); exists q; (split; [|done]).
    + by apply lookup_app_l_Some.
    + apply lookup_app_Some in Hq as [Hq|[_ Hq]]; [done|]. destruct (i - length (progs s))%nat as [|[]]; simpl in Hq; try done.
      injection Hq as <-. destruct Hc as [-> | ->], l; done.
Qed.

(** One action changes what its thread holds as the lock table says. *)
Lemma holds_step a p l :
  holds (a :: p) l = match a with
                     | Acq l' => if decide (l = l') then false else holds p l
                     | Rel l' => if decide (l = l') then true else holds p l
                     | _ => holds p l
                     end.
Proof. by destruct a. Qed.

Lemma run1_inv s s' : lock_inv s -> run1 s s' -> lock_inv s'.
Proof.
  intros Hinv Hr. revert Hinv. destruct Hr as [i a p s0 Hi He]. intros [(p0 & Hp0 & Hu) Hd Ho].
  destruct (disciplined_cons _ _ _ (Hd _ _ Hi)) as [Hn Hdp].
  pose proof (lookup_lt_Some _ _ _ Hi) as Hlt. constructor; simpl.
  - destruct i as [|i].
    + exists p. split; [by apply list_lookup_insert_eq|]. rewrite Hi in Hp0. injection Hp0 as <-. rewrite Hu.
      destruct a; try done. simpl in Hn. apply negb_true_iff in Hn. by rewrite Hn.
    + exists p0. split; [by rewrite list_lookup_insert_ne|]. rewrite Hu. destruct a; try done.
  - intros j q Hj. destruct (decide (j = i)) as [->|Hne].
    + rewrite list_lookup_insert_eq in Hj by done. by injection Hj as <-.
    + rewrite list_lookup_insert_ne in Hj by done. by apply Hd.
  - intros l j. destruct (decide (j = i)) as [->|Hne].
    + rewrite list_lookup_insert_eq by done.
      transitivity (holds p l = true); [|split; [by exists p|by intros (? & [= <-] & ?)]].
      assert (Hold : owner s0 l = Some i <-> holds (a :: p) l = true).
      { rewrite Ho, Hi. split; [by intros (? & [= <-] & ?)|by eexists]. }
      rewrite holds_step in Hold. destruct a as [l'|l'| | |]; unfold set_owner; try done;
        destruct (decide (l = l')) as [->|]; try done.
      * split; [|done]. intros _. simpl in Hn. by destruct (holds p l').
      * split; [done|]. simpl in Hn. by destruct (holds p l').
    + rewrite list_lookup_insert_ne by done. rewrite <-Ho.
      destruct a as [l'|l'| | |]; unfold set_owner; try done; destruct (decide (l = l')) as [->|]; try done.
      * simpl in He. rewrite He. split; congruence.
      * assert (owner s0 l' = Some i) as -> by (apply Ho; eexists; split; [done|]; simpl; by rewrite decide_True).
        split; congruence.
Qed.

Lemma locks_step_inv s s' : lock_inv s -> step s s' -> lock_inv s'.
Proof. intros Hi Hs. revert Hi. destruct Hs as [? ? Hr|c ? _ Hc]; intros Hi; [by eapply run1_inv|by apply fire_inv]. Qed.

(** *** Progress *)

Lemma handle_of_loop s i : lock_inv s -> owner s HandleMu = Some i -> i = 0%nat.
Proof.
  intros Hi (p & Hp & Hh)%(li_own _ Hi). pose proof (li_disc _ Hi _ _ Hp) as Hd.
  destruct (Nat.eqb_spec i 0); [done|]. by rewrite handle_private in Hh.
Qed.

(** A thread about to take a lock nobody of its rank or above holds can take it. *)
Lemma acquires s i l p :
  lock_inv s -> progs s !! i = Some (Acq l :: p) -> (shared l = true -> owner s l = None) -> owner s l = None.
Proof.
  intros Hi Hp Hs. destruct (shared l) eqn:Hl; [by apply Hs|]. destruct l; try done.
  destruct (owner s HandleMu) as [j|] eqn:Ho; [|done]. exfalso.
  pose proof (handle_of_loop _ _ Hi Ho) as ->. apply (li_own _ Hi) in Ho as (q & Hq & Hh).
  destruct (disciplined_cons _ _ _ (li_disc _ Hi _ _ Hp)) as [Hn _]. simpl in Hn.
  destruct (Nat.eqb_spec i 0) as [->|]; [|by rewrite andb_false_r in Hn]. rewrite Hp in Hq. by injection Hq as <-.
Qed.

Lemma shared_listed l : shared l = true -> In l locks.
Proof. destruct l; simpl; intros; tauto || done. Qed.

Lemma holder_moves s l i :
  lock_inv s -> owner s l = Some i -> shared l = true ->
  (forall l', shared l' = true -> (rank l < rank l')%nat -> owner s l' = None) -> exists s', run1 s s'.
Proof.
  intros Hi Ho Hl Hmax. apply (li_own _ Hi) in Ho as (p & Hp & Hh). destruct p as [|a p]; [done|].
  destruct (disciplined_cons _ _ _ (li_disc _ Hi _ _ Hp)) as [Hn _].
  exists (perform i a p s). constructor; [done|]. destruct a as [l'|l'| | |]; simpl; try done.
  - apply (acquires s i l' p Hi Hp). intros Hs. apply Hmax; [done|]. unfold next_ok in Hn.
    rewrite Hs in Hn. apply andb_true_iff in Hn as [_ Hn]. simpl negb in Hn. rewrite orb_false_l in Hn.
    rewrite forallb_forall in Hn. specialize (Hn l (shared_listed l Hl)).
    simpl in Hh. rewrite Hh in Hn. by apply Nat.ltb_lt.
  - exfalso. unfold next_ok in Hn. apply andb_true_iff in Hn as [_ Hn]. rewrite forallb_forall in Hn.
    specialize (Hn l (shared_listed l Hl)).
    simpl in Hh. by rewrite Hh in Hn.
Qed.

Lemma free_moves s :
  lock_inv s -> (forall l, shared l = true -> owner s l = None) -> ~ Forall (fun p => p = []) (progs s) ->
  exists s', run1 s s'.
Proof.
  intros Hi Hfree Hleft. destruct (decide (Forall (fun p => p = []) (drop 1 (progs s)))) as [Hq|Hq].
  - destruct (li_loop _ Hi) as (p & Hp & _). destruct p as [|a p].
    { destruct Hleft. destruct (progs s) as [|q ps]; [done|]. injection Hp as ->. by constructor. }
    exists (perform 0 a p s). constructor; [done|]. destruct a as [l| | | |]; try done.
    apply (acquires s 0 l p Hi Hp). apply Hfree.
  - apply not_Forall_Exists in Hq; [|apply _]. apply Exists_exists in Hq as (p & Hp & Hne).
    apply list_elem_of_lookup in Hp as [i Hp]. rewrite lookup_drop in Hp.
    destruct p as [|a p]; [by destruct Hne|].
    exists (perform (1 + i) a p s). constructor; [done|].
    destruct (disciplined_cons _ _ _ (li_disc _ Hi _ _ Hp)) as [Hn _]. destruct a as [l| | | |]; try done.
    apply (acquires s _ l p Hi Hp). apply Hfree.
Qed.

Lemma someone_moves s : lock_inv s -> ~ Forall (fun p => p = []) (progs s) -> exists s', run1 s s'.
Proof.
  intros Hi Hleft. destruct (owner s RingMu) as [i|] eqn:H2.
  { apply (holder_moves s RingMu i); try done. intros [] ? Hr; simpl in Hr; try done; lia. }
  destruct (owner s ListenerMu) as [i|] eqn:H1.
  { apply (holder_moves s ListenerMu i); try done. intros [] ? Hr; simpl in Hr; try done; lia. }
  destruct (owner s GIL) as [i|] eqn:H0.
  { apply (holder_moves s GIL i); try done. intros [] ? Hr; simpl in Hr; try done; lia. }
  apply free_moves; try done. by intros [].
Qed.

(** The actions left. *)
Definition work (s : State) : nat := sum_list_with length (progs s).

Lemma run1_work s s' : run1 s s' -> work s = S (work s').
Proof.
  intros [i a p s0 Hi _]. unfold work, perform. simpl. apply list_elem_of_split_length in Hi as (l1 & l2 & Hp & Hl).
  rewrite Hp. replace i with (length l1 + 0)%nat by lia. rewrite insert_app_r. simpl.
  rewrite !sum_list_with_app. simpl. lia.
Qed.

Lemma completes s :
  lock_inv s -> exists s', rtc run1 s s' /\ lock_inv s' /\ Forall (fun p => p = []) (progs s').
Proof.
  remember (work s) as n eqn:Hn. revert s Hn. induction n as [n IH] using lt_wf_ind. intros s Hn Hi.
  destruct (decide (Forall (fun p => p = []) (progs s))) as [Hd|Hd]; [by exists s|].
  destruct (someone_moves s Hi Hd) as [s1 Hs]. pose proof (run1_work _ _ Hs) as Hw.
  destruct (IH (work s1) ltac:(lia) s1 eq_refl) as (s' & Hr & Hi' & Hd'); [by eapply run1_inv|].
  exists s'. split_and!; try done. by eapply rtc_l.
Qed.

Lemma leave_disciplined : disciplined true leave = true /\ unsets leave = true /\ forall l, holds leave l = false.
Proof. split_and!; [vm_compute; reflexivity..|]. intros []; vm_compute; reflexivity. Qed.

(** C21: Leaving a channel cannot deadlock with the vendor's callbacks.  From every state
    an execution of the teardown can reach, with any number of listener and audio
    callbacks starting at any moment before the listener is unset, some execution finishes
    the teardown and every callback, all locks free and no callback left to come; and while
    no further callback starts every execution is finite, each action using up one of
    those that are left. *)
Theorem teardown_completes s :
  rtc step (start leave) s ->
  (exists s', rtc run1 s s' /\ Forall (fun p => p = []) (progs s') /\ (forall l, owner s' l = None)
     /\ listening s' = false)
  /\ forall s', run1 s s' -> work s = S (work s').
Proof.
  intros Hr. assert (Hi : lock_inv s).
  { destruct leave_disciplined as (Hd & Hu & Hh).
    eapply rtc_invariant; [apply locks_step_inv|exact Hr|by apply start_inv]. }
  split; [|intros; by apply run1_work]. destruct (completes s Hi) as (s' & Hrun & Hi' & Hd).
  rewrite Forall_lookup in Hd. exists s'. split_and!; [done|by apply Forall_lookup| |].
  - intros l. destruct (owner s' l) as [i|] eqn:Ho; [|done]. apply (li_own _ Hi') in Ho as (p & Hp & Hh).
    by rewrite (Hd _ _ Hp) in Hh.
  - destruct (li_loop _ Hi') as (p & Hp & ->). by rewrite (Hd _ _ Hp).
Qed.

(** *** What the order buys *)

Definition stuck (s : State) : Prop := (forall s', ~ run1 s s') /\ ~ Forall (fun p => p = []) (progs s).

(** Unsetting the listener with the interpreter lock held, as the binding once did, lets a
    callback in flight wait for the lock while the teardown waits for the callback. *)
Definition destroy_with_gil : list act := [Acq GIL; Acq HandleMu; Unset; Quiet; Rel HandleMu; Rel GIL].

Lemma gil_held_deadlocks : exists s, rtc step (start destroy_with_gil) s /\ stuck s.
Proof.
  eexists. split.
  - eapply rtc_l; [apply s_run, (r_act 0 (Acq GIL)); done|].
    eapply rtc_l; [apply (s_fire listener_callback); [done|by left]|].
    eapply rtc_l; [apply s_run, (r_act 0 (Acq HandleMu)); done|].
    apply rtc_once, s_run, (r_act 0 Unset); done.
  - simpl. split; [|by intros ?%Forall_inv]. intros s' Hs. inversion Hs as [i a p ? Hi He]; subst. simpl in Hi.
    destruct i as [|[|i]]; simpl in Hi; [injection Hi as <- <-..|done].
    + by apply Forall_inv in He.
    + done.
Qed.

(** A second Python thread calling [is_alive], which takes the handle's mutex with the
    interpreter lock held, while the first has given that lock up inside a call. *)
Definition is_alive : list act := [Acq GIL; Acq HandleMu; Rel HandleMu; Rel GIL].

Lemma two_threads_deadlock :
  exists s, rtc run1 (mkState [Acq GIL :: leave_channel ++ [Rel GIL]; is_alive] (fun _ => None) false) s /\ stuck s.
Proof.
  eexists. split.
  - eapply rtc_l; [apply (r_act 0 (Acq GIL)); done|].
    eapply rtc_l; [apply (r_act 0 (Acq HandleMu)); done|].
    eapply rtc_l; [apply (r_act 0 (Rel GIL)); done|].
    eapply rtc_l; [apply (r_act 0 Call); done|].
    apply rtc_once, (r_act 1 (Acq GIL)); done.
  - simpl. split; [|by intros ?%Forall_inv]. intros s' Hs. inversion Hs as [i a p ? Hi He]; subst. simpl in Hi.
    destruct i as [|[|i]]; simpl in Hi; [injection Hi as <- <-; done..|done].
Qed.
End Locks.

(** ** Witnesses *)

Lemma ring_refines_fifo_witness :
  let ops := [Ring.Push 1; Ring.Push 2; Ring.Push 3; Ring.Drain 1; Ring.Push 4; Ring.Drain 8] in
  (exists outs r, Ring.ring_run (fun _ => 0) ops (Ring.new_ring 0 2) = Some (outs, r)
     /\ (Ring.fifo_run 2 ops ([], 0)).1 = outs /\ Ring.ring_repr r (Ring.fifo_run 2 ops ([], 0)).2)
  /\ (Ring.fifo_run 2 ops ([], 0)).1
     = [Ring.Accepted true; Ring.Accepted true; Ring.Accepted false; Ring.Frames [2]; Ring.Accepted true;
        Ring.Frames [3; 4]].
Proof. split; [apply Ring.ring_refines_fifo; lia|vm_compute; reflexivity]. Defined.

Lemma engine_handle_safe_witness :
  let s := Engine.handle_run [Engine.HCreate true; Engine.HListen 0; Engine.HObserve 0; Engine.HCall 7;
                              Engine.HPush 0 [1; 2] 16000 1 2 5; Engine.HCreate true]
             (Engine.new_handle, Engine.new_vendor) in
  Engine.v_ub s.2 = false /\ Engine.engine_ s.1 = Some 0%nat /\ Engine.v_live (Engine.destroy s).2 = ∅.
Proof.
  destruct (Engine.engine_handle_safe
              [Engine.HCreate true; Engine.HListen 0; Engine.HObserve 0; Engine.HCall 7;
               Engine.HPush 0 [1; 2] 16000 1 2 5; Engine.HCreate true] eq_refl) as (Hu & _ & Hl & _).
  split; [exact Hu|]. split; [vm_compute; reflexivity|exact Hl].
Defined.

Lemma teardown_completes_witness :
  exists s', rtc Locks.run1 (Locks.start Locks.leave) s' /\ Forall (fun p => p = []) (Locks.progs s').
Proof.
  destruct (Locks.teardown_completes (Locks.start Locks.leave) (rtc_refl _ _)) as [(s' & Hr & Hd & _) _].
  exists s'. split; [exact Hr|exact Hd].
Defined.
