(* ===== verification/DingRtc.v ===== *)
(** * The RTC session

    [transport/dingrtc/_session.py] and [_in_memory.py]: a call's membership of its RTC
    channel.  [DingRtcSession] works over any channel of [DingRtcChannelProtocol], the
    class [RtcChannel] here; the production channel over the vendor binding of [Binding]
    (Module [Pybind]) and the in-memory double (Module [InMemory]) are its instances.  The
    session's operations are cut at their awaits, and every interleaving of joining,
    leaving, the drainer, the consumer of the frames and the network is a path of
    [sstep]. *)
From S2P Require Import Prelude Bytes Binding.
Import Binding.Observer.

(** ** Channels *)

(** How the wait for [OnJoinChannelResult] ends. *)
Inductive JoinOutcome : Type := JoinResult (rc : Z) | JoinTimeout | JoinCancelled.

(** The channel count of a frame header whose size computation fits an [int]. *)
Definition MAX_CHANNELS : Z := 2 ^ 30.

Inductive RtcErr : Type := RtcError | RtcNotJoined | RtcPushBackpressure | RtcTimeout | RtcCancelled | RtcOther.

(** What a session needs of a channel: [ch_setup] is [setup_and_join] up to its await,
    [ch_joined] what follows it.  [rcs] are the return codes of the vendor's calls.
    [ch_held] is whether the channel holds vendor resources. *)
Class RtcChannel (K : Type) := {
  ch_setup : forall (rcs : nat -> Z) (rate channels : Z), K -> result RtcErr unit * K;
  ch_joined : JoinOutcome -> K -> result RtcErr unit * K;
  ch_leave : K -> K;
  ch_push : forall (rcs : nat -> Z) (pcm : bytes) (ts : Z), K -> result RtcErr Z * K;
  ch_drain : nat -> K -> list PcmFrame * K;
  ch_deliver : PcmFrame -> K -> K;                 (* the network *)
  ch_held : K -> bool;
  ch_wf : K -> Prop;
  ch_joining : K -> Prop;                          (* between [ch_setup] and [ch_joined] *)
  ch_setup_wf : forall ok r c k, c < MAX_CHANNELS -> ch_wf k -> ch_held k = false -> ch_wf (ch_setup ok r c k).2;
  ch_setup_fails : forall ok r c k k' e,
    c < MAX_CHANNELS -> ch_wf k -> ch_held k = false -> ch_setup ok r c k = (Err e, k') -> ch_held k' = false;
  ch_setup_ok : forall ok r c k k' u,
    ch_wf k -> ch_held k = false -> ch_setup ok r c k = (Ok u, k') -> ch_joining k';
  ch_joined_wf : forall o k, ch_wf k -> ch_wf (ch_joined o k).2;
  ch_joined_fails : forall o k k' e,
    ch_wf k -> ch_joining k -> o <> JoinCancelled -> ch_joined o k = (Err e, k') -> ch_held k' = false;
  ch_leave_wf : forall k, ch_wf k -> ch_wf (ch_leave k);
  ch_left : forall k, ch_wf k -> ch_held (ch_leave k) = false;
  ch_push_wf : forall f p t k, ch_wf k -> ch_wf (ch_push f p t k).2;
  ch_push_held : forall f p t k, ch_wf k -> ch_held (ch_push f p t k).2 = ch_held k;
  ch_drain_wf : forall n k, ch_wf k -> ch_wf (ch_drain n k).2;
  ch_drain_held : forall n k, ch_wf k -> ch_held (ch_drain n k).2 = ch_held k;
  ch_drain_bound : forall n k, ch_wf k -> (length (ch_drain n k).1 <= n)%nat;
  ch_deliver_joining : forall f k, ch_joining k -> ch_joining (ch_deliver f k);
  ch_deliver_wf : forall f k, ch_wf k -> ch_wf (ch_deliver f k);
  ch_deliver_held : forall f k, ch_wf k -> ch_held (ch_deliver f k) = ch_held k }.

(** ** The production channel *)
Module Pybind.

Record Channel := mkChannel {
  engine : option Engine.EngineHandle;
  vendor : Engine.Vendor;
  frame_buffer : option frames;
  send_sample_rate : Z;
  send_channels : Z }.

#[global] Instance Channel_eta : Eta Channel := fun k =>
  mkChannel (engine k) (vendor k) (frame_buffer k) (send_sample_rate k) (send_channels k).

Definition new_channel : Channel := mkChannel None Engine.new_vendor None 0 0.

Definition blank : PcmFrame := mkPcm [] 0 0 0 0 [] 0.
Definition moved (f : PcmFrame) : PcmFrame := blank.

(** The calls of [setup_and_join] on the new engine, up to the first that raises. *)
Definition setup_calls (rcs : nat -> Z) : list (Engine.st -> Engine.outcome * Engine.st) :=
  [Engine.create (rcs 0%nat =? 0);
   Engine.set_event_listener (rcs 1%nat);
   Engine.register_audio_observer (rcs 2%nat);
   Engine.vendor_call (rcs 3%nat);                      (* enable_audio_frame_observer *)
   Engine.set_external_audio_source (rcs 4%nat);
   Engine.vendor_call (rcs 5%nat);                      (* publish_local_audio_stream *)
   Engine.vendor_call (rcs 6%nat);                      (* publish_local_video_stream *)
   Engine.vendor_call (rcs 7%nat);                      (* subscribe_all_remote_audio_streams *)
   Engine.vendor_call (rcs 8%nat)].                     (* join_channel *)

Fixpoint run_calls (calls : list (Engine.st -> Engine.outcome * Engine.st)) (s : Engine.st)
  : Engine.outcome * Engine.st :=
  match calls with
  | [] => (Ok tt, s)
  | c :: calls' => match c s with (Ok _, s') => run_calls calls' s' | (Err e, s') => (Err e, s') end
  end.

(** A handle an earlier join left behind is dropped, and its destructor destroys it. *)
Definition drop_engine (h : option Engine.EngineHandle) (v : Engine.Vendor) : Engine.Vendor :=
  match h with Some h => (Engine.destroy (h, v)).2 | None => v end.

Definition setup (rcs : nat -> Z) (rate channels : Z) (k : Channel) : result RtcErr unit * Channel :=
  let k := k <| send_sample_rate := rate |> <| send_channels := channels |> in
  match run_calls (setup_calls rcs) (Engine.new_handle, vendor k) with
  | (Ok _, (h, v)) =>
      (Ok tt, k <| vendor := drop_engine (engine k) v |> <| engine := Some h |>
                <| frame_buffer := Some (Ring.new_ring blank 64) |>)
  | (Err _, s) => (Err RtcOther, k <| vendor := (Engine.destroy s).2 |>)
  end.

(** Errors of the three vendor calls are suppressed. *)
Definition leave (k : Channel) : Channel :=
  match engine k with
  | None => k
  | Some h =>
      let s := Engine.destroy (Engine.unregister_audio_observer (Engine.vendor_call 0 (h, vendor k)).2) in
      k <| engine := None |> <| frame_buffer := None |> <| vendor := s.2 |>
  end.

Definition joined (o : JoinOutcome) (k : Channel) : result RtcErr unit * Channel :=
  match o with
  | JoinResult rc => if rc =? 0 then (Ok tt, k) else (Err RtcError, leave k)
  | JoinTimeout => (Err RtcError, leave k)
  | JoinCancelled => (Err RtcCancelled, k)
  end.

Definition frame_size (k : Channel) : Z := (send_sample_rate k / 100) * send_channels k * 2.

(** [for off in range(0, len(pcm), frame_size)]: the frames, the last one padded. *)
Fixpoint slices (fuel : nat) (size : Z) (pcm : bytes) : list bytes :=
  match fuel, pcm with
  | O, _ | _, [] => []
  | S n, _ =>
      let f := take (Z.to_nat size) pcm in
      (f ++ zeros (size - zlen f)) :: slices n size (drop (Z.to_nat size) pcm)
  end.

(** One push per frame, until the vendor refuses one. *)
Fixpoint push_frames (rcs : nat -> Z) (i : nat) (rate channels ts : Z) (frames : list bytes) (s : Engine.st)
  : Engine.outcome * Engine.st :=
  match frames with
  | [] => (Ok tt, s)
  | f :: fs =>
      match Engine.push_external_audio (rcs i) f rate channels 2 (ts + 10 * Z.of_nat i) s with
      | (Ok _, s') => push_frames rcs (S i) rate channels ts fs s'
      | (Err e, s') => (Err e, s')
      end
  end.

Definition push_audio (rcs : nat -> Z) (pcm : bytes) (ts : Z) (k : Channel) : result RtcErr Z * Channel :=
  match engine k with
  | None => (Err RtcNotJoined, k)
  | Some h =>
      if (send_sample_rate k <=? 0) || (send_channels k <=? 0) then (Err RtcNotJoined, k)
      else match pcm with
      | [] => (Ok 0, k)
      | _ =>
          if frame_size k =? 0 then (Err RtcOther, k)          (* [range] with step 0 *)
          else
            match push_frames rcs 0 (send_sample_rate k) (send_channels k) ts
                    (slices (length pcm) (frame_size k) pcm) (h, vendor k) with
            | (Ok _, s) => (Ok 0, k <| vendor := s.2 |>)
            | (Err _, s) => (Err RtcError, k <| vendor := s.2 |>)
            end
      end
  end.

Definition drain_inbound_frames (n : nat) (k : Channel) : list PcmFrame * Channel :=
  match frame_buffer k with
  | None => ([], k)
  | Some r =>
      match Ring.drain moved n r with
      | Some (out, r') => (out, k <| frame_buffer := Some r' |>)
      | None => ([], k)
      end
  end.

(** The observer's callback on the vendor's thread. *)
Definition deliver (f : PcmFrame) (k : Channel) : Channel :=
  match frame_buffer k with
  | None => k
  | Some r => match Ring.push f r with Some (_, r') => k <| frame_buffer := Some r' |> | None => k end
  end.

Definition held (k : Channel) : bool := negb (bool_decide (Engine.v_live (vendor k) = ∅)).

(** One engine at a time, and the channel knows it. *)
Record wf (k : Channel) : Prop := {
  wf_handle : Engine.handle_inv (default Engine.new_handle (engine k), vendor k);
  wf_alive : forall h, engine k = Some h -> Engine.engine_ h <> None;
  wf_channels : send_channels k < MAX_CHANNELS;
  wf_buffer : match frame_buffer k with Some r => Ring.ring_wf r | None => True end }.

Lemma held_false k : held k = false <-> Engine.v_live (vendor k) = ∅.
Proof. unfold held. case_bool_decide; naive_solver. Qed.

Lemma not_held k : wf k -> held k = false -> engine k = None.
Proof.
  intros [[_ Hl _ _ _] Ha _ _] Hh%held_false. destruct (engine k) as [h|] eqn:He; [|done]. simpl in Hl.
  specialize (Ha h eq_refl). destruct (Engine.engine_ h); [set_solver|done].
Qed.

Lemma run_calls_inv (P : Engine.st -> Prop) calls s :
  Forall (fun c => forall s, P s -> P (c s).2) calls -> P s -> P (run_calls calls s).2.
Proof.
  intros Hc. revert s. induction Hc as [|c calls Hc _ IH]; intros s Hs; [done|]. simpl.
  specialize (Hc s Hs). destruct (c s) as [[u|e] s']; [by apply IH|done].
Qed.

Lemma setup_calls_inv rcs s : Engine.handle_inv s -> Engine.handle_inv (run_calls (setup_calls rcs) s).2.
Proof.
  apply run_calls_inv. unfold setup_calls. rewrite !Forall_cons, Forall_nil.
  split_and!; [intros s1..|done].
  - by apply (Engine.handle_op_inv (Engine.HCreate _)).
  - by apply (Engine.handle_op_inv (Engine.HListen _)).
  - by apply (Engine.handle_op_inv (Engine.HObserve _)).
  - by apply (Engine.handle_op_inv (Engine.HCall _)).
  - by apply (Engine.handle_op_inv (Engine.HSource _)).
  - by apply (Engine.handle_op_inv (Engine.HCall _)).
  - by apply (Engine.handle_op_inv (Engine.HCall _)).
  - by apply (Engine.handle_op_inv (Engine.HCall _)).
  - by apply (Engine.handle_op_inv (Engine.HCall _)).
Qed.

Lemma setup_calls_alive rcs v s u :
  run_calls (setup_calls rcs) (Engine.new_handle, v) = (Ok u, s) -> Engine.engine_ s.1 <> None.
Proof.
  change (setup_calls rcs) with (Engine.create (rcs 0%nat =? 0) :: drop 1 (setup_calls rcs)).
  cbn [run_calls Engine.create Engine.new_handle Engine.engine_]. destruct (rcs 0%nat =? 0); [|done].
  match goal with |- run_calls _ ?s0 = _ -> _ =>
    intros Hr; assert (Ha : Engine.engine_ (run_calls (drop 1 (setup_calls rcs)) s0).2.1 <> None); [|by rewrite Hr in Ha]
  end.
  apply (run_calls_inv (fun s => Engine.engine_ s.1 <> None)); [|done].
  unfold setup_calls. simpl drop. rewrite !Forall_cons, Forall_nil.
  split_and!; [..|done]; intros [[[e|] b] v0] He; try done; unfold Engine.set_event_listener, Engine.register_audio_observer,
    Engine.vendor_call, Engine.set_external_audio_source, Engine.with_alive; simpl; by repeat case_match.
Qed.

Lemma destroyed_fresh s :
  Engine.handle_inv s -> Engine.handle_inv (Engine.new_handle, (Engine.destroy s).2) /\ Engine.v_live (Engine.destroy s).2 = ∅.
Proof.
  intros Hi. destruct (Engine.destroy_spec s Hi) as ([Hu _ _ _ _] & _ & Hl & Ho & Hs & _).
  split; [by apply Engine.fresh_inv|done].
Qed.

Lemma setup_wf rcs r c k :
  c < MAX_CHANNELS -> wf k -> held k = false ->
  wf (setup rcs r c k).2 /\ ((setup rcs r c k).1 <> Ok tt -> held (setup rcs r c k).2 = false).
Proof.
  intros Hc Hw Hh. pose proof (not_held k Hw Hh) as He. destruct Hw as [Hi _ _ Hb]. rewrite He in Hi. simpl in Hi.
  pose proof (setup_calls_inv rcs _ Hi) as Hi'. unfold setup. cbn [vendor set_field Channel_eta].
  destruct (run_calls (setup_calls rcs) _) as [[u|e] [h v]] eqn:Hr; simpl in *.
  - split; [|by destruct u]. rewrite He. simpl. constructor; simpl; try done.
    + intros h' [= <-]. exact (setup_calls_alive _ _ _ _ Hr).
    + apply Ring.new_ring_wf. lia.
  - destruct (destroyed_fresh _ Hi') as [Hf Hl]. split; [|intros _; by apply held_false].
    constructor; simpl; rewrite ?He; done.
Qed.

Lemma leave_wf k : wf k -> wf (leave k) /\ held (leave k) = false.
Proof.
  intros Hw. pose proof Hw as [Hi Ha Hc Hb]. unfold leave. destruct (engine k) as [h|] eqn:He; simpl in Hi.
  - assert (Hi' : Engine.handle_inv (Engine.unregister_audio_observer (Engine.vendor_call 0 (h, vendor k)).2)).
    { by apply (Engine.handle_op_inv Engine.HUnobserve), (Engine.handle_op_inv (Engine.HCall 0)). }
    destruct (destroyed_fresh _ Hi') as [Hf Hl]. split; [|by apply held_false]. by constructor.
  - split; [done|]. apply held_false. by destruct Hi.
Qed.

Lemma push_frames_inv rcs i rate ch ts fs s :
  ch < MAX_CHANNELS -> Engine.handle_inv s ->
  Engine.handle_inv (push_frames rcs i rate ch ts fs s).2 /\ (push_frames rcs i rate ch ts fs s).2.1 = s.1.
Proof.
  unfold MAX_CHANNELS. intros Hc. revert i s. induction fs as [|f fs IH]; intros i s Hi; [done|]. cbn [push_frames].
  assert (Hok : Engine.op_ok (Engine.HPush (rcs i) f rate ch 2 (ts + 10 * Z.of_nat i)) = true)
    by (apply Z.ltb_lt; lia).
  pose proof (Engine.handle_op_inv _ s Hok Hi) as Hi'. simpl in Hi'.
  assert (Hh : (Engine.push_external_audio (rcs i) f rate ch 2 (ts + 10 * Z.of_nat i) s).2.1 = s.1).
  { unfold Engine.push_external_audio, Engine.with_alive. by repeat case_match. }
  destruct (Engine.push_external_audio _ _ _ _ _ _ s) as [[u|e] s']; simpl in *; [|done].
  destruct (IH (S i) s' Hi') as [? ->]. done.
Qed.

Lemma push_wf rcs p t k : wf k -> wf (push_audio rcs p t k).2 /\ held (push_audio rcs p t k).2 = held k.
Proof.
  intros Hw. pose proof Hw as [Hi Ha Hc Hb]. unfold push_audio. destruct (engine k) as [h|] eqn:He; [|done].
  simpl in Hi. destruct (_ || _); [done|]. destruct p as [|b p]; [done|]. destruct (_ =? 0); [done|].
  destruct (push_frames_inv rcs 0 (send_sample_rate k) (send_channels k) t
              (slices (length (b :: p)) (frame_size k) (b :: p)) (h, vendor k) Hc Hi) as [Hi' Hs].
  destruct (push_frames _ _ _ _ _ _ _) as [[u|e] [h' v]]; simpl in *; subst h'.
  all: split; [constructor; simpl; rewrite ?He; simpl; try done; by intros ? [= <-]; apply Ha|].
  all: unfold held; simpl; destruct Hi as [_ Hl _ _ _], Hi' as [_ Hl' _ _ _]; simpl in *; by rewrite Hl, Hl'.
Qed.

(** The ring buffer never fails the channel. *)
Lemma buffer_wf n f k :
  wf k -> wf (drain_inbound_frames n k).2 /\ wf (deliver f k)
  /\ held (drain_inbound_frames n k).2 = held k /\ held (deliver f k) = held k.
Proof.
  intros Hw. pose proof Hw as [Hi Ha Hc Hb]. unfold drain_inbound_frames, deliver.
  destruct (frame_buffer k) as [r|] eqn:Hr; [|done].
  destruct (Ring.drain_spec moved n r Hb) as (r1 & -> & Hw1 & _). destruct (Ring.push_spec f r Hb) as (r2 & -> & Hw2 & _).
  split_and!; try done; by constructor.
Qed.
End Pybind.

#[export] Program Instance pybind_channel : RtcChannel Pybind.Channel := {
  ch_setup := Pybind.setup; ch_joined := Pybind.joined; ch_leave := Pybind.leave;
  ch_push := Pybind.push_audio; ch_drain := Pybind.drain_inbound_frames; ch_deliver := Pybind.deliver;
  ch_held := Pybind.held; ch_wf := Pybind.wf; ch_joining := fun _ => True }.
Solve Obligations with done.
Next Obligation. intros. by apply Pybind.setup_wf. Qed.
Next Obligation.
  intros ok r c k k' e Hc Hw Hh Hs. destruct (Pybind.setup_wf ok r c k Hc Hw Hh) as [_ H]. rewrite Hs in H.
  by apply H.
Qed.
Next Obligation.
  intros [rc| |] k Hw; simpl; [destruct (rc =? 0)| |]; simpl; try done; by apply Pybind.leave_wf.
Qed.
Next Obligation.
  intros [rc| |] k k' e Hw _ Ho; simpl; [destruct (rc =? 0)| |done]; intros [= <- <-]; by apply Pybind.leave_wf.
Qed.
Next Obligation. intros. by apply Pybind.leave_wf. Qed.
Next Obligation. intros. by apply Pybind.leave_wf. Qed.
Next Obligation. intros. by apply Pybind.push_wf. Qed.
Next Obligation. intros. by apply Pybind.push_wf. Qed.
Next Obligation. intros n k Hw. by apply (Pybind.buffer_wf n Pybind.blank). Qed.
Next Obligation. intros n k Hw. by apply (Pybind.buffer_wf n Pybind.blank). Qed.
Next Obligation.
  intros n k Hw. unfold Pybind.drain_inbound_frames. destruct (Pybind.frame_buffer k) as [r|] eqn:Hr; simpl; [|lia].
  pose proof (Pybind.wf_buffer k Hw) as Hb. rewrite Hr in Hb.
  destruct (Ring.drain_spec Pybind.moved n r Hb) as (r1 & -> & _). simpl. rewrite length_take. lia.
Qed.
Next Obligation. intros f k Hw. by apply (Pybind.buffer_wf 0 f). Qed.
Next Obligation. intros f k Hw. by apply (Pybind.buffer_wf 0 f). Qed.

(** ** The future a join waits for *)
Module JoinFuture.

(** [wait_for] ends with the outcome of the future, its deadline or its canceller. *)
Record Waiting := mkWaiting {
  outcome : option JoinOutcome;
  scheduled : list Z;                     (* the loop's [fut.set_result] calls *)
  error_cb : option (list (Z * pystr));   (* what [set_on_error]'s callback was given *)
  reported : list Z }.                    (* the results the SDK gave, for the theorem *)

#[global] Instance Waiting_eta : Eta Waiting := fun w =>
  mkWaiting (outcome w) (scheduled w) (error_cb w) (reported w).

Definition new_waiting (cb : bool) : Waiting :=
  mkWaiting None [] (if cb then Some [] else None) [].

(** [_listener_on_join], on a thread of the SDK: the future is asked at once and set
    later, by the loop. *)
Definition listener_on_join (rc : Z) (w : Waiting) : Waiting :=
  let w := w <| reported ::= fun l => l ++ [rc] |> in
  match outcome w with None => w <| scheduled ::= fun l => l ++ [rc] |> | Some _ => w end.

(** A scheduled [set_result]; on a future that is done it raises into the loop's handler. *)
Definition set_result (w : Waiting) : Waiting :=
  match scheduled w with
  | [] => w
  | rc :: rcs =>
      let w := w <| scheduled := rcs |> in
      match outcome w with None => w <| outcome := Some (JoinResult rc) |> | Some _ => w end
  end.

Definition wait_over (cancelled : bool) (w : Waiting) : Waiting :=
  match outcome w with
  | None => w <| outcome := Some (if cancelled then JoinCancelled else JoinTimeout) |>
  | Some _ => w
  end.

(** [_listener_on_error] never touches the future. *)
Definition listener_on_error (code : Z) (message : pystr) (w : Waiting) : Waiting :=
  w <| error_cb ::= option_map (fun l => l ++ [(code, message)]) |>.

(** The in-memory double, on the loop. *)
Definition complete_join (rc : Z) (w : Waiting) : Waiting :=
  let w := w <| reported ::= fun l => l ++ [rc] |> in
  match outcome w with None => w <| outcome := Some (JoinResult rc) |> | Some _ => w end.

Definition force_join_error (code : Z) (message : pystr) (w : Waiting) : Waiting :=
  complete_join code (listener_on_error code message w).

Inductive wstep : Waiting -> Waiting -> Prop :=
| w_report rc w : wstep w (listener_on_join rc w)
| w_set w : wstep w (set_result w)
| w_over b w : wstep w (wait_over b w)
| w_error c m w : wstep w (listener_on_error c m w).

(** A join ends with the first result the SDK reported, however many it reports and
    whenever the loop gets to them; a late one is dropped. *)
Lemma join_takes_first_result cb w rc :
  rtc wstep (new_waiting cb) w -> outcome w = Some (JoinResult rc) -> head (reported w) = Some rc.
Proof.
  intros Hr. set (I := fun w : Waiting =>
    (outcome w = None -> scheduled w = reported w)
    /\ forall rc, outcome w = Some (JoinResult rc) -> head (reported w) = Some rc).
  enough (I w) as [_ H] by apply H.
  apply (rtc_invariant wstep I) with (x := new_waiting cb); [|done|by split]. clear w Hr.
  intros w w' [Hn Hs] Hst. destruct Hst as [r w|w|b w|c m w]; unfold I;
    unfold listener_on_join, set_result, wait_over, listener_on_error; simpl;
    destruct (outcome w) as [o|] eqn:Ho; simpl; rewrite ?Ho.
  - split; [done|]. intros ? [= ->]. specialize (Hs _ eq_refl). by destruct (reported w).
  - split; [|done]. intros _. by rewrite Hn.
  - destruct (scheduled w); simpl; rewrite ?Ho; split; done || apply Hs.
  - specialize (Hn eq_refl). destruct (scheduled w) eqn:Hsc; simpl; rewrite ?Ho; [by rewrite Hsc|].
    split; [done|]. intros ? [= <-]. by rewrite <-Hn.
  - by split.
  - split; [done|]. by destruct b.
  - by split.
  - by split.
Qed.
End JoinFuture.

(** ** The in-memory channel *)
Module InMemory.

Record Channel := mkMem {
  mem_joined : bool;
  inbound_frames : list PcmFrame;
  mem_pushed : list (bytes * Z);
  reject_next_push : bool;
  setup_calls : list (Z * Z) }.           (* rate and channels of each [setup_and_join] *)

#[global] Instance Channel_eta : Eta Channel := fun k =>
  mkMem (mem_joined k) (inbound_frames k) (mem_pushed k) (reject_next_push k) (setup_calls k).

Definition setup (rcs : nat -> Z) (rate channels : Z) (k : Channel) : result RtcErr unit * Channel :=
  (Ok tt, k <| setup_calls ::= fun l => l ++ [(rate, channels)] |>).

Definition joined (o : JoinOutcome) (k : Channel) : result RtcErr unit * Channel :=
  match o with
  | JoinResult rc => if rc =? 0 then (Ok tt, k <| mem_joined := true |>) else (Err RtcError, k)
  | JoinTimeout => (Err RtcTimeout, k)
  | JoinCancelled => (Err RtcCancelled, k)
  end.

Definition leave (k : Channel) : Channel := k <| mem_joined := false |>.

Definition push_audio (rcs : nat -> Z) (pcm : bytes) (ts : Z) (k : Channel) : result RtcErr Z * Channel :=
  if mem_joined k then
    if reject_next_push k then (Err RtcPushBackpressure, k <| reject_next_push := false |>)
    else (Ok 0, k <| mem_pushed ::= fun l => l ++ [(pcm, ts)] |>)
  else (Err RtcNotJoined, k).

Definition drain_inbound_frames (n : nat) (k : Channel) : list PcmFrame * Channel :=
  (take n (inbound_frames k), k <| inbound_frames := drop n (inbound_frames k) |>).

Definition inject_remote_pcm (f : PcmFrame) (k : Channel) : Channel :=
  k <| inbound_frames ::= fun l => l ++ [f] |>.
End InMemory.

#[export] Program Instance in_memory_channel : RtcChannel InMemory.Channel := {
  ch_setup := InMemory.setup; ch_joined := InMemory.joined; ch_leave := InMemory.leave;
  ch_push := InMemory.push_audio; ch_drain := InMemory.drain_inbound_frames;
  ch_deliver := InMemory.inject_remote_pcm; ch_held := InMemory.mem_joined; ch_wf := fun _ => True;
  ch_joining := fun k => InMemory.mem_joined k = false }.
Solve Obligations with done.
Next Obligation. by intros ok r c k k' u _ Hh [= _ <-]. Qed.
Next Obligation. intros [rc| |] k k' e _ Hj _; simpl; [destruct (rc =? 0)| |]; by intros [= <- <-]. Qed.
Next Obligation.
  intros f p t k. unfold InMemory.push_audio.
  destruct (InMemory.mem_joined k) eqn:Hj; [destruct (InMemory.reject_next_push k)|]; by rewrite <-?Hj.
Qed.
Next Obligation. intros n k. simpl. rewrite length_take. lia. Qed.

(** ** The session *)

(** The session's frame. *)
Record RtcFrame := mkFrame { fr_uid : pystr; fr_pcm : bytes; fr_rate : Z; fr_channels : Z; fr_ts : Z }.

Section Session.
  Context {K : Type} `{RtcChannel K}.

Inductive SPhase : Type := SIdle | SJoining | SJoined | SLeaving.

Record Session := mkSession {
  chan : K;
  sphase : SPhase;                        (* where [join] or [leave] is *)
  is_joined : bool;
  drainer : bool;                         (* [_drain_inbound_loop] is running *)
  inbound : list (option RtcFrame);       (* [None] is the sentinel *)
  inbound_size : nat;
  drained : list RtcFrame;                (* every frame drained so far *)
  got : list RtcFrame;                    (* the frames [audio_frames] yielded *)
  lost_frames : nat }.                    (* dropped on a full queue *)

#[export] Instance Session_eta : Eta Session := fun s =>
  mkSession (chan s) (sphase s) (is_joined s) (drainer s) (inbound s) (inbound_size s) (drained s)
    (got s) (lost_frames s).

Definition new_rtc_session (k : K) (size : nat) : Session := mkSession k SIdle false false [] size [] [] 0.

Definition join_begin (rcs : nat -> Z) (rate channels : Z) (s : Session) : result RtcErr unit * Session :=
  if is_joined s then (Err RtcError, s)
  else match ch_setup rcs rate channels (chan s) with
       | (Ok _, k) => (Ok tt, s <| chan := k |> <| sphase := SJoining |>)
       | (Err e, k) => (Err e, s <| chan := k |>)
       end.

Definition join_end (o : JoinOutcome) (s : Session) : result RtcErr unit * Session :=
  match ch_joined o (chan s) with
  | (Ok _, k) => (Ok tt, s <| chan := k |> <| sphase := SJoined |> <| is_joined := true |> <| drainer := true |>)
  | (Err e, k) => (Err e, s <| chan := k |> <| sphase := SIdle |>)
  end.

(** [leave] up to the sentinel; a session that is not joined returns at once. *)
Definition leave_begin (s : Session) : Session :=
  if is_joined s then
    s <| is_joined := false |> <| drainer := false |> <| chan ::= ch_leave |> <| sphase := SLeaving |>
  else s.

(** [await self._inbound.put(None)]: blocked while the queue is full. *)
Definition full (s : Session) : bool :=
  negb (inbound_size s =? 0)%nat && (inbound_size s <=? length (inbound s))%nat.

Definition leave_end (s : Session) : Session :=
  s <| inbound ::= fun q => q ++ [None] |> <| sphase := SIdle |>.

(** The drainer's reading of a raw frame. *)
Definition rtc_frame (f : PcmFrame) : RtcFrame :=
  mkFrame (pf_remote_uid f) (pf_pcm f) (pf_sample_rate f) (if pf_channels f =? 0 then 1 else pf_channels f)
    (pf_timestamp f).

Definition put_frame (f : RtcFrame) (s : Session) : Session :=
  let s := s <| drained ::= fun l => l ++ [f] |> in
  if full s then s <| lost_frames ::= S |> else s <| inbound ::= fun q => q ++ [Some f] |>.

(** One pass of [_drain_inbound_loop]. *)
Definition drain_pass (s : Session) : Session :=
  let '(fs, k) := ch_drain 8 (chan s) in
  foldl (fun s f => put_frame (rtc_frame f) s) (s <| chan := k |>) fs.

Definition push (rcs : nat -> Z) (pcm : bytes) (ts : Z) (s : Session) : result RtcErr unit * Session :=
  if is_joined s then
    match ch_push rcs pcm ts (chan s) with
    | (Ok rc, k) => (if rc =? 0 then Ok tt else Err RtcError, s <| chan := k |>)
    | (Err e, k) => (Err e, s <| chan := k |>)
    end
  else (Err RtcNotJoined, s).

Inductive sstep : Session -> Session -> Prop :=
| ss_join ok rate ch s : sphase s = SIdle -> ch < MAX_CHANNELS -> sstep s (join_begin ok rate ch s).2
| ss_joined o s : sphase s = SJoining -> o <> JoinCancelled -> sstep s (join_end o s).2
| ss_leave s : sphase s = SJoined -> sstep s (leave_begin s)
| ss_left s : sphase s = SLeaving -> full s = false -> sstep s (leave_end s)
| ss_drain s : drainer s = true -> sstep s (drain_pass s)
| ss_push f pcm ts s : sstep s (push f pcm ts s).2
| ss_get f q s : inbound s = Some f :: q -> sstep s (s <| inbound := q |> <| got ::= fun l => l ++ [f] |>)
| ss_stop q s : inbound s = None :: q -> sstep s (s <| inbound := q |>)
| ss_network f s : sstep s (s <| chan ::= ch_deliver f |>).

(** The vendor's resources are held only by a session that is joining or joined. *)
Record session_inv (s : Session) : Prop := {
  sv_wf : ch_wf (chan s);
  sv_held : match sphase s with SIdle | SLeaving => ch_held (chan s) = false | _ => True end;
  sv_joining : sphase s = SJoining -> ch_joining (chan s);
  sv_joined : is_joined s = match sphase s with SJoined => true | _ => false end;
  sv_drainer : drainer s = is_joined s;
  sv_order : got s ++ omap id (inbound s) `sublist_of` drained s;
  sv_count : length (drained s) = (length (got s) + length (omap id (inbound s)) + lost_frames s)%nat }.

Lemma put_frame_inv f s : session_inv s -> session_inv (put_frame f s).
Proof.
  intros [Hw Hh Hjg Hj Hd Ho Hc]. unfold put_frame. destruct (full _); constructor; try done; simpl.
  - by apply sublist_inserts_r.
  - rewrite length_app. simpl. lia.
  - rewrite omap_app, app_assoc. by apply sublist_app.
  - rewrite omap_app, !length_app. simpl. lia.
Qed.

Lemma drain_pass_inv s : session_inv s -> sphase s = SJoined -> session_inv (drain_pass s).
Proof.
  intros Hi Hp. unfold drain_pass. destruct (ch_drain 8 (chan s)) as [fs k] eqn:Hd.
  assert (H0 : session_inv (s <| chan := k |>)).
  { destruct Hi as [Hw Hh Hjg Hj Hdr Ho Hc]. constructor; try done; simpl.
    - pose proof (ch_drain_wf 8 _ Hw) as Hw'. by rewrite Hd in Hw'.
    - by rewrite Hp.
    - by rewrite Hp. }
  clear Hd. revert H0. generalize (s <| chan := k |>). induction fs as [|f fs IH]; intros s0 H0; simpl; [done|].
  apply IH. by apply put_frame_inv.
Qed.

Lemma sstep_inv s s' : session_inv s -> sstep s s' -> session_inv s'.
Proof.
  intros Hi Hs. pose proof Hi as [Hw Hh Hjg Hj Hd Ho Hc].
  destruct Hs as [ok rate ch s Hp Hmax|o s Hp Ho'|s Hp|s Hp Hf|s Hdr|f pcm ts s|f q s Hq|q s Hq|f s];
    try rewrite Hp in *.
  - unfold join_begin. rewrite Hj. pose proof (ch_setup_wf ok rate ch _ Hmax Hw Hh) as Hw'.
    destruct (ch_setup _ _ _ _) as [[u|e] k] eqn:Hs; constructor; simpl; try done.
    + intros _. exact (ch_setup_ok ok rate ch (chan s) k u Hw Hh Hs).
    + rewrite Hp. exact (ch_setup_fails ok rate ch (chan s) k e Hmax Hw Hh Hs).
    + by rewrite Hp.
    + by rewrite Hp.
  - unfold join_end. pose proof (ch_joined_wf o _ Hw) as Hw'. specialize (Hjg eq_refl).
    destruct (ch_joined _ _) as [[u|e] k] eqn:Hs; constructor; simpl; try done.
    exact (ch_joined_fails o (chan s) k e Hw Hjg Ho' Hs).
  - unfold leave_begin. rewrite Hj. constructor; simpl; try done; [by apply ch_leave_wf|by apply ch_left].
  - constructor; simpl; try done; [by rewrite omap_app, app_nil_r|].
    rewrite omap_app, app_nil_r. done.
  - apply drain_pass_inv; [done|]. rewrite Hdr in Hd. rewrite <-Hd in Hj. by destruct (sphase s).
  - unfold push. destruct (is_joined s) eqn:Hjo; [|done].
    pose proof (ch_push_wf f pcm ts _ Hw) as Hw'. pose proof (ch_push_held f pcm ts _ Hw) as Hh'.
    destruct (sphase s) eqn:Hp; try done.
    destruct (ch_push _ _ _ _) as [[rc|e] k]; constructor; simpl; rewrite ?Hp; congruence || done.
  - constructor; simpl; try done; rewrite Hq in *; simpl in *; [by rewrite <-app_assoc|].
    rewrite length_app, Hc. change (omap id q) with (list_omap (option RtcFrame) RtcFrame id q). simpl. lia.
  - constructor; simpl; try done; by rewrite Hq in *.
  - constructor; simpl; try done; [by apply ch_deliver_wf| |].
    + by rewrite ch_deliver_held.
    + intros Hp. by apply ch_deliver_joining, Hjg.
Qed.
End Session.


(** ** Outbound frames *)

Lemma slices_spec fuel size pcm :
  0 < size -> (length pcm <= fuel)%nat ->
  exists pad, concat (Pybind.slices fuel size pcm) = pcm ++ zeros pad /\ 0 <= pad < size
    /\ Forall (fun f => zlen f = size) (Pybind.slices fuel size pcm).
Proof.
  intros Hs. revert pcm. induction fuel as [|n IH]; intros [|b pcm] Hf; simpl in Hf; try lia;
    [exists 0; by split_and!..|].
  cbn [Pybind.slices concat]. set (l := b :: pcm) in *.
  assert (Hlen : zlen (take (Z.to_nat size) l) = Z.min size (zlen l)).
  { unfold zlen. rewrite length_take. lia. }
  assert (Hfull : zlen (take (Z.to_nat size) l ++ zeros (size - zlen (take (Z.to_nat size) l))) = size).
  { rewrite zlen_app. unfold zeros, zlen at 2. rewrite repeat_length. unfold zlen in *. lia. }
  destruct (decide (size < zlen l)) as [Hlt|Hge].
  - destruct (IH (drop (Z.to_nat size) l)) as (pad & Hcat & Hpad & Hall).
    { rewrite length_drop. unfold zlen in *. subst l. simpl in *. lia. }
    exists pad. rewrite Hcat. split_and!; try lia; [|by constructor].
    replace (size - zlen (take (Z.to_nat size) l)) with 0 by lia.
    unfold zeros at 1. simpl repeat. rewrite app_nil_r, app_assoc, take_drop. done.
  - assert (Hd : drop (Z.to_nat size) l = []) by (apply drop_ge; unfold zlen in *; lia).
    assert (Ht : take (Z.to_nat size) l = l) by (apply take_ge; unfold zlen in *; lia).
    rewrite Hd, Ht in *. exists (size - zlen l).
    assert (0 < zlen l) by (subst l; unfold zlen; simpl; lia).
    replace (Pybind.slices n size []) with (@nil bytes) by (by destruct n). simpl.
    rewrite app_nil_r. split_and!; [done|lia|lia|by constructor].
Qed.

(** The frames the vendor is given for audio that starts at [ts]. *)
Definition stamped (rate channels ts : Z) (i : nat) (frames : list bytes) : list AudioFrame :=
  imap (fun j f => mkAudio (Some f) (rate / 100) 2 channels rate (ts + 10 * Z.of_nat (i + j))) frames.

Lemma stamped_cons rate ch ts i f fs :
  stamped rate ch ts i (f :: fs)
  = mkAudio (Some f) (rate / 100) 2 ch rate (ts + 10 * Z.of_nat i) :: stamped rate ch ts (S i) fs.
Proof.
  unfold stamped. rewrite imap_cons. rewrite Nat.add_0_r. f_equal. apply imap_ext. intros j x _. simpl.
  do 3 f_equal. lia.
Qed.

Lemma push_frames_spec rcs i rate ch ts fs h e v :
  0 < rate -> 0 < ch < MAX_CHANNELS -> rate / 100 * ch * 2 < 2 ^ 31 ->
  Forall (fun f => zlen f = rate / 100 * ch * 2) fs ->
  Engine.engine_ h = Some e -> e ∈ Engine.v_live v ->
  exists n, (n <= length fs)%nat
    /\ (Pybind.push_frames rcs i rate ch ts fs (h, v)).2
       = (h, v <| Engine.v_pushed ::= fun l => l ++ take n (stamped rate ch ts i fs) |>)
    /\ ((Pybind.push_frames rcs i rate ch ts fs (h, v)).1 = Ok tt <-> n = length fs).
Proof.
  intros Hr Hc Hmax Hall He Hl. unfold MAX_CHANNELS in Hc. revert i v Hl.
  induction Hall as [|f fs Hf _ IH]; intros i v Hl.
  { exists 0%nat. split_and!; try done. simpl. rewrite app_nil_r. by destruct v. }
  assert (Hq : Z.quot (Engine.i32 (zlen f)) (2 * ch) = rate / 100).
  { assert (0 <= rate / 100) by (apply Z.div_pos; lia). rewrite Hf. unfold Engine.i32. rewrite Z.mod_small by nia.
    rewrite Z.add_simpl_r. replace (rate / 100 * ch * 2) with (rate / 100 * (2 * ch)) by lia. apply Z.quot_mul. lia. }
  cbn [Pybind.push_frames]. unfold Engine.push_external_audio, Engine.with_alive.
  replace ((ch <=? 0) || (2 <=? 0)) with false by (symmetry; apply orb_false_iff; split; apply Z.leb_gt; lia).
  replace (rate <=? 0) with false by (symmetry; apply Z.leb_gt; lia).
  replace (2 * ch <? 2 ^ 31) with true by (symmetry; apply Z.ltb_lt; lia).
  cbv zeta. rewrite Hq. cbn [fst snd]. rewrite He, (Engine.touch_live e v Hl). rewrite stamped_cons.
  destruct (rcs i =? 0).
  - destruct (IH (S i) (v <| Engine.v_pushed ::= fun l =>
                 l ++ [mkAudio (Some f) (rate / 100) 2 ch rate (ts + 10 * Z.of_nat i)] |>)) as (n & Hn & Hs & Hok); [done|].
    exists (S n). split_and!; [simpl; lia| |rewrite Hok; simpl; lia]. rewrite Hs. simpl. by rewrite <-app_assoc.
  - exists 0%nat. split_and!; [lia| |done]. simpl. rewrite app_nil_r. by destruct v.
Qed.

(** Audio pushed on a joined production channel reaches the vendor as it is: cut into
    frames of exactly ten milliseconds whose headers say so, whose concatenation is the
    audio followed by less than one frame of silence, stamped ten milliseconds apart from
    the given time; when the vendor refuses a frame the caller gets the error and exactly
    the frames before it were pushed. *)
Theorem pushed_audio_framed rcs pcm ts k h :
  Pybind.wf k -> Pybind.engine k = Some h -> 100 <= Pybind.send_sample_rate k -> 0 < Pybind.send_channels k ->
  Pybind.frame_size k < 2 ^ 31 ->
  exists frames pad n,
    concat frames = pcm ++ zeros pad /\ 0 <= pad < Pybind.frame_size k
    /\ Forall (fun f => zlen f = Pybind.frame_size k) frames
    /\ (n <= length frames)%nat
    /\ Engine.v_pushed (Pybind.vendor (Pybind.push_audio rcs pcm ts k).2)
       = Engine.v_pushed (Pybind.vendor k)
         ++ take n (stamped (Pybind.send_sample_rate k) (Pybind.send_channels k) ts 0 frames)
    /\ (Pybind.push_audio rcs pcm ts k).1 = (if decide (n = length frames) then Ok 0 else Err RtcError).
Proof.
  intros [Hi Ha Hch _] He Hr Hc Hmax. unfold Pybind.push_audio. rewrite He in *. simpl in Hi.
  replace ((Pybind.send_sample_rate k <=? 0) || (Pybind.send_channels k <=? 0)) with false
    by (symmetry; apply orb_false_iff; split; apply Z.leb_gt; lia).
  assert (Hsz : 0 < Pybind.frame_size k).
  { unfold Pybind.frame_size. assert (1 <= Pybind.send_sample_rate k / 100) by (apply Z.div_le_lower_bound; lia). nia. }
  destruct pcm as [|b pcm].
  { exists [], 0, 0%nat. split_and!; try done; [lia..|]. simpl. by rewrite app_nil_r. }
  destruct (slices_spec (length (b :: pcm)) (Pybind.frame_size k) (b :: pcm) Hsz ltac:(done))
    as (pad & Hcat & Hpad & Hall).
  replace (Pybind.frame_size k =? 0) with false by (symmetry; apply Z.eqb_neq; lia).
  set (frames := Pybind.slices _ _ _) in *.
  destruct (Engine.engine_ h) as [e|] eqn:Hh; [|by destruct (Ha h eq_refl)].
  destruct (push_frames_spec rcs 0 (Pybind.send_sample_rate k) (Pybind.send_channels k) ts frames h e (Pybind.vendor k))
    as (n & Hn & Hs & Hok); try done; try lia.
  { destruct Hi as [_ Hl _ _ _]. simpl in Hl. rewrite Hh in Hl. set_solver. }
  exists frames, pad, n. split_and!; try done; try lia.
  all: destruct (Pybind.push_frames _ _ _ _ _ _ _) as [[[]|c] [h' v']]; simpl in *; injection Hs as -> ->; try done.
  - by rewrite decide_True by (by apply Hok).
  - rewrite decide_False; [done|]. by intros ?%Hok.
Qed.

(** ** Where it falls short *)

(** A join cancelled while it waits for its result keeps the engine, and [leave] does
    nothing since the session never became joined. *)
Lemma cancelled_join_leaks_engine rate ch s :
  ch < MAX_CHANNELS -> is_joined s = false -> Pybind.wf (chan s) -> Pybind.held (chan s) = false ->
  let s1 := (join_begin (fun _ => 0) rate ch s).2 in
  let s2 := (join_end JoinCancelled s1).2 in
  leave_begin s2 = s2 /\ Pybind.held (chan s2) = true.
Proof.
  intros Hc Hj Hw Hh. unfold join_begin. rewrite Hj. simpl ch_setup.
  destruct (Pybind.setup_wf (fun _ => 0) rate ch (chan s) Hc Hw Hh) as [[[_ Hl _ _ _] Ha _ _] _].
  assert (Hok : (Pybind.setup (fun _ => 0) rate ch (chan s)).1 = Ok tt) by reflexivity.
  assert (He : is_Some (Pybind.engine (Pybind.setup (fun _ => 0) rate ch (chan s)).2)) by (eexists; reflexivity).
  destruct (Pybind.setup _ _ _ _) as [r k]. simpl in *. subst r. simpl.
  split; [unfold leave_begin; simpl; by rewrite Hj|]. destruct He as [h He]. specialize (Ha h He). rewrite He in Hl.
  simpl in Hl. unfold Pybind.held. simpl. rewrite bool_decide_false; [done|]. rewrite Hl.
  destruct (Engine.engine_ h); [set_solver|done].
Qed.

(** [leave] puts its sentinel with a blocking [put]: with the queue full and its consumer
    gone it never returns. *)
Lemma leave_blocks_on_full_queue `{RtcChannel K} (s s' : Session) :
  sphase s = SLeaving -> is_joined s = false -> drainer s = false -> full s = true -> sstep s s' ->
  inbound s' = inbound s -> sphase s' = SLeaving /\ full s' = true.
Proof.
  intros Hp Hj Hd Hf Hs Hin.
  destruct Hs as [ok rate ch s Hq _|o s Hq _|s Hq|s _ Hq|s Hdr|f pcm ts s|f q s Hq|q s Hq|f s]; try congruence.
  - unfold push. rewrite Hj. done.
  - simpl in Hin. rewrite Hq in Hin. apply (f_equal length) in Hin. simpl in Hin. lia.
  - simpl in Hin. rewrite Hq in Hin. apply (f_equal length) in Hin. simpl in Hin. lia.
  - done.
Qed.

(** ** Witnesses *)

Definition demo_frame : PcmFrame := mkPcm [1; 2] 16000 0 2 1 (u8 "edge") 7.

Definition demo_joined : Session (K := Pybind.Channel) :=
  (join_end (JoinResult 0) (join_begin (fun _ => 0) 16000 1 (new_rtc_session Pybind.new_channel 4)).2).2.

Definition demo_left : Session :=
  leave_end (leave_begin (drain_pass (demo_joined <| chan ::= ch_deliver demo_frame |>))).

Lemma demo_left_reached : rtc sstep (new_rtc_session Pybind.new_channel 4) demo_left.
Proof.
  eapply rtc_l; [by apply (ss_join (fun _ => 0) 16000 1)|]. eapply rtc_l; [by apply (ss_joined (JoinResult 0))|].
  eapply rtc_l; [apply (ss_network demo_frame)|]. eapply rtc_l; [by apply ss_drain|].
  eapply rtc_l; [by apply ss_leave|]. apply rtc_once. by apply ss_left.
Qed.

Lemma new_channel_wf : Pybind.wf Pybind.new_channel.
Proof. by constructor. Qed.


Definition demo_channel : Pybind.Channel := (Pybind.setup (fun _ => 0) 200 1 Pybind.new_channel).2.

Lemma demo_channel_wf : Pybind.wf demo_channel.
Proof. by apply Pybind.setup_wf; [|apply new_channel_wf|]. Qed.

Lemma pushed_audio_framed_witness :
  let k := demo_channel in
  exists frames pad n,
    concat frames = [1; 2; 3; 4; 5; 6] ++ zeros pad /\ 0 <= pad < 4
    /\ Forall (fun f => zlen f = 4) frames
    /\ (n <= length frames)%nat
    /\ Engine.v_pushed (Pybind.vendor (Pybind.push_audio (fun _ => 0) [1; 2; 3; 4; 5; 6] 50 k).2)
       = take n (stamped 200 1 50 0 frames)
    /\ (Pybind.push_audio (fun _ => 0) [1; 2; 3; 4; 5; 6] 50 k).1
       = (if decide (n = length frames) then Ok 0 else Err RtcError).
Proof.
  apply (pushed_audio_framed (fun _ => 0) [1; 2; 3; 4; 5; 6] 50 demo_channel
           (Engine.mkHandle (Some 0%nat) true) demo_channel_wf);
    [vm_compute; reflexivity|vm_compute; discriminate|vm_compute; reflexivity..].
Defined.
