(* ===== verification/Runner.v ===== *)
(** * The process: wiring, one call's run, operator commands

    [main.py], with what it drives: [event_publisher.py], the message loop of
    [event_consumer.py], [transport/hardware_alert_handler.py] and
    [cli/mint_rtc_token.py].  The runner of a call composes [Config], the provider factory
    and the client registry of [LlmClient] and [Providers]; an operator's command goes from
    the control channel ([Lifecycle]) over the session's bus to the call's task
    ([Listen]). *)
From stdpp Require Import pretty.
From S2P Require Import CloudEdge RtcTelephony Lifecycle.
From S2P Require Import Prelude Bytes Session EventBus Interruption Providers.
From S2P Require Import Orchestrator RunLoop Listen Config LlmClient RtcToken.
Import LlmClient.Factory.

(** ** Settings *)

Record Settings := mkSettings {
  database_url : pystr;
  redis_url : pystr;
  engine_llm_provider : pystr;
  engine_asr_provider : pystr;
  engine_tts_provider : pystr;
  engine_telephony_mode : pystr;
  engine_telephony_socket_path : pystr;
  engine_telephony_dial_timeout_s : Q;
  engine_cloud_edge_grpc_bind : pystr;
  engine_edge_device_id : pystr;
  engine_rtc_app_id : pystr;
  engine_rtc_app_key : pystr;
  engine_rtc_sdk_kind : pystr;
  engine_edge_token_jwt_secret : pystr;
  engine_pipeline_default_timeout_ms : Z;
  engine_mock_connect_delay_ms : Z;
  engine_graceful_shutdown_timeout_s : Z;
  engine_grpc_send_timeout_s : Q;
  engine_dial_queue : pystr;
  engine_dlq : pystr;
  engine_call_ended_queue : pystr;
  engine_concurrency_key : pystr;
  engine_token_budget_per_call : Z;
  volcengine_tts_voice_id_default : pystr;
  credentials_required : bool;
  live_provider_tests : bool }.

(** The settings of an environment that sets only the two addresses without a default. *)
Definition default_settings (database_url redis_url : pystr) : Settings :=
  mkSettings database_url redis_url (u8 "mock") (u8 "mock") (u8 "mock") (u8 "mock")
    (u8 "/var/run/isales/modem.sock") 60 (u8 "0.0.0.0:50051") [] [] [] (u8 "vendor") []
    8000 200 30 5 (u8 "engine:dial") (u8 "engine:dlq") (u8 "engine:worker:call-ended")
    (u8 "isales:concurrency:active") 50000 (u8 "BV001_streaming") true false.

(** ** Telephony *)

Inductive RtcSdk : Type := Vendor | InMemorySdk.

Inductive Telephony : Type :=
| TelMock (connect_delay_ms : Z)
| TelReal (socket_path : pystr) (dial_timeout_s : Q)
| TelRtc (edge_device_id : pystr) (sdk : RtcSdk).

Inductive WireError : Type := RuntimeError | NotWired | SystemExit | BadValue.

(** [RtcTokenIssuer.__init__]. *)
Definition new_issuer (settings : Settings) : result WireError unit :=
  match engine_rtc_app_id settings, engine_rtc_app_key settings with
  | [], _ | _, [] => Err BadValue
  | _, _ => Ok tt
  end.

(** The dispatcher and the gRPC server of the rtc mode. *)
Abbreviation GrpcServer := (CloudEdge.Listener.CloudEdgeGrpcServer (Msg := RtcTelephony.Cloud2Edge)
                              (Credentials := unit)).
Abbreviation Transport := (CloudEdge.Dispatcher.Dispatcher * GrpcServer)%type.

Definition build_telephony (settings : Settings) (transport : option Transport) : result WireError Telephony :=
  let mode := engine_telephony_mode settings in
  if decide (mode = u8 "mock") then Ok (TelMock (engine_mock_connect_delay_ms settings))
  else if decide (mode = u8 "real") then
    Ok (TelReal (engine_telephony_socket_path settings) (engine_telephony_dial_timeout_s settings))
  else if decide (mode = u8 "rtc") then
    if transport is Some _ then
      let? _ := new_issuer settings in
      if decide (engine_rtc_sdk_kind settings = u8 "vendor") then
        Ok (TelRtc (engine_edge_device_id settings) Vendor)
      else if decide (engine_rtc_sdk_kind settings = u8 "in_memory") then
        Ok (TelRtc (engine_edge_device_id settings) InMemorySdk)
      else Err RuntimeError
    else Err RuntimeError
  else Err NotWired.

(** [_build_rtc_transport]: the dispatcher with its two process-wide callbacks, and the server,
    listening.  [bound] and [started] are grpc's answers to the address and to the start. *)
Definition build_rtc_transport (settings : Settings) (bound started : bool) : result WireError Transport :=
  match engine_edge_token_jwt_secret settings with
  | [] => Err RuntimeError
  | _ =>
      match CloudEdge.Listener.start (engine_cloud_edge_grpc_bind settings) None bound started
              CloudEdge.Listener.new_grpc_server with
      | (Ok _, grpc_server) => Ok (CloudEdge.Dispatcher.mkDispatcher ∅ true true, grpc_server)
      | (Err _, _) => Err RuntimeError
      end
  end.

(** ** Credentials *)

(** [CredentialStore.from_db]: the store, or a failure of the cipher or the database. *)
Inductive FromDb : Type := Loaded (s : store_get) | CryptoFailed | DbFailed.

Definition empty_store : store_get := fun _ _ => None.

Definition load_credentials (settings : Settings) (r : FromDb) : result WireError store_get :=
  match r with
  | Loaded s => Ok s
  | CryptoFailed | DbFailed =>
      if credentials_required settings then Err SystemExit else Ok empty_store
  end.

(** What [_main] has built when it starts its consumers.  Beside it the transport, which
    nothing takes back when a later step raises. *)
Record Engine := mkEngine { en_telephony : Telephony; en_store : store_get; en_transport : option Transport }.

Definition main_setup (settings : Settings) (bound started : bool) (db : FromDb)
  : result WireError Engine * option Transport :=
  match (if decide (engine_telephony_mode settings = u8 "rtc") then
           let? t := build_rtc_transport settings bound started in Ok (Some t)
         else Ok None) with
  | Err e => (Err e, None)
  | Ok transport =>
      ((let? telephony := build_telephony settings transport in
        let? credentials := load_credentials settings db in
        Ok (mkEngine telephony credentials transport)), transport)
  end.

(** ** One call *)

(** A chat client with its identity: the slot it was built for, [None] for the call's
    default client. *)
Abbreviation tagged := (option (pystr * option pystr) * LLMClient)%type.

Inductive Resource : Type := RLlm (c : tagged) | RTts.

Definition tagged_build (store : option store_get) (p : pystr) (m : option pystr) : result bool tagged :=
  match build_llm p store m with Ok c => Ok (Some (p, m), c) | Err _ => Err true end.

(** The clients the registry builds while it resolves the slots of a call. *)
Fixpoint built (store : option store_get) (slots : list (option pystr * option pystr))
  (r : Registry.LLMRegistry) : list tagged :=
  match slots with
  | [] => []
  | (p, m) :: slots' =>
      let new := match p with
                 | Some ((_ :: _) as p) =>
                     match Registry.lookup_client (p, m) (Registry.cache r), tagged_build store p m with
                     | None, Ok c => [c]
                     | _, _ => []
                     end
                 | _ => []
                 end in
      match Registry.resolve (tagged_build store) p m r with
      | Ok (_, r') => new ++ built store slots' r'
      | Err _ => new
      end
  end.

Inductive RunEnd : Type := NotStarted | Ran (raised : bool).

Record CallRun := mkRunOf {
  ru_end : RunEnd;
  ru_phone : pystr;
  ru_config : option RuntimeConfig;
  ru_device_hint : option (Z * Z);
  ru_opened : list Resource;
  ru_closed : list Resource }.

Section Run.
  Context (load : DialRequest -> result PyErr RuntimeConfig)          (* [load_runtime_config] *)
    (settings : Settings) (telephony : Telephony) (store : option store_get)
    (tts_ok : bool).                                                   (* whether [build_tts] succeeds *)

Definition NO_LEAD_PHONE : pystr := u8 "+0000000000".

(** The request rebuilt from the session. *)
Definition request_of (lead : option LeadRow) (lead_id campaign_id : Z) : DialRequest :=
  mkRequest campaign_id lead_id (match lead with Some l => lr_name l | None => None end)
    (match lead with Some l => lr_phone l | None => NO_LEAD_PHONE end)
    (match lead with Some l => lr_custom_data l | None => [] end) [].

(** [getattr(telephony, "set_device_for_session", None)]. *)
Definition takes_hint : bool := match telephony with TelMock _ => false | _ => true end.

(** [_run].  [snapshot_ok] is whether the session's snapshot validates; [slots] are the
    slots the pipeline resolves while [run_session] runs and [raises] whether it raises. *)
Definition run_call (lead : option LeadRow) (s : CallSession) (snapshot_ok : bool)
  (slots : list (option pystr * option pystr)) (raises : bool) : CallRun :=
  let request := request_of lead (lead_id s) (campaign_id s) in
  let phone := rq_phone request in
  if negb snapshot_ok then mkRunOf NotStarted phone None None [] []
  else match load request with
  | Err _ => mkRunOf NotStarted phone None None [] []
  | Ok runtime =>
      match build_llm (engine_llm_provider settings) store None with
      | Err _ => mkRunOf NotStarted phone (Some runtime) None [] []
      | Ok default_llm =>
          let dflt : tagged := (None, default_llm) in
          match build_asr (engine_asr_provider settings) store (Some (rc_asr_partial_stable_s runtime)) with
          | Err _ => mkRunOf NotStarted phone (Some runtime) None [RLlm dflt] []
          | Ok _ =>
              if negb tts_ok then mkRunOf NotStarted phone (Some runtime) None [RLlm dflt] []
              else
                let r0 := Registry.mkRegistry dflt [] in
                let r := match resolve_all (tagged_build store) slots r0 with
                         | Ok (_, r) => r
                         | Err _ => r0
                         end in
                mkRunOf (Ran raises) phone (Some runtime)
                  (if takes_hint then Some (call_record_id s, device_id s) else None)
                  (RLlm dflt :: RTts :: map RLlm (built store slots r0))
                  (RTts :: map RLlm (Registry.aclose_all r))
          end
      end
  end.
End Run.

(** The transport is built exactly when the shared secret is set and grpc could bind and
    start; the server then accepts edges on the configured address, its registry empty. *)
Lemma rtc_transport_built settings bound started :
  match build_rtc_transport settings bound started with
  | Ok (d, srv) =>
      engine_edge_token_jwt_secret settings <> [] /\ bound = true /\ started = true
      /\ CloudEdge.Listener.accepting srv = true
      /\ CloudEdge.Listener.registry srv = CloudEdge.Grpc.server_init
      /\ CloudEdge.Dispatcher.heartbeat_cb d = true /\ CloudEdge.Dispatcher.hardware_alert_cb d = true
  | Err _ => engine_edge_token_jwt_secret settings = [] \/ bound = false \/ started = false
  end.
Proof.
  unfold build_rtc_transport, CloudEdge.Listener.start. simpl.
  destruct (engine_edge_token_jwt_secret settings), bound, started; simpl; auto; [].
  split_and!; (reflexivity || discriminate).
Qed.

(** The engine starts on RTC telephony exactly when the shared secret and the RTC
    credentials are set, the server could be started, the SDK kind is one of the two, and
    the provider credentials were read or are not required. *)
Lemma rtc_engine_starts settings bound started db :
  engine_telephony_mode settings = u8 "rtc" ->
  (exists en, (main_setup settings bound started db).1 = Ok en)
  <-> engine_edge_token_jwt_secret settings <> [] /\ bound = true /\ started = true
      /\ engine_rtc_app_id settings <> [] /\ engine_rtc_app_key settings <> []
      /\ (engine_rtc_sdk_kind settings = u8 "vendor" \/ engine_rtc_sdk_kind settings = u8 "in_memory")
      /\ ((exists st, db = Loaded st) \/ credentials_required settings = false).
Proof.
  intros Hm. unfold main_setup, build_telephony, new_issuer.
  rewrite Hm, decide_True by done.
  pose proof (rtc_transport_built settings bound started) as Ht.
  destruct (build_rtc_transport settings bound started) as [[d srv]|e]; cbn [rbind fst];
    [rewrite !decide_False, decide_True by done|].
  2: { split; [by intros [? ?]|]. intros (?&?&?&_). naive_solver. }
  destruct Ht as (Hs & Hb & Hst & _).
  destruct (engine_rtc_app_id settings), (engine_rtc_app_key settings); cbn [rbind fst];
    try (split; [by intros [? ?]|intros (?&?&?&?&?&_); done]).
  assert (Hdb : (exists st, load_credentials settings db = Ok st)
                <-> (exists st, db = Loaded st) \/ credentials_required settings = false).
  { unfold load_credentials. destruct db as [st| |], (credentials_required settings);
      split; try (intros [? [=]]; fail); try (by right); try (by eexists); try (by left; eexists);
      intros [[? [=]]|[=]]. }
  revert Hdb. generalize (load_credentials settings db).
  intros r Hdb. case_decide as Hv; [|case_decide as Hi]; cbn [rbind fst].
  3: { split; [by intros [? [=]]|]. by intros (_&_&_&_&_&[H|H]&_). }
  all: rewrite <-Hdb; destruct r; cbn [rbind];
    (split; [intros [? H]|by intros (_&_&_&_&_&_&[? [=]]); eexists]); try discriminate H;
    (split_and!; [done|done|done|discriminate..|by (left + right)|by eexists]).
Qed.

(** A setup that fails after the transport was built leaves the server accepting edges. *)
Lemma failed_setup_keeps_server settings db e :
  engine_telephony_mode settings = u8 "rtc" -> engine_edge_token_jwt_secret settings <> [] ->
  (main_setup settings true true db).1 = Err e ->
  exists d srv, (main_setup settings true true db).2 = Some (d, srv) /\ CloudEdge.Listener.accepting srv = true.
Proof.
  intros Hm Hs _. unfold main_setup. rewrite decide_True by done.
  pose proof (rtc_transport_built settings true true) as Ht.
  destruct (build_rtc_transport settings true true) as [[d srv]|]; cbn [rbind fst snd].
  - exists d, srv. split; [done|apply Ht].
  - destruct Ht as [?|[?|?]]; done.
Qed.

(** *** What a run opens it closes *)

(** A registry and the clients built for it so far. *)
Record registry_inv (r : Registry.LLMRegistry) (log : list tagged) : Prop := {
  ri_default : (Registry.default_client r).1 = None;
  ri_cached : forall c, c ∈ (Registry.cache r).*2 -> c = Registry.default_client r \/ c ∈ log;
  ri_logged : forall c, c ∈ log -> c ∈ (Registry.cache r).*2
                /\ exists k, c.1 = Some k /\ Registry.lookup_client k (Registry.cache r) <> None;
  ri_nodup : NoDup log }.

Lemma lookup_snoc_some {C} k k' (c : C) l :
  Registry.lookup_client k l <> None \/ k' = k -> Registry.lookup_client k (l ++ [(k', c)]) <> None.
Proof.
  rewrite lookup_client_snoc. destruct (Registry.lookup_client k l); [done|].
  intros [[]| ->]; [done|]. by rewrite decide_True.
Qed.

(** One resolution: it succeeds, and a client is logged exactly when one is built. *)
Lemma resolve_registry store p m r log :
  registry_inv r log ->
  exists c r' new, Registry.resolve (tagged_build store) p m r = Ok (c, r')
    /\ registry_inv r' (log ++ new) /\ Registry.default_client r' = Registry.default_client r
    /\ forall slots, built store ((p, m) :: slots) r = new ++ built store slots r'.
Proof.
  intros Hi. pose proof Hi as [Hd Hc Hl Hn]. cbn [built]. unfold Registry.resolve.
  destruct p as [[|ch p]|]; [eexists _, r, []; rewrite app_nil_r; by split_and!| |
    eexists _, r, []; rewrite app_nil_r; by split_and!].
  destruct (Registry.lookup_client (ch :: p, m) (Registry.cache r)) as [c|] eqn:Hlk.
  { eexists _, r, []. rewrite app_nil_r. split_and!; [done|done|done|]. done. }
  unfold tagged_build. destruct (build_llm (ch :: p) store m) as [c|e].
  - set (b := (Some (ch :: p, m), c) : tagged). eexists _, _, [b]. split_and!; [done| |done|done].
    constructor; simpl; [done|..].
    + intros x. rewrite fmap_app. rewrite !elem_of_app. simpl. set_solver.
    + intros x [Hx|Hx%list_elem_of_singleton]%elem_of_app.
      * destruct (Hl x Hx) as (Hin & k & Hk & Hlook). split; [rewrite fmap_app; set_solver|].
        exists k. split; [done|]. apply lookup_snoc_some. by left.
      * subst x. split; [rewrite fmap_app; set_solver|]. exists (ch :: p, m). split; [done|].
        apply lookup_snoc_some. by right.
    + apply NoDup_app. split_and!; [done| |apply NoDup_singleton].
      intros x Hx Hb%list_elem_of_singleton. subst x. destruct (Hl b Hx) as (_ & k & [= <-] & Hk). done.
  - eexists _, _, []. rewrite app_nil_r. split_and!; [done| |done|done].
    constructor; simpl; try done.
    + intros x. rewrite fmap_app, elem_of_app. simpl. set_solver.
    + intros x Hx. destruct (Hl x Hx) as (Hin & k & Hk & Hlook). split; [rewrite fmap_app; set_solver|].
      exists k. split; [done|]. apply lookup_snoc_some. by left.
Qed.

Lemma resolve_all_registry store slots r log :
  registry_inv r log ->
  exists cs r', resolve_all (tagged_build store) slots r = Ok (cs, r')
    /\ registry_inv r' (log ++ built store slots r)
    /\ Registry.default_client r' = Registry.default_client r.
Proof.
  revert r log. induction slots as [|[p m] slots IH]; intros r log Hi.
  - exists [], r. simpl. by rewrite app_nil_r.
  - destruct (resolve_registry store p m r log Hi) as (c & r1 & new & Hr & Hi1 & Hd1 & Hb).
    destruct (IH r1 _ Hi1) as (cs & r2 & Hr2 & Hi2 & Hd2). exists (c :: cs), r2.
    cbn [resolve_all]. rewrite Hb, Hr. cbn [rbind]. rewrite Hr2. cbn [rbind].
    rewrite <-app_assoc in Hi2. split_and!; [done|done|congruence].
Qed.

Lemma aclose_all_registry r log :
  registry_inv r log -> Registry.aclose_all r ≡ₚ Registry.default_client r :: log.
Proof.
  intros [Hd Hc Hl Hn]. unfold Registry.aclose_all. apply NoDup_Permutation.
  - apply NoDup_remove_dups.
  - apply NoDup_cons. split; [|done]. intros Hin. destruct (Hl _ Hin) as (_ & k & Hk & _). congruence.
  - intros x. rewrite elem_of_remove_dups, !elem_of_cons. split.
    + intros [->|Hx]; [by left|]. by apply Hc.
    + intros [->|Hx]; [by left|]. right. by apply Hl.
Qed.

(** C29: Once a call's session runs, everything opened for it is released, whatever the session
    raises: the clients closed at the end are exactly the synthesiser, the default chat
    client and every client the registry built for a slot, each closed once, however
    often and in whatever order the slots were resolved and whichever fell back. *)
Theorem run_releases_clients load settings telephony store tts_ok lead s snapshot_ok slots raises run :
  run = run_call load settings telephony store tts_ok lead s snapshot_ok slots raises ->
  ru_end run <> NotStarted ->
  ru_closed run ≡ₚ ru_opened run /\ NoDup (ru_closed run) /\ ru_end run = Ran raises.
Proof.
  intros ->. unfold run_call. destruct (negb snapshot_ok); [done|]. destruct (load _); [|done].
  destruct (build_llm _ _ _) as [d|]; [|done]. destruct (build_asr _ _ _); [|done].
  destruct (negb tts_ok); [done|]. intros _.
  set (r0 := Registry.mkRegistry ((None, d) : tagged) []).
  assert (Hi : registry_inv r0 []) by (constructor; [done|intros c Hc; by apply not_elem_of_nil in Hc..|constructor]).
  destruct (resolve_all_registry store slots r0 [] Hi) as (cs & r & -> & Hr & Hd).
  pose proof (aclose_all_registry _ _ Hr) as Hp. rewrite Hd in Hp. simpl in *. split_and!; [| |done].
  - rewrite Hp. simpl. apply perm_swap.
  - apply NoDup_cons. split.
    + rewrite list_elem_of_fmap. by intros (c & ? & _).
    + apply NoDup_fmap; [by intros ? ? [= ->]|]. apply NoDup_remove_dups.
Qed.

(** The request a runner rebuilds has no history, so no call is ever configured as a
    follow-up, whatever the dial message said. *)
Lemma follow_up_never_configured kind_value other_str other_dict dt dp pr mo compile int_of rule_other limit db lead s rc0 :
  load_runtime_config kind_value other_str other_dict dt dp pr mo compile int_of rule_other limit db
    (request_of lead (lead_id s) (campaign_id s)) = Ok rc0 ->
  pc_follow_up_count (rc_pipeline rc0) = 0 /\ pc_last_call_summary (rc_pipeline rc0) = None.
Proof.
  unfold load_runtime_config. destruct (List.find _ _) as [c|]; [|done]. intros H. ok_steps.
  injection H as <-. simpl. unfold load_pipeline in *. ok_steps. by simplify_eq.
Qed.

(** When the recogniser or the synthesiser cannot be built the default chat client stays
    open. *)
Lemma failed_build_leaks_client load settings telephony store tts_ok lead s slots raises runtime d e :
  load (request_of lead (lead_id s) (campaign_id s)) = Ok runtime ->
  build_llm (engine_llm_provider settings) store None = Ok d ->
  build_asr (engine_asr_provider settings) store (Some (rc_asr_partial_stable_s runtime)) = Err e ->
  let run := run_call load settings telephony store tts_ok lead s true slots raises in
  ru_end run = NotStarted /\ ru_opened run = [RLlm (None, d)] /\ ru_closed run = [].
Proof. intros Hl Hb Ha. unfold run_call. simpl. by rewrite Hl, Hb, Ha. Qed.

(** ** Operator commands *)

(** A message of the subscription: [None] when nothing came within the timeout. *)
Inductive RedisData : Type := DStr (s : pystr) | DBytes (decoded : option pystr) | DOther.

Record RedisMessage := mkMsg { rm_type : pystr; rm_data : RedisData }.

(** The text [_dispatch] is given; bytes that are no UTF-8 raise out of the loop. *)
Inductive Taken : Type := TSkip | TText (s : pystr) | TRaise.

Definition take_message (m : option RedisMessage) : Taken :=
  match m with
  | None => TSkip
  | Some m =>
      if decide (rm_type m = u8 "pmessage") then
        match rm_data m with
        | DStr s | DBytes (Some s) => TText s
        | DBytes None => TRaise
        | DOther => TSkip
        end
      else if decide (rm_type m = u8 "message") then
        match rm_data m with
        | DStr s | DBytes (Some s) => TText s
        | DBytes None => TRaise
        | DOther => TSkip
        end
      else TSkip
  end.

(** What [_on_manual_hangup] and [_on_transfer] post. *)
Definition event_of (p : Lifecycle.ControlPost) : Event :=
  match p with
  | Lifecycle.ManualHangupRequested operator => ManualHangupRequested operator
  | Lifecycle.TransferRequested agent => TransferRequested (Some (u8 agent))
  end.

(** One message of the control channel, on the listening parts of the live calls. *)
Definition control_message (validate : pystr -> option Lifecycle.Control) (m : option RedisMessage)
  (w : Lifecycle.World) (calls : gmap Z Listener) : gmap Z Listener :=
  match take_message m with
  | TText raw =>
      match Lifecycle.dispatch validate raw w with
      | Some (cid, post) => alter (control (event_of post)) cid calls
      | None => calls
      end
  | _ => calls
  end.

Definition begun (l : Listener) : Listener :=
  match phase l with Preamble => begin_session l | _ => l end.


(** ** Status events *)
Module Publisher.

(** The publisher: the tasks in flight and what Redis accepted, by channel. *)
Record EventPublisher := mkPublisher {
  inflight : gmap nat (pystr * pystr);    (* task, with its channel and payload *)
  next_task : nat;
  accepted_msgs : list (nat * (pystr * pystr)) }.

#[export] Instance EventPublisher_eta : Eta EventPublisher := fun p =>
  mkPublisher (inflight p) (next_task p) (accepted_msgs p).

Definition new_publisher : EventPublisher := mkPublisher ∅ 0 [].

Definition channel_of (campaign_id : Z) : pystr := u8 "engine:events:campaign:" ++ u8 (pretty campaign_id).

(** [publish] only schedules the task. *)
Definition publish (campaign_id : Z) (payload : pystr) (p : EventPublisher) : EventPublisher :=
  p <| inflight ::= <[next_task p := (channel_of campaign_id, payload)]> |> <| next_task ::= S |>.

(** The end of [_publish]: Redis took the message, or the timeout, an error of Redis or of
    the serialiser ended the task; its done-callback discards it. *)
Definition task_done (t : nat) (sent : bool) (p : EventPublisher) : EventPublisher :=
  match inflight p !! t with
  | None => p
  | Some m => p <| inflight ::= delete t |>
                <| accepted_msgs ::= fun l => if sent then l ++ [(t, m)] else l |>
  end.

Inductive pstep : EventPublisher -> EventPublisher -> Prop :=
| ps_publish campaign payload p : pstep p (publish campaign payload p)
| ps_done t sent p : is_Some (inflight p !! t) -> pstep p (task_done t sent p).

(** [drain] waits for the tasks in flight when it is called. *)
Definition drained (waiting : gset nat) (p : EventPublisher) : Prop := dom (inflight p) ## waiting.

Definition pub_inv (p : EventPublisher) : Prop :=
  (forall t, t ∈ dom (inflight p) -> (t < next_task p)%nat)
  /\ (forall t, t ∈ (accepted_msgs p).*1 -> (t < next_task p)%nat /\ t ∉ dom (inflight p))
  /\ NoDup (accepted_msgs p).*1.

Lemma pstep_inv p p' : pub_inv p -> pstep p p' -> pub_inv p'.
Proof.
  intros (Hlt & Ha & Hn) Hs. destruct Hs as [c m p|t sent p [msg Ht]]; unfold pub_inv; simpl.
  - split_and!; [|intros t Ht; destruct (Ha t Ht) as [? ?]|done].
    + intros t. rewrite dom_insert_L. intros [->%elem_of_singleton|Ht]%elem_of_union; [lia|].
      specialize (Hlt t Ht). lia.
    + split; [lia|]. rewrite dom_insert_L. set_unfold. intros [->|?]; [lia|done].
  - unfold task_done. rewrite Ht. simpl.
    assert (Htd : t ∈ dom (inflight p)) by (by apply elem_of_dom_2 in Ht).
    destruct sent; simpl; rewrite ?fmap_app; split_and!.
    + intros x. rewrite dom_delete_L. set_unfold. intros [? _]. by apply Hlt.
    + intros x. rewrite dom_delete_L. simpl. rewrite elem_of_app, list_elem_of_singleton.
      intros [Hx| ->]; [destruct (Ha x Hx); set_solver|]. split; [by apply Hlt|set_solver].
    + apply NoDup_app. split_and!; [done| |apply NoDup_singleton].
      intros x Hx Hxt%list_elem_of_singleton. simpl in Hxt. subst x. by destruct (Ha t Hx).
    + intros x. rewrite dom_delete_L. set_unfold. intros [? _]. by apply Hlt.
    + intros x Hx. rewrite dom_delete_L. destruct (Ha x Hx). set_solver.
    + done.
Qed.

(** No status event is published twice, and [drain] always returns: whatever is in flight
    ends, by the budget of each task if not before, while later publishes do not hold
    it up. *)
Lemma drain_returns p :
  rtc pstep new_publisher p ->
  NoDup (accepted_msgs p).*1
  /\ exists p', rtc pstep p p' /\ drained (dom (inflight p)) p' /\ next_task p' = next_task p.
Proof.
  intros Hr. assert (Hi : pub_inv p).
  { eapply rtc_invariant; [apply pstep_inv|exact Hr|]. split_and!; [set_solver..|constructor]. }
  split; [apply Hi|]. clear Hr Hi.
  assert (Hall : forall (m : gmap nat (pystr * pystr)) p0, inflight p0 = m ->
    exists p', rtc pstep p0 p' /\ inflight p' = ∅ /\ next_task p' = next_task p0).
  { intros m. induction m as [|t x m Ht IH] using map_ind; intros p0 Hp.
    - by exists p0.
    - set (p1 := task_done t false p0).
      assert (Hlk : inflight p0 !! t = Some x) by (rewrite Hp; apply lookup_insert_eq).
      assert (Hp1 : inflight p1 = m).
      { subst p1. unfold task_done. rewrite Hlk. simpl. rewrite Hp. by apply delete_insert_id. }
      destruct (IH p1 Hp1) as (p2 & Hr2 & He2 & Hn2). exists p2. split_and!; [|done|].
      + eapply rtc_l; [apply (ps_done t false); by eexists|exact Hr2].
      + rewrite Hn2. subst p1. unfold task_done. by rewrite Hlk. }
  destruct (Hall _ p eq_refl) as (p' & Hp' & He & Hn). exists p'. split_and!; [done| |done].
  unfold drained. rewrite He. set_solver.
Qed.
End Publisher.

(** ** Hardware alerts *)
Module Alerts.

Inductive AlertKind : Type :=
| SignalLost (last_signal_strength : Z)
| SimArrears (balance_text : pystr)
| ModemInitFailed (stage detail : pystr)
| AudioBufferStalled (direction : pystr) (stalled_ms : Z)
| SimChanged (new_iccid : pystr)
| OtherKind (name : pystr)
| NoKind.

Record HardwareAlert := mkAlert { al_kind : AlertKind; al_device_id : Z; al_ts : option pystr }.

Definition payload_summary (a : HardwareAlert) : list (string * pyval) :=
  let kind n := ("kind"%string, VStr (u8 n)) in
  match al_kind a with
  | SignalLost s => [kind "signal_lost"; ("last_signal_strength"%string, VInt s)]
  | SimArrears b => [kind "sim_arrears"; ("balance_text"%string, VStr b)]
  | ModemInitFailed s d => [kind "modem_init_failed"; ("stage"%string, VStr s); ("detail"%string, VStr d)]
  | AudioBufferStalled d ms => [kind "audio_buffer_stalled"; ("direction"%string, VStr d); ("stalled_ms"%string, VInt ms)]
  | SimChanged i => [kind "sim_changed"; ("new_iccid"%string, VStr i)]
  | OtherKind n => [("kind"%string, VStr (str_or (Some n) (u8 "unknown")))]
  | NoKind => [kind "unknown"]
  end.

(** The structured fields of the log record. *)
Definition log_hardware_alert (edge : pystr) (a : HardwareAlert) : list (string * pyval) :=
  dupdate [("edge_device_id"%string, VStr edge); ("device_id"%string, VInt (al_device_id a));
           ("ts"%string, match al_ts a with Some t => VStr t | None => VNone end)] (payload_summary a).

(** No field of an alert hides the edge, the device or the time it is logged with. *)
Lemma alert_keeps_identity edge a :
  let r := log_hardware_alert edge a in
  dget "edge_device_id" r = Some (VStr edge) /\ dget "device_id" r = Some (VInt (al_device_id a))
  /\ dget "ts" r = Some (match al_ts a with Some t => VStr t | None => VNone end)
  /\ dget "kind" r = dget "kind" (payload_summary a).
Proof. destruct a as [[] d ts]; split_and!; reflexivity. Qed.
End Alerts.

(** ** The token command line *)
Module Cli.
Section Cli.
  Context (hmac : bytes -> bytes -> bytes) (zlib_compress : bytes -> bytes) (b64encode : bytes -> pystr).

Inductive CliEnd : Type := CliExit | CliRaised (e : SignError) | CliPrinted (payload : list (string * pyval)).

(** [_read_env], given the two variables, [[]] when they are unset; [None] is [sys.exit]. *)
Definition read_env (app_id app_key : pystr) : option (pystr * pystr) :=
  match app_id, app_key with [], _ | _, [] => None | _, _ => Some (app_id, app_key) end.

(** [main], given the parsed arguments and the two environment variables. *)
Definition mint_main (channel user_id : pystr) (ttl : Z) (app_id app_key : pystr) (clock : Z) (rnd : Z -> Z)
  : CliEnd :=
  if ttl <=? 0 then CliExit
  else match read_env app_id app_key with
  | None => CliExit
  | Some (app_id, app_key) =>
      match sign hmac zlib_compress b64encode app_id app_key (12 * 3600) channel user_id (Some ttl) None None
              None (Some []) None clock rnd with
      | Err e => CliRaised e
      | Ok c =>
          CliPrinted [("app_id"%string, VStr (rc_app_id c)); ("channel"%string, VStr (rc_channel c));
                      ("user_id"%string, VStr (rc_user_id c)); ("nonce"%string, VStr []);
                      ("token"%string, VStr (rc_token c)); ("expires_at"%string, VInt (rc_expires_at c))]
      end
  end.

(** A printed credential is for the channel and user asked for and expires after exactly
    the time asked for; without both secrets or with a non-positive time nothing is
    printed. *)
Lemma mint_prints channel user_id ttl app_id app_key clock rnd p :
  mint_main channel user_id ttl app_id app_key clock rnd = CliPrinted p ->
  app_id <> [] /\ app_key <> [] /\ 0 < ttl /\ channel <> [] /\ user_id <> []
  /\ dget "channel" p = Some (VStr channel) /\ dget "user_id" p = Some (VStr user_id)
  /\ dget "expires_at" p = Some (VInt (clock + ttl)).
Proof.
  unfold mint_main. destruct (ttl <=? 0) eqn:Ht; [done|]. zbool.
  destruct app_id as [|a app_id]; [done|]. destruct app_key as [|b app_key]; [done|]. simpl read_env. cbv iota beta zeta.
  destruct (sign _ _ _ _ _ _ _ _ _ _ _ _ _ _ _) as [c|e] eqn:Hs; [|done]. intros [= <-]. unfold sign in Hs.
  destruct (zlen channel =? 0) eqn:Hc; [done|]. destruct (zlen user_id =? 0) eqn:Hu; [done|].
  simpl default in Hs. destruct (ttl <=? 0); [done|]. destruct (build_token _ _ _ _ _ _); [|done].
  injection Hs as <-. zbool. split_and!; try done; by intros ->.
Qed.
End Cli.
End Cli.

(** ** Witnesses *)

Definition demo_settings : Settings :=
  default_settings (u8 "postgresql://db") (u8 "redis://cache").

Definition demo_store : store_get := fun _ f => if decide (f = "api_key"%string) then Some (u8 "key") else None.

Abbreviation demo_run :=
  (run_call (fun r => load_runtime_config demo_kind (fun _ => []) (fun _ => Err TypeError) VNone VNone None
       None (fun _ => true) (fun _ => None) (fun _ => []) 50 demo_tables r)
     demo_settings (TelMock 200) (Some demo_store) true None (new_session 1 7 1 [] [] 4 0) true
     [(Some (u8 "dashscope"), None); (Some (u8 "nobody"), None); (Some (u8 "dashscope"), None); (None, None)] true).

Lemma run_releases_clients_witness :
  ru_closed demo_run ≡ₚ ru_opened demo_run /\ NoDup (ru_closed demo_run) /\ ru_end demo_run = Ran true
  /\ length (ru_closed demo_run) = 3%nat.
Proof.
  destruct (run_releases_clients
    (fun r => load_runtime_config demo_kind (fun _ => []) (fun _ => Err TypeError) VNone VNone None
       None (fun _ => true) (fun _ => None) (fun _ => []) 50 demo_tables r)
    demo_settings (TelMock 200) (Some demo_store) true None (new_session 1 7 1 [] [] 4 0) true
    [(Some (u8 "dashscope"), None); (Some (u8 "nobody"), None); (Some (u8 "dashscope"), None); (None, None)]
    true demo_run eq_refl) as (Hp & Hn & He).
  - vm_compute. discriminate.
  - split; [exact Hp|]. split; [exact Hn|]. split; [exact He|]. vm_compute. reflexivity.
Defined.

Definition demo_world : Lifecycle.World :=
  Lifecycle.mkWorld ∅ 0 ∅ [] 1 {[7 := new_session 7 7 1 [] [] 4 0]} ∅ [] [].

Definition demo_validate (raw : pystr) : option Lifecycle.Control := Some (Lifecycle.CManualHangup 7 None).

