(* ===== verification/Window.v ===== *)
(** * Around the turn loop

    [run_loop.py], what a session does beside its turns: the connection prewarm of the
    greeting window ([_kick_main_llm_prewarm], [_reap_main_llm_prewarm]), the parallel
    transfer detector ([_resolve_transfer_llm] and the task it waits for), the events it
    publishes ([_publish_status], [_publish_transcript_appended], [CallStarted]), the final
    hangup ([_attempt_hangup]) and the token budget. *)

From S2P Require Import Prelude Bytes Audio Session Referee Interruption Managers Orchestrator RunLoop RunLoopFacts Runner.

(** ** The slot's client *)

(** [Providers.llm_for]. *)
Definition llm_for (registry : option (option pystr -> option pystr -> LLM)) (llm : LLM) (spec : MainSpec) : LLM :=
  resolve_llm registry (ms_provider spec) (ms_model spec) llm.

(** ** The greeting window *)

(** The chat the prewarm task makes, if there is one. *)
Definition prewarm_call (rc : RuntimeConfig) : option (list Message * Z) :=
  if has_fixed_greeting rc then Some ([mkMessage "user" (u8 "hi")], 1) else None.

(** The chat [generate_greeting] makes on the same client. *)
Definition greeting_call (rc : RuntimeConfig) : option (list Message) :=
  if has_fixed_greeting rc then None else Some (build_greeting_messages (rc_pipeline rc)).

(** The task: created, inside [chat], or ended; its errors are logged only. *)
Inductive Probe : Type := ProbeNone | ProbeSpawned | ProbeCalling | ProbeEnded.

(** Where the greeting window is: the greeting plays, the task is awaited, the turns
    begin, or the session failed or was cancelled. *)
Inductive WindowPhase : Type := Greeting | Reaping | Turns | WindowFailed.

Record Win := mkWin { w_probe : Probe; w_phase : WindowPhase; w_chats : nat }.

#[export] Instance Win_eta : Eta Win := fun w => mkWin (w_probe w) (w_phase w) (w_chats w).

(** [w_chats] counts the requests made to the main slot's client. *)
Definition open_window (rc : RuntimeConfig) : Win :=
  mkWin (match prewarm_call rc with Some _ => ProbeSpawned | None => ProbeNone end) Greeting 0.

Inductive wstep (rc : RuntimeConfig) : Win -> Win -> Prop :=
| ws_probe w : w_probe w = ProbeSpawned ->
    wstep rc w (w <| w_probe := ProbeCalling |> <| w_chats ::= S |>)
| ws_probed w : w_probe w = ProbeCalling -> wstep rc w (w <| w_probe := ProbeEnded |>)
| ws_greeted w : w_phase w = Greeting ->
    wstep rc w (w <| w_phase := Reaping |>
                  <| w_chats ::= fun n => match greeting_call rc with Some _ => S n | None => n end |>)
| ws_greeting_failed w : w_phase w = Greeting -> wstep rc w (w <| w_phase := WindowFailed |>)
| ws_reaped w : w_phase w = Reaping -> w_probe w = ProbeNone \/ w_probe w = ProbeEnded ->
    wstep rc w (w <| w_phase := Turns |>).


Definition greeted (p : WindowPhase) : bool := match p with Reaping | Turns => true | _ => false end.

Definition win_inv (rc : RuntimeConfig) (w : Win) : Prop :=
  (w_chats w = (match w_probe w with ProbeCalling | ProbeEnded => 1 | _ => 0 end)
               + (if greeted (w_phase w) && negb (has_fixed_greeting rc) then 1 else 0))%nat
  /\ (w_probe w = ProbeNone <-> has_fixed_greeting rc = false)
  /\ (w_phase w = Turns -> w_probe w = ProbeNone \/ w_probe w = ProbeEnded).

Lemma wstep_inv rc w w' : win_inv rc w -> wstep rc w w' -> win_inv rc w'.
Proof.
  unfold win_inv. intros (H1 & H2 & H3) Hs.
  destruct Hs as [w Hp|w Hp|w Hp|w Hp|w Hp He]; simpl; rewrite ?Hp in *; simpl in *;
    unfold greeting_call in *; destruct (has_fixed_greeting rc); simpl in *;
    intuition (try congruence; try lia).
Qed.

(** By the first turn the main slot's client has been used exactly once, by the greeting or
    by the probe, and no probe is left running. *)
Lemma window_warms_once rc w :
  rtc (wstep rc) (open_window rc) w -> w_phase w = Turns ->
  w_chats w = 1%nat /\ (w_probe w = ProbeNone \/ w_probe w = ProbeEnded).
Proof.
  intros Hr Ht. assert (Hi : win_inv rc w).
  { eapply rtc_invariant; [apply wstep_inv|exact Hr|].
    unfold win_inv, open_window, prewarm_call. destruct (has_fixed_greeting rc); simpl; intuition congruence. }
  destruct Hi as (H1 & H2 & H3). split; [|auto]. rewrite H1, Ht. simpl.
  destruct (H3 Ht) as [Hp|Hp]; rewrite Hp.
  - by rewrite (proj1 H2 Hp).
  - destruct (has_fixed_greeting rc) eqn:Hf; [done|]. by rewrite (proj2 H2 eq_refl) in Hp.
Qed.

(** ** The transfer detector *)

(** How the wait of two seconds for the detector's task ends. *)
Inductive DetectorEnd : Type := DAnswered | DTimeout.

(** Whether a turn spawns the detector. *)
Definition detector_spawned (is_wrap_up : bool) (cfg : Transfer.TransferConfig) : bool :=
  negb is_wrap_up && (Transfer.intent_enabled cfg || Transfer.llm_enabled cfg).

(** [_resolve_transfer_llm]: the task's decision; a timeout, after which the task is
    cancelled, or an exception of the task counts as none. *)
Definition resolve_transfer_llm (task : option (result PyErr Transfer.TransferDecision)) (e : DetectorEnd)
  : option Transfer.TransferDecision :=
  match task, e with
  | Some (Ok d), DAnswered => Some d
  | _, _ => None
  end.

(** What a turn learns from its detector. *)
Definition turn_transfer (chat : list Message -> option (option pystr)) (loads : pystr -> option pyval)
    (fmt2 : Q -> pystr) (rnd : nat) (user_text : pystr) (is_wrap_up : bool)
    (cfg : Transfer.TransferConfig) (e : DetectorEnd) : option Transfer.TransferDecision :=
  resolve_transfer_llm
    (if detector_spawned is_wrap_up cfg
     then Some (Transfer.evaluate_transfer_llm chat loads fmt2 rnd user_text cfg) else None) e.

(** The detector acts only when the campaign asked for it, and names which of its two
    triggers fired. *)
Lemma turn_transfer_triggers chat loads fmt2 rnd user_text is_wrap_up cfg e d :
  turn_transfer chat loads fmt2 rnd user_text is_wrap_up cfg e = Some d -> Transfer.triggered d = true ->
  is_wrap_up = false
  /\ (Transfer.trigger_type d = Some Transfer.TIntent /\ Transfer.intent_enabled cfg = true
      \/ Transfer.trigger_type d = Some Transfer.TLlm /\ Transfer.llm_enabled cfg = true).
Proof.
  unfold turn_transfer, detector_spawned. destruct is_wrap_up; [done|]. simpl.
  destruct (_ || _); [|done]. unfold resolve_transfer_llm.
  destruct (Transfer.evaluate_transfer_llm _ _ _ _ _ _) as [d'|] eqn:Hev; [|done]. destruct e; [|done].
  intros [= ->] Ht. split; [done|]. unfold Transfer.evaluate_transfer_llm in Hev.
  assert (Hllm : forall m : result PyErr bool, (if Transfer.llm_enabled cfg
      then let? flag := m in Ok (if (flag : bool) then Transfer.hit rnd Transfer.TLlm (u8 "transfer=true") cfg
                                 else Transfer.no_transfer)
      else Ok Transfer.no_transfer) = Ok d ->
    Transfer.trigger_type d = Some Transfer.TLlm /\ Transfer.llm_enabled cfg = true).
  { intros m. destruct (Transfer.llm_enabled cfg); [|intros [= <-]; done].
    destruct m as [[]|]; simpl; [|intros [= <-]; done|done]. by intros [= <-]. }
  destruct (Transfer.intent_enabled cfg); [|right; by eapply Hllm].
  destruct (Transfer.intent_threshold cfg) as [th|]; [|right; by eapply Hllm].
  destruct (Transfer.call_intent _ _ _ _) as [[p|]|]; simpl in Hev; [|right; by eapply Hllm|done].
  destruct (Qle_bool th p); [|right; by eapply Hllm]. injection Hev as <-. by left.
Qed.

(** A turn the customer interrupts while it is being thought about never waits for its
    detector: with the same request for a human the detector heard, the turn goes on to
    the next utterance, and without the interruption it would have handed the call off. *)
Definition demo_asked : Transfer.TransferDecision := Transfer.mkTD true (Some Transfer.TLlm) [] [].

Definition asking_turn (partials : list (Z * pystr)) : TurnEnv :=
  mkTurnEnv 10 20 0 [GTimeout] partials (Some demo_asked) demo_play demo_reply empty_result GTimeout.

Lemma interrupted_turn_drops_detector :
  (demo_gated (asking_turn [(5000, [90; 90])]) demo_rl).1 = Ok CONTINUE
  /\ transfer_reason (sess (demo_gated (asking_turn [(5000, [90; 90])]) demo_rl).2) = None
  /\ (demo_gated (asking_turn []) demo_rl).1 = Ok RETURN
  /\ transfer_status (sess (demo_gated (asking_turn []) demo_rl).2) = "marked_for_handoff"%string.
Proof. vm_compute. by split_and!. Qed.

(** ** Publications *)
Import Runner.Publisher.

Inductive EngineEvent : Type :=
| CallStarted (call_record_id started_at : Z)
| StatusChanged (call_record_id : Z) (status : CallState) (reason : string)
| TranscriptAppended (call_record_id : Z) (event_type : string) (ts : Z).

Section Publish.
  (** The shared package's serialisation of an event. *)
  Context (dumps : EngineEvent -> pystr) (int_of_str : pystr -> option Z).

Definition publish_event (e : EngineEvent) (s : CallSession) (p : option EventPublisher) : option EventPublisher :=
  option_map (publish (campaign_id s) (dumps e)) p.

(** The publication at the start of [run_session]. *)
Definition publish_started (started_wall : Z) (s : CallSession) (p : option EventPublisher) : option EventPublisher :=
  publish_event (CallStarted (call_record_id s) started_wall) s p.

Definition publish_status (s : CallSession) (reason : string) (p : option EventPublisher) : option EventPublisher :=
  publish_event (StatusChanged (call_record_id s) (state s) reason) s p.

(** [_publish_transcript_appended]: the last event of the transcript. *)
Definition publish_transcript_appended (s : CallSession) (event_type : string) (p : option EventPublisher)
  : result PyErr (option EventPublisher) :=
  match p, last (full_transcript s) with
  | None, _ | _, None => Ok p
  | _, Some ev =>
      let? ts := Rules.py_int int_of_str (default (VInt 0) (dget "ts" ev)) in
      Ok (publish_event (TranscriptAppended (call_record_id s) event_type ts) s p)
  end.

(** A publication only adds one task for the call's campaign; without a publisher nothing
    happens. *)
Lemma publish_event_spec e s p :
  publish_event e s p
  = match p with
    | None => None
    | Some q => Some (q <| inflight ::= <[next_task q := (channel_of (campaign_id s), dumps e)]> |>
                        <| next_task ::= S |>)
    end.
Proof. by destruct p. Qed.

(** The event just appended is announced with its own time. *)
Lemma appended_event_announced valid strict other now etype fields s s' p :
  NoDup fields.*1 -> dget "ts" fields = None ->
  append_event valid strict other now etype fields s = Ok s' ->
  publish_transcript_appended s' etype p
  = Ok (publish_event (TranscriptAppended (call_record_id s) etype (event_ts now s)) s p).
Proof.
  intros Hnd Hts Ha. unfold append_event in Ha. repeat case_match; simplify_eq/=;
    unfold publish_transcript_appended; simpl; rewrite last_snoc, dget_dupdate, Hts by done; by destruct p.
Qed.
End Publish.

(** ** The end of a session *)

(** [_attempt_hangup]: whatever the client raises stops here. *)
Definition attempt_hangup {T E : Type} (hangup : T -> result E unit * T) (t : T) : T :=
  match hangup t with (Ok _, t') => t' | (Err _, t') => t' end.

(** The two warnings of the [finally]: tokens over the call's budget, partials dropped by
    the bus. *)
Definition over_budget (s : CallSession) : bool :=
  token_budget_per_call s <? total_tokens_in s + total_tokens_out s.

Definition lossy_warning (dropped : nat) : bool := (0 <? dropped)%nat.

(** [_to_ms]. *)
Definition to_ms (value : Q) : Z := qtrunc (value * 1000).
