(* ===== verification/Shutdown.v ===== *)
(** * The life of the process

    [main.py]'s [_main], from the first dial message to the last line: serving, the stop
    signal, and the shutdown sequence, with [SessionManager.cancel_all].  It composes the
    dial queue and the finalizations of [Lifecycle], the publisher of [Runner] and the
    gRPC server of [CloudEdge].  A call's task is followed through its phases, because a
    cancellation means something else in each: it unwinds a running call, which is then
    finalized, but it cuts a task loose from a finalization already under way, which
    [asyncio.shield] keeps going without anybody waiting for it.  Every order in which
    the tasks can run is a path of [mstep]. *)
From S2P Require Import Prelude Session CloudEdge.
Import CloudEdge.Grpc.
From S2P Require Import Lifecycle Runner.
Import Runner.Publisher.

(** [dial_task]: waiting for a message, handling one, or over. *)
Inductive DialTask : Type := DialIdle | DialHandling (raw : pystr) | DialDone.

(** The task of a call: the runner runs, unwinds after a cancellation, or has ended and
    the shielded finalization runs; an orphaned finalization runs on after its task was
    cancelled. *)
Inductive CallPhase : Type :=
| Running | Unwinding | Finalizing (o : RunOutcome) | Orphaned (o : RunOutcome).

Definition active (ph : CallPhase) : bool := match ph with Orphaned _ => false | _ => true end.
Definition is_finalizing (ph : CallPhase) : bool := match ph with Finalizing _ => true | _ => false end.

(** Where [_main] is: [Waiting] is the [gather] of [cancel_all] over the tasks of these
    calls, with whether its deadline has passed; [Draining] is [drain] waiting for these
    publications. *)
Inductive Stage : Type :=
| Serving | Stopping | Waiting (calls : gset Z) (expired : bool) | StoppingServer
| Draining (tasks : gset nat) | Closing | Exited.

Section Process.
  Context {Msg : Type}.
  Context (hangup_causes transfer_statuses : list string) (NORMAL_CLEARING TRANSFER_NONE : string)
    (int_other : pyval -> option Z) (json_loads : pystr -> option pyval)
    (validate_dial : pystr -> option DialRequest)
    (engine_dlq call_ended_queue EXTRACT_QUEUE : string).

Record Proc := mkProc {
  p_world : World;
  p_dial : DialTask;
  p_calls : gmap Z CallPhase;
  p_stage : Stage;
  p_pub : EventPublisher;
  p_server : option (Grpc.Server (Msg := Msg));     (* [None] outside the rtc mode *)
  p_started : gset Z;                               (* every call a task was made for *)
  p_finalized : list Z;                             (* finalizations that ran to their end *)
  p_cut : gset Z;                                   (* calls cancelled inside their finalization *)
  p_lost_dials : list pystr }.                      (* messages taken and dropped *)

#[export] Instance Proc_eta : Eta Proc := fun s =>
  mkProc (p_world s) (p_dial s) (p_calls s) (p_stage s) (p_pub s) (p_server s) (p_started s)
    (p_finalized s) (p_cut s) (p_lost_dials s).

Definition boot_proc (counter : Z) (server : option (Grpc.Server (Msg := Msg))) : Proc :=
  mkProc (boot counter) DialIdle ∅ Serving new_publisher server ∅ [] ∅ [].

(** [handle_dial] run to its end; a new session gets its task. *)
Definition handled (raw : pystr) (now mono : Z) (s : Proc) : Proc :=
  let '(r, w) := handle_dial TRANSFER_NONE json_loads validate_dial engine_dlq raw now mono (p_world s) in
  let s := s <| p_world := w |> <| p_dial := DialIdle |> in
  match r with
  | Ok (Some c) => s <| p_calls ::= <[call_record_id c := Running]> |>
                     <| p_started ::= fun l => {[call_record_id c]} ∪ l |>
  | _ => s
  end.

(** [handle_dial] cancelled at one of its awaits: nothing was done, or the row was
    reserved. *)
Definition dial_cut (raw : pystr) (w w' : World) : Prop :=
  w' = w \/ exists rq now, validate_dial raw = Some rq /\ w' = (reserve_call_record TRANSFER_NONE rq now w).2.

(** [task.cancel()] on a call's task. *)
Definition cancel_task (ph : CallPhase) : CallPhase :=
  match ph with
  | Running | Unwinding => Unwinding
  | Finalizing o | Orphaned o => Orphaned o
  end.

Definition cancel_calls (cs : gset Z) (s : Proc) : Proc :=
  s <| p_calls ::= map_imap (fun c ph => Some (if decide (c ∈ cs) then cancel_task ph else ph)) |>
    <| p_cut ::= fun k => k ∪ (cs ∩ dom (filter (fun kv => is_finalizing kv.2 = true) (p_calls s))) |>.

(** [cancel_all] up to its [gather]: the tasks of every registered session. *)
Definition cancel_all_tasks (s : Proc) : Proc :=
  let cs := dom (sessions (p_world s)) in
  cancel_calls cs s <| p_stage := Waiting cs false |>.

(** The deadline: [asyncio.timeout] cancels the [gather], which cancels its tasks once
    more and goes on waiting until each is done. *)
Definition deadline (cs : gset Z) (s : Proc) : Proc := cancel_calls cs s <| p_stage := Waiting cs true |>.

(** The end of a finalization. *)
Definition finalized (c : Z) (o : RunOutcome) (started_at ended_at : Z) (s : Proc) : Proc :=
  s <| p_world ::= fun w => (runner_with_finalize hangup_causes transfer_statuses NORMAL_CLEARING TRANSFER_NONE
                               int_other call_ended_queue EXTRACT_QUEUE o started_at ended_at w).2 |>
    <| p_calls ::= delete c |> <| p_finalized ::= fun l => l ++ [c] |>.

(** A connection's handler ends, by itself or when the server's grace period is over. *)
Definition handler_ended (x : nat) (st : Grpc.ServerStream (Msg := Msg)) (srv : Grpc.Server (Msg := Msg))
  : Grpc.Server :=
  Grpc.deregister_stream (Grpc.st_edge st) x (Grpc.close_conn x srv) <| Grpc.conns ::= delete x |>.

(** What the outside does: messages, operators, publications of running calls, edges,
    the scheduler and the fate of remote operations.  Operators' commands may still be on a
    call's bus after the signal.  A cancellation that hits a call while it speaks only stops
    the playback, and the call goes on ([RunLoopFacts.cancelled_playback_goes_on]). *)
Inductive outside : Proc -> Proc -> Prop :=
| out_pop raw s : p_stage s = Serving -> p_dial s = DialIdle -> outside s (s <| p_dial := DialHandling raw |>)
| out_handled raw now mono s :
    p_stage s = Serving -> p_dial s = DialHandling raw -> outside s (handled raw now mono s)
| out_operator c s :
    p_stage s <> Exited -> p_calls s !! c = Some Running -> outside s (s <| p_calls ::= <[c := Unwinding]> |>)
| out_swallowed c s :
    p_stage s <> Exited -> p_calls s !! c = Some Unwinding -> outside s (s <| p_calls ::= <[c := Running]> |>)
| out_publish c campaign payload s :
    p_calls s !! c = Some Running -> outside s (s <| p_pub ::= publish campaign payload |>)
| out_edge srv srv' s :
    p_stage s = Serving -> p_server s = Some srv -> Grpc.step srv srv' -> outside s (s <| p_server := Some srv' |>)
| out_incr s : outside s (s <| p_world ::= fun w => w <| counter ::= fun n => n + 1 |> |>)
| out_faults fs s : outside s (s <| p_world ::= fun w => w <| faults := fs |> |>)
| out_signal s : p_stage s = Serving -> outside s (s <| p_stage := Stopping |>).

(** What the process does by itself until it has exited. *)
Inductive own : Proc -> Proc -> Prop :=
| own_end c ph o s :
    p_stage s <> Exited -> p_calls s !! c = Some ph -> ph = Running \/ ph = Unwinding ->
    call_record_id (outcome_session o) = c -> own s (s <| p_calls ::= <[c := Finalizing o]> |>)
| own_finalized c o s0 st en s :
    p_stage s <> Exited -> p_calls s !! c = Some (Finalizing o) \/ p_calls s !! c = Some (Orphaned o) ->
    running (p_world s) !! c = Some (s0, st) -> own s (finalized c o st en s)
| own_published t sent s :
    p_stage s <> Exited -> is_Some (inflight (p_pub s) !! t) -> own s (s <| p_pub ::= task_done t sent |>)
| own_dial_stops s :
    p_stage s = Stopping -> p_dial s = DialIdle -> own s (s <| p_dial := DialDone |>)
| own_dial_cut raw w' s :
    p_stage s = Stopping -> p_dial s = DialHandling raw -> dial_cut raw (p_world s) w' ->
    own s (s <| p_world := w' |> <| p_dial := DialDone |> <| p_lost_dials ::= fun l => l ++ [raw] |>)
| own_cancel_all s : p_stage s = Stopping -> p_dial s = DialDone -> own s (cancel_all_tasks s)
| own_deadline cs s : p_stage s = Waiting cs false -> own s (deadline cs s)
| own_waited cs b s :
    p_stage s = Waiting cs b -> (forall c ph, c ∈ cs -> p_calls s !! c = Some ph -> active ph = false) ->
    own s (s <| p_server ::= fmap Grpc.stop |> <| p_stage := StoppingServer |>)
| own_server_conn x st srv s :
    p_stage s = StoppingServer -> p_server s = Some srv -> Grpc.conns srv !! x = Some st ->
    own s (s <| p_server := Some (handler_ended x st srv) |>)
| own_server_stopped s :
    p_stage s = StoppingServer -> (forall srv, p_server s = Some srv -> Grpc.conns srv = ∅) ->
    own s (s <| p_stage := Draining (dom (inflight (p_pub s))) |>)
| own_drained ts s :
    p_stage s = Draining ts -> drained ts (p_pub s) -> own s (s <| p_stage := Closing |>)
| own_exit s : p_stage s = Closing -> own s (s <| p_stage := Exited |>).

Definition mstep (s s' : Proc) : Prop := outside s s' \/ own s s'.

(** ** The invariant *)

(** Stages after the tasks of the calls were waited for. *)
Definition past_calls (g : Stage) : bool :=
  match g with Serving | Stopping | Waiting _ _ => false | _ => true end.

Record proc_inv (s : Proc) : Prop := {
  pi_world : world_inv (p_world s);
  pi_calls : forall c, is_Some (p_calls s !! c) <-> is_Some (running (p_world s) !! c);
  pi_outcome : forall c o, p_calls s !! c = Some (Finalizing o) \/ p_calls s !! c = Some (Orphaned o) ->
                 call_record_id (outcome_session o) = c;
  pi_started : forall c, c ∈ p_started s <-> c ∈ p_finalized s \/ is_Some (p_calls s !! c);
  pi_fresh : forall c, c ∈ p_started s -> c < next_id (p_world s);
  pi_done : forall c, c ∈ p_finalized s -> p_calls s !! c = None;
  pi_once : NoDup (p_finalized s);
  pi_cut : forall c o, p_calls s !! c = Some (Orphaned o) -> c ∈ p_cut s;
  pi_dial : match p_stage s with Serving | Stopping => True | _ => p_dial s = DialDone end;
  pi_tasks : forall c ph, p_calls s !! c = Some ph ->
               match p_stage s with
               | Serving | Stopping => True
               | Waiting cs _ => c ∈ cs
               | _ => active ph = false
               end;
  pi_drain : match p_stage s with
             | Draining ts => dom (inflight (p_pub s)) ⊆ ts
             | Closing | Exited => inflight (p_pub s) = ∅
             | _ => True
             end;
  pi_server : match p_stage s with
              | Draining _ | Closing | Exited => forall srv, p_server s = Some srv -> Grpc.conns srv = ∅
              | _ => True
              end }.

(** *** What the dial loop does to the tables *)

(** Reserving a row adds none that a task owns. *)
Lemma reserve_spec rq now w :
  world_inv w ->
  let '(r, w') := reserve_call_record TRANSFER_NONE rq now w in
  world_inv w' /\ running w' = running w /\ next_id w <= next_id w'
  /\ forall cid, r = Some cid -> cid = next_id w /\ next_id w' = next_id w + 1.
Proof.
  intros Hw. unfold reserve_call_record. set (row := mkRecord _ _ _ _ _ _ _ _ _ _ _ _ _).
  set (ins := fun w0 : World => w0 <| records ::= <[next_id w := row]> |> <| next_id := next_id w + 1 |>).
  destruct (remote_cases ins w) as (fs & [[-> _]|[-> _]]).
  { split_and!; try done. by eapply world_inv_ext; [..|exact Hw]. }
  assert (Hins : world_inv (ins (w <| faults := fs |>))).
  { apply insert_row_inv; [|done|done]. by eapply world_inv_ext; [..|exact Hw]. }
  destruct (remote_cases id (ins (w <| faults := fs |>))) as (fs2 & [[-> _]|[-> _]]); unfold id; simpl;
    (split_and!; [by eapply world_inv_ext; [..|exact Hins]|done|lia|]); intros cid [= <-]; done.
Qed.

Lemma to_dlq_frame raw w :
  let '(r, w') := to_dlq engine_dlq raw w in
  running w' = running w /\ next_id w' = next_id w /\ forall c, r <> Ok (Some c).
Proof.
  unfold to_dlq, lpush. destruct (remote_cases (push engine_dlq (PRaw raw)) w) as (fs & [[-> _]|[-> _]]); done.
Qed.

Lemma handle_dial_tasks raw now mono w :
  world_inv w ->
  let '(r, w') := handle_dial TRANSFER_NONE json_loads validate_dial engine_dlq raw now mono w in
  next_id w <= next_id w'
  /\ match r with
     | Ok (Some c) => call_record_id c = next_id w /\ next_id w' = next_id w + 1
                      /\ running w' = <[call_record_id c := (c, now)]> (running w)
     | _ => running w' = running w
     end.
Proof.
  intros Hw. pose proof (to_dlq_frame raw) as Hdlq. unfold handle_dial.
  assert (Hd : forall w1, running w1 = running w -> next_id w <= next_id w1 ->
    let '(r, w') := to_dlq engine_dlq raw w1 in next_id w <= next_id w'
    /\ match r with Ok (Some c) => call_record_id c = next_id w /\ next_id w' = next_id w + 1
                      /\ running w' = <[call_record_id c := (c, now)]> (running w) | _ => running w' = running w end).
  { intros w1 Hr Hn. specialize (Hdlq w1). destruct (to_dlq _ raw w1) as [r w']. destruct Hdlq as (Hr' & Hn' & Hc).
    split; [lia|]. destruct r as [[c|]|]; [by destruct (Hc c)|congruence..]. }
  destruct (peek_schema_version _ raw); [|by apply Hd]. case_bool_decide; [|by apply Hd].
  destruct (validate_dial raw) as [rq|]; [|by apply Hd].
  pose proof (reserve_spec rq now w Hw) as Hres.
  destruct (reserve_call_record _ rq now w) as [[cid|] w1]; destruct Hres as (Hw1 & Hr1 & Hn1 & Hc1); [|by apply Hd].
  destruct (Hc1 cid eq_refl) as [-> Hn2]. unfold register.
  case_match; simpl; rewrite ?Hr1; split_and!; done || lia.
Qed.

Lemma finalized_tasks o st en w :
  let w' := (runner_with_finalize hangup_causes transfer_statuses NORMAL_CLEARING TRANSFER_NONE int_other
               call_ended_queue EXTRACT_QUEUE o st en w).2 in
  running w' = delete (call_record_id (outcome_session o)) (running w) /\ next_id w' = next_id w.
Proof.
  unfold runner_with_finalize.
  pose proof (finalize_frame hangup_causes transfer_statuses NORMAL_CLEARING TRANSFER_NONE int_other
    call_ended_queue EXTRACT_QUEUE (outcome_session o) st en w) as Hf.
  destruct (finalize_session _ _ _ _ _ _ _ _ _ _ _) as [s' w']. destruct Hf as (_ & Hr & Hn & _).
  simpl. by rewrite Hr.
Qed.

(** *** Preservation *)

Lemma boot_inv n srv : proc_inv (boot_proc n srv).
Proof.
  constructor; simpl; try done; try (intros *; rewrite ?lookup_empty; set_solver); try constructor; simpl;
    setoid_rewrite lookup_empty; try done; by intros ? [].
Qed.

(** Another world with the same tasks. *)
Lemma world_change s w :
  world_inv w -> running w = running (p_world s) -> next_id (p_world s) <= next_id w ->
  proc_inv s -> proc_inv (s <| p_world := w |>).
Proof.
  intros Hw Hr Hn [H1 H2 H3 H4 H5 H6 H7 H8 H9 H10 H11 H12]. constructor; simpl; try done.
  - by rewrite Hr.
  - intros c Hc. specialize (H5 c Hc). lia.
Qed.

(** One call moves to another phase. *)
Lemma phase_change s c ph ph' :
  proc_inv s -> p_calls s !! c = Some ph -> active ph = true ->
  (forall o, ph' = Finalizing o -> call_record_id (outcome_session o) = c) -> active ph' = true ->
  proc_inv (s <| p_calls ::= <[c := ph']> |>).
Proof.
  intros [H1 H2 H3 H4 H5 H6 H7 H8 H9 H10 H11 H12] Hc Ha Ho Ha'.
  assert (Hiff : forall x, is_Some (<[c := ph']> (p_calls s) !! x) <-> is_Some (p_calls s !! x)).
  { intros x. destruct (decide (x = c)) as [->|Hx]; [|by rewrite lookup_insert_ne].
    rewrite lookup_insert_eq, Hc. split; by eexists. }
  constructor; simpl; try done.
  - intros x. by rewrite Hiff.
  - intros x o [[[<- Hx]|[_ Hx]]%lookup_insert_Some|[[<- Hx]|[_ Hx]]%lookup_insert_Some]; subst; auto. done.
  - intros x. by rewrite Hiff.
  - intros x Hx. rewrite lookup_insert_ne; [auto|]. intros <-. by rewrite (H6 c Hx) in Hc.
  - intros x o [[<- ->]|[_ Hx]]%lookup_insert_Some; [done|eauto].
  - intros x p [[<- <-]|[_ Hx]]%lookup_insert_Some; [|by apply H10].
    specialize (H10 c ph Hc). destruct (p_stage s); try done; congruence.
Qed.

Lemma cancel_lookup cs s c ph' :
  p_calls (cancel_calls cs s) !! c = Some ph' ->
  exists ph, p_calls s !! c = Some ph /\ ph' = if decide (c ∈ cs) then cancel_task ph else ph.
Proof.
  unfold cancel_calls. simpl. rewrite map_lookup_imap. destruct (p_calls s !! c) as [ph|]; [|done].
  simpl. intros [= <-]. by exists ph.
Qed.

Lemma cancel_present cs s c : is_Some (p_calls (cancel_calls cs s) !! c) <-> is_Some (p_calls s !! c).
Proof.
  unfold cancel_calls. simpl. rewrite map_lookup_imap. destruct (p_calls s !! c); simpl; split; intros []; done || by eexists.
Qed.

(** Cancelling calls, on the way to a stage that waits for them. *)
Lemma cancel_inv cs b s :
  proc_inv s -> p_dial s = DialDone -> (forall c, is_Some (p_calls s !! c) -> c ∈ cs) ->
  proc_inv (cancel_calls cs s <| p_stage := Waiting cs b |>).
Proof.
  intros [H1 H2 H3 H4 H5 H6 H7 H8 H9 H10 H11 H12] Hd Hall. constructor; simpl; try done.
  - intros c. rewrite <-H2. apply cancel_present.
  - intros c o Hc.
    assert (exists ph, p_calls s !! c = Some ph /\ (ph = Finalizing o \/ ph = Orphaned o)) as (ph & Hp & Ho).
    { destruct Hc as [Hc|Hc]; apply cancel_lookup in Hc as (ph & Hp & He); exists ph; (split; [done|]);
        destruct (decide _), ph; simpl in He; simplify_eq; auto. }
    apply H3. by destruct Ho as [->| ->]; auto.
  - intros c. rewrite H4. by rewrite <-(cancel_present cs s c).
  - intros c Hc. apply H6 in Hc. rewrite map_lookup_imap, Hc. done.
  - intros c o Hc. apply cancel_lookup in Hc as (ph & Hp & He).
    assert (Hin : c ∈ cs) by (apply Hall; by eexists). rewrite decide_True in He by done.
    rewrite elem_of_union. destruct ph; simpl in He; simplify_eq; [right|left; eauto].
    apply elem_of_intersection. split; [done|]. apply elem_of_dom. eexists.
    by apply map_lookup_filter_Some.
  - intros c ph Hc. apply cancel_lookup in Hc as (ph0 & Hp & ->).
    apply Hall. by eexists.
Qed.

Lemma handled_inv raw now mono s :
  proc_inv s -> p_stage s = Serving -> proc_inv (handled raw now mono s).
Proof.
  intros Hi Hst. pose proof Hi as [H1 H2 H3 H4 H5 H6 H7 H8 H9 H10 H11 H12]. unfold handled.
  pose proof (handle_dial_inv TRANSFER_NONE json_loads validate_dial engine_dlq raw now mono _ H1) as Hw.
  pose proof (handle_dial_tasks raw now mono _ H1) as Ht.
  destruct (handle_dial _ _ _ _ raw now mono (p_world s)) as [r w]. simpl in Hw. destruct Ht as [Hn Hr].
  assert (Hplain : running w = running (p_world s) ->
    proc_inv (s <| p_world := w |> <| p_dial := DialIdle |>)).
  { intros Hrun. destruct (world_change s w Hw Hrun Hn Hi). constructor; simpl in *; try done. by rewrite Hst. }
  destruct r as [[c|]|e]; [|by apply Hplain..]. destruct Hr as (Hc & Hn' & Hrun).
  assert (Hnew : p_calls s !! call_record_id c = None).
  { apply eq_None_not_Some. intros Hx. assert (Hin : call_record_id c ∈ p_started s) by (apply H4; by right).
    specialize (H5 _ Hin). lia. }
  constructor; simpl; rewrite ?Hst; try done.
  - intros x. rewrite Hrun. destruct (decide (x = call_record_id c)) as [->|Hx].
    + rewrite !lookup_insert_eq. split; by eexists.
    + by rewrite !lookup_insert_ne.
  - intros x o [[[_ ?]|[_ Hx]]%lookup_insert_Some|[[_ ?]|[_ Hx]]%lookup_insert_Some]; try done; eauto.
  - intros x. rewrite elem_of_union, elem_of_singleton, H4.
    destruct (decide (x = call_record_id c)) as [->|Hx].
    + rewrite lookup_insert_eq. split; [right; by eexists|by left].
    + rewrite lookup_insert_ne by done. tauto.
  - intros x [->%elem_of_singleton|Hx]%elem_of_union; [lia|]. specialize (H5 x Hx). lia.
  - intros x Hx. rewrite lookup_insert_ne; [auto|]. intros <-.
    assert (Hin : call_record_id c ∈ p_started s) by (apply H4; by left). specialize (H5 _ Hin). lia.
  - intros x o [[_ ?]|[_ Hx]]%lookup_insert_Some; [done|eauto].
Qed.

Lemma finalized_inv c o s0 st en s :
  proc_inv s -> p_calls s !! c = Some (Finalizing o) \/ p_calls s !! c = Some (Orphaned o) ->
  running (p_world s) !! c = Some (s0, st) -> proc_inv (finalized c o st en s).
Proof.
  intros Hi Hc Hrun. pose proof Hi as [H1 H2 H3 H4 H5 H6 H7 H8 H9 H10 H11 H12].
  pose proof (H3 c o Hc) as Hid. destruct (finalized_tasks o st en (p_world s)) as [Hr Hn]. rewrite Hid in Hr.
  assert (Hw := runner_with_finalize_inv hangup_causes transfer_statuses NORMAL_CLEARING TRANSFER_NONE int_other
    call_ended_queue EXTRACT_QUEUE o s0 st en (p_world s) H1). rewrite Hid in Hw. specialize (Hw Hrun).
  assert (Hin : is_Some (p_calls s !! c)) by (destruct Hc; by eexists).
  unfold finalized. revert Hr Hn Hw. unfold set_field at 3. cbv beta.
  generalize (runner_with_finalize hangup_causes transfer_statuses NORMAL_CLEARING TRANSFER_NONE int_other
    call_ended_queue EXTRACT_QUEUE o st en (p_world s)).2. intros w' Hr Hn Hw.
  constructor; simpl; try done.
  - intros x. rewrite Hr. destruct (decide (x = c)) as [->|Hx].
    + rewrite !lookup_delete_eq. split; by intros [].
    + by rewrite !lookup_delete_ne.
  - intros x o' Hx. apply H3. destruct Hx as [[_ Hx]%lookup_delete_Some|[_ Hx]%lookup_delete_Some]; auto.
  - intros x. rewrite H4, elem_of_app, list_elem_of_singleton. destruct (decide (x = c)) as [->|Hx].
    + rewrite lookup_delete_eq. split; [by left; right|by right].
    + rewrite lookup_delete_ne by done. tauto.
  - intros x Hx. rewrite Hn. by apply H5.
  - intros x. rewrite elem_of_app, list_elem_of_singleton. intros [Hx| ->]; [|by apply lookup_delete_eq].
    apply lookup_delete_None. right. by apply H6.
  - apply NoDup_app. split_and!; [done| |apply NoDup_singleton]. intros x Hx ->%list_elem_of_singleton.
    rewrite (H6 c Hx) in Hin. by destruct Hin.
  - intros x o' [_ Hx]%lookup_delete_Some. eauto.
  - intros x ph [_ Hx]%lookup_delete_Some. by apply H10.
Qed.

Lemma outside_inv s s' : proc_inv s -> outside s s' -> proc_inv s'.
Proof.
  intros Hi Ho. pose proof Hi as [H1 H2 H3 H4 H5 H6 H7 H8 H9 H10 H11 H12].
  destruct Ho as [raw s Hst Hd|raw now mono s Hst Hd|c s Hst Hc|c s Hst Hc|c campaign payload s Hc|srv srv' s Hst Hsrv Hstep
                 |s|fs s|s Hst].
  - constructor; try done; simpl; by rewrite ?Hst.
  - by apply handled_inv.
  - by eapply phase_change.
  - by eapply phase_change.
  - assert (Hp : past_calls (p_stage s) = false).
    { specialize (H10 c Running Hc). by destruct (p_stage s). }
    constructor; try done; simpl; by destruct (p_stage s).
  - constructor; try done; simpl; by rewrite ?Hst.
  - apply world_change; try done. by eapply world_inv_ext; [..|exact H1].
  - apply world_change; try done. by eapply world_inv_ext; [..|exact H1].
  - constructor; try done; simpl; rewrite ?Hst in *; done.
Qed.

Lemma inflight_done t sent p : inflight (task_done t sent p) ⊆ inflight p.
Proof. unfold task_done. destruct (inflight p !! t); simpl; [apply delete_subseteq|done]. Qed.

Lemma own_inv s s' : proc_inv s -> own s s' -> proc_inv s'.
Proof.
  intros Hi Ho. pose proof Hi as [H1 H2 H3 H4 H5 H6 H7 H8 H9 H10 H11 H12].
  destruct Ho as [c ph o s Hx Hc Hph Hid|c o s0 st en s Hx Hc Hr|t sent s Hx Ht|s Hst Hd|raw w' s Hst Hd Hcut
    |s Hst Hd|cs s Hst|cs b s Hst Hall|x st srv s Hst Hsrv Hc|s Hst Hall|ts s Hst Hdr|s Hst].
  - eapply phase_change; try done; [by destruct Hph as [->| ->]|]. intros o' [= ->]. done.
  - by eapply finalized_inv.
  - pose proof (inflight_done t sent (p_pub s)) as Hsub.
    constructor; try done; simpl. destruct (p_stage s); try done.
    1: etrans; [by apply subseteq_dom|done].
    all: rewrite H11 in Hsub; apply dom_empty_inv_L; apply subseteq_dom in Hsub; set_solver.
  - constructor; try done; simpl; by rewrite ?Hst.
  - assert (Hw : world_inv w' /\ running w' = running (p_world s) /\ next_id (p_world s) <= next_id w').
    { destruct Hcut as [->|(rq & now & _ & ->)]; [done|]. pose proof (reserve_spec rq now (p_world s) H1) as Hr.
      destruct (reserve_call_record _ rq now _) as [r w']. simpl. tauto. }
    destruct Hw as (Hw & Hr & Hn). destruct (world_change s w' Hw Hr Hn Hi).
    constructor; try done; simpl in *; by rewrite ?Hst.
  - apply cancel_inv; [done|done|]. intros c Hc. apply elem_of_dom. apply H2 in Hc.
    by apply (inv_registry _ H1).
  - unfold deadline. apply cancel_inv; [done|by rewrite Hst in H9|]. intros c [ph Hc]. specialize (H10 c ph Hc).
    by rewrite Hst in H10.
  - constructor; try done; simpl; rewrite ?Hst in *; try done.
    intros c ph Hc. eapply Hall; [|done]. by eapply H10.
  - constructor; try done; simpl; by rewrite Hst in *.
  - constructor; try done; simpl; rewrite ?Hst in *; done.
  - constructor; try done; simpl; rewrite ?Hst in *; try done.
    unfold drained in Hdr. apply dom_empty_inv_L. set_solver.
  - constructor; try done; simpl; by rewrite ?Hst in *.
Qed.

Lemma proc_reachable n srv s : rtc mstep (boot_proc n srv) s -> proc_inv s.
Proof.
  intros Hr. eapply rtc_invariant; [|exact Hr|apply boot_inv].
  intros x y Hx [Hy|Hy]; [by eapply outside_inv|by eapply own_inv].
Qed.

(** C15: However dial messages, operators, ending calls, publications, edges and failing
    remote operations interleave with a stop signal: when the process has exited no call
    was finalized twice, and every call it ever started has been finalized to the end,
    unless its finalization was already under way when the shutdown, or the shutdown's
    deadline, cancelled its task; if there was none of those the registry is empty.  No
    status event is left in flight and no edge connection open. *)
Theorem shutdown_settles_calls n srv s :
  rtc mstep (boot_proc n srv) s -> p_stage s = Exited ->
  NoDup (p_finalized s)
  /\ (forall c, c ∈ p_started s ->
        c ∈ p_finalized s \/ (c ∈ p_cut s /\ exists o, p_calls s !! c = Some (Orphaned o)))
  /\ (p_cut s = ∅ -> sessions (p_world s) = ∅)
  /\ inflight (p_pub s) = ∅ /\ (forall srv', p_server s = Some srv' -> Grpc.conns srv' = ∅).
Proof.
  intros Hr Hst. destruct (proc_reachable n srv s Hr) as [H1 H2 H3 H4 H5 H6 H7 H8 H9 H10 H11 H12].
  rewrite Hst in *. split_and!; try done.
  - intros c [Hc|[ph Hc]]%H4; [by left|right]. pose proof (H10 c ph Hc) as Ha.
    destruct ph as [| |o|o]; try done. split; [by eapply H8|by exists o].
  - intros Hcut. apply map_eq. intros c. rewrite lookup_empty. apply eq_None_not_Some. intros Hs.
    apply (inv_registry _ H1), H2 in Hs as [ph Hc]. pose proof (H10 c ph Hc) as Ha.
    destruct ph as [| |o|o]; try done. specialize (H8 c o Hc). set_solver.
Qed.

(** ** Termination *)

Definition weight (ph : CallPhase) : nat :=
  match ph with Running => 4 | Unwinding => 3 | Finalizing _ => 2 | Orphaned _ => 1 end.

Definition work_left (m : gmap Z CallPhase) : nat := map_fold (fun _ ph n => (weight ph + n)%nat) 0%nat m.

Definition stage_rank (g : Stage) : nat :=
  match g with
  | Serving => 7 | Stopping => 6 | Waiting _ false => 5 | Waiting _ true => 4 | StoppingServer => 3
  | Draining _ => 2 | Closing => 1 | Exited => 0
  end.

Definition dial_weight (d : DialTask) : nat := match d with DialDone => 0 | _ => 1 end.

Definition conn_count (srv : option (Grpc.Server (Msg := Msg))) : nat :=
  match srv with Some s => size (Grpc.conns s) | None => 0 end.

(** The steps the process still has to take. *)
Definition measure (s : Proc) : nat :=
  stage_rank (p_stage s) + dial_weight (p_dial s) + work_left (p_calls s)
  + size (inflight (p_pub s)) + conn_count (p_server s).

Lemma work_left_insert m c ph : m !! c = None -> work_left (<[c := ph]> m) = (weight ph + work_left m)%nat.
Proof. intros Hc. unfold work_left. rewrite map_fold_insert_L; [done|lia|done]. Qed.

Lemma work_left_delete m c ph : m !! c = Some ph -> work_left m = (weight ph + work_left (delete c m))%nat.
Proof.
  intros Hc. rewrite <-(insert_delete_id m c ph Hc) at 1. apply work_left_insert, lookup_delete_eq.
Qed.

Lemma work_left_replace m c ph ph' :
  m !! c = Some ph -> (work_left (<[c := ph']> m) + weight ph = weight ph' + work_left m)%nat.
Proof.
  intros Hc. rewrite (work_left_delete m c ph Hc). rewrite <-insert_delete_eq.
  rewrite work_left_insert by apply lookup_delete_eq. lia.
Qed.

Lemma work_left_cancel (cs : gset Z) m :
  (work_left (map_imap (fun c ph => Some (if decide (c ∈ cs) then cancel_task ph else ph)) m) <= work_left m)%nat.
Proof.
  induction m as [|c ph m Hc IH] using map_ind; [done|].
  rewrite map_imap_insert_Some with (y := if decide (c ∈ cs) then cancel_task ph else ph) by done.
  rewrite !work_left_insert by (done || by rewrite map_lookup_imap, Hc).
  assert (weight (if decide (c ∈ cs) then cancel_task ph else ph) <= weight ph)%nat
    by (case_decide; [destruct ph; simpl; lia|done]).
  lia.
Qed.

Lemma conn_count_stop srv : (conn_count (Grpc.stop <$> srv) <= conn_count srv)%nat.
Proof.
  destruct srv as [s|]; [|done]. simpl. rewrite <-!size_dom. apply subseteq_size. apply dom_imap_subseteq.
Qed.

Lemma handler_ended_conns x st (srv : Grpc.Server (Msg := Msg)) :
  Grpc.conns srv !! x = Some st -> (size (Grpc.conns (handler_ended x st srv)) < size (Grpc.conns srv))%nat.
Proof.
  intros Hx. unfold handler_ended, Grpc.deregister_stream, Grpc.close_conn. rewrite <-!size_dom.
  repeat case_decide; simpl; rewrite dom_delete_L, dom_alter_L; apply subset_size;
    apply elem_of_dom_2 in Hx; set_solver.
Qed.

Lemma own_measure s s' : own s s' -> (measure s' < measure s)%nat.
Proof.
  intros Ho. unfold measure.
  destruct Ho as [c ph o s Hx Hc Hph Hid|c o s0 st en s Hx Hc Hr|t sent s Hx [m Ht]|s Hst Hd|raw w' s Hst Hd Hcut
    |s Hst Hd|cs s Hst|cs b s Hst Hall|x st srv s Hst Hsrv Hc|s Hst Hall|ts s Hst Hdr|s Hst];
    simpl; try rewrite Hst; try rewrite Hd; simpl.
  - pose proof (work_left_replace _ _ _ (Finalizing o) Hc) as Hw. destruct Hph as [->| ->]; simpl in Hw; lia.
  - destruct Hc as [Hc|Hc]; pose proof (work_left_delete _ _ _ Hc) as Hw; simpl in Hw; lia.
  - unfold task_done. rewrite Ht. simpl. assert (size (delete t (inflight (p_pub s))) = pred (size (inflight (p_pub s))))
      by (apply map_size_delete_Some; by eexists).
    assert (size (inflight (p_pub s)) <> 0)%nat.
    { rewrite map_size_non_empty_iff. intros He. by rewrite He, lookup_empty in Ht. }
    lia.
  - lia.
  - lia.
  - pose proof (work_left_cancel (dom (sessions (p_world s))) (p_calls s)). lia.
  - pose proof (work_left_cancel cs (p_calls s)). lia.
  - pose proof (conn_count_stop (p_server s)). destruct b; lia.
  - rewrite Hsrv. pose proof (handler_ended_conns x st srv Hc) as Hh. simpl in Hh |- *. lia.
  - lia.
  - lia.
  - lia.
Qed.

(** Before the end there is always something to do. *)
Lemma own_progress s : proc_inv s -> p_stage s <> Serving -> p_stage s <> Exited -> exists s', own s s'.
Proof.
  intros [H1 H2 H3 H4 H5 H6 H7 H8 H9 H10 H11 H12] Hs Hx.
  destruct (p_stage s) as [| |cs b| |ts| |] eqn:Hst; try done.
  - destruct (p_dial s) eqn:Hd; eexists;
      [by apply own_dial_stops|eapply own_dial_cut; [done..|by left]|by apply own_cancel_all].
  - destruct (decide (map_Forall (fun _ ph => active ph = false) (p_calls s))) as [Hall|Hex].
    { eexists. eapply own_waited; [done|]. intros c ph _ Hc. by apply (Hall c ph). }
    apply (map_not_Forall (M := gmap Z)) in Hex as (c & ph & Hc & Ha); [|apply _].
    destruct (proj1 (H2 c) ltac:(by eexists)) as [[s0 st] Hr].
    destruct (proj2 (inv_registry _ H1 c) ltac:(by eexists)) as [cs0 Hs0].
    destruct ph as [| |o|o]; try done; eexists.
    + eapply (own_end c _ (RunReturned cs0)); [by rewrite Hst|done|by left|]. by apply (inv_keys _ H1 c).
    + eapply (own_end c _ (RunCancelled cs0)); [by rewrite Hst|done|by right|].
      simpl. unfold cause_unless_set. rewrite <-(inv_keys _ H1 c cs0 Hs0). by destruct (hangup_cause cs0).
    + eapply (own_finalized c o s0 st 0); [by rewrite Hst|by left|done].
  - destruct (p_server s) as [srv|] eqn:Hsrv.
    + destruct (map_choose_or_empty (Grpc.conns srv)) as [(x & c & Hc)|He]; eexists.
      * by eapply own_server_conn.
      * apply own_server_stopped; [done|]. congruence.
    + eexists. apply own_server_stopped; [done|]. congruence.
  - destruct (decide (dom (inflight (p_pub s)) = ∅)) as [He|He].
    + eexists. eapply own_drained; [done|]. unfold drained. rewrite He. set_solver.
    + apply set_choose_L in He as [t Ht%elem_of_dom]. eexists. eapply (own_published t true); [by rewrite Hst|done].
  - eexists. by apply own_exit.
Qed.

(** Past its deadline the shutdown cancels nobody any more: a call that goes on is waited for
    until it ends by itself. *)
Lemma shutdown_waits_for_call cs c s s' :
  p_stage s = Waiting cs true -> c ∈ cs -> p_calls s !! c = Some Running ->
  rtc mstep s s' -> p_calls s' !! c = Some Running -> p_stage s' = Waiting cs true.
Proof.
  intros Hst Hin Hc Hr Hc'.
  assert (Hq : p_stage s' = Waiting cs true
    \/ (past_calls (p_stage s') = true /\ forall ph, p_calls s' !! c = Some ph -> active ph = false)).
  { eapply (rtc_invariant mstep (fun x => p_stage x = Waiting cs true
      \/ (past_calls (p_stage x) = true /\ forall ph, p_calls x !! c = Some ph -> active ph = false)));
      [|exact Hr|by left].
    clear -Hin. intros x y Hx Hy. destruct Hy as [Hy|Hy].
    - destruct Hy as [raw x Hst Hd|raw now mono x Hst Hd|d x Hst Hd|d x Hst Hd|d campaign payload x Hd
        |srv srv' x Hst Hsrv Hstep|x|fs x|x Hst]; simpl in *; try done; try (rewrite Hst in Hx; by destruct Hx as [|[? _]]);
        (destruct Hx as [Hx|[Hx Ha]]; [by left|right; split; [done|]]);
        intros ph [[<- <-]|[_ Hph]]%lookup_insert_Some; eauto; by apply Ha in Hd.
    - destruct Hy as [d ph o x Hx' Hd Hph Hid|d o s0 st en x Hx' Hd Hrun|t sent x Hx' Ht|x Hst Hd|raw w' x Hst Hd Hcut
        |x Hst Hd|cs' x Hst|cs' b x Hst Hall|n st srv x Hst Hsrv Hd|x Hst Hall|ts x Hst Hdr|x Hst];
        simpl in *; try done; try (destruct Hx as [Hx|[Hx Ha]]; rewrite Hst in Hx; simplify_eq; try done; right; done).
      + destruct Hx as [Hx|[Hx Ha]]; [by left|right; split; [done|]].
        intros ph' [[<- <-]|[_ Hph']]%lookup_insert_Some; [|eauto]. apply Ha in Hd. by destruct Hph as [->| ->].
      + destruct Hx as [Hx|[Hx Ha]]; [by left|right; split; [done|]].
        intros ph' [_ Hph']%lookup_delete_Some. eauto.
      + destruct Hx as [Hx|[Hx _]]; rewrite Hst in Hx; simplify_eq/=. right. split; [done|].
        intros ph Hph. by eapply Hall. }
  destruct Hq as [Hq|[_ Hq]]; [done|]. by apply Hq in Hc'.
Qed.

End Process.

(** ** Runs *)

Lemma none_active {Msg} (s : Proc (Msg := Msg)) (cs : gset Z) :
  bool_decide (map_Forall (fun _ ph => active ph = false) (p_calls s)) = true ->
  forall c ph, c ∈ cs -> p_calls s !! c = Some ph -> active ph = false.
Proof. intros H%bool_decide_eq_true c ph _ Hc. exact (H c ph Hc). Qed.

Definition demo_json (_ : pystr) : option pyval := Some (VDict [("schema_version"%string, VInt 1)]).
Definition demo_valid (_ : pystr) : option DialRequest := Some (mkDial 3 2 [] 4 []).
Definition demo_session : CallSession := new_session 1 2 3 [] [] 4 0.

Abbreviation demo_step :=
  (mstep (Msg := unit) demo_causes ["none"%string] "normal_clearing" "none" (fun _ => None) demo_json demo_valid
     "dlq" "ended" "extract").

(** A call is running. *)
Definition demo_serving : Proc (Msg := unit) :=
  handled "none" demo_json demo_valid "dlq" [] 0 0 (boot_proc 1 None <| p_dial := DialHandling [] |>).

Lemma demo_serving_reached : rtc demo_step (boot_proc 1 None) demo_serving.
Proof.
  eapply rtc_l; [left; by apply out_pop with (raw := [])|]. apply rtc_once. left. by apply out_handled.
Qed.

(** The signal comes, the dial loop stops, the calls are cancelled. *)
Definition demo_cancelled (s : Proc (Msg := unit)) : Proc :=
  cancel_all_tasks (s <| p_stage := Stopping |> <| p_dial := DialDone |>).

Lemma demo_cancelled_reached s :
  p_stage s = Serving -> p_dial s = DialIdle -> rtc demo_step s (demo_cancelled s).
Proof.
  intros Hst Hd. eapply rtc_l; [left; by apply out_signal|]. eapply rtc_l; [right; by apply own_dial_stops|].
  apply rtc_once. right. by apply own_cancel_all.
Qed.

(** The rest of the sequence once no task is alive. *)
Definition demo_exit (s : Proc (Msg := unit)) : Proc := s <| p_server := None |> <| p_stage := Exited |>.

Lemma demo_exit_reached s cs :
  p_stage s = Waiting cs false -> p_server s = None -> inflight (p_pub s) = ∅ ->
  bool_decide (map_Forall (fun _ ph => active ph = false) (p_calls s)) = true ->
  rtc demo_step s (demo_exit s).
Proof.
  intros Hst Hs Hp Ha. destruct s as [w d c g p srv a f k l]. simpl in *. subst.
  eapply rtc_l; [right; eapply own_waited; [done|by apply none_active]|].
  eapply rtc_l; [right; by apply own_server_stopped|].
  eapply rtc_l; [right; eapply own_drained; [done|]; unfold drained; simpl; rewrite Hp; set_solver|].
  eapply rtc_l; [right; by apply own_exit|]. reflexivity.
Qed.

(** A call that has ended and is being finalized when the signal comes is lost, without
    any failure: the shutdown cancels its task, waits for nothing and exits; the worker is
    not told, the concurrency slot is not freed, the row stays at [INIT]. *)
Lemma shutdown_loses_finalization :
  exists s, rtc demo_step (boot_proc 1 None) s /\ p_stage s = Exited /\ p_started s = {[1]}
    /\ p_finalized s = [] /\ queues (p_world s) = ∅ /\ counter (p_world s) = 1
    /\ cr_status <$> records (p_world s) !! 1 = Some INIT /\ faults (p_world s) = [].
Proof.
  set (s1 := demo_serving <| p_calls ::= <[1 := Finalizing (RunReturned demo_session)]> |>).
  exists (demo_exit (demo_cancelled s1)). split; [|split_and!; vm_compute; reflexivity].
  etrans; [exact demo_serving_reached|].
  eapply rtc_l; [right; eapply own_end with (c := 1) (ph := Running) (o := RunReturned demo_session);
                 [discriminate|vm_compute; reflexivity|by left|reflexivity]|].
  etrans; [apply demo_cancelled_reached; reflexivity|].
  eapply demo_exit_reached; [reflexivity|reflexivity|reflexivity|vm_compute; reflexivity].
Qed.

(** A message the dial loop has taken when the signal comes is dropped: no call, no row
    and no entry of the dead-letter queue is left of it. *)
Lemma shutdown_drops_dial :
  exists s, rtc demo_step (boot_proc 1 None) s /\ p_stage s = Exited /\ p_lost_dials s = [[65]]
    /\ p_started s = ∅ /\ queues (p_world s) = ∅ /\ records (p_world s) = ∅ /\ counter (p_world s) = 1.
Proof.
  eexists. split.
  { eapply rtc_l; [left; by apply out_pop with (raw := [65])|]. eapply rtc_l; [left; by apply out_signal|].
  eapply rtc_l; [right; eapply own_dial_cut with (raw := [65]) (w' := boot 1); [done|done|by left]|].
  eapply rtc_l; [right; by apply own_cancel_all|].
  eapply demo_exit_reached; [reflexivity|reflexivity|reflexivity|vm_compute; reflexivity]. }
  split_and!; vm_compute; reflexivity.
Qed.

(** A call that speaks when it is cancelled, at the signal and again at the deadline, goes on
    both times, and the shutdown waits for it. *)
Lemma shutdown_outlasted :
  exists s, rtc demo_step (boot_proc 1 None) s /\ p_stage s = Waiting {[1]} true
    /\ p_calls s !! 1 = Some Running /\ faults (p_world s) = [].
Proof.
  set (s1 := demo_cancelled demo_serving <| p_calls ::= <[1 := Running]> |>).
  exists (deadline {[1]} s1 <| p_calls ::= <[1 := Running]> |>). split; [|split_and!; vm_compute; reflexivity].
  etrans; [exact demo_serving_reached|]. etrans; [apply demo_cancelled_reached; reflexivity|].
  eapply rtc_l; [left; apply out_swallowed with (c := 1); [discriminate|vm_compute; reflexivity]|].
  eapply rtc_l; [right; apply own_deadline; vm_compute; reflexivity|].
  apply rtc_once. left. apply out_swallowed with (c := 1); [discriminate|vm_compute; reflexivity].
Qed.

(** ** Witnesses *)

(** A call running at the signal is unwound, finalized and waited for. *)
Definition demo_settled : Proc (Msg := unit) :=
  demo_exit (finalized demo_causes ["none"%string] "normal_clearing" "none" (fun _ => None) "ended" "extract" 1
    (RunCancelled demo_session) 0 5
    (demo_cancelled demo_serving <| p_calls ::= <[1 := Finalizing (RunCancelled demo_session)]> |>)).

Lemma demo_settled_reached : rtc demo_step (boot_proc 1 None) demo_settled.
Proof.
  etrans; [exact demo_serving_reached|]. etrans; [apply demo_cancelled_reached; reflexivity|].
  eapply rtc_l; [right; eapply own_end with (c := 1) (ph := Unwinding) (o := RunCancelled demo_session);
                 [discriminate|vm_compute; reflexivity|by right|reflexivity]|].
  eapply rtc_l; [right; eapply own_finalized with (c := 1) (o := RunCancelled demo_session) (st := 0) (en := 5);
                 [discriminate|left; vm_compute; reflexivity|vm_compute; reflexivity]|].
  eapply demo_exit_reached; [reflexivity|reflexivity|reflexivity|vm_compute; reflexivity].
Qed.

Lemma shutdown_settles_calls_witness :
  p_started demo_settled = {[1]} /\ p_finalized demo_settled = [1] /\ sessions (p_world demo_settled) = ∅
  /\ inflight (p_pub demo_settled) = ∅.
Proof.
  destruct (shutdown_settles_calls demo_causes ["none"%string] "normal_clearing" "none" (fun _ => None) demo_json
    demo_valid "dlq" "ended" "extract" 1 None demo_settled demo_settled_reached eq_refl) as (_ & _ & Hr & Hp & _).
  split; [vm_compute; reflexivity|]. split; [vm_compute; reflexivity|]. split; [|exact Hp].
  apply Hr. vm_compute. reflexivity.
Defined.

