(* ===== verification/Probes.v ===== *)
(** * Operational scripts

    The scripts of [scripts/], over the components they drive: the bidirectional speech
    probe with its credentials, its codec and its whole exchange ([tts_bidi_probe.py], Module
    [Bidi]), the probe that keeps one recogniser connection over several utterances
    ([continuous_asr_probe.py], Module [AsrProbe], on the codec of [Providers.Asr]), the
    injection of a dial request ([fake_dial.py], Module [FakeDial], on the queues of
    [Lifecycle]), and the two checks of the RTC link ([dingrtc_demo_smoke.py] and
    [ecs_pcm_loopback_listen.py], Module [RtcCheck], over any channel of [DingRtc]). *)
From S2P Require Import Orchestrator Lifecycle.
From S2P Require Import Prelude Bytes Session Providers Binding DingRtc.
Import Providers.Asr.

(** ** The bidirectional speech protocol *)
Module Bidi.

Definition MSG_FULL_CLIENT : Z := 1.
Definition MSG_AUDIO_SERVER : Z := 11.
Definition MSG_ERROR : Z := 15.
Definition FLAG_WITH_EVENT : Z := 4.
Definition SER_JSON : Z := 1.
Definition COMP_NONE : Z := 0.
Definition COMP_GZIP : Z := 1.

Definition EV_CONNECTION_FAILED : Z := 51.
Definition EV_SESSION_FINISHED : Z := 152.
Definition EV_SESSION_FAILED : Z := 153.
Definition EV_TTS_RESPONSE : Z := 352.
Definition EV_TTS_ENDED : Z := 359.

Definition CONNECTION_EVENTS : list Z := [1; 2; 50; 51; 52].

Definition is_connection_event (event : Z) : bool := bool_decide (event ∈ CONNECTION_EVENTS).

(** [sid] is the session's id in UTF-8; [None] when [bytes] or [struct.pack] refuses a
    value. *)
Definition encode (event : Z) (sid payload : bytes) (msg_type serialization : Z) : option bytes :=
  let header := [Z.lor (Z.shiftl PROTO_VERSION 4) HEADER_SIZE_UNITS;
                 Z.lor (Z.shiftl msg_type 4) FLAG_WITH_EVENT;
                 Z.lor (Z.shiftl serialization 4) COMP_NONE; 0] in
  if forallb (fun b => (0 <=? b) && (b <? 256)) header && (-2147483648 <=? event) && (event <=? 2147483647)
     && (is_connection_event event || (zlen sid <? 4294967296)) && (zlen payload <? 4294967296)
  then Some (header ++ be_encode 4 event
             ++ (if is_connection_event event then [] else be_encode 4 (zlen sid) ++ sid)
             ++ be_encode 4 (zlen payload) ++ payload)
  else None.

Record Frame := mkFrame {
  f_msg_type : Z; f_flags : Z; f_serialization : Z; f_compression : Z;
  f_event : option Z; f_session_id : option bytes; f_error_code : option Z; f_payload : bytes }.

Definition decode (gunzip : bytes -> option bytes) (raw : bytes) : result DecodeError Frame :=
  match raw with
  | b0 :: b1 :: b2 :: _ =>
      let msg_type := Z.shiftr b1 4 in
      let flags := Z.land b1 15 in
      let serialization := Z.shiftr b2 4 in
      let compression := Z.land b2 15 in
      let cur := Z.land b0 15 * 4 in
      let? (event, session_id, cur) :=
        if negb (Z.land flags FLAG_WITH_EVENT =? 0) then
          let? ev := unpack_i32 raw cur in
          if is_connection_event ev then Ok (Some ev, None, cur + 4)
          else
            let? slen := unpack_u32 raw (cur + 4) in
            Ok (Some ev, Some (slice (cur + 8) (cur + 8 + slen) raw), cur + 8 + slen)
        else Ok (None, None, cur) in
      let? (error_code, cur) :=
        if msg_type =? MSG_ERROR then let? c := unpack_i32 raw cur in Ok (Some c, cur + 4)
        else Ok (None, cur) in
      let? payload :=
        if cur + 4 <=? zlen raw then
          let? psize := unpack_u32 raw cur in
          let p := slice (cur + 4) (cur + 4 + psize) raw in
          Ok (if (compression =? COMP_GZIP) && negb (zlen p =? 0) then default p (gunzip p) else p)
        else Ok [] in
      Ok (mkFrame msg_type flags serialization compression event session_id error_code payload)
  | _ => Err FrameTooShort
  end.

(** One frame of the drain loop: what it does to the audio collected. *)
Inductive Collected : Type := More (pcm : bytes) | Ended | Failed.

(** [audio_of] is the decoded [data] of a JSON response, if there is one. *)
Definition collect (audio_of : bytes -> option bytes) (f : Frame) (pcm : bytes) : Collected :=
  let ev e := bool_decide (f_event f = Some e) in
  if (f_msg_type f =? MSG_ERROR) || ev EV_CONNECTION_FAILED || ev EV_SESSION_FAILED then Failed
  else if (f_msg_type f =? MSG_AUDIO_SERVER) && negb (zlen (f_payload f) =? 0) then More (pcm ++ f_payload f)
  else if ev EV_TTS_RESPONSE && negb (zlen (f_payload f) =? 0) then
    if f_serialization f =? SER_JSON then More (pcm ++ default [] (audio_of (f_payload f)))
    else More (pcm ++ f_payload f)
  else if ev EV_SESSION_FINISHED || ev EV_TTS_ENDED then Ended
  else More pcm.

(** Decoding an encoded client frame gives back its event, session and payload. *)
Lemma bidi_roundtrip gunzip event sid payload msg_type ser :
  0 <= msg_type < 16 -> msg_type <> MSG_ERROR -> 0 <= ser < 16 -> -2147483648 <= event <= 2147483647 ->
  zlen sid < 4294967296 -> zlen payload < 4294967296 ->
  exists raw, encode event sid payload msg_type ser = Some raw
    /\ decode gunzip raw = Ok (mkFrame msg_type FLAG_WITH_EVENT ser COMP_NONE (Some event)
                                 (if is_connection_event event then None else Some sid) None payload).
Proof.
  intros Hm Hne Hs He Hsid Hp. pose proof (zlen_nonneg payload) as Hp0. pose proof (zlen_nonneg sid) as Hs0.
  destruct (nibbles msg_type FLAG_WITH_EVENT Hm ltac:(done)) as (M1 & M2 & M3 & M4).
  destruct (nibbles ser COMP_NONE Hs ltac:(done)) as (S1 & S2 & S3 & S4).
  set (h1 := Z.lor (Z.shiftl msg_type 4) FLAG_WITH_EVENT) in *. set (h2 := Z.lor (Z.shiftl ser 4) COMP_NONE) in *.
  set (header := [17; h1; h2; 0]).
  set (mid := if is_connection_event event then [] else be_encode 4 (zlen sid) ++ sid).
  exists (header ++ be_encode 4 event ++ mid ++ be_encode 4 (zlen payload) ++ payload). split.
  { unfold encode. fold h1 h2 mid. change (Z.lor (Z.shiftl PROTO_VERSION 4) HEADER_SIZE_UNITS) with 17.
    fold header. replace (_ && _) with true; [done|]. symmetry. unfold header. simpl.
    rewrite !(proj2 (Z.leb_le _ _)), !(proj2 (Z.ltb_lt _ _)) by lia. by rewrite orb_true_r. }
  unfold decode, header. cbn [app]. rewrite M1, M2, S1, S2. change (Z.land 17 15 * 4) with 4.
  change (negb (Z.land FLAG_WITH_EVENT FLAG_WITH_EVENT =? 0)) with true. cbv iota.
  rewrite (proj2 (Z.eqb_neq msg_type _)) by done.
  change (17 :: h1 :: h2 :: 0 :: be_encode 4 event ++ mid ++ be_encode 4 (zlen payload) ++ payload)
    with (header ++ be_encode 4 event ++ mid ++ be_encode 4 (zlen payload) ++ payload).
  rewrite unpack_i32_app by done. cbn [rbind]. unfold mid. destruct (is_connection_event event).
  - cbn [rbind app]. rewrite (app_assoc header).
    rewrite (proj2 (Z.leb_le _ _)) by (rewrite !zlen_app, !be4_length; unfold header, zlen; simpl; lia).
    rewrite unpack_u32_app by (rewrite ?zlen_app, ?be4_length; done || lia). cbn [rbind]. do 2 f_equal.
    rewrite (app_assoc _ (be_encode 4 (zlen payload))).
    apply slice_tail; rewrite !zlen_app, !be4_length; unfold header, zlen; simpl; lia.
  - rewrite <-!app_assoc, (app_assoc header).
    rewrite unpack_u32_app by (rewrite ?zlen_app, ?be4_length; done || lia). cbn [rbind].
    rewrite (app_assoc (header ++ _)).
    rewrite slice_middle by (rewrite !zlen_app, !be4_length; unfold header, zlen; simpl; lia).
    rewrite (app_assoc (_ ++ be_encode 4 (zlen sid))).
    rewrite (proj2 (Z.leb_le _ _)) by (rewrite !zlen_app, !be4_length; unfold header, zlen; simpl; lia).
    rewrite unpack_u32_app
      by (rewrite ?zlen_app, ?be4_length; try lia; unfold header, zlen; simpl; lia). cbn [rbind]. do 2 f_equal.
    rewrite (app_assoc _ (be_encode 4 (zlen payload))).
    apply slice_tail; rewrite !zlen_app, !be4_length; unfold header, zlen; simpl; lia.
Qed.

(** *** The exchange *)

(** [os.environ.get(name, default).strip()]. *)
Definition env_or (env : string -> option pystr) (name : string) (dflt : pystr) : pystr :=
  py_strip (default dflt (env name)).

(** [_headers]; [None] is [sys.exit] without credentials. *)
Definition headers (env : string -> option pystr) (request_id connect_id : pystr) : option (list (string * pystr)) :=
  let api_key := env_or env "ISALES_VOLC_API_KEY" [] in
  let app_key := env_or env "ISALES_VOLC_APP_KEY" [] in
  let access_key := env_or env "ISALES_VOLC_ACCESS_KEY" [] in
  let app_id := env_or env "ISALES_VOLC_APP_ID" [] in
  let opt k v := match v with [] => [] | _ => [(k, v)] end in
  match api_key, app_key, access_key with
  | [], [], _ | [], _, [] => None
  | _, _, _ =>
      Some ([("X-Api-Resource-Id"%string, env_or env "ISALES_VOLC_TTS_RESOURCE_ID" (u8 "seed-tts-2.0"));
             ("X-Api-Request-Id"%string, request_id); ("X-Api-Connect-Id"%string, connect_id)]
            ++ opt "X-Api-Key"%string api_key ++ opt "X-Api-App-Key"%string app_key
            ++ opt "X-Api-Access-Key"%string access_key ++ opt "X-Api-App-Id"%string app_id)
  end.

(** [_req_params], given the environment's voice and audio parameters. *)
Definition req_params (voice : pystr) (audio_params : pyval) (text : option pystr) : list (string * pyval) :=
  [("speaker"%string, VStr voice); ("audio_params"%string, audio_params)]
  ++ match text with Some t => [("text"%string, VStr t)] | None => [] end.

Definition EV_START_CONNECTION : Z := 1.
Definition EV_FINISH_CONNECTION : Z := 2.
Definition EV_START_SESSION : Z := 100.
Definition EV_FINISH_SESSION : Z := 102.
Definition EV_TASK_REQUEST : Z := 200.

Section Exchange.
  Context (json_dumps : pyval -> bytes) (gunzip : bytes -> option bytes) (audio_of : bytes -> option bytes).
  Context (uid voice : pystr) (audio_params : pyval) (session_id : bytes).

(** The JSON of a session start and of a task. *)
Definition request (text : option pystr) (event : Z) : bytes :=
  json_dumps (VDict [("user"%string, VDict [("uid"%string, VStr uid)]);
                     ("namespace"%string, VStr (u8 "BidirectionalTTS"));
                     ("req_params"%string, VDict (req_params voice audio_params text));
                     ("event"%string, VInt event)]).

Definition client_frame (event : Z) (payload : bytes) : option bytes :=
  encode event session_id payload MSG_FULL_CLIENT SER_JSON.

(** [expect]: the next message, within its time, and no error. *)
Definition expect (msgs : list bytes) : option (list bytes) :=
  match msgs with
  | [] => None
  | raw :: msgs' =>
      match decode gunzip raw with
      | Err _ => None
      | Ok m =>
          let ev e := bool_decide (f_event m = Some e) in
          if (f_msg_type m =? MSG_ERROR) || ev EV_CONNECTION_FAILED || ev EV_SESSION_FAILED then None
          else Some msgs'
      end
  end.

(** The drain until a terminal event; running out of messages is the timeout. *)
Fixpoint drain_audio (msgs : list bytes) (pcm : bytes) : option bytes :=
  match msgs with
  | [] => None
  | raw :: msgs' =>
      match decode gunzip raw with
      | Err _ => None
      | Ok m =>
          match collect audio_of m pcm with
          | More pcm' => drain_audio msgs' pcm'
          | Ended => Some pcm
          | Failed => None
          end
      end
  end.

(** [main] from the connection on: the exit code, the frames sent and the audio.  [msgs]
    are the server's messages; a frame that cannot be encoded is an exception like any
    other. *)
Definition probe (sentences : list pystr) (msgs : list bytes) : Z * list (option bytes) * bytes :=
  let hello := client_frame EV_START_CONNECTION (u8 "{}") in
  let start := client_frame EV_START_SESSION (request None EV_START_SESSION) in
  let tasks := map (fun s => client_frame EV_TASK_REQUEST (request (Some s) EV_TASK_REQUEST)) sentences in
  let finish := client_frame EV_FINISH_SESSION (u8 "{}") in
  let bye := client_frame EV_FINISH_CONNECTION (u8 "{}") in
  let all := [hello; start] ++ tasks ++ [finish; bye] in
  match expect msgs with
  | None => (1, [hello], [])
  | Some msgs1 =>
      match expect msgs1 with
      | None => (1, [hello; start], [])
      | Some msgs2 =>
          if forallb (fun f => bool_decide (is_Some f)) ([hello; start] ++ tasks ++ [finish]) then
            match drain_audio msgs2 [] with
            | None => (1, [hello; start] ++ tasks ++ [finish], [])
            | Some [] => (2, all, [])
            | Some pcm => (0, all, pcm)
            end
          else (1, [hello; start], [])
      end
  end.

(** What one frame adds to the audio. *)
Definition audio_part (m : Frame) : bytes := match collect audio_of m [] with More p => p | _ => [] end.

Lemma collect_appends m pcm :
  match collect audio_of m pcm with
  | More p => p = pcm ++ audio_part m /\ exists q, collect audio_of m [] = More q
  | Ended => collect audio_of m [] = Ended
  | Failed => collect audio_of m [] = Failed
  end.
Proof.
  unfold audio_part, collect. repeat case_match; simplify_eq; try done; rewrite ?app_nil_r; eauto.
Qed.

Lemma drain_audio_spec msgs pcm out :
  drain_audio msgs pcm = Some out ->
  exists ms last rest, rmap (decode gunzip) (take (S (length ms)) msgs) = Ok (ms ++ [last])
    /\ drop (S (length ms)) msgs = rest
    /\ out = pcm ++ concat (map audio_part ms) /\ collect audio_of last [] = Ended.
Proof.
  revert pcm. induction msgs as [|raw msgs IH]; intros pcm; cbn [drain_audio]; [done|].
  destruct (decode gunzip raw) as [m|] eqn:Hd; [|done].
  pose proof (collect_appends m pcm) as Hc. destruct (collect audio_of m pcm) as [p| |]; [| |done].
  - destruct Hc as [-> _]. intros (ms & last & rest & Hm & Hr & -> & Hl)%IH.
    exists (m :: ms), last, rest. split_and!; [|done|by simpl; rewrite app_assoc|done].
    cbn [length take rmap]. rewrite Hd. cbn [rbind]. cbn [take] in Hm. by rewrite Hm.
  - intros [= <-]. exists [], m, msgs. split_and!; [|done|by simpl; rewrite app_nil_r|done].
    cbn [length take rmap]. by rewrite Hd.
Qed.

(** A probe that passes did the whole exchange: both handshakes were answered, every
    sentence was sent, in order and between the session's start and end, and the audio it
    reports is the audio of the frames up to the terminal one. *)
Lemma probe_passes sentences msgs sent pcm :
  probe sentences msgs = (0, sent, pcm) ->
  pcm <> []
  /\ sent = [client_frame EV_START_CONNECTION (u8 "{}");
             client_frame EV_START_SESSION (request None EV_START_SESSION)]
            ++ map (fun s => client_frame EV_TASK_REQUEST (request (Some s) EV_TASK_REQUEST)) sentences
            ++ [client_frame EV_FINISH_SESSION (u8 "{}"); client_frame EV_FINISH_CONNECTION (u8 "{}")]
  /\ exists a b msgs2 ms last, msgs = a :: b :: msgs2
     /\ rmap (decode gunzip) (take (S (length ms)) msgs2) = Ok (ms ++ [last])
     /\ pcm = concat (map audio_part ms) /\ collect audio_of last [] = Ended.
Proof.
  unfold probe. destruct (expect msgs) as [msgs1|] eqn:H1; [|done].
  destruct (expect msgs1) as [msgs2|] eqn:H2; [|done]. destruct (forallb _ _); [|done].
  destruct (drain_audio msgs2 []) as [[|x out]|] eqn:Hd; [done| |done]. intros [= <- <-].
  split_and!; [done|done|].
  assert (Hexp : forall l l', expect l = Some l' -> exists r, l = r :: l').
  { intros [|r l] l'; simpl; [done|]. destruct (decode gunzip r); [|done].
    destruct (_ || _); [done|]. intros [= <-]. by exists r. }
  destruct (Hexp _ _ H1) as [a ->]. destruct (Hexp _ _ H2) as [b ->].
  apply drain_audio_spec in Hd as (ms & last & rest & Hm & _ & Ho & Hl). by exists a, b, msgs2, ms, last.
Qed.
End Exchange.

(** *** What goes in and what comes out *)

(** The environment, and [os.environ.setdefault]. *)
Abbreviation environ := (list (string * pystr)).

Definition setdefault (k : string) (v : pystr) (env : environ) : environ :=
  match dget k env with Some _ => env | None => dset k v env end.

(** The connection string of [_load_creds_from_db]; [None] is [sys.exit]. *)
Definition probe_dsn (env : environ) : option pystr :=
  match str_or (dget "ISALES_DATABASE_URL"%string env) (default [] (dget "DATABASE_URL"%string env)) with
  | [] => None
  | dsn => Some (if startswith dsn (u8 "postgresql://")
                 then u8 "postgresql+asyncpg://" ++ drop (length (u8 "postgresql://")) dsn else dsn)
  end.

(** A credential of the store that is not empty. *)
Definition given (get : string -> option pystr) (field : string) : option pystr :=
  match get field with Some (_ :: _ as v) => Some v | _ => None end.

Definition put_given (get : string -> option pystr) (field name : string) (env : environ) : environ :=
  match given get field with Some v => setdefault name v env | None => env end.

(** [_load_creds_from_db] once the store is read: what the operator set stays. *)
Definition load_creds (get : string -> option pystr) (env : environ) : environ :=
  let env := put_given get "api_key" "ISALES_VOLC_API_KEY" env in
  let env := put_given get "app_key" "ISALES_VOLC_APP_KEY" env in
  let env := put_given get "app_key" "ISALES_VOLC_APP_ID" env in
  let env := put_given get "app_token" "ISALES_VOLC_ACCESS_KEY" env in
  match given get "tts_resource_id", default [] (dget "ISALES_VOLC_TTS_RESOURCE_ID"%string env) with
  | Some v, [] => dset "ISALES_VOLC_TTS_RESOURCE_ID"%string v env
  | _, _ => env
  end.

(** [text.split(sep)] for a one-character separator. *)
Fixpoint split_char (sep : Z) (s : pystr) : list pystr :=
  match s with
  | [] => [[]]
  | c :: s' =>
      if c =? sep then [] :: split_char sep s'
      else match split_char sep s' with w :: ws => (c :: w) :: ws | [] => [[c]] end
  end.

(** [re.split(r"(?<=[。！？])", text)]: a cut after each of the three marks. *)
Definition FULL_STOPS : list Z := u8 "。！？".

Fixpoint split_after (s : pystr) : list pystr :=
  match s with
  | [] => [[]]
  | c :: s' =>
      if bool_decide (c ∈ FULL_STOPS) then [c] :: split_after s'
      else match split_after s' with w :: ws => (c :: w) :: ws | [] => [[c]] end
  end.

Definition non_blank (t : pystr) : bool := negb (zlen (py_strip t) =? 0).

(** The tasks of one session. *)
Definition probe_sentences (text : pystr) : list pystr :=
  let parts := List.filter (fun t => negb (zlen t =? 0))
                 (map py_strip (split_char 59 (py_replace text (u8 "；") [59]))) in
  match parts with
  | [_] => List.filter non_blank (split_after text)
  | _ => parts
  end.

(** [s.rsplit(".", 1)[0]]. *)
Fixpoint before_last_dot (s : pystr) : option pystr :=
  match s with
  | [] => None
  | c :: s' =>
      match before_last_dot s' with
      | Some p => Some (c :: p)
      | None => if c =? 46 then Some [] else None
      end
  end.

(** Where the audio is written: a WAV file for raw samples, else the format's own. *)
Definition probe_output (out_path fmt : pystr) : pystr :=
  if bool_decide (fmt = u8 "pcm") then out_path
  else default out_path (before_last_dot out_path) ++ [46] ++ py_replace fmt (u8 "ogg_opus") (u8 "ogg").

(** A variable the operator gave a value keeps it. *)
Lemma load_creds_keeps get env k v :
  dget k env = Some v -> v <> [] -> dget k (load_creds get env) = Some v.
Proof.
  intros Hk Hv.
  assert (Hput : forall field name e, dget k e = Some v -> dget k (put_given get field name e) = Some v).
  { intros field name e He. unfold put_given, setdefault. destruct (given get field) as [x|]; [|done].
    destruct (dget name e) eqn:Hn; [done|]. rewrite dget_dset_ne; [done|]. congruence. }
  unfold load_creds. set (env4 := put_given get "app_token" _ _).
  assert (He : dget k env4 = Some v) by (by repeat apply Hput). clearbody env4.
  destruct (given get "tts_resource_id") as [x|]; [|done].
  destruct (default [] (dget _ env4)) eqn:Hd; [|done]. rewrite dget_dset_ne; [done|]. intros ->.
  rewrite He in Hd. simpl in Hd. congruence.
Qed.

(** Cutting at the full stops loses nothing. *)
Lemma split_after_concat s : concat (split_after s) = s.
Proof.
  induction s as [|c s IH]; simpl; [done|]. case_bool_decide; simpl; [by rewrite IH|].
  destruct (split_after s) as [|w ws]; simpl in *; by rewrite <-IH.
Qed.

Lemma probe_sentences_spoken text : Forall (fun t => non_blank t = true) (List.filter non_blank (split_after text)).
Proof. apply Forall_forall. intros t Ht%list_elem_of_In%List.filter_In. apply Ht. Qed.
End Bidi.

(** ** One connection for several utterances *)
Module AsrProbe.

Definition SR : Z := 16000.
Definition FRAME_BYTES : Z := SR / 100 * 2.

(** [b"\x00" * (int(SR * SILENCE_GAP_S) * 2)], a gap of 1.2 seconds. *)
Definition silence_gap : bytes := zeros (SR * 12 / 10 * 2).

(** The frames of [_feed]: ten milliseconds each, the last one filled up. *)
Fixpoint feed_frames (fuel : nat) (seg : bytes) : list bytes :=
  match fuel, seg with
  | S fuel', _ :: _ =>
      let frame := take (Z.to_nat FRAME_BYTES) seg in
      (frame ++ zeros (FRAME_BYTES - zlen frame)) :: feed_frames fuel' (drop (Z.to_nat FRAME_BYTES) seg)
  | _, _ => []
  end.

Definition feed (seg : bytes) : list bytes := feed_frames (length seg) seg.

(** [_synth]: the whole of a phrase's audio; [synthesize] stands for the speech provider the
    script imports, which is not in the repository. *)
Definition synth (synthesize : pystr -> pystr -> list bytes) (text : pystr) : bytes :=
  concat (synthesize text (u8 "default")).

Definition probe_config : pyval :=
  VDict [("user"%string, VDict [("uid"%string, VStr (u8 "isales-probe"))]);
         ("audio"%string, VDict [("format"%string, VStr (u8 "pcm")); ("rate"%string, VInt SR);
            ("bits"%string, VInt 16); ("channel"%string, VInt 1); ("language"%string, VStr (u8 "zh-CN"))]);
         ("request"%string, VDict [("model_name"%string, VStr (u8 "bigmodel"));
            ("enable_itn"%string, VBool true); ("enable_punc"%string, VBool true);
            ("result_type"%string, VStr (u8 "single")); ("show_utterances"%string, VBool true);
            ("end_window_size"%string, VInt 500)])].

Section Probe.
  Context (json_dumps : pyval -> bytes) (json_loads : bytes -> option pyval) (gunzip : bytes -> option bytes)
    (synthesize : pystr -> pystr -> list bytes).

Definition audio_frame (payload : bytes) : option bytes :=
  encode_frame MSG_AUDIO_ONLY_REQUEST FLAGS_NO_SEQ SERIALIZATION_RAW COMPRESSION_NONE payload None.

(** Every phrase with a gap after it. *)
Definition audio_sent (gap : bytes) (phrases : list pystr) : list bytes :=
  concat (map (fun t => feed (synth synthesize t) ++ feed gap) phrases).

(** What [main] sends over the one connection: the configuration, the audio, and the last
    packet at the end only. *)
Definition frames_sent (phrases : list pystr) : list (option bytes) :=
  [encode_frame MSG_FULL_CLIENT_REQUEST FLAGS_NO_SEQ SERIALIZATION_JSON COMPRESSION_NONE
     (json_dumps probe_config) None]
  ++ map audio_frame (audio_sent silence_gap phrases)
  ++ [encode_frame MSG_AUDIO_ONLY_REQUEST FLAGS_NO_SEQ_LAST_PACKET SERIALIZATION_RAW COMPRESSION_NONE [] None].

(** What [_recv] makes of one message: an error or a transcript to print, nothing, or an
    exception that ends it. *)
Inductive Heard : Type :=
| HError (code : option Z) (head : bytes)
| HText (text : pyval) (utterances : list (list (string * pyval)))
| HNothing
| HRaised.

Definition as_dict (v : pyval) : option (list (string * pyval)) :=
  match v with VDict d => Some d | _ => None end.

Definition recv_one (raw : bytes) : Heard :=
  match decode_frame gunzip raw with
  | Err _ => HRaised
  | Ok d =>
      if d_msg_type d =? MSG_ERROR_RESPONSE then HError (d_error_code d) (take 200 (d_payload d))
      else if negb (d_msg_type d =? MSG_FULL_SERVER_RESPONSE) || (zlen (d_payload d) =? 0) then HNothing
      else
        match json_loads (d_payload d) with
        | None => HNothing
        | Some (VDict data) =>
            match or_default (dget "result"%string data) (VDict []) with
            | VDict res =>
                let text := default (VStr []) (dget "text"%string res) in
                match or_default (dget "utterances"%string res) (VList []) with
                | VList us =>
                    match mapM as_dict us with
                    | Some ds => if truthy text || negb (zlen ds =? 0) then HText text ds else HNothing
                    | None => HRaised
                    end
                | _ => HRaised
                end
            | _ => HRaised
            end
        | Some _ => HRaised
        end
  end.

(** [_recv]: the first exception ends it, and is raised again when [main] awaits the task. *)
Fixpoint recv (msgs : list bytes) : list Heard * bool :=
  match msgs with
  | [] => ([], true)
  | raw :: msgs' =>
      match recv_one raw with
      | HRaised => ([], false)
      | HNothing => recv msgs'
      | h => let '(hs, ok) := recv msgs' in (h :: hs, ok)
      end
  end.

Lemma feed_frames_spec fuel seg :
  (length seg <= fuel)%nat ->
  Forall (fun f => zlen f = FRAME_BYTES) (feed_frames fuel seg)
  /\ exists pad, concat (feed_frames fuel seg) = seg ++ zeros pad /\ 0 <= pad < FRAME_BYTES.
Proof.
  assert (HF : FRAME_BYTES = 320) by done. rewrite !HF.
  revert seg. induction fuel as [|fuel IH]; intros seg Hl.
  { destruct seg; [|simpl in Hl; lia]. split; [constructor|]. exists 0. split; [done|lia]. }
  destruct (decide (seg = [])) as [->|Hne]; [split; [constructor|]; exists 0; split; [done|lia]|].
  assert (Heq : feed_frames (S fuel) seg = (take 320 seg ++ zeros (320 - zlen (take 320 seg)))
                                             :: feed_frames fuel (drop 320 seg)) by (by destruct seg).
  assert (Hpos : (0 < length seg)%nat) by (destruct seg; [done|simpl; lia]).
  rewrite Heq. destruct (IH (drop 320 seg)) as (Hf & pad & Hc & Hp); [rewrite length_drop; lia|].
  assert (Ht : zlen (take 320 seg) <= 320) by (unfold zlen; rewrite length_take; lia).
  split.
  - constructor; [|done]. rewrite zlen_app. unfold zlen at 2. unfold zeros. rewrite repeat_length. lia.
  - cbn [concat]. rewrite Hc, <-app_assoc. destruct (decide (length seg <= 320)%nat) as [Hs|Hs].
    + assert (Hd : drop 320 seg = []) by (apply drop_ge; lia). rewrite Hd in *. rewrite take_ge by lia.
      assert (pad = 0) as ->.
      { apply (f_equal length) in Hc. revert Hc. destruct fuel; simpl; unfold zeros; rewrite repeat_length; lia. }
      exists (320 - zlen seg). rewrite !app_nil_r. split; [done|]. unfold zlen. lia.
    + exists pad. split; [|done].
      replace (320 - zlen (take 320 seg)) with 0 by (unfold zlen; rewrite length_take; lia).
      change (zeros 0) with (@nil Z). cbn [app]. by rewrite app_assoc, take_drop.
Qed.

Lemma zeros_app m n : 0 <= m -> 0 <= n -> zeros m ++ zeros n = zeros (m + n).
Proof. intros Hm Hn. unfold zeros. rewrite <-repeat_app. f_equal. lia. Qed.

Lemma feed_spec seg :
  Forall (fun f => zlen f = FRAME_BYTES) (feed seg)
  /\ exists pad, concat (feed seg) = seg ++ zeros pad /\ 0 <= pad < FRAME_BYTES.
Proof. by apply feed_frames_spec. Qed.

(** The vendor gets every phrase whole and in order, in frames of ten milliseconds, with
    nothing but silence between them, at least the gap after each; the stream is not ended
    between two phrases. *)
Lemma audio_sent_spec gap phrases :
  0 <= gap ->
  Forall (fun f => zlen f = FRAME_BYTES) (audio_sent (zeros gap) phrases)
  /\ exists gaps, length gaps = length phrases
     /\ Forall (fun n => gap <= n < gap + 2 * FRAME_BYTES) gaps
     /\ concat (audio_sent (zeros gap) phrases)
        = concat (zip_with (fun t n => synth synthesize t ++ zeros n) phrases gaps).
Proof.
  intros Hgap. unfold audio_sent. destruct (feed_spec (zeros gap)) as (Hf2 & pad2 & Hcat2 & Hp2).
  generalize dependent (feed (zeros gap)). intros gf Hf2 Hcat2.
  induction phrases as [|t ts [IHf (gaps & Hn & Hg & Hc)]]; simpl; [split; [done|by exists []]|].
  destruct (feed_spec (synth synthesize t)) as (Hf & pad & Hcat & Hp).
  split; [by rewrite !Forall_app|]. exists (pad + (gap + pad2) :: gaps).
  split_and!; [simpl; lia|constructor; [lia|exact Hg]|]. simpl.
  rewrite !concat_app, Hc, Hcat, Hcat2, (zeros_app gap), <-(zeros_app pad) by lia.
  by rewrite <-!app_assoc.
Qed.
End Probe.
End AsrProbe.

(** ** Injecting a dial request *)
Module FakeDial.

(** The leads: campaign and phone by id. *)
Abbreviation leads := (gmap Z (Z * pystr)).

(** [_ensure_lead]: an existing lead, or a new one under the id the database gives; [None]
    is [SystemExit]. *)
Definition ensure_lead (fresh campaign_id : Z) (lead_id : option Z) (phone : pystr) (db : leads)
  : option (Z * pystr) * leads :=
  match lead_id with
  | Some i =>
      match db !! i with
      | None => (None, db)
      | Some (_, p) => (Some (i, p), db)
      end
  | None => (Some (fresh, phone), <[fresh := (campaign_id, phone)]> db)
  end.

(** The lead dialled is in the table with the phone dialled, and no other row changed; a
    lead that was asked for and does not exist is never created. *)
Lemma ensure_lead_spec fresh campaign_id lead_id phone (db : leads) r db' :
  db !! fresh = None -> ensure_lead fresh campaign_id lead_id phone db = (r, db') ->
  db ⊆ db' /\ match r with
              | Some (i, p) => (exists c, db' !! i = Some (c, p)) /\ (forall j, lead_id = Some j -> i = j /\ db' = db)
              | None => db' = db /\ exists j, lead_id = Some j /\ db !! j = None
              end.
Proof.
  intros Hf. unfold ensure_lead. destruct lead_id as [i|].
  - destruct (db !! i) as [[c p]|] eqn:Hi; intros [= <- <-]; (split; [done|]).
    + split; [by exists c|]. by intros j [= ->].
    + split; [done|]. by exists i.
  - intros [= <- <-]. split; [by apply insert_subseteq|]. split; [|done].
    exists campaign_id. by rewrite lookup_insert_eq.
Qed.

(** [_inject] once the lead is known: [raw] is the serialised request. *)
Definition inject (no_incr : bool) (raw : pystr) (w : World) : bool * World :=
  let '(ok, w) := if no_incr then (true, w) else remote (fun w => w <| counter ::= fun n => n + 1 |>) w in
  if ok then lpush "engine:dial" (PRaw raw) w else (false, w).

(** [_inject] as a whole; [dump] serialises the request for a lead of a campaign and its
    phone.  [None] is [SystemExit]. *)
Definition fake_dial (dump : Z -> Z -> pystr -> pystr) (fresh campaign_id : Z) (lead_id : option Z)
  (phone : pystr) (no_incr : bool) (db : leads) (w : World) : option bool * leads * World :=
  match ensure_lead fresh campaign_id lead_id phone db with
  | (None, db) => (None, db, w)
  | (Some (i, p), db) => let '(ok, w) := inject no_incr (dump i campaign_id p) w in (Some ok, db, w)
  end.

(** An unknown lead is never dialled: nothing is counted or queued. *)
Lemma unknown_lead_not_dialled dump fresh campaign_id i phone no_incr (db : leads) w :
  db !! i = None -> fake_dial dump fresh campaign_id (Some i) phone no_incr db w = (None, db, w).
Proof. intros Hi. unfold fake_dial, ensure_lead. by rewrite Hi. Qed.

(** A push that fails after the counter was raised leaves a concurrency slot taken that
    no call will free. *)
Lemma failed_inject_keeps_slot raw w fs :
  faults w = false :: true :: fs ->
  (inject false raw w).1 = false /\ counter (inject false raw w).2 = counter w + 1
  /\ queues (inject false raw w).2 = queues w.
Proof. intros Hf. unfold inject, lpush, remote. rewrite Hf. simpl. by rewrite ?Hf. Qed.
End FakeDial.

(** ** Checking the RTC link *)
Module RtcCheck.

Definition DEMO_APP_ID : pystr := u8 "a4zfr1hn".

(** The application id and key of [run]: [real] asks for the real ones. *)
Definition credentials (real : bool) (env : string -> pystr) : option (pystr * pystr) :=
  let app_id := if real then env "ISALES_RTC_APP_ID" else DEMO_APP_ID in
  let app_key := env (if real then "ISALES_RTC_APP_KEY" else "ISALES_DINGRTC_DEMO_APPKEY")%string in
  match app_id, app_key with [], _ | _, [] => None | _, _ => Some (app_id, app_key) end.

Section RtcCheck.
  Context {K : Type} `{RtcChannel K}.

(** A [join] run to its end. *)
Definition join (rcs : nat -> Z) (rate channels : Z) (o : JoinOutcome) (s : Session)
  : result RtcErr unit * Session :=
  match join_begin rcs rate channels s with
  | (Ok _, s) => join_end o s
  | (Err e, s) => (Err e, s)
  end.

(** [dingrtc_demo_smoke.run] after the token: [sdk] is the session [production] builds, [None]
    its [SdkLoadError]. *)
Definition smoke (creds : option (pystr * pystr)) (sdk : option Session) (rcs : nat -> Z)
    (o : JoinOutcome) : Z * option Session :=
  match creds with
  | None => (2, None)
  | Some _ =>
      match sdk with
      | None => (3, None)
      | Some s =>
          match join rcs 16000 1 o s with
          | (Err _, s) => (4, Some s)
          | (Ok _, s) => (0, Some (leave_end (leave_begin s)))
          end
      end
  end.

(** [ecs_pcm_loopback_listen]: the pushes of the silence loop up to the first that fails. *)
Fixpoint push_silence (chunk : bytes) (chunk_ms ts : Z) (rcs : list (nat -> Z)) (s : Session) : nat * Session :=
  match rcs with
  | [] => (O, s)
  | f :: rcs' =>
      match push f chunk ts s with
      | (Err _, s) => (O, s)
      | (Ok _, s) => let '(n, s') := push_silence chunk chunk_ms (ts + chunk_ms) rcs' s in (S n, s')
      end
  end.

(** [consume_inbound]: frames and bytes counted. *)
Definition consume (frames : list RtcFrame) : Z * Z := (zlen frames, foldr (fun f n => zlen (fr_pcm f) + n) 0 frames).

(** [main]: the exit code from the statistics. *)
Definition listen_exit (frames : list RtcFrame) : Z := if 0 <? (consume frames).1 then 0 else 1.

(** [listen] and [main] of the loopback listener: the exit code, and the session as it is left.
    [sys.exit] with a message, and an exception of [join], make it 1. *)
Definition listen (creds : option (pystr * pystr)) (sdk : option Session) (rcs : nat -> Z) (o : JoinOutcome)
    (chunk_ms : Z) (pushes : list (nat -> Z)) (inbound : list RtcFrame) : Z * option Session :=
  match creds with
  | None => (1, None)
  | Some _ =>
      match sdk with
      | None => (1, None)
      | Some s =>
          match join rcs 8000 1 o s with
          | (Err _, s) => (1, Some s)
          | (Ok _, s) =>
              let '(_, s) := push_silence (zeros (2 * (8000 * chunk_ms / 1000))) chunk_ms 0 pushes s in
              (listen_exit inbound, Some (leave_end (leave_begin s)))
          end
      end
  end.

(** What a join run to its end leaves: a well-formed channel, held only when it joined. *)
Lemma join_spec k rcs rate o size r s :
  ch_wf k -> ch_held k = false -> o <> JoinCancelled ->
  join rcs rate 1 o (new_rtc_session k size) = (r, s) ->
  ch_wf (chan s) /\ match r with Ok _ => is_joined s = true | Err _ => ch_held (chan s) = false end.
Proof.
  intros Hw Hh Ho. unfold join, join_begin. simpl.
  assert (Hc : 1 < MAX_CHANNELS) by (unfold MAX_CHANNELS; lia).
  pose proof (ch_setup_wf rcs rate 1 k Hc Hw Hh) as Hw1.
  destruct (ch_setup rcs rate 1 k) as [[u|e] k1] eqn:Hs; simpl in Hw1.
  - pose proof (ch_joined_wf o k1 Hw1) as Hw2. unfold join_end. simpl.
    destruct (ch_joined o k1) as [[u2|e2] k2] eqn:Hjo; intros [= <- <-]; simpl in *; [done|].
    split; [done|]. pose proof (ch_setup_ok _ _ _ _ _ _ Hw Hh Hs) as Hg.
    exact (ch_joined_fails o k1 k2 e2 Hw1 Hg Ho Hjo).
  - intros [= <- <-]. simpl. split; [done|]. exact (ch_setup_fails rcs rate 1 k k1 e Hc Hw Hh Hs).
Qed.

(** Whatever code the smoke test exits with, the channel holds no vendor resources: one
    that joined was left, one that did not was torn down. *)
Lemma smoke_releases creds k rcs o size code s' :
  ch_wf k -> ch_held k = false -> o <> JoinCancelled ->
  smoke creds (Some (new_rtc_session k size)) rcs o = (code, Some s') ->
  ch_held (chan s') = false
  /\ (code = 0 <-> exists u s'', join rcs 16000 1 o (new_rtc_session k size) = (Ok u, s''))
  /\ is_Some creds.
Proof.
  intros Hw Hh Ho. unfold smoke. destruct creds as [c|]; [|done].
  destruct (join rcs 16000 1 o _) as [r s] eqn:Hj. destruct (join_spec _ _ _ _ _ _ _ Hw Hh Ho Hj) as [Hws Hhs].
  destruct r as [u|e]; intros [= <- <-].
  - split_and!; [unfold leave_begin; rewrite Hhs; by apply ch_left|split; [|done]; intros _; eauto|done].
  - split_and!; [done|split; [done|]; intros (? & ? & ?); done|done].
Qed.

(** The silence loop holds what the session held, and stops at the first failed push. *)
Lemma push_silence_held chunk ms ts rcs (s : Session) :
  ch_wf (chan s) ->
  let '(n, s') := push_silence chunk ms ts rcs s in
  (n <= length rcs)%nat /\ ch_wf (chan s') /\ ch_held (chan s') = ch_held (chan s)
  /\ is_joined s' = is_joined s /\ (is_joined s = false -> n = O).
Proof.
  revert ts s. induction rcs as [|f rcs IH]; intros ts s Hw; cbn [push_silence]; [done|].
  unfold push. destruct (is_joined s) eqn:Hj; [|split_and!; simpl; try done; lia].
  pose proof (ch_push_wf f chunk ts (chan s) Hw) as Hw1.
  pose proof (ch_push_held f chunk ts (chan s) Hw) as Hh1.
  destruct (ch_push f chunk ts (chan s)) as [[rc|e] k1]; [|split_and!; simpl in *; try done; lia].
  destruct (rc =? 0); [|split_and!; simpl in *; try done; lia].
  specialize (IH (ts + ms) (s <| chan := k1 |>) Hw1).
  destruct (push_silence chunk ms (ts + ms) rcs (s <| chan := k1 |>)) as [n s'].
  destruct IH as (Hn & Hw' & Hh' & Hj' & _). simpl in *.
  split_and!; [lia|done|congruence|congruence|done].
Qed.

(** The listener, too, leaves nothing held, however its pushes went. *)
Lemma listen_releases creds k rcs o size ms pushes inbound code s' :
  ch_wf k -> ch_held k = false -> o <> JoinCancelled ->
  listen creds (Some (new_rtc_session k size)) rcs o ms pushes inbound = (code, Some s') ->
  ch_held (chan s') = false /\ (code = 0 -> inbound <> []).
Proof.
  intros Hw Hh Ho. unfold listen. destruct creds as [c|]; [|done].
  destruct (join rcs 8000 1 o _) as [r s] eqn:Hj. destruct (join_spec _ _ _ _ _ _ _ Hw Hh Ho Hj) as [Hws Hhs].
  destruct r as [u|e]; [|intros [= <- <-]; split; [done|lia]].
  pose proof (push_silence_held (zeros (2 * (8000 * ms / 1000))) ms 0 pushes s Hws) as Hp.
  destruct (push_silence _ ms 0 pushes s) as [n s1]. destruct Hp as (_ & Hw1 & _ & Hj1 & _). intros [= <- <-].
  split; [unfold leave_begin; rewrite Hj1, Hhs; by apply ch_left|]. unfold listen_exit, consume. simpl. destruct inbound; [|done].
  unfold zlen. simpl. lia.
Qed.
End RtcCheck.
End RtcCheck.
